(* ===== verification/_CoqProject ===== *)
-Q . S2P
Prelude.v
MpscQueue.v
MpscConcurrent.v
RingMailbox.v
RunnerProtocol.v
RunnerInvariant.v
RunnerTheorems.v
RunnerMail.v
RunnerProgress.v
StoreBuffers.v
PollDriver.v
Dispatcher.v
YieldTask.v
Registry.v
RegistryConcurrent.v
RegistryLinear.v
ActorCore.v
ActorWorld.v
ActorKeeps.v
ActorCalls.v
ActorDelivery.v
ActorTheorems.v
ActorShutdown.v
ActorPosts.v
ActorDemo.v
Ask.v
AskRef.v
ActorSystem.v
AliasConcurrent.v
TimedShutdown.v
Codec.v
SessionHost.v
NetSend.v
SessionCalls.v
Transports.v
Reactor.v
ReactorLogic.v
ReactorInvariant.v
ReactorPending.v
ReactorTheorems.v
HostServer.v
ReactorDemo.v
HostActors.v
Hosts.v
Echo.v
