(* ===== verification/Prelude.v ===== *)
(** * A verification of the Dignus actor runtime

    The repository is an actor runtime in Rust: a core crate
    ([dignus-actor-core]) and a network crate on top of it
    ([dignus-actor-network]).  This library models both as executable
    definitions and proves what makes them correct; where the code does not do
    what it means to, a theorem exhibits the failing run.

    ** The program and its model

    An actor lives in a slot of the registry and is designated by a handle, an
    index with a generation.  Posting through a handle puts mail into the actor's
    bounded mailbox and, unless the actor is already scheduled, a reference to
    its runner into its dispatcher's queue.  A dispatcher thread executes the
    runner: it drains the mailbox into the actor's [on_receive], parks a receive
    that returns a future in the poll driver, and finalizes a killed actor, which
    gives its slot back.  The actor system spawns, resolves aliases and shuts
    down; asks wait for a reply or a timeout.  In the network crate a host runs a
    pool of reactors, one thread each; a reactor polls its connections, reads
    and flushes them through a plain or TLS transport, and calls its handler.
    The session actor host is such a handler: it gives every connection an
    actor and turns its byte stream into messages.  Actors answer from any
    thread through the session, which buffers and wakes the reactor.

    - [Prelude]: outcomes (value, panic, undefined behaviour), the state monad
      that keeps the state a panic leaves, locks with poisoning, machine
      integers, transition systems, shared lemmas and tactics.
    - [MpscQueue], [MpscConcurrent]: [queues/mpsc_bounded_queue.rs].  The first
      is one call at a time, with the [i64] counters and their wrap-around; the
      second has one step per atomic operation, any number of producers and the
      one consumer.  [RingMailbox]: the mailbox a runner relies on, as a step
      relation on cells, and that the concurrent ring is one.
    - [RunnerProtocol], [RunnerInvariant], [RunnerTheorems]:
      [internals/actor_runner.rs] with [poll_driver.rs]: the threads inside
      [execute], [enqueue_only], [kill] and [wake], one atomic operation per step
      over the shared record [st]; program points name the source's operations.
      The user's [on_receive], future, [on_kill] and dead letter callback are
      choices: a poll may hand out wakers whatever it returns, [on_kill] and the
      callback may panic, which ends the thread ([EDead]).  [config] says how many
      wakes follow a poll and whether those panics happen; [tame] futures wake a
      pending receive at most once per poll and a completed one never.
      [RunnerMail] reads its runs with the messages the posts carry;
      [RunnerProgress] bounds the steps left.
    - [StoreBuffers]: the hand-over between [enqueue_only] and the end of
      [execute] on a machine with store buffers.
    - [PollDriver]: [poll_driver.rs] one call at a time, and that the protocol
      run alone computes it.
    - [Dispatcher]: [dispatcher/actor_dispatcher.rs] and [dispatcher/signal.rs],
      interleaved, with spurious wakeups.
    - [YieldTask]: [dispatcher/actor_yield_task.rs],
      [object_pool/actor_yield_task_pool.rs], [actor_await.rs].
    - [Registry]: [internals/registry.rs], one call at a time.
      [RegistryConcurrent]: every generation load and store and every mutex
      acquisition a step of its own; [RegistryLinear]: that this is as good.
    - [ActorCore]: [internals/actor_ref.rs], [messages/actor_mail.rs],
      [actor_base.rs], [dead_letter], and the construction of a runner.
    - [ActorWorld]: registry, rings, runners and dispatcher queues in one world,
      with the actors' code as the interface [ActorBase]: [execute] and all it
      calls as programs over that world.  One execution is under way at a time;
      the other threads' posts, kills and wakes fall between its accesses to
      shared state as a schedule says ([interfere]), each as one step.  A spawn
      that panics and an execution that panics are steps too, with what they
      leave behind.  [ActorKeeps]: what its programs leave as it is, or change
      one way only; [ActorCalls], [ActorDelivery]: its logic and invariant;
      [ActorTheorems]: the guarantees; [ActorShutdown]: that a shutdown completes;
      [ActorPosts]: which mail a step posts; [ActorDemo]: [examples/basic.rs].
    - [Ask]: [internals/ask_system.rs], [internals/ask_awaiter.rs],
      [internals/ask_reply_actor_ref.rs].  [AskRef]: asking and posting through
      references of both kinds, and a request with its answer.
    - [ActorSystem]: [actor_system.rs], one call at a time.  [AliasConcurrent]:
      [register_actor] and [finalize_kill] as the steps in which they reach the
      registry and the alias map, interleaved by any number of threads; run
      undisturbed these are the calls of [ActorSystem].  [TimedShutdown]: the
      shutdown with a deadline.
    - [Codec]: [codec.rs], [frame_encoder.rs], [length_prefixed_decoder.rs].
    - [SessionHost]: [session_actor_host.rs], [network_session_ref.rs].
    - [NetSend]: [send_buffer.rs], [session.rs], [session_sender.rs],
      [tcp_transport.rs], one call at a time.
    - [SessionCalls]: [Session::send] and [close] of [session.rs] as the atomic
      operations of any number of threads, and [SessionSender].
    - [Transports]: [transport.rs], [transport_factory.rs], [tls_transport.rs]:
      the interface, its laws, the two transports.
    - [Reactor]: [reactor.rs], [handler.rs]: the state of a worker and every
      operation of its loop, in a monad of values, errors, panics and exhausted
      fuel.  The other threads act by a schedule: before every access to shared
      state the reactor performs what the schedule has for them ([interfere]).
      [ReactorLogic]: weakest preconditions over all schedules, and that what
      single operations keep, the loop keeps.  [ReactorInvariant]: tables, lives,
      ledgers.  [ReactorPending]: nothing waits for ever.  [ReactorTheorems]: the
      guarantees.
    - [HostServer]: [session_actor_host.rs] as the handler of a reactor; the
      actor system decides which of its spawns panic ([SpawnAnswers]).
    - [ReactorDemo]: concrete runs of both.
    - [HostActors]: the calls of the session actor host performed on the actor
      system of [ActorWorld], between and inside executions, with calls of others.
    - [Hosts]: [tcp_host.rs], [tls_host.rs], [host_options.rs] and
      [Reactor::build_pool].
    - [Echo]: [examples/tcp_echo.rs], a handler on the workers of a host.

    Components meet at interfaces.  [Registry] asks a runner for the operations
    of the class [RunnerOps], which [ActorWorld] provides; [RunnerProtocol]'s
    mailbox and the concurrent ring meet at [mail_step], whose runs both are;
    [ActorWorld] asks user code for the methods of [ActorBase]; [SessionHost] asks
    the actor system and the session for those of [HostEnv], and its theorems
    hold for every [StreamDecoder], a class the length-prefixed decoder is shown
    to satisfy; [NetSend] assumes of a
    socket the documented behaviour of [Read] and [Write] ([SocketLaws]);
    [Reactor] asks a transport for the operations of [Transport] and a handler
    for those of [HostHandler], programs of session calls; its theorems need
    [TransportLaws] only, which the TCP transport satisfies on any lawful socket
    and the TLS transport on any engine that behaves as [rustls] documents
    ([TlsLaws]); [HostServer] makes the session actor host a [HostHandler], and
    [HostActors] performs what it asks for on an [ActorWorld]; [Echo] is another
    [HostHandler];
    [ActorSystem] uses the registry through its refinement to an abstract handle
    table; [AliasConcurrent] takes each registry call as one step, which
    [RegistryLinear] justifies.

    ** What the theorems show

    - The mailbox: memory safety and exactly-once FIFO delivery under every
      interleaving, refusal only when full, and refinement of a bounded FIFO also
      when the counters wrap; dropping it drops every item once; every atomic
      access is one step of the contract the runner is verified against.
    - The runner: one execution at a time as long as the futures are tame; then
      every accepted message is received, once and in order, and, unless [on_kill]
      or the dead letter callback panics, a runtime left alone comes to rest; at
      most one finalization, silence once stopped.  Runs that break the contract:
      a kill that is lost, and overlapping executions after a double wake or a
      late one.  With store buffers a wakeup can be lost; with a fence on each
      side it cannot.
    - The dispatcher: FIFO execution, no lost wakeup, termination of [dispose];
      continuations run once and in order.
    - The registry: refinement of the handle table, dead handles stay dead for
      any run shorter than the generation's period; a full registry poisons it;
      concurrent calls are linearizable, and a snapshot taken meanwhile is sound.
    - Actors at work: over all spawns, calls and turns, with calls of other
      threads inside the turns, mail reaches only the actor whose handle it was
      posted through, in order, and everybody with something to do is queued, but
      for a kill that falls into the end of an execution; calls and turns return;
      a shutdown that loses no kill and leaks no slot finalizes every actor and
      empties the registry.  A panic of [on_kill] ends the dispatcher's thread.
    - The system: spawning; an alias leads to the live actor that has it, or to
      one about to be committed or just removed, under every interleaving (two
      spawns that race for one alias poison the map); completion of shutdown
      where no spawn leaked a slot and no lock is poisoned; a shutdown with a
      deadline answers in time and truly (though its error may report no actor
      remaining); a spawn that fails late, or that races with shutdown, keeps
      shutdown from completing.
    - Asks: a request gets its answer; decided once, timed out by the sweeper at
      the deadline; a slot collision and a poll past the end each lose timeouts.
    - Framing and sessions: encode and decode round trips, delivery that does not
      depend on how the stream was cut, closing on corruption (and what still
      gets through afterwards), termination of the write loops, growth of the
      send buffer.
    - The reactor, under every schedule: well-formed tables, one life per
      connection as the handler sees it, conservation and order of bytes both
      ways, no output and no close request forgotten unless a registration is
      refused (which strands output), shutdown that closes everything,
      connections dealt in turn; and that an error of [poll] or [accept] abandons
      a worker's connections.
    - The server: reactor and session actor host together post to the actor of
      every open connection whose close nobody requested exactly the messages in
      the bytes of its connection; with the actor system as well, the actor's
      [on_receive] is given nothing but those, in order, and all of them when its
      mailbox has room.
    - The echo server: pieces come back whole and in order, and all of them while
      the host runs and no more came in than the send buffer may hold.

    ** Bounds, fuel and memory model

    Loops that are not structural carry fuel, and the theorems show it is enough:
    65 rounds of capacity doubling exhaust a [usize]; draining a ring takes its
    capacity plus one rounds; the mail loop of [execute] takes the actor's backlog
    plus one, unless the actor is posted to meanwhile; the decode loop takes at
    most one round per byte, because a frame is not empty; the TCP loops take the
    pending bytes and the
    socket's interruptions, the TLS loops the engine's backlog; accepting takes
    the listener's answers; a session call takes at most five operations.  A
    reactor loop that exceeds its fuel ends in [Stuck], which is no value, and
    the theorems that promise an end ([stop_closes_all], [accept_round_robin],
    [tls_write_terminates]) exclude it; an execution that exceeds its fuel is no
    step of the world, and [turns_return] excludes it.  [try_enqueue]'s retry loop is bounded
    only without interference, and its concurrent form has no fuel.
    [MpscConcurrent] assumes fewer than [2^63] minus a capacity claims in one
    run ([bounded]), the reactor that fewer than [2^64] tokens were used; the
    sequential ring does not.  Except in [StoreBuffers] memory is sequentially
    consistent.  [RunnerProgress] bounds the steps of a run by a potential of its
    state.  In [RegistryConcurrent] a handle is committed by the thread that
    reserved it and removed at most once, as the actor system does, and lookups
    use handles that were issued.  [ActorWorld] has one execution under way at a
    time and takes a post, a kill or a wake as one step: what finer interleavings
    add is the matter of [RunnerProtocol] and [RegistryConcurrent].  [Ask] takes
    a round of the sweeper as one step, at the state its scan sees.  Components
    modelled one call at a time ([Registry], [ActorSystem], [SessionHost],
    [NetSend], [Hosts]) hold their locks for a whole call in the source or are
    related to an interleaved model, or the theorem says which interleaving it is
    about.  Arithmetic is that of a release build on a 64-bit target.

    ** Not modelled

    Plain getters, module declarations, the exception message no code constructs,
    printing and the benchmarks; the threads' start-up as such; the sweeper's
    condition variable; executions of several dispatchers at once over the whole
    world (for one runner they are in [RunnerProtocol]); the message contents, the
    actors' own code, [mio], [rustls] and the operating system, which are
    parameters or choices.  That a poll reports a ready registration is [mio]'s
    part: the reactor's theorems say what is registered and which wakes are
    outstanding. *)
From stdpp Require Export base tactics list gmap strings numbers relations.
From Stdlib Require Export ZArith Lia.

(** ** Outcomes of Rust code

    A call returns a value, unwinds with a panic, or is undefined behaviour
    (reading an uninitialised [MaybeUninit]).  The state a panicking call has
    already written stays written, so the state monad below pairs every
    outcome, not only [Ok], with the state it leaves. *)
Inductive outcome (A : Type) : Type :=
| Ok (a : A)
| Panic (msg : string)
| UB (msg : string).
Arguments Ok {A} a.
Arguments Panic {A} msg.
Arguments UB {A} msg.

Definition outcome_bind {A B} (f : A -> outcome B) (m : outcome A) : outcome B :=
  match m with
  | Ok a => f a
  | Panic msg => Panic msg
  | UB msg => UB msg
  end.

#[export] Instance outcome_ret : MRet outcome := @Ok.
#[export] Instance outcome_mbind : MBind outcome := @outcome_bind.

(** Stateful, panicking code over a state [S]. *)
Definition M (S A : Type) : Type := S -> outcome A * S.

#[export] Instance M_ret {S} : MRet (M S) := fun A a s => (Ok a, s).
#[export] Instance M_bind {S} : MBind (M S) := fun A B f m s =>
  match m s with
  | (Ok a, s') => f a s'
  | (Panic msg, s') => (Panic msg, s')
  | (UB msg, s') => (UB msg, s')
  end.

Definition panic {S A} (msg : string) : M S A := fun s => (Panic msg, s).
Definition get_state {S} : M S S := fun s => (Ok s, s).
Definition put_state {S} (s' : S) : M S unit := fun _ => (Ok tt, s').

(** ** [std::sync::Mutex] and [RwLock]

    A guard dropped while its thread unwinds poisons the lock, and every later
    [lock().unwrap()] panics. *)
Record Mutex (A : Type) : Type := mkMutex { poisoned : bool; inner : A }.
Arguments mkMutex {A} _ _.
Arguments poisoned {A} _.
Arguments inner {A} _.

Definition new_mutex {A} (a : A) : Mutex A := mkMutex false a.

(** [lock().unwrap()], as a value. *)
Definition lock_unwrap {A} (m : Mutex A) : outcome A :=
  if poisoned m then Panic "PoisonError" else Ok (inner m).

(** ** Machine integers

    Integers are mathematical integers; a [w]-bit operation writes its
    wrap-around out (the release profile's arithmetic). *)
Open Scope Z_scope.

Definition wrap_u32 (z : Z) : Z := z mod 2 ^ 32.
Definition wrap_u64 (z : Z) : Z := z mod 2 ^ 64.
Definition wrap_i64 (z : Z) : Z := (z + 2 ^ 63) mod 2 ^ 64 - 2 ^ 63.

(** [x as usize] for an [i64] on a 64-bit target: reinterpretation of the bits. *)
Definition as_usize (z : Z) : Z := z mod 2 ^ 64.

Definition usize_max : Z := 2 ^ 64 - 1.
Definition u32_max : Z := 2 ^ 32 - 1.

Create HintDb dignus.

Lemma wrap_i64_id z : - 2 ^ 63 <= z < 2 ^ 63 -> wrap_i64 z = z.
Proof. intros H. unfold wrap_i64. rewrite Z.mod_small; lia. Qed.

Lemma wrap_i64_mod z : wrap_i64 z mod 2 ^ 64 = z mod 2 ^ 64.
Proof.
  unfold wrap_i64. rewrite Zminus_mod, Zmod_mod, <- Zminus_mod.
  f_equal; lia.
Qed.

Lemma wrap_i64_eq_mod a b : a mod 2 ^ 64 = b mod 2 ^ 64 -> wrap_i64 a = wrap_i64 b.
Proof.
  intros H. unfold wrap_i64.
  rewrite (Zplus_mod a), (Zplus_mod b), H. reflexivity.
Qed.

(** Wrapping sums and differences of already wrapped operands. *)
Lemma wrap_i64_add_l a b : wrap_i64 (wrap_i64 a + b) = wrap_i64 (a + b).
Proof.
  apply wrap_i64_eq_mod.
  rewrite (Zplus_mod (wrap_i64 a)), (Zplus_mod a), wrap_i64_mod. reflexivity.
Qed.

Lemma wrap_i64_sub a b : wrap_i64 (wrap_i64 a - wrap_i64 b) = wrap_i64 (a - b).
Proof.
  apply wrap_i64_eq_mod.
  rewrite (Zminus_mod (wrap_i64 a)), (Zminus_mod a), !wrap_i64_mod. reflexivity.
Qed.

Lemma wrap_i64_sub_small a b :
  - 2 ^ 63 <= a - b < 2 ^ 63 -> wrap_i64 (wrap_i64 a - wrap_i64 b) = a - b.
Proof. intros H. rewrite wrap_i64_sub. apply wrap_i64_id; lia. Qed.

(** Masking with [2^k - 1] after the [as usize] cast is reduction modulo [2^k]. *)
Lemma as_usize_mask z k :
  0 <= k <= 64 -> Z.land (as_usize z) (2 ^ k - 1) = z mod 2 ^ k.
Proof.
  intros Hk. unfold as_usize.
  replace (2 ^ k - 1) with (Z.ones k) by (rewrite Z.ones_equiv; lia).
  rewrite Z.land_ones by lia.
  replace 64 with (k + (64 - k)) by lia.
  rewrite Z.pow_add_r by lia.
  rewrite Z.rem_mul_r by (try apply Z.pow_nonzero; try apply Z.pow_pos_nonneg; lia).
  rewrite (Z.mul_comm (2 ^ k)), Z_mod_plus_full, Zmod_mod. reflexivity.
Qed.

Lemma wrap_i64_mask z k :
  0 <= k <= 64 -> Z.land (as_usize (wrap_i64 z)) (2 ^ k - 1) = z mod 2 ^ k.
Proof.
  intros Hk. rewrite <- (as_usize_mask z k Hk).
  unfold as_usize. rewrite wrap_i64_mod. reflexivity.
Qed.

(** Two integers less than [c] apart with the same residue modulo [c] are equal. *)
Lemma mod_window_inj a b c :
  0 < c -> Z.abs (a - b) < c -> a mod c = b mod c -> a = b.
Proof.
  intros Hc Hd Hm.
  assert ((a - b) mod c = 0) as H0 by (rewrite Zminus_mod, Hm, Z.sub_diag; apply Zmod_0_l).
  apply Z.mod_divide in H0; [|lia]. destruct H0 as [q Hq].
  assert (q = 0) by nia. nia.
Qed.

(** ** Sums over lists updated in place *)
Section sums.
Context {A : Type} (f : A -> nat).

Lemma sum_list_with_insert (l : list A) i x y :
  l !! i = Some x ->
  (sum_list_with f (<[i := y]> l) + f x = sum_list_with f l + f y)%nat.
Proof.
  revert i. induction l as [|a l IH]; intros [|i] Hi; simplify_eq/=; [lia|].
  specialize (IH _ Hi). lia.
Qed.

Lemma sum_list_with_lookup_le (l : list A) i x :
  l !! i = Some x -> (f x <= sum_list_with f l)%nat.
Proof.
  revert i. induction l as [|a l IH]; intros [|i] Hi; simplify_eq/=; [lia|].
  specialize (IH _ Hi). lia.
Qed.

Lemma sum_list_with_two (l : list A) i j x y :
  i <> j -> l !! i = Some x -> l !! j = Some y ->
  (f x + f y <= sum_list_with f l)%nat.
Proof.
  revert i j. induction l as [|a l IH]; intros [|i] [|j] Hne Hi Hj; simplify_eq/=.
  - apply sum_list_with_lookup_le in Hj. lia.
  - apply sum_list_with_lookup_le in Hi. lia.
  - assert (i <> j) as Hij by congruence. specialize (IH _ _ Hij Hi Hj). lia.
Qed.

Lemma sum_list_with_zero (l : list A) :
  sum_list_with f l = 0%nat <-> (forall i x, l !! i = Some x -> f x = 0%nat).
Proof.
  split.
  - intros H i x Hi. apply sum_list_with_lookup_le in Hi. lia.
  - induction l as [|a l IH]; intros H; [done|]; simpl.
    pose proof (H 0%nat a eq_refl). rewrite IH; [lia|].
    intros i x Hi. apply (H (S i) x Hi).
Qed.
End sums.

(** ** Transition systems

    An executable system is a partial step function over labels; its relation
    is [step_of], its reachable states the reflexive-transitive closure. *)
Section transitions.
Context {St Act : Type} (step : Act -> St -> option St).

Definition step_of (s s' : St) : Prop := exists a, step a s = Some s'.

(** Running a schedule: [None] as soon as a label is not enabled. *)
Fixpoint run (acts : list Act) (s : St) : option St :=
  match acts with
  | [] => Some s
  | a :: rest => match step a s with Some s' => run rest s' | None => None end
  end.

Lemma run_reaches acts s s' : run acts s = Some s' -> rtc step_of s s'.
Proof.
  revert s. induction acts as [|a acts IH]; intros s H; simplify_eq/=; [done|].
  destruct (step a s) as [s1|] eqn:E; [|done].
  apply rtc_l with s1; [by exists a | by apply IH].
Qed.

Lemma run_app acts acts' s :
  run (acts ++ acts') s = match run acts s with Some s' => run acts' s' | None => None end.
Proof.
  revert s. induction acts as [|b acts IH]; intros s; cbn; [done|]. by destruct (step b s).
Qed.

(** Induction on a run with its schedule: a property of the actions taken so
    far and the state they lead to. *)
Lemma run_invariant (P : list Act -> St -> Prop) s0 :
  P [] s0 ->
  (forall acts a s s', run acts s0 = Some s -> P acts s -> step a s = Some s' -> P (acts ++ [a]) s') ->
  forall acts s, run acts s0 = Some s -> P acts s.
Proof.
  intros H0 Hs acts. induction acts as [|a acts IH] using rev_ind; intros s Hr.
  - by simplify_eq/=.
  - rewrite run_app in Hr. destruct (run acts s0) as [s1|] eqn:E; [|done]. cbn in Hr.
    destruct (step a s1) as [s2|] eqn:E2; simplify_eq. by eapply Hs; eauto.
Qed.

(** Rule induction for an inductive invariant. *)
Lemma invariant_reachable (I : St -> Prop) :
  (forall a s s', I s -> step a s = Some s' -> I s') ->
  forall s s', rtc step_of s s' -> I s -> I s'.
Proof.
  intros Hstep s s' H. induction H as [|s s1 s2 [a Ha] _ IH]; [done|].
  intros HI. apply IH. by apply (Hstep a s).
Qed.
End transitions.

(** ** Automation *)

(** Split every [if]/[match] of a step equation [H : ... = Some _] and discard
    the branches that are not enabled. *)
Ltac step_cases H :=
  repeat (case_match; simplify_eq/=; try done).

Ltac zify_bools :=
  repeat match goal with
  | H : (_ =? _) = true |- _ => apply Z.eqb_eq in H
  | H : (_ =? _) = false |- _ => apply Z.eqb_neq in H
  | H : (_ <? _) = true |- _ => apply Z.ltb_lt in H
  | H : (_ <? _) = false |- _ => apply Z.ltb_ge in H
  | H : (_ <=? _) = true |- _ => apply Z.leb_le in H
  | H : (_ <=? _) = false |- _ => apply Z.leb_gt in H
  end.
