(* ===== verification/MpscQueue.v ===== *)
(** The bounded multi-producer single-consumer ring of
    [dignus-actor-core/src/queues/mpsc_bounded_queue.rs], one call at a time:
    its data, its operations, the representation of a FIFO of at most
    [capacity] items by the slots' sequence numbers, and the refinement to
    that FIFO.  Counters are [i64] and wrap; the representation is stated
    modulo [2^64], so the theorems hold across the wrap-around. *)
From S2P Require Import Prelude.

(** [MaybeUninit<T>]: [None] is memory that holds no [T] to read. *)
Record Slot (T : Type) : Type := mkSlot { sequence : Z; data : option T }.
Arguments mkSlot {T} _ _.
Arguments sequence {T} _.
Arguments data {T} _.

Record MpscBoundedQueue (T : Type) : Type := mkQueue {
  buffer : list (Slot T);
  capacity : Z;
  producer_index : Z;
  consumer_index : Z;
  index_mask : Z;
}.
Arguments mkQueue {T} _ _ _ _ _.
Arguments buffer {T} _.
Arguments capacity {T} _.
Arguments producer_index {T} _.
Arguments consumer_index {T} _.
Arguments index_mask {T} _.

(** [while normalized < capacity { normalized = normalized.checked_mul(2)... }].
    65 rounds exhaust a [usize]: the 64th doubling overflows. *)
Fixpoint normalize_loop (fuel : nat) (normalized_capacity capacity : Z) : outcome Z :=
  match fuel with
  | O => UB "fuel"
  | S fuel =>
      if normalized_capacity <? capacity
      then if normalized_capacity * 2 <=? usize_max
           then normalize_loop fuel (normalized_capacity * 2) capacity
           else Panic "capacity overflow"
      else Ok normalized_capacity
  end.

Definition normalize_to_power_of_two (capacity : Z) : outcome Z :=
  normalize_loop 65 1 capacity.

Section queue.
Context {T : Type}.
Implicit Types (q : MpscBoundedQueue T) (x : T) (l : list T).

Definition new (capacity : Z) : outcome (MpscBoundedQueue T) :=
  if capacity <? 2
  then Panic "capacity must be greater than 1."
  else
    n ← normalize_to_power_of_two capacity;
    Ok {| buffer := (λ slot_index : nat, mkSlot (Z.of_nat slot_index) None)
                      <$> seq 0 (Z.to_nat n);
          capacity := n;
          producer_index := 0;
          consumer_index := 0;
          index_mask := n - 1 |}.

(** [position as usize & self.index_mask] *)
Definition slot_index q (position : Z) : nat :=
  Z.to_nat (Z.land (as_usize position) (index_mask q)).

Definition set_buffer q (b : list (Slot T)) : MpscBoundedQueue T :=
  mkQueue b (capacity q) (producer_index q) (consumer_index q) (index_mask q).
Definition set_producer q (p : Z) : MpscBoundedQueue T :=
  mkQueue (buffer q) (capacity q) p (consumer_index q) (index_mask q).
Definition set_consumer q (c : Z) : MpscBoundedQueue T :=
  mkQueue (buffer q) (capacity q) (producer_index q) c (index_mask q).

(** [slot.data.write(item)] and [slot.sequence.store(s)] *)
Definition write_data q (i : nat) (d : option T) : MpscBoundedQueue T :=
  set_buffer q (alter (λ s, mkSlot (sequence s) d) i (buffer q)).
Definition store_sequence q (i : nat) (s : Z) : MpscBoundedQueue T :=
  set_buffer q (alter (λ sl, mkSlot s (data sl)) i (buffer q)).

(** The retry loop of [try_enqueue].  A call that is alone always wins its
    [compare_exchange]; it goes round again only when the slot it reads is
    ahead of the position. *)
Fixpoint try_enqueue_loop (fuel : nat) q x : outcome (bool * MpscBoundedQueue T) :=
  match fuel with
  | O => UB "fuel"
  | S fuel =>
      let position := producer_index q in
      let i := slot_index q position in
      match buffer q !! i with
      | None => Panic "index out of bounds"
      | Some slot =>
          let difference := wrap_i64 (sequence slot - position) in
          if difference =? 0 then
            let q1 := set_producer q (wrap_i64 (position + 1)) in
            let q2 := write_data q1 i (Some x) in
            let q3 := store_sequence q2 i (wrap_i64 (position + 1)) in
            Ok (true, q3)
          else if difference <? 0 then Ok (false, q)
          else try_enqueue_loop fuel q x
      end
  end.

Definition try_enqueue q x : outcome (bool * MpscBoundedQueue T) :=
  try_enqueue_loop 1 q x.

(** [assume_init_read] of an uninitialised slot is undefined behaviour. *)
Definition try_dequeue q : outcome (option T * MpscBoundedQueue T) :=
  let position := consumer_index q in
  let i := slot_index q position in
  match buffer q !! i with
  | None => Panic "index out of bounds"
  | Some slot =>
      let expected_sequence := wrap_i64 (position + 1) in
      let difference := wrap_i64 (sequence slot - expected_sequence) in
      if difference =? 0 then
        match data slot with
        | None => UB "assume_init_read of uninitialised data"
        | Some item =>
            let q1 := write_data q i None in
            let q2 := store_sequence q1 i (wrap_i64 (position + capacity q)) in
            let q3 := set_consumer q2 (wrap_i64 (position + 1)) in
            Ok (Some item, q3)
        end
      else Ok (None, q)
  end.

Definition try_peek q : outcome bool :=
  let position := consumer_index q in
  let i := slot_index q position in
  match buffer q !! i with
  | None => Panic "index out of bounds"
  | Some slot =>
      let expected_sequence := wrap_i64 (position + 1) in
      let difference := wrap_i64 (sequence slot - expected_sequence) in
      Ok (difference =? 0)
  end.

(** [while self.try_dequeue().is_some() {}], with the items it drops. *)
Fixpoint drain (fuel : nat) q : outcome (list T * MpscBoundedQueue T) :=
  match fuel with
  | O => UB "fuel"
  | S fuel =>
      '(r, q') ← try_dequeue q;
      match r with
      | Some item => '(rest, q'') ← drain fuel q'; Ok (item :: rest, q'')
      | None => Ok ([], q')
      end
  end.

(** [impl Drop]: the buffer bounds the number of queued items. *)
Definition drop_queue q : outcome (list T * MpscBoundedQueue T) :=
  drain (S (length (buffer q))) q.

(** *** The representation

    [rep q C l]: the ring holds exactly the items [l], oldest first, and the
    consumer has consumed [C] items since the ring was created.  Only slots
    [C .. C + capacity) matter, each at index modulo [capacity]. *)
Definition ring_index q (j : Z) : nat := Z.to_nat (j mod capacity q).

Record shape q : Prop := {
  shape_pow : exists k, 1 <= k <= 62 /\ capacity q = 2 ^ k;
  shape_mask : index_mask q = capacity q - 1;
  shape_length : Z.of_nat (length (buffer q)) = capacity q;
}.

Record rep q (C : Z) l : Prop := {
  rep_shape : shape q;
  rep_producer : producer_index q = wrap_i64 (C + Z.of_nat (length l));
  rep_consumer : consumer_index q = wrap_i64 C;
  rep_length : Z.of_nat (length l) <= capacity q;
  rep_full : forall i x, l !! i = Some x ->
    buffer q !! ring_index q (C + Z.of_nat i)
    = Some (mkSlot (wrap_i64 (C + Z.of_nat i + 1)) (Some x));
  rep_free : forall i : nat,
    Z.of_nat (length l) <= Z.of_nat i < capacity q ->
    exists d, buffer q !! ring_index q (C + Z.of_nat i)
              = Some (mkSlot (wrap_i64 (C + Z.of_nat i)) d);
}.
End queue.

(** ** The abstract bounded FIFO and runs of operations *)
Module Fifo.
Section fifo.
Context {T : Type}.

Inductive op : Type := Enqueue (x : T) | Dequeue | Peek.
Inductive reply : Type := REnqueue (ok : bool) | RDequeue (r : option T) | RPeek (b : bool).

(** What a call promises on the queued items [l] of a ring of capacity [cap]. *)
Definition apply (cap : Z) (o : op) (l : list T) : reply * list T :=
  match o with
  | Enqueue x =>
      if Z.of_nat (length l) <? cap then (REnqueue true, l ++ [x]) else (REnqueue false, l)
  | Dequeue => (RDequeue (head l), tail l)
  | Peek => (RPeek (match l with [] => false | _ => true end), l)
  end.

Fixpoint run (cap : Z) (os : list op) (l : list T) : list reply * list T :=
  match os with
  | [] => ([], l)
  | o :: os =>
      let '(r, l1) := apply cap o l in
      let '(rs, l2) := run cap os l1 in (r :: rs, l2)
  end.

(** The same calls on the ring. *)
Definition ring_apply (o : op) (q : MpscBoundedQueue T)
    : outcome (reply * MpscBoundedQueue T) :=
  match o with
  | Enqueue x => '(b, q') ← try_enqueue q x; Ok (REnqueue b, q')
  | Dequeue => '(r, q') ← try_dequeue q; Ok (RDequeue r, q')
  | Peek => b ← try_peek q; Ok (RPeek b, q)
  end.

Fixpoint ring_run (os : list op) (q : MpscBoundedQueue T)
    : outcome (list reply * MpscBoundedQueue T) :=
  match os with
  | [] => Ok ([], q)
  | o :: os =>
      '(r, q1) ← ring_apply o q;
      '(rs, q2) ← ring_run os q1; Ok (r :: rs, q2)
  end.
End fifo.
Arguments op T : clear implicits.
Arguments reply T : clear implicits.
End Fifo.

(** ** Capacity normalisation *)

Lemma normalize_loop_ok fuel k capacity :
  0 <= k <= 63 -> 64 - k <= Z.of_nat fuel -> 2 ^ k < 2 * capacity -> capacity <= 2 ^ 63 ->
  exists k', 0 <= k' <= 63 /\ normalize_loop fuel (2 ^ k) capacity = Ok (2 ^ k')
             /\ capacity <= 2 ^ k' < 2 * capacity.
Proof.
  revert k. induction fuel as [|fuel IH]; intros k Hk Hf Hlo Hc; [lia|].
  cbn [normalize_loop]. destruct (Z.ltb_spec (2 ^ k) capacity) as [Hlt|Hge].
  - assert (k < 63) by (apply (Z.pow_lt_mono_r_iff 2); lia).
    assert (2 ^ k * 2 = 2 ^ (k + 1)) as -> by (rewrite Z.pow_add_r; lia).
    assert (2 ^ (k + 1) <= 2 ^ 63) by (apply Z.pow_le_mono_r; lia).
    destruct (Z.leb_spec (2 ^ (k + 1)) usize_max); [|unfold usize_max in *; lia].
    apply IH; lia || (rewrite Z.pow_add_r; lia).
  - exists k. repeat split; lia.
Qed.

Lemma normalize_loop_overflow fuel k capacity :
  0 <= k <= 63 -> 64 - k <= Z.of_nat fuel -> 2 ^ 63 < capacity ->
  normalize_loop fuel (2 ^ k) capacity = Panic "capacity overflow".
Proof.
  revert k. induction fuel as [|fuel IH]; intros k Hk Hf Hc; [lia|].
  cbn [normalize_loop].
  assert (2 ^ k <= 2 ^ 63) by (apply Z.pow_le_mono_r; lia).
  destruct (Z.ltb_spec (2 ^ k) capacity) as [Hlt|]; [|lia].
  assert (2 ^ k * 2 = 2 ^ (k + 1)) as -> by (rewrite Z.pow_add_r; lia).
  destruct (Z.leb_spec (2 ^ (k + 1)) usize_max) as [Hle|]; [|done].
  apply IH; try lia. cut (k <> 63); [lia|]. intros ->.
  unfold usize_max in Hle. change (2 ^ (63 + 1)) with (2 ^ 64) in Hle. lia.
Qed.

(** ** Slots of a well-shaped ring *)
Section ring.
Context {T : Type}.
Implicit Types (q : MpscBoundedQueue T) (x : T) (l : list T).

Lemma shape_capacity q : shape q -> 2 <= capacity q <= 2 ^ 62.
Proof.
  intros [[k [Hk Hc]] _ _]. rewrite Hc.
  split; [apply (Z.pow_le_mono_r 2 1) | apply Z.pow_le_mono_r]; lia.
Qed.

Lemma slot_index_ring q j : shape q -> slot_index q (wrap_i64 j) = ring_index q j.
Proof.
  intros [[k [Hk Hc]] Hm _]. unfold slot_index, ring_index.
  rewrite Hm, Hc, wrap_i64_mask by lia. reflexivity.
Qed.

Lemma ring_index_lt q j : shape q -> (ring_index q j < length (buffer q))%nat.
Proof.
  intros Hs. pose proof (shape_capacity q Hs). pose proof (shape_length q Hs).
  unfold ring_index. pose proof (Z.mod_pos_bound j (capacity q)). lia.
Qed.

Lemma ring_index_eq q i j :
  shape q -> Z.abs (i - j) < capacity q -> ring_index q i = ring_index q j -> i = j.
Proof.
  intros Hs Hd He. pose proof (shape_capacity q Hs).
  apply (mod_window_inj i j (capacity q)); try lia.
  unfold ring_index in He.
  pose proof (Z.mod_pos_bound i (capacity q)). pose proof (Z.mod_pos_bound j (capacity q)). lia.
Qed.

Lemma ring_index_lap q j : ring_index q (j + capacity q) = ring_index q j.
Proof.
  unfold ring_index. f_equal.
  destruct (decide (capacity q = 0)) as [->|]; [by rewrite !Zmod_0_r, Z.add_0_r|].
  rewrite <- (Z_mod_plus_full j 1 (capacity q)). f_equal; lia.
Qed.

(** An update of the slot at [i] leaves the shape, and the slots at every
    other index, as they were. *)
Lemma shape_write q i d : shape q -> shape (write_data q i d).
Proof. intros [H1 H2 H3]. split; simpl; [done..|]. by rewrite length_alter. Qed.
Lemma shape_store q i s : shape q -> shape (store_sequence q i s).
Proof. intros [H1 H2 H3]. split; simpl; [done..|]. by rewrite length_alter. Qed.
Lemma shape_producer q p : shape q -> shape (set_producer q p).
Proof. by intros [H1 H2 H3]; split. Qed.
Lemma shape_consumer q c : shape q -> shape (set_consumer q c).
Proof. by intros [H1 H2 H3]; split. Qed.

Lemma new_rep (n : Z) :
  2 <= n <= 2 ^ 62 ->
  exists q, new (T := T) n = Ok q /\ rep q 0 [] /\ n <= capacity q < 2 * n.
Proof.
  intros Hn. unfold new. destruct (Z.ltb_spec n 2); [lia|].
  destruct (normalize_loop_ok 65 0 n) as (k & Hk & He & Hb); try lia.
  unfold normalize_to_power_of_two. change 1 with (2 ^ 0). rewrite He. cbn.
  eexists. split; [reflexivity|]. split; [|done].
  assert (k <= 62).
  { destruct (decide (k = 63)) as [->|]; [|lia]. lia. }
  assert (1 <= k).
  { destruct (decide (k = 0)) as [->|]; [|lia]. change (2 ^ 0) with 1 in *. lia. }
  split; simpl; try done; try lia.
  - split; simpl; [by exists k|done|]. rewrite length_fmap, length_seq.
    rewrite Z2Nat.id; lia.
  - intros i Hi. unfold ring_index. simpl. rewrite Z.mod_small by lia.
    exists None. rewrite Z.add_0_l, Nat2Z.id, list_lookup_fmap, lookup_seq_lt by lia. simpl.
    rewrite wrap_i64_id by lia. done.
Qed.
End ring.

#[export] Hint Resolve shape_write shape_store shape_producer shape_consumer : dignus.

(** ** Each operation against the representation *)
Section operations.
Context {T : Type}.
Implicit Types (q : MpscBoundedQueue T) (x : T) (l : list T).

Lemma lookup_update q i j d s :
  buffer (store_sequence (write_data q i d) i s) !! j
  = if decide (i = j) then (λ _, mkSlot s d) <$> buffer q !! j else buffer q !! j.
Proof.
  simpl. case_decide as Hij; [subst j|by rewrite !list_lookup_alter_ne].
  rewrite !list_lookup_alter_eq. by destruct (buffer q !! i).
Qed.

(** The slot the producer index points at: free when there is room, one lap
    behind when the ring is full. *)
Lemma rep_producer_slot q C l :
  rep q C l ->
  exists sl, buffer q !! slot_index q (producer_index q) = Some sl
    /\ wrap_i64 (sequence sl - producer_index q)
       = if bool_decide (Z.of_nat (length l) < capacity q) then 0 else 1 - capacity q.
Proof.
  intros H. pose proof (shape_capacity q (rep_shape _ _ _ H)) as Hcap.
  rewrite (rep_producer _ _ _ H), slot_index_ring by apply H.
  case_bool_decide as Hlt.
  - destruct (rep_free _ _ _ H (length l)) as [d Hd]; [lia|].
    eexists; split; [exact Hd|]. simpl. rewrite wrap_i64_sub_small; lia.
  - pose proof (rep_length _ _ _ H) as Hle.
    assert (Z.of_nat (length l) = capacity q) as Heq by lia.
    destruct l as [|y l]; [simpl in *; lia|].
    pose proof (rep_full _ _ _ H 0%nat y eq_refl) as H0.
    rewrite Heq, ring_index_lap. rewrite Z.add_0_r in H0.
    eexists; split; [exact H0|]. simpl. rewrite wrap_i64_sub_small; lia.
Qed.

(** The slot the consumer index points at: published when there is an item. *)
Lemma rep_consumer_slot q C l :
  rep q C l ->
  exists sl, buffer q !! slot_index q (consumer_index q) = Some sl
    /\ (wrap_i64 (sequence sl - wrap_i64 (consumer_index q + 1)) =? 0)
       = match l with [] => false | _ => true end
    /\ (forall y l', l = y :: l' -> data sl = Some y).
Proof.
  intros H. pose proof (shape_capacity q (rep_shape _ _ _ H)) as Hcap.
  rewrite (rep_consumer _ _ _ H), slot_index_ring by apply H.
  rewrite wrap_i64_add_l. destruct l as [|y l].
  - destruct (rep_free _ _ _ H 0%nat) as [d Hd]; [simpl; lia|]. rewrite Z.add_0_r in Hd.
    eexists; split; [exact Hd|]. split; [|done].
    cbn [sequence]. rewrite wrap_i64_sub_small by lia. apply Z.eqb_neq. lia.
  - pose proof (rep_full _ _ _ H 0%nat y eq_refl) as H0. rewrite Z.add_0_r in H0.
    eexists; split; [exact H0|]. split; [|naive_solver].
    cbn [sequence]. rewrite wrap_i64_sub_small by lia. apply Z.eqb_eq. lia.
Qed.

Lemma try_enqueue_rep q C l x :
  rep q C l ->
  exists q', capacity q' = capacity q
    /\ (if bool_decide (Z.of_nat (length l) < capacity q)
        then try_enqueue q x = Ok (true, q') /\ rep q' C (l ++ [x])
        else try_enqueue q x = Ok (false, q') /\ q' = q).
Proof.
  intros H. pose proof (shape_capacity q (rep_shape _ _ _ H)) as Hcap.
  destruct (rep_producer_slot q C l H) as (sl & Hsl & Hdiff).
  unfold try_enqueue. cbn [try_enqueue_loop]. rewrite Hsl. cbv zeta. rewrite Hdiff.
  case_bool_decide as Hlt; [|exists q; destruct (Z.eqb_spec (1 - capacity q) 0);
    [lia|]; destruct (Z.ltb_spec (1 - capacity q) 0); [done|lia]].
  eexists. split; [|split; [reflexivity|]]; [done|].
  set (i := slot_index q (producer_index q)) in *.
  assert (i = ring_index q (C + Z.of_nat (length l))) as Hi.
  { unfold i. by rewrite (rep_producer _ _ _ H), slot_index_ring by apply H. }
  split.
  - apply shape_store, shape_write, shape_producer, H.
  - cbn. rewrite (rep_producer _ _ _ H), wrap_i64_add_l, length_app. f_equal. simpl. lia.
  - apply H.
  - rewrite length_app. cbn. lia.
  - intros j y Hj.
    assert (Z.of_nat j < capacity q) as Hjc.
    { apply lookup_lt_Some in Hj. rewrite length_app in Hj. simpl in Hj. lia. }
    rewrite lookup_update. cbn [buffer set_producer].
    change (ring_index _ ?z) with (ring_index q z).
    apply lookup_app_Some in Hj as [Hj|[Hge Hj]].
    + pose proof (lookup_lt_Some _ _ _ Hj).
      rewrite decide_False; [by apply (rep_full _ _ _ H)|].
      intros E. rewrite Hi in E. apply ring_index_eq in E; [lia|apply H|lia].
    + destruct (j - length l)%nat as [|n] eqn:En; [|done]. simplify_eq/=.
      assert (j = length l) as -> by lia. rewrite decide_True by done.
      rewrite <- Hi, Hsl. cbn. rewrite (rep_producer _ _ _ H), wrap_i64_add_l. done.
  - intros j Hj. rewrite length_app in Hj. cbn in Hj.
    rewrite lookup_update. change (ring_index _ ?z) with (ring_index q z).
    rewrite decide_False; [apply (rep_free _ _ _ H); lia|].
    intros E. rewrite Hi in E. apply ring_index_eq in E; [lia|apply H|lia].
Qed.

Lemma try_dequeue_rep q C l :
  rep q C l ->
  exists q', capacity q' = capacity q /\ try_dequeue q = Ok (head l, q')
    /\ rep q' (C + if l then 0 else 1) (tail l).
Proof.
  intros H. pose proof (shape_capacity q (rep_shape _ _ _ H)) as Hcap.
  destruct (rep_consumer_slot q C l H) as (sl & Hsl & Hdiff & Hdata).
  unfold try_dequeue. rewrite Hsl. cbv zeta. rewrite Hdiff.
  destruct l as [|y l]; [exists q; rewrite Z.add_0_r; done|].
  rewrite (Hdata y l eq_refl). eexists. split; [|split; [reflexivity|]]; [done|].
  set (i := slot_index q (consumer_index q)) in *.
  assert (i = ring_index q C) as Hi.
  { unfold i. by rewrite (rep_consumer _ _ _ H), slot_index_ring by apply H. }
  pose proof (rep_length _ _ _ H) as Hlen. simpl in Hlen. cbn [tail].
  split.
  - apply shape_consumer, shape_store, shape_write, H.
  - cbn. rewrite (rep_producer _ _ _ H). f_equal. simpl. lia.
  - cbn. rewrite (rep_consumer _ _ _ H), wrap_i64_add_l. done.
  - cbn. lia.
  - intros j z Hj. change (buffer (set_consumer ?a _)) with (buffer a).
    change (ring_index _ ?z) with (ring_index q z). rewrite lookup_update.
    pose proof (lookup_lt_Some _ _ _ Hj). rewrite decide_False.
    + pose proof (rep_full _ _ _ H (S j) z Hj) as Hf.
      replace (C + Z.of_nat (S j)) with (C + 1 + Z.of_nat j) in Hf by lia. done.
    + intros E. rewrite Hi in E. apply ring_index_eq in E; [lia|apply H|lia].
  - intros j Hj. change (buffer (set_consumer ?a _)) with (buffer a).
    change (ring_index _ ?z) with (ring_index q z). rewrite lookup_update.
    cbn in Hj. destruct (decide (Z.of_nat j = capacity q - 1)) as [Hlast|Hlast].
    + exists None. rewrite Hlast.
      replace (C + 1 + (capacity q - 1)) with (C + capacity q) by lia.
      rewrite ring_index_lap, <- Hi, decide_True, Hsl by done. cbn.
      rewrite (rep_consumer _ _ _ H), wrap_i64_add_l. done.
    + destruct (rep_free _ _ _ H (S j)) as [d Hd]; [simpl; lia|].
      replace (C + Z.of_nat (S j)) with (C + 1 + Z.of_nat j) in Hd by lia.
      exists d. rewrite decide_False; [done|].
      intros E. rewrite Hi in E. apply ring_index_eq in E; [lia|apply H|lia].
Qed.

Lemma try_peek_rep q C l :
  rep q C l -> try_peek q = Ok (match l with [] => false | _ => true end).
Proof.
  intros H. destruct (rep_consumer_slot q C l H) as (sl & Hsl & Hdiff & _).
  unfold try_peek. rewrite Hsl. cbv zeta. by rewrite Hdiff.
Qed.

Lemma drain_rep fuel q C l :
  rep q C l -> (length l < fuel)%nat ->
  exists q', drain fuel q = Ok (l, q') /\ rep q' (C + Z.of_nat (length l)) []
             /\ capacity q' = capacity q.
Proof.
  revert q C l. induction fuel as [|fuel IH]; intros q C l H Hf; [lia|].
  cbn [drain]. destruct (try_dequeue_rep q C l H) as (q1 & Hc1 & He & H1).
  rewrite He. destruct l as [|y l]; cbn [head tail outcome_bind mbind outcome_mbind] in *.
  - exists q1. rewrite Z.add_0_r in *. done.
  - destruct (IH q1 _ l H1) as (q2 & He2 & H2 & Hc2); [simpl in *; lia|].
    rewrite He2. exists q2. split; [done|]. split; [|congruence].
    replace (C + Z.of_nat (length (y :: l))) with (C + 1 + Z.of_nat (length l)); [done|].
    simpl. lia.
Qed.
End operations.

(** ** Properties *)
Section properties.
Context {T : Type}.
Implicit Types (q : MpscBoundedQueue T) (l : list T).

Lemma ring_apply_rep (o : Fifo.op T) q C l :
  rep q C l ->
  exists q' C', capacity q' = capacity q
    /\ Fifo.ring_apply o q = Ok ((Fifo.apply (capacity q) o l).1, q')
    /\ rep q' C' (Fifo.apply (capacity q) o l).2.
Proof.
  intros H. destruct o as [x| |]; simpl.
  - destruct (try_enqueue_rep q C l x H) as (q' & Hc & Hq'). exists q', C.
    case_bool_decide as Hlt; destruct Hq' as [-> Hq'];
      destruct (Z.ltb_spec (Z.of_nat (length l)) (capacity q)); try lia; simplify_eq; done.
  - destruct (try_dequeue_rep q C l H) as (q' & Hc & -> & H'). by eexists _, _.
  - rewrite (try_peek_rep q C l H). by exists q, C.
Qed.

(** C26.  Whatever the consumed count, hence also when the [i64] counters wrap
    around, any sequence of enqueues, dequeues and peeks on the ring gives the
    replies of a FIFO of the same capacity, never panics, never reads an
    uninitialised slot, and ends in a ring that holds the FIFO's items. *)
Theorem ring_refines_fifo (os : list (Fifo.op T)) q C l :
  rep q C l ->
  exists q' C',
    Fifo.ring_run os q = Ok ((Fifo.run (capacity q) os l).1, q')
    /\ capacity q' = capacity q
    /\ rep q' C' (Fifo.run (capacity q) os l).2.
Proof.
  revert q C l. induction os as [|o os IH]; intros q C l H; simpl; [by exists q, C|].
  destruct (ring_apply_rep o q C l H) as (q1 & C1 & Hc1 & -> & H1).
  destruct (IH q1 C1 _ H1) as (q2 & C2 & E2 & Hc2 & H2). rewrite Hc1 in *.
  destruct (Fifo.apply (capacity q) o l) as [r l1]. cbn in *. rewrite E2.
  destruct (Fifo.run (capacity q) os l1) as [rs l2]. cbn in *. by exists q2, C2.
Qed.
End properties.

(** [new] panics below two, panics when no power of two of a [usize]
    reaches the request, and otherwise gives an empty ring whose capacity is the
    least power of two that holds the request. *)
Theorem new_capacity {T} (n : Z) :
  (n < 2 -> new (T := T) n = Panic "capacity must be greater than 1.")
  /\ (2 ^ 63 < n -> new (T := T) n = Panic "capacity overflow")
  /\ (2 <= n <= 2 ^ 62 ->
      exists q k, new (T := T) n = Ok q /\ capacity q = 2 ^ k
        /\ n <= capacity q < 2 * n /\ rep q 0 []).
Proof.
  split; [|split].
  - intros H. unfold new. destruct (Z.ltb_spec n 2); [done|lia].
  - intros H. unfold new. destruct (Z.ltb_spec n 2); [lia|].
    unfold normalize_to_power_of_two. change 1 with (2 ^ 0).
    by rewrite (normalize_loop_overflow 65 0 n) by lia.
  - intros H. destruct (new_rep (T := T) n H) as (q & Hq & Hr & Hc).
    destruct (shape_pow q (rep_shape _ _ _ Hr)) as (k & _ & Hk). by exists q, k.
Qed.

(** Dropping the ring drops every queued item exactly once, oldest first,
    and terminates: the drain loop runs at most [capacity] + 1 rounds. *)
Theorem drop_drains {T} (q : MpscBoundedQueue T) C l :
  rep q C l ->
  exists q', drop_queue q = Ok (l, q') /\ rep q' (C + Z.of_nat (length l)) [].
Proof.
  intros H. destruct (drain_rep (S (length (buffer q))) q C l H) as (q' & E & H' & _).
  - pose proof (rep_length _ _ _ H). pose proof (shape_length q (rep_shape _ _ _ H)). lia.
  - by exists q'.
Qed.

(** A two-slot ring whose counters are about to overflow an [i64]. *)
Definition wrapping_ring : MpscBoundedQueue nat :=
  mkQueue [mkSlot (- 2 ^ 63) None; mkSlot (- 2 ^ 63) (Some 7%nat)] 2 (- 2 ^ 63) (2 ^ 63 - 1) 1.

Lemma wrapping_ring_rep : rep wrapping_ring (2 ^ 63 - 1) [7%nat].
Proof.
  split; simpl; try done.
  - split; simpl; [exists 1; lia|done|done].
  - intros [|i] x Hx; simplify_eq/=. reflexivity.
  - intros i Hi. assert (i = 1%nat) as -> by lia. exists None. reflexivity.
Qed.

Lemma ring_refines_fifo_witness :
  exists q' C',
    Fifo.ring_run [Fifo.Enqueue 8%nat; Fifo.Enqueue 9%nat; Fifo.Dequeue; Fifo.Peek] wrapping_ring
    = Ok ([Fifo.REnqueue true; Fifo.REnqueue false; Fifo.RDequeue (Some 7%nat); Fifo.RPeek true], q')
    /\ rep q' C' [8%nat].
Proof.
  destruct (ring_refines_fifo
    [Fifo.Enqueue 8%nat; Fifo.Enqueue 9%nat; Fifo.Dequeue; Fifo.Peek]
    wrapping_ring _ _ wrapping_ring_rep) as (q' & C' & E & _ & H).
  exists q', C'. split; [exact E | exact H].
Defined.

Lemma new_capacity_witness :
  exists q k, new (T := nat) 1000 = Ok q /\ capacity q = 2 ^ k
    /\ 1000 <= capacity q < 2 * 1000 /\ rep q 0 [].
Proof. apply (proj2 (proj2 (new_capacity (T := nat) 1000))). lia. Defined.

Lemma drop_drains_witness :
  exists q', drop_queue wrapping_ring = Ok ([7%nat], q') /\ rep q' (2 ^ 63 - 1 + 1) [].
Proof. apply (drop_drains wrapping_ring (2 ^ 63 - 1) [7%nat] wrapping_ring_rep). Defined.
