(* ===== verification/MpscConcurrent.v ===== *)
(** The ring of [MpscQueue] under concurrency: any number of producers inside
    [try_enqueue] and one consumer inside [try_dequeue] or [try_peek], each
    atomic load, store, [compare_exchange] and each access to a slot's data one
    step, interleaved in any order (sequentially consistent memory).

    Ghost fields record the claimed items in the order of their successful
    [compare_exchange] and the items the consumer returned; no guard reads
    them. *)
From S2P Require Import Prelude MpscQueue.

Section machine.
Context {T : Type}.

(** Where a producer is inside [try_enqueue]. *)
Inductive ppc : Type :=
| PIdle
| PStart (x : T)                  (** about to load [producer_index] *)
| PLoadSeq (x : T) (pos : Z)      (** about to load the slot's sequence *)
| PCas (x : T) (pos : Z)          (** about to [compare_exchange] *)
| PWrite (x : T) (pos : Z)        (** about to write the slot's data *)
| PPublish (x : T) (pos : Z)      (** about to store the slot's sequence *)
| PPanicked.                      (** index out of bounds *)

(** Where the consumer is inside [try_dequeue] or [try_peek]. *)
Inductive cpc : Type :=
| CIdle
| CLoad (pos : Z)                 (** [try_dequeue]: about to load the sequence *)
| CPeek (pos : Z)                 (** [try_peek]: about to load the sequence *)
| CRead (pos : Z)                 (** about to read the slot's data *)
| CStore (pos : Z) (x : T)        (** about to store the slot's sequence *)
| CBump (pos : Z) (x : T)         (** about to store [consumer_index] *)
| CPanicked
| CUndefined.                     (** read of uninitialised data *)

Inductive event : Type :=
| Silent
| Claimed (x : T)
| Returned (x : T) (ok : bool)
| Dequeued (r : option T)
| Peeked (b : bool).

Implicit Types (q : MpscBoundedQueue T).

(** One atomic action of a producer. *)
Definition producer_step q (pc : ppc) : option (MpscBoundedQueue T * ppc * event) :=
  match pc with
  | PIdle | PPanicked => None
  | PStart x => Some (q, PLoadSeq x (producer_index q), Silent)
  | PLoadSeq x pos =>
      match buffer q !! slot_index q pos with
      | None => Some (q, PPanicked, Silent)
      | Some sl =>
          let difference := wrap_i64 (sequence sl - pos) in
          if difference =? 0 then Some (q, PCas x pos, Silent)
          else if difference <? 0 then Some (q, PIdle, Returned x false)
          else Some (q, PStart x, Silent)
      end
  | PCas x pos =>
      if producer_index q =? pos
      then Some (set_producer q (wrap_i64 (pos + 1)), PWrite x pos, Claimed x)
      else Some (q, PStart x, Silent)
  | PWrite x pos => Some (write_data q (slot_index q pos) (Some x), PPublish x pos, Silent)
  | PPublish x pos =>
      Some (store_sequence q (slot_index q pos) (wrap_i64 (pos + 1)), PIdle, Returned x true)
  end.

(** One atomic action of the consumer. *)
Definition consumer_step q (pc : cpc) : option (MpscBoundedQueue T * cpc * event) :=
  match pc with
  | CIdle | CPanicked | CUndefined => None
  | CLoad pos =>
      match buffer q !! slot_index q pos with
      | None => Some (q, CPanicked, Silent)
      | Some sl =>
          let difference := wrap_i64 (sequence sl - wrap_i64 (pos + 1)) in
          if difference =? 0 then Some (q, CRead pos, Silent)
          else Some (q, CIdle, Dequeued None)
      end
  | CPeek pos =>
      match buffer q !! slot_index q pos with
      | None => Some (q, CPanicked, Silent)
      | Some sl =>
          let difference := wrap_i64 (sequence sl - wrap_i64 (pos + 1)) in
          Some (q, CIdle, Peeked (difference =? 0))
      end
  | CRead pos =>
      match buffer q !! slot_index q pos with
      | Some (mkSlot _ (Some x)) =>
          Some (write_data q (slot_index q pos) None, CStore pos x, Silent)
      | _ => Some (q, CUndefined, Silent)
      end
  | CStore pos x =>
      Some (store_sequence q (slot_index q pos) (wrap_i64 (pos + capacity q)), CBump pos x, Silent)
  | CBump pos x => Some (set_consumer q (wrap_i64 (pos + 1)), CIdle, Dequeued (Some x))
  end.

Record sys : Type := mkSys {
  mem : MpscBoundedQueue T;
  prods : list ppc;
  cons : cpc;
  claimed : list (nat * T);       (** ghost: by successful [compare_exchange] *)
  accepted : list (nat * T);      (** ghost: calls that returned [true] *)
  received : list T;              (** ghost: items [try_dequeue] returned *)
}.

Inductive action : Type :=
| CallEnqueue (t : nat) (x : T)
| ProducerStep (t : nat)
| CallDequeue
| CallPeek
| ConsumerStep.

Definition log_claim (t : nat) (e : event) (l : list (nat * T)) : list (nat * T) :=
  match e with Claimed x => l ++ [(t, x)] | _ => l end.
Definition log_return (t : nat) (e : event) (l : list (nat * T)) : list (nat * T) :=
  match e with Returned x true => l ++ [(t, x)] | _ => l end.
Definition log_receive (e : event) (l : list T) : list T :=
  match e with Dequeued (Some x) => l ++ [x] | _ => l end.

Definition set_prod (s : sys) (t : nat) (pc : ppc) : sys :=
  mkSys (mem s) (<[t := pc]> (prods s)) (cons s) (claimed s) (accepted s) (received s).
Definition set_cons (s : sys) (pc : cpc) : sys :=
  mkSys (mem s) (prods s) pc (claimed s) (accepted s) (received s).

Definition step (a : action) (s : sys) : option sys :=
  match a with
  | CallEnqueue t x =>
      match prods s !! t with
      | Some PIdle => Some (set_prod s t (PStart x))
      | _ => None
      end
  | ProducerStep t =>
      pc ← prods s !! t;
      '(q, pc', e) ← producer_step (mem s) pc;
      Some (mkSys q (<[t := pc']> (prods s)) (cons s)
              (log_claim t e (claimed s)) (log_return t e (accepted s)) (received s))
  | CallDequeue =>
      match cons s with
      | CIdle => Some (set_cons s (CLoad (consumer_index (mem s))))
      | _ => None
      end
  | CallPeek =>
      match cons s with
      | CIdle => Some (set_cons s (CPeek (consumer_index (mem s))))
      | _ => None
      end
  | ConsumerStep =>
      '(q, pc', e) ← consumer_step (mem s) (cons s);
      Some (mkSys q (prods s) pc' (claimed s) (accepted s) (log_receive e (received s)))
  end.

(** A fresh ring shared by [n] producers and the consumer. *)
Definition initial (n : nat) q : sys := mkSys q (replicate n PIdle) CIdle [] [] [].

Definition reachable (n : nat) q (s : sys) : Prop := rtc (step_of step) (initial n q) s.

(** No [i64] counter has overflowed: fewer than [2^63 - capacity] claims so far. *)
Definition bounded (s : sys) : Prop :=
  Z.of_nat (length (claimed s)) + capacity (mem s) < 2 ^ 63.
End machine.
Arguments ppc T : clear implicits.
Arguments cpc T : clear implicits.
Arguments sys T : clear implicits.
Arguments action T : clear implicits.

(** ** The invariant *)
Section invariant.
Context {T : Type}.
Implicit Types (s : sys T) (q : MpscBoundedQueue T).

Definition slot_at q (j : Z) : option (Slot T) := buffer q !! ring_index q j.

(** Positions claimed so far, and positions whose slot the consumer has
    given back. *)
Definition claims s : Z := Z.of_nat (length (claimed s)).
Definition freed s : Z :=
  consumer_index (mem s) + match cons s with CBump _ _ => 1 | _ => 0 end.

Definition holds (pc : ppc T) (j : Z) : Prop :=
  match pc with PWrite _ pos | PPublish _ pos => pos = j | _ => False end.

Definition prod_ok s (t : nat) (pc : ppc T) : Prop :=
  match pc with
  | PIdle | PStart _ => True
  | PLoadSeq _ pos => 0 <= pos <= claims s
  | PCas _ pos =>
      0 <= pos <= claims s /\ exists sl, slot_at (mem s) pos = Some sl /\ pos <= sequence sl
  | PWrite x pos =>
      freed s <= pos < claims s /\ claimed s !! Z.to_nat pos = Some (t, x)
      /\ exists sl, slot_at (mem s) pos = Some sl /\ sequence sl = pos
  | PPublish x pos =>
      freed s <= pos < claims s /\ claimed s !! Z.to_nat pos = Some (t, x)
      /\ slot_at (mem s) pos = Some (mkSlot pos (Some x))
  | PPanicked => False
  end.

Definition cons_ok s : Prop :=
  match cons s with
  | CIdle => True
  | CLoad pos | CPeek pos => pos = consumer_index (mem s)
  | CRead pos =>
      pos = consumer_index (mem s) /\ pos < claims s
      /\ exists sl, slot_at (mem s) pos = Some sl /\ sequence sl = pos + 1
  | CStore pos x =>
      pos = consumer_index (mem s) /\ pos < claims s
      /\ (exists t, claimed s !! Z.to_nat pos = Some (t, x))
      /\ exists sl, slot_at (mem s) pos = Some sl /\ sequence sl = pos + 1
  | CBump pos x =>
      pos = consumer_index (mem s) /\ pos < claims s
      /\ exists t, claimed s !! Z.to_nat pos = Some (t, x)
  | CPanicked | CUndefined => False
  end.

(** A slot of the window: free or held by the producer that claimed it, or
    published with the claimed item (moved out once the consumer read it). *)
Definition slot_ok s (j : Z) : Prop :=
  exists sl, slot_at (mem s) j = Some sl /\
    ((sequence sl = j /\ (j < claims s -> exists t pc, prods s !! t = Some pc /\ holds pc j))
     \/ (sequence sl = j + 1 /\ j < claims s
         /\ ((exists t x, claimed s !! Z.to_nat j = Some (t, x) /\ data sl = Some x)
             \/ (exists x, cons s = CStore j x)))).

Record inv s : Prop := {
  inv_shape : shape (mem s);
  inv_producer : producer_index (mem s) = claims s;
  inv_consumer : 0 <= consumer_index (mem s);
  inv_window : freed s <= claims s <= freed s + capacity (mem s);
  inv_slots : forall j, freed s <= j < freed s + capacity (mem s) -> slot_ok s j;
  inv_prods : forall t pc, prods s !! t = Some pc -> prod_ok s t pc;
  inv_cons : cons_ok s;
  inv_received : received s = (take (Z.to_nat (consumer_index (mem s))) (claimed s)).*2;
}.
End invariant.

(** ** Slots under updates *)
Section slots.
Context {T : Type}.
Implicit Types (s : sys T) (q : MpscBoundedQueue T).

Lemma slot_index_pos q pos : shape q -> slot_index q pos = ring_index q pos.
Proof.
  intros [[k [Hk Hc]] Hm _]. unfold slot_index, ring_index.
  rewrite Hm, Hc, as_usize_mask by lia. reflexivity.
Qed.

Lemma slot_at_write q i d j :
  slot_at (write_data q (ring_index q i) d) j
  = if decide (ring_index q i = ring_index q j)
    then (λ sl, mkSlot (sequence sl) d) <$> slot_at q j else slot_at q j.
Proof.
  unfold slot_at. change (ring_index (write_data _ _ _) j) with (ring_index q j). simpl.
  case_decide as E; [rewrite E, list_lookup_alter_eq|rewrite list_lookup_alter_ne]; done.
Qed.

Lemma slot_at_store q i z j :
  slot_at (store_sequence q (ring_index q i) z) j
  = if decide (ring_index q i = ring_index q j)
    then (λ sl, mkSlot z (data sl)) <$> slot_at q j else slot_at q j.
Proof.
  unfold slot_at. change (ring_index (store_sequence _ _ _) j) with (ring_index q j). simpl.
  case_decide as E; [rewrite E, list_lookup_alter_eq|rewrite list_lookup_alter_ne]; done.
Qed.

(** Every position shares its slot with exactly one position of a window. *)
Lemma window_cover q F pos :
  shape q -> exists j, F <= j < F + capacity q /\ ring_index q pos = ring_index q j.
Proof.
  intros Hs. pose proof (shape_capacity q Hs). exists (F + (pos - F) mod capacity q).
  pose proof (Z.mod_pos_bound (pos - F) (capacity q)). split; [lia|].
  unfold ring_index. rewrite Zplus_mod_idemp_r. do 2 f_equal. lia.
Qed.

(** The sequence of any slot lies in the current window. *)
Lemma slot_sequence_range s pos :
  inv s ->
  exists sl, slot_at (mem s) pos = Some sl
    /\ freed s <= sequence sl <= freed s + capacity (mem s).
Proof.
  intros H. destruct (window_cover (mem s) (freed s) pos (inv_shape s H)) as (j & Hj & E).
  destruct (inv_slots s H j Hj) as (sl & Hsl & Hcase). exists sl.
  unfold slot_at in *. rewrite E. split; [done|]. destruct Hcase as [[-> _]|[-> _]]; lia.
Qed.

Lemma freed_nonneg s : inv s -> 0 <= freed s.
Proof. intros H. pose proof (inv_consumer s H). unfold freed. destruct (cons s); lia. Qed.

(** Inside a window the slot index determines the position. *)
Lemma same_slot s i j :
  inv s -> freed s <= i < freed s + capacity (mem s) ->
  freed s <= j < freed s + capacity (mem s) ->
  ring_index (mem s) i = ring_index (mem s) j -> i = j.
Proof. intros H Hi Hj. apply ring_index_eq; [apply H|lia]. Qed.
End slots.

(** ** Preservation *)
Section preservation.
Context {T : Type}.
Implicit Types (s : sys T) (q : MpscBoundedQueue T).

(** A producer moves without touching memory and keeps what it holds. *)
Lemma inv_set_prod s t pc pc' :
  inv s -> prods s !! t = Some pc ->
  (forall j, holds pc j -> holds pc' j) -> prod_ok s t pc' -> inv (set_prod s t pc').
Proof.
  intros H Ht Hh Hok. split; try apply H.
  - intros j Hj. destruct (inv_slots s H j Hj) as (sl & Hsl & Hc). exists sl. split; [done|].
    destruct Hc as [[Hs Hx]|Hc]; [left|by right]. split; [done|]. intros Hlt.
    destruct (Hx Hlt) as (t' & pc1 & Ht' & Hp). simpl.
    destruct (decide (t' = t)) as [->|Hne].
    + simplify_eq. exists t, pc'. split; [|auto].
      apply list_lookup_insert_eq. by eapply lookup_lt_Some.
    + exists t', pc1. by rewrite list_lookup_insert_ne.
  - intros t' pc1 Ht'. simpl in Ht'.
    destruct (decide (t' = t)) as [->|Hne].
    + rewrite list_lookup_insert_eq in Ht' by (by eapply lookup_lt_Some). by simplify_eq.
    + rewrite list_lookup_insert_ne in Ht' by done. apply (inv_prods s H t' pc1 Ht').
Qed.

(** The consumer moves without touching memory and outside its publication. *)
Lemma inv_set_cons s pc :
  inv s -> (forall j x, cons s <> CStore j x) -> freed (set_cons s pc) = freed s ->
  cons_ok (set_cons s pc) -> inv (set_cons s pc).
Proof.
  intros H Hns Hf Hok.
  split; try apply H; try done; rewrite ?Hf; try apply H.
  - intros j Hj. destruct (inv_slots s H j Hj) as (sl & Hsl & Hc).
    exists sl. split; [done|]. destruct Hc as [Hc|(H1 & H2 & [H3|[x H3]])].
    + by left.
    + right. auto.
    + by destruct (Hns j x).
  - intros t' pc1 Ht'. pose proof (inv_prods s H t' pc1 Ht') as Hp.
    destruct pc1; unfold prod_ok in *; rewrite ?Hf; done.
Qed.

(** The successful [compare_exchange] claims the next position. *)
(** A producer whose [compare_exchange] succeeds. *)
Definition claim_state s (t : nat) (x : T) (pos : Z) : sys T :=
  mkSys (set_producer (mem s) (wrap_i64 (pos + 1))) (<[t := PWrite x pos]> (prods s))
    (cons s) (claimed s ++ [(t, x)]) (accepted s) (received s).

Lemma claims_claim s t x pos : claims (claim_state s t x pos) = claims s + 1.
Proof. unfold claims. simpl. rewrite length_app. simpl. lia. Qed.

(** The slot read at the claimed position is still free: the ring is not full. *)
Lemma claim_room s sl :
  inv s -> slot_at (mem s) (claims s) = Some sl -> claims s <= sequence sl ->
  claims s < freed s + capacity (mem s) /\ sequence sl = claims s.
Proof.
  intros H Hsl Hge. pose proof (shape_capacity _ (inv_shape s H)) as Hcap.
  pose proof (inv_window s H) as HW.
  destruct (decide (claims s = freed s + capacity (mem s))) as [Efull|].
  - destruct (inv_slots s H (freed s)) as (sl' & Hsl' & Hc); [lia|].
    unfold slot_at in Hsl, Hsl'. rewrite Efull, ring_index_lap in Hsl.
    rewrite Hsl in Hsl'. simplify_eq. destruct Hc as [[? _]|[? _]]; lia.
  - destruct (inv_slots s H (claims s)) as (sl' & Hsl' & Hc); [lia|].
    rewrite Hsl in Hsl'. simplify_eq. destruct Hc as [[? _]|(? & ? & _)]; lia.
Qed.

Lemma prod_ok_claim s t x pos t' pc :
  prod_ok s t' pc -> prod_ok (claim_state s t x pos) t' pc.
Proof.
  intros Hok. destruct pc; unfold prod_ok in *; rewrite ?claims_claim;
    change (freed (claim_state s t x pos)) with (freed s); simpl; try done; try lia.
  - destruct Hok as [? ?]. split; [lia|done].
  - destruct Hok as (? & ? & ?). split_and!; [lia|lia|by apply lookup_app_l_Some|done].
  - destruct Hok as (? & ? & ?). split_and!; [lia|lia|by apply lookup_app_l_Some|done].
Qed.

Lemma cons_ok_claim s t x pos : cons_ok s -> cons_ok (claim_state s t x pos).
Proof.
  intros Hok. unfold cons_ok in *. rewrite claims_claim. simpl. destruct (cons s); try done.
  - destruct Hok as (? & ? & ?). split_and!; [done|lia|done].
  - destruct Hok as (? & ? & [t' ?] & ?). split_and!; [done|lia| |done].
    exists t'. by apply lookup_app_l_Some.
  - destruct Hok as (? & ? & [t' ?]). split_and!; [done|lia|].
    exists t'. by apply lookup_app_l_Some.
Qed.

Lemma slot_ok_claim s t x pos j :
  prods s !! t = Some (PCas x pos) -> pos = claims s -> slot_ok s j ->
  slot_ok (claim_state s t x pos) j.
Proof.
  intros Ht Hpc (sl & Hsl & Hc). exists sl. split; [done|]. rewrite claims_claim.
  destruct Hc as [[Hs Hx]|(H1 & H2 & H3)].
  - left. split; [done|]. intros Hlt. simpl. destruct (decide (j = pos)) as [->|Hne].
    + exists t, (PWrite x pos). split; [|done].
      apply list_lookup_insert_eq. by eapply lookup_lt_Some.
    + destruct Hx as (t' & pc & Ht' & Hh); [lia|]. exists t', pc.
      rewrite list_lookup_insert_ne; [done|]. by intros <-; simplify_eq.
  - right. split_and!; [done|lia|].
    destruct H3 as [(t' & y & Hl & Hd)|Hst]; [left|by right].
    exists t', y. split; [by apply lookup_app_l_Some|done].
Qed.

Lemma inv_claim s t x pos :
  inv s -> bounded s -> prods s !! t = Some (PCas x pos) -> producer_index (mem s) = pos ->
  inv (claim_state s t x pos).
Proof.
  intros H Hb Ht Hp. pose proof (inv_prods s H t _ Ht) as [Hpos (sl & Hsl & Hge)].
  pose proof (inv_producer s H) as HP. pose proof (freed_nonneg s H) as HF.
  pose proof (inv_window s H) as HW. assert (pos = claims s) as Hpc by congruence.
  rewrite Hpc in Hsl, Hge. destruct (claim_room s sl H Hsl Hge) as [Hroom Hseq].
  unfold bounded in Hb. fold (claims s) in Hb. split; rewrite ?claims_claim.
  - apply shape_producer, H.
  - simpl. rewrite wrap_i64_id; lia.
  - apply H.
  - change (freed s <= claims s + 1 <= freed s + capacity (mem s)). lia.
  - intros j Hj. by apply slot_ok_claim, (inv_slots s H).
  - intros t' pc Ht'. simpl in Ht'. destruct (decide (t' = t)) as [->|Hne].
    + rewrite list_lookup_insert_eq in Ht' by (by eapply lookup_lt_Some). simplify_eq.
      unfold prod_ok. rewrite claims_claim. change (freed (claim_state _ _ _ _)) with (freed s).
      split; [lia|]. split; [|exists sl; split; [by rewrite HP|lia]].
      simpl. rewrite HP. unfold claims. rewrite Nat2Z.id, lookup_app_r, Nat.sub_diag by lia. done.
    + rewrite list_lookup_insert_ne in Ht' by done. by apply prod_ok_claim, (inv_prods s H).
  - apply cons_ok_claim, H.
  - simpl. rewrite (inv_received s H), take_app_le; [done|].
    unfold freed, claims in *. destruct (cons s); lia.
Qed.

(** The thread that holds a claimed position is unique. *)
Lemma holder_unique s t t' pc pc' j :
  inv s -> prods s !! t = Some pc -> prods s !! t' = Some pc' ->
  holds pc j -> holds pc' j -> t = t'.
Proof.
  intros H Ht Ht' Hh Hh'.
  pose proof (inv_prods s H t pc Ht) as Ho. pose proof (inv_prods s H t' pc' Ht') as Ho'.
  destruct pc, pc'; simplify_eq/=; naive_solver congruence.
Qed.

Lemma holds_sequence s t pc j :
  inv s -> prods s !! t = Some pc -> holds pc j ->
  freed s <= j < claims s /\ exists sl, slot_at (mem s) j = Some sl /\ sequence sl = j.
Proof.
  intros H Ht Hh. pose proof (inv_prods s H t pc Ht) as Ho.
  destruct pc; simplify_eq/=; naive_solver.
Qed.

(** Two producers hold different slots. *)
Lemma holders_apart s t t' pc pc' i j :
  inv s -> prods s !! t = Some pc -> prods s !! t' = Some pc' -> t' <> t ->
  holds pc i -> holds pc' j -> ring_index (mem s) i <> ring_index (mem s) j.
Proof.
  intros H Ht Ht' Hne Hi Hj E. pose proof (inv_window s H).
  destruct (holds_sequence s t pc i H Ht Hi) as [? _].
  destruct (holds_sequence s t' pc' j H Ht' Hj) as [? _].
  apply (same_slot s) in E; [subst j|done|lia|lia].
  apply Hne. symmetry. by eapply (holder_unique s).
Qed.

(** A slot whose sequence says published is held by no producer. *)
Lemma published_apart s t pc p j sl :
  inv s -> prods s !! t = Some pc -> holds pc p ->
  freed s <= j < claims s -> slot_at (mem s) j = Some sl -> sequence sl = j + 1 ->
  ring_index (mem s) p <> ring_index (mem s) j.
Proof.
  intros H Ht Hh Hj Hsl Hs E. pose proof (inv_window s H).
  destruct (holds_sequence s t pc p H Ht Hh) as (? & sl' & Hsl' & Hs').
  apply (same_slot s) in E; [subst j|done|lia|lia].
  rewrite Hsl in Hsl'. simplify_eq. lia.
Qed.

(** Writing the data of the slot this producer holds. *)
Lemma inv_write s t x pos :
  inv s -> prods s !! t = Some (PWrite x pos) ->
  inv (mkSys (write_data (mem s) (ring_index (mem s) pos) (Some x))
         (<[t := PPublish x pos]> (prods s)) (cons s) (claimed s) (accepted s) (received s)).
Proof.
  intros H Ht. pose proof (inv_prods s H t _ Ht) as (Hpos & Hcl & sl & Hsl & Hseq).
  pose proof (inv_window s H) as HW. pose proof (lookup_lt_Some _ _ _ Ht) as Hlt.
  split; try apply H.
  - apply shape_write, H.
  - intros j Hj. destruct (inv_slots s H j Hj) as (sl' & Hsl' & Hc).
    unfold slot_ok. cbn [mem prods claimed cons]. rewrite slot_at_write.
    case_decide as E; [apply (same_slot s) in E; [subst j|done|lia|done]|].
    + rewrite Hsl in *. simplify_eq/=. eexists. split; [done|]. left. split; [done|].
      intros _. exists t, (PPublish x (sequence sl')). by rewrite list_lookup_insert_eq.
    + exists sl'. split; [done|]. destruct Hc as [[Hs Hx]|Hc]; [left|by right].
      split; [done|]. intros Hlt'. destruct (Hx Hlt') as (t' & pc & Ht' & Hh).
      exists t', pc. rewrite list_lookup_insert_ne; [done|].
      intros <-. simplify_eq/=. congruence.
  - intros t' pc Ht'. cbn [prods] in Ht'. destruct (decide (t' = t)) as [->|Hne].
    + rewrite list_lookup_insert_eq in Ht' by done. simplify_eq.
      split; [done|]. split; [done|]. cbn [mem]. rewrite slot_at_write, decide_True, Hsl by done.
      done.
    + rewrite list_lookup_insert_ne in Ht' by done.
      pose proof (inv_prods s H t' pc Ht') as Ho.
      assert (forall p, holds pc p -> ring_index (mem s) pos <> ring_index (mem s) p) as Hdiff
        by (intros p; by apply (holders_apart s t t' _ _ pos p H Ht Ht')).
      destruct pc as [| | |y p|y p|y p|]; try done; cbn [prod_ok mem] in *.
      * destruct Ho as (Hp & sl' & Hsl' & Hs). split; [done|].
        rewrite slot_at_write, Hsl'. case_decide; by eexists.
      * rewrite slot_at_write, decide_False; [done|]. by apply Hdiff.
      * rewrite slot_at_write, decide_False; [done|]. by apply Hdiff.
  - pose proof (inv_cons s H) as Ho. unfold cons_ok in *. cbn [mem cons claimed] in *.
    destruct (cons s) as [| | |p|p y|p y| |]; try done; rewrite slot_at_write.
    + destruct Ho as (? & ? & sl' & Hsl' & ?). rewrite Hsl'.
      case_decide; naive_solver.
    + destruct Ho as (? & ? & ? & sl' & Hsl' & ?). rewrite Hsl'.
      case_decide; naive_solver.
Qed.

(** Publishing the slot this producer holds. *)
Lemma inv_publish s t x pos l :
  inv s -> prods s !! t = Some (PPublish x pos) ->
  inv (mkSys (store_sequence (mem s) (ring_index (mem s) pos) (pos + 1))
         (<[t := PIdle]> (prods s)) (cons s) (claimed s) l (received s)).
Proof.
  intros H Ht. pose proof (inv_prods s H t _ Ht) as (Hpos & Hcl & Hsl).
  pose proof (inv_window s H) as HW. pose proof (lookup_lt_Some _ _ _ Ht) as Hlt.
  split; try apply H.
  - apply shape_store, H.
  - intros j Hj. destruct (inv_slots s H j Hj) as (sl' & Hsl' & Hc).
    unfold slot_ok. cbn [mem prods claimed cons]. rewrite slot_at_store.
    case_decide as E; [apply (same_slot s) in E; [subst j|done|lia|done]|].
    + rewrite Hsl. eexists. split; [done|]. right. cbn. split; [done|].
      split; [apply Hpos|]. left. by exists t, x.
    + exists sl'. split; [done|]. destruct Hc as [[Hs Hx]|Hc]; [left|by right].
      split; [done|]. intros Hlt'. destruct (Hx Hlt') as (t' & pc & Ht' & Hh).
      exists t', pc. rewrite list_lookup_insert_ne; [done|].
      intros <-. simplify_eq/=; congruence.
  - intros t' pc Ht'. cbn [prods] in Ht'. destruct (decide (t' = t)) as [->|Hne].
    + rewrite list_lookup_insert_eq in Ht' by done. by simplify_eq.
    + rewrite list_lookup_insert_ne in Ht' by done.
      pose proof (inv_prods s H t' pc Ht') as Ho.
      assert (forall p, holds pc p -> ring_index (mem s) pos <> ring_index (mem s) p) as Hdiff
        by (intros p; by apply (holders_apart s t t' _ _ pos p H Ht Ht')).
      destruct pc as [| | |y p|y p|y p|]; try done; cbn [prod_ok mem] in *.
      * destruct Ho as (Hp & sl' & Hsl' & Hs). split; [done|].
        rewrite slot_at_store. case_decide as E; [|by eexists].
        unfold slot_at in Hsl, Hsl'. rewrite E, Hsl' in Hsl. simplify_eq.
        unfold slot_at. rewrite Hsl'. eexists. split; [done|]. cbn in *. lia.
      * rewrite slot_at_store, decide_False; [done|]. by apply Hdiff.
      * rewrite slot_at_store, decide_False; [done|]. by apply Hdiff.
  - pose proof (inv_cons s H) as Ho. unfold cons_ok in *. cbn [mem cons claimed] in *.
    assert (forall p sl, slot_at (mem s) p = Some sl -> sequence sl = p + 1 ->
      freed s <= p < claims s -> ring_index (mem s) pos <> ring_index (mem s) p) as Hdiff
      by (intros p sl Hp1 Hp2 Hp3; by eapply (published_apart s t _ pos p sl)).
    unfold freed in Hdiff.
    destruct (cons s) as [|p|p|p|p y|p y| |]; try done; rewrite Z.add_0_r in Hdiff.
    + destruct Ho as (? & ? & sl' & ? & ?). rewrite slot_at_store, decide_False; [naive_solver|].
      apply (Hdiff p sl'); [done|done|lia].
    + destruct Ho as (? & ? & ? & sl' & ? & ?).
      rewrite slot_at_store, decide_False; [naive_solver|]. apply (Hdiff p sl'); [done|done|lia].
Qed.

(** The consumer moves the item out of the slot it found published. *)
Lemma inv_read s pos :
  inv s -> cons s = CRead pos ->
  exists t x, slot_at (mem s) pos = Some (mkSlot (pos + 1) (Some x))
    /\ claimed s !! Z.to_nat pos = Some (t, x)
    /\ inv (mkSys (write_data (mem s) (ring_index (mem s) pos) None) (prods s) (CStore pos x)
             (claimed s) (accepted s) (received s)).
Proof.
  intros H Hc. pose proof (inv_cons s H) as Ho. pose proof (inv_window s H) as HW.
  unfold cons_ok in Ho. rewrite Hc in Ho. destruct Ho as (Hp & Hlt & sl & Hsl & Hseq).
  assert (freed s = pos) as HF by (unfold freed; rewrite Hc; lia).
  pose proof (shape_capacity _ (inv_shape s H)) as Hcap.
  destruct (inv_slots s H pos) as (sl' & Hsl' & Hcase); [lia|].
  rewrite Hsl in Hsl'. simplify_eq.
  destruct Hcase as [[? _]|(_ & _ & [(t & x & Hcl & Hd)|[x Hx]])]; [lia| |by rewrite Hc in Hx].
  exists t, x. split; [destruct sl'; simplify_eq/=; by rewrite Hsl|]. split; [done|].
  assert (freed (mkSys (write_data (mem s) (ring_index (mem s) (consumer_index (mem s))) None)
    (prods s) (CStore (consumer_index (mem s)) x) (claimed s) (accepted s) (received s))
    = freed s) as HF' by (unfold freed; rewrite Hc; done).
  split; rewrite ?HF'; try apply H.
  - apply shape_write, H.
  - intros j Hj. change (capacity (mem (mkSys (write_data (mem s) _ _) _ _ _ _ _)))
      with (capacity (mem s)) in Hj.
    unfold slot_ok. cbn [mem prods claimed cons]. rewrite slot_at_write.
    case_decide as E; [apply (same_slot s) in E; [subst j|done|lia|lia]|].
    + rewrite Hsl. eexists. split; [done|]. right. cbn. split; [done|]. split; [done|].
      right. by exists x.
    + destruct (inv_slots s H j Hj) as (sl2 & Hsl2 & Hc2). exists sl2. split; [done|].
      destruct Hc2 as [?|(? & ? & [?|[y Hy]])]; [by left|right; by auto|].
      by rewrite Hc in Hy.
  - intros t' pc Ht'. pose proof (inv_prods s H t' pc Ht') as Ho.
    assert (forall p, holds pc p -> ring_index (mem s) (consumer_index (mem s))
      <> ring_index (mem s) p) as Hdiff.
    { intros p Hh E. eapply (published_apart s t' pc p (consumer_index (mem s)) sl'); try done; lia. }
    destruct pc as [| | |y p|y p|y p|]; try done; unfold prod_ok in *; rewrite ?HF'; cbn [mem] in *.
    * destruct Ho as (Hp & sl2 & Hsl2 & Hs). split; [done|].
      rewrite slot_at_write, Hsl2. case_decide; by eexists.
    * rewrite slot_at_write, decide_False; [done|]. by apply Hdiff.
    * rewrite slot_at_write, decide_False; [done|]. by apply Hdiff.
  - cbn. split; [done|]. split; [done|]. split; [by exists t|].
    rewrite slot_at_write, decide_True, Hsl by done. by eexists.
Qed.

(** The consumer gives the slot back for the next lap. *)
Lemma inv_free s pos x :
  inv s -> cons s = CStore pos x ->
  inv (mkSys (store_sequence (mem s) (ring_index (mem s) pos) (pos + capacity (mem s)))
         (prods s) (CBump pos x) (claimed s) (accepted s) (received s)).
Proof.
  intros H Hc. pose proof (inv_cons s H) as Ho. pose proof (inv_window s H) as HW.
  unfold cons_ok in Ho. rewrite Hc in Ho. destruct Ho as (Hp & Hlt & Hcl & sl & Hsl & Hseq).
  assert (freed s = pos) as HF by (unfold freed; rewrite Hc; lia).
  pose proof (shape_capacity _ (inv_shape s H)) as Hcap.
  assert (freed (mkSys (store_sequence (mem s) (ring_index (mem s) pos)
    (pos + capacity (mem s))) (prods s) (CBump pos x) (claimed s) (accepted s) (received s))
    = pos + 1) as HF' by (unfold freed; cbn; lia).
  split; rewrite ?HF'; try apply H; cbn [mem capacity store_sequence set_buffer].
  - apply shape_store, H.
  - change (pos + 1 <= claims s <= pos + 1 + capacity (mem s)). lia.
  - intros j Hj. unfold slot_ok. cbn [mem prods claimed cons]. rewrite slot_at_store.
    destruct (decide (j = pos + capacity (mem s))) as [->|Hne].
    + rewrite ring_index_lap, decide_True by done. unfold slot_at in *.
      rewrite ring_index_lap, Hsl. eexists. split; [done|]. left. split; [done|].
      change (claims (mkSys _ _ _ (claimed s) _ _)) with (claims s). lia.
    + rewrite decide_False by (intros E; apply (same_slot s) in E; [lia|done|lia|lia]).
      destruct (inv_slots s H j) as (sl2 & Hsl2 & Hc2); [lia|]. exists sl2. split; [done|].
      destruct Hc2 as [?|(? & ? & [?|[y Hy]])]; [by left|right; by auto|].
      rewrite Hc in Hy. simplify_eq. lia.
  - intros t' pc Ht'. pose proof (inv_prods s H t' pc Ht') as Ho.
    assert (forall p, holds pc p -> ring_index (mem s) pos <> ring_index (mem s) p) as Hdiff.
    { intros p Hh E. eapply (published_apart s t' pc p pos sl); try done; lia. }
    destruct pc as [| | |y p|y p|y p|]; try done; unfold prod_ok in *; rewrite ?HF'; cbn [mem] in *.
    * destruct Ho as (Hp' & sl2 & Hsl2 & Hs). split; [done|].
      rewrite slot_at_store. case_decide as E; [|by eexists].
      unfold slot_at in Hsl, Hsl2. rewrite E, Hsl2 in Hsl. simplify_eq.
      unfold slot_at. rewrite Hsl2. eexists. split; [done|]. cbn. lia.
    * specialize (Hdiff p eq_refl). rewrite slot_at_store, decide_False by done.
      split; [|apply Ho]. assert (p <> pos) by (by intros ->). change (pos + 1 <= p < claims s). lia.
    * specialize (Hdiff p eq_refl). rewrite slot_at_store, decide_False by done.
      split; [|apply Ho]. assert (p <> pos) by (by intros ->). change (pos + 1 <= p < claims s). lia.
  - cbn. done.
Qed.

(** The consumer advances its index and returns the item. *)
Lemma inv_bump s pos x :
  inv s -> cons s = CBump pos x ->
  inv (mkSys (set_consumer (mem s) (pos + 1)) (prods s) CIdle (claimed s) (accepted s)
         (received s ++ [x])).
Proof.
  intros H Hc. pose proof (inv_cons s H) as Ho. pose proof (inv_consumer s H) as HC.
  unfold cons_ok in Ho. rewrite Hc in Ho. destruct Ho as (Hp & Hlt & t & Hcl).
  assert (freed (mkSys (set_consumer (mem s) (pos + 1)) (prods s) CIdle (claimed s)
    (accepted s) (received s ++ [x])) = freed s) as HF'
    by (unfold freed; rewrite Hc; cbn; lia).
  split; rewrite ?HF'; try apply H; cbn.
  - apply shape_consumer, H.
  - lia.
  - intros j Hj. destruct (inv_slots s H j Hj) as (sl & Hsl & Hc2). exists sl. split; [done|].
    destruct Hc2 as [?|(? & ? & [?|[y Hy]])]; [by left|right; by auto|]. by rewrite Hc in Hy.
  - intros t' pc Ht'. pose proof (inv_prods s H t' pc Ht') as Ho.
    destruct pc; unfold prod_ok in *; rewrite ?HF'; done.
  - done.
  - rewrite (inv_received s H), <- Hp, Z2Nat.inj_add by lia.
    rewrite Nat.add_1_r, (take_S_r _ _ _ Hcl), fmap_app. done.
Qed.
End preservation.

(** ** Every step preserves the invariant *)
Section steps.
Context {T : Type}.
Implicit Types (s : sys T) (q : MpscBoundedQueue T).

Lemma claimed_grows a s s' :
  step a s = Some s' ->
  (length (claimed s) <= length (claimed s'))%nat /\ capacity (mem s') = capacity (mem s).
Proof.
  destruct a as [t x|t| | |]; cbn [step]; intros Hs.
  - repeat case_match; simplify_eq; done.
  - destruct (prods s !! t) as [pc|]; [|done]. cbn in Hs.
    destruct (producer_step (mem s) pc) as [[[q pc'] e]|] eqn:E; [|done].
    simplify_eq/=. split; [destruct e; cbn; rewrite ?length_app; lia|].
    destruct pc; cbn in E; repeat case_match; simplify_eq; done.
  - repeat case_match; simplify_eq; done.
  - repeat case_match; simplify_eq; done.
  - destruct (consumer_step (mem s) (cons s)) as [[[q pc'] e]|] eqn:E; [|done].
    simplify_eq/=. split; [done|].
    destruct (cons s); cbn in E; repeat case_match; simplify_eq; done.
Qed.

(** The load of the sequence decides on the exact difference. *)
Lemma difference_exact s pos :
  inv s -> bounded s -> 0 <= pos <= claims s ->
  exists sl, buffer (mem s) !! slot_index (mem s) pos = Some sl
    /\ slot_at (mem s) pos = Some sl /\ wrap_i64 (sequence sl - pos) = sequence sl - pos
    /\ freed s <= sequence sl <= freed s + capacity (mem s).
Proof.
  intros H Hb Hp. destruct (slot_sequence_range s pos H) as (sl & Hsl & Hr).
  pose proof (freed_nonneg s H). pose proof (inv_window s H).
  pose proof (shape_capacity _ (inv_shape s H)). unfold bounded in Hb. fold (claims s) in Hb.
  exists sl. rewrite slot_index_pos by apply H. split; [done|]. split; [done|].
  split; [|done]. apply wrap_i64_id. lia.
Qed.

Lemma inv_producer_step s t pc q pc' e :
  inv s -> bounded s -> prods s !! t = Some pc -> producer_step (mem s) pc = Some (q, pc', e) ->
  inv (mkSys q (<[t := pc']> (prods s)) (cons s) (log_claim t e (claimed s))
         (log_return t e (accepted s)) (received s)).
Proof.
  intros H Hb Ht E. pose proof (inv_prods s H t pc Ht) as Ho.
  pose proof (inv_window s H) as HW. pose proof (freed_nonneg s H) as HF.
  pose proof (shape_capacity _ (inv_shape s H)) as Hcap.
  pose proof Hb as Hb'. unfold bounded in Hb'. fold (claims s) in Hb'.
  destruct pc as [|x|x pos|x pos|x pos|x pos|]; cbn in E; simplify_eq/=.
  - apply (inv_set_prod s t (PStart x)); try done. cbn.
    rewrite (inv_producer s H). lia.
  - destruct (difference_exact s pos H Hb Ho) as (sl & Hl & Hsl & Hd & Hr).
    rewrite Hl, Hd in E.
    destruct (Z.eqb_spec (sequence sl - pos) 0); [|destruct (Z.ltb_spec (sequence sl - pos) 0)];
      simplify_eq/=; apply (inv_set_prod s t (PLoadSeq x pos)); try done; cbn.
    split; [done|]. exists sl. split; [done|lia].
  - destruct (Z.eqb_spec (producer_index (mem s)) pos) as [Hp|]; simplify_eq/=.
    + by apply inv_claim.
    + by apply (inv_set_prod s t (PCas x pos)).
  - rewrite slot_index_pos by apply H. by apply inv_write.
  - rewrite slot_index_pos, wrap_i64_id by (try apply H; lia). by apply inv_publish with x.
Qed.

Lemma inv_consumer_step s q pc' e :
  inv s -> bounded s -> consumer_step (mem s) (cons s) = Some (q, pc', e) ->
  inv (mkSys q (prods s) pc' (claimed s) (accepted s) (log_receive e (received s))).
Proof.
  intros H Hb E. pose proof (inv_cons s H) as Ho. unfold cons_ok in Ho.
  pose proof (inv_window s H) as HW. pose proof (freed_nonneg s H) as HF.
  pose proof (inv_consumer s H) as HC. pose proof (shape_capacity _ (inv_shape s H)) as Hcap.
  pose proof Hb as Hb'. unfold bounded in Hb'. fold (claims s) in Hb'.
  destruct (cons s) as [|pos|pos|pos|pos x|pos x| |] eqn:Ec; cbn in E; try done.
  - assert (freed s = pos) as Hf by (unfold freed; rewrite Ec; lia).
    destruct (difference_exact s pos H Hb) as (sl & Hl & Hsl & Hd & Hr); [lia|].
    rewrite Hl, (wrap_i64_id (pos + 1)), wrap_i64_id in E by lia.
    destruct (Z.eqb_spec (sequence sl - (pos + 1)) 0); simplify_eq/=.
    + apply (inv_set_cons s (CRead (consumer_index (mem s)))); [done|by rewrite Ec|..].
      * unfold freed. by rewrite Ec.
      * cbn. split; [done|]. split; [|exists sl; split; [done|lia]].
        destruct (inv_slots s H (consumer_index (mem s))) as (sl' & Hsl' & Hc); [lia|].
        rewrite Hsl in Hsl'. simplify_eq. destruct Hc as [[? _]|(_ & ? & _)]; [lia|done].
    + apply (inv_set_cons s CIdle); [done|by rewrite Ec| |done].
      unfold freed. by rewrite Ec.
  - destruct (difference_exact s pos H Hb) as (sl & Hl & _);
      [unfold freed in HW; rewrite Ec in HW; lia|].
    rewrite Hl in E. simplify_eq/=.
    apply (inv_set_cons s CIdle); [done|by rewrite Ec| |done]. unfold freed. by rewrite Ec.
  - destruct (inv_read s pos H Ec) as (t & x & Hsl & Hcl & Hi).
    rewrite slot_index_pos in E by apply H. unfold slot_at in Hsl. rewrite Hsl in E.
    by simplify_eq/=.
  - unfold freed in HW. rewrite Ec in HW.
    rewrite slot_index_pos, wrap_i64_id in E by (try apply H; lia).
    simplify_eq/=. by apply inv_free.
  - unfold freed in HW. rewrite Ec in HW.
    rewrite wrap_i64_id in E by lia. simplify_eq/=. by apply inv_bump.
Qed.

Lemma inv_step a s s' : inv s -> bounded s -> step a s = Some s' -> inv s'.
Proof.
  intros H Hb Hs. destruct a as [t x|t| | |]; cbn [step] in Hs.
  - destruct (prods s !! t) as [[]|] eqn:Ht; simplify_eq.
    by apply (inv_set_prod s t PIdle).
  - destruct (prods s !! t) as [pc|] eqn:Ht; [|done]. cbn in Hs.
    destruct (producer_step (mem s) pc) as [[[q pc'] e]|] eqn:E; [|done].
    simplify_eq/=. by eapply inv_producer_step.
  - destruct (cons s) eqn:Ec; simplify_eq. apply inv_set_cons; [done|by rewrite Ec| |done].
    unfold freed. by rewrite Ec.
  - destruct (cons s) eqn:Ec; simplify_eq. apply inv_set_cons; [done|by rewrite Ec| |done].
    unfold freed. by rewrite Ec.
  - destruct (consumer_step (mem s) (cons s)) as [[[q pc'] e]|] eqn:E; [|done].
    simplify_eq/=. by apply inv_consumer_step.
Qed.

Lemma inv_initial n q : rep q 0 [] -> inv (initial n q).
Proof.
  intros H. split; cbn.
  - apply H.
  - by rewrite (rep_producer _ _ _ H).
  - by rewrite (rep_consumer _ _ _ H).
  - unfold freed. cbn. rewrite (rep_consumer _ _ _ H).
    pose proof (shape_capacity _ (rep_shape _ _ _ H)).
    change (wrap_i64 0) with 0. unfold claims. cbn. lia.
  - unfold freed. cbn. rewrite (rep_consumer _ _ _ H).
    change (wrap_i64 0) with 0. intros j Hj.
    pose proof (shape_capacity _ (rep_shape _ _ _ H)).
    destruct (rep_free _ _ _ H (Z.to_nat j)) as [d Hd]; [cbn; lia|].
    rewrite Z2Nat.id in Hd by lia. rewrite Z.add_0_l in Hd.
    eexists. split; [exact Hd|]. left. cbn. rewrite wrap_i64_id by lia.
    split; [done|]. unfold claims. cbn. lia.
  - intros t pc Ht. apply lookup_replicate in Ht as [-> _]. done.
  - done.
  - by rewrite take_nil.
Qed.

Lemma reachable_inv n q s : rep q 0 [] -> reachable n q s -> bounded s -> inv s.
Proof.
  intros Hq Hr. revert Hr. unfold reachable.
  refine (fun Hr => invariant_reachable step (fun s => bounded s -> inv s) _ _ _ Hr _).
  - intros a s1 s2 HI Hs Hb. destruct (claimed_grows a s1 s2 Hs) as [Hg Hc].
    assert (bounded s1) as Hb1 by (unfold bounded in *; rewrite Hc in Hb; lia).
    apply (inv_step a s1); auto.
  - intros _. by apply inv_initial.
Qed.
End steps.

(** ** Order of one producer's items *)
Section order.
Context {T : Type}.
Implicit Types (s : sys T).

(** The items of producer [t] in a log, in order. *)
Definition by_producer (t : nat) (l : list (nat * T)) : list T :=
  (filter (λ e, e.1 = t) l).*2.

(** The item a producer has claimed but not yet returned [true] for. *)
Definition in_flight (pc : option (ppc T)) : list T :=
  match pc with Some (PWrite x _) | Some (PPublish x _) => [x] | _ => [] end.

Definition order_inv s : Prop :=
  forall t, by_producer t (claimed s) = by_producer t (accepted s) ++ in_flight (prods s !! t).

Lemma by_producer_snoc t t' x l :
  by_producer t (l ++ [(t', x)]) = by_producer t l ++ if decide (t' = t) then [x] else [].
Proof.
  unfold by_producer. rewrite filter_app, fmap_app. f_equal.
  destruct (decide (t' = t)) as [->|Hne].
  - by rewrite filter_cons_True.
  - by rewrite filter_cons_False.
Qed.

Lemma order_step a s s' : order_inv s -> step a s = Some s' -> order_inv s'.
Proof.
  intros H Hs t'. specialize (H t').
  destruct a as [t x|t| | |]; cbn [step] in Hs.
  - destruct (prods s !! t) as [[]|] eqn:Ht; simplify_eq. cbn [set_prod claimed accepted prods]. rewrite H.
    f_equal. destruct (decide (t = t')) as [<-|]; [|by rewrite list_lookup_insert_ne].
    rewrite Ht, list_lookup_insert_eq; [done|by eapply lookup_lt_Some].
  - destruct (prods s !! t) as [pc|] eqn:Ht; [|done]. cbn in Hs.
    destruct (producer_step (mem s) pc) as [[[q pc'] e]|] eqn:E; [|done].
    simplify_eq/=. destruct (decide (t = t')) as [<-|Hne].
    + rewrite Ht in H. rewrite list_lookup_insert_eq by (by eapply lookup_lt_Some).
      destruct pc; cbn in E, H; repeat case_match; simplify_eq/=;
        rewrite ?by_producer_snoc, ?decide_True, ?app_nil_r in * by done; congruence.
    + rewrite list_lookup_insert_ne by done.
      destruct pc; cbn in E; repeat case_match; simplify_eq/=;
        rewrite ?by_producer_snoc, ?decide_False, ?app_nil_r in * by done; congruence.
  - repeat case_match; simplify_eq; done.
  - repeat case_match; simplify_eq; done.
  - destruct (consumer_step (mem s) (cons s)) as [[[q pc'] e]|] eqn:E; [|done].
    by simplify_eq/=.
Qed.

Lemma reachable_order n q s : reachable n q s -> order_inv s.
Proof.
  intros Hr. apply (invariant_reachable step order_inv order_step _ _ Hr).
  intros t. cbn. destruct (replicate n PIdle !! t) as [pc|] eqn:E; [|done].
  by apply lookup_replicate in E as [-> _].
Qed.
End order.

(** ** Properties *)
Section properties.
Context {T : Type}.
Implicit Types (s : sys T) (q : MpscBoundedQueue T).

Lemma quiescent_slot s i t x :
  inv s -> cons s = CIdle -> (forall t pc, prods s !! t = Some pc -> pc = PIdle) ->
  claimed s !! (Z.to_nat (consumer_index (mem s)) + i)%nat = Some (t, x) ->
  slot_at (mem s) (consumer_index (mem s) + Z.of_nat i)
  = Some (mkSlot (consumer_index (mem s) + Z.of_nat i + 1) (Some x)).
Proof.
  intros H Hc Hidle Hl. pose proof (inv_consumer s H) as HC.
  pose proof (inv_window s H) as HW. unfold freed in HW. rewrite Hc, Z.add_0_r in HW.
  assert (consumer_index (mem s) + Z.of_nat i < claims s) as Hlt.
  { apply lookup_lt_Some in Hl. unfold claims. lia. }
  destruct (inv_slots s H (consumer_index (mem s) + Z.of_nat i)) as (sl & Hsl & Hcase).
  { unfold freed. rewrite Hc, Z.add_0_r. lia. }
  destruct Hcase as [[_ Hx]|(Hs & _ & [(t' & y & Hy & Hd)|[y Hy]])].
  - destruct (Hx Hlt) as (t' & pc & Ht' & Hh). by rewrite (Hidle _ _ Ht') in Hh.
  - rewrite Z2Nat.inj_add, Nat2Z.id in Hy by lia. rewrite Hl in Hy. simplify_eq.
    rewrite Hsl. destruct sl; simplify_eq/=. done.
  - by rewrite Hc in Hy.
Qed.

(** C1.  Memory safety of the ring under any interleaving of producers and the
    consumer, as long as the counters have not overflowed: no index is out of
    bounds, the consumer never reads an uninitialised slot, and no two threads
    are about to make conflicting non-atomic accesses to the same slot's data
    (two writers, or a writer and the reader). *)
Theorem mpsc_memory_safe n q s :
  rep q 0 [] -> reachable n q s -> bounded s ->
  (forall t, prods s !! t <> Some PPanicked) /\ cons s <> CPanicked /\ cons s <> CUndefined
  /\ (forall t t' x x' pos pos', t <> t' ->
        prods s !! t = Some (PWrite x pos) -> prods s !! t' = Some (PWrite x' pos') ->
        slot_index (mem s) pos <> slot_index (mem s) pos')
  /\ (forall t x pos pos',
        prods s !! t = Some (PWrite x pos) -> cons s = CRead pos' ->
        slot_index (mem s) pos <> slot_index (mem s) pos').
Proof.
  intros Hq Hr Hb. pose proof (reachable_inv n q s Hq Hr Hb) as H.
  pose proof (inv_cons s H) as Ho. unfold cons_ok in Ho.
  split; [|split; [|split; [|split]]].
  - intros t Ht. apply (inv_prods s H t _ Ht).
  - intros E. by rewrite E in Ho.
  - intros E. by rewrite E in Ho.
  - intros t t' x x' pos pos' Hne Ht Ht'. rewrite !slot_index_pos by apply H.
    by apply (holders_apart s t t' (PWrite x pos) (PWrite x' pos')).
  - intros t x pos pos' Ht E. rewrite E in Ho. destruct Ho as (Hp & Hlt & sl & Hsl & Hs).
    rewrite !slot_index_pos by apply H.
    apply (published_apart s t (PWrite x pos) pos pos' sl); try done.
    unfold freed. rewrite E. lia.
Qed.

(** C2.  Order and exactly-once delivery: what the consumer has received is a
    prefix of the items in the order they were claimed, so nothing is lost,
    duplicated or invented; and the claimed items of one producer are the
    items its calls returned [true] for, in call order, followed by at most
    the one item of its unfinished call.  Messages of one producer therefore
    arrive in the order it enqueued them. *)
Theorem mpsc_fifo n q s :
  rep q 0 [] -> reachable n q s -> bounded s ->
  (exists rest, (claimed s).*2 = received s ++ rest)
  /\ length (received s) = Z.to_nat (consumer_index (mem s))
  /\ forall t, by_producer t (claimed s)
               = by_producer t (accepted s) ++ in_flight (prods s !! t).
Proof.
  intros Hq Hr Hb. pose proof (reachable_inv n q s Hq Hr Hb) as H.
  rewrite (inv_received s H). split; [|split].
  - exists (drop (Z.to_nat (consumer_index (mem s))) (claimed s)).*2.
    by rewrite <- fmap_app, take_drop.
  - rewrite length_fmap, length_take. pose proof (inv_window s H) as HW.
    pose proof (inv_consumer s H). unfold freed, claims in HW. destruct (cons s); lia.
  - by apply (reachable_order n q).
Qed.

(** [try_enqueue] answers [false] only when the ring is full: at the step
    that decides, [capacity] claimed items have not been given back.  And
    [try_dequeue] answers [None] only when no item is queued or the oldest
    claimed item is still being written by its producer. *)
Theorem mpsc_refusals n q s :
  rep q 0 [] -> reachable n q s -> bounded s ->
  (forall t pc q' pc' x, prods s !! t = Some pc ->
     producer_step (mem s) pc = Some (q', pc', Returned x false) ->
     claims s = freed s + capacity (mem s))
  /\ (forall q' pc', consumer_step (mem s) (cons s) = Some (q', pc', Dequeued None) ->
     claims s = freed s \/
     exists t pc, prods s !! t = Some pc /\ holds pc (consumer_index (mem s))).
Proof.
  intros Hq Hr Hb. pose proof (reachable_inv n q s Hq Hr Hb) as H.
  pose proof (inv_window s H) as HW. pose proof (shape_capacity _ (inv_shape s H)) as Hcap.
  pose proof (freed_nonneg s H) as HF. pose proof Hb as Hb'. unfold bounded in Hb'.
  fold (claims s) in Hb'. split.
  - intros t pc q' pc' x Ht E. pose proof (inv_prods s H t pc Ht) as Ho.
    destruct pc as [| |y pos|y pos| | |]; cbn in E; try (repeat case_match; simplify_eq; done).
    destruct (difference_exact s pos H Hb Ho) as (sl & Hl & Hsl & Hd & Hrg).
    rewrite Hl, Hd in E. destruct (Z.eqb_spec (sequence sl - pos) 0); [done|].
    destruct (Z.ltb_spec (sequence sl - pos) 0) as [Hneg|]; [clear E|done].
    destruct (decide (pos < freed s + capacity (mem s))) as [Hin|]; [|cbn in Ho; lia].
    exfalso. destruct (inv_slots s H pos) as (sl' & Hsl' & Hc); [lia|].
    rewrite Hsl in Hsl'. simplify_eq. destruct Hc as [[? _]|[? _]]; lia.
  - intros q' pc' E. pose proof (inv_cons s H) as Ho. unfold cons_ok in Ho.
    assert (freed s = consumer_index (mem s) + match cons s with CBump _ _ => 1 | _ => 0 end)
      as Hf by done.
    destruct (cons s) as [|pos|pos|pos|pos x|pos x| |] eqn:Ec;
      cbn in E; try (repeat case_match; simplify_eq; done). subst pos.
    destruct (decide (claims s = freed s)) as [|Hne]; [by left|right].
    destruct (difference_exact s (consumer_index (mem s)) H Hb) as (sl & Hl & Hsl & _ & Hrg);
      [lia|].
    rewrite Hl, (wrap_i64_id (consumer_index (mem s) + 1)), wrap_i64_id in E by lia.
    destruct (Z.eqb_spec (sequence sl - (consumer_index (mem s) + 1)) 0) as [|Hnp]; [done|].
    destruct (inv_slots s H (consumer_index (mem s))) as (sl' & Hsl' & Hc); [lia|].
    rewrite Hsl in Hsl'. simplify_eq. destruct Hc as [[_ Hx]|[? _]]; [|lia].
    apply Hx. lia.
Qed.

(** Between calls the shared ring is a ring of the one-call-at-a-time
    model: with every thread idle, it represents exactly the claimed items
    that have not been received, so the FIFO contract of [ring_refines_fifo]
    applies to it. *)
Theorem mpsc_quiescent_rep n q s :
  rep q 0 [] -> reachable n q s -> bounded s ->
  cons s = CIdle -> (forall t pc, prods s !! t = Some pc -> pc = PIdle) ->
  rep (mem s) (consumer_index (mem s))
    (drop (Z.to_nat (consumer_index (mem s))) (claimed s)).*2.
Proof.
  intros Hq Hr Hb Hc Hidle. pose proof (reachable_inv n q s Hq Hr Hb) as H.
  pose proof (inv_window s H) as HW. unfold freed in HW. rewrite Hc, Z.add_0_r in HW.
  pose proof (inv_consumer s H) as HC. pose proof (shape_capacity _ (inv_shape s H)) as Hcap.
  pose proof Hb as Hb'. unfold bounded in Hb'. fold (claims s) in Hb'.
  assert (Z.of_nat (length (drop (Z.to_nat (consumer_index (mem s))) (claimed s)).*2)
          = claims s - consumer_index (mem s)) as HL.
  { rewrite length_fmap, length_drop. unfold claims in *. lia. }
  split; rewrite ?HL.
  - apply H.
  - rewrite (inv_producer s H), wrap_i64_id; lia.
  - rewrite wrap_i64_id; lia.
  - lia.
  - intros i x Hi. apply list_lookup_fmap_Some in Hi as ([t y] & -> & Hi).
    rewrite lookup_drop in Hi. rewrite wrap_i64_id.
    + by apply (quiescent_slot s i t y).
    + apply lookup_lt_Some in Hi. unfold claims in *. lia.
  - intros i Hi. destruct (inv_slots s H (consumer_index (mem s) + Z.of_nat i)) as (sl & Hsl & Hx).
    { unfold freed. rewrite Hc. lia. }
    destruct Hx as [[Hs _]|(? & ? & _)]; [|lia].
    exists (data sl). rewrite wrap_i64_id by lia. unfold slot_at in Hsl. rewrite Hsl.
    destruct sl; simplify_eq/=. done.
Qed.

(** The one-call-at-a-time [try_enqueue] is the concurrent one run
    without interference: whenever it returns, the same call made by an idle
    producer [t] and run alone leaves the same memory and the same answer. *)
Theorem try_enqueue_solo s t x b q' :
  prods s !! t = Some PIdle ->
  try_enqueue (mem s) x = Ok (b, q') ->
  exists acts s', run step (CallEnqueue t x :: acts) s = Some s'
    /\ (forall a, a ∈ acts -> a = ProducerStep t)
    /\ mem s' = q' /\ prods s' !! t = Some PIdle
    /\ accepted s' = accepted s ++ (if b then [(t, x)] else []).
Proof.
  intros Ht E. pose proof (lookup_lt_Some _ _ _ Ht) as Hlt.
  unfold try_enqueue in E. cbn [try_enqueue_loop] in E.
  destruct (buffer (mem s) !! slot_index (mem s) (producer_index (mem s))) as [sl|] eqn:Hl; [|done].
  destruct (wrap_i64 (sequence sl - producer_index (mem s)) =? 0) eqn:E0;
    [|destruct (wrap_i64 (sequence sl - producer_index (mem s)) <? 0) eqn:E1]; simplify_eq.
  - exists (replicate 5 (ProducerStep t)).
    eexists (mkSys _ (<[t := PIdle]> (prods s)) (cons s) (claimed s ++ [(t, x)])
               (accepted s ++ [(t, x)]) (received s)).
    split; [|split; [|by cbn; rewrite list_lookup_insert_eq]].
    + repeat (cbn; rewrite ?Ht, ?list_lookup_insert_eq, ?list_insert_insert_eq, ?Hl, ?E0,
                ?Z.eqb_refl by (rewrite ?length_insert; done)). done.
    + intros a Ha. by apply elem_of_replicate in Ha as [-> _].
  - exists (replicate 2 (ProducerStep t)).
    eexists (mkSys _ (<[t := PIdle]> (prods s)) (cons s) (claimed s) (accepted s) (received s)).
    split; [|split; [|by cbn; rewrite list_lookup_insert_eq, app_nil_r]].
    + repeat (cbn; rewrite ?Ht, ?list_lookup_insert_eq, ?list_insert_insert_eq, ?Hl, ?E0, ?E1
                by (rewrite ?length_insert; done)). done.
    + intros a Ha. by apply elem_of_replicate in Ha as [-> _].
Qed.
End properties.

(** ** A two-slot ring with two producers, run on concrete schedules *)
Definition ring2 : MpscBoundedQueue nat :=
  mkQueue [mkSlot 0 None; mkSlot 1 None] 2 0 0 1.

Example ring2_new : new 2 = Ok ring2.
Proof. reflexivity. Qed.

Lemma ring2_rep : rep ring2 0 [].
Proof.
  destruct (new_rep (T := nat) 2) as (q & Hq & Hr & _); [lia|].
  by rewrite ring2_new in Hq; simplify_eq.
Qed.

(** Both producers read position 0; producer 1 wins it, producer 0 retries and
    claims position 1; both are about to write their slots. *)
Definition racing : list (action nat) :=
  [CallEnqueue 0 10%nat; CallEnqueue 1 20%nat; ProducerStep 0; ProducerStep 1; ProducerStep 0;
   ProducerStep 1; ProducerStep 1; ProducerStep 0; ProducerStep 0; ProducerStep 0; ProducerStep 0].

(** Then both publish, and producer 0 loads position 2 of the now full ring. *)
Definition filling : list (action nat) :=
  racing ++ [ProducerStep 0; ProducerStep 1; ProducerStep 1; ProducerStep 0;
             CallEnqueue 0 30%nat; ProducerStep 0].

(** Instead of enqueuing, the consumer takes the oldest item. *)
Definition receiving : list (action nat) :=
  racing ++ [ProducerStep 0; ProducerStep 1; ProducerStep 1; ProducerStep 0;
             CallDequeue; ConsumerStep; ConsumerStep; ConsumerStep; ConsumerStep].

Definition after (acts : list (action nat)) : sys nat :=
  default (initial 2 ring2) (run step acts (initial 2 ring2)).

Lemma after_reachable acts :
  is_Some (run step acts (initial 2 ring2)) -> reachable 2 ring2 (after acts).
Proof.
  intros [s Hs]. unfold after. rewrite Hs. by apply (run_reaches step acts).
Qed.

Lemma mpsc_memory_safe_witness :
  slot_index (mem (after racing)) 1 <> slot_index (mem (after racing)) 0
  /\ cons (after racing) <> CUndefined.
Proof.
  destruct (mpsc_memory_safe 2 ring2 (after racing) ring2_rep) as (_ & _ & HU & HW & _).
  - apply after_reachable. eexists; vm_compute; reflexivity.
  - vm_compute; reflexivity.
  - split; [|exact HU]. apply (HW 0%nat 1%nat 10%nat 20%nat 1 0); [lia|vm_compute; reflexivity..].
Defined.

Lemma mpsc_fifo_witness :
  received (after receiving) = [20%nat]
  /\ (exists rest, (claimed (after receiving)).*2 = received (after receiving) ++ rest)
  /\ by_producer 0 (claimed (after receiving)) = by_producer 0 (accepted (after receiving)) ++ [].
Proof.
  destruct (mpsc_fifo 2 ring2 (after receiving) ring2_rep) as (HP & _ & HO).
  - apply after_reachable. eexists; vm_compute; reflexivity.
  - vm_compute; reflexivity.
  - split; [vm_compute; reflexivity|]. split; [exact HP|]. exact (HO 0%nat).
Defined.

Lemma mpsc_refusals_witness : claims (after filling) = freed (after filling) + 2.
Proof.
  destruct (mpsc_refusals 2 ring2 (after filling) ring2_rep) as (HF & _).
  - apply after_reachable. eexists; vm_compute; reflexivity.
  - vm_compute; reflexivity.
  - eapply (HF 0%nat (PLoadSeq 30%nat 2)); vm_compute; reflexivity.
Defined.

Lemma mpsc_quiescent_rep_witness : rep (mem (after receiving)) 1 [10%nat].
Proof.
  apply (mpsc_quiescent_rep 2 ring2 (after receiving) ring2_rep).
  - apply after_reachable. eexists; vm_compute; reflexivity.
  - vm_compute; reflexivity.
  - vm_compute; reflexivity.
  - intros t pc Ht. vm_compute in Ht. destruct t as [|[|t]]; congruence.
Defined.

Lemma try_enqueue_solo_witness :
  exists acts s', run step (CallEnqueue 1 5%nat :: acts) (initial 2 ring2) = Some s'
    /\ accepted s' = [(1%nat, 5%nat)].
Proof.
  destruct (try_enqueue_solo (initial 2 ring2) 1 5%nat true
    (mkQueue [mkSlot 1 (Some 5%nat); mkSlot 1 None] 2 1 0 1)) as (acts & s' & Hr & _ & _ & _ & Ha).
  - vm_compute; reflexivity.
  - vm_compute; reflexivity.
  - exists acts, s'. split; [exact Hr|exact Ha].
Defined.
