(* ===== verification/RingMailbox.v ===== *)
(** The mailbox an actor runner relies on, and the ring that provides it.

    [RunnerProtocol] sees its mailbox as a list of cells: an enqueue claims the
    cell behind the last one if fewer than the capacity are in the list, and
    publishes it later; a dequeue takes the first cell if it is published.  Here
    this contract is a step relation, [mail_step]; the runner's steps are steps
    of it, and so are the steps of the concurrent ring ([MpscConcurrent]), whose
    loads, stores and [compare_exchange]s each do one thing to the abstract
    cells or nothing. *)
From S2P Require Import Prelude MpscQueue MpscConcurrent.
Local Open Scope nat_scope.

Section mailbox.
Context {T : Type}.

(** The cells, oldest first, and how many were taken before them. *)
Definition mailbox : Type := list (T * bool) * nat.

Inductive mail_event : Type :=
| MSilent
| MClaim (x : T)
| MPublish (pos : nat)
| MTake (x : T)
| MFull                       (** an enqueue is refused *)
| MEmpty                      (** a dequeue finds nothing *)
| MPeek (b : bool).

Definition head_published (cs : list (T * bool)) : bool :=
  match cs with (_, true) :: _ => true | _ => false end.

Definition publish_at (k : nat) : list (T * bool) -> list (T * bool) :=
  alter (λ cell, (cell.1, true)) k.

Inductive mail_step (cap : nat) : mailbox -> mail_event -> mailbox -> Prop :=
| mail_silent m : mail_step cap m MSilent m
| mail_claim cs n x :
    length cs < cap -> mail_step cap (cs, n) (MClaim x) (cs ++ [(x, false)], n)
| mail_publish cs n pos x :
    n <= pos -> cs !! (pos - n) = Some (x, false) ->
    mail_step cap (cs, n) (MPublish pos) (publish_at (pos - n) cs, n)
| mail_take cs n x : mail_step cap ((x, true) :: cs, n) (MTake x) (cs, S n)
| mail_full cs n : length cs = cap -> mail_step cap (cs, n) MFull (cs, n)
| mail_empty cs n : head_published cs = false -> mail_step cap (cs, n) MEmpty (cs, n)
| mail_peek cs n : mail_step cap (cs, n) (MPeek (head_published cs)) (cs, n).

(** A sequence of steps with what happened at each. *)
Inductive mail_trace (cap : nat) (m0 : mailbox) : list mail_event -> mailbox -> Prop :=
| trace_nil : mail_trace cap m0 [] m0
| trace_snoc tr m e m' :
    mail_trace cap m0 tr m -> mail_step cap m e m' -> mail_trace cap m0 (tr ++ [e]) m'.
End mailbox.
Arguments mailbox T : clear implicits.
Arguments mail_event T : clear implicits.

(** ** The ring as a mailbox *)
Section ring.
Context {T : Type}.
Implicit Types (s : sys T) (q : MpscBoundedQueue T).
Local Open Scope Z_scope.

(** The slot of position [j] carries the sequence of a published item. *)
Definition published q (j : Z) : bool :=
  match slot_at q j with Some sl => sequence sl =? j + 1 | None => false end.

(** The claimed items whose slot has not been given back. *)
Definition cells_of s : list (T * bool) :=
  imap (λ k tx, (tx.2, published (mem s) (freed s + Z.of_nat k)))
    (drop (Z.to_nat (freed s)) (claimed s)).

Definition mailbox_of s : mailbox T := (cells_of s, Z.to_nat (freed s)).

(** What a step does to the mailbox: a claim at the [compare_exchange], a
    publication at the store of the sequence, a take where the consumer gives
    the slot back, the answers where they are decided. *)
Definition mail_label (a : action T) s : mail_event T :=
  match a with
  | ProducerStep t =>
      match prods s !! t with
      | Some pc =>
          match producer_step (mem s) pc, pc with
          | Some (_, _, Claimed x), _ => MClaim x
          | Some (_, _, Returned _ true), PPublish _ pos => MPublish (Z.to_nat pos)
          | Some (_, _, Returned _ false), _ => MFull
          | _, _ => MSilent
          end
      | None => MSilent
      end
  | ConsumerStep =>
      match consumer_step (mem s) (cons s), cons s with
      | Some _, CStore _ x => MTake x
      | Some (_, _, Dequeued None), _ => MEmpty
      | Some (_, _, Peeked b), _ => MPeek b
      | _, _ => MSilent
      end
  | _ => MSilent
  end.

Lemma lookup_cells s k :
  cells_of s !! k
  = (λ tx, (tx.2, published (mem s) (freed s + Z.of_nat k))) <$> claimed s !! (Z.to_nat (freed s) + k)%nat.
Proof. unfold cells_of. by rewrite list_lookup_imap, lookup_drop. Qed.

Lemma length_cells s : inv s -> Z.of_nat (length (cells_of s)) = claims s - freed s.
Proof.
  intros H. pose proof (freed_nonneg s H). pose proof (inv_window s H).
  unfold cells_of, claims in *. rewrite length_imap, length_drop. lia.
Qed.

(** Same positions, same sequences: same mailbox. *)
Lemma mailbox_same s s' :
  inv s -> freed s' = freed s -> claimed s' = claimed s ->
  (forall j, freed s <= j < claims s -> published (mem s') j = published (mem s) j) ->
  mailbox_of s' = mailbox_of s.
Proof.
  intros H Hf Hc Hp. unfold mailbox_of. f_equal; [|by rewrite Hf]. apply list_eq. intros k.
  rewrite !lookup_cells, Hf, Hc. destruct (claimed s !! _) as [tx|] eqn:E; [|done]. cbn.
  rewrite Hp; [done|]. apply lookup_lt_Some in E. pose proof (freed_nonneg s H).
  unfold claims. lia.
Qed.

Lemma published_write q i d j : published (write_data q (ring_index q i) d) j = published q j.
Proof. unfold published. rewrite slot_at_write. case_decide; by destruct (slot_at q j). Qed.

Lemma published_store_ne q i z j :
  ring_index q i <> ring_index q j -> published (store_sequence q (ring_index q i) z) j = published q j.
Proof. intros Hne. unfold published. by rewrite slot_at_store, decide_False. Qed.

(** A head cell is published when the slot at the consumer's position is. *)
Lemma head_cells s :
  inv s -> freed s = consumer_index (mem s) ->
  head_published (cells_of s)
  = (if decide (freed s < claims s) then published (mem s) (consumer_index (mem s)) else false).
Proof.
  intros H Hf. pose proof (lookup_cells s 0) as Hl. pose proof (length_cells s H) as Hlen.
  pose proof (inv_window s H). rewrite Nat.add_0_r, Z.add_0_r in Hl.
  destruct (cells_of s) as [|[x b] rest]; cbn in *.
  - case_decide; [lia|done].
  - case_decide; [|lia]. destruct (claimed s !! Z.to_nat (freed s)) as [tx|]; [|done].
    cbn in Hl. simplify_eq. rewrite <- Hf. by destruct (published _ _).
Qed.

(** The consumer's comparison of the sequence at its position. *)
Lemma consumer_sees s :
  inv s -> bounded s -> freed s = consumer_index (mem s) ->
  exists sl, buffer (mem s) !! slot_index (mem s) (consumer_index (mem s)) = Some sl
    /\ (wrap_i64 (sequence sl - wrap_i64 (consumer_index (mem s) + 1)) =? 0)
       = head_published (cells_of s).
Proof.
  intros H Hb Hf. pose proof (inv_window s H) as HW. pose proof (inv_consumer s H) as HC.
  pose proof (shape_capacity _ (inv_shape s H)) as Hcap.
  destruct (difference_exact s (consumer_index (mem s)) H Hb) as (sl & Hl & Hsl & _ & Hr); [lia|].
  exists sl. split; [done|]. unfold bounded in Hb. fold (claims s) in Hb.
  rewrite (wrap_i64_id (consumer_index (mem s) + 1)), wrap_i64_id, head_cells by (done || lia).
  unfold published. rewrite Hsl. case_decide as Hlt.
  - by destruct (Z.eqb_spec (sequence sl - (consumer_index (mem s) + 1)) 0);
      destruct (Z.eqb_spec (sequence sl) (consumer_index (mem s) + 1)); (done || lia).
  - destruct (inv_slots s H (consumer_index (mem s))) as (sl' & Hsl' & Hc); [lia|].
    rewrite Hsl in Hsl'. simplify_eq. apply Z.eqb_neq. destruct Hc as [[? _]|(_ & ? & _)]; lia.
Qed.

Lemma mail_claim_step s t x pos :
  inv s -> prods s !! t = Some (PCas x pos) -> producer_index (mem s) = pos ->
  mail_step (Z.to_nat (capacity (mem s))) (mailbox_of s) (MClaim x)
    (mailbox_of (claim_state s t x pos)).
Proof.
  intros H Ht Hp. pose proof (inv_prods s H t _ Ht) as [Hpos (sl & Hsl & Hge)].
  pose proof (inv_producer s H) as HP. assert (pos = claims s) as Hpc by congruence.
  rewrite Hpc in Hsl, Hge. destruct (claim_room s sl H Hsl Hge) as [Hroom Hseq].
  pose proof (length_cells s H) as Hlen. pose proof (freed_nonneg s H) as HF.
  pose proof (inv_window s H) as HW.
  assert (mailbox_of (claim_state s t x pos) = (cells_of s ++ [(x, false)], Z.to_nat (freed s))) as ->.
  { unfold mailbox_of. f_equal. unfold cells_of. cbn [claim_state claimed mem].
    change (freed (claim_state s t x pos)) with (freed s).
    rewrite drop_app_le, imap_app by (unfold claims in *; lia). f_equal. cbn.
    rewrite length_drop. unfold published. cbn [set_producer].
    change (slot_at (set_producer (mem s) (wrap_i64 (pos + 1)))) with (slot_at (mem s)).
    replace (freed s + _) with (claims s) by (unfold claims in *; lia). rewrite Hsl.
    by destruct (Z.eqb_spec (sequence sl) (claims s + 1)); [lia|]. }
  constructor. lia.
Qed.

Lemma mail_publish_step s t x pos l :
  inv s -> prods s !! t = Some (PPublish x pos) ->
  mail_step (Z.to_nat (capacity (mem s))) (mailbox_of s) (MPublish (Z.to_nat pos))
    (mailbox_of (mkSys (store_sequence (mem s) (ring_index (mem s) pos) (pos + 1))
       (<[t := PIdle]> (prods s)) (cons s) (claimed s) l (received s))).
Proof.
  intros H Ht. pose proof (inv_prods s H t _ Ht) as (Hpos & Hcl & Hsl).
  pose proof (freed_nonneg s H) as HF. pose proof (inv_window s H) as HW.
  set (s' := mkSys _ _ _ _ _ _).
  assert (cells_of s !! (Z.to_nat pos - Z.to_nat (freed s))%nat = Some (x, false)) as Hc.
  { rewrite lookup_cells. replace (_ + _)%nat with (Z.to_nat pos) by lia. rewrite Hcl. cbn.
    replace (freed s + _) with pos by lia. unfold published. rewrite Hsl. cbn.
    by destruct (Z.eqb_spec pos (pos + 1)); [lia|]. }
  assert (mailbox_of s' = (publish_at (Z.to_nat pos - Z.to_nat (freed s)) (cells_of s),
            Z.to_nat (freed s))) as ->.
  { unfold mailbox_of. f_equal. apply list_eq. intros k. rewrite lookup_cells.
    change (freed s') with (freed s). change (claimed s') with (claimed s). unfold publish_at.
    destruct (decide (k = (Z.to_nat pos - Z.to_nat (freed s))%nat)) as [->|Hne].
    - rewrite list_lookup_alter_eq, Hc. replace (_ + _)%nat with (Z.to_nat pos) by lia.
      rewrite Hcl. cbn. replace (freed s + _) with pos by lia. unfold published.
      cbn [s' mem]. rewrite slot_at_store, decide_True, Hsl by done. cbn. by rewrite Z.eqb_refl.
    - rewrite list_lookup_alter_ne, lookup_cells by done.
      destruct (claimed s !! (Z.to_nat (freed s) + k)%nat) as [tx|] eqn:E; [|done]. cbn. do 2 f_equal.
      apply lookup_lt_Some in E. unfold claims in *. apply published_store_ne. intros Er.
      apply (same_slot s) in Er; [lia|done|unfold claims; lia|lia]. }
  by econstructor; [lia|].
Qed.

Lemma mail_take_step s pos x :
  inv s -> cons s = CStore pos x ->
  mail_step (Z.to_nat (capacity (mem s))) (mailbox_of s) (MTake x)
    (mailbox_of (mkSys (store_sequence (mem s) (ring_index (mem s) pos) (pos + capacity (mem s)))
       (prods s) (CBump pos x) (claimed s) (accepted s) (received s))).
Proof.
  intros H Hc. pose proof (inv_cons s H) as Ho. pose proof (inv_window s H) as HW.
  unfold cons_ok in Ho. rewrite Hc in Ho. destruct Ho as (Hp & Hlt & [t Hcl] & sl & Hsl & Hseq).
  pose proof (inv_consumer s H) as HC.
  assert (freed s = pos) as HF by (unfold freed; rewrite Hc; lia).
  set (s' := mkSys _ _ _ _ _ _). assert (freed s' = pos + 1) as HF' by (unfold freed; cbn; lia).
  assert (cells_of s = (x, true) :: cells_of s') as E.
  { apply list_eq. intros [|k]; rewrite lookup_cells, HF.
    - rewrite Nat.add_0_r, Hcl, Z.add_0_r. cbn. unfold published. rewrite Hsl, Hseq.
      by rewrite Z.eqb_refl.
    - change (((x, true) :: cells_of s') !! S k) with (cells_of s' !! k).
      rewrite lookup_cells, HF'. change (claimed s') with (claimed s).
      replace (Z.to_nat (pos + 1) + k)%nat with (Z.to_nat pos + S k)%nat by lia.
      destruct (claimed s !! (Z.to_nat pos + S k)%nat) as [tx|] eqn:El; [|done]. cbn [fmap option_fmap option_map].
      do 2 f_equal. apply lookup_lt_Some in El. unfold claims in *.
      replace (pos + 1 + Z.of_nat k) with (pos + Z.of_nat (S k)) by lia. symmetry.
      apply published_store_ne. intros Er.
      apply (same_slot s) in Er; [lia|done|unfold claims; lia|lia]. }
  unfold mailbox_of. rewrite E, HF, HF'. replace (Z.to_nat (pos + 1)) with (S (Z.to_nat pos)) by lia.
  constructor.
Qed.

(** The labels of a run. *)
Fixpoint labels (acts : list (action T)) s : list (mail_event T) :=
  match acts with
  | [] => []
  | a :: rest => match step a s with Some s' => mail_label a s :: labels rest s' | None => [] end
  end.

Lemma labels_snoc acts a s s1 s2 :
  run step acts s = Some s1 -> step a s1 = Some s2 ->
  labels (acts ++ [a]) s = labels acts s ++ [mail_label a s1].
Proof.
  revert s. induction acts as [|b acts IH]; intros s Hr Ha; simplify_eq/=; [by rewrite Ha|].
  destruct (step b s) as [s'|]; [|done]. by rewrite (IH s').
Qed.

Lemma producer_simulates s t pc q' pc' e :
  inv s -> bounded s -> prods s !! t = Some pc -> producer_step (mem s) pc = Some (q', pc', e) ->
  mail_step (Z.to_nat (capacity (mem s))) (mailbox_of s) (mail_label (ProducerStep t) s)
    (mailbox_of (mkSys q' (<[t := pc']> (prods s)) (cons s) (log_claim t e (claimed s))
                   (log_return t e (accepted s)) (received s))).
Proof.
  intros H Hb Ht E. unfold mail_label. rewrite Ht, E. pose proof (inv_prods s H t pc Ht) as Ho.
  assert (forall q1 pcs acc, (forall j, published q1 j = published (mem s) j) ->
    consumer_index q1 = consumer_index (mem s) ->
    mailbox_of (mkSys q1 pcs (cons s) (claimed s) acc (received s)) = mailbox_of s) as Hsame.
  { intros q1 pcs acc Hp Hci. apply mailbox_same; [done|unfold freed; cbn; by rewrite Hci|done|].
    intros j _. apply Hp. }
  assert (mail_step (Z.to_nat (capacity (mem s))) (mailbox_of s) MSilent (mailbox_of s)) as Hsil
    by constructor.
  destruct pc as [|x|x pos|x pos|x pos|x pos|]; cbn in E; try done.
  - simplify_eq/=. by rewrite Hsame.
  - destruct (difference_exact s pos H Hb Ho) as (sl & Hl & Hsl & Hd & Hr). rewrite Hl, Hd in E.
    destruct (Z.eqb_spec (sequence sl - pos) 0) as [|Hz]; simplify_eq/=; [by rewrite Hsame|].
    destruct (Z.ltb_spec (sequence sl - pos) 0) as [Hneg|]; simplify_eq/=; rewrite Hsame by done;
      [|done].
    constructor. pose proof (length_cells s H). pose proof (inv_window s H). cbn in Ho.
    enough (claims s = freed s + capacity (mem s)) by lia.
    destruct (decide (pos < freed s + capacity (mem s))) as [Hin|]; [|lia].
    exfalso. destruct (inv_slots s H pos) as (sl' & Hsl' & Hc); [lia|].
    rewrite Hsl in Hsl'. simplify_eq. destruct Hc as [[? _]|[? _]]; lia.
  - destruct (Z.eqb_spec (producer_index (mem s)) pos) as [Hp|]; simplify_eq/=; [|by rewrite Hsame].
    by apply mail_claim_step.
  - simplify_eq/=. rewrite Hsame; [done| |done]. intros j.
    rewrite slot_index_pos by apply H. apply published_write.
  - simplify_eq/=. destruct Ho as (Hpos & _ & _). unfold bounded in Hb. fold (claims s) in Hb.
    pose proof (shape_capacity _ (inv_shape s H)). pose proof (freed_nonneg s H).
    rewrite slot_index_pos, wrap_i64_id by (apply H || lia). by eapply mail_publish_step.
Qed.

Lemma consumer_simulates s q' pc' e :
  inv s -> bounded s -> consumer_step (mem s) (cons s) = Some (q', pc', e) ->
  mail_step (Z.to_nat (capacity (mem s))) (mailbox_of s) (mail_label ConsumerStep s)
    (mailbox_of (mkSys q' (prods s) pc' (claimed s) (accepted s) (log_receive e (received s)))).
Proof.
  intros H Hb E. unfold mail_label. rewrite E. pose proof (inv_cons s H) as Ho.
  unfold cons_ok in Ho.
  assert (forall q1 pc1 rec, (forall j, published q1 j = published (mem s) j) ->
    freed (mkSys q1 (prods s) pc1 (claimed s) (accepted s) rec) = freed s ->
    mailbox_of (mkSys q1 (prods s) pc1 (claimed s) (accepted s) rec) = mailbox_of s) as Hsame
    by (intros q1 pc1 rec Hp Hf; apply mailbox_same; auto).
  assert (freed s = consumer_index (mem s) + match cons s with CBump _ _ => 1 | _ => 0 end)
    as HF by done.
  destruct (cons s) as [|pos|pos|pos|pos x|pos x| |] eqn:Ec; cbn in E; try done.
  - subst pos. destruct (consumer_sees s H Hb ltac:(lia)) as (sl & Hl & Hp). rewrite Hl, Hp in E.
    destruct (head_published (cells_of s)) eqn:Eh; simplify_eq/=;
      rewrite Hsame by (done || (unfold freed; cbn; by rewrite Ec)); by constructor.
  - subst pos. destruct (consumer_sees s H Hb ltac:(lia)) as (sl & Hl & Hp). rewrite Hl, Hp in E.
    simplify_eq/=. rewrite Hsame by (done || (unfold freed; cbn; by rewrite Ec)). constructor.
  - destruct (inv_read s pos H Ec) as (t & x & Hsl & _ & _).
    rewrite slot_index_pos in E by apply H. unfold slot_at in Hsl. rewrite Hsl in E. simplify_eq/=.
    rewrite Hsame; [constructor| |unfold freed; cbn; by rewrite Ec].
    intros j. apply published_write.
  - simplify_eq/=. destruct Ho as (Hp & Hlt & _ & _). unfold bounded in Hb. fold (claims s) in Hb.
    pose proof (shape_capacity _ (inv_shape s H)). pose proof (inv_consumer s H).
    rewrite slot_index_pos, wrap_i64_id by (apply H || lia). by apply mail_take_step.
  - simplify_eq/=. destruct Ho as (Hp & Hlt & _). unfold bounded in Hb. fold (claims s) in Hb.
    pose proof (shape_capacity _ (inv_shape s H)). pose proof (inv_consumer s H).
    rewrite Hsame; [constructor|done|]. unfold freed. cbn. rewrite Ec, wrap_i64_id by lia. lia.
Qed.

(** C10.  The concurrent ring is a mailbox.  In every run of producers and the
    consumer, with the counters not overflowed, each atomic access to the ring is
    one step of the mailbox contract: a successful [compare_exchange] claims the
    next cell and there was room; the store of the sequence publishes that cell;
    the consumer's store of the sequence takes the published head; an enqueue is
    refused only when the mailbox is full, a dequeue finds nothing only when the
    head is not published, a peek answers whether it is; everything else does
    nothing. *)
Theorem ring_refines_mailbox n q acts s :
  rep q 0 [] -> run step acts (initial n q) = Some s -> bounded s ->
  mail_trace (Z.to_nat (capacity q)) ([], 0%nat) (labels acts (initial n q)) (mailbox_of s).
Proof.
  intros Hq. revert acts s.
  assert (forall acts s, run step acts (initial n q) = Some s ->
    capacity (mem s) = capacity q /\ (bounded s ->
    mail_trace (Z.to_nat (capacity q)) ([], 0%nat) (labels acts (initial n q)) (mailbox_of s)))
    as Hall.
  { apply (run_invariant step).
    - split; [done|]. intros _. unfold mailbox_of, cells_of. cbn.
      replace (freed (initial n q)) with 0; [constructor|].
      unfold freed. cbn. rewrite (rep_consumer q 0 [] Hq). done.
    - intros acts a s s' Hr [Hcap IH] Hs. destruct (claimed_grows a s s' Hs) as [Hg Hc].
      split; [congruence|]. intros Hb.
      assert (bounded s) as Hb1 by (unfold bounded in *; rewrite Hc in Hb; lia).
      assert (inv s) as HI by (by eapply reachable_inv; eauto; eapply run_reaches).
      rewrite (labels_snoc acts a _ s s') by done. econstructor; [by apply IH|]. clear IH.
      rewrite <- Hcap. destruct a as [t x|t| | |]; cbn [step] in Hs.
      + destruct (prods s !! t) as [[]|] eqn:Ht; simplify_eq.
        replace (mailbox_of (set_prod _ _ _)) with (mailbox_of s); [constructor|].
        symmetry. by apply mailbox_same.
      + destruct (prods s !! t) as [pc|] eqn:Ht; [|done]. cbn [mbind option_bind] in Hs.
        destruct (producer_step (mem s) pc) as [[[q' pc'] e]|] eqn:E; simplify_eq/=.
        by eapply producer_simulates.
      + destruct (cons s) eqn:Ec; simplify_eq.
        replace (mailbox_of (set_cons _ _)) with (mailbox_of s); [constructor|].
        symmetry. apply mailbox_same; [done|unfold freed; cbn; by rewrite Ec|done|done].
      + destruct (cons s) eqn:Ec; simplify_eq.
        replace (mailbox_of (set_cons _ _)) with (mailbox_of s); [constructor|].
        symmetry. apply mailbox_same; [done|unfold freed; cbn; by rewrite Ec|done|done].
      + destruct (consumer_step (mem s) (cons s)) as [[[q' pc'] e]|] eqn:E; simplify_eq/=.
        by apply consumer_simulates. }
  intros acts s Hr. apply (Hall acts s Hr).
Qed.
End ring.

(** ** Witness: the racing producers of [MpscConcurrent] and one dequeue *)
Lemma ring_refines_mailbox_witness :
  mailbox_of (after receiving) = ([(10, true)], 1)
  /\ exists tr, mail_trace 2 ([], 0) tr (mailbox_of (after receiving)).
Proof.
  split; [vm_compute; reflexivity|].
  exists (labels receiving (initial 2 ring2)).
  apply (ring_refines_mailbox 2 ring2 receiving (after receiving) ring2_rep);
    vm_compute; reflexivity.
Defined.
