(* ===== verification/RunnerProtocol.v ===== *)
(** The scheduling protocol of one actor
    ([dignus-actor-core/src/internals/actor_runner.rs] with
    [poll_driver.rs] and [ActorDispatcher::schedule]) as an interleaving of
    atomic steps: dispatcher threads inside [ActorRunner::execute] and client
    threads inside [ActorRegistry::post] (its [enqueue_only] and
    [schedule_self]), [kill] and [ActorRunnerWake::wake].

    The mailbox is the abstract one of a multi-producer ring: an enqueue claims
    the next cell, then publishes it; a dequeue takes the head only when it is
    published.  Message contents play no role and are numbers.  The user's
    [on_receive] and its future are the nondeterministic choices of a step. *)
From S2P Require Import Prelude.

(** [LIFECYCLE_RUNNING], [LIFECYCLE_KILLING], [LIFECYCLE_STOPPED] *)
Inductive lifecycle : Type := Running | Killing | Stopped.

#[export] Instance lifecycle_eq_dec : EqDecision lifecycle.
Proof. solve_decision. Defined.

(** What follows a failed receive: the loop of [execute] breaks out to its
    end, [execute_pending_receive] reschedules the actor. *)
Inductive caller : Type := FromLoop | FromPending.

(** Where a dispatcher thread is inside [execute] for this actor. *)
Inductive epc : Type :=
| EIdle                      (** not executing this actor *)
| EActive                    (** [execute_pending_receive]: load [is_active] *)
| EPollReset (k : caller)    (** [poll]: store [is_poll_scheduled] false *)
| EPollLock (k : caller)     (** [poll]: lock the slot *)
| EPollEmpty (k : caller)    (** [poll], slot empty, locked: store [is_active] false *)
| EPolling (k : caller)      (** [poll], locked: run the future *)
| EPollUnlock                (** [poll] got [Pending], locked: unlock and return *)
| EReady1                    (** [poll] got [Ready]: store [is_active] false *)
| EReady2                    (** store [is_poll_scheduled] false *)
| ECallback                  (** [completion_callback]: schedule on the owner *)
| EFail1 (k : caller)        (** [poll] caught a panic: store [is_active] false *)
| EFail2 (k : caller)        (** store [is_poll_scheduled] false *)
| EKillCas (k : caller)      (** [self.kill()]: [compare_exchange] *)
| EKillSwap (k : caller)     (** [self.kill()]: [is_scheduled.swap(true)] *)
| EKillSched (k : caller)    (** [self.kill()]: schedule on the owner *)
| EPublish (k : caller)      (** [publish_execution_exception] *)
| EResched                   (** [execute_pending_receive], [Failed]: schedule on the owner *)
| ELife                      (** load [lifecycle_state] *)
| EDequeue                   (** [mailbox.try_dequeue()] *)
| ECheck (m : nat)           (** load [lifecycle_state] in the loop *)
| EReceive (m : nat)         (** inside [on_receive] *)
| EArmSlot                   (** [arm]: lock, set the slot, unlock *)
| EArmActive                 (** [arm]: store [is_active] true *)
| EArmReset                  (** [arm]: store [is_poll_scheduled] false *)
| EEndLife                   (** after the loop: load [lifecycle_state] *)
| EStore                     (** store [is_scheduled] false *)
| EPeek                      (** [mailbox.try_peek()] *)
| ESwap                      (** [is_scheduled.swap(true)] *)
| ESched                     (** schedule on the owner *)
| FSwap                      (** [finalize_kill]: swap [LIFECYCLE_STOPPED] *)
| FDrain                     (** [while mailbox.try_dequeue().is_some() {}] *)
| FClearSlot                 (** [clear]: lock, take the slot, unlock *)
| FClearActive               (** [clear]: store [is_active] false *)
| FClearReset                (** [clear]: store [is_poll_scheduled] false *)
| FOnKill                    (** [actor.on_kill()] *)
| FFinalize                  (** [(self.on_finalize)(index, generation)] *)
| EDead (in_kill : bool).    (** a panic has left [execute] and ended the thread: it came out
                                 of [on_kill], or else out of the dead letter callback *)

(** Where a client thread is. *)
Inductive kpc : Type :=
| KIdle
| QLife (m : nat)            (** [enqueue_only]: load [lifecycle_state] *)
| QEnqueue (m : nat)         (** [try_enqueue]: claim a cell or find the ring full *)
| QPublish (pos : nat)       (** [try_enqueue]: publish the claimed cell *)
| QLoad                      (** load [is_scheduled] *)
| QSwap                      (** [is_scheduled.swap(true)] *)
| QSched                     (** [schedule_self] *)
| KCas                       (** [kill]: [compare_exchange] *)
| KSwap                      (** [kill]: [is_scheduled.swap(true)] *)
| KSched                     (** [kill]: schedule on the owner *)
| WActive (d : nat)          (** [wake_by_ref]: [try_mark_poll_scheduled], load [is_active] *)
| WCas (d : nat)             (** [compare_exchange] of [is_poll_scheduled] *)
| WSched (d : nat).          (** [dispatcher.schedule(actor_runner)] *)

(** What user code does where a step runs it. *)
Inductive choice : Type :=
| NoChoice
| Done | Pending | Panics                (** [on_receive] *)
| PollPending (wakes : nat)              (** the future is pending and handed its waker out *)
| PollReady (late : nat)                 (** it is ready, or it panics, and wakers it has *)
| PollPanics (late : nat).               (** handed out meanwhile are still to fire *)

Record st : Type := mkSt {
  cells : list (nat * bool);      (** queued messages, oldest first, and whether published *)
  taken : nat;                    (** cells dequeued so far *)
  is_scheduled : bool;
  life : lifecycle;
  armed : bool;                   (** the poll driver's slot holds a future *)
  locked : option nat;            (** the dispatcher thread inside the slot's mutex *)
  is_active : bool;
  is_poll_scheduled : bool;
  wakes : nat;                    (** [wake] calls that polls have handed out and that are to come *)
  parked : nat;                   (** ghost: polls that returned [Pending] and owe no wake *)
  queues : list nat;              (** per dispatcher: scheduled references to this actor *)
  disp : list epc;
  clients : list kpc;
  handled : list nat;             (** ghost: messages given to [on_receive], in order *)
  kills : nat;                    (** ghost: runs of [on_kill] *)
  finals : nat;                   (** ghost: runs of [on_finalize] *)
  dead_letters : nat;             (** ghost: published execution exceptions *)
}.

(** The actor's own dispatcher, the mailbox capacity, the most [wake] calls one
    pending poll hands out, the most that still come from wakers a completed poll
    (ready, or panicked) has handed out, and whether [on_kill] and the dead letter
    callback, which nothing guards, may panic. *)
Record config : Type := mkConfig {
  owner : nat; mailbox_capacity : nat; max_wakes : nat; late_wakes : nat; unwinds : bool }.

(** The futures' part: one wake at most for each poll that returned [Pending],
    and none for a poll that completed the receive. *)
Definition tame (c : config) : Prop := (max_wakes c <= 1)%nat /\ late_wakes c = 0%nat.

(** *** Field updates *)
Definition set_cells f s := mkSt (f (cells s)) (taken s) (is_scheduled s) (life s) (armed s) (locked s) (is_active s) (is_poll_scheduled s) (wakes s) (parked s) (queues s) (disp s) (clients s) (handled s) (kills s) (finals s) (dead_letters s).
Definition set_taken n s := mkSt (cells s) n (is_scheduled s) (life s) (armed s) (locked s) (is_active s) (is_poll_scheduled s) (wakes s) (parked s) (queues s) (disp s) (clients s) (handled s) (kills s) (finals s) (dead_letters s).
Definition set_scheduled b s := mkSt (cells s) (taken s) b (life s) (armed s) (locked s) (is_active s) (is_poll_scheduled s) (wakes s) (parked s) (queues s) (disp s) (clients s) (handled s) (kills s) (finals s) (dead_letters s).
Definition set_life l s := mkSt (cells s) (taken s) (is_scheduled s) l (armed s) (locked s) (is_active s) (is_poll_scheduled s) (wakes s) (parked s) (queues s) (disp s) (clients s) (handled s) (kills s) (finals s) (dead_letters s).
Definition set_armed b s := mkSt (cells s) (taken s) (is_scheduled s) (life s) b (locked s) (is_active s) (is_poll_scheduled s) (wakes s) (parked s) (queues s) (disp s) (clients s) (handled s) (kills s) (finals s) (dead_letters s).
Definition set_locked o s := mkSt (cells s) (taken s) (is_scheduled s) (life s) (armed s) o (is_active s) (is_poll_scheduled s) (wakes s) (parked s) (queues s) (disp s) (clients s) (handled s) (kills s) (finals s) (dead_letters s).
Definition set_active b s := mkSt (cells s) (taken s) (is_scheduled s) (life s) (armed s) (locked s) b (is_poll_scheduled s) (wakes s) (parked s) (queues s) (disp s) (clients s) (handled s) (kills s) (finals s) (dead_letters s).
Definition set_poll b s := mkSt (cells s) (taken s) (is_scheduled s) (life s) (armed s) (locked s) (is_active s) b (wakes s) (parked s) (queues s) (disp s) (clients s) (handled s) (kills s) (finals s) (dead_letters s).
Definition set_wakes w p s := mkSt (cells s) (taken s) (is_scheduled s) (life s) (armed s) (locked s) (is_active s) (is_poll_scheduled s) w p (queues s) (disp s) (clients s) (handled s) (kills s) (finals s) (dead_letters s).
Definition set_queues q s := mkSt (cells s) (taken s) (is_scheduled s) (life s) (armed s) (locked s) (is_active s) (is_poll_scheduled s) (wakes s) (parked s) q (disp s) (clients s) (handled s) (kills s) (finals s) (dead_letters s).
Definition set_disp d pc s := mkSt (cells s) (taken s) (is_scheduled s) (life s) (armed s) (locked s) (is_active s) (is_poll_scheduled s) (wakes s) (parked s) (queues s) (<[d := pc]> (disp s)) (clients s) (handled s) (kills s) (finals s) (dead_letters s).
Definition set_client c pc s := mkSt (cells s) (taken s) (is_scheduled s) (life s) (armed s) (locked s) (is_active s) (is_poll_scheduled s) (wakes s) (parked s) (queues s) (disp s) (<[c := pc]> (clients s)) (handled s) (kills s) (finals s) (dead_letters s).
Definition set_ghost h k f dl s := mkSt (cells s) (taken s) (is_scheduled s) (life s) (armed s) (locked s) (is_active s) (is_poll_scheduled s) (wakes s) (parked s) (queues s) (disp s) (clients s) h k f dl.

(** [dispatcher.schedule(self.clone())]: one more reference in that queue. *)
Definition schedule (d : nat) (s : st) : st := set_queues (alter S d (queues s)) s.

(** [mailbox.try_peek()]: the head cell is published. *)
Definition peek (s : st) : bool := match cells s with (_, true) :: _ => true | _ => false end.

(** [poll] returning to its caller with [Idle]. *)
Definition after_idle (k : caller) : epc :=
  match k with FromLoop => EDequeue | FromPending => ELife end.
Definition after_failure (k : caller) : epc :=
  match k with FromLoop => EEndLife | FromPending => EResched end.

(** One atomic step of dispatcher thread [d] at [pc]. *)
Definition exec_step (c : config) (d : nat) (pc : epc) (u : choice) (s : st) : option st :=
  match pc with
  | EIdle =>
      match queues s !! d with
      | Some (S n) => Some (set_disp d EActive (set_queues (<[d := n]> (queues s)) s))
      | _ => None
      end
  | EActive => Some (set_disp d (if is_active s then EPollReset FromPending else ELife) s)
  | EPollReset k => Some (set_disp d (EPollLock k) (set_poll false s))
  | EPollLock k =>
      match locked s with
      | None => Some (set_disp d (if armed s then EPolling k else EPollEmpty k)
                        (set_locked (Some d) s))
      | Some _ => None
      end
  | EPollEmpty k => Some (set_disp d (after_idle k) (set_locked None (set_active false s)))
  | EPolling k =>
      match u with
      | PollPending w =>
          if (w <=? max_wakes c)%nat
          then Some (set_disp d EPollUnlock
                 (set_wakes (wakes s + w)
                    (match w with O => S (parked s) | _ => parked s end) s))
          else None
      | PollReady w =>
          if (w <=? late_wakes c)%nat
          then Some (set_disp d EReady1
                 (set_locked None (set_armed false (set_wakes (wakes s + w) (parked s) s))))
          else None
      | PollPanics w =>
          if (w <=? late_wakes c)%nat
          then Some (set_disp d (EFail1 k)
                 (set_locked None (set_armed false (set_wakes (wakes s + w) (parked s) s))))
          else None
      | _ => None
      end
  | EPollUnlock => Some (set_disp d EIdle (set_locked None s))
  | EReady1 => Some (set_disp d EReady2 (set_active false s))
  | EReady2 => Some (set_disp d ECallback (set_poll false s))
  | ECallback => Some (set_disp d EIdle (schedule (owner c) s))
  | EFail1 k => Some (set_disp d (EFail2 k) (set_active false s))
  | EFail2 k => Some (set_disp d (EKillCas k) (set_poll false s))
  | EKillCas k =>
      match life s with
      | Running => Some (set_disp d (EKillSwap k) (set_life Killing s))
      | _ => Some (set_disp d (EPublish k) s)
      end
  | EKillSwap k =>
      Some (set_disp d (if is_scheduled s then EPublish k else EKillSched k) (set_scheduled true s))
  | EKillSched k => Some (set_disp d (EPublish k) (schedule (owner c) s))
  | EPublish k =>
      let s := set_ghost (handled s) (kills s) (finals s) (S (dead_letters s)) s in
      match u with
      | Panics => if unwinds c then Some (set_disp d (EDead false) s) else None
      | _ => Some (set_disp d (after_failure k) s)
      end
  | EResched => Some (set_disp d EIdle (schedule (owner c) s))
  | ELife =>
      Some (set_disp d (match life s with Killing => FSwap | Running => EDequeue | Stopped => EIdle end) s)
  | EDequeue =>
      match cells s with
      | (m, true) :: rest =>
          Some (set_disp d (ECheck m) (set_taken (S (taken s)) (set_cells (λ _, rest) s)))
      | _ => Some (set_disp d EEndLife s)
      end
  | ECheck m =>
      match life s with
      | Running => Some (set_disp d (EReceive m)
                    (set_ghost (handled s ++ [m]) (kills s) (finals s) (dead_letters s) s))
      | _ => Some (set_disp d EEndLife s)
      end
  | EReceive m =>
      match u with
      | Done => Some (set_disp d EDequeue s)
      | Pending => Some (set_disp d EArmSlot s)
      | Panics => Some (set_disp d (EKillCas FromLoop) s)
      | _ => None
      end
  | EArmSlot =>
      match locked s with
      | None => Some (set_disp d EArmActive (set_armed true s))
      | Some _ => None
      end
  | EArmActive => Some (set_disp d EArmReset (set_active true s))
  | EArmReset => Some (set_disp d (EPollReset FromLoop) (set_poll false s))
  | EEndLife =>
      Some (set_disp d (match life s with Killing => FSwap | _ => EStore end) s)
  | EStore => Some (set_disp d EPeek (set_scheduled false s))
  | EPeek => Some (set_disp d (if peek s then ESwap else EIdle) s)
  | ESwap => Some (set_disp d (if is_scheduled s then EIdle else ESched) (set_scheduled true s))
  | ESched => Some (set_disp d EIdle (schedule (owner c) s))
  | FSwap =>
      Some (set_disp d (match life s with Stopped => EIdle | _ => FDrain end) (set_life Stopped s))
  | FDrain =>
      match cells s with
      | (m, true) :: rest =>
          Some (set_disp d FDrain (set_taken (S (taken s)) (set_cells (λ _, rest) s)))
      | _ => Some (set_disp d FClearSlot s)
      end
  | FClearSlot =>
      match locked s with
      | None => Some (set_disp d FClearActive (set_armed false s))
      | Some _ => None
      end
  | FClearActive => Some (set_disp d FClearReset (set_active false s))
  | FClearReset => Some (set_disp d FOnKill (set_poll false s))
  | FOnKill =>
      let s := set_ghost (handled s) (S (kills s)) (finals s) (dead_letters s) s in
      match u with
      | Panics => if unwinds c then Some (set_disp d (EDead true) s) else None
      | _ => Some (set_disp d FFinalize s)
      end
  | FFinalize =>
      Some (set_disp d EIdle
              (set_ghost (handled s) (kills s) (S (finals s)) (dead_letters s) s))
  | EDead _ => None
  end.

(** One atomic step of client thread [i] at [pc]. *)
Definition client_step (c : config) (i : nat) (pc : kpc) (s : st) : option st :=
  match pc with
  | KIdle => None
  | QLife m =>
      Some (set_client i (match life s with Running => QEnqueue m | _ => KIdle end) s)
  | QEnqueue m =>
      if (length (cells s) <? mailbox_capacity c)%nat
      then Some (set_client i (QPublish (taken s + length (cells s)))
                   (set_cells (λ l, l ++ [(m, false)]) s))
      else Some (set_client i KIdle s)
  | QPublish pos =>
      Some (set_client i QLoad
              (set_cells (alter (λ cell, (cell.1, true)) (pos - taken s)%nat) s))
  | QLoad => Some (set_client i (if is_scheduled s then KIdle else QSwap) s)
  | QSwap => Some (set_client i (if is_scheduled s then KIdle else QSched) (set_scheduled true s))
  | QSched => Some (set_client i KIdle (schedule (owner c) s))
  | KCas =>
      match life s with
      | Running => Some (set_client i KSwap (set_life Killing s))
      | _ => Some (set_client i KIdle s)
      end
  | KSwap => Some (set_client i (if is_scheduled s then KIdle else KSched) (set_scheduled true s))
  | KSched => Some (set_client i KIdle (schedule (owner c) s))
  | WActive d => Some (set_client i (if is_active s then WCas d else KIdle) s)
  | WCas d =>
      if is_poll_scheduled s then Some (set_client i KIdle s)
      else Some (set_client i (WSched d) (set_poll true s))
  | WSched d => Some (set_client i KIdle (schedule d s))
  end.

Inductive action : Type :=
| Dispatch (d : nat) (u : choice)   (** dispatcher thread [d] makes its next step *)
| Client (i : nat)                  (** client thread [i] makes its next step *)
| CallPost (i m : nat)
| CallKill (i : nat)
| CallWake (i d : nat).             (** a waker fires; [d]: where it schedules *)

Definition call (i : nat) (pc : kpc) (s : st) : option st :=
  match clients s !! i with Some KIdle => Some (set_client i pc s) | _ => None end.

Definition step (c : config) (a : action) (s : st) : option st :=
  match a with
  | Dispatch d u => pc ← disp s !! d; exec_step c d pc u s
  | Client i => pc ← clients s !! i; client_step c i pc s
  | CallPost i m => call i (QLife m) s
  | CallKill i => call i KCas s
  | CallWake i d =>
      match wakes s with
      | S w => if (d <? length (queues s))%nat
               then call i (WActive d) (set_wakes w (parked s) s) else None
      | O => None
      end
  end.

(** A new runner, [nd] dispatchers and [nc] client threads. *)
Definition initial (nd nc : nat) : st :=
  mkSt [] 0 false Running false None false false 0 0 (replicate nd 0%nat) (replicate nd EIdle)
    (replicate nc KIdle) [] 0 0 0.

Definition reachable (c : config) (nd nc : nat) (s : st) : Prop :=
  rtc (step_of (step c)) (initial nd nc) s.
