(* ===== verification/RunnerInvariant.v ===== *)
(** Invariants of the scheduling protocol of [RunnerProtocol]. *)
From S2P Require Import Prelude RunnerProtocol.
Local Open Scope nat_scope.

(** ** Execution tokens

    Every reference to the actor that will lead to an [execute] is a token: a
    queued reference, a dispatcher thread between the start of [execute] and
    the point where it gives the right up, a client that has won a swap and
    will schedule, a waker that will fire or is firing. *)
Definition etok (pc : epc) : nat :=
  match pc with EIdle | EPollUnlock | EPeek | ESwap => 0 | EKillSched _ => 2 | _ => 1 end.

Definition ktok (pc : kpc) : nat :=
  match pc with QSched | KSched | WActive _ | WCas _ | WSched _ => 1 | _ => 0 end.

Definition tokens (s : st) : nat :=
  sum_list_with id (queues s) + sum_list_with etok (disp s) + sum_list_with ktok (clients s)
  + wakes s.

Definition b2n (b : bool) : nat := if b then 1 else 0.

Lemma sum_alter_S (l : list nat) d :
  sum_list_with id (alter S d l) <= S (sum_list_with id l)
  /\ (d < length l -> sum_list_with id (alter S d l) = S (sum_list_with id l)).
Proof.
  revert d. induction l as [|x l IH]; intros d.
  - change (alter S d []) with (@nil nat). cbn. lia.
  - destruct d as [|d]; [cbn; unfold id; lia|]. specialize (IH d).
    change (alter S (S d) (x :: l)) with (x :: alter S d l). cbn. unfold id in *. lia.
Qed.

(** Case analysis of a step [H : step c a s = Some s'] into its branches. *)
Ltac split_step H :=
  match type of H with
  | step ?c ?a ?s = Some ?s' =>
      destruct a as [d u|i|i m|i|i d]; cbn [step] in H;
      [ destruct (disp s !! d) as [pc|] eqn:Hd; [|done]; cbn [mbind option_bind] in H;
        destruct pc; cbn [exec_step] in H
      | destruct (clients s !! i) as [pc|] eqn:Hi; [|done]; cbn [mbind option_bind] in H;
        destruct pc; cbn [client_step] in H
      | unfold call in H | unfold call in H | unfold call in H ];
      repeat case_match; simplify_eq;
      rewrite ?Nat.leb_le, ?Nat.ltb_lt, ?Nat.ltb_ge in *
  end.

(** Facts about the sums of an updated state. *)
Ltac sum_facts :=
  repeat match goal with
  | H : ?l !! ?d = Some ?pc |- context [sum_list_with ?f (<[?d := ?pc']> ?l)] =>
      lazymatch goal with
      | _ : sum_list_with f (<[d := pc']> l) + f pc = _ |- _ => fail
      | _ => pose proof (sum_list_with_insert f l d pc pc' H);
             pose proof (sum_list_with_lookup_le f l d pc H)
      end
  | |- context [sum_list_with id (alter S ?d ?l)] =>
      lazymatch goal with
      | _ : sum_list_with id (alter S d l) <= _ |- _ => fail
      | _ => pose proof (proj1 (sum_alter_S l d)); pose proof (proj2 (sum_alter_S l d))
      end
  end.

(** ** At most one token, if the futures are tame *)
Definition exclusive (s : st) : Prop := tokens s <= b2n (is_scheduled s).

Lemma exclusive_step c a s s' :
  tame c -> exclusive s -> step c a s = Some s' -> exclusive s'.
Proof.
  unfold exclusive, tokens. intros [Hw Hl] HI H. split_step H; cbn in *; sum_facts; cbn in *.
  all: try match goal with k : caller |- _ => destruct k; cbn in * end.
  all: destruct (is_scheduled s); cbn in *; lia.
Qed.

(** ** Flags and places, by the place of the token *)
Definition quiet (s : st) : Prop := is_active s = false /\ armed s = false.
Definition pending (s : st) : Prop := is_active s = true /\ armed s = true.
Definition waiting (s : st) : Prop := pending s /\ is_poll_scheduled s = false.

(** What holds of the poll driver's flags while a dispatcher thread is at [pc]. *)
Definition eflags (pc : epc) (s : st) : Prop :=
  match pc with
  | EIdle | EPollUnlock | EPeek | ESwap => True
  | EActive => is_active s = armed s
  | EPollReset _ | EArmReset => pending s
  | EPollLock _ | EPolling _ => waiting s
  | EPollEmpty _ | EKillSched _ => False
  | EReady1 | EFail1 _ => armed s = false
  | EArmActive => armed s = true
  | _ => quiet s
  end.

(** Places reached only on the actor's own dispatcher. *)
Definition at_home (pc : epc) : bool :=
  match pc with
  | EIdle | EActive | EPollReset FromPending | EPollLock FromPending | EPolling FromPending
  | EPollUnlock | EReady1 | EReady2 | ECallback | EFail1 FromPending | EFail2 FromPending
  | EKillCas FromPending | EKillSwap FromPending | EKillSched FromPending
  | EPublish FromPending | EResched | EDead _ => false
  | _ => true
  end.

Definition kflags (pc : kpc) (s : st) : Prop :=
  match pc with
  | QSched | KSched => quiet s
  | WActive d | WCas d => waiting s /\ d < length (queues s)
  | WSched d => pending s /\ d < length (queues s)
  | _ => True
  end.

Record flags_inv (c : config) (s : st) : Prop := {
  fl_owner : owner c < length (disp s) /\ length (queues s) = length (disp s);
  fl_free : is_scheduled s = false -> quiet s;
  fl_wakes : 0 < wakes s -> waiting s;
  fl_queue : forall d n, queues s !! d = Some (S n) ->
    is_active s = armed s /\ (d <> owner c -> pending s);
  fl_disp : forall d pc, disp s !! d = Some pc ->
    eflags pc s /\ (at_home pc = true -> d = owner c) /\ (pc = EActive -> d <> owner c -> pending s);
  fl_clients : forall i pc, clients s !! i = Some pc -> kflags pc s;
}.

Lemma eflags_notok pc s : etok pc = 0 -> eflags pc s.
Proof. by destruct pc. Qed.
Lemma kflags_notok pc s : ktok pc = 0 -> kflags pc s.
Proof. by destruct pc. Qed.

(** Nobody else holds a token. *)
Definition others_free (s : st) (d i : option nat) : Prop :=
  (forall d' pc, disp s !! d' = Some pc -> Some d' <> d -> etok pc = 0)
  /\ (forall i' pc, clients s !! i' = Some pc -> Some i' <> i -> ktok pc = 0)
  /\ wakes s = 0 /\ (forall d' n, queues s !! d' = Some n -> n = 0).

Lemma sole_disp s d pc :
  exclusive s -> disp s !! d = Some pc -> 0 < etok pc ->
  is_scheduled s = true /\ others_free s (Some d) None.
Proof.
  unfold exclusive, tokens. intros HE Hd Ht.
  pose proof (sum_list_with_lookup_le etok _ _ _ Hd).
  destruct (is_scheduled s); cbn in HE; [|lia]. split; [done|]. split; [|split; [|split]].
  - intros d' pc' Hd' Hne. assert (d <> d') as Hdd by congruence.
    pose proof (sum_list_with_two etok _ _ _ _ _ Hdd Hd Hd'). lia.
  - intros i pc' Hi _. pose proof (sum_list_with_lookup_le ktok _ _ _ Hi). lia.
  - lia.
  - intros d' n Hn. pose proof (sum_list_with_lookup_le id _ _ _ Hn). unfold id in *. lia.
Qed.

Lemma sole_client s i pc :
  exclusive s -> clients s !! i = Some pc -> 0 < ktok pc ->
  is_scheduled s = true /\ others_free s None (Some i).
Proof.
  unfold exclusive, tokens. intros HE Hi Ht.
  pose proof (sum_list_with_lookup_le ktok _ _ _ Hi).
  destruct (is_scheduled s); cbn in HE; [|lia]. split; [done|]. split; [|split; [|split]].
  - intros d pc' Hd _. pose proof (sum_list_with_lookup_le etok _ _ _ Hd). lia.
  - intros i' pc' Hi' Hne. assert (i <> i') as Hii by congruence.
    pose proof (sum_list_with_two ktok _ _ _ _ _ Hii Hi Hi'). lia.
  - lia.
  - intros d' n Hn. pose proof (sum_list_with_lookup_le id _ _ _ Hn). unfold id in *. lia.
Qed.

Lemma sole_wake s :
  exclusive s -> 0 < wakes s ->
  is_scheduled s = true /\ wakes s = 1
  /\ (forall d pc, disp s !! d = Some pc -> etok pc = 0)
  /\ (forall i pc, clients s !! i = Some pc -> ktok pc = 0)
  /\ (forall d n, queues s !! d = Some n -> n = 0).
Proof.
  unfold exclusive, tokens. intros HE Hw.
  destruct (is_scheduled s); cbn in HE; [|lia]. split; [done|]. split; [lia|].
  split; [|split].
  - intros d pc' Hd. pose proof (sum_list_with_lookup_le etok _ _ _ Hd). lia.
  - intros i' pc' Hi'. pose proof (sum_list_with_lookup_le ktok _ _ _ Hi'). lia.
  - intros d' n Hn. pose proof (sum_list_with_lookup_le id _ _ _ Hn). unfold id in *. lia.
Qed.

Lemma none_free s :
  exclusive s -> is_scheduled s = false -> others_free s None None.
Proof.
  unfold exclusive, tokens. intros HE Hw. rewrite Hw in HE. cbn in HE.
  split; [|split; [|split]].
  - intros d pc' Hd _. pose proof (sum_list_with_lookup_le etok _ _ _ Hd). lia.
  - intros i' pc' Hi' _. pose proof (sum_list_with_lookup_le ktok _ _ _ Hi'). lia.
  - lia.
  - intros d' n Hn. pose proof (sum_list_with_lookup_le id _ _ _ Hn). unfold id in *. lia.
Qed.

Lemma sole_queue s d n :
  exclusive s -> queues s !! d = Some (S n) ->
  is_scheduled s = true /\ n = 0 /\ wakes s = 0
  /\ (forall d' m, queues s !! d' = Some m -> d' <> d -> m = 0)
  /\ (forall d' pc, disp s !! d' = Some pc -> etok pc = 0)
  /\ (forall i pc, clients s !! i = Some pc -> ktok pc = 0).
Proof.
  unfold exclusive, tokens. intros HE Hq.
  pose proof (sum_list_with_lookup_le id _ _ _ Hq) as Hle. unfold id in Hle at 1.
  destruct (is_scheduled s); cbn in HE; [|lia]. split; [done|]. split; [lia|]. split; [lia|].
  split; [|split].
  - intros d' m Hm Hne. pose proof (sum_list_with_two id _ _ _ _ _ Hne Hm Hq) as H2.
    unfold id in H2 at 1 2. lia.
  - intros d' pc' Hd. pose proof (sum_list_with_lookup_le etok _ _ _ Hd). lia.
  - intros i' pc' Hi'. pose proof (sum_list_with_lookup_le ktok _ _ _ Hi'). lia.
Qed.

(** Read a lookup in an updated list. *)
Lemma lookup_insert_cases {A} (l : list A) i j x y z :
  l !! i = Some z -> <[i := x]> l !! j = Some y -> (j = i /\ y = x) \/ (j <> i /\ l !! j = Some y).
Proof.
  intros Hi Hj. destruct (decide (j = i)) as [->|Hne].
  - left. rewrite list_lookup_insert_eq in Hj by (by eapply lookup_lt_Some). by simplify_eq.
  - right. by rewrite list_lookup_insert_ne in Hj by done.
Qed.

Lemma lookup_alter_S_cases (l : list nat) d j n :
  alter S d l !! j = Some (S n) -> (j = d /\ l !! j = Some n) \/ (j <> d /\ l !! j = Some (S n)).
Proof.
  intros Hj. destruct (decide (j = d)) as [->|Hne].
  - left. rewrite list_lookup_alter_eq in Hj. destruct (l !! d); by simplify_eq/=.
  - right. by rewrite list_lookup_alter_ne in Hj by done.
Qed.

Section flags.
Context (c : config).

(** A dispatcher thread that holds the token moves. *)
Lemma flags_exec s s' d pc pc' :
  flags_inv c s -> exclusive s -> disp s !! d = Some pc -> 0 < etok pc ->
  disp s' = <[d := pc']> (disp s) -> clients s' = clients s ->
  queues s' = queues s \/ (queues s' = alter S (owner c) (queues s) /\ quiet s') ->
  (0 < wakes s' -> wakes s = 0 -> waiting s') -> (is_scheduled s' = false -> quiet s') ->
  eflags pc' s' -> (at_home pc' = true -> d = owner c) -> pc' <> EActive ->
  flags_inv c s'.
Proof.
  intros HI HE Hd Ht Hdi Hcl Hq Hw Hf Hfl Hho Hna.
  destruct (sole_disp s d pc HE Hd Ht) as [Hs (Ho1 & Ho2 & Ho3 & Ho4)].
  split.
  - rewrite Hdi, length_insert. destruct (fl_owner c s HI) as [? Hlen].
    destruct Hq as [->|[-> _]]; rewrite ?length_alter; done.
  - done.
  - intros Hw'. by apply Hw.
  - intros d' n Hn. destruct Hq as [Hq|[Hq [Hq1 Hq2]]]; rewrite Hq in Hn.
    + by specialize (Ho4 _ _ Hn).
    + apply lookup_alter_S_cases in Hn as [[-> Hn]|[_ Hn]]; [|by specialize (Ho4 _ _ Hn)].
      split; [congruence|done].
  - intros d' pc1 Hd'. rewrite Hdi in Hd'.
    apply (lookup_insert_cases _ _ _ _ _ _ Hd) in Hd' as [[-> ->]|[Hne Hd']]; [done|].
    assert (etok pc1 = 0) as Hz by (apply (Ho1 d'); [done|congruence]).
    split; [by apply eflags_notok|]. split; [apply (fl_disp c s HI d' pc1 Hd')|].
    by intros ->.
  - intros i pc1 Hi. rewrite Hcl in Hi. apply kflags_notok. by apply (Ho2 i).
Qed.

(** A step that leaves the flags alone and the token where it is. *)
Lemma flags_keep s s' :
  flags_inv c s -> is_active s' = is_active s -> armed s' = armed s ->
  is_poll_scheduled s' = is_poll_scheduled s ->
  length (disp s') = length (disp s) -> length (queues s') = length (queues s) ->
  (is_scheduled s' = false -> is_scheduled s = false) -> wakes s' <= wakes s ->
  (forall d n, queues s' !! d = Some (S n) ->
     (exists m, queues s !! d = Some (S m)) \/ (is_active s = armed s /\ (d <> owner c -> pending s))) ->
  (forall d pc, disp s' !! d = Some pc -> disp s !! d = Some pc \/
     (eflags pc s /\ (at_home pc = true -> d = owner c) /\ (pc = EActive -> d <> owner c -> pending s))) ->
  (forall i pc, clients s' !! i = Some pc -> clients s !! i = Some pc \/ kflags pc s) ->
  flags_inv c s'.
Proof.
  intros HI Ha Hr Hp Hl1 Hl2 Hf Hw Hq Hd Hc.
  assert (quiet s -> quiet s') as Eq by (unfold quiet; congruence).
  assert (pending s -> pending s') as Ep by (unfold pending; congruence).
  assert (waiting s -> waiting s') as Ew by (unfold waiting, pending; naive_solver congruence).
  assert (forall pc, eflags pc s -> eflags pc s') as Ee by (intros []; cbn; auto; congruence).
  assert (forall pc, kflags pc s -> kflags pc s') as Ek
    by (intros []; cbn -[Nat.lt]; rewrite ?Hl2; naive_solver).
  split.
  - rewrite Hl1, Hl2. apply HI.
  - intros E. apply Eq, (fl_free c s HI), Hf, E.
  - intros E. apply Ew, (fl_wakes c s HI). lia.
  - intros d n Hn. rewrite Ha, Hr. destruct (Hq d n Hn) as [[m Hm]|[H1 H2]].
    + destruct (fl_queue c s HI d m Hm). auto.
    + auto.
  - intros d pc H. destruct (Hd d pc H) as [H1|(H1 & H2 & H3)]; [|auto].
    destruct (fl_disp c s HI d pc H1) as (? & ? & ?). auto.
  - intros i pc H. destruct (Hc i pc H) as [H1|H1]; [|auto].
    apply Ek, (fl_clients c s HI i pc H1).
Qed.

Lemma flags_step_disp d u pc s s' :
  tame c -> exclusive s -> flags_inv c s -> disp s !! d = Some pc -> 0 < etok pc ->
  exec_step c d pc u s = Some s' -> flags_inv c s'.
Proof.
  intros [_ Hlate] HE HI Hd Hz H. destruct (fl_disp c s HI d pc Hd) as (Hfl & Hho & Hac).
  destruct (sole_disp s d pc HE Hd Hz) as [Hsch _].
  assert (pc = EActive -> is_active s = false -> d = owner c) as Hown.
  { intros -> Hia. destruct (decide (d = owner c)) as [|Hne]; [done|].
    destruct (Hac eq_refl Hne). congruence. }
  destruct pc; try (exfalso; cbn in Hz; lia); cbn [exec_step] in H; try done;
    repeat case_match; simplify_eq; rewrite ?Nat.leb_le in *;
    try match goal with k : caller |- _ => destruct k; cbn [after_idle after_failure] in * end;
    cbn [eflags at_home] in Hfl, Hho;
    (eapply (flags_exec s _ d); [done|done|exact Hd|cbn; lia|reflexivity|reflexivity|
       first [left; reflexivity|right; split; [reflexivity|assumption]]|..]);
    cbn -[Nat.lt]; unfold quiet, waiting, pending in *; cbn -[Nat.lt];
    first [done | intros; lia | intros; congruence | solve [auto] | solve [intuition congruence]
          | split; congruence | destruct Hfl; split; congruence].
Qed.

(** The waker marks the poll: the flag changes, and only the waker may act. *)
Lemma flags_mark s i d :
  exclusive s -> flags_inv c s -> clients s !! i = Some (WCas d) ->
  flags_inv c (set_client i (WSched d) (set_poll true s)).
Proof.
  intros HE HI Hi. destruct (sole_client s i _ HE Hi ltac:(cbn; lia)) as [Hs (H1 & H2 & H3 & H4)].
  destruct (fl_clients c s HI i _ Hi) as [[Hp _] Hlt].
  split; cbn -[Nat.lt]; try apply HI; try congruence; try lia.
  - intros d' pc Hd'. assert (etok pc = 0) as Hz by (by apply (H1 d')).
    split; [by apply eflags_notok|]. split; [apply (fl_disp c s HI d' pc Hd')|].
    by intros ->.
  - intros i' pc Hi'. apply (lookup_insert_cases _ _ _ _ _ _ Hi) in Hi' as [[-> ->]|[Hne Hi']].
    + split; [apply Hp|exact Hlt].
    + apply kflags_notok. apply (H2 i'); [done|congruence].
Qed.

(** Reads the lookups of [flags_keep]'s side conditions. *)
Ltac keep_lookups :=
  repeat match goal with
  | Hd : disp ?s !! ?d = Some ?pc, H : <[?d := _]> (disp ?s) !! _ = Some _ |- _ =>
      apply (lookup_insert_cases _ _ _ _ _ _ Hd) in H as [[-> ->]|[_ H]]
  | Hd : clients ?s !! ?d = Some ?pc, H : <[?d := _]> (clients ?s) !! _ = Some _ |- _ =>
      apply (lookup_insert_cases _ _ _ _ _ _ Hd) in H as [[-> ->]|[_ H]]
  | Hd : queues ?s !! ?d = Some ?n, H : <[?d := _]> (queues ?s) !! _ = Some _ |- _ =>
      apply (lookup_insert_cases _ _ _ _ _ _ Hd) in H as [[-> ?]|[_ H]]
  | H : alter S _ _ !! _ = Some (S _) |- _ =>
      apply lookup_alter_S_cases in H as [[-> H]|[_ H]]
  end.

Ltac flags_keep_tac :=
  eapply flags_keep; cbn -[Nat.lt]; rewrite ?length_insert, ?length_alter;
  try done; try lia; try congruence; intros; keep_lookups; eauto; try (right; cbn; by auto).

Lemma flags_step a s s' :
  tame c -> exclusive s -> flags_inv c s -> step c a s = Some s' -> flags_inv c s'.
Proof.
  intros Hmw HE HI H. destruct a as [d u|i|i m|i|i d]; cbn [step] in H.
  - destruct (disp s !! d) as [pc|] eqn:Hd; [|done]. cbn [mbind option_bind] in H.
    destruct (decide (etok pc = 0)) as [Hz|Hz]; [|by eapply (flags_step_disp d u pc); eauto; lia].
    destruct (fl_disp c s HI d pc Hd) as (Hfl & Hho & Hac).
    destruct pc; try done; cbn [exec_step] in H; repeat case_match; simplify_eq;
      flags_keep_tac.
    + destruct (fl_queue c s HI d _ ltac:(eassumption)). right. auto.
    + right. split; [by apply (fl_free c s HI)|]. split; [by intros _; apply Hho|done].
  - destruct (clients s !! i) as [pc|] eqn:Hi; [|done]. cbn [mbind option_bind] in H.
    pose proof (fl_clients c s HI i pc Hi) as Hfl.
    destruct pc; cbn [client_step] in H; repeat case_match; simplify_eq;
      try (by apply flags_mark); flags_keep_tac.
    all: try (right; cbn; by apply (fl_free c s HI)).
    all: right; cbn -[Nat.lt] in *; unfold quiet, waiting, pending in *; intuition congruence.
  - unfold call in H. repeat case_match; simplify_eq; flags_keep_tac.
  - unfold call in H. repeat case_match; simplify_eq; flags_keep_tac.
  - destruct (wakes s) as [|w] eqn:Hw; [done|]. unfold call in H.
    change (clients (set_wakes w (parked s) s)) with (clients s) in H.
    repeat case_match; simplify_eq; flags_keep_tac.
    right. split; [apply (fl_wakes c s HI); lia|by apply Nat.ltb_lt].
Qed.
End flags.

(** ** The token is not lost *)

(** While [is_scheduled] is set there is a token, a poll that owes no wake, or
    the actor is stopped. *)
Definition token_kept (s : st) : Prop :=
  is_scheduled s = true -> 0 < tokens s + parked s \/ life s = Stopped.

(** Past the swap of [finalize_kill]. *)
Definition finalizing (pc : epc) : nat :=
  match pc with
  | FDrain | FClearSlot | FClearActive | FClearReset | FOnKill | FFinalize | EDead true => 1
  | _ => 0
  end.

(** The lifecycle only moves forward, and finalization runs after the swap. *)
Definition stop_inv (s : st) : Prop :=
  (life s <> Stopped -> sum_list_with finalizing (disp s) = 0).

Lemma stop_step c a s s' : stop_inv s -> step c a s = Some s' -> stop_inv s'.
Proof.
  unfold stop_inv. intros HI H. split_step H; cbn in *; sum_facts; cbn in *.
  all: try match goal with k : caller |- _ => destruct k; cbn in * end.
  all: intros Hl; try (by destruct Hl); try specialize (HI ltac:(congruence)); try lia.
Qed.

Lemma finalizing_stopped s d pc :
  stop_inv s -> disp s !! d = Some pc -> finalizing pc = 1 -> life s = Stopped.
Proof.
  intros HS Hd Hf. destruct (decide (life s = Stopped)) as [|Hne]; [done|].
  specialize (HS Hne). pose proof (sum_list_with_lookup_le finalizing _ _ _ Hd). lia.
Qed.

Lemma token_kept_step c a s s' :
  tame c -> exclusive s -> flags_inv c s -> stop_inv s ->
  token_kept s -> step c a s = Some s' -> token_kept s'.
Proof.
  unfold token_kept, tokens. intros [Hw Hlate] HE HF HS HI H.
  destruct (fl_owner c s HF) as [Ho Hlen].
  pose proof (fl_clients c s HF) as HC.
  split_step H; cbn in *; sum_facts; cbn in *; intros Hsch; try done.
  all: try match goal with k : caller |- _ => destruct k; cbn in * end.
  all: try (left; lia).
  all: try (by right).
  all: try (destruct (HI ltac:(congruence)) as [HI'|HI']; [left; lia|by right]).
  all: try (right; by eapply finalizing_stopped).
  all: specialize (HC _ _ Hi); cbn -[Nat.lt] in *; unfold waiting, pending in *.
  all: first [left; lia|intuition congruence].
Qed.

(** ** Published mail is watched *)

(** Threads that have not yet compared the mailbox with [is_scheduled]. *)
Definition ewatch (pc : epc) : nat := match pc with EPeek | ESwap => 1 | _ => 0 end.
Definition kwatch (pc : kpc) : nat := match pc with QLoad | QSwap => 1 | _ => 0 end.

Definition watched (s : st) : Prop :=
  peek s = true -> is_scheduled s = false ->
  0 < sum_list_with ewatch (disp s) + sum_list_with kwatch (clients s).

Lemma watched_step c a s s' :
  exclusive s -> watched s -> step c a s = Some s' -> watched s'.
Proof.
  unfold watched, peek. intros HE HI H.
  pose proof (fun d pc Hd Ht => proj1 (sole_disp s d pc HE Hd Ht)) as Hsole.
  split_step H; cbn -[Nat.lt] in *; sum_facts; cbn -[Nat.lt] in *; intros Hp Hsch; try done.
  all: try match goal with k : caller |- _ => destruct k; cbn -[Nat.lt] in * end.
  all: try lia; try congruence.
  all: try (assert (is_scheduled s = true) by (eapply Hsole; [exact Hd|cbn; lia]); congruence).
  all: try (specialize (HI ltac:(assumption) ltac:(congruence)); lia).
  all: unfold peek in *; repeat match goal with E : cells _ = _ |- _ => rewrite E in * end.
  all: cbn -[Nat.lt] in *; simplify_eq.
  all: specialize (HI ltac:(congruence) ltac:(congruence)); lia.
Qed.

(** ** Unpublished cells have a publisher *)
Record cells_inv (s : st) : Prop := {
  ce_open : forall idx m, cells s !! idx = Some (m, false) ->
    exists i, clients s !! i = Some (QPublish (taken s + idx));
  ce_held : forall i pos, clients s !! i = Some (QPublish pos) ->
    taken s <= pos /\ exists m, cells s !! (pos - taken s) = Some (m, false);
  ce_once : forall i i' pos, clients s !! i = Some (QPublish pos) ->
    clients s !! i' = Some (QPublish pos) -> i = i';
}.

Definition is_publishing (pc : kpc) : bool := match pc with QPublish _ => true | _ => false end.

(** A step that leaves the cells and every publishing client alone. *)
Lemma cells_keep s s' :
  cells_inv s -> cells s' = cells s -> taken s' = taken s ->
  (forall i pos, clients s' !! i = Some (QPublish pos) <-> clients s !! i = Some (QPublish pos)) ->
  cells_inv s'.
Proof.
  intros [H1 H2 H3] Hc Ht Hk. split; rewrite ?Hc, ?Ht.
  - intros idx m Hm. destruct (H1 idx m Hm) as [i Hi]. exists i. by apply Hk.
  - intros i pos Hi. by apply (H2 i pos), Hk.
  - intros i i' pos Hi Hi'. apply (H3 i i' pos); by apply Hk.
Qed.

Lemma publishing_move (l : list kpc) i pc pc' j pos :
  l !! i = Some pc -> is_publishing pc = false -> is_publishing pc' = false ->
  <[i := pc']> l !! j = Some (QPublish pos) <-> l !! j = Some (QPublish pos).
Proof.
  intros Hi Hp Hp'. destruct (decide (j = i)) as [->|Hne].
  - rewrite list_lookup_insert_eq by (by eapply lookup_lt_Some).
    split; intros E; [|rewrite Hi in E]; simplify_eq.
  - by rewrite list_lookup_insert_ne.
Qed.

(** The consumer takes the published head. *)
Lemma cells_take s s' m rest :
  cells_inv s -> cells s = (m, true) :: rest -> cells s' = rest -> taken s' = S (taken s) ->
  clients s' = clients s -> cells_inv s'.
Proof.
  intros [H1 H2 H3] Hc Hr Ht Hk. split; rewrite ?Hr, ?Ht, ?Hk; [| |done].
  - intros idx y Hy. destruct (H1 (S idx) y) as [i Hi]; [by rewrite Hc|].
    exists i. rewrite Hi. do 2 f_equal; lia.
  - intros i pos Hi. destruct (H2 i pos Hi) as [Hle [y Hy]].
    destruct (pos - taken s) as [|k] eqn:Ek; rewrite Hc in Hy; simplify_eq/=.
    split; [lia|]. exists y. by replace (pos - S (taken s)) with k by lia.
Qed.

(** A producer claims the next cell. *)
Lemma cells_claim s s' i pc m :
  cells_inv s -> clients s !! i = Some pc -> is_publishing pc = false ->
  cells s' = cells s ++ [(m, false)] -> taken s' = taken s ->
  clients s' = <[i := QPublish (taken s + length (cells s))]> (clients s) -> cells_inv s'.
Proof.
  intros [H1 H2 H3] Hi Hp Hc Ht Hk. split; rewrite ?Hc, ?Ht, ?Hk.
  - intros idx y Hy. apply lookup_app_Some in Hy as [Hy|[Hge Hy]].
    + destruct (H1 idx y Hy) as [j Hj]. exists j.
      destruct (decide (j = i)) as [->|Hne]; [|by rewrite list_lookup_insert_ne].
      rewrite Hi in Hj. by simplify_eq.
    + destruct (idx - length (cells s)) eqn:E; [|done]. exists i.
      rewrite list_lookup_insert_eq by (by eapply lookup_lt_Some). do 2 f_equal; lia.
  - intros j pos Hj. apply (lookup_insert_cases _ _ _ _ _ _ Hi) in Hj as [[-> Hj]|[Hne Hj]].
    + simplify_eq. split; [lia|]. exists m.
      replace (taken s + length (cells s) - taken s) with (length (cells s)) by lia.
      by rewrite lookup_app_r, Nat.sub_diag.
    + destruct (H2 j pos Hj) as [? [y Hy]]. split; [done|]. exists y. by apply lookup_app_l_Some.
  - assert (forall j, clients s !! j = Some (QPublish (taken s + length (cells s))) -> False) as Hno.
    { intros j Hj. destruct (H2 _ _ Hj) as [_ [y Hy]]. apply lookup_lt_Some in Hy. lia. }
    intros j j' pos Hj Hj'.
    apply (lookup_insert_cases _ _ _ _ _ _ Hi) in Hj as [[-> Hj]|[Hne Hj]];
      apply (lookup_insert_cases _ _ _ _ _ _ Hi) in Hj' as [[-> Hj']|[Hne' Hj']]; simplify_eq.
    + done.
    + by destruct (Hno j').
    + by destruct (Hno j).
    + by eapply H3.
Qed.

(** A producer publishes its cell. *)
Lemma cells_publish s s' i pos :
  cells_inv s -> clients s !! i = Some (QPublish pos) ->
  cells s' = alter (λ cell, (cell.1, true)) (pos - taken s) (cells s) -> taken s' = taken s ->
  clients s' = <[i := QLoad]> (clients s) -> cells_inv s'.
Proof.
  intros [H1 H2 H3] Hi Hc Ht Hk. destruct (H2 i pos Hi) as [Hle [m Hm]].
  split; rewrite ?Hc, ?Ht, ?Hk.
  - intros idx y Hy. destruct (decide (idx = pos - taken s)) as [->|Hne].
    + rewrite list_lookup_alter_eq, Hm in Hy. by simplify_eq/=.
    + rewrite list_lookup_alter_ne in Hy by done. destruct (H1 idx y Hy) as [j Hj]. exists j.
      destruct (decide (j = i)) as [->|Hji]; [|by rewrite list_lookup_insert_ne].
      rewrite Hi in Hj. simplify_eq. lia.
  - intros j p Hj. apply (lookup_insert_cases _ _ _ _ _ _ Hi) in Hj as [[-> Hj]|[Hne Hj]]; [done|].
    destruct (H2 j p Hj) as [? [y Hy]]. split; [done|]. exists y.
    rewrite list_lookup_alter_ne; [done|]. intros E. apply Hne.
    apply (H3 j i pos); [|done]. rewrite Hj. do 2 f_equal; lia.
  - intros j j' p Hj Hj'.
    apply (lookup_insert_cases _ _ _ _ _ _ Hi) in Hj as [[-> Hj]|[Hne Hj]]; [done|].
    apply (lookup_insert_cases _ _ _ _ _ _ Hi) in Hj' as [[-> Hj']|[Hne' Hj']]; [done|].
    by eapply H3.
Qed.

Lemma cells_step c a s s' : cells_inv s -> step c a s = Some s' -> cells_inv s'.
Proof.
  intros HI H. split_step H.
  all: try (eapply (cells_keep s); [done|reflexivity|reflexivity|]; done).
  all: try (eapply (cells_keep s); [done|reflexivity|reflexivity|]; intros j p; cbn;
            eapply publishing_move; [eassumption|done|done]).
  all: try (eapply (cells_take s); [done|eassumption|reflexivity..]).
  all: try (eapply (cells_claim s); [done|eassumption|reflexivity..]).
  all: eapply (cells_publish s); [done|eassumption|reflexivity..].
Qed.

(** ** Finalization *)

(** Runs of [on_kill] and [on_finalize], done or still to come, happen once and
    only after the swap to [Stopped]; this needs no assumption on wakes. *)
Definition before_kill (pc : epc) : nat :=
  match pc with FDrain | FClearSlot | FClearActive | FClearReset | FOnKill => 1 | _ => 0 end.

Definition stopped (l : lifecycle) : nat := match l with Stopped => 1 | _ => 0 end.

Definition final_inv (s : st) : Prop :=
  kills s + sum_list_with before_kill (disp s) = stopped (life s)
  /\ finals s + sum_list_with finalizing (disp s) = stopped (life s).

Lemma final_step c a s s' : final_inv s -> step c a s = Some s' -> final_inv s'.
Proof.
  unfold final_inv. intros HI H. split_step H; cbn in *; sum_facts; cbn in *.
  all: try match goal with k : caller |- _ => destruct k; cbn in * end.
  all: try match goal with E : life _ = _ |- _ => rewrite E in *; cbn in * end.
  all: try lia.
  all: destruct (life s); cbn in *; lia.
Qed.

(** Once stopped, [is_scheduled] stays set and the finalizing thread holds the
    last token. *)
Definition unfinal (pc : epc) : nat := etok pc - finalizing pc.

Definition stopped_inv (s : st) : Prop :=
  life s = Stopped -> is_scheduled s = true /\
  sum_list_with id (queues s) + sum_list_with unfinal (disp s) + sum_list_with ktok (clients s)
  + wakes s = 0.

Lemma unfinal_le s : sum_list_with unfinal (disp s) <= sum_list_with etok (disp s).
Proof. induction (disp s) as [|pc l IH]; cbn; [lia|]. unfold unfinal at 1. lia. Qed.

Lemma stopped_step c a s s' :
  exclusive s -> stopped_inv s -> step c a s = Some s' -> stopped_inv s'.
Proof.
  unfold stopped_inv, exclusive, tokens. intros HE HI H. pose proof (unfinal_le s) as HU.
  split_step H; cbn in *; sum_facts; cbn in *; intros Hl; try done.
  all: try match goal with k : caller |- _ => destruct k; cbn in * end.
  all: try (destruct (HI ltac:(congruence)); split; [done|lia]).
  all: try (destruct (HI ltac:(congruence)); lia).
  all: try (destruct (HI ltac:(congruence)); congruence).
  all: destruct (is_scheduled s); cbn in *; [split; [done|lia]|lia].
Qed.

(** ** All together *)
Record runner_inv (c : config) (s : st) : Prop := {
  ri_exclusive : exclusive s;
  ri_flags : flags_inv c s;
  ri_stop : stop_inv s;
  ri_kept : token_kept s;
  ri_watched : watched s;
  ri_cells : cells_inv s;
  ri_stopped : stopped_inv s;
}.

Lemma runner_inv_step c a s s' :
  tame c -> runner_inv c s -> step c a s = Some s' -> runner_inv c s'.
Proof.
  intros Hw [H1 H2 H3 H4 H5 H6 H7] H. split.
  - by eapply exclusive_step.
  - by eapply flags_step.
  - by eapply stop_step.
  - by eapply (token_kept_step c a s).
  - by eapply (watched_step c a s).
  - by eapply cells_step.
  - by eapply (stopped_step c a s).
Qed.

Lemma sum_replicate {A} (f : A -> nat) n x : f x = 0 -> sum_list_with f (replicate n x) = 0.
Proof. intros Hf. induction n as [|n IH]; cbn; lia. Qed.

Lemma runner_inv_initial c nd nc : owner c < nd -> runner_inv c (initial nd nc).
Proof.
  intros Ho. split.
  - unfold exclusive, tokens. cbn. by rewrite !sum_replicate.
  - split; cbn -[Nat.lt].
    + by rewrite !length_replicate.
    + done.
    + lia.
    + intros d n Hn. by apply lookup_replicate in Hn as [? _].
    + intros d pc Hd. by apply lookup_replicate in Hd as [-> _].
    + intros i pc Hi. by apply lookup_replicate in Hi as [-> _].
  - intros _. cbn. by rewrite sum_replicate.
  - done.
  - done.
  - split; cbn.
    + intros idx m Hm. done.
    + intros i pos Hi. by apply lookup_replicate in Hi as [? _].
    + intros i i' pos Hi. by apply lookup_replicate in Hi as [? _].
  - done.
Qed.

Lemma reachable_runner_inv c nd nc s :
  tame c -> owner c < nd -> reachable c nd nc s -> runner_inv c s.
Proof.
  intros Hw Ho Hr. apply (invariant_reachable (step c) (runner_inv c)) with (initial nd nc).
  - intros a s1 s2 HI H. by apply (runner_inv_step c a s1).
  - done.
  - by apply runner_inv_initial.
Qed.

Lemma reachable_final_inv c nd nc s : reachable c nd nc s -> final_inv s.
Proof.
  intros Hr. apply (invariant_reachable (step c) final_inv) with (initial nd nc).
  - intros a s1 s2 HI H. by apply (final_step c a s1).
  - done.
  - split; cbn; by rewrite sum_replicate.
Qed.
