(* ===== verification/RunnerTheorems.v ===== *)
(** What the scheduling protocol of [RunnerProtocol] guarantees, and the two
    interleavings in which it does not do what the runtime documents. *)
From S2P Require Import Prelude RunnerProtocol RunnerInvariant.
Local Open Scope nat_scope.

(** A dispatcher thread is inside code of the actor: [on_receive], the poll of
    its future, or [on_kill]. *)
Definition in_actor_code (pc : epc) : bool :=
  match pc with EReceive _ | EPolling _ | FOnKill => true | _ => false end.

(** A dispatcher thread is about to use the mailbox as its consumer. *)
Definition consuming (pc : epc) : bool :=
  match pc with EDequeue | EPeek | FDrain => true | _ => false end.

(** No thread is inside the runtime for this actor and no wake is owed. *)
Definition quiescent (s : st) : Prop :=
  (forall d pc, disp s !! d = Some pc -> pc = EIdle)
  /\ (forall i pc, clients s !! i = Some pc -> pc = KIdle)
  /\ (forall d n, queues s !! d = Some n -> n = 0) /\ wakes s = 0.

Lemma quiescent_tokens s : quiescent s -> tokens s = 0.
Proof.
  intros (Hd & Hc & Hq & Hw). unfold tokens. rewrite Hw.
  rewrite (proj2 (sum_list_with_zero etok (disp s))) by (by intros d pc H; rewrite (Hd d pc H)).
  rewrite (proj2 (sum_list_with_zero ktok (clients s))) by (by intros i pc H; rewrite (Hc i pc H)).
  by rewrite (proj2 (sum_list_with_zero id (queues s))) by (intros d n H; by apply (Hq d n)).
Qed.

(** C6.  One execution at a time, if the actor's futures are tame: each poll that
    returned [Pending] is followed by at most one wake, and no waker handed out
    by a poll that completed the receive (ready, or by a panic) fires afterwards.
    Then two dispatcher threads are never both inside the actor's code, so
    [on_receive], the poll of its future and [on_kill] never overlap, whether or
    not [on_kill] and the dead letter callback panic. *)
Theorem runner_exclusive c nd nc s d d' pc pc' :
  tame c -> owner c < nd -> reachable c nd nc s ->
  disp s !! d = Some pc -> disp s !! d' = Some pc' ->
  in_actor_code pc = true -> in_actor_code pc' = true -> d = d'.
Proof.
  intros Hw Ho Hr Hd Hd' Hp Hp'.
  pose proof (ri_exclusive c s (reachable_runner_inv c nd nc s Hw Ho Hr)) as HE.
  destruct (decide (d = d')) as [|Hne]; [done|].
  destruct (sole_disp s d pc HE Hd ltac:(destruct pc; cbn in *; done || lia)) as [_ [Hz _]].
  specialize (Hz d' pc' Hd' ltac:(congruence)). by destruct pc'.
Qed.

(** The mailbox has one consumer: under the same condition only the
    actor's own dispatcher thread dequeues, peeks or drains it, and only that
    thread runs [on_receive] and [on_kill]. *)
Theorem runner_single_consumer c nd nc s d pc :
  tame c -> owner c < nd -> reachable c nd nc s ->
  disp s !! d = Some pc ->
  consuming pc = true \/ (exists m, pc = EReceive m) \/ pc = FOnKill -> d = owner c.
Proof.
  intros Hw Ho Hr Hd Hpc.
  pose proof (ri_flags c s (reachable_runner_inv c nd nc s Hw Ho Hr)) as HF.
  apply (fl_disp c s HF d pc Hd). destruct Hpc as [Hpc|[[m ->] | ->]]; [by destruct pc|done..].
Qed.

(** No mail is forgotten: when every thread has left the runtime and no
    receive is suspended for good, an actor that is not stopped has an empty
    mailbox, and its [is_scheduled] flag is clear, so that the next post
    schedules it again. *)
Theorem runner_no_lost_mail c nd nc s :
  tame c -> owner c < nd -> reachable c nd nc s ->
  quiescent s -> parked s = 0 -> life s <> Stopped ->
  cells s = [] /\ is_scheduled s = false.
Proof.
  intros Hw Ho Hr Hq Hp Hl.
  destruct (reachable_runner_inv c nd nc s Hw Ho Hr) as [_ _ _ HK HW [Hopen _ _] _].
  pose proof (quiescent_tokens s Hq) as Ht. destruct Hq as (Hd & Hc & _ & _).
  destruct (is_scheduled s) eqn:Hs.
  - destruct (HK Hs) as [HK'|]; [lia|done].
  - split; [|done]. destruct (cells s) as [|[m [|]] rest] eqn:Ec; [done| |].
    + assert (peek s = true) as Hpk by (unfold peek; by rewrite Ec).
      specialize (HW Hpk Hs).
      rewrite (proj2 (sum_list_with_zero ewatch (disp s))) in HW
        by (by intros d pc H; rewrite (Hd d pc H)).
      rewrite (proj2 (sum_list_with_zero kwatch (clients s))) in HW
        by (by intros i pc H; rewrite (Hc i pc H)). lia.
    + destruct (Hopen 0 m) as [i Hi]; [done|]. by specialize (Hc _ _ Hi).
Qed.

(** Finalization runs at most once whatever wakes arrive: [on_kill] and
    [on_finalize] have each run at most once, and never before the lifecycle
    was swapped to stopped. *)
Theorem runner_finalize_once c nd nc s :
  reachable c nd nc s ->
  kills s <= 1 /\ finals s <= 1 /\ finals s <= kills s
  /\ (life s <> Stopped -> kills s = 0 /\ finals s = 0).
Proof.
  intros Hr. destruct (reachable_final_inv c nd nc s Hr) as [HK HF].
  assert (sum_list_with before_kill (disp s) <= sum_list_with finalizing (disp s)) as Hle.
  { clear. induction (disp s) as [|pc l IH]; cbn; [lia|]. destruct pc; cbn; lia. }
  destruct (life s); cbn in *; (split; [lia|split; [lia|split; [lia|]]]); intros Hl; lia || done.
Qed.

(** A stopped actor stays stopped: once the lifecycle is stopped no thread
    is, or ever again gets, inside [on_receive] or the poll of a future. *)
Theorem runner_stopped_silent c nd nc s d pc :
  tame c -> owner c < nd -> reachable c nd nc s ->
  life s = Stopped -> disp s !! d = Some pc ->
  (forall m, pc <> EReceive m) /\ (forall k, pc <> EPolling k).
Proof.
  intros Hw Ho Hr Hl Hd.
  destruct (ri_stopped c s (reachable_runner_inv c nd nc s Hw Ho Hr) Hl) as [_ Hz].
  pose proof (sum_list_with_lookup_le unfinal _ _ _ Hd) as Hle.
  split; [intros m ->|intros k ->]; cbn in Hle; lia.
Qed.

(** ** Concrete schedules *)
Definition solo : config := mkConfig 0 4 1 0 false.

Definition posting (i m : nat) : list action :=
  CallPost i m :: replicate 6 (Client i).

(** Post one message and run the actor until it has seen the empty mailbox and
    is about to clear [is_scheduled]. *)
Definition almost_idle : list action :=
  posting 0 7 ++ replicate 5 (Dispatch 0 NoChoice) ++ [Dispatch 0 Done]
  ++ replicate 2 (Dispatch 0 NoChoice).

(** A kill arrives in that window; then the actor finishes. *)
Definition lost_kill : list action :=
  almost_idle ++ [CallKill 1; Client 1; Client 1] ++ replicate 2 (Dispatch 0 NoChoice).

Definition state_after (c : config) (nd nc : nat) (acts : list action) : st :=
  default (initial nd nc) (run (step c) acts (initial nd nc)).

Lemma state_after_reachable c nd nc acts :
  is_Some (run (step c) acts (initial nd nc)) -> reachable c nd nc (state_after c nd nc acts).
Proof.
  intros [s Hs]. unfold state_after. rewrite Hs. by apply (run_reaches (step c) acts).
Qed.

Definition stranded_state : st := Eval vm_compute in state_after solo 1 2 lost_kill.

Lemma stranded_state_reachable : reachable solo 1 2 stranded_state.
Proof.
  apply (run_reaches (step solo) lost_kill). vm_compute. reflexivity.
Qed.

(** An unscheduled actor in [Killing] with nobody about to schedule it. *)
Definition stranded (s : st) : Prop :=
  life s = Killing /\ is_scheduled s = false /\ wakes s = 0 /\ kills s = 0 /\ finals s = 0
  /\ (forall d pc, disp s !! d = Some pc -> pc = EIdle)
  /\ (forall d n, queues s !! d = Some n -> n = 0)
  /\ (forall i pc, clients s !! i = Some pc -> pc = KIdle \/ pc = KCas \/ exists m, pc = QLife m).

Lemma stranded_client s i pc pc' :
  stranded s -> clients s !! i = Some pc ->
  (pc' = KIdle \/ pc' = KCas \/ exists m, pc' = QLife m) -> stranded (set_client i pc' s).
Proof.
  intros (H1 & H2 & H3 & H4 & H5 & H6 & H7 & H8) Hi Hpc. repeat split; try done.
  intros j pc1 Hj. cbn in Hj.
  by apply (lookup_insert_cases _ _ _ _ _ _ Hi) in Hj as [[-> ->]|[_ Hj]]; [|apply (H8 j)].
Qed.

Lemma stranded_step c a s s' : stranded s -> step c a s = Some s' -> stranded s'.
Proof.
  intros HS H. pose proof HS as (H1 & H2 & H3 & H4 & H5 & H6 & H7 & H8).
  destruct a as [d u|i|i m|i|i d]; cbn [step] in H.
  - destruct (disp s !! d) as [pc|] eqn:Hd; [|done]. cbn in H. rewrite (H6 d pc Hd) in H. cbn in H.
    destruct (queues s !! d) as [[|n]|] eqn:Hq; [done| |done]. by specialize (H7 _ _ Hq).
  - destruct (clients s !! i) as [pc|] eqn:Hi; [|done]. cbn in H.
    destruct (H8 i pc Hi) as [->|[->|[m ->]]]; cbn in H; [done| |]; rewrite H1 in H; simplify_eq;
      eapply stranded_client; eauto.
  - unfold call in H. repeat case_match; simplify_eq. eapply stranded_client; eauto.
  - unfold call in H. repeat case_match; simplify_eq. eapply stranded_client; eauto.
  - by rewrite H3 in H.
Qed.

(** C38.  A kill can be lost.  [execute] loads the lifecycle (running), [kill]
    sets it to killing and finds [is_scheduled] still set, so it does not
    schedule; then [execute] clears [is_scheduled] and, its mailbox empty, does
    not reschedule.  From the state reached no continuation ever finalizes the
    actor: every later kill and post is refused, [on_kill] never runs, and a
    shutdown that waits for the actor waits for ever. *)
Theorem kill_can_be_lost :
  exists s, reachable solo 1 2 s /\ quiescent s /\ parked s = 0 /\ life s = Killing
    /\ forall s', rtc (step_of (step solo)) s s' ->
         life s' = Killing /\ kills s' = 0 /\ finals s' = 0.
Proof.
  assert (stranded stranded_state) as HS.
  { repeat split; try done; cbn.
    - intros [|d] pc Hd; by simplify_eq/=.
    - intros [|d] n Hn; by simplify_eq/=.
    - intros [|[|i]] pc Hi; simplify_eq/=; auto. }
  exists stranded_state. split; [exact stranded_state_reachable|].
  split; [|split; [done|split; [done|]]].
  - split; [apply HS|]. split; [|split; [apply HS|done]].
    cbn. intros [|[|i]] pc Hi; by simplify_eq/=.
  - intros s' Hr. apply (invariant_reachable (step solo) stranded) in Hr; [|apply stranded_step|done].
    destruct Hr as (? & _ & _ & ? & ? & _). done.
Qed.

(** Two dispatchers; the actor's future hands its waker to two sources. *)
Definition joined : config := mkConfig 0 4 2 0 false.

Definition two_wakes : list action :=
  posting 0 1 ++ (CallPost 0 2 :: replicate 4 (Client 0))
  ++ (CallPost 0 3 :: replicate 4 (Client 0))
  ++ replicate 5 (Dispatch 0 NoChoice) ++ [Dispatch 0 Pending]
  ++ replicate 5 (Dispatch 0 NoChoice) ++ [Dispatch 0 (PollPending 2); Dispatch 0 NoChoice]
  (* the first wake schedules the poll on dispatcher 0, which starts it *)
  ++ [CallWake 0 0; Client 0; Client 0; Client 0] ++ replicate 4 (Dispatch 0 NoChoice)
  (* the second wake, from a thread of dispatcher 1, comes during the poll *)
  ++ [CallWake 1 1; Client 1; Client 1; Client 1]
  ++ [Dispatch 0 (PollReady 0)] ++ replicate 3 (Dispatch 0 NoChoice)
  (* dispatcher 1 finds no pending receive and goes on to the mailbox *)
  ++ replicate 5 (Dispatch 1 NoChoice) ++ replicate 5 (Dispatch 0 NoChoice).

Definition overlapping_state : st := Eval vm_compute in state_after joined 2 2 two_wakes.

(** One wake for each pending poll, but the first receive, completed by its first
    poll, has left a waker behind: it fires during the second receive. *)
Definition lingering : config := mkConfig 0 4 1 1 false.

Definition late_wake : list action :=
  posting 0 1 ++ (CallPost 0 2 :: replicate 4 (Client 0))
  ++ (CallPost 0 3 :: replicate 4 (Client 0)) ++ (CallPost 0 4 :: replicate 4 (Client 0))
  ++ replicate 5 (Dispatch 0 NoChoice) ++ [Dispatch 0 Pending]
  ++ replicate 5 (Dispatch 0 NoChoice) ++ [Dispatch 0 (PollReady 1)]
  ++ replicate 8 (Dispatch 0 NoChoice) ++ [Dispatch 0 Pending]
  ++ replicate 5 (Dispatch 0 NoChoice) ++ [Dispatch 0 (PollPending 1); Dispatch 0 NoChoice]
  ++ [CallWake 0 0; Client 0; Client 0; Client 0] ++ replicate 4 (Dispatch 0 NoChoice)
  ++ [CallWake 1 1; Client 1; Client 1; Client 1]
  ++ [Dispatch 0 (PollReady 0)] ++ replicate 3 (Dispatch 0 NoChoice)
  ++ replicate 5 (Dispatch 1 NoChoice) ++ replicate 5 (Dispatch 0 NoChoice).

Definition lingering_state : st := Eval vm_compute in state_after lingering 2 2 late_wake.

(** C39.  Two executions can overlap.  When a pending receive is woken twice (its
    future waits on two sources) and the second wake comes from another
    dispatcher during the poll that completes, that dispatcher finds no pending
    receive and goes on to process the mailbox, while the completion callback
    has already rescheduled the actor on its own dispatcher: both threads are
    inside [on_receive] of the same actor.  The same happens with one wake for
    each pending poll, if the second wake is that of a waker which an earlier,
    completed receive has left behind. *)
Theorem executions_can_overlap :
  (exists s m m', reachable joined 2 2 s
    /\ disp s !! 0 = Some (EReceive m) /\ disp s !! 1 = Some (EReceive m'))
  /\ exists s m m', reachable lingering 2 2 s
    /\ disp s !! 0 = Some (EReceive m) /\ disp s !! 1 = Some (EReceive m').
Proof.
  split.
  - exists overlapping_state, 3, 2. split; [|done].
    apply (run_reaches (step joined) two_wakes). vm_compute. reflexivity.
  - exists lingering_state, 4, 3. split; [|done].
    apply (run_reaches (step lingering) late_wake). vm_compute. reflexivity.
Qed.

(** ** The hypotheses of the guarantees are met by concrete executions *)

(** Post, then run the actor up to [on_receive]. *)
Definition receiving : list action := posting 0 7 ++ replicate 5 (Dispatch 0 NoChoice).

(** Post and run until the actor is idle again. *)
Definition settled : list action := almost_idle ++ replicate 2 (Dispatch 0 NoChoice).

(** Kill an idle actor and run its finalization. *)
Definition killed : list action :=
  [CallKill 1; Client 1; Client 1; Client 1] ++ replicate 10 (Dispatch 0 NoChoice).

Definition receiving_state : st := Eval vm_compute in state_after solo 1 2 receiving.
Definition settled_state : st := Eval vm_compute in state_after solo 1 2 settled.
Definition killed_state : st := Eval vm_compute in state_after solo 1 2 killed.

Lemma receiving_reachable : reachable solo 1 2 receiving_state.
Proof. apply (run_reaches (step solo) receiving). vm_compute. reflexivity. Qed.
Lemma settled_reachable : reachable solo 1 2 settled_state.
Proof. apply (run_reaches (step solo) settled). vm_compute. reflexivity. Qed.
Lemma killed_reachable : reachable solo 1 2 killed_state.
Proof. apply (run_reaches (step solo) killed). vm_compute. reflexivity. Qed.

Lemma runner_exclusive_witness :
  disp receiving_state !! 0 = Some (EReceive 7) /\ 0 = 0.
Proof.
  split; [reflexivity|].
  apply (runner_exclusive solo 1 2 receiving_state 0 0 (EReceive 7) (EReceive 7));
    [split; [apply le_n|reflexivity]|apply Nat.lt_0_1|exact receiving_reachable|reflexivity..].
Defined.

Lemma runner_single_consumer_witness :
  disp receiving_state !! 0 = Some (EReceive 7) /\ 0 = owner solo.
Proof.
  split; [reflexivity|].
  apply (runner_single_consumer solo 1 2 receiving_state 0 (EReceive 7));
    [split; [apply le_n|reflexivity]|apply Nat.lt_0_1|exact receiving_reachable|reflexivity|].
  right. left. exists 7. reflexivity.
Defined.

Lemma runner_no_lost_mail_witness :
  handled settled_state = [7] /\ cells settled_state = [] /\ is_scheduled settled_state = false.
Proof.
  split; [reflexivity|].
  apply (runner_no_lost_mail solo 1 2 settled_state);
    [split; [apply le_n|reflexivity]|apply Nat.lt_0_1|exact settled_reachable| |reflexivity|discriminate].
  split; [|split; [|split; [|reflexivity]]].
  - intros [|d] pc Hd; by simplify_eq/=.
  - intros [|[|i]] pc Hi; by simplify_eq/=.
  - intros [|d] n Hn; by simplify_eq/=.
Defined.

Lemma runner_finalize_once_witness : kills killed_state = 1 /\ kills killed_state <= 1.
Proof.
  split; [reflexivity|]. apply (runner_finalize_once solo 1 2 killed_state killed_reachable).
Defined.

Lemma runner_stopped_silent_witness :
  life killed_state = Stopped /\ forall m, EIdle <> EReceive m.
Proof.
  split; [reflexivity|].
  apply (runner_stopped_silent solo 1 2 killed_state 0 EIdle);
    [split; [apply le_n|reflexivity]|apply Nat.lt_0_1|exact killed_reachable|reflexivity..].
Defined.
