(* ===== verification/RunnerMail.v ===== *)
(** What an actor receives.  [RunnerProtocol]'s runs are read together with the
    messages their posts carry: which posts were accepted by the mailbox, in
    which order, and what [on_receive] was given. *)
From S2P Require Import Prelude RingMailbox RunnerProtocol RunnerInvariant RunnerTheorems.
Local Open Scope nat_scope.

(** ** Posts and acceptances of a run *)

(** The messages thread [i] posted, in its program order. *)
Definition posts (i : nat) (acts : list action) : list nat :=
  omap (λ a, match a with CallPost j m => if decide (j = i) then Some m else None | _ => None end)
    acts.

(** The message, with its sender, that a step puts into the mailbox, and the
    one it turns away: the actor is not running, or its mailbox is full. *)
Definition accepts (c : config) (a : action) (s : st) : list (nat * nat) :=
  match a with
  | Client i =>
      match clients s !! i with
      | Some (QEnqueue m) => if length (cells s) <? mailbox_capacity c then [(i, m)] else []
      | _ => []
      end
  | _ => []
  end.

Definition refuses (c : config) (a : action) (s : st) : list (nat * nat) :=
  match a with
  | Client i =>
      match clients s !! i with
      | Some (QLife m) => match life s with Running => [] | _ => [(i, m)] end
      | Some (QEnqueue m) => if length (cells s) <? mailbox_capacity c then [] else [(i, m)]
      | _ => []
      end
  | _ => []
  end.

(** What the steps of a run gave, in order. *)
Fixpoint collect {H} (c : config) (ev : action -> st -> list H) (acts : list action) (s : st) :
    list H :=
  match acts with
  | [] => []
  | a :: rest =>
      match step c a s with
      | Some s' => ev a s ++ collect c ev rest s'
      | None => []
      end
  end.

Definition accepted (c : config) : list action -> st -> list (nat * nat) := collect c (accepts c).
Definition refused (c : config) : list action -> st -> list (nat * nat) := collect c (refuses c).

Lemma collect_snoc {H} (c : config) (ev : action -> st -> list H) acts a s s1 s2 :
  run (step c) acts s = Some s1 -> step c a s1 = Some s2 ->
  collect c ev (acts ++ [a]) s = collect c ev acts s ++ ev a s1.
Proof.
  revert s. induction acts as [|b acts IH]; intros s Hr Ha; simplify_eq/=.
  - by rewrite Ha, app_nil_r.
  - destruct (step c b s) as [s'|]; [|done]. by rewrite (IH s'), app_assoc.
Qed.

(** The messages of one sender. *)
Definition sent_by (i : nat) (l : list (nat * nat)) : list nat :=
  (filter (λ x, x.1 = i) l).*2.

Lemma sent_by_app i l l' : sent_by i (l ++ l') = sent_by i l ++ sent_by i l'.
Proof. unfold sent_by. by rewrite filter_app, fmap_app. Qed.

Lemma posts_of_app i acts acts' : posts i (acts ++ acts') = posts i acts ++ posts i acts'.
Proof. unfold posts. apply omap_app. Qed.

(** ** In order, and nothing lost while the actor runs *)

(** The message a dispatcher thread holds between the dequeue and the check of
    the lifecycle. *)
Definition checking (pc : epc) : option nat := match pc with ECheck m => Some m | _ => None end.

Definition in_hand (s : st) : list nat := omap checking (disp s).

(** The accepted messages are those received, those dropped after a kill, the
    one in hand and those queued, in this order. *)
Definition delivery (acc : list (nat * nat)) (s : st) : Prop :=
  exists dropped, acc.*2 = handled s ++ dropped ++ in_hand s ++ (cells s).*1
    /\ (life s = Running -> dropped = []).

Lemma omap_move {A B} (f : A -> option B) (l : list A) d x y :
  l !! d = Some x -> f x = f y -> omap f (<[d := y]> l) = omap f l.
Proof.
  revert d. induction l as [|z l IH]; intros [|d] Hd Hf; simplify_eq/=; [by rewrite Hf|].
  by rewrite (IH d).
Qed.

Lemma omap_sole {A B} (f : A -> option B) (l : list A) d x :
  l !! d = Some x -> (forall j y, l !! j = Some y -> j <> d -> f y = None) ->
  omap f l = option_list (f x).
Proof.
  revert d. induction l as [|z l IH]; intros [|d] Hd Ho; simplify_eq/=.
  - assert (omap f l = []) as ->.
    { clear IH. assert (forall j y, l !! j = Some y -> f y = None) as Hn
        by (intros j y Hj; apply (Ho (S j)); [done|lia]).
      clear Ho. induction l as [|w l IH]; [done|]. cbn. rewrite (Hn 0 w eq_refl).
      apply IH. intros j y Hj. by apply (Hn (S j)). }
    by destruct (f x).
  - rewrite (Ho 0 z eq_refl) by lia. apply (IH d); [done|].
    intros j y Hj Hne. apply (Ho (S j)); [done|lia].
Qed.

Lemma fst_alter_publish (l : list (nat * bool)) k :
  (alter (λ cell : nat * bool, (cell.1, true)) k l).*1 = l.*1.
Proof.
  revert k. induction l as [|x l IH]; intros [|k]; [done..|].
  change (alter ?f (S k) (x :: l)) with (x :: alter f k l). cbn. by rewrite IH.
Qed.

(** What the token holder has in hand is all there is in hand. *)
Lemma in_hand_sole s d pc :
  exclusive s -> disp s !! d = Some pc -> 0 < etok pc ->
  forall pc', omap checking (<[d := pc']> (disp s)) = option_list (checking pc').
Proof.
  intros HE Hd Ht pc'. destruct (sole_disp s d pc HE Hd Ht) as [_ [Ho _]].
  apply (omap_sole _ _ d); [apply list_lookup_insert_eq; by eapply lookup_lt_Some|].
  intros j y Hj Hne. rewrite list_lookup_insert_ne in Hj by done.
  specialize (Ho j y Hj ltac:(congruence)). by destruct y.
Qed.

Lemma in_hand_now s d pc :
  exclusive s -> disp s !! d = Some pc -> 0 < etok pc -> in_hand s = option_list (checking pc).
Proof.
  intros HE Hd Ht. rewrite <- (in_hand_sole s d pc HE Hd Ht pc). unfold in_hand.
  by rewrite list_insert_id.
Qed.

(** A step that moves a thread with nothing in hand before and after. *)
Lemma delivery_keep acc s s' :
  delivery acc s -> handled s' = handled s -> in_hand s' = in_hand s ->
  (cells s').*1 = (cells s).*1 -> (life s' = Running -> life s = Running) -> delivery acc s'.
Proof.
  intros [dr [Heq Hdr]] H1 H2 H3 H4. exists dr. rewrite H1, H2, H3. auto.
Qed.

Ltac in_hand_keep :=
  unfold in_hand; cbn;
  first [reflexivity
        | eapply omap_move; [eassumption|];
          first [reflexivity | match goal with k : caller |- _ => by destruct k end]].

Lemma delivery_step c acc a s s' :
  exclusive s -> stop_inv s -> delivery acc s -> step c a s = Some s' ->
  delivery (acc ++ accepts c a s) s'.
Proof.
  intros HE HS HD H. unfold accepts. pose proof HD as [dr [Heq Hdr]].
  pose proof (fun d pc => in_hand_now s d pc HE) as Hnow.
  pose proof (fun d pc => in_hand_sole s d pc HE) as Hsole.
  split_step H; cbv iota; rewrite ?app_nil_r;
    try (eapply (delivery_keep acc s); [done|reflexivity|in_hand_keep|
           first [reflexivity|apply fst_alter_publish]|cbn; done || congruence]).
  all: unfold delivery, in_hand; cbn -[Nat.ltb].
  (* the dequeue *)
  - exists dr. by rewrite Heq, (Hnow d _ Hd), (Hsole d _ Hd) by (cbn; lia).
  (* the receive *)
  - exists []. rewrite Heq, (Hnow d _ Hd), (Hsole d _ Hd), Hdr by (done || (cbn; lia)).
    cbn. by rewrite <- app_assoc.
  - exists (dr ++ [m]). rewrite Heq, (Hnow d _ Hd), (Hsole d _ Hd) by (cbn; lia). cbn.
    rewrite <- app_assoc. split; [done|congruence].
  - exists (dr ++ [m]). rewrite Heq, (Hnow d _ Hd), (Hsole d _ Hd) by (cbn; lia). cbn.
    rewrite <- app_assoc. split; [done|congruence].
  (* the drain *)
  - exists (dr ++ [n]). rewrite Heq, (Hnow d _ Hd), (Hsole d _ Hd) by (cbn; lia). cbn.
    rewrite <- app_assoc. split; [done|]. rewrite (finalizing_stopped s d _ HS Hd eq_refl). done.
  (* the claim *)
  - exists dr. rewrite fmap_app, Heq, fmap_app. cbn. by rewrite <- !app_assoc.
Qed.

Lemma run_delivery c nd nc acts s :
  tame c -> owner c < nd -> run (step c) acts (initial nd nc) = Some s ->
  delivery (accepted c acts (initial nd nc)) s.
Proof.
  intros Hw Ho. revert acts s. apply (run_invariant (step c)).
  - exists []. unfold in_hand. cbn. split; [|done]. clear Ho. by induction nd.
  - intros acts a s s' Hr HD H. unfold accepted. rewrite (collect_snoc c _ acts a _ s s') by done.
    assert (runner_inv c s) as [? _ ? _ _ _ _]
      by (by eapply reachable_runner_inv; eauto; eapply run_reaches).
    by eapply delivery_step.
Qed.

(** ** Every sender's messages in its own order *)

(** The message of a post still on its way to the mailbox. *)
Definition flight (pc : option kpc) : list nat :=
  match pc with Some (QLife m) | Some (QEnqueue m) => [m] | _ => [] end.

(** A step of thread [i] itself moves one message along; others do not touch it. *)
Lemma flight_step c a s s' k :
  step c a s = Some s' ->
  flight (clients s !! k) ++ posts k [a]
  = sent_by k (accepts c a s) ++ sent_by k (refuses c a s) ++ flight (clients s' !! k).
Proof.
  intros H. unfold accepts, refuses, posts, sent_by.
  split_step H; cbn -[Nat.ltb] in *; rewrite ?app_nil_r; try reflexivity.
  all: destruct (decide (k = i)) as [->|Hne];
    [rewrite ?list_lookup_insert_eq by (by eapply lookup_lt_Some)
    |rewrite ?list_lookup_insert_ne by congruence].
  all: try match goal with E : clients _ !! _ = _ |- _ => rewrite ?E end.
  all: cbn; rewrite ?app_nil_r; try reflexivity.
  all: repeat case_decide; rewrite ?app_nil_r; done.
Qed.

Lemma run_flight c nd nc acts s k :
  run (step c) acts (initial nd nc) = Some s ->
  let acc := accepted c acts (initial nd nc) in
  let ref := refused c acts (initial nd nc) in
  (sent_by k acc ++ flight (clients s !! k)) `sublist_of` posts k acts
  /\ (ref = [] -> posts k acts = sent_by k acc ++ flight (clients s !! k)).
Proof.
  cbn zeta. revert acts s. apply (run_invariant (step c)).
  - assert (flight (replicate nc KIdle !! k) = []) as E
      by (destruct (replicate nc KIdle !! k) eqn:E; [apply lookup_replicate in E as [-> _]|]; done).
    cbn. by rewrite E.
  - intros acts a s s' Hr [HS HE] H. unfold accepted, refused in *.
    rewrite !(collect_snoc c _ acts a _ s s'), posts_of_app, sent_by_app by done.
    pose proof (flight_step c a s s' k H) as Hf. split.
    + rewrite <- app_assoc. transitivity
        ((sent_by k (collect c (accepts c) acts (initial nd nc)) ++ flight (clients s !! k))
           ++ posts k [a]); [|by apply sublist_app].
      rewrite <- (app_assoc _ (flight _)), Hf. apply sublist_app; [done|].
      apply sublist_app; [done|]. by apply sublist_inserts_l.
    + intros [Hn1 Hn2]%app_nil. rewrite (HE Hn1), <- !app_assoc, Hf, Hn2. done.
Qed.

(** ** The mailbox the runner uses is the one the ring provides *)

(** What a step of the protocol does to the mailbox. *)
Definition mail_label (c : config) (a : action) (s : st) : mail_event nat :=
  match a with
  | Client i =>
      match clients s !! i with
      | Some (QEnqueue m) => if length (cells s) <? mailbox_capacity c then MClaim m else MFull
      | Some (QPublish pos) => MPublish pos
      | _ => MSilent
      end
  | Dispatch d _ =>
      match disp s !! d with
      | Some EDequeue | Some FDrain =>
          match cells s with (m, true) :: _ => MTake m | _ => MEmpty end
      | Some EPeek => MPeek (peek s)
      | _ => MSilent
      end
  | _ => MSilent
  end.

Lemma mailbox_step c a s s' :
  cells_inv s -> length (cells s) <= mailbox_capacity c -> step c a s = Some s' ->
  mail_step (mailbox_capacity c) (cells s, taken s) (mail_label c a s) (cells s', taken s')
  /\ length (cells s') <= mailbox_capacity c.
Proof.
  intros HC HL H. unfold mail_label.
  assert (forall b, peek s = b -> mail_step (mailbox_capacity c) (cells s, taken s) (MPeek b)
            (cells s, taken s)) as Hpk by (intros b <-; constructor).
  split_step H; (split; [|cbn -[alter]; rewrite ?length_app, ?length_alter; cbn in *; try lia]).
  all: cbn -[alter]; try match goal with E : cells _ = _ |- _ => rewrite ?E end.
  all: try (constructor; cbn in *; done || lia).
  all: try (by apply Hpk); try (cbn in *; lia).
  destruct (ce_held s HC i pos Hi) as [? [x Hx]]. by eapply mail_publish.
Qed.

(** The cells of every run are a run of the mailbox contract, the same that the
    concurrent ring refines. *)
Lemma runner_mail_trace c nd nc acts s :
  run (step c) acts (initial nd nc) = Some s ->
  mail_trace (mailbox_capacity c) ([], 0)
    (collect c (λ a s, [mail_label c a s]) acts (initial nd nc)) (cells s, taken s).
Proof.
  intros Hr. enough (mail_trace (mailbox_capacity c) ([], 0)
    (collect c (λ a s, [mail_label c a s]) acts (initial nd nc)) (cells s, taken s)
    /\ length (cells s) <= mailbox_capacity c /\ cells_inv s) by tauto.
  revert acts s Hr. apply (run_invariant (step c)).
  - split_and!; [constructor|cbn; lia|]. split; cbn; [done|..];
      intros i; [intros pos Hi|intros i' pos Hi]; by apply lookup_replicate in Hi as [? _].
  - intros acts a s s' Hr (HT & HL & HC) H. rewrite (collect_snoc c _ acts a _ s s') by done.
    destruct (mailbox_step c a s s' HC HL H) as [Hs HL'].
    split_and!; [by econstructor|done|by eapply cells_step].
Qed.

(** ** What the actor receives *)

Lemma quiescent_in_hand s : quiescent s -> in_hand s = [].
Proof.
  intros (Hd & _). unfold in_hand. induction (disp s) as [|pc l IH]; [done|].
  cbn. rewrite (Hd 0 pc eq_refl). apply IH. intros d x Hx. by apply (Hd (S d)).
Qed.

(** With nobody inside the runtime a running actor has received everything. *)
Lemma quiescent_delivered c nd nc acts s :
  tame c -> owner c < nd -> run (step c) acts (initial nd nc) = Some s ->
  quiescent s -> parked s = 0 -> life s = Running ->
  handled s = (accepted c acts (initial nd nc)).*2.
Proof.
  intros Hw Ho Hr Hq Hp Hl. destruct (run_delivery c nd nc acts s Hw Ho Hr) as [dr [Heq Hdr]].
  assert (reachable c nd nc s) as Hre by (by apply (run_reaches (step c) acts)).
  destruct (runner_no_lost_mail c nd nc s Hw Ho Hre Hq Hp ltac:(congruence)) as [Hc _].
  by rewrite Hc, (quiescent_in_hand s Hq), (Hdr Hl), !app_nil_r in Heq.
Qed.

(** C7.  An actor receives its mail exactly once and in order, if its futures are
    tame (each pending poll is followed by at most one wake, a completed one by
    none).  Over every run of posts, kills, wakes and executions, panics of
    [on_kill] and of the dead letter callback included: what [on_receive] was
    given is a prefix of the messages the mailbox accepted, in the order it
    accepted them; each sender's accepted messages are in the
    order it posted them; and when every thread has left the runtime, a running
    actor with no receive suspended for good has received every accepted
    message, and every posted one if no post was refused. *)
Theorem mail_delivered c nd nc acts s :
  tame c -> owner c < nd -> run (step c) acts (initial nd nc) = Some s ->
  let acc := accepted c acts (initial nd nc) in
  handled s `prefix_of` acc.*2
  /\ (forall k, sent_by k acc `sublist_of` posts k acts)
  /\ (quiescent s -> parked s = 0 -> life s = Running ->
        handled s = acc.*2
        /\ (refused c acts (initial nd nc) = [] -> forall k, sent_by k acc = posts k acts)).
Proof.
  intros Hw Ho Hr acc. pose proof (run_flight c nd nc acts s) as HF. fold acc in HF. split_and!.
  - destruct (run_delivery c nd nc acts s Hw Ho Hr) as [dr [Heq _]]. unfold acc. rewrite Heq.
    by apply prefix_app_r.
  - intros k. destruct (HF k Hr) as [HS _]. etransitivity; [|exact HS]. by apply sublist_inserts_r.
  - intros Hq Hp Hl. split; [by eapply quiescent_delivered|]. intros Hn k.
    destruct (HF k Hr) as [_ HE]. rewrite (HE Hn). destruct Hq as (_ & Hk & _).
    destruct (clients s !! k) as [pc|] eqn:E; [rewrite (Hk k pc E)|]; cbn; by rewrite app_nil_r.
Qed.

(** ** Witness: two senders race, and the actor receives all their messages *)
Definition roomy : config := mkConfig 0 4 1 0 false.

Definition racing_posts : list action :=
  [CallPost 0 10; CallPost 1 20; Client 0; Client 1; Client 1; Client 0; Client 0; Client 1]
  ++ [Client 1; Client 1; Client 1; Client 0; CallPost 0 11; Client 0; Client 0; Client 0; Client 0]
  ++ replicate 5 (Dispatch 0 NoChoice) ++ [Dispatch 0 Done]
  ++ replicate 2 (Dispatch 0 NoChoice) ++ [Dispatch 0 Done]
  ++ replicate 2 (Dispatch 0 NoChoice) ++ [Dispatch 0 Done]
  ++ replicate 4 (Dispatch 0 NoChoice).

Definition all_received : st := Eval vm_compute in state_after roomy 1 2 racing_posts.

Lemma mail_delivered_witness :
  handled all_received = [20; 10; 11]
  /\ forall k, sent_by k (accepted roomy racing_posts (initial 1 2)) = posts k racing_posts.
Proof.
  destruct (mail_delivered roomy 1 2 racing_posts all_received) as (_ & _ & H);
    [split; [apply le_n|reflexivity]|apply Nat.lt_0_1|vm_compute; reflexivity|].
  destruct H as [E Hk]; [|reflexivity|reflexivity|].
  - split; [|split; [|split; [|reflexivity]]].
    + intros [|d] pc Hd; by simplify_eq/=.
    + intros [|[|i]] pc Hi; by simplify_eq/=.
    + intros [|d] n Hn; by simplify_eq/=.
  - split; [exact E|]. apply Hk. vm_compute. reflexivity.
Defined.
