(* ===== verification/RunnerProgress.v ===== *)
(** The runtime comes to rest.  Once nobody posts, kills or wakes any more, the
    threads inside [RunnerProtocol] make at most [work s] further steps, none of
    them can be blocked, and what they leave behind is an actor that has received
    its mail.  [work] is the potential that proves it. *)
From S2P Require Import Prelude RunnerProtocol RunnerInvariant RunnerTheorems RunnerMail.
Local Open Scope nat_scope.

(** ** The work left

    A queued reference costs the steps of one empty execution; a suspended
    future those of the poll that ends it and of the execution it schedules; a
    message those of its receive, with a suspension and a kill; an unpublished
    message also those of the execution that its publication can cause. *)
Definition queued_work : nat := 15.
Definition armed_work : nat := 27.
Definition recheck_work : nat := 17.
Definition message_work : nat := 73.
Definition unpublished_work : nat := 90.

Definition loop_work (k : caller) (n : nat) : nat :=
  match k with FromLoop => n | FromPending => 0 end.

Definition exec_work (pc : epc) : nat :=
  match pc with
  | EIdle | EDead _ => 0
  | EPollUnlock | EPeek | FFinalize => 1
  | EStore | FOnKill => 2
  | FClearReset => 3 | FClearActive => 4 | FClearSlot => 5 | FDrain => 6 | FSwap => 7
  | EEndLife => 8 | EDequeue => 9 | ELife => 10
  | EPollEmpty _ => 11
  | EPolling k => 11 + loop_work k 36
  | EPollLock k => 12 + loop_work k 36
  | EPollReset k => 13 + loop_work k 36
  | EActive => 14
  | ESched | ECallback | EResched => 16
  | ESwap | EReady2 => 17
  | EReady1 => 18
  | EPublish k => 17 + loop_work k 9
  | EKillSched k => 33 + loop_work k 9
  | EKillSwap k => 34 + loop_work k 9
  | EKillCas k => 35 + loop_work k 9
  | EFail2 k => 36 + loop_work k 9
  | EFail1 k => 37 + loop_work k 9
  | EArmReset => 50 | EArmActive => 51 | EArmSlot => 79 | EReceive _ => 80 | ECheck _ => 81
  end.

(** Threads past the last dequeue that will still look at the mailbox. *)
Definition rechecking (pc : epc) : nat :=
  match pc with EEndLife | EStore | EPeek => 1 | _ => 0 end.

(** If the mailbox shows them a message, they will schedule the actor again. *)
Definition rechecks_work (published : bool) (threads : nat) : nat :=
  if published then recheck_work * threads else 0.

Definition client_work (pc : kpc) : nat :=
  match pc with
  | KIdle => 0
  | QSched | KSched | WSched _ => 16
  | QSwap | KSwap | WCas _ => 17
  | QLoad | KCas | WActive _ => 18
  | QPublish _ => 19
  | QEnqueue _ => 20 + unpublished_work
  | QLife _ => 21 + unpublished_work
  end.

Definition cell_work (cell : nat * bool) : nat :=
  if cell.2 then message_work else unpublished_work.

Definition future_work (armed : bool) : nat := if armed then armed_work else 0.

Definition work (s : st) : nat :=
  sum_list_with cell_work (cells s) + future_work (armed s)
  + queued_work * sum_list_with id (queues s)
  + sum_list_with exec_work (disp s)
  + rechecks_work (peek s) (sum_list_with rechecking (disp s)) + sum_list_with client_work (clients s).

(** A step of a thread already inside the runtime. *)
Definition internal (a : action) : bool :=
  match a with Dispatch _ _ | Client _ => true | _ => false end.

(** ** Every internal step does some of it *)

(** Only the actor's own dispatcher rechecks. *)
Lemma rechecking_sole c s : flags_inv c s -> sum_list_with rechecking (disp s) <= 1.
Proof.
  intros HF. assert (forall d pc, disp s !! d = Some pc -> 0 < rechecking pc -> d = owner c) as Ho.
  { intros d pc Hd Hr. apply (fl_disp c s HF d pc Hd). by destruct pc; cbn in Hr |- *; try lia. }
  clear HF. revert Ho. generalize (owner c) as o. induction (disp s) as [|pc l IH]; intros o Ho;
    cbn; [lia|].
  assert (rechecking pc <= 1) by (destruct pc; cbn; lia).
  assert (rechecking pc = 0 \/ sum_list_with rechecking l = 0) as Hor.
  { destruct (decide (rechecking pc = 0)) as [|Hp]; [by left|right]. apply sum_list_with_zero.
    intros d x Hx. pose proof (Ho 0 pc eq_refl ltac:(lia)). specialize (Ho (S d) x Hx). lia. }
  enough (sum_list_with rechecking l <= 1) by lia. apply (IH (o - 1)).
  intros d x Hd Hx. specialize (Ho (S d) x Hd Hx). lia.
Qed.

Lemma cell_work_publish (l : list (nat * bool)) k :
  sum_list_with cell_work (alter (λ cell : nat * bool, (cell.1, true)) k l)
  + (match l !! k with Some (_, false) => recheck_work | _ => 0 end)
  = sum_list_with cell_work l.
Proof.
  revert k. induction l as [|[m b] l IH]; intros [|k]; [done..| |].
  - destruct b; cbn; unfold recheck_work; lia.
  - specialize (IH k). change (alter ?f (S k) (?x :: l)) with (x :: alter f k l).
    change (((m, b) :: l) !! S k) with (l !! k). cbn [sum_list_with]. lia.
Qed.

(** A step that leaves the cells alone. *)
Lemma work_move c a s s' :
  flags_inv c s -> internal a = true -> step c a s = Some s' -> cells s' = cells s ->
  work s' < work s.
Proof.
  intros HF Ha H Hc. unfold work. assert (peek s' = peek s) as -> by (unfold peek; by rewrite Hc).
  assert (forall d k, disp s !! d = Some (EPolling k) -> armed s = true) as Hpoll
    by (intros d k Hd; by destruct (fl_disp c s HF d _ Hd) as [[[_ ?] _] _]).
  rewrite Hc. generalize (sum_list_with cell_work (cells s)) as cw. intros cw.
  split_step H; try discriminate Ha; cbn -[Nat.mul] in *; sum_facts.
  all: try match goal with k : caller |- _ => destruct k end.
  all: try match goal with E : disp _ !! ?d = Some (EPolling ?k) |- _ => rewrite (Hpoll d k E) end.
  all: unfold id, queued_work, future_work, rechecks_work, armed_work, recheck_work in *;
    cbn -[Nat.mul] in *.
  all: try lia.
  all: repeat match goal with |- context [if ?b then _ else _] => destruct b eqn:? end; try lia.
  all: unfold peek in *; try (repeat case_match; congruence).
  all: apply (f_equal length) in Hc; rewrite ?H0 in Hc; cbn in Hc; lia.
Qed.

(** The work of a state with other cells, one dispatcher thread moved. *)
Lemma work_take s s' d pc pc' m rest :
  cells s = (m, true) :: rest -> disp s !! d = Some pc -> rechecking pc' <= rechecking pc ->
  exec_work pc' < exec_work pc + message_work ->
  cells s' = rest -> disp s' = <[d := pc']> (disp s) -> armed s' = armed s ->
  queues s' = queues s -> clients s' = clients s -> work s' < work s.
Proof.
  intros Hc Hd Hr Hw Hc' Hd' Ha Hq Hk. unfold work. rewrite Hc, Hc', Hd', Ha, Hq, Hk.
  assert (peek s = true) as -> by (unfold peek; by rewrite Hc).
  pose proof (sum_list_with_insert exec_work (disp s) d pc pc' Hd).
  pose proof (sum_list_with_insert rechecking (disp s) d pc pc' Hd).
  change (sum_list_with cell_work ((m, true) :: rest)) with (message_work + sum_list_with cell_work rest).
  assert (rechecks_work (peek s') (sum_list_with rechecking (<[d:=pc']> (disp s)))
          <= rechecks_work true (sum_list_with rechecking (disp s)))
    by (unfold rechecks_work, recheck_work; destruct (peek s'); lia).
  lia.
Qed.

Lemma work_claim s i m m' :
  clients s !! i = Some (QEnqueue m) ->
  work (set_client i (QPublish m') (set_cells (λ l, l ++ [(m, false)]) s)) < work s.
Proof.
  intros Hi. unfold work, peek. cbn [set_client set_cells cells armed queues disp clients].
  pose proof (sum_list_with_insert client_work (clients s) i _ (QPublish m') Hi) as Hs.
  cbn -[Nat.mul] in Hs. rewrite sum_list_with_app. cbn -[Nat.mul queued_work].
  unfold unpublished_work, cell_work in *.
  assert ((match cells s ++ [(m, false)] with (_, true) :: _ => true | _ => false end)
          = (match cells s with (_, true) :: _ => true | _ => false end)) as ->
    by (by destruct (cells s) as [|[? []] ?]).
  cbn. lia.
Qed.

Lemma work_publish c s i pos :
  flags_inv c s -> clients s !! i = Some (QPublish pos) ->
  work (set_client i QLoad
          (set_cells (alter (λ cell : nat * bool, (cell.1, true)) (pos - taken s)) s)) < work s.
Proof.
  intros HF Hi. unfold work. cbn [set_client set_cells cells armed queues disp clients].
  pose proof (sum_list_with_insert client_work (clients s) i _ QLoad Hi) as Hs. cbn -[Nat.mul] in Hs.
  pose proof (cell_work_publish (cells s) (pos - taken s)) as Hc.
  pose proof (rechecking_sole c s HF) as Hr.
  assert (rechecks_work (peek (set_client i QLoad (set_cells
             (alter (λ cell : nat * bool, (cell.1, true)) (pos - taken s)) s)))
            (sum_list_with rechecking (disp s))
          <= rechecks_work (peek s) (sum_list_with rechecking (disp s))
             + match cells s !! (pos - taken s) with Some (_, false) => recheck_work | _ => 0 end).
  { unfold peek. cbn. destruct (cells s) as [|[m b] rest]; [by destruct (pos - taken s); cbn; lia|].
    destruct (pos - taken s) as [|k].
    - destruct b; cbn -[Nat.mul]; unfold recheck_work; lia.
    - destruct b; cbn -[Nat.mul]; lia. }
  lia.
Qed.

Lemma work_step c a s s' :
  flags_inv c s -> internal a = true -> step c a s = Some s' -> work s' < work s.
Proof.
  intros HF Ha H. pose proof H as H0. split_step H; try discriminate Ha;
    try (eapply (work_move c); [done| |exact H0|reflexivity]; done).
  - eapply (work_take s _ d _ (ECheck _)); [eassumption|exact Hd|cbn; lia|unfold message_work; cbn; lia|reflexivity..].
  - eapply (work_take s _ d _ FDrain); [eassumption|exact Hd|cbn; lia|unfold message_work; cbn; lia|reflexivity..].
  - by apply work_claim.
  - by eapply work_publish.
Qed.

Lemma run_work c more s s' :
  tame c -> runner_inv c s -> Forall (λ a, internal a = true) more ->
  run (step c) more s = Some s' -> length more + work s' <= work s /\ runner_inv c s'.
Proof.
  intros Hw. revert s. induction more as [|a more IH]; intros s HI HF Hr; simplify_eq/=; [by split|].
  apply Forall_cons in HF as [Ha HF]. destruct (step c a s) as [s1|] eqn:E; [|done].
  pose proof (work_step c a s s1 (ri_flags c s HI) Ha E).
  destruct (IH s1 (runner_inv_step c a s s1 Hw HI E) HF Hr). split; [lia|done].
Qed.

(** ** Nobody is blocked *)

(** The slot's mutex is held by a thread that can go on. *)
Definition holds_slot (pc : epc) : bool :=
  match pc with EPollEmpty _ | EPolling _ | EPollUnlock => true | _ => false end.

Definition lock_held (s : st) : Prop :=
  forall d, locked s = Some d -> exists pc, disp s !! d = Some pc /\ holds_slot pc = true.

Lemma lock_held_step c a s s' : lock_held s -> step c a s = Some s' -> lock_held s'.
Proof.
  unfold lock_held. intros HI H. split_step H; cbn; intros d' Hd'; simplify_eq; try by apply HI.
  all: try (eexists; split; [apply list_lookup_insert_eq; by eapply lookup_lt_Some|done]).
  all: destruct (HI d' Hd') as (pc' & Hpc & Hh); destruct (decide (d' = d)) as [->|Hne];
    [|exists pc'; by rewrite list_lookup_insert_ne].
  all: rewrite Hd in Hpc; simplify_eq/=; try done.
  all: eexists; split; [apply list_lookup_insert_eq; by eapply lookup_lt_Some|done].
Qed.

(** If nothing unwinds, no thread dies. *)
Definition none_dead (s : st) : Prop := forall d in_kill, disp s !! d <> Some (EDead in_kill).

Lemma none_dead_step c a s s' :
  unwinds c = false -> none_dead s -> step c a s = Some s' -> none_dead s'.
Proof.
  intros Hu HI H d0 b0 Hd0. apply (HI d0 b0). split_step H; try congruence; try exact Hd0.
  all: cbn in Hd0; apply (lookup_insert_cases _ _ _ _ _ _ Hd) in Hd0 as [[-> Hb]|[_ Hd0]]; try exact Hd0.
  all: try match goal with k : caller |- _ => destruct k end; repeat case_match; done.
Qed.

(** A thread inside [execute] can move unless it waits for the slot. *)
Lemma exec_enabled c d pc s :
  pc <> EIdle -> (forall b, pc <> EDead b) -> locked s = None \/ holds_slot pc = true -> exists u s', exec_step c d pc u s = Some s'.
Proof.
  intros Hne Hnd [Hl|Hh]; destruct pc; try done; try (by destruct (Hnd in_kill)); cbn; rewrite ?Hl.
  all: try (exists NoChoice; eexists; reflexivity).
  all: try (exists (PollReady 0); eexists; reflexivity).
  all: try (exists Done; eexists; reflexivity).
  all: exists NoChoice; repeat case_match; eexists; reflexivity.
Qed.

Lemma client_enabled c i pc s : pc <> KIdle -> exists s', client_step c i pc s = Some s'.
Proof. destruct pc; try done; intros _; cbn -[Nat.ltb]; repeat case_match; eexists; reflexivity. Qed.

(** Nobody is inside the runtime and nothing is scheduled. *)
Definition at_rest (s : st) : Prop :=
  (forall d pc, disp s !! d = Some pc -> pc = EIdle)
  /\ (forall i pc, clients s !! i = Some pc -> pc = KIdle)
  /\ (forall d n, queues s !! d = Some n -> n = 0).

Lemma epc_idle_dec (pc : epc) : {pc = EIdle} + {pc <> EIdle}.
Proof. destruct pc; first [by left|by right]. Defined.
Lemma kpc_idle_dec (pc : kpc) : {pc = KIdle} + {pc <> KIdle}.
Proof. destruct pc; first [by left|by right]. Defined.

(** Either everything is at rest or some thread inside can move. *)
Lemma rest_or_step c s :
  flags_inv c s -> lock_held s -> none_dead s ->
  at_rest s \/ exists a s', internal a = true /\ step c a s = Some s'.
Proof.
  intros HF HL HN.
  assert (forall d pc, disp s !! d = Some pc -> pc <> EIdle ->
            locked s = None \/ holds_slot pc = true ->
            exists a s', internal a = true /\ step c a s = Some s') as Hd.
  { intros d pc Hd Hne Hl. 
    destruct (exec_enabled c d pc s Hne) as (u & s' & E); [|done|].
    { intros b ->. by apply (HN d b). }
    exists (Dispatch d u), s'. cbn. by rewrite Hd. }
  destruct (locked s) as [d|] eqn:El.
  { destruct (HL d El) as (pc & Hpc & Hh). right. apply (Hd d pc Hpc); [by intros ->|by right]. }
  destruct (Forall_Exists_dec _ _ epc_idle_dec (disp s)) as [Hidle|Hex]; cycle 1.
  { apply Exists_exists in Hex as (pc & [d Hpc]%list_elem_of_lookup & Hne). right. eauto. }
  destruct (Forall_Exists_dec _ _ kpc_idle_dec (clients s)) as [Hkid|Hex]; cycle 1.
  { apply Exists_exists in Hex as (pc & [i Hpc]%list_elem_of_lookup & Hne). right.
    destruct (client_enabled c i pc s Hne) as [s' E]. exists (Client i), s'. cbn. by rewrite Hpc. }
  rewrite Forall_lookup in Hidle. rewrite Forall_lookup in Hkid.
  destruct (Forall_Exists_dec (λ n, n = 0) (λ n, n <> 0) (λ n, decide (n = 0)) (queues s))
    as [Hq|Hex]; [left; rewrite Forall_lookup in Hq; by split_and!|].
  apply Exists_exists in Hex as ([|n] & [d Hq]%list_elem_of_lookup & Hne); [done|]. right.
  destruct (fl_owner c s HF) as [_ Hlen].
  destruct (lookup_lt_is_Some_2 (disp s) d) as [pc Hpc];
    [rewrite <- Hlen; by eapply lookup_lt_Some|].
  eexists (Dispatch d NoChoice), _. cbn. rewrite Hpc. cbn. rewrite (Hidle d pc Hpc). cbn.
  by rewrite Hq.
Qed.

Lemma run_lock_held c nd nc acts s :
  run (step c) acts (initial nd nc) = Some s -> lock_held s.
Proof.
  revert acts s. apply (run_invariant (step c)); [done|].
  intros acts a s s' _ HL H. by eapply lock_held_step.
Qed.

Lemma run_none_dead c nd nc acts s :
  unwinds c = false -> run (step c) acts (initial nd nc) = Some s -> none_dead s.
Proof.
  intros Hu. revert acts s. apply (run_invariant (step c)).
  - intros d b Hd. by apply lookup_replicate in Hd as [? _].
  - intros acts a s s' _ HN H. by eapply none_dead_step.
Qed.

Lemma reaches_rest c s :
  tame c -> unwinds c = false -> runner_inv c s -> lock_held s -> none_dead s ->
  exists more s', Forall (λ a, internal a = true) more /\ run (step c) more s = Some s' /\ at_rest s'.
Proof.
  intros Hw Hu. remember (work s) as n eqn:En. revert s En.
  induction (lt_wf n) as [n _ IH]. intros s -> HI HL HN.
  destruct (rest_or_step c s (ri_flags c s HI) HL HN) as [Hr|(a & s1 & Ha & Hs)].
  - exists [], s. by split_and!.
  - destruct (IH (work s1) (work_step c a s s1 (ri_flags c s HI) Ha Hs) s1 eq_refl)
      as (more & s' & HF & Hr & Hrest);
      [by eapply runner_inv_step|by eapply lock_held_step|by eapply none_dead_step|].
    exists (a :: more), s'. split_and!; [by constructor|cbn; by rewrite Hs|done].
Qed.

(** C11.  The runtime comes to rest and the mail is received, if the actor's
    futures are tame (each pending poll is followed by at most one wake, a
    completed one by none) and neither [on_kill] nor the dead letter callback
    panics.  After any run, once nobody posts, kills or wakes, the threads inside
    make at most [work s] more steps, however they are scheduled; they can always
    go on until all have left and nothing is scheduled; and in any such rest
    state with no wake outstanding and no poll that owes none (a receive that
    nobody will ever wake), a running actor has received every message its
    mailbox accepted, in order. *)
Theorem runtime_settles c nd nc acts s :
  tame c -> unwinds c = false -> owner c < nd -> run (step c) acts (initial nd nc) = Some s ->
  (forall more s', Forall (λ a, internal a = true) more -> run (step c) more s = Some s' ->
     length more <= work s
     /\ (at_rest s' \/ exists a s'', internal a = true /\ step c a s' = Some s'')
     /\ (at_rest s' -> wakes s' = 0 -> parked s' = 0 -> life s' = Running ->
         handled s' = (accepted c (acts ++ more) (initial nd nc)).*2))
  /\ exists more s', Forall (λ a, internal a = true) more /\ run (step c) more s = Some s'
       /\ at_rest s'.
Proof.
  intros Hw Hu Ho Hr.
  assert (runner_inv c s) as HI by (by eapply reachable_runner_inv; eauto; eapply run_reaches).
  pose proof (run_lock_held c nd nc acts s Hr) as HL.
  pose proof (run_none_dead c nd nc acts s Hu Hr) as HN. split; [|by apply reaches_rest].
  intros more s' HF Hm. destruct (run_work c more s s' Hw HI HF Hm) as [Hle HI'].
  assert (run (step c) (acts ++ more) (initial nd nc) = Some s') as Hrm
    by (by rewrite run_app, Hr).
  split_and!; [lia|apply rest_or_step; [apply HI'|by eapply run_lock_held|by eapply run_none_dead]|].
  intros (Hd & Hc & Hq) Hwk Hp Hl. assert (quiescent s') as Hqs by (by split_and!).
  by eapply quiescent_delivered.
Qed.

(** ** Witness: two posts under way when the callers go silent *)
Definition two_under_way : list action := take 8 racing_posts.
Definition under_way : st := Eval vm_compute in state_after roomy 1 2 two_under_way.

Lemma runtime_settles_witness :
  work under_way = 182 /\ exists more s', run (step roomy) more under_way = Some s' /\ at_rest s'.
Proof.
  split; [vm_compute; reflexivity|].
  destruct (runtime_settles roomy 1 2 two_under_way under_way) as [_ (more & s' & _ & H)];
    [split; [apply le_n|reflexivity]|reflexivity|apply Nat.lt_0_1|vm_compute; reflexivity|].
  exists more, s'. exact H.
Defined.
