(* ===== verification/StoreBuffers.v ===== *)
(** The hand-over between [enqueue_only] and the end of [execute]
    ([dignus-actor-core/src/internals/actor_runner.rs],
    [queues/mpsc_bounded_queue.rs]) on a machine with store buffers.

    [RunnerProtocol] interleaves sequentially consistent steps.  The source uses
    [Release] stores and [Acquire] loads, which x86 compiles to plain moves: a
    store waits in its thread's FIFO buffer, invisible to the other thread, while
    the thread's later loads go to memory; read-modify-write operations empty the
    buffer first.  The producer publishes its slot and then loads
    [is_scheduled]; the consumer stores [is_scheduled] and then peeks the slot.
    The model has exactly these two threads, one message, and a flag [fenced]
    that empties the buffers between the store and the load. *)
From S2P Require Import Prelude.

Inductive loc : Type := SlotSequence | IsScheduled.
#[export] Instance loc_eq_dec : EqDecision loc.
Proof. solve_decision. Defined.

(** The producer: [try_enqueue]'s publishing store, then [enqueue_only]'s test,
    then [schedule_self]. *)
Inductive tppc : Type := PStore | PLoad | PSwap | PSchedule | PDone.
(** The consumer: the end of [execute]. *)
Inductive tcpc : Type := CStore | CPeek | CSwap | CSchedule | CDone.
#[export] Instance tppc_eq_dec : EqDecision tppc.
Proof. solve_decision. Defined.
#[export] Instance tcpc_eq_dec : EqDecision tcpc.
Proof. solve_decision. Defined.

Record tso : Type := mkTso {
  sequence_ready : bool;            (** memory: the slot's sequence says it is full *)
  scheduled_flag : bool;            (** memory: [is_scheduled] *)
  pbuf : list (loc * bool);         (** store buffers, oldest first *)
  cbuf : list (loc * bool);
  ppoint : tppc;
  cpoint : tcpc;
  times_scheduled : nat;            (** references put into the dispatcher's queue *)
}.
#[export] Instance tso_eq_dec : EqDecision tso.
Proof. solve_decision. Defined.

(** The actor is executing (its flag is up), its mailbox is empty, a producer
    has claimed a slot and written its data. *)
Definition tso_initial : tso := mkTso false true [] [] PStore CStore 0.

Definition write_mem (e : loc * bool) (m : tso) : tso :=
  match e with
  | (SlotSequence, b) =>
      mkTso b (scheduled_flag m) (pbuf m) (cbuf m) (ppoint m) (cpoint m) (times_scheduled m)
  | (IsScheduled, b) =>
      mkTso (sequence_ready m) b (pbuf m) (cbuf m) (ppoint m) (cpoint m) (times_scheduled m)
  end.

(** A load sees the thread's own newest buffered store, else memory. *)
Definition load (buf : list (loc * bool)) (l : loc) (m : tso) : bool :=
  match last (filter (λ e, e.1 = l) buf) with
  | Some e => e.2
  | None => match l with SlotSequence => sequence_ready m | IsScheduled => scheduled_flag m end
  end.

Inductive tact : Type := Producer | Consumer | FlushProducer | FlushConsumer.

Definition tso_step (fenced : bool) (a : tact) (m : tso) : option tso :=
  let 'mkTso q f pb cb p c n := m in
  match a with
  | FlushProducer =>
      match pb with e :: rest => Some (write_mem e (mkTso q f rest cb p c n)) | [] => None end
  | FlushConsumer =>
      match cb with e :: rest => Some (write_mem e (mkTso q f pb rest p c n)) | [] => None end
  | Producer =>
      match p with
      | PStore => Some (mkTso q f (pb ++ [(SlotSequence, true)]) cb PLoad c n)
      | PLoad =>
          if fenced && negb (bool_decide (pb = [])) then None
          else Some (mkTso q f pb cb (if load pb IsScheduled m then PDone else PSwap) c n)
      | PSwap =>
          if bool_decide (pb = [])
          then Some (mkTso q true pb cb (if f then PDone else PSchedule) c n) else None
      | PSchedule => Some (mkTso q f pb cb PDone c (S n))
      | PDone => None
      end
  | Consumer =>
      match c with
      | CStore => Some (mkTso q f pb (cb ++ [(IsScheduled, false)]) p CPeek n)
      | CPeek =>
          if fenced && negb (bool_decide (cb = [])) then None
          else Some (mkTso q f pb cb p (if load cb SlotSequence m then CSwap else CDone) n)
      | CSwap =>
          if bool_decide (cb = [])
          then Some (mkTso q true pb cb p (if f then CDone else CSchedule) n) else None
      | CSchedule => Some (mkTso q f pb cb p CDone (S n))
      | CDone => None
      end
  end.

Definition tso_reachable (fenced : bool) (m : tso) : Prop :=
  rtc (step_of (tso_step fenced)) tso_initial m.

(** Both threads have returned and every store has reached memory. *)
Definition quiet (m : tso) : Prop :=
  ppoint m = PDone /\ cpoint m = CDone /\ pbuf m = [] /\ cbuf m = [].
#[export] Instance quiet_dec m : Decision (quiet m).
Proof. unfold quiet. apply _. Defined.

(** ** Finite state spaces

    A list that is closed under the steps contains every reachable state. *)
Section closure.
Context {St Act : Type} `{!EqDecision St} (step : Act -> St -> option St) (acts : list Act).

Definition successors (s : St) : list St := omap (λ a, step a s) acts.

Fixpoint explore (fuel : nat) (todo seen : list St) : list St :=
  match fuel, todo with
  | S fuel', s :: rest =>
      if decide (s ∈ seen) then explore fuel' rest seen
      else explore fuel' (successors s ++ rest) (s :: seen)
  | _, _ => seen
  end.

Definition closed (l : list St) : bool :=
  forallb (λ s, forallb (λ s', bool_decide (s' ∈ l)) (successors s)) l.

Lemma closed_reachable l s s' :
  (forall a, a ∈ acts) -> closed l = true -> s ∈ l -> rtc (step_of step) s s' -> s' ∈ l.
Proof.
  intros Hacts Hc Hs Hr. revert Hs.
  apply (invariant_reachable step (λ x, x ∈ l)); [|done].
  intros a x x' Hx Hstep. unfold closed in Hc. rewrite forallb_forall in Hc.
  specialize (Hc x (proj1 (list_elem_of_In _ _) Hx)). rewrite forallb_forall in Hc.
  assert (x' ∈ successors x) as Hin by (apply list_elem_of_omap; exists a; auto).
  specialize (Hc x' (proj1 (list_elem_of_In _ _) Hin)). by apply bool_decide_eq_true in Hc.
Qed.
End closure.

Definition tacts : list tact := [Producer; Consumer; FlushProducer; FlushConsumer].

Definition fenced_states : list tso :=
  Eval vm_compute in explore (tso_step true) tacts 500 [tso_initial] [].

(** C30.  On store buffers the hand-over can lose the wakeup.  Both stores wait in
    their buffers while both loads read the old values: the producer believes
    the actor is scheduled, the consumer believes the mailbox is empty.  Both
    return, the stores land, and the message lies in the mailbox of an actor
    that is not scheduled and that nobody has scheduled. *)
Theorem store_buffers_lose_wakeup :
  exists m, tso_reachable false m /\ quiet m /\ sequence_ready m = true
    /\ scheduled_flag m = false /\ times_scheduled m = 0%nat.
Proof.
  exists (mkTso true false [] [] PDone CDone 0). split.
  - apply (run_reaches (tso_step false)
      [Producer; Consumer; Producer; Consumer; FlushProducer; FlushConsumer]).
    vm_compute. reflexivity.
  - split_and!; [|done..]. repeat split.
Qed.

(** With a full fence between each side's store and load the hand-over is
    sound: whenever both threads have returned and the stores have landed, the
    published message's actor has been scheduled exactly once and its flag says
    so. *)
Theorem fenced_hand_over (m : tso) :
  tso_reachable true m -> quiet m ->
  sequence_ready m = true /\ scheduled_flag m = true /\ times_scheduled m = 1%nat.
Proof.
  intros Hr Hq.
  assert (m ∈ fenced_states) as Hin.
  { apply (closed_reachable (tso_step true) tacts fenced_states tso_initial).
    - intros []; unfold tacts; set_solver.
    - vm_compute. reflexivity.
    - apply (bool_decide_unpack _). vm_compute. exact I.
    - exact Hr. }
  assert (Forall (λ m, quiet m ->
    sequence_ready m = true /\ scheduled_flag m = true /\ times_scheduled m = 1%nat) fenced_states) as Hall.
  { apply (bool_decide_unpack _). vm_compute. exact I. }
  rewrite Forall_forall in Hall. by apply Hall.
Qed.

Lemma fenced_hand_over_witness :
  exists m, tso_reachable true m /\ quiet m /\ times_scheduled m = 1%nat.
Proof.
  exists (mkTso true true [] [] PDone CDone 1).
  assert (tso_reachable true (mkTso true true [] [] PDone CDone 1)) as H.
  { apply (run_reaches (tso_step true)
      [Producer; FlushProducer; Producer; Consumer; FlushConsumer; Consumer; Consumer; Consumer]).
    vm_compute. reflexivity. }
  split; [exact H|]. split; [repeat split|].
  apply (fenced_hand_over _ H). repeat split.
Defined.
