(* ===== verification/PollDriver.v ===== *)
(** The poll driver ([dignus-actor-core/src/poll_driver.rs]) one call at a time:
    the slot with the pending future and its completion callback, the two
    flags, and [poll].  The future is user code: [poll_future] says what one
    poll of it does to a world [W].  The last part relates the calls to the
    interleaved protocol of [RunnerProtocol]. *)
From S2P Require Import Prelude RunnerProtocol.

Inductive PollOutcome : Type := Ready | Pending | Failed | Idle.

(** What [catch_unwind(|| future.poll(..))] gives. *)
Inductive future_result : Type := FutReady | FutPending | FutPanicked.

Section driver.
Context {F W : Type} (poll_future : F -> W -> future_result * F * W).

(** A completion callback is an action on the world. *)
Record PollDriver : Type := mkDriver {
  is_active : bool;
  is_poll_scheduled : bool;
  slot : option (F * option (W -> W));
}.

Definition driver_new : PollDriver := mkDriver false false None.

(** [Default], and the load of [is_active]. *)
Definition driver_default : PollDriver := driver_new.
Definition driver_is_active (p : PollDriver) : bool := is_active p.

Definition arm (future : F) (on_complete : option (W -> W)) (p : PollDriver) : PollDriver :=
  mkDriver true false (Some (future, on_complete)).

Definition clear (p : PollDriver) : PollDriver := mkDriver false false None.

Definition try_mark_poll_scheduled (p : PollDriver) : bool * PollDriver :=
  if is_active p
  then if is_poll_scheduled p then (false, p) else (true, mkDriver (is_active p) true (slot p))
  else (false, p).

(** The callback runs after the slot's lock is released and the flags are down. *)
Definition poll (p : PollDriver) (w : W) : PollOutcome * PollDriver * W :=
  let p1 := mkDriver (is_active p) false (slot p) in
  match slot p1 with
  | None => (Idle, mkDriver false (is_poll_scheduled p1) None, w)
  | Some (future, on_complete) =>
      match poll_future future w with
      | (FutPending, future', w') =>
          (Pending, mkDriver (is_active p1) (is_poll_scheduled p1) (Some (future', on_complete)), w')
      | (FutReady, _, w') =>
          (Ready, mkDriver false false None, match on_complete with Some f => f w' | None => w' end)
      | (FutPanicked, _, w') => (Failed, mkDriver false false None, w')
      end
  end.
End driver.
Arguments PollDriver F W : clear implicits.

(** ** The protocol's steps, run without interference *)
Section solo.

(** The protocol's driver state as a driver: the future is a token, and its
    world is the protocol state itself. *)
Definition driver_of (s : st) : PollDriver unit st :=
  mkDriver (RunnerProtocol.is_active s) (RunnerProtocol.is_poll_scheduled s)
    (if armed s then Some ((), None) else None).

(** What user code's choice means for one poll. *)
Definition choice_future (c : config) (u : choice) (_ : unit) (s : st) : future_result * unit * st :=
  match u with
  | PollPending w =>
      (FutPending, (), set_wakes (wakes s + w) (match w with O => S (parked s) | _ => parked s end) s)
  | PollReady w => (FutReady, (), set_wakes (wakes s + w) (parked s) s)
  | PollPanics w => (FutPanicked, (), set_wakes (wakes s + w) (parked s) s)
  | _ => (FutPanicked, (), s)
  end.

Definition poll_choice (c : config) (u : choice) : bool :=
  match u with
  | PollPending w => (w <=? max_wakes c)%nat
  | PollReady w | PollPanics w => (w <=? late_wakes c)%nat
  | _ => false
  end.

(** Steps of dispatcher thread [d] alone. *)
Definition solo (c : config) (d : nat) (us : list choice) (s : st) : option st :=
  run (step c) (Dispatch d <$> us) s.

(** The choices one call of [poll] makes, and the point it leaves the thread at. *)
Definition poll_script (u : choice) (s : st) : list choice :=
  NoChoice :: NoChoice ::
  (if armed s
   then u :: match u with PollPending _ => [NoChoice] | _ => [NoChoice; NoChoice] end
   else [NoChoice]).

Definition after_poll (k : caller) (o : PollOutcome) : epc :=
  match o with
  | Ready => ECallback
  | Pending => EIdle
  | Failed => EKillCas k
  | Idle => after_idle k
  end.

Lemma solo_cons c d u us s pc s1 :
  disp s !! d = Some pc -> exec_step c d pc u s = Some s1 ->
  solo c d (u :: us) s = solo c d us s1.
Proof. intros Hd Hs. unfold solo. cbn. rewrite Hd. cbn. by rewrite Hs. Qed.

(** The poll driver's [poll] is what the interleaved protocol does when no
    other thread interferes: run alone from the call of [poll], a dispatcher
    thread ends with the flags and the slot that [poll] computes, the slot
    unlocked, and at the program point that [poll]'s answer selects. *)
Theorem poll_solo (c : config) (d : nat) (k : caller) (u : choice) (s : st) :
  disp s !! d = Some (EPollReset k) -> locked s = None -> poll_choice c u = true ->
  exists s', solo c d (poll_script u s) s = Some s'
    /\ let '(o, p, _) := poll (choice_future c u) (driver_of s) s in
       driver_of s' = p /\ locked s' = None /\ disp s' !! d = Some (after_poll k o).
Proof.
  intros Hd Hl Hu. assert (d < length (disp s))%nat as Hlt by (by eapply lookup_lt_Some).
  unfold poll_script. destruct s as [cs tk sc lf ar lk ia ip wk pk qs ds cl ha ki fi dl].
  cbn in Hd, Hl, Hlt. subst lk.
  do 2 (erewrite solo_cons; [|cbn; rewrite ?list_lookup_insert_eq; done|reflexivity]).
  destruct ar; cbn [armed].
  - destruct u as [| | | |w|w|w]; try discriminate Hu; cbn in Hu;
      (erewrite solo_cons;
        [|cbn; rewrite list_lookup_insert_eq; [done|by rewrite length_insert]
         |cbn -[Nat.leb]; rewrite ?Hu; reflexivity]).
    all: repeat (erewrite solo_cons;
        [|cbn; rewrite list_lookup_insert_eq; [done|by rewrite !length_insert]|reflexivity]).
    all: eexists; split; [reflexivity|]; cbn; split_and!; try done;
      apply list_lookup_insert_eq; by rewrite !length_insert.
  - erewrite solo_cons;
      [|cbn; rewrite list_lookup_insert_eq; [done|by rewrite length_insert]|reflexivity].
    eexists. split; [reflexivity|]. cbn. split_and!; try done.
    apply list_lookup_insert_eq. by rewrite !length_insert.
Qed.
End solo.

(** ** Witness *)
Definition polling_state : st :=
  set_disp 0 (EPollReset FromLoop) (set_armed true (set_active true (initial 1 1))).

Lemma poll_solo_witness :
  exists s', solo (mkConfig 0 2 1 0 false) 0 (poll_script (PollPending 1) polling_state) polling_state = Some s'
    /\ driver_of s' = mkDriver true false (Some ((), None)) /\ disp s' !! 0%nat = Some EIdle.
Proof.
  destruct (poll_solo (mkConfig 0 2 1 0 false) 0 FromLoop (PollPending 1) polling_state)
    as (s' & Hs & Hd & _ & Hp); [reflexivity|reflexivity|reflexivity|].
  exists s'. split; [exact Hs|]. split; [exact Hd|exact Hp].
Defined.
