(* ===== verification/Dispatcher.v ===== *)
(** A dispatcher ([dignus-actor-core/src/dispatcher/actor_dispatcher.rs] and
    [signal.rs]): threads inside [schedule] and [dispose] and the worker thread
    inside [process_scheduled_actors], one atomic operation or one critical
    section at a time.  What the scheduled items do when executed is not part
    of this component: executing an item is one step that records it, so a
    [dispose] called by the worker itself (which skips the join) is left out. *)
From S2P Require Import Prelude.
Local Open Scope nat_scope.

Section dispatcher.
Context {A : Type}.

(** Where the worker thread is. *)
Inductive wpc : Type :=
| WWait                   (** [signal.wait]: holding the lock, test [is_signaled] *)
| WSleep                  (** [signal.wait]: inside [Condvar::wait] *)
| WCheck                  (** woken: load [is_stopped] *)
| WReset                  (** store [signal_pending] 0 *)
| WTake                   (** lock the queue: break when empty, else take all of it *)
| WRun (batch : list A)   (** [for actor_schedulable in batch.drain(..)] *)
| WRan (batch : list A)   (** executed one: load [is_stopped] *)
| WCheckEnd               (** after the inner loop: load [is_stopped] *)
| WExit.

(** Where a thread that calls [schedule] or [dispose] is. *)
Inductive spc : Type :=
| SIdle
| SCheck (x : A)          (** [schedule]: load [is_stopped] *)
| SPush (x : A)           (** lock the queue and push *)
| SCas                    (** [signal_pending.compare_exchange(0, 1)] *)
| SRelease                (** [signal.release] *)
| DStop                   (** [dispose]: store [is_stopped] *)
| DRelease                (** [dispose]: [signal.release] *)
| DTake                   (** [dispose]: [worker_thread.lock().take()] *)
| DJoin.                  (** [dispose]: join the worker thread *)

Record dst : Type := mkDst {
  queue : list A;            (** [scheduled_actors] *)
  is_stopped : bool;
  is_signaled : bool;
  signal_pending : Z;
  worker : wpc;
  threads : list spc;
  pushed : list A;           (** ghost: everything ever pushed *)
  executed : list A;         (** ghost: everything executed *)
  worker_thread : bool;      (** the worker's join handle is still held *)
}.

(** [Signal::release]: set the flag and notify, under the lock. *)
Definition release (s : dst) : dst :=
  mkDst (queue s) (is_stopped s) true (signal_pending s)
    (match worker s with WSleep => WWait | w => w end) (threads s) (pushed s) (executed s) (worker_thread s).

Definition set_worker w s :=
  mkDst (queue s) (is_stopped s) (is_signaled s) (signal_pending s) w (threads s) (pushed s) (executed s) (worker_thread s).
Definition set_thread i pc s :=
  mkDst (queue s) (is_stopped s) (is_signaled s) (signal_pending s) (worker s)
    (<[i := pc]> (threads s)) (pushed s) (executed s) (worker_thread s).

(** [process_scheduled_actors] *)
Definition worker_step (s : dst) : option dst :=
  match worker s with
  | WWait =>
      if is_signaled s
      then Some (mkDst (queue s) (is_stopped s) false (signal_pending s) WCheck
                   (threads s) (pushed s) (executed s) (worker_thread s))
      else Some (set_worker WSleep s)
  | WSleep => None
  | WCheck => Some (set_worker (if is_stopped s then WExit else WReset) s)
  | WReset => Some (mkDst (queue s) (is_stopped s) (is_signaled s) 0 WTake
                      (threads s) (pushed s) (executed s) (worker_thread s))
  | WTake =>
      match queue s with
      | [] => Some (set_worker WCheckEnd s)
      | batch => Some (mkDst [] (is_stopped s) (is_signaled s) (signal_pending s) (WRun batch)
                         (threads s) (pushed s) (executed s) (worker_thread s))
      end
  | WRun [] => Some (set_worker WTake s)
  | WRun (x :: batch) =>
      Some (mkDst (queue s) (is_stopped s) (is_signaled s) (signal_pending s) (WRan batch)
              (threads s) (pushed s) (executed s ++ [x]) (worker_thread s))
  | WRan batch => Some (set_worker (if is_stopped s then WCheckEnd else WRun batch) s)
  | WCheckEnd => Some (set_worker (if is_stopped s then WExit else WWait) s)
  | WExit => None
  end.

(** [schedule] and [dispose] *)
Definition thread_step (i : nat) (pc : spc) (s : dst) : option dst :=
  match pc with
  | SIdle => None
  | SCheck x => Some (set_thread i (if is_stopped s then SIdle else SPush x) s)
  | SPush x =>
      Some (set_thread i SCas
        (mkDst (queue s ++ [x]) (is_stopped s) (is_signaled s) (signal_pending s) (worker s)
           (threads s) (pushed s ++ [x]) (executed s) (worker_thread s)))
  | SCas =>
      if (signal_pending s =? 0)%Z
      then Some (set_thread i SRelease
             (mkDst (queue s) (is_stopped s) (is_signaled s) 1 (worker s)
                (threads s) (pushed s) (executed s) (worker_thread s)))
      else Some (set_thread i SIdle s)
  | SRelease => Some (set_thread i SIdle (release s))
  | DStop =>
      Some (set_thread i DRelease
        (mkDst (queue s) true (is_signaled s) (signal_pending s) (worker s)
           (threads s) (pushed s) (executed s) (worker_thread s)))
  | DRelease => Some (set_thread i DTake (release s))
  | DTake =>
      if worker_thread s
      then Some (set_thread i DJoin
             (mkDst (queue s) (is_stopped s) (is_signaled s) (signal_pending s) (worker s)
                (threads s) (pushed s) (executed s) false))
      else Some (set_thread i SIdle s)
  | DJoin => match worker s with WExit => Some (set_thread i SIdle s) | _ => None end
  end.

Inductive daction : Type :=
| Worker
| SpuriousWakeup             (** [Condvar::wait] may return unnotified *)
| Thread (i : nat)
| CallSchedule (i : nat) (x : A)
| CallDispose (i : nat).

Definition dcall (i : nat) (pc : spc) (s : dst) : option dst :=
  match threads s !! i with Some SIdle => Some (set_thread i pc s) | _ => None end.

Definition dstep (a : daction) (s : dst) : option dst :=
  match a with
  | Worker => worker_step s
  | SpuriousWakeup => match worker s with WSleep => Some (set_worker WWait s) | _ => None end
  | Thread i => pc ← threads s !! i; thread_step i pc s
  | CallSchedule i x => dcall i (SCheck x) s
  | CallDispose i => dcall i DStop s
  end.

(** [ActorDispatcher::new] with its worker started, and [n] other threads. *)
Definition dinitial (n : nat) : dst :=
  mkDst [] false false 0 WWait (replicate n SIdle) [] [] true.

Definition dreachable (n : nat) (s : dst) : Prop := rtc (step_of dstep) (dinitial n) s.

(** ** Invariant *)
Definition batch_of (w : wpc) : list A :=
  match w with WRun b | WRan b => b | _ => [] end.

Definition cas_due (pc : spc) : nat := match pc with SCas => 1 | _ => 0 end.
Definition release_due (pc : spc) : nat := match pc with SRelease => 1 | _ => 0 end.
Definition stop_due (pc : spc) : nat := match pc with DRelease => 1 | _ => 0 end.

(** The worker has taken a signal it has not yet answered with a look at the queue. *)
Definition answering (w : wpc) : bool := match w with WCheck | WReset => true | _ => false end.
Definition draining (w : wpc) : bool :=
  match w with WTake | WRun _ | WRan _ => true | _ => false end.
Definition leaving (w : wpc) : bool := match w with WCheck | WExit => true | _ => false end.

Record dinv (s : dst) : Prop := {
  di_pending : signal_pending s = 0%Z \/ signal_pending s = 1%Z;
  di_signal : signal_pending s = 1%Z -> is_stopped s = false ->
    is_signaled s = true \/ answering (worker s) = true
    \/ 0 < sum_list_with release_due (threads s);
  di_queue : queue s <> [] -> is_stopped s = false ->
    signal_pending s = 1%Z \/ draining (worker s) = true
    \/ 0 < sum_list_with cas_due (threads s);
  di_awake : is_signaled s = true -> worker s <> WSleep;
  di_stop : is_stopped s = true ->
    is_signaled s = true \/ leaving (worker s) = true \/ 0 < sum_list_with stop_due (threads s);
  di_fifo : is_stopped s = false -> pushed s = executed s ++ batch_of (worker s) ++ queue s;
  di_running : is_stopped s = false -> worker s <> WExit;
}.
End dispatcher.
Arguments wpc A : clear implicits.
Arguments spc A : clear implicits.
Arguments dst A : clear implicits.
Arguments daction A : clear implicits.

Section invariant.
Context {A : Type}.
Implicit Types (s : dst A).

Ltac thread_sums :=
  repeat match goal with
  | H : ?l !! ?d = Some ?pc |- context [sum_list_with ?f (<[?d := ?pc']> ?l)] =>
      lazymatch goal with
      | _ : sum_list_with f (<[d := pc']> l) + f pc = _ |- _ => fail
      | _ => pose proof (sum_list_with_insert f l d pc pc' H)
      end
  end.

Lemma dinv_step a s s' : dinv s -> dstep a s = Some s' -> dinv s'.
Proof.
  intros [H1 H2 H3 H4 H5 H6 H7] H.
  destruct a as [| |i|i x|i]; cbn [dstep] in H;
    [unfold worker_step in H| |destruct (threads s !! i) as [pc|] eqn:Hi; [|done];
      cbn in H; destruct pc; cbn [thread_step] in H|unfold dcall in H|unfold dcall in H];
    repeat case_match; simplify_eq; split; cbn in *; thread_sums; cbn in *;
    try done; try (intuition (congruence || lia)).
  all: try (destruct (worker s); cbn in *; intuition (congruence || lia)).
  all: intros Hs; rewrite H6 by done; by rewrite <- ?app_assoc, ?app_nil_r.
Qed.

Lemma dinv_initial n : dinv (dinitial (A := A) n).
Proof. split; cbn; auto; done. Qed.

Lemma dreachable_inv n s : dreachable n s -> dinv s.
Proof.
  intros Hr. apply (invariant_reachable dstep dinv dinv_step _ _ Hr), dinv_initial.
Qed.
End invariant.

(** ** Properties *)

(** Every thread is outside [schedule], and outside [dispose] but for the join. *)
Definition callers_done {A} (s : dst A) : Prop :=
  forall i pc, threads s !! i = Some pc -> pc = SIdle \/ pc = DJoin.

Lemma callers_done_due {A} (s : dst A) (f : spc A -> nat) :
  f SIdle = 0 -> f DJoin = 0 -> callers_done s -> sum_list_with f (threads s) = 0.
Proof.
  intros H1 H2 Hd. apply sum_list_with_zero. intros i pc Hi. by destruct (Hd i pc Hi) as [-> | ->].
Qed.

(** Until it is stopped a dispatcher executes what is scheduled on it
    exactly once and in the order of the pushes: what was pushed is what was
    executed, then the rest of the batch in hand, then the queue. *)
Theorem dispatcher_fifo {A} n (s : dst A) :
  dreachable n s -> is_stopped s = false ->
  pushed s = executed s ++ batch_of (worker s) ++ queue s.
Proof. intros Hr Hs. by apply (di_fifo s (dreachable_inv n s Hr)). Qed.

(** C25.  No lost wakeup: when all callers have returned and the worker sleeps
    on its condition variable, everything ever pushed has been executed. *)
Theorem dispatcher_no_lost_wakeup {A} n (s : dst A) :
  dreachable n s -> is_stopped s = false -> callers_done s -> worker s = WSleep ->
  queue s = [] /\ executed s = pushed s.
Proof.
  intros Hr Hs Hd Hw. pose proof (dreachable_inv n s Hr) as [H1 H2 H3 H4 H5 H6 H7].
  rewrite (callers_done_due s release_due) in H2 by done.
  rewrite (callers_done_due s cas_due) in H3 by done. rewrite Hw in *. cbn in *.
  assert (queue s = []) as Hq.
  { destruct (queue s) as [|x q]; [done|]. destruct (H3 ltac:(done) Hs) as [Hp|[Hc|Hc]]; [|done|lia].
    destruct (H2 Hp Hs) as [Hsig|[Hc|Hc]]; [by destruct (H4 Hsig)|done|lia]. }
  split; [done|]. rewrite (H6 Hs), Hq. by rewrite app_nil_r.
Qed.

(** C34.  [dispose] terminates: once the dispatcher is stopped and its release
    has happened, the worker reaches its exit in at most six steps of its own,
    whatever it was doing, and then the thread that took its handle returns from
    the join (items the worker runs permitting). *)
Theorem dispose_terminates {A} n (s : dst A) :
  dreachable n s -> is_stopped s = true -> callers_done s ->
  exists k s', k <= 6 /\ run dstep (replicate k Worker) s = Some s' /\ worker s' = WExit
    /\ forall i, threads s' !! i = Some DJoin -> is_Some (dstep (Thread i) s').
Proof.
  intros Hr Hs Hd.
  enough (exists k s', k <= 6 /\ run dstep (replicate k Worker) s = Some s' /\ worker s' = WExit)
    as (k & s' & Hk & Hrun & Hw).
  { exists k, s'. split_and!; try done. intros i Hi. cbn. rewrite Hi. cbn. by rewrite Hw. }
  pose proof (dreachable_inv n s Hr) as [_ _ _ H4 H5 _ _].
  specialize (H5 Hs). rewrite (callers_done_due s stop_due) in H5 by done.
  destruct s as [q st sg sp w th pu ex jh]. cbn in *. subst st.
  destruct w as [| | | | |[|x b]|b| |]; cbn in H5;
    try (assert (sg = true) as -> by (intuition (congruence || lia))).
  - by exists 2; eexists; split; [lia|].
  - by destruct (H4 eq_refl).
  - by exists 1; eexists; split; [lia|].
  - destruct q as [|x q].
    + by exists 3; eexists; split; [lia|].
    + by exists 5; eexists; split; [lia|].
  - destruct q as [|x q].
    + by exists 2; eexists; split; [lia|].
    + by exists 4; eexists; split; [lia|].
  - destruct q as [|x q].
    + by exists 3; eexists; split; [lia|].
    + by exists 5; eexists; split; [lia|].
  - by exists 3; eexists; split; [lia|].
  - by exists 2; eexists; split; [lia|].
  - by exists 1; eexists; split; [lia|].
  - by exists 0; eexists; split; [lia|].
Qed.

(** ** A run: two items scheduled by two threads, then a dispose *)
Definition two_items : list (daction nat) :=
  [CallSchedule 0 5; CallSchedule 1 6; Thread 0; Thread 1; Thread 1; Thread 0; Thread 0; Thread 1;
   Thread 0] ++ replicate 12 Worker.

Definition drained : dst nat :=
  Eval vm_compute in default (dinitial 2) (run dstep two_items (dinitial 2)).

Definition stopping : dst nat :=
  Eval vm_compute in
    default (dinitial 2) (run dstep (take 14 two_items ++ [CallDispose 1; Thread 1; Thread 1; Thread 1]) (dinitial 2)).

Lemma drained_reachable : dreachable 2 drained.
Proof. apply (run_reaches dstep two_items). vm_compute. reflexivity. Qed.

Lemma stopping_reachable : dreachable 2 stopping.
Proof.
  apply (run_reaches dstep (take 14 two_items ++ [CallDispose 1; Thread 1; Thread 1; Thread 1])).
  vm_compute. reflexivity.
Qed.

Lemma dispatcher_fifo_witness : pushed drained = [6; 5] /\ pushed drained = executed drained ++ [] ++ [].
Proof. split; [reflexivity|]. apply (dispatcher_fifo 2 drained drained_reachable). reflexivity. Defined.

Lemma dispatcher_no_lost_wakeup_witness : queue drained = [] /\ executed drained = pushed drained.
Proof.
  apply (dispatcher_no_lost_wakeup 2 drained drained_reachable); [reflexivity| |reflexivity].
  intros [|[|i]] pc Hi; simplify_eq/=; by left.
Defined.

Lemma dispose_terminates_witness :
  exists k s', k <= 6 /\ run dstep (replicate k Worker) stopping = Some s' /\ worker s' = WExit
    /\ is_Some (dstep (Thread 1) s').
Proof.
  destruct (dispose_terminates 2 stopping stopping_reachable) as (k & s' & Hk & Hr & Hw & Hj);
    [reflexivity|intros [|[|i]] pc Hi; simplify_eq/=; auto|].
  exists k, s'. split; [exact Hk|]. split; [exact Hr|]. split; [exact Hw|]. apply Hj.
  assert (forall n s s', run dstep (replicate n (Worker (A := nat))) s = Some s' ->
    threads s' = threads s) as Hth; [|by rewrite (Hth _ _ _ Hr)].
  clear. induction n as [|n IH]; intros s s' H; cbn in H; [by simplify_eq|].
  destruct (worker_step s) as [s1|] eqn:E; [|done]. rewrite (IH _ _ H).
  unfold worker_step in E. repeat (case_match; simplify_eq/=; try done).
Defined.
