(* ===== verification/YieldTask.v ===== *)
(** Continuations ([dignus-actor-core/src]: [dispatcher/actor_yield_task.rs],
    [object_pool/actor_yield_task_pool.rs], [ActorDispatcher::enqueue_continuation]
    and the awaiter of [actor_await.rs]): a pooled task object carries a callback
    through the dispatcher's queue and goes back to the pool after it ran.

    Tasks are numbers into a store; the store, the pool and the queue are shared,
    and a running callback may enqueue further continuations before its own task
    is recycled. *)
From S2P Require Import Prelude.
Local Open Scope nat_scope.

Section tasks.
Context {CB : Type}.

Record yst : Type := mkY {
  tasks : list (option CB);      (** each task's [send_or_post_callback] *)
  inner_pool : list nat;         (** the pool, top first *)
  ready : list nat;              (** yield tasks in [scheduled_actors], oldest first *)
  running : option nat;          (** the task whose callback is running *)
  y_stopped : bool;              (** the dispatcher's [is_stopped] *)
  asked : list CB;               (** ghost: callbacks accepted, in order *)
  ran : list CB;                 (** ghost: callbacks run, in order *)
}.

Definition y_initial : yst := mkY [] [] [] None false [] [].

(** [ActorYieldTaskPool::pop]: a pooled task, or a new one. *)
Definition pool_pop (s : yst) : nat * yst :=
  match inner_pool s with
  | t :: rest => (t, mkY (tasks s) rest (ready s) (running s) (y_stopped s) (asked s) (ran s))
  | [] => (length (tasks s),
           mkY (tasks s ++ [None]) [] (ready s) (running s) (y_stopped s) (asked s) (ran s))
  end.

(** [ActorYieldTaskPool::push]. *)
Definition pool_push (t : nat) (s : yst) : yst :=
  mkY (tasks s) (t :: inner_pool s) (ready s) (running s) (y_stopped s) (asked s) (ran s).

(** [ActorYieldTask::set], and the [= None] of [recycle]. *)
Definition task_set (t : nat) (c : option CB) (s : yst) : yst :=
  mkY (<[t := c]> (tasks s)) (inner_pool s) (ready s) (running s) (y_stopped s) (asked s) (ran s).

(** [ActorDispatcher::schedule] of a task; a stopped dispatcher drops it. *)
Definition y_schedule (t : nat) (c : CB) (s : yst) : yst :=
  if y_stopped s then s
  else mkY (tasks s) (inner_pool s) (ready s ++ [t]) (running s) (y_stopped s) (asked s ++ [c]) (ran s).

Definition enqueue_continuation (c : CB) (s : yst) : yst :=
  let '(t, s1) := pool_pop s in y_schedule t c (task_set t (Some c) s1).

(** [execute], first half: take the callback and run it. *)
Definition execute_take (s : yst) : option yst :=
  match running s, ready s with
  | None, t :: rest =>
      match tasks s !! t with
      | Some c => Some (mkY (<[t := None]> (tasks s)) (inner_pool s) rest (Some t) (y_stopped s)
                          (asked s) (ran s ++ option_list c))
      | None => None
      end
  | _, _ => None
  end.

(** [execute], second half: [recycle] (the pool outlives its dispatcher's tasks). *)
Definition recycle (s : yst) : option yst :=
  match running s with
  | Some t =>
      let s1 := task_set t None s in
      Some (pool_push t (mkY (tasks s1) (inner_pool s1) (ready s1) None (y_stopped s1) (asked s1) (ran s1)))
  | None => None
  end.

Inductive yact : Type := Enqueue (c : CB) | TakeNext | Recycle | Stop.

Definition ystep (a : yact) (s : yst) : option yst :=
  match a with
  | Enqueue c => Some (enqueue_continuation c s)
  | TakeNext => execute_take s
  | Recycle => recycle s
  | Stop => Some (mkY (tasks s) (inner_pool s) (ready s) (running s) true (asked s) (ran s))
  end.

Definition yreachable (s : yst) : Prop := rtc (step_of ystep) y_initial s.

(** ** [ActorAwait::join]: hop back to the actor's dispatcher *)
Record ActorAwaiter : Type := mkActorAwaiter { aw_dispatcher : Z; aw_scheduled : bool }.

Definition join_dispatcher (d : Z) : ActorAwaiter := mkActorAwaiter d false.

(** [poll] on a thread whose dispatcher is [current]; [wake] is the continuation
    that wakes the task.  The first component: is it ready? *)
Definition awaiter_poll (current : option Z) (wake : CB) (a : ActorAwaiter) (s : yst) :
    bool * ActorAwaiter * yst :=
  if decide (current = Some (aw_dispatcher a)) then (true, a, s)
  else if aw_scheduled a then (false, a, s)
  else (false, mkActorAwaiter (aw_dispatcher a) true, enqueue_continuation wake s).

Fixpoint awaiter_polls (polls : list (option Z * CB)) (a : ActorAwaiter) (s : yst) :
    list bool * ActorAwaiter * yst :=
  match polls with
  | [] => ([], a, s)
  | (current, wake) :: rest =>
      let '(r, a1, s1) := awaiter_poll current wake a s in
      let '(rs, a2, s2) := awaiter_polls rest a1 s1 in (r :: rs, a2, s2)
  end.

(** ** Invariant *)
Record yinv (s : yst) : Prop := {
  yi_nodup : NoDup (inner_pool s ++ ready s ++ option_list (running s));
  yi_range : forall t, t ∈ inner_pool s ++ ready s ++ option_list (running s) -> t < length (tasks s);
  yi_ready : asked s = ran s ++ omap (λ t, mjoin (tasks s !! t)) (ready s);
  yi_full : forall t, t ∈ ready s -> exists c, tasks s !! t = Some (Some c);
}.

(** Writing a task that is not queued leaves the queue's callbacks alone. *)
Lemma omap_tasks_insert (l : list (option CB)) (q : list nat) t c :
  t ∉ q -> omap (λ t', mjoin (<[t := c]> l !! t')) q = omap (λ t', mjoin (l !! t')) q.
Proof.
  intros Hn. induction q as [|x q IH]; [done|]. cbn.
  rewrite list_lookup_insert_ne by set_solver. by rewrite IH by set_solver.
Qed.

Lemma omap_tasks_app (l l' : list (option CB)) (q : list nat) :
  (forall t, t ∈ q -> t < length l) ->
  omap (λ t, mjoin ((l ++ l') !! t)) q = omap (λ t, mjoin (l !! t)) q.
Proof.
  induction q as [|x q IH]; intros H; [done|]. cbn.
  rewrite lookup_app_l by (apply H; set_solver). by rewrite IH by set_solver.
Qed.

(** [pop] hands out a task that nothing else refers to. *)
Lemma pool_pop_fresh s t s1 :
  yinv s -> pool_pop s = (t, s1) ->
  yinv s1 /\ t < length (tasks s1) /\ t ∉ inner_pool s1 ++ ready s1 ++ option_list (running s1)
  /\ ready s1 = ready s /\ running s1 = running s /\ y_stopped s1 = y_stopped s
  /\ asked s1 = asked s /\ ran s1 = ran s.
Proof.
  intros [Hnd Hr Hq Hf] Hp. unfold pool_pop in Hp. destruct (inner_pool s) as [|x rest] eqn:E; simplify_eq/=.
  - split_and!; try done.
    + split; cbn; try done.
      * intros t Ht. rewrite length_app. specialize (Hr t Ht). cbn. lia.
      * rewrite omap_tasks_app; [done|]. intros t Ht. apply Hr. set_solver.
      * intros t Ht. destruct (Hf t Ht) as [c Hc]. exists c. by apply lookup_app_l_Some.
    + rewrite length_app. cbn. lia.
    + intros Ht. specialize (Hr _ Ht). lia.
  - apply NoDup_cons in Hnd as [Hn Hnd]. split_and!; try done; [|apply Hr; set_solver].
    split; cbn; try done. intros t' Ht'. apply Hr. set_solver.
Qed.

Lemma yinv_enqueue c s : yinv s -> yinv (enqueue_continuation c s).
Proof.
  intros H. unfold enqueue_continuation. destruct (pool_pop s) as [t s1] eqn:Hp.
  destruct (pool_pop_fresh s t s1 H Hp) as ([Hnd Hr Hq Hf] & Hlt & Hn & _).
  assert (t ∉ ready s1) as Hnr by set_solver.
  assert (yinv (task_set t (Some c) s1)) as [Hnd1 Hr1 Hq1 Hf1].
  { split; cbn; try done.
    - intros t' Ht'. rewrite length_insert. by apply Hr.
    - by rewrite omap_tasks_insert.
    - intros t' Ht'. rewrite list_lookup_insert_ne by set_solver. by apply Hf. }
  unfold y_schedule. destruct (y_stopped _); [by split|]. split; cbn in *.
  - rewrite (Permutation_app_comm (ready s1) [t]), <- app_assoc.
    rewrite (Permutation_app_swap_app (inner_pool s1) [t]). cbn. apply NoDup_cons. by split.
  - intros t' Ht'. rewrite length_insert.
    destruct (decide (t' = t)) as [->|]; [done|]. apply Hr. set_solver.
  - rewrite omap_app, Hq1. cbn. rewrite list_lookup_insert_eq by done. cbn. by rewrite app_assoc.
  - intros t' [Ht'| ->%list_elem_of_singleton]%elem_of_app; [by apply Hf1|].
    exists c. by apply list_lookup_insert_eq.
Qed.

Lemma yinv_take s s' : yinv s -> execute_take s = Some s' -> yinv s'.
Proof.
  intros [Hnd Hr Hq Hf] H. unfold execute_take in H.
  destruct (running s) eqn:Er; [done|]. destruct (ready s) as [|t rest] eqn:Eq; [done|].
  destruct (Hf t ltac:(set_solver)) as [c Hc]. rewrite Hc in H. simplify_eq/=.
  rewrite app_nil_r in *. assert (t ∉ rest /\ t ∉ inner_pool s) as [Hn Hnp].
  { rewrite Permutation_app_comm in Hnd. cbn in Hnd. apply NoDup_cons in Hnd. set_solver. }
  split; cbn.
  - by rewrite (Permutation_app_comm rest [t]).
  - intros t' Ht'. rewrite length_insert. apply Hr. set_solver.
  - rewrite omap_tasks_insert by done. rewrite Hq, Hc. cbn. by rewrite <- app_assoc.
  - intros t' Ht'. rewrite list_lookup_insert_ne by set_solver. apply Hf. set_solver.
Qed.

Lemma yinv_recycle s s' : yinv s -> recycle s = Some s' -> yinv s'.
Proof.
  intros [Hnd Hr Hq Hf] H. unfold recycle in H. destruct (running s) as [t|] eqn:Er; [|done].
  simplify_eq/=. assert (t ∉ ready s) as Hn.
  { rewrite app_assoc, Permutation_app_comm in Hnd. cbn in Hnd. apply NoDup_cons in Hnd. set_solver. }
  split; cbn.
  - rewrite app_nil_r. rewrite app_assoc, Permutation_app_comm in Hnd. exact Hnd.
  - intros t' Ht'. rewrite length_insert. apply Hr. set_solver.
  - by rewrite omap_tasks_insert.
  - intros t' Ht'. rewrite list_lookup_insert_ne by set_solver. by apply Hf.
Qed.

Lemma yreachable_inv s : yreachable s -> yinv s.
Proof.
  intros H. refine (invariant_reachable ystep yinv _ _ _ H _).
  - intros [c| | |] s0 s1 H0 Hs; cbn in Hs; simplify_eq.
    + by apply yinv_enqueue.
    + by eapply yinv_take.
    + by eapply yinv_recycle.
    + destruct H0. by split.
  - split; cbn; try done; [constructor|set_solver|set_solver].
Qed.
(** Once scheduled, an awaiter enqueues nothing more. *)
Lemma awaiter_polls_scheduled polls : forall d s,
  awaiter_polls polls (mkActorAwaiter d true) s
  = ((λ p, bool_decide (p.1 = Some d)) <$> polls, mkActorAwaiter d true, s).
Proof.
  induction polls as [|[cur w] polls IH]; intros d s; [done|]. cbn. unfold awaiter_poll. cbn.
  destruct (decide (cur = Some d)) as [->|Hne]; rewrite IH; cbn.
  - by rewrite bool_decide_eq_true_2.
  - by rewrite bool_decide_eq_false_2.
Qed.

(** Polls on the actor's own dispatcher answer ready and enqueue nothing; the
    first poll elsewhere enqueues the one continuation. *)
Lemma awaiter_hops_once d (home : list (option Z * CB)) cur w rest s :
  Forall (λ p, p.1 = Some d) home -> cur <> Some d ->
  awaiter_polls (home ++ (cur, w) :: rest) (join_dispatcher d) s
  = ((λ p, bool_decide (p.1 = Some d)) <$> (home ++ (cur, w) :: rest),
     mkActorAwaiter d true, enqueue_continuation w s).
Proof.
  intros Hh Hc. induction Hh as [|[c0 w0] home H0 _ IH]; cbn; unfold awaiter_poll; cbn.
  - rewrite decide_False, awaiter_polls_scheduled by done. by rewrite bool_decide_eq_false_2.
  - cbn in H0. rewrite decide_True by done. rewrite IH.
    by rewrite bool_decide_eq_true_2.
Qed.
End tasks.
Arguments yst CB : clear implicits.
Arguments yact CB : clear implicits.

(** Continuations run exactly once and in order: the callbacks run so far
    are a prefix of those accepted, the rest are exactly the callbacks of the
    queued tasks in queue order, no task is at the same time pooled, queued or
    running in two places, and when no task is queued everything accepted has
    run. *)
Theorem continuations_run_once {CB} (s : yst CB) :
  yreachable s ->
  asked s = ran s ++ omap (λ t, mjoin (tasks s !! t)) (ready s)
  /\ length (asked s) = length (ran s) + length (ready s)
  /\ NoDup (inner_pool s ++ ready s ++ option_list (running s))
  /\ (ready s = [] -> ran s = asked s).
Proof.
  intros [Hnd Hr Hq Hf]%yreachable_inv. split_and!; try done.
  - rewrite Hq, length_app. f_equal. clear -Hf.
    induction (ready s) as [|t q IH]; [done|]. cbn.
    destruct (Hf t ltac:(set_solver)) as [c Hc]. rewrite Hc. cbn. f_equal. apply IH. set_solver.
  - intros E. rewrite Hq, E. cbn. by rewrite app_nil_r.
Qed.

Definition demo_y : option (yst nat) :=
  run ystep [Enqueue 1; TakeNext; Enqueue 2; Recycle; Enqueue 3; TakeNext] y_initial.

Lemma continuations_run_once_witness :
  exists s, demo_y = Some s /\ asked s = [1; 2; 3] /\ ran s = [1; 2]
    /\ length (asked s) = length (ran s) + length (ready s).
Proof.
  eexists. split; [vm_compute; reflexivity|]. split; [reflexivity|]. split; [reflexivity|].
  apply (continuations_run_once _).
  apply (run_reaches ystep [Enqueue 1; TakeNext; Enqueue 2; Recycle; Enqueue 3; TakeNext]).
  vm_compute. reflexivity.
Defined.
