(* ===== verification/Registry.v ===== *)
(** The actor registry ([dignus-actor-core/src/internals/registry.rs]): slots
    with generations, the allocation state behind its mutex, and the
    generation check that keeps a stale handle from reaching the slot's next
    actor.  Each function runs under its lock, one call at a time; a panic with
    the allocation guard held poisons the mutex. *)
From S2P Require Import Prelude.

(** What the registry asks of an actor runner: [Arc<ActorRunner>] is a
    reference [R], and the runners live in a state [W]. *)
Class RunnerOps (R Mail W : Type) : Type := {
  enqueue_only : R -> Mail -> W -> bool * W;
  schedule_self : R -> W -> W;
  runner_kill : R -> W -> W;
}.

Section registry.
Context {R : Type}.

Record Slot : Type := mkSlot { generation : Z; owner : option R }.

(** [free] is a stack: its top is the head of the list. *)
Record AllocState : Type := mkAlloc { free : list Z; next_unused : Z; live : Z }.

Record ActorRegistry : Type := mkRegistry {
  slots : list Slot;
  capacity : Z;
  alloc : Mutex AllocState;
}.

Definition with_capacity (n : Z) : ActorRegistry :=
  let capacity := Z.min (Z.max n 1) (u32_max - 1) in
  mkRegistry (replicate (Z.to_nat capacity) (mkSlot 0 None)) capacity
    (new_mutex (mkAlloc [] 0 0)).

Implicit Types (r : ActorRegistry) (i g : Z).

Definition slot_at r i : option Slot := slots r !! Z.to_nat i.

Definition set_slot r i (s : Slot) : ActorRegistry :=
  mkRegistry (<[Z.to_nat i := s]> (slots r)) (capacity r) (alloc r).
Definition set_alloc r (a : AllocState) : ActorRegistry :=
  mkRegistry (slots r) (capacity r) (mkMutex (poisoned (alloc r)) a).
Definition poison r : ActorRegistry :=
  mkRegistry (slots r) (capacity r) (mkMutex true (inner (alloc r))).

(** Code that runs with the [alloc] guard held: a panic inside poisons. *)
Definition with_alloc {X} (body : AllocState -> M ActorRegistry X) : M ActorRegistry X :=
  fun r =>
    match lock_unwrap (alloc r) with
    | Ok a =>
        match body a r with
        | (Panic msg, r') => (Panic msg, poison r')
        | res => res
        end
    | Panic msg => (Panic msg, r)
    | UB msg => (UB msg, r)
    end.

(** Bump the slot's generation and count the reservation. *)
Definition reserve_slot (i : Z) (a : AllocState) : M ActorRegistry (Z * Z) :=
  fun r =>
    match slot_at r i with
    | None => (Panic "index out of bounds", r)
    | Some s =>
        let generation' := wrap_u32 (generation s + 1) in
        (Ok (i, generation'),
         set_alloc (set_slot r i (mkSlot generation' (owner s)))
           (mkAlloc (free a) (next_unused a) (live a + 1)))
    end.

Definition reserve : M ActorRegistry (Z * Z) :=
  with_alloc (fun a r =>
    match free a with
    | i :: rest => reserve_slot i (mkAlloc rest (next_unused a) (live a)) r
    | [] =>
        let i := next_unused a in
        if capacity r <=? i
        then (Panic "ActorRegistry capacity exceeded", r)
        else reserve_slot i (mkAlloc [] (i + 1) (live a)) r
    end).

Definition commit (i : Z) (runner : R) : M ActorRegistry unit :=
  fun r =>
    match slot_at r i with
    | None => (Panic "index out of bounds", r)
    | Some s => (Ok tt, set_slot r i (mkSlot (generation s) (Some runner)))
    end.

(** The runner a handle designates: the common part of [post] and [kill]. *)
Definition resolve r i g : option R :=
  if capacity r <=? i then None
  else match slot_at r i with
       | Some s => if generation s =? g then owner s else None
       | None => None
       end.

Definition remove (i g : Z) : M ActorRegistry (option R) :=
  with_alloc (fun a r =>
    if capacity r <=? i then (Ok None, r)
    else match slot_at r i with
         | None => (Panic "index out of bounds", r)
         | Some s =>
             if generation s =? g
             then
               let removed := owner s in
               let r1 := set_slot r i (mkSlot (wrap_u32 (g + 1)) None) in
               match removed with
               | Some _ =>
                   (Ok removed,
                    set_alloc r1 (mkAlloc (i :: free a) (next_unused a) (live a - 1)))
               | None => (Ok None, r1)
               end
             else (Ok None, r)
         end).

Definition snapshot_live : M ActorRegistry (list R) :=
  with_alloc (fun a r =>
    (Ok (omap owner (take (Z.to_nat (next_unused a)) (slots r))), r)).

Definition live_count : M ActorRegistry Z := with_alloc (fun a r => (Ok (live a), r)).

Section delivery.
Context {Mail W : Type} `{!RunnerOps R Mail W}.

Definition post r i g (actor_mail : Mail) (w : W) : W :=
  match resolve r i g with
  | Some runner =>
      let '(scheduled, w1) := enqueue_only runner actor_mail w in
      if scheduled then schedule_self (Mail := Mail) runner w1 else w1
  | None => w
  end.

Definition kill r i g (w : W) : W :=
  match resolve r i g with
  | Some runner => runner_kill (Mail := Mail) runner w
  | None => w
  end.
End delivery.

(** ** Well-formedness *)
Record wf r : Prop := {
  wf_sound : poisoned (alloc r) = false;
  wf_capacity : 1 <= capacity r < u32_max;
  wf_slots : Z.of_nat (length (slots r)) = capacity r;
  wf_next : 0 <= next_unused (inner (alloc r)) <= capacity r;
  wf_nodup : NoDup (free (inner (alloc r)));
  wf_free : forall i, i ∈ free (inner (alloc r)) -> 0 <= i < next_unused (inner (alloc r));
  wf_generation : forall n s, slots r !! n = Some s -> 0 <= generation s < 2 ^ 32;
  wf_owner : forall n s x, slots r !! n = Some s -> owner s = Some x ->
    Z.of_nat n < next_unused (inner (alloc r)) /\ Z.of_nat n ∉ free (inner (alloc r));
  wf_live : live (inner (alloc r))
    = next_unused (inner (alloc r)) - Z.of_nat (length (free (inner (alloc r))));
}.
End registry.
Arguments Slot R : clear implicits.
Arguments ActorRegistry R : clear implicits.

(** ** Lemmas *)
Section lemmas.
Context {R : Type}.
Implicit Types (r : ActorRegistry R) (i g : Z) (x : R).

(** Reserved or committed, and not given back. *)
Definition taken r i : Prop :=
  0 <= i < next_unused (inner (alloc r)) /\ i ∉ free (inner (alloc r)).

Lemma wf_slot_some r i : wf r -> 0 <= i < capacity r -> is_Some (slot_at r i).
Proof.
  intros H Hi. apply lookup_lt_is_Some. pose proof (wf_slots r H). lia.
Qed.

Lemma wf_with_capacity n : wf (with_capacity (R := R) n).
Proof.
  assert (u32_max = 4294967295) as Hm by reflexivity.
  split; cbn; try done; try lia.
  - rewrite length_replicate. lia.
  - constructor.
  - intros i Hi. by apply elem_of_nil in Hi.
  - intros k s Hs. apply lookup_replicate in Hs as [-> _]. cbn. lia.
  - intros k s x Hs. by apply lookup_replicate in Hs as [-> _].
Qed.

(** A slot on the free stack or never used has no owner. *)
Lemma untaken_owner r i s :
  wf r -> 0 <= i -> slot_at r i = Some s -> ~ taken r i -> owner s = None.
Proof.
  intros H Hi Hs Ht. destruct (owner s) as [x|] eqn:E; [|done]. exfalso. apply Ht.
  destruct (wf_owner r H _ s x Hs E) as [Hlt Hf]. rewrite Z2Nat.id in * by lia. by split.
Qed.

Lemma slot_at_set r i s j :
  0 <= i -> 0 <= j -> is_Some (slot_at r i) ->
  slot_at (set_slot r i s) j = if decide (i = j) then Some s else slot_at r j.
Proof.
  intros Hi Hj [s0 Hs]. unfold slot_at, set_slot in *. cbn. case_decide as E.
  - subst j. apply list_lookup_insert_eq. by eapply lookup_lt_Some.
  - apply list_lookup_insert_ne. lia.
Qed.

Lemma wrap_u32_range z : 0 <= wrap_u32 z < 2 ^ 32.
Proof. apply Z.mod_pos_bound. lia. Qed.

(** Changing one slot and the allocation state keeps the registry well formed. *)
Lemma wf_update r i s a :
  wf r -> 0 <= i < capacity r -> 0 <= generation s < 2 ^ 32 ->
  0 <= next_unused a <= capacity r -> NoDup (free a) ->
  (forall j, j ∈ free a -> 0 <= j < next_unused a) ->
  live a = next_unused a - Z.of_nat (length (free a)) ->
  (forall j, j <> i -> taken r j -> 0 <= j < next_unused a /\ j ∉ free a) ->
  (forall x, owner s = Some x -> i < next_unused a /\ i ∉ free a) ->
  wf (set_alloc (set_slot r i s) a).
Proof.
  intros H Hi Hg Hn Hd Hf Hl Ho Hs. split; cbn; try done; try apply H.
  - by rewrite length_insert, (wf_slots r H).
  - intros n s' Hn'. destruct (decide (n = Z.to_nat i)) as [->|Hne].
    + rewrite list_lookup_insert_eq in Hn'; [by simplify_eq|].
      pose proof (wf_slots r H). lia.
    + rewrite list_lookup_insert_ne in Hn' by done. by apply (wf_generation r H n).
  - intros n s' x Hn' Hx. destruct (decide (n = Z.to_nat i)) as [->|Hne].
    + rewrite list_lookup_insert_eq in Hn'; [simplify_eq|pose proof (wf_slots r H); lia].
      rewrite Z2Nat.id by lia. by eapply Hs.
    + rewrite list_lookup_insert_ne in Hn' by done.
      destruct (wf_owner r H n s' x Hn' Hx) as [H1 H2].
      destruct (Ho (Z.of_nat n)) as [? ?]; [lia|split; [lia|done]|]. split; [lia|done].
Qed.

(** [resolve] of an updated slot. *)
Lemma resolve_set r i s a j g :
  wf r -> 0 <= i < capacity r -> 0 <= j ->
  resolve (set_alloc (set_slot r i s) a) j g
  = if decide (i = j) then (if generation s =? g then owner s else None) else resolve r j g.
Proof.
  intros H Hi Hj. unfold resolve. cbn [capacity set_alloc set_slot].
  change (slot_at (set_alloc (set_slot r i s) a) j) with (slot_at (set_slot r i s) j).
  rewrite slot_at_set by (try apply wf_slot_some; (done || lia)).
  destruct (Z.leb_spec (capacity r) j); case_decide; (done || lia).
Qed.

(** The index [reserve] picks and the allocation state it leaves, before the
    slot is touched. *)
Definition allocates r i (a : AllocState) : Prop :=
  reserve r = reserve_slot i a r /\ 0 <= i < capacity r /\ ~ taken r i
  /\ live a = live (inner (alloc r)) /\ i < next_unused a <= capacity r /\ i ∉ free a
  /\ NoDup (free a) /\ (forall j, j ∈ free a -> 0 <= j < next_unused a)
  /\ live a + 1 = next_unused a - Z.of_nat (length (free a))
  /\ (forall j, j <> i -> taken r j -> 0 <= j < next_unused a /\ j ∉ free a).

Lemma allocates_fresh r :
  wf r -> free (inner (alloc r)) = [] -> next_unused (inner (alloc r)) < capacity r ->
  allocates r (next_unused (inner (alloc r)))
    (mkAlloc [] (next_unused (inner (alloc r)) + 1) (live (inner (alloc r)))).
Proof.
  intros H Hf Hroom. pose proof (wf_next r H) as Hn. pose proof (wf_live r H) as Hl.
  rewrite Hf in Hl. unfold allocates, taken. cbn. repeat split; try lia.
  - unfold reserve, with_alloc, lock_unwrap. rewrite (wf_sound r H), Hf.
    destruct (Z.leb_spec (capacity r) (next_unused (inner (alloc r)))); [lia|].
    unfold reserve_slot. destruct (wf_slot_some r (next_unused (inner (alloc r))) H) as [s ->];
      [lia|done].
  - set_solver.
  - constructor.
  - set_solver.
  - set_solver.
  - cbn in Hl. lia.
  - set_solver.
Qed.

Lemma allocates_recycled r i rest :
  wf r -> free (inner (alloc r)) = i :: rest ->
  allocates r i (mkAlloc rest (next_unused (inner (alloc r))) (live (inner (alloc r)))).
Proof.
  intros H Hf. pose proof (wf_next r H) as Hn. pose proof (wf_live r H) as Hl.
  pose proof (wf_free r H) as Hfr. pose proof (wf_nodup r H) as Hnd. rewrite Hf in *.
  apply NoDup_cons in Hnd as [Hni Hnd]. pose proof (Hfr i ltac:(set_solver)) as Hi.
  unfold allocates, taken. cbn in *. rewrite Hf. repeat split; try lia; try done.
  - unfold reserve, with_alloc, lock_unwrap. rewrite (wf_sound r H), Hf.
    unfold reserve_slot. destruct (wf_slot_some r i H) as [s ->]; [lia|done].
  - set_solver.
  - apply Hfr. set_solver.
  - apply Hfr. set_solver.
  - set_solver.
Qed.

Definition has_room r : Prop := live (inner (alloc r)) < capacity r.

Lemma allocates_room r : wf r -> has_room r -> exists i a, allocates r i a.
Proof.
  intros H Hroom. destruct (free (inner (alloc r))) as [|i rest] eqn:Ef.
  - eexists _, _. apply allocates_fresh; [done..|]. unfold has_room in Hroom.
    rewrite (wf_live r H), Ef in Hroom. cbn in Hroom. lia.
  - eexists _, _. by apply allocates_recycled.
Qed.

Lemma reserve_some r :
  wf r -> has_room r ->
  exists i s a, reserve r = (Ok (i, wrap_u32 (generation s + 1)),
      set_alloc (set_slot r i (mkSlot (wrap_u32 (generation s + 1)) None)) a)
    /\ slot_at r i = Some s /\ owner s = None /\ 0 <= i < capacity r /\ ~ taken r i
    /\ taken (set_alloc (set_slot r i (mkSlot (wrap_u32 (generation s + 1)) None)) a) i
    /\ live a = live (inner (alloc r)) + 1
    /\ (forall j, taken r j -> j <> i ->
         taken (set_alloc (set_slot r i (mkSlot (wrap_u32 (generation s + 1)) None)) a) j)
    /\ wf (set_alloc (set_slot r i (mkSlot (wrap_u32 (generation s + 1)) None)) a).
Proof.
  intros H Hroom. pose proof (wf_next r H) as Hn.
  destruct (allocates_room r H Hroom)
    as (i & a & He & Hi & Ht & Hl & Hna & Hif & Hnd & Hfa & Hla & Htk).
  destruct (wf_slot_some r i H Hi) as [s Hs].
  assert (owner s = None) as Hos by (eapply untaken_owner; eauto; lia).
  exists i, s, (mkAlloc (free a) (next_unused a) (live a + 1)).
  split; [by rewrite He; unfold reserve_slot; rewrite Hs, Hos|].
  split_and!; try done; try lia; [split; cbn; [lia|done]|cbn; lia|intros j ? ?; by apply Htk|].
  apply wf_update; cbn; try done; try lia. apply wrap_u32_range.
Qed.

Lemma reserve_full r :
  wf r -> ~ has_room r -> reserve r = (Panic "ActorRegistry capacity exceeded", poison r).
Proof.
  intros H Hroom. unfold has_room in Hroom. rewrite (wf_live r H) in Hroom.
  pose proof (wf_next r H). unfold reserve, with_alloc, lock_unwrap. rewrite (wf_sound r H).
  destruct (free (inner (alloc r))) as [|i rest]; cbn in Hroom; [|lia].
  by destruct (Z.leb_spec (capacity r) (next_unused (inner (alloc r)))); [|lia].
Qed.

(** [commit] into a reserved slot, and [remove] through its current handle. *)
Lemma commit_taken r i s x :
  wf r -> slot_at r i = Some s -> taken r i ->
  commit i x r = (Ok tt, set_slot r i (mkSlot (generation s) (Some x)))
  /\ wf (set_slot r i (mkSlot (generation s) (Some x))).
Proof.
  intros H Hs Ht. unfold commit. rewrite Hs. split; [done|].
  pose proof (wf_next r H).
  replace (set_slot r i _) with
    (set_alloc (set_slot r i (mkSlot (generation s) (Some x))) (inner (alloc r))) by
    (unfold set_alloc; cbn; unfold set_slot; by destruct (alloc r)).
  destruct Ht as [Ht1 Ht2].
  apply wf_update; cbn; try done; try apply H; try lia; [by eapply (wf_generation r H)|].
  intros. split; [lia|done].
Qed.

Definition bump (s : Slot R) : Slot R := mkSlot (wrap_u32 (generation s + 1)) None.

Lemma remove_hit r i s x :
  wf r -> 0 <= i < capacity r -> slot_at r i = Some s -> owner s = Some x ->
  exists a, remove i (generation s) r = (Ok (Some x), set_alloc (set_slot r i (bump s)) a)
    /\ live a = live (inner (alloc r)) - 1
    /\ (forall j, taken r j -> j <> i -> taken (set_alloc (set_slot r i (bump s)) a) j)
    /\ wf (set_alloc (set_slot r i (bump s)) a).
Proof.
  intros H Hi Hs Ho. unfold remove, with_alloc, lock_unwrap. rewrite (wf_sound r H), Hs.
  destruct (Z.leb_spec (capacity r) i); [lia|]. rewrite Z.eqb_refl, Ho.
  eexists. split; [done|]. destruct (wf_owner r H _ s x Hs Ho) as [Hlt Hnf].
  rewrite Z2Nat.id in * by lia. pose proof (wf_live r H). pose proof (wf_next r H).
  split_and!; cbn; [done|..].
  - intros j [Hj Hjf] Hne. split; cbn; [done|]. set_solver.
  - apply wf_update; cbn; try done; try lia.
    + apply wrap_u32_range.
    + constructor; [done|apply H].
    + intros j [->|Hj]%elem_of_cons; [lia|by apply (wf_free r H)].
    + intros j Hne [Hj Hjf]. split; [lia|]. set_solver.
Qed.

Lemma remove_uncommitted r i s :
  wf r -> 0 <= i < capacity r -> slot_at r i = Some s -> owner s = None ->
  remove i (generation s) r = (Ok None, set_slot r i (bump s))
  /\ wf (set_slot r i (bump s)).
Proof.
  intros H Hi Hs Ho. unfold remove, with_alloc, lock_unwrap. rewrite (wf_sound r H), Hs.
  destruct (Z.leb_spec (capacity r) i); [lia|]. rewrite Z.eqb_refl, Ho. split; [done|].
  pose proof (wf_next r H).
  replace (set_slot r i _) with (set_alloc (set_slot r i (bump s)) (inner (alloc r))) by
    (unfold set_alloc; cbn; unfold set_slot; by destruct (alloc r)).
  apply wf_update; cbn; try done; try apply H; try lia. apply wrap_u32_range.
Qed.

Lemma remove_miss r i g :
  wf r -> 0 <= i ->
  (capacity r <= i \/ exists s, slot_at r i = Some s /\ generation s <> g) ->
  remove i g r = (Ok None, r).
Proof.
  intros H Hi Hm. unfold remove, with_alloc, lock_unwrap. rewrite (wf_sound r H).
  destruct (Z.leb_spec (capacity r) i); [done|].
  destruct Hm as [|(s & Hs & Hg)]; [lia|]. rewrite Hs.
  by destruct (Z.eqb_spec (generation s) g).
Qed.
End lemmas.

(** ** Operation sequences and the abstract handle table

    The table a registry stands for: the runners its handles designate, the
    handles reserved and not yet committed, and how many slots have been lost
    (a [remove] through a reserved handle frees nothing). *)
Section table.
Context {R : Type}.

Inductive rop : Type := Reserve | Commit (i g : Z) (x : R) | Remove (i g : Z).
Inductive rreply : Type := Reserved (i g : Z) | Committed | Removed (x : option R) | Failed.

Definition apply (op : rop) (r : ActorRegistry R) : rreply * ActorRegistry R :=
  match op with
  | Reserve => match reserve r with (Ok (i, g), r') => (Reserved i g, r') | (_, r') => (Failed, r') end
  | Commit i _ x => match commit i x r with (Ok tt, r') => (Committed, r') | (_, r') => (Failed, r') end
  | Remove i g => match remove i g r with (Ok x, r') => (Removed x, r') | (_, r') => (Failed, r') end
  end.

Fixpoint apply_all (ops : list rop) (r : ActorRegistry R) : list rreply * ActorRegistry R :=
  match ops with
  | [] => ([], r)
  | op :: rest =>
      let '(y, r1) := apply op r in
      let '(ys, r2) := apply_all rest r1 in (y :: ys, r2)
  end.

Record Table : Type := mkTable {
  handles : gmap (Z * Z) R; reserved : gset (Z * Z); lost : nat }.

Definition table_count (t : Table) : Z :=
  Z.of_nat (size (handles t) + size (reserved t) + lost t).

(** What the registry promises, operation by operation. *)
Inductive tstep (cap : Z) (t : Table) : rop -> rreply -> Table -> Prop :=
| t_reserve i g :
    table_count t < cap -> 0 <= i < cap ->
    (forall g', handles t !! (i, g') = None) -> (forall g', (i, g') ∉ reserved t) ->
    tstep cap t Reserve (Reserved i g)
      (mkTable (handles t) ({[ (i, g) ]} ∪ reserved t) (lost t))
| t_commit i g x :
    (i, g) ∈ reserved t ->
    tstep cap t (Commit i g x) Committed
      (mkTable (<[ (i, g) := x ]> (handles t)) (reserved t ∖ {[ (i, g) ]}) (lost t))
| t_remove i g :
    (i, g) ∉ reserved t ->
    tstep cap t (Remove i g) (Removed (handles t !! (i, g)))
      (mkTable (delete (i, g) (handles t)) (reserved t) (lost t))
| t_lose i g :
    (i, g) ∈ reserved t ->
    tstep cap t (Remove i g) (Removed None)
      (mkTable (handles t) (reserved t ∖ {[ (i, g) ]}) (S (lost t))).

Inductive tsteps (cap : Z) : Table -> list rop -> list rreply -> Table -> Prop :=
| ts_nil t : tsteps cap t [] [] t
| ts_cons t op y t1 ops ys t2 :
    tstep cap t op y t1 -> tsteps cap t1 ops ys t2 -> tsteps cap t (op :: ops) (y :: ys) t2.

(** The callers' side: a commit uses a handle that is reserved, indices are
    [u32], and nothing is reserved beyond the capacity. *)
Definition allowed (cap : Z) (t : Table) (op : rop) : Prop :=
  match op with
  | Reserve => table_count t < cap
  | Commit i g _ => (i, g) ∈ reserved t
  | Remove i _ => 0 <= i
  end.

Record table_rel (r : ActorRegistry R) (t : Table) : Prop := {
  tr_wf : wf r;
  tr_handles : forall i g x, handles t !! (i, g) = Some x <->
    0 <= i < capacity r /\ slot_at r i = Some (mkSlot g (Some x));
  tr_reserved : forall i g, (i, g) ∈ reserved t ->
    taken r i /\ slot_at r i = Some (mkSlot g None);
  tr_live : live (inner (alloc r)) = table_count t;
}.
End table.
Arguments rop R : clear implicits.
Arguments rreply R : clear implicits.
Arguments Table R : clear implicits.

Section simulation.
Context {R : Type}.
Implicit Types (r : ActorRegistry R) (t : Table R) (i g : Z) (x : R).

(** The table after an operation, from the operation and the reply. *)
Definition track t (op : rop R) (y : rreply R) : Table R :=
  match op, y with
  | Reserve, Reserved i g => mkTable (handles t) ({[ (i, g) ]} ∪ reserved t) (lost t)
  | Commit i g x, Committed =>
      mkTable (<[ (i, g) := x ]> (handles t)) (reserved t ∖ {[ (i, g) ]}) (lost t)
  | Remove i g, Removed _ =>
      if decide ((i, g) ∈ reserved t)
      then mkTable (handles t) (reserved t ∖ {[ (i, g) ]}) (S (lost t))
      else mkTable (delete (i, g) (handles t)) (reserved t) (lost t)
  | _, _ => t
  end.

Fixpoint allowed_run (cap : Z) t (ops : list (rop R)) r : Prop :=
  match ops with
  | [] => True
  | op :: rest =>
      allowed cap t op /\ allowed_run cap (track t op (apply op r).1) rest (apply op r).2
  end.

Definition empty_table : Table R := mkTable ∅ ∅ 0.

Lemma resolve_handles r t i g :
  table_rel r t -> 0 <= i -> resolve r i g = handles t !! (i, g).
Proof.
  intros H Hi. unfold resolve. apply option_eq. intros x. rewrite (tr_handles r t H).
  destruct (Z.leb_spec (capacity r) i) as [Hc|Hc]; [split; [done|lia]|].
  destruct (slot_at r i) as [[g' o]|]; cbn; [|split; [done|naive_solver]].
  destruct (Z.eqb_spec g' g); split; naive_solver.
Qed.

Lemma table_rel_initial n : table_rel (with_capacity n) empty_table.
Proof.
  split; [apply wf_with_capacity|..|done].
  - intros i g x. cbn. rewrite lookup_empty. split; [done|].
    intros [_ Hs]. by apply lookup_replicate in Hs as [? _].
  - set_solver.
Qed.

Lemma reserved_not_handle r t i g g' :
  table_rel r t -> (i, g) ∈ reserved t -> handles t !! (i, g') = None.
Proof.
  intros H Hr. apply eq_None_not_Some. intros [x Hx].
  apply (tr_handles r t H) in Hx as [_ Hs].
  destruct (tr_reserved r t H i g Hr) as [_ Hs']. congruence.
Qed.

(** Transfer of the relation across the update of one slot. *)
Lemma table_rel_update r t i s a t' :
  table_rel r t -> 0 <= i < capacity r ->
  wf (set_alloc (set_slot r i s) a) -> live a = table_count t' ->
  (forall j g, j <> i -> handles t' !! (j, g) = handles t !! (j, g)) ->
  (forall g x, handles t' !! (i, g) = Some x <-> s = mkSlot g (Some x)) ->
  (forall j g, (j, g) ∈ reserved t' -> j <> i -> (j, g) ∈ reserved t) ->
  (forall g, (i, g) ∈ reserved t' ->
     taken (set_alloc (set_slot r i s) a) i /\ s = mkSlot g None) ->
  (forall j, taken r j -> j <> i -> taken (set_alloc (set_slot r i s) a) j) ->
  table_rel (set_alloc (set_slot r i s) a) t'.
Proof.
  intros H Hi Hwf Hl Hne Heq Hrne Hreq Htk.
  assert (forall j, 0 <= j -> slot_at (set_alloc (set_slot r i s) a) j
    = if decide (i = j) then Some s else slot_at r j) as Hslot.
  { intros j Hj. apply slot_at_set; [lia..|]. apply wf_slot_some; [apply H|lia]. }
  split; [done|..|done].
  - intros j g x. destruct (decide (j = i)) as [->|Hji].
    + rewrite Heq, Hslot, decide_True by lia. cbn. naive_solver.
    + rewrite Hne, (tr_handles r t H) by done. cbn.
      split; intros [Hj ?]; split; try done; rewrite Hslot, decide_False in * by lia; done.
  - intros j g Hr. destruct (decide (j = i)) as [->|Hji].
    + rewrite Hslot, decide_True by lia. destruct (Hreq g Hr) as [? ->]. done.
    + destruct (tr_reserved r t H j g) as [Ht Hs]; [by apply Hrne|].
      split; [by apply Htk|]. rewrite Hslot, decide_False; [done|congruence|apply Ht].
Qed.

Lemma set_alloc_id r i s : set_alloc (set_slot r i s) (inner (alloc r)) = set_slot r i s.
Proof. unfold set_alloc; cbn; unfold set_slot. by destruct (alloc r). Qed.

Lemma sim_reserve r t :
  table_rel r t -> table_count t < capacity r ->
  tstep (capacity r) t Reserve (apply Reserve r).1 (track t Reserve (apply Reserve r).1)
  /\ table_rel (apply Reserve r).2 (track t Reserve (apply Reserve r).1).
Proof.
  intros H Hroom. pose proof (tr_wf r t H) as Hwf.
  destruct (reserve_some r Hwf) as (i & s & a & He & Hs & Ho & Hi & Hnt & Ht & Hl & Htk & Hwf');
    [unfold has_room; by rewrite (tr_live r t H)|].
  unfold apply. rewrite He. cbn [fst snd track]. set (g := wrap_u32 (generation s + 1)) in *.
  assert (forall g', handles t !! (i, g') = None) as Hh.
  { intros g'. rewrite <- (resolve_handles r) by (done || lia). unfold resolve.
    rewrite Hs, Ho. by repeat case_match. }
  assert (forall g', (i, g') ∉ reserved t) as Hr.
  { intros g' Hin. by destruct (tr_reserved r t H i g' Hin) as [? _]. }
  split; [by constructor|]. apply table_rel_update with t; cbn [handles reserved]; try done.
  - rewrite Hl, (tr_live r t H). unfold table_count. cbn.
    rewrite size_union, size_singleton by set_solver. lia.
  - intros g' x. rewrite Hh. split; [done|]. by intros [= ].
  - intros j g' Hin Hne. set_solver.
  - intros g' Hin. split; [done|]. f_equal. set_solver.
Qed.

Lemma sim_commit r t i g x :
  table_rel r t -> (i, g) ∈ reserved t ->
  tstep (capacity r) t (Commit i g x) (apply (Commit i g x) r).1
    (track t (Commit i g x) (apply (Commit i g x) r).1)
  /\ table_rel (apply (Commit i g x) r).2 (track t (Commit i g x) (apply (Commit i g x) r).1).
Proof.
  intros H Hin. pose proof (tr_wf r t H) as Hwf.
  destruct (tr_reserved r t H i g Hin) as [Ht Hs].
  destruct (commit_taken r i _ x Hwf Hs Ht) as [He Hwf'].
  unfold apply. rewrite He. cbn [fst snd track generation] in *. split; [by constructor|].
  pose proof (wf_next r Hwf). rewrite <- set_alloc_id.
  apply table_rel_update with t; cbn [handles reserved];
    [done|destruct Ht; lia|by rewrite set_alloc_id|..].
  - rewrite (tr_live r t H). unfold table_count. cbn.
    rewrite map_size_insert_None, size_difference, size_singleton by
      (try eapply reserved_not_handle; try set_solver; done).
    enough (size (reserved t) <> 0)%nat by lia. intros Hz%size_empty_inv. set_solver.
  - intros j g' Hne. by rewrite lookup_insert_ne by congruence.
  - intros g' x'. destruct (decide (g' = g)) as [->|Hg].
    + rewrite lookup_insert_eq. naive_solver.
    + rewrite lookup_insert_ne by congruence.
      rewrite (reserved_not_handle r t i g) by done. naive_solver.
  - set_solver.
  - intros g' Hg'. exfalso. destruct (tr_reserved r t H i g') as [_ Hs']; [set_solver|].
    assert (g' = g) by congruence. set_solver.
  - done.
Qed.

(** Bumping a slot that has no owner changes no handle. *)
Lemma table_rel_bump r t i s :
  table_rel r t -> 0 <= i < capacity r -> slot_at r i = Some s -> owner s = None ->
  (i, generation s) ∉ reserved t -> table_rel (set_slot r i (bump s)) t.
Proof.
  intros H Hi Hs Ho Hr. rewrite <- set_alloc_id.
  destruct (remove_uncommitted r i s (tr_wf r t H) Hi Hs Ho) as [_ Hwf'].
  apply table_rel_update with t; try done.
  - by rewrite set_alloc_id.
  - apply (tr_live r t H).
  - intros g x. rewrite (tr_handles r t H), Hs. split; [|by intros [= ]].
    intros [_ [= ->]]. done.
  - intros g Hg. exfalso. destruct (tr_reserved r t H i g Hg) as [_ Hs'].
    rewrite Hs in Hs'. by injection Hs' as ->.
Qed.

Lemma table_rel_lose r t i g :
  table_rel r t -> 0 <= i < capacity r -> (i, g) ∈ reserved t ->
  table_rel (set_slot r i (bump (mkSlot g None)))
    (mkTable (handles t) (reserved t ∖ {[ (i, g) ]}) (S (lost t))).
Proof.
  intros H Hi Hr. destruct (tr_reserved r t H i g Hr) as [_ Hs].
  assert (forall g', (i, g') ∈ reserved t -> g' = g) as Huniq.
  { intros g' Hg'. destruct (tr_reserved r t H i g' Hg') as [_ Hs']. congruence. }
  apply table_rel_bump; [|done..|cbn; set_solver]. split; cbn [handles reserved].
  - apply (tr_wf r t H).
  - apply (tr_handles r t H).
  - intros j g' Hj. apply (tr_reserved r t H). set_solver.
  - rewrite (tr_live r t H). unfold table_count. cbn.
    rewrite size_difference, size_singleton by set_solver.
    enough (size (reserved t) <> 0)%nat by lia. intros Hz%size_empty_inv. set_solver.
Qed.

Lemma sim_remove_hit r t i g x :
  table_rel r t -> 0 <= i -> handles t !! (i, g) = Some x ->
  exists r', remove i g r = (Ok (Some x), r')
    /\ table_rel r' (mkTable (delete (i, g) (handles t)) (reserved t) (lost t)).
Proof.
  intros H Hi Hx. destruct (proj1 (tr_handles r t H i g x) Hx) as [Hic Hs].
  destruct (remove_hit r i _ x (tr_wf r t H) Hic Hs eq_refl) as (a & He & Hl & Htk & Hwf').
  cbn [generation] in He. eexists. split; [done|].
  apply table_rel_update with t; cbn [handles reserved]; try done.
  - rewrite Hl, (tr_live r t H). unfold table_count. cbn.
    rewrite map_size_delete_Some by done.
    enough (size (handles t) <> 0)%nat by lia.
    intros Hz%map_size_empty_inv. rewrite Hz, lookup_empty in Hx. done.
  - intros j g' Hne. by rewrite lookup_delete_ne by congruence.
  - intros g' x'. split; [|by intros [= ]].
    intros Hx'. apply lookup_delete_Some in Hx' as [Hne Hx'].
    apply (tr_handles r t H) in Hx' as [_ Hs']. congruence.
  - intros g' Hg'. destruct (tr_reserved r t H i g' Hg') as [_ Hs']. congruence.
Qed.

Lemma sim_remove r t i g :
  table_rel r t -> 0 <= i ->
  tstep (capacity r) t (Remove i g) (apply (Remove i g) r).1
    (track t (Remove i g) (apply (Remove i g) r).1)
  /\ table_rel (apply (Remove i g) r).2 (track t (Remove i g) (apply (Remove i g) r).1).
Proof.
  intros H Hi. pose proof (tr_wf r t H) as Hwf. unfold apply.
  destruct (decide ((i, g) ∈ reserved t)) as [Hr|Hr].
  { destruct (tr_reserved r t H i g Hr) as [[Hlt _] Hs]. pose proof (wf_next r Hwf).
    assert (0 <= i < capacity r) as Hic by lia.
    destruct (remove_uncommitted r i _ Hwf Hic Hs eq_refl) as [He _]. cbn in He.
    rewrite He. cbn [fst snd track]. rewrite decide_True by done.
    split; [by constructor|by apply table_rel_lose]. }
  destruct (handles t !! (i, g)) as [x|] eqn:Hx.
  { destruct (sim_remove_hit r t i g x H Hi Hx) as (r' & -> & Hrel).
    cbn [fst snd track]. rewrite decide_False, <- Hx by done. split; [by constructor|done]. }
  assert (remove i g r = (Ok None, r) \/ exists s, slot_at r i = Some s /\ 0 <= i < capacity r
    /\ generation s = g /\ owner s = None) as [He|(s & Hs & Hic & <- & Ho)].
  { destruct (decide (capacity r <= i)); [left; apply remove_miss; auto|].
    destruct (wf_slot_some r i Hwf) as [s Hs]; [lia|].
    destruct (decide (generation s = g)) as [Hg|Hg]; [|left; apply remove_miss; eauto].
    right. exists s. split_and!; try done; try lia. destruct (owner s) as [x|] eqn:Ho; [|done].
    enough (handles t !! (i, g) = Some x) by congruence.
    apply (tr_handles r t H). split; [lia|]. rewrite Hs. destruct s. by simplify_eq/=. }
  - rewrite He. cbn [fst snd track]. rewrite decide_False, <- Hx by done.
    split; [by constructor|]. rewrite delete_id by done. by destruct t.
  - destruct (remove_uncommitted r i s Hwf Hic Hs Ho) as [He _]. rewrite He.
    cbn [fst snd track]. rewrite decide_False, <- Hx by done.
    split; [by constructor|]. rewrite delete_id by done.
    replace (mkTable _ _ _) with t by (by destruct t). by apply table_rel_bump.
Qed.

Lemma apply_capacity r op : capacity (apply op r).2 = capacity r.
Proof.
  destruct op; cbn; unfold reserve, commit, remove, with_alloc, reserve_slot;
    by repeat (case_match; simplify_eq/=).
Qed.

Lemma sim_step r t op :
  table_rel r t -> allowed (capacity r) t op ->
  tstep (capacity r) t op (apply op r).1 (track t op (apply op r).1)
  /\ table_rel (apply op r).2 (track t op (apply op r).1).
Proof.
  destruct op; cbn [allowed]; eauto using sim_reserve, sim_commit, sim_remove.
Qed.

Lemma sim_run ops : forall r t,
  table_rel r t -> allowed_run (capacity r) t ops r ->
  exists t', tsteps (capacity r) t ops (apply_all ops r).1 t'
    /\ table_rel (apply_all ops r).2 t'.
Proof.
  induction ops as [|op ops IH]; intros r t H Ha; [eexists; split; [constructor|done]|].
  destruct Ha as [Ha Hrest]. destruct (sim_step r t op H Ha) as [Hstep Hrel].
  rewrite <- (apply_capacity r op) in Hrest. destruct (IH _ _ Hrel Hrest) as (t' & Hs & Hr).
  rewrite apply_capacity in Hs. exists t'. cbn. destruct (apply op r) as [y r1].
  cbn in *. destruct (apply_all ops r1). cbn in *. split; [by econstructor|done].
Qed.
End simulation.

(** ** Generations along a run *)
Section generations.
Context {R : Type}.
Implicit Types (r : ActorRegistry R) (i g : Z).

Definition gen_at r i : option Z := generation <$> slot_at r i.

Lemma gen_at_set r j s i g k d :
  slot_at r j = Some k -> generation s = wrap_u32 (generation k + d) -> 0 <= d <= 1 ->
  gen_at r i = Some (wrap_u32 g) ->
  exists e, 0 <= e <= 1 /\ gen_at (set_slot r j s) i = Some (wrap_u32 (g + e)).
Proof.
  intros Hj Hs Hd Hg. unfold gen_at, slot_at, set_slot in *. cbn.
  destruct (decide (Z.to_nat j = Z.to_nat i)) as [E|E].
  - exists d. split; [done|]. rewrite E in *. rewrite Hj in Hg. cbn in Hg.
    rewrite list_lookup_insert_eq by (by eapply lookup_lt_Some). cbn.
    f_equal. rewrite Hs. injection Hg as ->. apply Zplus_mod_idemp_l.
  - exists 0. split; [lia|]. rewrite list_lookup_insert_ne by done. by rewrite Z.add_0_r.
Qed.

(** Generations are [u32] values: the part of [wf] that no misuse breaks. *)
Definition gens_ok r : Prop := forall n s, slots r !! n = Some s -> 0 <= generation s < 2 ^ 32.

Lemma gens_ok_set r j s : gens_ok r -> 0 <= generation s < 2 ^ 32 -> gens_ok (set_slot r j s).
Proof.
  intros H Hs n s' Hn. cbn in Hn. apply list_lookup_insert_Some in Hn.
  destruct Hn as [(_ & <- & _)|[_ Hn]]; [done|by eapply H].
Qed.

Lemma apply_gens_ok r op : gens_ok r -> gens_ok (apply op r).2.
Proof.
  intros H. destruct op as [|j h x|j h]; cbn;
    unfold reserve, commit, remove, with_alloc, lock_unwrap, reserve_slot;
    repeat (case_match; simplify_eq/=; try done);
    first [apply (gens_ok_set r) | apply (gens_ok_set r)]; cbn; try done;
    try apply wrap_u32_range; by eapply H.
Qed.

(** An operation moves a slot's generation by at most one. *)
Lemma apply_generation r op i g :
  gens_ok r -> gen_at r i = Some (wrap_u32 g) ->
  exists e, 0 <= e <= 1 /\ gen_at (apply op r).2 i = Some (wrap_u32 (g + e)).
Proof.
  intros Hok Hg.
  assert (exists e, 0 <= e <= 1 /\ gen_at r i = Some (wrap_u32 (g + e))) as Hsame
    by (exists 0; rewrite Z.add_0_r; split; [lia|done]).
  destruct op as [|j h x|j h]; cbn;
    unfold reserve, commit, remove, with_alloc, lock_unwrap, reserve_slot;
    repeat (case_match; simplify_eq/=; try done); zify_bools; subst;
    try (by eapply (gen_at_set _ _ _ _ _ _ 1)).
  eapply (gen_at_set _ _ _ _ _ _ 0); [done| |lia|done]. cbn. rewrite Z.add_0_r.
  symmetry. apply Z.mod_small. by eapply Hok.
Qed.

Lemma apply_all_generation ops : forall r i g,
  gens_ok r -> gen_at r i = Some (wrap_u32 g) ->
  exists e, 0 <= e <= Z.of_nat (length ops)
    /\ gen_at (apply_all ops r).2 i = Some (wrap_u32 (g + e)).
Proof.
  induction ops as [|op ops IH]; intros r i g Hok Hg;
    [exists 0; rewrite Z.add_0_r; split; [cbn; lia|done]|].
  destruct (apply_generation r op i g Hok Hg) as (e & He & Hg1).
  destruct (IH _ i _ (apply_gens_ok r op Hok) Hg1) as (e' & He' & Hg2).
  exists (e + e'). rewrite Z.add_assoc. cbn. destruct (apply op r) as [y r1]. cbn in *.
  destruct (apply_all ops r1). cbn in *. split; [lia|done].
Qed.

Lemma remove_some_generation r i g x r' :
  remove i g r = (Ok (Some x), r') -> gen_at r' i = Some (wrap_u32 (g + 1)).
Proof.
  unfold remove, with_alloc, lock_unwrap.
  repeat (case_match; simplify_eq/=; try done). intros. simplify_eq/=.
  unfold gen_at, slot_at, set_slot in *. cbn.
  by rewrite list_lookup_insert_eq by (by eapply lookup_lt_Some).
Qed.

Lemma poisoned_fails ops : forall r,
  poisoned (alloc r) = true ->
  poisoned (alloc (apply_all ops r).2) = true
  /\ Forall2 (fun op y => (exists i g x, op = Commit i g x) \/ y = Failed)
       ops (apply_all ops r).1.
Proof.
  induction ops as [|op ops IH]; intros r Hp; [by split; [|constructor]|].
  assert (poisoned (alloc (apply op r).2) = true
    /\ ((exists i g x, op = Commit i g x) \/ (apply op r).1 = Failed)) as [Hp1 Hy].
  { destruct op; cbn; unfold reserve, remove, commit, with_alloc, lock_unwrap;
      try rewrite Hp; cbn; repeat case_match; simplify_eq/=; eauto 10. }
  destruct (IH _ Hp1) as [Hp2 Hys]. cbn. destruct (apply op r) as [y r1]. cbn in *.
  destruct (apply_all ops r1). cbn in *. split; [done|by constructor].
Qed.
End generations.

(** The snapshot holds exactly the runners that some handle designates. *)
Lemma snapshot_live_spec {R} (r : ActorRegistry R) :
  wf r ->
  exists xs, snapshot_live r = (Ok xs, r)
    /\ forall x, x ∈ xs <-> exists i g, 0 <= i /\ resolve r i g = Some x.
Proof.
  intros Hwf. unfold snapshot_live, with_alloc, lock_unwrap. rewrite (wf_sound r Hwf).
  eexists. split; [done|]. intros x. rewrite list_elem_of_omap. split.
  - intros (s & Hs & Hx). apply list_elem_of_lookup in Hs as [k Hk].
    apply lookup_take_Some in Hk as [Hk _].
    exists (Z.of_nat k), (generation s). split; [lia|]. unfold resolve, slot_at.
    rewrite Nat2Z.id, Hk, Z.eqb_refl. apply lookup_lt_Some in Hk.
    pose proof (wf_slots r Hwf). by destruct (Z.leb_spec (capacity r) (Z.of_nat k)); [lia|].
  - intros (i & g & Hi & Hr). unfold resolve in Hr.
    destruct (capacity r <=? i); [done|]. destruct (slot_at r i) as [s|] eqn:Hs; [|done].
    destruct (generation s =? g); [|done]. exists s. split; [|done].
    apply list_elem_of_lookup. exists (Z.to_nat i). apply lookup_take_Some. split; [done|].
    destruct (wf_owner r Hwf _ s x Hs Hr). lia.
Qed.

(** ** Properties *)
Section properties.
Context {R : Type}.
Implicit Types (r : ActorRegistry R) (i g : Z).

(** C12.  From a fresh registry, every sequence of [reserve], [commit] and
    [remove] calls answers as the abstract handle table does: a reserved
    handle's index is not in use by any designated or reserved handle, a
    [commit] makes exactly its handle designate the runner, a [remove] returns
    what the handle designates and ends it.  At the end every handle resolves
    as in the table, and the live count is the table's and at most the
    capacity. *)
Theorem registry_refines_table (n : Z) (ops : list (rop R)) :
  allowed_run (capacity (with_capacity (R := R) n)) empty_table ops (with_capacity n) ->
  let r' := (apply_all ops (with_capacity n)).2 in
  exists t,
    tsteps (capacity (with_capacity (R := R) n)) empty_table ops
      (apply_all ops (with_capacity n)).1 t
    /\ (forall i g, 0 <= i -> resolve r' i g = handles t !! (i, g))
    /\ live_count r' = (Ok (table_count t), r') /\ table_count t <= capacity r'.
Proof.
  intros Ha. destruct (sim_run ops _ _ (table_rel_initial n) Ha) as (t & Hs & Hr).
  exists t. split_and!; [done|..].
  - intros i g Hi. by apply resolve_handles.
  - unfold live_count, with_alloc, lock_unwrap.
    by rewrite (wf_sound _ (tr_wf _ _ Hr)), (tr_live _ _ Hr).
  - rewrite <- (tr_live _ _ Hr), (wf_live _ (tr_wf _ _ Hr)).
    pose proof (wf_next _ (tr_wf _ _ Hr)). lia.
Qed.

(** C23.  A handle that [remove] has ended stays dead: through any later
    sequence of fewer than [2^32 - 1] registry calls, whatever they are, the
    old index and generation designate no runner, so [post] and [kill]
    through it reach nobody, in particular not the slot's next actor. *)
Theorem stale_handle_dead r r1 i g x (ops : list (rop R)) :
  wf r -> 0 <= g < 2 ^ 32 -> remove i g r = (Ok (Some x), r1) ->
  Z.of_nat (length ops) < 2 ^ 32 - 1 ->
  resolve (apply_all ops r1).2 i g = None.
Proof.
  intros Hwf Hg Hrm Hlen. pose proof (apply_gens_ok r (Remove i g) (wf_generation r Hwf)) as Hok.
  cbn in Hok. rewrite Hrm in Hok. cbn in Hok.
  destruct (apply_all_generation ops r1 i (g + 1) Hok) as (e & He & Hge);
    [by eapply remove_some_generation|].
  unfold resolve, gen_at in *. destruct (capacity _ <=? i); [done|].
  destruct (slot_at _ i) as [s|]; [|done]. cbn in Hge. injection Hge as Hs.
  destruct (Z.eqb_spec (generation s) g) as [E|]; [|done]. exfalso.
  rewrite Hs in E. unfold wrap_u32 in E.
  assert (g + 1 + e = g) as Habs; [|lia].
  apply (mod_window_inj _ _ (2 ^ 32)); [lia|lia|]. rewrite E. symmetry. by apply Z.mod_small.
Qed.

(** [snapshot_live], the list shutdown kills, holds exactly the runners
    that some handle designates. *)
Theorem snapshot_live_complete r :
  wf r ->
  exists xs, snapshot_live r = (Ok xs, r)
    /\ forall x, x ∈ xs <-> exists i g, 0 <= i /\ resolve r i g = Some x.
Proof. apply snapshot_live_spec. Qed.

(** A [reserve] on a full registry panics with the allocation guard held,
    and the poisoned lock outlives it: every later [reserve] and [remove]
    panics, and so do [live_count] and [snapshot_live], which shutdown needs. *)
Theorem full_reserve_poisons r (ops : list (rop R)) :
  wf r -> live (inner (alloc r)) = capacity r ->
  let r' := (reserve r).2 in
  let r2 := (apply_all ops r').2 in
  (apply Reserve r).1 = Failed
  /\ Forall2 (fun op y => (exists i g x, op = Commit i g x) \/ y = Failed)
       ops (apply_all ops r').1
  /\ live_count r2 = (Panic "PoisonError", r2) /\ snapshot_live r2 = (Panic "PoisonError", r2).
Proof.
  intros Hwf Hl r' r2. assert (reserve r = (Panic "ActorRegistry capacity exceeded", poison r))
    as E by (apply reserve_full; [done|unfold has_room; lia]).
  subst r2 r'. cbn. rewrite E. cbn.
  destruct (poisoned_fails ops (poison r) eq_refl) as [Hp Hf].
  unfold live_count, snapshot_live, with_alloc, lock_unwrap. rewrite Hp. done.
Qed.
End properties.

(** ** Witnesses *)
#[export] Instance allowed_dec {R} cap (t : Table R) op : Decision (allowed cap t op).
Proof. destruct op; cbn; apply _. Defined.

#[export] Instance allowed_run_dec {R} cap ops : forall (t : Table R) r,
  Decision (allowed_run cap t ops r).
Proof. induction ops; intros t r; cbn; apply _. Defined.

Definition demo_ops : list (rop string) :=
  [Reserve; Commit 0 1 "a"; Reserve; Commit 1 1 "b"; Remove 0 1; Remove 0 1; Reserve; Commit 0 3 "c"].

Definition demo_fill : list (rop string) := [Reserve; Commit 0 1 "a"; Reserve; Commit 1 1 "b"].

Definition demo_full : ActorRegistry string :=
  Eval vm_compute in (apply_all demo_fill (with_capacity 2)).2.

Lemma demo_full_wf : wf demo_full.
Proof.
  replace demo_full with (apply_all demo_fill (with_capacity 2)).2 by (vm_compute; reflexivity).
  destruct (sim_run demo_fill _ _ (table_rel_initial 2)) as (t & _ & H); [|by apply (tr_wf _ t)].
  apply (bool_decide_unpack _). vm_compute. exact I.
Qed.

Lemma registry_refines_table_witness :
  (apply_all demo_ops (with_capacity 2)).1
     = [Reserved 0 1; Committed; Reserved 1 1; Committed; Removed (Some "a"); Removed None;
        Reserved 0 3; Committed]
  /\ exists t, tsteps 2 empty_table demo_ops (apply_all demo_ops (with_capacity 2)).1 t.
Proof.
  split; [vm_compute; reflexivity|].
  destruct (registry_refines_table 2 demo_ops) as (t & Ht & _); [|exists t; exact Ht].
  apply (bool_decide_unpack _). vm_compute. exact I.
Defined.

Lemma stale_handle_dead_witness :
  resolve (apply_all [Reserve; Commit 0 3 "c"] (remove 0 1 demo_full).2).2 0 1 = None
  /\ resolve (apply_all [Reserve; Commit 0 3 "c"] (remove 0 1 demo_full).2).2 0 3 = Some "c".
Proof.
  split; [|vm_compute; reflexivity].
  apply (stale_handle_dead demo_full (remove 0 1 demo_full).2 0 1 "a");
    [apply demo_full_wf|lia|vm_compute; reflexivity|cbn; lia].
Defined.

Lemma snapshot_live_complete_witness :
  exists xs, snapshot_live demo_full = (Ok xs, demo_full) /\ xs = ["a"; "b"]
    /\ ("a" ∈ xs <-> exists i g, 0 <= i /\ resolve demo_full i g = Some "a").
Proof.
  destruct (snapshot_live_complete demo_full demo_full_wf) as (xs & Hxs & Hin).
  exists xs. split; [exact Hxs|]. split; [|apply Hin].
  assert (snapshot_live demo_full = (Ok ["a"; "b"], demo_full)) as E by (vm_compute; reflexivity).
  rewrite E in Hxs. by injection Hxs as <-.
Defined.

Lemma full_reserve_poisons_witness :
  (apply_all [Remove 0 1] (reserve demo_full).2).1 = [Failed]
  /\ live_count (apply_all [Remove 0 1] (reserve demo_full).2).2
     = (Panic "PoisonError", (apply_all [Remove 0 1] (reserve demo_full).2).2).
Proof.
  split; [vm_compute; reflexivity|].
  apply (full_reserve_poisons demo_full [Remove 0 1]); [apply demo_full_wf|reflexivity].
Defined.
