(* ===== verification/RegistryConcurrent.v ===== *)
(** The actor registry ([dignus-actor-core/src/internals/registry.rs]) used by
    several threads at once: every load and store of a slot's generation, every
    acquisition of the allocation mutex and of a slot's owner mutex is a step of
    its own.  [post] and [kill] look a handle up without the allocation mutex:
    they compare the generation, lock the owner, compare the generation again
    and clone the owner ([Lookup] below), while [remove] bumps the generation
    before it takes the owner, and [commit] stores an owner under the owner's
    mutex only.  The theorem is that this is as good as one call at a time.

    What a mutex guards is carried by the thread that holds the guard and
    written back when it drops it.  The ghost fields record the calls in the
    order in which they take effect and in which they return. *)
From S2P Require Import Prelude Registry.

Section machine.
Context {R : Type}.

(** Where a thread is. *)
Inductive tpc : Type :=
| Idle
| Panicked                                  (** [lock().unwrap()] or the capacity check *)
(* reserve *)
| RLock                                     (** [self.alloc.lock()] *)
| RPick (a : AllocState)                    (** [free.pop()] or [next_unused] *)
| RLoadGen (i : Z) (a : AllocState)         (** load the generation *)
| RStoreGen (i g : Z) (a : AllocState)      (** store the new one *)
| RFinish (i g : Z) (a : AllocState)        (** [live += 1], unlock, return *)
| Holding (i g : Z)                         (** the caller has its handle, nothing committed *)
(* commit *)
| CLock (i g : Z) (x : R)                   (** [owner.lock()] *)
| CStore (i g : Z) (x : R)                  (** store the owner, unlock, return *)
(* the lookup of post and kill *)
| GCheck (i g : Z)                          (** bounds, and load the generation *)
| GLock (i g : Z)                           (** [owner.lock()] *)
| GRecheck (i g : Z)                        (** load the generation again *)
| GClone (i g : Z)                          (** clone the owner, unlock, return *)
| GMiss (i g : Z) (locked : bool)           (** unlock if locked, return nothing *)
(* remove *)
| VLock (i g : Z)                           (** [self.alloc.lock()] *)
| VCheck (i g : Z) (a : AllocState)         (** bounds, and load the generation *)
| VStoreGen (i g : Z) (a : AllocState)      (** store the next one *)
| VLockOwner (i g : Z) (a : AllocState)     (** [owner.lock()] *)
| VTake (i g : Z) (a : AllocState)          (** take the owner, unlock it *)
| VFinish (i g : Z) (o : option R) (a : AllocState) (** [free.push], unlock, return *)
| VMiss (i g : Z)                           (** unlock, return nothing *)
(* live_count *)
| NLock
| NFinish (n : Z)                           (** unlock, return *)
(* snapshot_live *)
| SLock
| SScan (a : AllocState) (seen : list (option R)) (before : list (option R)).
                                            (** look at slot [length seen]; [before] is ghost *)

(** Calls and answers: those of the sequential registry, a lookup, a count. *)
Inductive rcall : Type := DoOp (op : rop R) | Lookup (i g : Z) | Count.
Inductive answer : Type := Op (y : rreply R) | Runner (x : option R) | Number (n : Z).

Record rsys : Type := mkRsys {
  reg : ActorRegistry R;
  alloc_owner : option nat;               (** the thread that holds the allocation guard *)
  slot_owner : gmap Z nat;                (** the threads that hold owner guards *)
  threads : list tpc;
  table : Table R;                        (** ghost: what was reserved and committed *)
  issued : list (Z * Z);                  (** ghost: the handles [reserve] returned *)
  lins : list (nat * rcall * answer);     (** ghost: calls in the order they take effect *)
  rets : list (nat * rcall * answer);     (** ghost: calls in the order they return *)
  snaps : list (list (option R) * list (option R) * list (option R));
                                          (** ghost: owners before, as seen, owners after *)
}.

Definition owners (r : ActorRegistry R) : list (option R) := owner <$> slots r.

Definition at_pc (t : nat) (pc : tpc) (s : rsys) : rsys :=
  mkRsys (reg s) (alloc_owner s) (slot_owner s) (<[t := pc]> (threads s)) (table s) (issued s)
    (lins s) (rets s) (snaps s).
Definition with_reg (r : ActorRegistry R) (s : rsys) : rsys :=
  mkRsys r (alloc_owner s) (slot_owner s) (threads s) (table s) (issued s) (lins s) (rets s)
    (snaps s).
Definition with_alloc_owner (o : option nat) (s : rsys) : rsys :=
  mkRsys (reg s) o (slot_owner s) (threads s) (table s) (issued s) (lins s) (rets s) (snaps s).
Definition with_slot_owner (m : gmap Z nat) (s : rsys) : rsys :=
  mkRsys (reg s) (alloc_owner s) m (threads s) (table s) (issued s) (lins s) (rets s) (snaps s).
Definition with_issued (h : Z * Z) (s : rsys) : rsys :=
  mkRsys (reg s) (alloc_owner s) (slot_owner s) (threads s) (table s) (h :: issued s) (lins s)
    (rets s) (snaps s).
Definition with_snap p (s : rsys) : rsys :=
  mkRsys (reg s) (alloc_owner s) (slot_owner s) (threads s) (table s) (issued s) (lins s) (rets s)
    (p :: snaps s).

(** A call takes effect: the log and the table follow. *)
Definition effect (t : nat) (c : rcall) (y : answer) (s : rsys) : rsys :=
  mkRsys (reg s) (alloc_owner s) (slot_owner s) (threads s)
    (match c, y with DoOp op, Op z => track (table s) op z | _, _ => table s end)
    (issued s) (lins s ++ [(t, c, y)]) (rets s) (snaps s).

Definition returns (t : nat) (c : rcall) (y : answer) (s : rsys) : rsys :=
  mkRsys (reg s) (alloc_owner s) (slot_owner s) (threads s) (table s) (issued s) (lins s)
    (rets s ++ [(t, c, y)]) (snaps s).

(** [self.alloc.lock().unwrap()]: blocks while the guard is held, panics if
    the mutex is poisoned, and otherwise gives the guarded state. *)
Definition lock_alloc (t : nat) (k : AllocState -> tpc) (s : rsys) : option rsys :=
  match alloc_owner s with
  | Some _ => None
  | None =>
      match lock_unwrap (alloc (reg s)) with
      | Ok a => Some (at_pc t (k a) (with_alloc_owner (Some t) s))
      | _ => Some (at_pc t Panicked s)
      end
  end.

(** The guard is dropped with the state it guards. *)
Definition unlock_alloc (a : AllocState) (s : rsys) : rsys :=
  with_alloc_owner None (with_reg (set_alloc (reg s) a) s).

Definition lock_slot (t : nat) (i : Z) (k : tpc) (s : rsys) : option rsys :=
  match slot_owner s !! i with
  | Some _ => None
  | None => Some (at_pc t k (with_slot_owner (<[i := t]> (slot_owner s)) s))
  end.
Definition unlock_slot (i : Z) (s : rsys) : rsys := with_slot_owner (delete i (slot_owner s)) s.

Definition store_generation (i g : Z) (r : ActorRegistry R) : ActorRegistry R :=
  match slot_at r i with Some sl => set_slot r i (mkSlot g (owner sl)) | None => r end.
Definition store_owner (i : Z) (o : option R) (r : ActorRegistry R) : ActorRegistry R :=
  match slot_at r i with Some sl => set_slot r i (mkSlot (generation sl) o) | None => r end.

Definition count_in (a : AllocState) : AllocState := mkAlloc (free a) (next_unused a) (live a + 1).
Definition give_back (i : Z) (o : option R) (a : AllocState) : AllocState :=
  match o with Some _ => mkAlloc (i :: free a) (next_unused a) (live a - 1) | None => a end.

(** The index a reservation takes, and the allocation state without it. *)
Definition pick (cap : Z) (a : AllocState) : option (Z * AllocState) :=
  match free a with
  | i :: rest => Some (i, mkAlloc rest (next_unused a) (live a))
  | [] =>
      if cap <=? next_unused a then None
      else Some (next_unused a, mkAlloc [] (next_unused a + 1) (live a))
  end.

(** One step of thread [t] at [pc].  [slots[index]] out of range panics. *)
Definition thread_step (t : nat) (pc : tpc) (s : rsys) : option rsys :=
  match pc with
  | Idle | Panicked | Holding _ _ => None
  | RLock => lock_alloc t RPick s
  | RPick a =>
      match pick (capacity (reg s)) a with
      | Some (i, a') => Some (at_pc t (RLoadGen i a') s)
      | None => Some (at_pc t Panicked (with_alloc_owner None (with_reg (poison (reg s)) s)))
      end
  | RLoadGen i a =>
      match slot_at (reg s) i with
      | Some sl => Some (at_pc t (RStoreGen i (wrap_u32 (generation sl + 1)) a) s)
      | None => Some (at_pc t Panicked (with_alloc_owner None (with_reg (poison (reg s)) s)))
      end
  | RStoreGen i g a =>
      Some (at_pc t (RFinish i g a) (effect t (DoOp Reserve) (Op (Reserved i g))
              (with_reg (store_generation i g (reg s)) s)))
  | RFinish i g a =>
      Some (at_pc t (Holding i g) (returns t (DoOp Reserve) (Op (Reserved i g))
              (with_issued (i, g) (unlock_alloc (count_in a) s))))
  | CLock i g x => lock_slot t i (CStore i g x) s
  | CStore i g x =>
      let c := DoOp (Commit i g x) in
      Some (at_pc t Idle (returns t c (Op Committed) (effect t c (Op Committed)
              (unlock_slot i (with_reg (store_owner i (Some x) (reg s)) s)))))
  | GCheck i g =>
      if capacity (reg s) <=? i
      then Some (at_pc t (GMiss i g false) (effect t (Lookup i g) (Runner None) s))
      else match slot_at (reg s) i with
           | None => Some (at_pc t Panicked s)
           | Some sl =>
               if generation sl =? g then Some (at_pc t (GLock i g) s)
               else Some (at_pc t (GMiss i g false) (effect t (Lookup i g) (Runner None) s))
           end
  | GLock i g => lock_slot t i (GRecheck i g) s
  | GRecheck i g =>
      match slot_at (reg s) i with
      | None => Some (at_pc t Panicked (unlock_slot i s))
      | Some sl =>
          if generation sl =? g
          then Some (at_pc t (GClone i g) (effect t (Lookup i g) (Runner (owner sl)) s))
          else Some (at_pc t (GMiss i g true) (effect t (Lookup i g) (Runner None) s))
      end
  | GClone i g =>
      match slot_at (reg s) i with
      | None => Some (at_pc t Panicked (unlock_slot i s))
      | Some sl => Some (at_pc t Idle (returns t (Lookup i g) (Runner (owner sl)) (unlock_slot i s)))
      end
  | GMiss i g locked =>
      Some (at_pc t Idle (returns t (Lookup i g) (Runner None) (if locked then unlock_slot i s else s)))
  | VLock i g => lock_alloc t (VCheck i g) s
  | VCheck i g a =>
      if capacity (reg s) <=? i
      then Some (at_pc t (VMiss i g) (effect t (DoOp (Remove i g)) (Op (Removed None)) s))
      else match slot_at (reg s) i with
           | None => Some (at_pc t Panicked (with_alloc_owner None (with_reg (poison (reg s)) s)))
           | Some sl =>
               if generation sl =? g then Some (at_pc t (VStoreGen i g a) s)
               else Some (at_pc t (VMiss i g) (effect t (DoOp (Remove i g)) (Op (Removed None)) s))
           end
  | VStoreGen i g a =>
      Some (at_pc t (VLockOwner i g a)
              (effect t (DoOp (Remove i g))
                 (Op (Removed (sl ← slot_at (reg s) i; owner sl)))
                 (with_reg (store_generation i (wrap_u32 (g + 1)) (reg s)) s)))
  | VLockOwner i g a => lock_slot t i (VTake i g a) s
  | VTake i g a =>
      Some (at_pc t (VFinish i g (sl ← slot_at (reg s) i; owner sl) a)
              (unlock_slot i (with_reg (store_owner i None (reg s)) s)))
  | VFinish i g o a =>
      Some (at_pc t Idle (returns t (DoOp (Remove i g)) (Op (Removed o))
              (unlock_alloc (give_back i o a) s)))
  | VMiss i g =>
      Some (at_pc t Idle (returns t (DoOp (Remove i g)) (Op (Removed None)) (with_alloc_owner None s)))
  | NLock =>
      match alloc_owner s with
      | Some _ => None
      | None =>
          match lock_unwrap (alloc (reg s)) with
          | Ok a => Some (at_pc t (NFinish (live a)) (effect t Count (Number (live a))
                            (with_alloc_owner (Some t) s)))
          | _ => Some (at_pc t Panicked s)
          end
      end
  | NFinish n => Some (at_pc t Idle (returns t Count (Number n) (with_alloc_owner None s)))
  | SLock => lock_alloc t (λ a, SScan a [] (owners (reg s))) s
  | SScan a seen before =>
      if next_unused a <=? Z.of_nat (length seen)
      then Some (at_pc t Idle (with_snap (before, seen, owners (reg s)) (with_alloc_owner None s)))
      else match slot_owner s !! Z.of_nat (length seen), slots (reg s) !! length seen with
           | Some _, _ => None
           | None, Some sl => Some (at_pc t (SScan a (seen ++ [owner sl]) before) s)
           | None, None =>
               Some (at_pc t Panicked (with_alloc_owner None (with_reg (poison (reg s)) s)))
           end
  end.

(** Whether a thread is removing the actor of a handle. *)
Definition removing (pc : tpc) : option (Z * Z) :=
  match pc with
  | VLock i g | VCheck i g _ | VStoreGen i g _ | VLockOwner i g _ | VTake i g _
  | VFinish i g _ _ | VMiss i g => Some (i, g)
  | _ => None
  end.

Inductive raction : Type :=
| Step (t : nat)
| CallReserve (t : nat)
| CallCommit (t : nat) (x : R)     (** the thread that reserved commits its runner *)
| Abandon (t : nat)                (** or gives up: the spawn panicked in between *)
| CallLookup (t : nat) (i g : Z)   (** [post] or [kill] through a reference *)
| CallRemove (t : nat) (i g : Z)   (** [on_finalize] of the runner committed there *)
| CallCount (t : nat)
| CallSnapshot (t : nat).

Definition start (t : nat) (pc : tpc) (s : rsys) : option rsys :=
  match threads s !! t with Some Idle => Some (at_pc t pc s) | _ => None end.

Definition rstep (a : raction) (s : rsys) : option rsys :=
  match a with
  | Step t => pc ← threads s !! t; thread_step t pc s
  | CallReserve t => start t RLock s
  | CallCommit t x =>
      match threads s !! t with Some (Holding i g) => Some (at_pc t (CLock i g x) s) | _ => None end
  | Abandon t =>
      match threads s !! t with Some (Holding i g) => Some (at_pc t Idle s) | _ => None end
  | CallLookup t i g => if decide ((i, g) ∈ issued s) then start t (GCheck i g) s else None
  | CallRemove t i g =>
      if decide (is_Some (handles (table s) !! (i, g))
                 /\ Forall (λ pc, removing pc <> Some (i, g)) (threads s))
      then start t (VLock i g) s else None
  | CallCount t => start t NLock s
  | CallSnapshot t => start t SLock s
  end.

Definition rinitial (cap : Z) (n : nat) : rsys :=
  mkRsys (with_capacity cap) None ∅ (replicate n Idle) empty_table [] [] [] [].
End machine.
Arguments tpc R : clear implicits.
Arguments rcall R : clear implicits.
Arguments answer R : clear implicits.
Arguments rsys R : clear implicits.
Arguments raction R : clear implicits.

(** ** Locks *)
Section locks.
Context {R : Type}.
Implicit Types (s : rsys R) (pc : tpc R).

Definition holds_alloc pc : bool :=
  match pc with
  | RPick _ | RLoadGen _ _ | RStoreGen _ _ _ | RFinish _ _ _ | VCheck _ _ _ | VStoreGen _ _ _
  | VLockOwner _ _ _ | VTake _ _ _ | VFinish _ _ _ _ | VMiss _ _ | NFinish _ | SScan _ _ _ => true
  | _ => false
  end.

Definition holds_slot pc : option Z :=
  match pc with
  | CStore i _ _ | GRecheck i _ | GClone i _ | GMiss i _ true | VTake i _ _ => Some i
  | _ => None
  end.

(** The owner of a mutex is the thread that is inside its critical section. *)
Record locks_ok s : Prop := {
  lk_alloc : forall t, alloc_owner s = Some t <->
    exists pc, threads s !! t = Some pc /\ holds_alloc pc = true;
  lk_slot : forall i t, slot_owner s !! i = Some t <->
    exists pc, threads s !! t = Some pc /\ holds_slot pc = Some i;
}.

Lemma lookup_moved {A} (l : list A) t x y t' z :
  l !! t = Some x -> <[t := y]> l !! t' = Some z <-> (t' = t /\ z = y) \/ (t' <> t /\ l !! t' = Some z).
Proof.
  intros Ht. destruct (decide (t' = t)) as [->|Hne].
  - rewrite list_lookup_insert_eq by (by eapply lookup_lt_Some). naive_solver.
  - rewrite list_lookup_insert_ne by done. naive_solver.
Qed.

Lemma locks_move s s' t pc pc' :
  locks_ok s -> threads s !! t = Some pc -> threads s' = <[t := pc']> (threads s) ->
  (holds_alloc pc' = holds_alloc pc /\ alloc_owner s' = alloc_owner s
   \/ holds_alloc pc' = true /\ alloc_owner s = None /\ alloc_owner s' = Some t
   \/ holds_alloc pc = true /\ holds_alloc pc' = false /\ alloc_owner s' = None) ->
  (holds_slot pc' = holds_slot pc /\ slot_owner s' = slot_owner s
   \/ (exists i, holds_slot pc = None /\ holds_slot pc' = Some i /\ slot_owner s !! i = None
        /\ slot_owner s' = <[i := t]> (slot_owner s))
   \/ (exists i, holds_slot pc = Some i /\ holds_slot pc' = None
        /\ slot_owner s' = delete i (slot_owner s))) ->
  locks_ok s'.
Proof.
  intros HL Ht Hth Ha Hs. split.
  - intros t'. rewrite Hth. setoid_rewrite (lookup_moved _ t pc pc' t' _ Ht).
    pose proof (lk_alloc s HL) as HA.
    destruct Ha as [[E ->]|[(E & Hn & ->)|(E & E' & ->)]].
    + rewrite HA. destruct (decide (t' = t)) as [->|Hne]; [|naive_solver].
      rewrite Ht. split; [intros (p & ? & ?)|intros (p & [[_ ->]|[? _]] & ?)]; simplify_eq; eauto.
      exists pc'. rewrite E. auto.
    + split.
      * intros [= <-]. eauto.
      * intros (p & [[-> _]|[Hne Hp]] & Hh); [done|].
        assert (alloc_owner s = Some t') by (apply HA; eauto). congruence.
    + split; [done|]. intros (p & [[_ ->]|[Hne Hp]] & Hh); [congruence|].
      assert (alloc_owner s = Some t') by (apply HA; eauto).
      assert (alloc_owner s = Some t) by (apply HA; eauto). congruence.
  - intros j t'. rewrite Hth. setoid_rewrite (lookup_moved _ t pc pc' t' _ Ht).
    pose proof (lk_slot s HL j) as HS.
    destruct Hs as [[E ->]|[(i & E1 & E2 & Hn & ->)|(i & E1 & E2 & ->)]].
    + rewrite HS. destruct (decide (t' = t)) as [->|Hne]; [|naive_solver].
      rewrite Ht. split; [intros (p & ? & ?)|intros (p & [[_ ->]|[? _]] & ?)]; simplify_eq; eauto.
      * exists pc'. rewrite E. auto.
      * exists pc. rewrite <- E. auto.
    + destruct (decide (i = j)) as [<-|Hij].
      * rewrite lookup_insert_eq. split; [intros [= <-]; eauto|].
        intros (p & [[-> _]|[Hne Hp]] & Hh); [done|].
        assert (slot_owner s !! i = Some t') by (apply HS; eauto). congruence.
      * rewrite lookup_insert_ne, HS by done. split; [intros (p & Hp & Hh)|intros (p & [[_ ->]|[_ ?]] & ?); [congruence|eauto]].
        exists p. split; [|done]. right. split; [|done]. intros ->. congruence.
    + destruct (decide (i = j)) as [<-|Hij].
      * rewrite lookup_delete_eq. split; [done|].
        intros (p & [[_ ->]|[Hne Hp]] & Hh); [congruence|].
        assert (slot_owner s !! i = Some t') by (apply HS; eauto).
        assert (slot_owner s !! i = Some t) by (apply HS; eauto). congruence.
      * rewrite lookup_delete_ne, HS by done. split; [intros (p & Hp & Hh)|intros (p & [[_ ->]|[_ ?]] & ?); [congruence|eauto]].
        exists p. split; [|done]. right. split; [|done]. intros ->. congruence.
Qed.

End locks.

(** Case analysis of a step. *)
Ltac split_rstep H :=
  match type of H with
  | rstep ?a ?s = Some ?s' =>
      destruct a as [t|t|t x|t|t i g|t i g|t|t]; cbn [rstep] in H; unfold start in H;
      [ destruct (threads s !! t) as [pc|] eqn:Ht; [|done]; cbn [mbind option_bind] in H;
        destruct pc; cbn [thread_step] in H; unfold lock_alloc, lock_slot in H
      | .. ];
      repeat case_match; simplify_eq
  end.

Lemma locks_step {R} a (s s' : rsys R) : locks_ok s -> rstep a s = Some s' -> locks_ok s'.
Proof.
  intros HL H. split_rstep H; (eapply (locks_move s); [done|eassumption|reflexivity|..]); cbn;
    first [ left; split; reflexivity
          | right; left; split_and!; first [reflexivity|eassumption]
          | right; right; split_and!; reflexivity
          | right; left; eexists; split_and!; first [reflexivity|eassumption]
          | right; right; eexists; split_and!; reflexivity ].
Qed.
