(* ===== verification/RegistryLinear.v ===== *)
(** The registry of [RegistryConcurrent] takes effect one call at a time: the
    abstraction that looks through the call inside the allocation mutex, the
    invariant, the simulation of every step by at most one sequential call, and
    the theorems. *)
From S2P Require Import Prelude Registry RegistryConcurrent.

(** ** The registry the threads stand for *)
Section abstraction.
Context {R : Type}.
Implicit Types (s : rsys R) (pc : tpc R) (r : ActorRegistry R).

Definition owner_at r (i : Z) : option R := sl ← slot_at r i; owner sl.

(** A call inside the allocation mutex that has taken effect owes memory the
    rest of its writes. *)
Definition view pc r : ActorRegistry R :=
  match pc with
  | RFinish i g a => set_alloc r (count_in a)
  | VLockOwner i g a | VTake i g a => set_alloc (store_owner i None r) (give_back i (owner_at r i) a)
  | VFinish i g o a => set_alloc r (give_back i o a)
  | _ => r
  end.

Definition alpha s : ActorRegistry R :=
  match alloc_owner s with
  | Some t => match threads s !! t with Some pc => view pc (reg s) | None => reg s end
  | None => reg s
  end.

(** One call at a time. *)
Definition seq_call (c : rcall R) r : answer R * ActorRegistry R :=
  match c with
  | DoOp op => let '(y, r') := apply op r in (Op y, r')
  | Lookup i g => (Runner (resolve r i g), r)
  | Count => match live_count r with (Ok n, r') => (Number n, r') | (_, r') => (Op Failed, r') end
  end.

(** The handle a thread has reserved and not committed. *)
Definition claiming pc : option (Z * Z) :=
  match pc with
  | RFinish i g _ | Holding i g | CLock i g _ | CStore i g _ => Some (i, g)
  | _ => None
  end.

(** What was not there before may be there after; what was there stays. *)
Definition grows (o o' : option R) : Prop := o = None \/ o' = o.

Definition pc_ok s pc : Prop :=
  match pc with
  | RPick a => a = inner (alloc (reg s))
  | RLoadGen i a => pick (capacity (reg s)) (inner (alloc (reg s))) = Some (i, a)
  | RStoreGen i g a =>
      pick (capacity (reg s)) (inner (alloc (reg s))) = Some (i, a)
      /\ exists sl, slot_at (reg s) i = Some sl /\ g = wrap_u32 (generation sl + 1)
  | RFinish i g _ | Holding i g | CLock i g _ | CStore i g _ => (i, g) ∈ reserved (table s)
  | GCheck i g | GMiss i g _ => 0 <= i /\ Z.odd g = true
  | GLock i g | GRecheck i g | GClone i g => 0 <= i < capacity (reg s) /\ Z.odd g = true
  | VLock i g => is_Some (handles (table s) !! (i, g))
  | VCheck i g a | VStoreGen i g a =>
      is_Some (handles (table s) !! (i, g)) /\ a = inner (alloc (reg s))
  | VLockOwner i g a | VTake i g a =>
      a = inner (alloc (reg s)) /\ 0 <= i < capacity (reg s)
      /\ exists x, slot_at (reg s) i = Some (mkSlot (wrap_u32 (g + 1)) (Some x))
  | VMiss _ _ | Panicked => False
  | SScan a seen before =>
      a = inner (alloc (reg s)) /\ Forall2 grows before (owners (reg s))
      /\ Forall2 grows (take (length seen) before) seen
      /\ Forall2 grows seen (take (length seen) (owners (reg s)))
  | _ => True
  end.

Record data_ok s : Prop := {
  d_table : table_rel (alpha s) (table s);
  d_parity : forall i sl, 0 <= i -> slot_at (alpha s) i = Some sl ->
    (Z.odd (generation sl) = true <-> taken (alpha s) i);
  d_issued : forall i g, (i, g) ∈ issued s -> 0 <= i /\ Z.odd g = true;
  d_pc : forall t pc, threads s !! t = Some pc -> pc_ok s pc;
  d_claims : forall t t' pc pc' i g g', threads s !! t = Some pc -> threads s !! t' = Some pc' ->
    claiming pc = Some (i, g) -> claiming pc' = Some (i, g') -> t = t';
  d_removing : forall t t' pc pc' h, threads s !! t = Some pc -> threads s !! t' = Some pc' ->
    removing pc = Some h -> removing pc' = Some h -> t = t';
}.

(** ** What a step changes *)

(** Only the holder of the allocation guard is looked through. *)
Lemma alpha_holder s t pc :
  locks_ok s -> threads s !! t = Some pc -> holds_alloc pc = true -> alpha s = view pc (reg s).
Proof.
  intros HL Ht Hh. unfold alpha.
  rewrite (proj2 (lk_alloc s HL t)) by eauto. by rewrite Ht.
Qed.

Lemma alpha_free s : alloc_owner s = None -> alpha s = reg s.
Proof. intros E. unfold alpha. by rewrite E. Qed.

(** A step of a thread that holds no allocation guard. *)
Lemma alpha_other s s' t pc pc' :
  locks_ok s -> threads s !! t = Some pc -> holds_alloc pc = false ->
  reg s' = reg s -> threads s' = <[t := pc']> (threads s) -> alloc_owner s' = alloc_owner s ->
  alpha s' = alpha s.
Proof.
  intros HL Ht Hh Hr Hth Ha. unfold alpha. rewrite Ha, Hr, Hth.
  destruct (alloc_owner s) as [t'|] eqn:E; [|done].
  apply (lk_alloc s HL) in E as (p & Hp & Hhp).
  rewrite list_lookup_insert_ne; [done|]. intros ->. congruence.
Qed.

Lemma store_generation_slot r i sl g :
  slot_at r i = Some sl -> store_generation i g r = set_slot r i (mkSlot g (owner sl)).
Proof. intros E. unfold store_generation. by rewrite E. Qed.
Lemma store_owner_slot r i sl o :
  slot_at r i = Some sl -> store_owner i o r = set_slot r i (mkSlot (generation sl) o).
Proof. intros E. unfold store_owner. by rewrite E. Qed.

Lemma capacity_store_generation r i g : capacity (store_generation i g r) = capacity r.
Proof. unfold store_generation. by case_match. Qed.
Lemma capacity_store_owner r i o : capacity (store_owner i o r) = capacity r.
Proof. unfold store_owner. by case_match. Qed.

(** The sequential [reserve] is the pick, the bump and the count. *)
Lemma reserve_pick r i a sl :
  poisoned (alloc r) = false -> pick (capacity r) (inner (alloc r)) = Some (i, a) ->
  slot_at r i = Some sl ->
  reserve r = (Ok (i, wrap_u32 (generation sl + 1)),
    set_alloc (set_slot r i (mkSlot (wrap_u32 (generation sl + 1)) (owner sl))) (count_in a)).
Proof.
  intros Hp Hk Hs. unfold reserve, with_alloc, lock_unwrap, pick in *. rewrite Hp.
  destruct (free (inner (alloc r))) as [|j rest].
  - destruct (capacity r <=? next_unused (inner (alloc r))); simplify_eq.
    unfold reserve_slot. by rewrite Hs.
  - simplify_eq. unfold reserve_slot. by rewrite Hs.
Qed.

Lemma pick_room r i a :
  wf r -> pick (capacity r) (inner (alloc r)) = Some (i, a) ->
  has_room r /\ 0 <= i < capacity r /\ ~ taken r i
  /\ forall sl, taken (set_alloc (set_slot r i sl) (count_in a)) i
  /\ forall j, j <> i -> taken (set_alloc (set_slot r i sl) (count_in a)) j <-> taken r j.
Proof.
  intros H Hk. unfold has_room. pose proof (wf_next r H) as Hn. pose proof (wf_live r H) as Hl.
  pose proof (wf_nodup r H) as Hnd. pose proof (wf_free r H) as Hf. unfold pick, taken in *.
  destruct (free (inner (alloc r))) as [|j rest] eqn:E.
  - destruct (Z.leb_spec (capacity r) (next_unused (inner (alloc r)))); simplify_eq. cbn in *.
    split_and!; try lia. intros sl. split_and!; try lia; [set_solver|].
    intros j Hj. split; intros [? ?]; split; (lia || set_solver).
  - simplify_eq. cbn in *. apply NoDup_cons in Hnd as [Hni Hnd].
    pose proof (Hf i ltac:(set_solver)) as Hi. split_and!; try lia; [set_solver|].
    intros sl. split; [by split|]. intros j Hj. set_solver.
Qed.

Lemma odd_wrap_u32 z : Z.odd (wrap_u32 z) = Z.odd z.
Proof.
  unfold wrap_u32. rewrite Z.mod_eq by lia. rewrite Z.odd_sub, Z.odd_mul. cbn.
  by rewrite xorb_false_r.
Qed.
End abstraction.

(** ** Preservation *)
Section preservation.
Context {R : Type}.
Implicit Types (s : rsys R) (pc : tpc R) (r : ActorRegistry R).

(** One thread moves; the parts of the invariant about the table are given. *)
Lemma data_move s s' t pc pc' :
  data_ok s -> threads s !! t = Some pc -> threads s' = <[t := pc']> (threads s) ->
  table_rel (alpha s') (table s') ->
  (forall i sl, 0 <= i -> slot_at (alpha s') i = Some sl ->
     (Z.odd (generation sl) = true <-> taken (alpha s') i)) ->
  (forall i g, (i, g) ∈ issued s' -> 0 <= i /\ Z.odd g = true) ->
  (forall t' p, t' <> t -> threads s !! t' = Some p -> pc_ok s p -> pc_ok s' p) -> pc_ok s' pc' ->
  (claiming pc' = None \/ claiming pc' = claiming pc
   \/ forall i g, claiming pc' = Some (i, g) -> forall t' p g', threads s !! t' = Some p ->
        claiming p <> Some (i, g')) ->
  (removing pc' = None \/ removing pc' = removing pc
   \/ forall t' p, threads s !! t' = Some p -> removing p <> removing pc') ->
  data_ok s'.
Proof.
  intros HD Ht Hth HT HP HI Ho Hok Hc Hr. split; try done; rewrite Hth.
  - intros t' p [[-> ->]|[Hne Hp]]%(lookup_moved _ t pc pc' _ _ Ht); [done|].
    by eapply Ho; [..|eapply (d_pc s HD)].
  - intros t1 t2 p1 p2 i g g'. rewrite !(lookup_moved _ t pc pc' _ _ Ht).
    intros [[-> ->]|[Hn1 H1]] [[-> ->]|[Hn2 H2]] E1 E2; try done.
    + destruct Hc as [Hc|[Hc|Hc]]; [congruence| |by destruct (Hc i g E1 t2 p2 g' H2)].
      symmetry. apply (d_claims s HD t2 t p2 pc i g' g H2 Ht E2). congruence.
    + destruct Hc as [Hc|[Hc|Hc]]; [congruence| |by destruct (Hc i g' E2 t1 p1 g H1)].
      apply (d_claims s HD t1 t p1 pc i g g' H1 Ht E1). congruence.
    + by eapply (d_claims s HD t1 t2).
  - intros t1 t2 p1 p2 h. rewrite !(lookup_moved _ t pc pc' _ _ Ht).
    intros [[-> ->]|[Hn1 H1]] [[-> ->]|[Hn2 H2]] E1 E2; try done.
    + destruct Hr as [Hr|[Hr|Hr]]; [congruence| |by destruct (Hr t2 p2 H2); congruence].
      symmetry. apply (d_removing s HD t2 t p2 pc h H2 Ht E2). congruence.
    + destruct Hr as [Hr|[Hr|Hr]]; [congruence| |by destruct (Hr t1 p1 H1); congruence].
      apply (d_removing s HD t1 t p1 pc h H1 Ht E1). congruence.
    + by eapply (d_removing s HD t1 t2).
Qed.

Lemma pc_ok_ext s s' pc : reg s' = reg s -> table s' = table s -> pc_ok s pc -> pc_ok s' pc.
Proof. intros Hr Ht. destruct pc; cbn; by rewrite ?Hr, ?Ht. Qed.

(** A step that changes neither memory nor the table. *)
Lemma data_local s s' t pc pc' :
  data_ok s -> threads s !! t = Some pc -> threads s' = <[t := pc']> (threads s) ->
  reg s' = reg s -> table s' = table s -> issued s' = issued s -> alpha s' = alpha s ->
  pc_ok s pc' -> (claiming pc' = None \/ claiming pc' = claiming pc) ->
  (removing pc' = None \/ removing pc' = removing pc
   \/ forall t' p, threads s !! t' = Some p -> removing p <> removing pc') ->
  data_ok s'.
Proof.
  intros HD Ht Hth Hr Htb Hi Ha Hok Hc Hv.
  eapply data_move; eauto; rewrite ?Ha, ?Htb, ?Hi; try apply HD.
  - intros t' p _ _. by apply pc_ok_ext.
  - by apply (pc_ok_ext s).
  - naive_solver.
Qed.

(** Threads outside the allocation mutex only rely on the table. *)
Lemma pc_ok_outside s s' pc :
  holds_alloc pc = false -> pc_ok s pc -> capacity (reg s') = capacity (reg s) ->
  (forall h, claiming pc = Some h -> h ∈ reserved (table s) -> h ∈ reserved (table s')) ->
  (forall h, removing pc = Some h -> is_Some (handles (table s) !! h) ->
     is_Some (handles (table s') !! h)) ->
  pc_ok s' pc.
Proof. intros Hh Hok Hcap Hc Hr. destruct pc; try done; cbn in *; rewrite ?Hcap; eauto. Qed.

Lemma others_outside s t pc t' p :
  locks_ok s -> threads s !! t = Some pc -> holds_alloc pc = true ->
  threads s !! t' = Some p -> t' <> t -> holds_alloc p = false.
Proof.
  intros HL Ht Hh Hp Hne. destruct (holds_alloc p) eqn:E; [|done]. exfalso. apply Hne.
  assert (alloc_owner s = Some t) by (apply (lk_alloc s HL); eauto).
  assert (alloc_owner s = Some t') by (apply (lk_alloc s HL); eauto). congruence.
Qed.

(** A reservation that is not committed has its slot to itself. *)
Lemma reserved_slot s i g :
  data_ok s -> (i, g) ∈ reserved (table s) ->
  taken (alpha s) i /\ slot_at (alpha s) i = Some (mkSlot g None) /\ 0 <= i < capacity (alpha s)
  /\ Z.odd g = true.
Proof.
  intros HD Hin. destruct (tr_reserved _ _ (d_table s HD) i g Hin) as [Ht Hs].
  pose proof (tr_wf _ _ (d_table s HD)) as Hwf. pose proof (wf_next _ Hwf).
  destruct Ht as [Hr Hf]. split; [by split|]. split; [done|]. split; [lia|].
  apply (d_parity s HD i _ ltac:(lia) Hs). by split.
Qed.

Lemma claiming_reserved s pc h : pc_ok s pc -> claiming pc = Some h -> h ∈ reserved (table s).
Proof. destruct pc; cbn; try discriminate; intros Hok [= <-]; exact Hok. Qed.

Lemma step_reserve s t i g a (HL : locks_ok s) (HD : data_ok s) :
  poisoned (alloc (reg s)) = false -> threads s !! t = Some (RStoreGen i g a) ->
  let s' := at_pc t (RFinish i g a) (effect t (DoOp Reserve) (Op (Reserved i g))
              (with_reg (store_generation i g (reg s)) s)) in
  seq_call (DoOp Reserve) (alpha s) = (Op (Reserved i g), alpha s') /\ data_ok s'.
Proof.
  intros Hp Ht s'. pose proof (d_pc s HD t _ Ht) as (Hk & sl & Hs & Hg).
  assert (alpha s = reg s) as Ea by (by rewrite (alpha_holder s t _ HL Ht)).
  pose proof (d_table s HD) as HT. pose proof (d_parity s HD) as HP. rewrite Ea in HT, HP.
  pose proof (tr_wf _ _ HT) as Hwf.
  destruct (pick_room (reg s) i a Hwf Hk) as (Hroom & Hi & Hnt & Htk).
  assert (reserve (reg s) = (Ok (i, g), set_alloc (set_slot (reg s) i (mkSlot g (owner sl))) (count_in a)))
    as Hres by (rewrite Hg; by apply reserve_pick).
  assert (alpha s' = set_alloc (set_slot (reg s) i (mkSlot g (owner sl))) (count_in a)) as Ea'.
  { assert (alloc_owner s = Some t) as Eo by (apply (lk_alloc s HL); eauto).
    unfold alpha, s'. cbn. rewrite Eo, list_lookup_insert_eq by (by eapply lookup_lt_Some).
    cbn. by rewrite (store_generation_slot _ _ sl). }
  split; [unfold seq_call, apply; by rewrite Ea, Hres, Ea'|].
  destruct (sim_reserve (reg s) (table s) HT) as [_ HT'];
    [unfold has_room in Hroom; by rewrite <- (tr_live _ _ HT)|].
  unfold apply in HT'. rewrite Hres in HT'. cbn [fst snd] in HT'. rewrite <- Ea' in HT'.
  eapply (data_move s s' t _ (RFinish i g a)); try done; try apply HD.
  - intros j slj Hj. rewrite Ea'.
    change (slot_at (set_alloc ?r ?x) j) with (slot_at r j).
    rewrite slot_at_set by (done || lia || eauto). case_decide as E.
    + subst j. intros [= <-]. assert (Z.odd (generation sl) = false) as Eo.
      { apply not_true_iff_false. by rewrite (HP i sl Hj Hs). }
      cbn [generation]. rewrite Hg, odd_wrap_u32, Z.odd_add, Eo. split; [intros _; apply (proj1 (Htk _))|done].
    + intros Hslj. rewrite (proj2 (Htk _)) by done. by apply HP.
  - intros t' p Hne Hp' Hok. eapply (pc_ok_outside s); [|done|..].
    + eapply (others_outside s t); eauto.
    + apply capacity_store_generation.
    + intros h _ Hh. cbn. set_solver.
    + intros h _ Hh. done.
  - cbn. set_solver.
  - right. right. intros i' g' [= <- <-] t' p g'' Hp' Hc.
    pose proof (claiming_reserved s p _ (d_pc s HD t' p Hp') Hc) as Hin.
    destruct (reserved_slot s i g'' HD Hin) as [Hti _]. rewrite Ea in Hti. done.
  - by left.
Qed.

(** ** A commit, seen through whatever call is inside the allocation mutex *)

(** The slot a removal has marked and not yet emptied. *)
Definition emptying pc : option Z :=
  match pc with VLockOwner i _ _ | VTake i _ _ => Some i | _ => None end.

Lemma slot_at_ne r i j sl : 0 <= i -> 0 <= j -> i <> j -> slot_at (set_slot r i sl) j = slot_at r j.
Proof. intros. unfold slot_at, set_slot. cbn. apply list_lookup_insert_ne. lia. Qed.

Lemma slot_at_owner_ne r i j o : 0 <= i -> 0 <= j -> i <> j -> slot_at (store_owner i o r) j = slot_at r j.
Proof. intros. unfold store_owner. case_match; [by apply slot_at_ne|done]. Qed.

Lemma slot_at_view pc r i :
  0 <= i -> (forall j, emptying pc = Some j -> 0 <= j /\ j <> i) -> slot_at (view pc r) i = slot_at r i.
Proof.
  intros Hi Hne. destruct pc as [| | | | | | | | | | | | | | | | | |j g a|j g a| | | | | |]; try done;
    (destruct (Hne j eq_refl); cbn [view];
     change (slot_at (set_alloc ?x ?y) i) with (slot_at x i); by apply slot_at_owner_ne).
Qed.

Lemma store_owner_comm r i j o o' :
  0 <= i -> 0 <= j -> i <> j -> store_owner j o' (store_owner i o r) = store_owner i o (store_owner j o' r).
Proof.
  intros Hi Hj Hne. unfold store_owner.
  destruct (slot_at r i) as [si|] eqn:Ei, (slot_at r j) as [sj|] eqn:Ej; rewrite ?Ei, ?Ej;
    rewrite ?slot_at_ne, ?Ei, ?Ej by (done || lia); try done.
  unfold set_slot. cbn. f_equal. apply list_insert_insert_ne. lia.
Qed.

Lemma view_store_owner pc r i o :
  0 <= i -> (forall j, emptying pc = Some j -> 0 <= j /\ j <> i) ->
  view pc (store_owner i o r) = store_owner i o (view pc r).
Proof.
  intros Hi Hne.
  assert (forall r0 a, set_alloc (store_owner i o r0) a = store_owner i o (set_alloc r0 a)) as Hcomm.
  { intros r0 a. unfold store_owner. change (slot_at (set_alloc r0 a) i) with (slot_at r0 i).
    by case_match. }
  destruct pc as [| | | | | | | | | | | | | | | | | |j g a|j g a| | | | | |]; try done;
    cbn [view]; rewrite ?Hcomm; try done;
    (destruct (Hne j eq_refl); unfold owner_at;
     rewrite slot_at_owner_ne, store_owner_comm by (done || lia); apply Hcomm).
Qed.

(** Owners that appear during a scan keep it sound. *)
Lemma grows_insert (l l' : list (option R)) k o :
  Forall2 grows l l' -> (forall y, l' !! k = Some y -> y = None) -> Forall2 grows l (<[k := o]> l').
Proof.
  intros HF Hk. apply Forall2_same_length_lookup_2.
  - rewrite length_insert. by eapply Forall2_length.
  - intros j x y Hx Hy. destruct (decide (j = k)) as [->|Hne].
    + destruct (Forall2_lookup_l _ _ _ _ _ HF Hx) as (z & Hz & Hg).
      rewrite (Hk z Hz) in Hg. left. by destruct Hg.
    + rewrite list_lookup_insert_ne in Hy by done.
      by eapply (Forall2_lookup_lr _ l l' j).
Qed.

Lemma owners_store_owner r i o :
  0 <= i -> owners (store_owner i o r) = <[Z.to_nat i := o]> (owners r).
Proof.
  intros Hi. unfold owners, store_owner, slot_at. destruct (slots r !! Z.to_nat i) as [sl|] eqn:E.
  - cbn. by rewrite list_fmap_insert.
  - rewrite list_insert_ge; [done|]. rewrite length_fmap. by apply lookup_ge_None.
Qed.

(** What other threads rely on survives the commit of a reserved slot. *)
Lemma pc_ok_commit s s' i g o p :
  0 <= i -> slot_at (reg s) i = Some (mkSlot g None) -> reg s' = store_owner i o (reg s) ->
  holds_alloc p = true -> (forall j, emptying p = Some j -> 0 <= j /\ j <> i) ->
  (forall h, h ∈ reserved (table s) -> claiming p = Some h -> h ∈ reserved (table s')) ->
  (forall h, is_Some (handles (table s) !! h) -> is_Some (handles (table s') !! h)) ->
  pc_ok s p -> pc_ok s' p.
Proof.
  intros Hi Hs Hr Hh He Hc Hv Hok.
  assert (alloc (reg s') = alloc (reg s) /\ capacity (reg s') = capacity (reg s)) as [Ea Ec]
    by (rewrite Hr; unfold store_owner; by case_match).
  assert (forall j sl, slot_at (reg s) j = Some sl -> exists sl', slot_at (reg s') j = Some sl'
    /\ generation sl' = generation sl) as Hgen.
  { intros j sl Hj. rewrite Hr, (store_owner_slot _ _ _ _ Hs). unfold slot_at, set_slot in *. cbn.
    destruct (decide (Z.to_nat i = Z.to_nat j)) as [E|E].
    - rewrite E, list_lookup_insert_eq by (by eapply lookup_lt_Some). rewrite <- E, Hs in Hj.
      eexists. split; [done|]. by simplify_eq.
    - rewrite list_lookup_insert_ne by done. eauto. }
  destruct p as [| | |a|j a|j h a|j h a| | | | | | | | |j h|j h a|j h a|j h a|j h a| | | | | |a seen before];
    try done; cbn [pc_ok] in *; rewrite ?Ea, ?Ec in *; eauto.
  - destruct Hok as (Hp & sl & Hsl & ->). split; [done|].
    destruct (Hgen j sl Hsl) as (sl' & Hsl' & <-). eauto.
  - destruct Hok as [? ?]. eauto.
  - destruct Hok as [? ?]. eauto.
  - destruct (He j eq_refl). by rewrite Hr, slot_at_owner_ne.
  - destruct (He j eq_refl). by rewrite Hr, slot_at_owner_ne.
  - destruct Hok as (-> & H1 & H2 & H3).
    assert (forall y, owners (reg s) !! Z.to_nat i = Some y -> y = None) as Hn.
    { intros y Hy. unfold owners in Hy. rewrite list_lookup_fmap in Hy. unfold slot_at in Hs.
      rewrite Hs in Hy. by simplify_eq/=. }
    rewrite Hr, owners_store_owner by done. split_and!; [done|by apply grows_insert|done|].
    rewrite take_insert. case_decide; [|done]. apply grows_insert; [done|].
    intros y Hy. apply Hn. by rewrite lookup_take_lt in Hy.
Qed.

(** The slot a removal is emptying is already free. *)
Lemma emptying_untaken s t p j :
  locks_ok s -> data_ok s -> threads s !! t = Some p -> emptying p = Some j ->
  0 <= j /\ ~ taken (alpha s) j.
Proof.
  intros HL HD Hp He. assert (holds_alloc p = true) as Hh by (by destruct p).
  pose proof (d_pc s HD t p Hp) as Hok. rewrite (alpha_holder s t p HL Hp Hh). unfold taken.
  destruct p; simplify_eq/=; destruct Hok as (_ & Hj & x & Hx); unfold owner_at;
    rewrite Hx; cbn; (split; [lia|set_solver]).
Qed.

(** So it is another slot than that of a reservation. *)
Lemma emptying_apart s t p j i g :
  locks_ok s -> data_ok s -> threads s !! t = Some p -> emptying p = Some j ->
  (i, g) ∈ reserved (table s) -> 0 <= j /\ j <> i.
Proof.
  intros HL HD Hp He Hin. destruct (reserved_slot s i g HD Hin) as [Ht _].
  destruct (emptying_untaken s t p j HL HD Hp He) as [? Hnt]. split; [done|]. by intros ->.
Qed.

Lemma step_commit s t i g x (HL : locks_ok s) (HD : data_ok s) :
  threads s !! t = Some (CStore i g x) ->
  let c := DoOp (Commit i g x) in
  let s' := at_pc t Idle (returns t c (Op Committed) (effect t c (Op Committed)
              (unlock_slot i (with_reg (store_owner i (Some x) (reg s)) s)))) in
  seq_call c (alpha s) = (Op Committed, alpha s') /\ data_ok s'.
Proof.
  intros Ht c s'. pose proof (d_pc s HD t _ Ht) as Hin. cbn in Hin.
  destruct (reserved_slot s i g HD Hin) as (Htk & Hsl & Hi & Hodd).
  pose proof (d_table s HD) as HT. pose proof (fun t p j => emptying_apart s t p j i g HL HD) as Hap.
  assert (alpha s' = store_owner i (Some x) (alpha s) /\ slot_at (reg s) i = Some (mkSlot g None))
    as [Ea Hm].
  { unfold alpha in *. change (alloc_owner s') with (alloc_owner s).
    change (threads s') with (<[t := Idle]> (threads s)).
    change (reg s') with (store_owner i (Some x) (reg s)).
    destruct (alloc_owner s) as [t'|] eqn:E; [|done].
    apply (lk_alloc s HL) in E as (p & Hp & Hhp).
    rewrite list_lookup_insert_ne by (intros ->; rewrite Ht in Hp; by simplify_eq). rewrite Hp in *.
    rewrite view_store_owner, slot_at_view in * by (done || lia || eauto). done. }
  assert (apply (Commit i g x) (alpha s) = (Committed, alpha s')) as Happ.
  { unfold apply, commit. by rewrite Hsl, Ea, (store_owner_slot _ _ _ _ Hsl). }
  split; [unfold c, seq_call; by rewrite Happ|].
  destruct (sim_commit (alpha s) (table s) i g x HT Hin) as [_ HT']. rewrite Happ in HT'.
  cbn [fst snd] in HT'.
  eapply (data_move s s' t _ Idle); try done; try apply HD.
  - intros j slj Hj. rewrite Ea, (store_owner_slot _ _ _ _ Hsl).
    rewrite slot_at_set by (done || lia || eauto). case_decide as E.
    + subst j. intros [= <-]. apply (d_parity s HD i _ Hj Hsl).
    + apply (d_parity s HD j slj Hj).
  - intros t' p Hne Hp Hok.
    assert (forall h, h ∈ reserved (table s) -> claiming p = Some h -> h ∈ reserved (table s')) as Hc.
    { intros [i' g'] Hh Hc. cbn. apply elem_of_difference. split; [done|].
      rewrite elem_of_singleton. intros [= -> ->]. apply Hne.
      by apply (d_claims s HD t' t p _ i g g Hp Ht Hc). }
    assert (forall h, is_Some (handles (table s) !! h) -> is_Some (handles (table s') !! h)) as Hv.
    { intros h Hh. cbn. destruct (decide ((i, g) = h)) as [<-|Hd];
        [rewrite lookup_insert_eq; eauto|by rewrite lookup_insert_ne]. }
    destruct (holds_alloc p) eqn:Eh.
    + eapply (pc_ok_commit s s' i g (Some x)); eauto; lia.
    + eapply (pc_ok_outside s); [done|done|apply capacity_store_owner|eauto..].
  - by left.
  - by left.
Qed.

Lemma step_remove s t i g a (HL : locks_ok s) (HD : data_ok s) :
  threads s !! t = Some (VStoreGen i g a) ->
  let y := Op (Removed (owner_at (reg s) i)) in
  let s' := at_pc t (VLockOwner i g a) (effect t (DoOp (Remove i g)) y
              (with_reg (store_generation i (wrap_u32 (g + 1)) (reg s)) s)) in
  seq_call (DoOp (Remove i g)) (alpha s) = (y, alpha s') /\ data_ok s'.
Proof.
  intros Ht y s'. pose proof (d_pc s HD t _ Ht) as [[x Hx] ->].
  assert (alpha s = reg s) as Ea by (by rewrite (alpha_holder s t _ HL Ht)).
  pose proof (d_table s HD) as HT. pose proof (d_parity s HD) as HP. rewrite Ea in HT, HP.
  pose proof (tr_wf _ _ HT) as Hwf.
  destruct (proj1 (tr_handles _ _ HT i g x) Hx) as [Hi Hs].
  assert (owner_at (reg s) i = Some x) as Ho by (unfold owner_at; by rewrite Hs).
  set (a := inner (alloc (reg s))) in *.
  assert (alpha s' = set_alloc (set_slot (reg s) i (mkSlot (wrap_u32 (g + 1)) None))
            (give_back i (Some x) a)) as Ea'.
  { assert (alloc_owner s = Some t) as Eo by (apply (lk_alloc s HL); eauto).
    unfold alpha, s'. cbn. rewrite Eo, list_lookup_insert_eq by (by eapply lookup_lt_Some).
    cbn. unfold store_generation. rewrite Hs. cbn. unfold store_owner, owner_at.
    rewrite !slot_at_set, !decide_True by (done || lia || eauto). cbn.
    unfold set_slot. cbn. by rewrite list_insert_insert_eq. }
  assert (remove i g (reg s) = (Ok (Some x), alpha s')) as Hrem.
  { unfold remove, with_alloc, lock_unwrap. rewrite (wf_sound _ Hwf), Hs.
    destruct (Z.leb_spec (capacity (reg s)) i); [lia|]. cbn. by rewrite Z.eqb_refl, Ea'. }
  split; [unfold seq_call, apply, y; by rewrite Ea, Hrem, Ho|].
  destruct (sim_remove (reg s) (table s) i g HT ltac:(lia)) as [_ HT'].
  unfold apply in HT'. rewrite Hrem in HT'. cbn [fst snd] in HT'.
  assert ((i, g) ∉ reserved (table s)) as Hnr.
  { intros Hin. by rewrite (reserved_not_handle _ _ i g g HT Hin) in Hx. }
  eapply (data_move s s' t _ (VLockOwner i g a)); try done; try apply HD.
  - assert (taken (reg s) i) as Htk.
    { destruct (wf_owner _ Hwf (Z.to_nat i) _ x Hs eq_refl) as [H1 H2].
      rewrite Z2Nat.id in * by lia. split; [lia|done]. }
    intros j slj Hj. rewrite Ea'. change (slot_at (set_alloc ?r ?z) j) with (slot_at r j).
    rewrite slot_at_set by (done || lia || eauto). case_decide as E.
    + subst j. intros [= <-]. cbn [generation]. rewrite odd_wrap_u32, Z.odd_add.
      pose proof (proj2 (HP i _ Hj Hs) Htk) as Eo. cbn in Eo. rewrite Eo.
      unfold taken. cbn. split; [done|set_solver].
    + intros Hslj. rewrite (HP j slj Hj Hslj). unfold taken. cbn. set_solver.
  - intros t' p Hne Hp Hok. eapply (pc_ok_outside s); [|done|..].
    + eapply (others_outside s t); eauto.
    + apply capacity_store_generation.
    + intros h _ Hh. cbn. by rewrite decide_False.
    + intros h Hr Hh. cbn. rewrite decide_False by done. cbn. rewrite lookup_delete_ne; [done|]. intros <-. apply Hne.
      by apply (d_removing s HD t' t p _ _ Hp Ht Hr).
  - cbn. unfold store_generation. rewrite Hs. cbn.
    split_and!; [done|lia|lia|]. exists x. by rewrite slot_at_set, decide_True by (done || lia || eauto).
  - by left.
  - right. by left.
Qed.

(** The holder of the allocation guard writes memory without changing what it
    stands for. *)
Lemma data_inside s s' t pc pc' :
  locks_ok s -> data_ok s -> threads s !! t = Some pc -> holds_alloc pc = true ->
  threads s' = <[t := pc']> (threads s) -> alpha s' = alpha s -> table s' = table s ->
  (forall i g, (i, g) ∈ issued s' -> (i, g) ∈ issued s \/ claiming pc = Some (i, g)) ->
  capacity (reg s') = capacity (reg s) -> pc_ok s' pc' -> (claiming pc' = None \/ claiming pc' = claiming pc) ->
  (removing pc' = None \/ removing pc' = removing pc) -> data_ok s'.
Proof.
  intros HL HD Ht Hh Hth Ha Htb Hi Hcap Hok Hc Hr.
  apply (data_move s s' t pc pc'); try done; rewrite ?Ha, ?Htb; try apply HD.
  - intros i g Hin. destruct (Hi i g Hin) as [H1|H1]; [by apply (d_issued s HD)|].
    pose proof (claiming_reserved s pc _ (d_pc s HD t pc Ht) H1) as Hres.
    destruct (reserved_slot s i g HD Hres) as (_ & _ & ? & ?). split; [lia|done].
  - intros t' p Hne Hp Hokp. eapply (pc_ok_outside s); [|done|done|by rewrite Htb..].
    by eapply (others_outside s t).
  - destruct Hc; auto.
  - destruct Hr; auto.
Qed.

(** Everything a step does, and that it is one sequential call or none. *)
Definition simulated s s' : Prop :=
  lins s' = lins s /\ alpha s' = alpha s
  \/ exists t c y, lins s' = lins s ++ [(t, c, y)] /\ seq_call c (alpha s) = (y, alpha s').

Lemma generation_store_owner r i j o :
  generation <$> slot_at (store_owner i o r) j = generation <$> slot_at r j.
Proof.
  unfold store_owner. destruct (slot_at r i) as [sl|] eqn:E; [|done]. unfold slot_at, set_slot in *.
  cbn. destruct (decide (Z.to_nat i = Z.to_nat j)) as [Ej|Ej].
  - rewrite <- Ej, list_lookup_insert_eq, E by (by eapply lookup_lt_Some). done.
  - by rewrite list_lookup_insert_ne.
Qed.

Lemma alpha_generation s i :
  generation <$> slot_at (alpha s) i = generation <$> slot_at (reg s) i
  /\ capacity (alpha s) = capacity (reg s).
Proof.
  unfold alpha. destruct (alloc_owner s) as [t|]; [|done].
  destruct (threads s !! t) as [pc|]; [|done].
  destruct pc; cbn [view]; try done;
    change (slot_at (set_alloc ?x ?y) i) with (slot_at x i);
    rewrite generation_store_owner; (split; [done|]); cbn; unfold store_owner; by case_match.
Qed.

(** Through a handle that was handed out a lookup in memory answers what the
    sequential registry answers: a slot that a removal has marked and not yet
    emptied carries a generation that no handle has. *)
Lemma resolve_issued s i g :
  locks_ok s -> data_ok s -> 0 <= i -> Z.odd g = true ->
  resolve (alpha s) i g = resolve (reg s) i g.
Proof.
  intros HL HD Hi Hg. unfold resolve. destruct (alpha_generation s i) as [HG ->].
  destruct (capacity (reg s) <=? i); [done|].
  destruct (slot_at (reg s) i) as [sl|] eqn:Em, (slot_at (alpha s) i) as [sl'|] eqn:Ea; try done.
  cbn in HG. simplify_eq. rewrite HG. destruct (Z.eqb_spec (generation sl) g) as [Eg|]; [|done].
  assert (taken (alpha s) i) as Htk by (apply (d_parity s HD i sl' Hi Ea); congruence).
  assert (slot_at (alpha s) i = slot_at (reg s) i) as Hsame; [|congruence].
  destruct (alloc_owner s) as [t|] eqn:Et; [|by rewrite alpha_free].
  apply (lk_alloc s HL) in Et as (p & Hp & Hh). rewrite (alpha_holder s t p) by done.
  apply slot_at_view; [done|]. intros j Hj.
  destruct (emptying_untaken s t p j HL HD Hp Hj) as [? Hnt]. split; [done|]. by intros ->.
Qed.

Lemma resolve_slot r i g sl :
  i < capacity r -> slot_at r i = Some sl ->
  resolve r i g = if generation sl =? g then owner sl else None.
Proof. intros Hi Hs. unfold resolve. destruct (Z.leb_spec (capacity r) i); [lia|]. by rewrite Hs. Qed.

Lemma view_outside pc r : holds_alloc pc = false -> view pc r = r.
Proof. by destruct pc. Qed.

(** The allocation guard may change hands with the move. *)
Definition guard_moves s s' t pc pc' : Prop :=
  alloc_owner s' = alloc_owner s
  \/ (alloc_owner s = None /\ alloc_owner s' = Some t /\ holds_alloc pc = false)
  \/ (holds_alloc pc = true /\ alloc_owner s' = None /\ holds_alloc pc' = false).

Lemma local_step s s' t pc pc' :
  locks_ok s -> data_ok s -> threads s !! t = Some pc -> threads s' = <[t := pc']> (threads s) ->
  reg s' = reg s -> table s' = table s -> issued s' = issued s ->
  view pc' (reg s) = view pc (reg s) -> guard_moves s s' t pc pc' -> pc_ok s pc' ->
  (claiming pc' = None \/ claiming pc' = claiming pc) ->
  (removing pc' = None \/ removing pc' = removing pc
   \/ forall t' p, threads s !! t' = Some p -> removing p <> removing pc') ->
  (lins s' = lins s
   \/ exists c y, lins s' = lins s ++ [(t, c, y)] /\ seq_call c (alpha s) = (y, alpha s)) ->
  simulated s s' /\ data_ok s'.
Proof.
  intros HL HD Ht Hth Hr Htb Hi Hv Hg Hok Hc Hrm Hl.
  assert (alpha s' = alpha s) as Ha.
  { unfold alpha. rewrite Hr, Hth. destruct Hg as [->|[(En & -> & Hp)|(Hp & -> & Hp')]].
    - destruct (alloc_owner s) as [t0|]; [|done]. destruct (decide (t0 = t)) as [->|Hne].
      + by rewrite list_lookup_insert_eq, Ht, Hv by (by eapply lookup_lt_Some).
      + by rewrite list_lookup_insert_ne.
    - rewrite En, list_lookup_insert_eq, Hv by (by eapply lookup_lt_Some). by apply view_outside.
    - assert (alloc_owner s = Some t) as -> by (apply (lk_alloc s HL); eauto).
      rewrite Ht, <- Hv. by rewrite view_outside. }
  split; [|by eapply (data_local s s' t pc pc')].
  destruct Hl as [Hl|(c & y & Hl & Hs)]; [by left|right]. exists t, c, y. by rewrite Ha.
Qed.

(** Indices that passed the capacity check are in range. *)
Lemma slot_exists s i : data_ok s -> 0 <= i < capacity (reg s) -> exists sl, slot_at (reg s) i = Some sl.
Proof.
  intros HD Hi. destruct (alpha_generation s i) as [HG Hcap].
  destruct (wf_slot_some (alpha s) i (tr_wf _ _ (d_table s HD))) as [sl Hsl]; [by rewrite Hcap|].
  rewrite Hsl in HG. destruct (slot_at (reg s) i); [eauto|done].
Qed.

(** The two comparisons of a lookup. *)
Lemma lookup_decides s i g b :
  locks_ok s -> data_ok s -> pc_ok s (GMiss i g b) ->
  forall o, resolve (reg s) i g = o -> seq_call (Lookup i g) (alpha s) = (Runner o, alpha s).
Proof.
  intros HL HD [Hi Hg] o <-. unfold seq_call. by rewrite resolve_issued.
Qed.

(** A removal through a committed handle passes both of its checks. *)
Lemma remove_passes s t i g a :
  locks_ok s -> data_ok s -> threads s !! t = Some (VCheck i g a) ->
  i < capacity (reg s) /\ exists x, slot_at (reg s) i = Some (mkSlot g (Some x)).
Proof.
  intros HL HD Ht. destruct (d_pc s HD t _ Ht) as [[x Hx] _].
  pose proof (d_table s HD) as HT. rewrite (alpha_holder s t _ HL Ht eq_refl) in HT. cbn [view] in HT.
  destruct (proj1 (tr_handles _ _ HT i g x) Hx) as [Hi Hs]. split; [lia|eauto].
Qed.

(** Discharges what is the same for every local step. *)
Ltac local_tac :=
  eapply local_step;
  [eassumption|eassumption|eassumption|reflexivity|reflexivity|reflexivity|reflexivity
  |try reflexivity
  |unfold guard_moves; cbn; first [left; done|right; left; done|right; right; done]
  |try first [done|cbn in *; congruence]
  |first [left; done|right; done]
  |first [left; done|right; left; done|idtac]
  |try (left; reflexivity)].

Lemma thread_sim t pc s s' :
  locks_ok s -> data_ok s -> poisoned (alloc (reg s')) = false -> threads s !! t = Some pc ->
  thread_step t pc s = Some s' -> simulated s s' /\ data_ok s'.
Proof.
  intros HL HD Hp Ht H. pose proof (d_pc s HD t pc Ht) as Hok.
  pose proof (fun i g b => lookup_decides s i g b HL HD) as Hlook.
  destruct pc as [| | |a|i a|i g a|i g a|i g|i g x|i g x|i g|i g|i g|i g|i g b|i g|i g a|i g a|i g a|i g a|i g o a|i g| |n| |a seen before];
    cbn [thread_step] in H; unfold lock_alloc, lock_slot, lock_unwrap in H; try done.
  - (* RLock *) repeat case_match; simplify_eq/=; local_tac.
  - (* RPick *) cbn in Hok. subst a. repeat case_match; simplify_eq; local_tac.
  - (* RLoadGen *) destruct (slot_at (reg s) i) as [sl|] eqn:Es; simplify_eq.
    local_tac. cbn. eauto.
  - (* RStoreGen *) simplify_eq.
    destruct (step_reserve s t i g a HL HD) as [Hs Hd]; [|done|].
    { cbn in Hp. unfold store_generation in Hp. by case_match. }
    split; [|done]. right. by eexists _, _, _.
  - (* RFinish *) simplify_eq.
    assert (forall s', reg s' = set_alloc (reg s) (count_in a) -> alloc_owner s' = None ->
      alpha s' = alpha s) as Ha.
    { intros s1 Hr Ho. rewrite (alpha_free s1 Ho), (alpha_holder s t _ HL Ht eq_refl). by rewrite Hr. }
    split; [left; split; [done|by apply Ha]|].
    eapply (data_inside s _ t); try eassumption; try done; [by apply Ha| |by right|by left].
    intros i' g' Hin. cbn in Hin. apply elem_of_cons in Hin as [[= -> ->]|?]; [by right|by left].
  - (* CLock *) repeat case_match; simplify_eq. local_tac.
  - (* CStore *) simplify_eq. destruct (step_commit s t i g x HL HD Ht) as [Hs Hd].
    split; [|done]. right. by eexists _, _, _.
  - (* GCheck *) destruct Hok as [Hi Hg]. destruct (Z.leb_spec (capacity (reg s)) i) as [Hc|Hc].
    + simplify_eq. local_tac. right. eexists _, _. split; [done|]. apply (Hlook i g false); [done|].
      unfold resolve. by destruct (Z.leb_spec (capacity (reg s)) i); [|lia].
    + destruct (slot_exists s i HD) as [sl Es]; [lia|]. rewrite Es in H.
      destruct (Z.eqb_spec (generation sl) g) as [Eg|Eg]; simplify_eq; local_tac.
      right. eexists _, _. split; [done|]. apply (Hlook i g false); [done|].
      rewrite (resolve_slot _ _ _ sl) by done. by destruct (Z.eqb_spec (generation sl) g).
  - (* GLock *) repeat case_match; simplify_eq. local_tac.
  - (* GRecheck *) destruct Hok as [Hi Hg].
    destruct (slot_exists s i HD Hi) as [sl Es]. rewrite Es in H.
    destruct (generation sl =? g) eqn:Eg; simplify_eq; local_tac; try (cbn; by split; [lia|]).
    + right. eexists _, _. split; [done|]. apply (Hlook i g false); [cbn; by split; [lia|]|].
      by rewrite (resolve_slot _ _ _ sl), Eg by (done || lia).
    + right. eexists _, _. split; [done|]. apply (Hlook i g false); [cbn; by split; [lia|]|].
      by rewrite (resolve_slot _ _ _ sl), Eg by (done || lia).
  - (* GClone *) destruct Hok as [Hi Hg]. destruct (slot_exists s i HD Hi) as [sl Es].
    rewrite Es in H. simplify_eq. local_tac.
  - (* GMiss *) simplify_eq. destruct b; local_tac.
  - (* VLock *) repeat case_match; simplify_eq; local_tac.
  - (* VCheck *) destruct (remove_passes s t i g a HL HD Ht) as [Hi [x Hs]].
    destruct (Z.leb_spec (capacity (reg s)) i); [lia|]. rewrite Hs in H. cbn in H.
    rewrite Z.eqb_refl in H. simplify_eq. local_tac.
  - (* VStoreGen *) simplify_eq. destruct (step_remove s t i g a HL HD Ht) as [Hs Hd].
    split; [|done]. right. by eexists _, _, _.
  - (* VLockOwner *) repeat case_match; simplify_eq. local_tac.
  - (* VTake *) simplify_eq. destruct Hok as (_ & Hi & x & Hx).
    match goal with |- simulated s ?s1 /\ _ => assert (alpha s1 = alpha s) as Ha end.
    { unfold alpha. cbn. assert (alloc_owner s = Some t) as -> by (apply (lk_alloc s HL); eauto).
      rewrite list_lookup_insert_eq, Ht by (by eapply lookup_lt_Some). done. }
    split; [left; split; [done|exact Ha]|].
    eapply (data_inside s _ t); try eassumption; try done; [by left|apply capacity_store_owner|by left|by right].
  - (* VFinish *) simplify_eq.
    assert (forall s', reg s' = set_alloc (reg s) (give_back i o a) -> alloc_owner s' = None ->
      alpha s' = alpha s) as Ha.
    { intros s1 Hr Ho. rewrite (alpha_free s1 Ho), (alpha_holder s t _ HL Ht eq_refl). by rewrite Hr. }
    split; [left; split; [done|by apply Ha]|].
    eapply (data_inside s _ t); try eassumption; try done; [by apply Ha|by left|by left|by left].
  - (* NLock *) destruct (alloc_owner s) eqn:Eo; [done|]. repeat case_match; simplify_eq; local_tac.
    right. eexists _, _. split; [done|]. unfold seq_call, live_count, with_alloc, lock_unwrap.
    rewrite alpha_free by done. by repeat case_match; simplify_eq.
  - (* NFinish *) simplify_eq. local_tac.
  - (* SLock *) repeat case_match; simplify_eq; local_tac. cbn.
    split_and!; [done| |constructor|constructor].
    apply Forall_Forall2_diag, Forall_forall. intros o _. by right.
  - (* SScan *) destruct Hok as (Ea & H1 & H2 & H3).
    destruct (next_unused a <=? Z.of_nat (length seen)); simplify_eq; [local_tac|].
    destruct (slot_owner s !! Z.of_nat (length seen)); [done|].
    destruct (slots (reg s) !! length seen) as [sl|] eqn:Es; simplify_eq.
    local_tac. cbn. rewrite length_app. cbn.
    assert (owners (reg s) !! length seen = Some (owner sl)) as Eo
      by (unfold owners; by rewrite list_lookup_fmap, Es).
    destruct (Forall2_lookup_r _ _ _ _ _ H1 Eo) as (b & Hb & Hg).
    split_and!; [done|done| |].
    + rewrite Nat.add_1_r, (take_S_r _ _ b) by done. apply Forall2_app; [done|]. by constructor.
    + rewrite Nat.add_1_r, (take_S_r _ _ (owner sl)) by done. apply Forall2_app; [done|].
      constructor; [by right|constructor].
Qed.

Lemma rstep_sim a s s' :
  locks_ok s -> data_ok s -> poisoned (alloc (reg s')) = false -> rstep a s = Some s' ->
  simulated s s' /\ data_ok s'.
Proof.
  intros HL HD Hp H. destruct a as [t|t|t x|t|t i g|t i g|t|t]; cbn [rstep] in H; unfold start in H.
  - destruct (threads s !! t) as [pc|] eqn:Ht; [|done]. by eapply thread_sim.
  - repeat case_match; simplify_eq. local_tac.
  - repeat case_match; simplify_eq. local_tac. by apply (d_pc s HD t (Holding i g)).
  - repeat case_match; simplify_eq. local_tac.
  - case_decide as Hin; [|done]. repeat case_match; simplify_eq. local_tac.
    by apply (d_issued s HD).
  - case_decide as Hin; [|done]. destruct Hin as [Hh Hr]. repeat case_match; simplify_eq. local_tac.
    right. right. intros t' p Hp'. rewrite Forall_lookup in Hr. by apply (Hr t').
  - repeat case_match; simplify_eq. local_tac.
  - repeat case_match; simplify_eq. local_tac.
Qed.

Lemma poison_kept a s s' :
  rstep a s = Some s' -> poisoned (alloc (reg s')) = false -> poisoned (alloc (reg s)) = false.
Proof.
  intros H. assert (forall i g r, alloc (store_generation i g r) = alloc r) as Hg
    by (intros; unfold store_generation; by case_match).
  assert (forall i (o : option R) r, alloc (store_owner i o r) = alloc r) as Ho
    by (intros; unfold store_owner; by case_match).
  split_rstep H; cbn; rewrite ?Hg, ?Ho; done.
Qed.

(** ** Answers *)

(** The calls of one thread, with their answers. *)
Definition calls_of (t : nat) (l : list (nat * rcall R * answer R)) : list (rcall R * answer R) :=
  omap (λ '(t', c, y), if decide (t' = t) then Some (c, y) else None) l.

(** The call that has taken effect and not returned. *)
Definition decided r (o : option (tpc R)) : list (rcall R * answer R) :=
  match o with
  | Some (RFinish i g _) => [(DoOp Reserve, Op (Reserved i g))]
  | Some (GClone i g) => [(Lookup i g, Runner (owner_at r i))]
  | Some (GMiss i g _) => [(Lookup i g, Runner None)]
  | Some (VLockOwner i g _) | Some (VTake i g _) =>
      [(DoOp (Remove i g), Op (Removed (owner_at r i)))]
  | Some (VFinish i g o _) => [(DoOp (Remove i g), Op (Removed o))]
  | Some (VMiss i g) => [(DoOp (Remove i g), Op (Removed None))]
  | Some (NFinish n) => [(Count, Number n)]
  | _ => []
  end.

Definition answers_ok s : Prop :=
  forall t, calls_of t (lins s) = calls_of t (rets s) ++ decided (reg s) (threads s !! t).

Lemma calls_of_app t l l' : calls_of t (l ++ l') = calls_of t l ++ calls_of t l'.
Proof. apply omap_app. Qed.

Lemma owner_at_store_generation r i g j : owner_at (store_generation i g r) j = owner_at r j.
Proof.
  unfold store_generation. destruct (slot_at r i) as [sl|] eqn:E; [|done].
  unfold owner_at, slot_at, set_slot in *. cbn.
  destruct (decide (Z.to_nat i = Z.to_nat j)) as [Ej|Ej].
  - rewrite <- Ej, list_lookup_insert_eq, E by (by eapply lookup_lt_Some). done.
  - by rewrite list_lookup_insert_ne.
Qed.

(** The slot whose owner a pending answer is read from. *)
Definition watches pc : option Z :=
  match pc with GClone i _ | VLockOwner i _ _ | VTake i _ _ => Some i | _ => None end.

Lemma decided_stable r i o p :
  0 <= i -> (forall j, watches p = Some j -> 0 <= j /\ j <> i) ->
  decided (store_owner i o r) (Some p) = decided r (Some p).
Proof.
  intros Hi Hw. destruct p; try done; cbn; destruct (Hw _ eq_refl); unfold owner_at;
    by rewrite slot_at_owner_ne.
Qed.

(** A thread that stores an owner holds the slot, and nobody else watches it. *)
Lemma watched_apart s t pc i t' p j :
  locks_ok s -> data_ok s -> threads s !! t = Some pc -> holds_slot pc = Some i ->
  (holds_alloc pc = true \/ exists g, (i, g) ∈ reserved (table s)) ->
  threads s !! t' = Some p -> t' <> t -> watches p = Some j -> 0 <= j /\ j <> i.
Proof.
  intros HL HD Ht Hh Hex Hp Hne Hw. pose proof (d_pc s HD t' p Hp) as Hok.
  assert (holds_slot p = Some j -> j <> i) as Hlock.
  { intros Hj ->. assert (slot_owner s !! i = Some t') by (apply (lk_slot s HL); eauto).
    assert (slot_owner s !! i = Some t) by (apply (lk_slot s HL); eauto). congruence. }
  assert (emptying p = Some j -> 0 <= j /\ j <> i) as Hemp.
  { intros He. destruct Hex as [Ha|[g Hg]]; [|by eapply (emptying_apart s t')].
    assert (holds_alloc p = false) as Hf by (by eapply (others_outside s t)). by destruct p. }
  destruct p; simplify_eq/=; auto. destruct Hok as [? _]. split; [lia|auto].
Qed.

Lemma answers_step a s s' :
  locks_ok s -> data_ok s -> poisoned (alloc (reg s')) = false -> answers_ok s ->
  rstep a s = Some s' -> answers_ok s'.
Proof.
  intros HL HD Hp HA H t0. specialize (HA t0).
  split_rstep H; cbn -[decided calls_of]; rewrite ?calls_of_app, HA, <- ?app_assoc.
  all: destruct (decide (t0 = t)) as [E0|Hne];
    [subst t0; rewrite ?list_lookup_insert_eq by (by eapply lookup_lt_Some)
    |rewrite ?list_lookup_insert_ne by congruence].
  all: try match goal with E : threads _ !! _ = Some _ |- _ => rewrite ?E end.
  all: cbn -[decided]; rewrite ?decide_True, ?decide_False by congruence; cbn -[decided];
    rewrite ?app_nil_r; try reflexivity.
  - f_equal. by destruct (threads s !! t0) as [[]|]; cbn; rewrite ?owner_at_store_generation.
  - f_equal. destruct (threads s !! t0) as [p|] eqn:E; [|done]. symmetry.
    pose proof (d_pc s HD t _ Ht) as Hin. destruct (reserved_slot s i g HD Hin) as (_ & _ & ? & _).
    apply decided_stable; [lia|]. intros j. eapply (watched_apart s t); eauto.
  - f_equal. cbn. unfold owner_at. match goal with E : slot_at _ _ = Some _ |- _ => by rewrite E end.
  - f_equal. cbn. unfold owner_at. match goal with E : slot_at _ _ = Some _ |- _ => by rewrite E end.
  - destruct (d_pc s HD t _ Ht) as [Hi _]. destruct (slot_exists s i HD Hi). congruence.
  - f_equal. cbn. by rewrite owner_at_store_generation.
  - f_equal. by destruct (threads s !! t0) as [[]|]; cbn; rewrite ?owner_at_store_generation.
  - f_equal. destruct (threads s !! t0) as [p|] eqn:E; [|done]. symmetry.
    destruct (d_pc s HD t _ Ht) as (_ & ? & _).
    apply decided_stable; [lia|]. intros j. eapply (watched_apart s t); eauto.
Qed.

(** ** Replays *)

(** A sequential run that gives the recorded answers. *)
Inductive replays r0 : list (nat * rcall R * answer R) -> ActorRegistry R -> Prop :=
| replays_nil : replays r0 [] r0
| replays_snoc l r t c y r' :
    replays r0 l r -> seq_call c r = (y, r') -> replays r0 (l ++ [(t, c, y)]) r'.

(** Every committed handle has its commit in the log. *)
Definition installed (l : list (nat * rcall R * answer R)) (i g : Z) (x : R) : Prop :=
  exists t, (t, DoOp (Commit i g x), Op Committed) ∈ l.

Definition logged s : Prop :=
  (forall i g x, handles (table s) !! (i, g) = Some x -> installed (lins s) i g x)
  /\ (forall t i g x, (t, Lookup i g, Runner (Some x)) ∈ lins s -> installed (lins s) i g x).

Lemma installed_snoc l e i g x : installed l i g x -> installed (l ++ [e]) i g x.
Proof. intros [t Ht]. exists t. set_solver. Qed.

(** How a step changes the table and the log. *)
Lemma effect_table a s s' :
  rstep a s = Some s' ->
  (lins s' = lins s /\ table s' = table s)
  \/ exists t c y, lins s' = lins s ++ [(t, c, y)]
       /\ table s' = match c, y with DoOp op, Op z => track (table s) op z | _, _ => table s end
       /\ (forall i g, c = Lookup i g ->
            threads s !! t = Some (GCheck i g) \/ threads s !! t = Some (GRecheck i g)).
Proof.
  intros H. split_rstep H; cbn; try (by left); right; eexists _, _, _;
    (split; [reflexivity|split; [reflexivity|]]); intros ? ? [= -> ->] || (intros ? ? [=]); eauto.
Qed.

Lemma logged_step a s s' :
  data_ok s -> simulated s s' -> logged s -> rstep a s = Some s' -> logged s'.
Proof.
  intros HD HS [H1 H2] H. unfold logged.
  destruct (effect_table a s s' H) as [[-> ->]|(t & c & y & El & Et & Hpc)]; [done|].
  destruct HS as [[El' _]|(t1 & c1 & y1 & El' & Hs)].
  { rewrite El in El'. apply (f_equal length) in El'. rewrite length_app in El'. cbn in El'. lia. }
  rewrite El in El'. apply app_inj_2 in El' as [_ [= <- <- <-]]; [|done]. rewrite El, Et. split.
  - intros i g x Hh.
    assert (handles (table s) !! (i, g) = Some x \/ (c = DoOp (Commit i g x) /\ y = Op Committed))
      as [Hold|[-> ->]]; [|by apply installed_snoc, H1|exists t; set_solver].
    destruct c as [[|i' g' x'|i' g']|i' g'|], y as [[]| |]; cbn in Hh; try (by left).
    + destruct (decide ((i', g') = (i, g))) as [[= -> ->]|Hne].
      * rewrite lookup_insert_eq in Hh. simplify_eq. by right.
      * rewrite lookup_insert_ne in Hh by done. by left.
    + case_decide; [by left|]. cbn in Hh. apply lookup_delete_Some in Hh as [_ ?]. by left.
  - intros t' i g x [Hin|Hin]%elem_of_app; [by apply installed_snoc, (H2 t')|].
    apply list_elem_of_singleton in Hin. simplify_eq. apply installed_snoc, H1.
    assert (0 <= i) as Hi.
    { destruct (Hpc i g eq_refl) as [Ht|Ht]; destruct (d_pc s HD t _ Ht); lia. }
    rewrite <- (resolve_handles (alpha s)) by (done || apply (d_table s HD)).
    unfold seq_call in Hs. by simplify_eq.
Qed.

(** ** Scans *)

(** Every owner there was before is seen, and every owner seen is there after. *)
Definition snap_ok (p : list (option R) * list (option R) * list (option R)) : Prop :=
  let '(before, seen, after) := p in
  (forall k x, before !! k = Some (Some x) -> seen !! k = Some (Some x))
  /\ (forall k x, seen !! k = Some (Some x) -> after !! k = Some (Some x)).

Lemma grows_lookup (l l' : list (option R)) k x :
  Forall2 grows l l' -> l !! k = Some (Some x) -> l' !! k = Some (Some x).
Proof.
  intros HF Hk. destruct (Forall2_lookup_l _ _ _ _ _ HF Hk) as (y & Hy & [Hg|Hg]); [done|].
  by rewrite Hy, Hg.
Qed.

Lemma snap_step a s s' :
  locks_ok s -> data_ok s -> (forall p, p ∈ snaps s -> snap_ok p) -> rstep a s = Some s' ->
  forall p, p ∈ snaps s' -> snap_ok p.
Proof.
  intros HL HD HS H. split_rstep H; cbn; try done.
  intros p [->|Hp]%elem_of_cons; [|by apply HS]. pose proof (d_pc s HD t _ Ht) as (-> & H1 & H2 & H3).
  pose proof (d_table s HD) as HT. rewrite (alpha_holder s t _ HL Ht eq_refl) in HT. cbn [view] in HT.
  split.
  - intros k x Hk. apply (grows_lookup (take (length seen) before)); [done|].
    assert (k < length seen)%nat as Hlt; [|by rewrite lookup_take_lt].
    pose proof (grows_lookup _ _ k x H1 Hk) as Ho. unfold owners in Ho.
    rewrite list_lookup_fmap in Ho. destruct (slots (reg s) !! k) as [sl|] eqn:Es; [|done].
    cbn in Ho. simplify_eq. destruct (wf_owner _ (tr_wf _ _ HT) k sl x Es ltac:(congruence)) as [? _].
    zify_bools. lia.
  - intros k x Hk. apply (grows_lookup _ _ k x H3) in Hk.
    by apply lookup_take_Some in Hk as [? _].
Qed.

(** ** The whole machine *)
Record rinv cap s : Prop := {
  ri_locks : locks_ok s;
  ri_data : data_ok s;
  ri_answers : answers_ok s;
  ri_logged : logged s;
  ri_snaps : forall p, p ∈ snaps s -> snap_ok p;
  ri_replays : replays (with_capacity cap) (lins s) (alpha s);
}.

Lemma rinv_initial cap n : rinv cap (rinitial cap n).
Proof.
  assert (forall t pc, replicate n (@Idle R) !! t = Some pc -> pc = Idle) as Hid
    by (by intros t pc [-> _]%lookup_replicate).
  split.
  - split; cbn.
    + intros t. split; [done|]. intros (pc & Hpc & Hh). by rewrite (Hid _ _ Hpc) in Hh.
    + intros i t. rewrite lookup_empty. split; [done|]. intros (pc & Hpc & Hh).
      by rewrite (Hid _ _ Hpc) in Hh.
  - split; cbn.
    + apply table_rel_initial.
    + intros i sl Hi Hs. apply lookup_replicate in Hs as [-> _]. cbn. unfold taken. cbn.
      split; [done|lia].
    + intros i g Hin. by apply elem_of_nil in Hin.
    + intros t pc Hpc. by rewrite (Hid _ _ Hpc).
    + intros t t' pc pc' i g g' Hpc _ Hc. by rewrite (Hid _ _ Hpc) in Hc.
    + intros t t' pc pc' h Hpc _ Hc. by rewrite (Hid _ _ Hpc) in Hc.
  - intros t. cbn. destruct (replicate n Idle !! t) as [pc|] eqn:E; [|done]. by rewrite (Hid _ _ E).
  - split; cbn; [intros i g x; by rewrite lookup_empty|intros t i g x Hin; by apply elem_of_nil in Hin].
  - intros p Hp. by apply elem_of_nil in Hp.
  - constructor.
Qed.

Lemma rinv_step cap a s s' :
  rinv cap s -> poisoned (alloc (reg s')) = false -> rstep a s = Some s' -> rinv cap s'.
Proof.
  intros [HL HD HA HG HS HR] Hp H. destruct (rstep_sim a s s' HL HD Hp H) as [Hsim HD']. split.
  - by eapply locks_step.
  - done.
  - by eapply (answers_step a s).
  - by eapply (logged_step a s).
  - by eapply (snap_step a s).
  - destruct Hsim as [[-> ->]|(t & c & y & -> & Hs)]; [done|]. by econstructor.
Qed.

Lemma run_rinv cap n acts s :
  run rstep acts (rinitial cap n) = Some s -> poisoned (alloc (reg s)) = false -> rinv cap s.
Proof.
  revert acts s. apply (run_invariant rstep (λ _ s, poisoned (alloc (reg s)) = false -> rinv cap s)).
  - intros _. apply rinv_initial.
  - intros acts a s s' _ IH H Hp. eapply rinv_step; eauto. apply IH. by eapply poison_kept.
Qed.

(** C9.  The concurrent registry is the sequential one.  Any number of threads
    reserve, commit, look up, remove and count at once, with every generation
    load and store and every mutex acquisition a step of its own.  As long as no
    reservation exceeded the capacity, each call takes effect at one of its own
    steps: performed one at a time in that order the calls give the same answers
    and leave the registry the threads stand for, which is memory itself when
    nobody is inside the allocation mutex; each thread's calls return in that
    order with those answers; a lookup through a handle only ever finds the
    runner that was committed under that very handle; and no index is out of
    range. *)
Theorem registry_linearizable cap n acts s :
  run rstep acts (rinitial cap n) = Some s -> poisoned (alloc (reg s)) = false ->
  replays (with_capacity cap) (lins s) (alpha s)
  /\ (alloc_owner s = None -> alpha s = reg s)
  /\ (forall t, calls_of t (lins s) = calls_of t (rets s) ++ decided (reg s) (threads s !! t))
  /\ (forall t i g x, (t, Lookup i g, Runner (Some x)) ∈ lins s -> installed (lins s) i g x)
  /\ (forall t, threads s !! t <> Some Panicked).
Proof.
  intros Hr Hp. destruct (run_rinv cap n acts s Hr Hp) as [HL HD HA HG HS HR].
  split_and!; [done|apply alpha_free|done|apply HG|].
  intros t Ht. apply (d_pc s HD t _ Ht).
Qed.

(** C24.  A snapshot is not atomic, and sound all the same: while [snapshot_live]
    goes through the slots, commits (which do not take the allocation mutex) may
    add runners, but every runner committed when the scan began is in the result
    and every runner in the result is committed when it ends. *)
Theorem snapshot_sound cap n acts s before seen after k x :
  run rstep acts (rinitial cap n) = Some s -> poisoned (alloc (reg s)) = false ->
  (before, seen, after) ∈ snaps s ->
  (before !! k = Some (Some x) -> seen !! k = Some (Some x))
  /\ (seen !! k = Some (Some x) -> after !! k = Some (Some x)).
Proof.
  intros Hr Hp Hin. destruct (ri_snaps cap s (run_rinv cap n acts s Hr Hp) _ Hin) as [H1 H2].
  split; [apply H1|apply H2].
Qed.
End preservation.

(** ** Witness: a lookup overtaken by a removal between its two comparisons *)
Definition overtaken : list (raction nat) :=
  [CallReserve 0] ++ replicate 5 (Step 0) ++ [CallCommit 0 7%nat; Step 0; Step 0]
  ++ [CallLookup 1 0 1; Step 1; Step 1; Step 1; Step 1]
  ++ [CallSnapshot 2; Step 2; Step 2; Step 2]
  ++ [CallLookup 1 0 1; Step 1; CallRemove 2 0 1; Step 2; Step 2; Step 2]
  ++ [Step 1; Step 1; Step 1] ++ replicate 3 (Step 2).

Definition after_overtaken : rsys nat :=
  default (rinitial 2 3) (run rstep overtaken (rinitial 2 3)).

Lemma registry_linearizable_witness :
  calls_of 1 (rets after_overtaken) = [(Lookup 0 1, Runner (Some 7%nat)); (Lookup 0 1, Runner None)]
  /\ installed (lins after_overtaken) 0 1 7%nat.
Proof.
  split; [vm_compute; reflexivity|].
  destruct (registry_linearizable 2 3 overtaken after_overtaken) as (_ & _ & _ & H & _);
    [vm_compute; reflexivity|vm_compute; reflexivity|].
  apply (H 1%nat). vm_compute. do 2 apply list_elem_of_further. apply list_elem_of_here.
Defined.

Lemma snapshot_sound_witness :
  [Some 7%nat; None] !! 0%nat = Some (Some 7%nat) /\ [Some 7%nat] !! 0%nat = Some (Some 7%nat).
Proof.
  split; [reflexivity|].
  apply (snapshot_sound 2 3 overtaken after_overtaken [Some 7%nat; None] [Some 7%nat] [Some 7%nat; None] 0%nat);
    [vm_compute; reflexivity|vm_compute; reflexivity| |reflexivity].
  vm_compute. apply list_elem_of_here.
Defined.
