(* ===== verification/ActorCore.v ===== *)
(** The vocabulary of the actor runtime ([dignus-actor-core/src]):
    [messages/actor_mail.rs], [internals/actor_ref.rs], [actor_base.rs]
    ([ActorContext]), [dead_letter/*] and the construction of an [ActorRunner]
    with its mailbox.  Messages, the actor's own state and time are parameters. *)
From S2P Require Import Prelude MpscQueue Registry.

(** [ActorRef]: a handle and the alias it was created with (the registry and
    the ask system it also holds are those of the one system).  [ActorRefTrait]
    has two implementations. *)
Record ActorRef : Type := mkActorRef { index : Z; ref_generation : Z; alias : option string }.
Inductive ActorRefTrait : Type :=
| ActorRefOf (r : ActorRef)
| AskReplyOf (awaiter : nat).

(** ** Mail and dead letters *)
Section messages.
Context {Msg Time : Type}.

Record ActorMail : Type := mkMail { message : Msg; sender : option ActorRefTrait }.

Definition into_parts (m : ActorMail) : Msg * option ActorRefTrait := (message m, sender m).

Inductive DeadLetterReason : Type :=
| Unknown | MailboxFull | RecipientInvalidated | ActorStopped | ActorSystemDisposed
| ExecutionException.

Record DeadLetterMessage : Type := mkDeadLetter {
  dl_message : Msg;
  dl_sender : option ActorRefTrait;
  recipient_actor_id : Z;
  detected_timestamp : Time;
  reason : DeadLetterReason;
}.

(** [DeadLetterMessage::new] reads the clock. *)
Definition dead_letter_new (m : Msg) (s : option ActorRefTrait) (id : Z) (why : DeadLetterReason)
    (now : Time) : DeadLetterMessage := mkDeadLetter m s id now why.

(** [ActorRunner::publish_execution_exception]. *)
Definition execution_exception (exception_message : Msg) (r : ActorRef) (now : Time) :
    DeadLetterMessage :=
  dead_letter_new exception_message None (index r) ExecutionException now.
End messages.
Arguments ActorMail Msg : clear implicits.
Arguments DeadLetterMessage Msg Time : clear implicits.

(** ** The actor's context: two [OnceLock]s *)
Record ActorContext : Type := mkContext {
  ctx_dispatcher : option Z;
  ctx_self_ref : option ActorRef;
}.
Definition context_new : ActorContext := mkContext None None.
Definition context_default : ActorContext := context_new.

(** [initialize] panics on a context that is in use; the dispatcher set before
    a panic on the second lock stays set. *)
Definition initialize (dispatcher : Z) (r : ActorRef) : M ActorContext unit := fun c =>
  match ctx_dispatcher c with
  | Some _ => (Panic "ActorContext dispatcher is already initialized.", c)
  | None =>
      let c1 := mkContext (Some dispatcher) (ctx_self_ref c) in
      match ctx_self_ref c1 with
      | Some _ => (Panic "ActorContext self_ref is already initialized.", c1)
      | None => (Ok tt, mkContext (ctx_dispatcher c1) (Some r))
      end
  end.

Definition ctx_get_dispatcher (c : ActorContext) : outcome Z :=
  match ctx_dispatcher c with
  | Some d => Ok d
  | None => Panic "ActorContext dispatcher is not initialized."
  end.

Definition self_ref_trait (c : ActorContext) : outcome ActorRefTrait :=
  match ctx_self_ref c with
  | Some r => Ok (ActorRefOf r)
  | None => Panic "ActorContext self_ref is not initialized."
  end.

(** [verify_context]: the calling thread's dispatcher must be the actor's own. *)
Definition verify_context (current : option Z) (c : ActorContext) : outcome unit :=
  match current with
  | None =>
      d ← ctx_get_dispatcher c;
      Panic "Actor is running outside its dispatcher context."
  | Some cur =>
      d ← ctx_get_dispatcher c;
      if (cur =? d)%Z then Ok tt else Panic "Actor Dispatcher vs Current Dispatcher"
  end.

(** ** Runners *)
Section runner.
Context {A Msg : Type}.

(** An actor object: its context and its own state. *)
Record Actor : Type := mkActor { actor_context : ActorContext; behaviour : A }.

Record ActorRunner : Type := mkRunner {
  actor : Actor;
  actor_ref : ActorRef;
  dispatcher : Z;
  mailbox : MpscBoundedQueue (ActorMail Msg);
}.

(** [ActorRunner::new]: the context is initialized first, then the mailbox is
    built, which panics for a capacity below two.  The [is_scheduled],
    [lifecycle_state] and poll driver fields start as in [RunnerProtocol]. *)
Definition runner_new (a : Actor) (d : Z) (r : ActorRef) (mailbox_capacity : Z) :
    outcome ActorRunner :=
  match initialize d r (actor_context a) with
  | (Ok tt, c) =>
      q ← MpscQueue.new mailbox_capacity;
      Ok (mkRunner (mkActor c (behaviour a)) r d q)
  | (Panic msg, _) => Panic msg
  | (UB msg, _) => UB msg
  end.

Definition actor_alias (r : ActorRunner) : option string := alias (actor_ref r).

(** [ActorRunnerWake] and [create_waker]: the waker remembers the dispatcher
    whose thread created it, the runner's own if it was no dispatcher's. *)
Record ActorRunnerWake : Type := mkRunnerWake { wake_runner : ActorRunner; wake_dispatcher : Z }.

Definition create_waker (current : option Z) (r : ActorRunner) : ActorRunnerWake :=
  mkRunnerWake r (default (dispatcher r) current).

(** [wake_by_ref] schedules on the waking thread's dispatcher, and on the
    remembered one from any other thread. *)
Definition wake_target (current : option Z) (w : ActorRunnerWake) : Z :=
  default (wake_dispatcher w) current.

(** [create_receive_future]: the actor's [on_receive] on the parts of a mail. *)
Definition create_receive_future {F} (on_receive : A -> Msg -> option ActorRefTrait -> F * A)
    (a : Actor) (m : ActorMail Msg) : F * Actor :=
  let '(msg, from) := into_parts m in
  let '(f, b) := on_receive (behaviour a) msg from in
  (f, mkActor (actor_context a) b).

(** ** Sending through an [ActorRef] *)
Context {W : Type} `{!RunnerOps ActorRunner (ActorMail Msg) W}.

(** [receive_completed_callback]: [upgraded] is the weak reference's upgrade. *)
Definition receive_completed_callback (upgraded : option ActorRunner) (w : W) : W :=
  match upgraded with
  | Some r => schedule_self (Mail := ActorMail Msg) r w
  | None => w
  end.

Definition ref_post (reg : ActorRegistry ActorRunner) (r : ActorRef) (m : Msg)
    (s : option ActorRefTrait) (w : W) : W :=
  post reg (index r) (ref_generation r) (mkMail m s) w.

Definition ref_post_mail (reg : ActorRegistry ActorRunner) (r : ActorRef) (m : ActorMail Msg)
    (w : W) : W :=
  post reg (index r) (ref_generation r) m w.

Definition ref_kill (reg : ActorRegistry ActorRunner) (r : ActorRef) (w : W) : W :=
  kill (Mail := ActorMail Msg) reg (index r) (ref_generation r) w.
End runner.
Arguments Actor A : clear implicits.
Arguments ActorRunner A Msg : clear implicits.

(** A new runner carries the reference and the dispatcher it was given. *)
Lemma runner_new_ok {A Msg} (a : Actor A) d r cap (x : ActorRunner A Msg) :
  runner_new a d r cap = Ok x ->
  actor_ref x = r /\ dispatcher x = d /\ 2 <= cap
  /\ actor_context (actor x) = mkContext (Some d) (Some r).
Proof.
  unfold runner_new, initialize.
  destruct (ctx_dispatcher (actor_context a)) eqn:E1; [done|]. cbn.
  destruct (ctx_self_ref (actor_context a)) eqn:E2; [done|]. cbn.
  unfold MpscQueue.new, mbind, outcome_mbind, outcome_bind.
  destruct (Z.ltb_spec cap 2); [done|]. destruct (normalize_to_power_of_two cap); [|done..].
  by intros [= <-].
Qed.
