(* ===== verification/ActorWorld.v ===== *)
(** Actors at work: registry, runners, mailboxes and dispatcher queues in one
    world, with the actors' own code as an interface.  [enqueue_only], [kill],
    [wake], [execute] and [finalize_kill] of [internals/actor_runner.rs] are
    programs over this world, composed from the registry ([Registry]), the ring
    ([MpscQueue]) and the runner's parts ([ActorCore]); what user code asks for
    while it runs is performed in place.  One dispatcher executes one runner at a
    time ([Turn]), and other threads' posts, kills and wakes fall between the
    accesses of that execution to shared state ([interfere]).  Executions do not
    overlap here and each of those calls is one step; [RunnerProtocol] has the
    interleavings of both. *)
From S2P Require Import Prelude MpscQueue RunnerProtocol PollDriver Registry ActorCore.

(** ** Actors *)

(** A waker: the runner and the dispatcher [create_waker] remembered. *)
Record Waker : Type := mkWaker { wake_of : nat; home : Z }.

Section interface.
Context {A F Msg : Type}.

(** What user code may ask of the runtime. *)
Inductive acall : Type :=
| APost (r : ActorRef) (m : ActorMail Msg)
| AKill (r : ActorRef)
| AWake (k : Waker).

(** [ActorReceiveResult], or a panic. *)
Inductive received : Type := Done | Pends (f : F) | Panics.

(** [on_kill] returns, or panics. *)
Inductive kill_result : Type := Killed | KillPanics.

(** The dead letter callback returns, or panics. *)
Inductive callback_result : Type := Noted | CallbackPanics.

(** User code, with its calls in order: the actor's, on its state, where
    [poll_future] is the future [on_receive] returned, which borrows the actor;
    and the dead letter callback in force (without one, nothing happens:
    [no_callback]). *)
Class ActorBase : Type := {
  on_receive : ActorContext -> A -> Msg -> option ActorRefTrait -> received * list acall * A;
  poll_future : Waker -> F -> A -> future_result * F * list acall * A;
  on_kill : A -> kill_result * list acall * A;
  on_dead_letter : DeadLetterMessage Msg Z -> callback_result * list acall;
}.

Definition no_callback (letter : DeadLetterMessage Msg Z) : callback_result * list acall := (Noted, []).
End interface.
Arguments acall Msg : clear implicits.
Arguments received F : clear implicits.
Arguments ActorBase A F Msg : clear implicits.

Section world.
Context {A F Msg : Type} `{!ActorBase A F Msg} (exception_message : Msg).
Notation Mail := (ActorMail Msg).

(** A runner in memory.  The completion callback in the driver's slot is always
    [receive_completed_callback].  Ghost: the mail its mailbox accepted, the mail
    [on_receive] was given and the mail thrown away, oldest first; whether an
    execution of it ended in a panic; how many posts anybody made before it was
    spawned. *)
Record Cell : Type := mkCell {
  runner : ActorRunner A Msg;
  is_scheduled : bool;
  life : lifecycle;
  is_active : bool;
  is_poll_scheduled : bool;
  pending : option F;
  arrived : list Mail;
  given : list Mail;
  thrown : list Mail;
  crashed : bool;
  since : nat;
}.

(** [alive]: the worker thread has not unwound. *)
Record Disp : Type := mkDisp { is_stopped : bool; alive : bool; scheduled : list nat }.

(** [others]: what other threads do during the execution under way, one entry for
    each of its next accesses.  [log] is ghost: every post, by the handle it went
    to. *)
Record World : Type := mkWorld {
  registry : ActorRegistry nat;
  aliases : gmap string (Z * Z);
  runners : list Cell;
  dispatchers : list Disp;
  letters : list (DeadLetterMessage Msg Z);
  clock : Z;
  others : list (list (acall Msg));
  log : list (nat * Z * Mail);
}.
Implicit Types (w : World) (c : Cell).

Definition set_registry w r : World :=
  mkWorld r (aliases w) (runners w) (dispatchers w) (letters w) (clock w) (others w) (log w).
Definition set_aliases w m : World :=
  mkWorld (registry w) m (runners w) (dispatchers w) (letters w) (clock w) (others w) (log w).
Definition set_runners w l : World :=
  mkWorld (registry w) (aliases w) l (dispatchers w) (letters w) (clock w) (others w) (log w).
Definition set_dispatchers w l : World :=
  mkWorld (registry w) (aliases w) (runners w) l (letters w) (clock w) (others w) (log w).
Definition set_letters w l : World :=
  mkWorld (registry w) (aliases w) (runners w) (dispatchers w) l (clock w) (others w) (log w).
Definition set_clock w t : World :=
  mkWorld (registry w) (aliases w) (runners w) (dispatchers w) (letters w) t (others w) (log w).
Definition set_others w l : World :=
  mkWorld (registry w) (aliases w) (runners w) (dispatchers w) (letters w) (clock w) l (log w).
Definition set_log w l : World :=
  mkWorld (registry w) (aliases w) (runners w) (dispatchers w) (letters w) (clock w) (others w) l.

Definition set_runner c x : Cell :=
  mkCell x (is_scheduled c) (life c) (is_active c) (is_poll_scheduled c) (pending c) (arrived c)
    (given c) (thrown c) (crashed c) (since c).
Definition set_mailbox c q : Cell :=
  set_runner c (mkRunner (actor (runner c)) (actor_ref (runner c)) (dispatcher (runner c)) q).
Definition set_behaviour c (a : A) : Cell :=
  set_runner c (mkRunner (mkActor (actor_context (actor (runner c))) a) (actor_ref (runner c))
                  (dispatcher (runner c)) (mailbox (runner c))).
Definition set_scheduled c b : Cell :=
  mkCell (runner c) b (life c) (is_active c) (is_poll_scheduled c) (pending c) (arrived c)
    (given c) (thrown c) (crashed c) (since c).
Definition set_life c l : Cell :=
  mkCell (runner c) (is_scheduled c) l (is_active c) (is_poll_scheduled c) (pending c) (arrived c)
    (given c) (thrown c) (crashed c) (since c).
Definition set_driver c a p f : Cell :=
  mkCell (runner c) (is_scheduled c) (life c) a p f (arrived c) (given c) (thrown c) (crashed c) (since c).
Definition arrives c (m : Mail) : Cell :=
  mkCell (runner c) (is_scheduled c) (life c) (is_active c) (is_poll_scheduled c) (pending c)
    (arrived c ++ [m]) (given c) (thrown c) (crashed c) (since c).
Definition gives c (m : Mail) : Cell :=
  mkCell (runner c) (is_scheduled c) (life c) (is_active c) (is_poll_scheduled c) (pending c)
    (arrived c) (given c ++ [m]) (thrown c) (crashed c) (since c).
Definition throws c (l : list Mail) : Cell :=
  mkCell (runner c) (is_scheduled c) (life c) (is_active c) (is_poll_scheduled c) (pending c)
    (arrived c) (given c) (thrown c ++ l) (crashed c) (since c).

Definition crash c : Cell :=
  mkCell (runner c) (is_scheduled c) (life c) (is_active c) (is_poll_scheduled c) (pending c)
    (arrived c) (given c) (thrown c) true (since c).

(** ** Access *)
Definition get_cell (id : nat) : M World Cell := fun w =>
  match runners w !! id with
  | Some c => (Ok c, w)
  | None => (UB "dangling reference", w)
  end.
Definition put_cell (id : nat) c : M World unit := fun w =>
  (Ok tt, set_runners w (<[id := c]> (runners w))).
Definition modify (id : nat) (f : Cell -> Cell) : M World unit :=
  get_cell id ≫= λ c, put_cell id (f c).
Definition lift {X} (o : outcome X) : M World X := fun w => (o, w).
Definition on_registry {X} (f : M (ActorRegistry nat) X) : M World X := fun w =>
  let '(o, r) := f (registry w) in (o, set_registry w r).

(** [ActorDispatcher::schedule], as far as the queue goes. *)
Definition schedule (d : Z) (id : nat) : M World unit := fun w =>
  match dispatchers w !! Z.to_nat d with
  | Some x =>
      (Ok tt,
       if is_stopped x then w
       else set_dispatchers w
              (<[Z.to_nat d := mkDisp (is_stopped x) (alive x) (scheduled x ++ [id])]>
                 (dispatchers w)))
  | None => (Ok tt, w)
  end.

(** ** The runner, called from anywhere *)
Definition enqueue (id : nat) (m : Mail) : M World bool :=
  get_cell id ≫= λ c,
  match life c with
  | Running =>
      lift (try_enqueue (mailbox (runner c)) m) ≫= λ '(ok, q),
      if ok : bool then
        put_cell id (arrives (set_mailbox c q) m) ≫= λ _,
        if is_scheduled c then mret false
        else modify id (λ c, set_scheduled c true) ≫= λ _, mret true
      else mret false
  | _ => mret false
  end.

Definition schedule_runner (id : nat) : M World unit :=
  get_cell id ≫= λ c, schedule (dispatcher (runner c)) id.

Definition kill_runner (id : nat) : M World unit :=
  get_cell id ≫= λ c,
  match life c with
  | Running =>
      put_cell id (set_life c Killing) ≫= λ _,
      if is_scheduled c then mret tt
      else modify id (λ c, set_scheduled c true) ≫= λ _, schedule (dispatcher (runner c)) id
  | _ => mret tt
  end.

(** A computation under way: the registry's calls continue it. *)
Definition continue {X} (dflt : X) (f : M World X) (s : outcome unit * World) :
    X * (outcome unit * World) :=
  match s with
  | (Ok _, w) =>
      match f w with
      | (Ok x, w') => (x, (Ok tt, w'))
      | (Panic e, w') => (dflt, (Panic e, w'))
      | (UB e, w') => (dflt, (UB e, w'))
      end
  | other => (dflt, other)
  end.

#[export] Instance runner_ops : RunnerOps nat Mail (outcome unit * World) := {
  enqueue_only := λ id m, continue false (enqueue id m);
  schedule_self := λ id s, (continue tt (schedule_runner id) s).2;
  runner_kill := λ id s, (continue tt (kill_runner id) s).2;
}.

(** [ActorRef::post_mail] and [ActorRef::kill]. *)
Definition post_mail (r : ActorRef) (m : Mail) : M World unit := fun w =>
  post (registry w) (index r) (ref_generation r) m
    (Ok tt, set_log w (log w ++ [(Z.to_nat (index r), ref_generation r, m)])).
Definition kill_ref (r : ActorRef) : M World unit := fun w =>
  kill (Mail := Mail) (registry w) (index r) (ref_generation r) (Ok tt, w).

(** [wake_by_ref]; [current] is the calling thread's dispatcher.  A pair that
    names no runner or no dispatcher is no waker. *)
Definition wake_by_ref (current : option Z) (k : Waker) : M World unit := fun w =>
  let target := default (home k) current in
  match runners w !! wake_of k, dispatchers w !! Z.to_nat target with
  | Some c, Some _ =>
      if is_active c && negb (is_poll_scheduled c)
      then (put_cell (wake_of k) (set_driver c (is_active c) true (pending c)) ≫= λ _,
            schedule target (wake_of k)) w
      else (Ok tt, w)
  | _, _ => (Ok tt, w)
  end.

Definition perform_one (current : option Z) (a : acall Msg) : M World unit :=
  match a with
  | APost r m => post_mail r m
  | AKill r => kill_ref r
  | AWake k => wake_by_ref current k
  end.

Fixpoint perform (current : option Z) (l : list (acall Msg)) : M World unit :=
  match l with
  | [] => mret tt
  | a :: rest => perform_one current a ≫= λ _, perform current rest
  end.

(** Before an access of an execution to shared state: what other threads do. *)
Definition interfere : M World unit := fun w =>
  match others w with
  | [] => (Ok tt, w)
  | l :: rest => perform None l (set_others w rest)
  end.

(** ** The runner, executed by dispatcher [d]'s thread

    Stores to the flags of one poll driver that follow each other are one step:
    nothing but the last of them matters to a wake in between. *)
Section execution.
Variable d : Z.

(** [ActorSystem::publish] calls the callback unguarded. *)
Definition publish_execution_exception (id : nat) : M World unit :=
  get_cell id ≫= λ c, get_state ≫= λ w,
  let letter := execution_exception exception_message (actor_ref (runner c)) (clock w) in
  put_state (set_letters w (letters w ++ [letter])) ≫= λ _,
  let '(res, calls) := on_dead_letter letter in
  perform (Some d) calls ≫= λ _,
  lift match res with Noted => Ok tt | CallbackPanics => Panic "dead letter callback" end.

(** [self.kill(); self.publish_execution_exception()]. *)
Definition fail (id : nat) : M World unit :=
  interfere ≫= λ _, kill_runner id ≫= λ _, interfere ≫= λ _, publish_execution_exception id.

(** [PollDriver::poll] with the runner's waker: the flag falls before the future
    is polled, so a wake from inside the poll is not lost. *)
Definition poll_pending_receive (id : nat) : M World PollOutcome :=
  modify id (λ c, set_driver c (is_active c) false (pending c)) ≫= λ _,
  interfere ≫= λ _,
  get_cell id ≫= λ c,
  match pending c with
  | None => put_cell id (set_driver c false (is_poll_scheduled c) None) ≫= λ _, mret Idle
  | Some f =>
      let '(res, f', calls, a) := poll_future (mkWaker id d) f (behaviour (actor (runner c))) in
      put_cell id (set_behaviour c a) ≫= λ _,
      perform (Some d) calls ≫= λ _,
      interfere ≫= λ _,
      match res with
      | FutPending =>
          modify id (λ c, set_driver c (is_active c) (is_poll_scheduled c) (Some f')) ≫= λ _,
          mret Pending
      | FutReady =>
          modify id (λ c, set_driver c false false None) ≫= λ _,
          interfere ≫= λ _, schedule_runner id ≫= λ _, mret Ready
      | FutPanicked =>
          modify id (λ c, set_driver c false false None) ≫= λ _, mret PollDriver.Failed
      end
  end.

(** What others do before the loads of [is_active] and, after it, of
    [lifecycle_state] they might as well have done before the execution. *)
Definition execute_pending_receive (id : nat) : M World bool :=
  get_cell id ≫= λ c,
  if is_active c then
    poll_pending_receive id ≫= λ o,
    match o with
    | Ready | Pending => mret false
    | PollDriver.Failed =>
        fail id ≫= λ _, interfere ≫= λ _, schedule (dispatcher (runner c)) id ≫= λ _, mret false
    | Idle => mret true
    end
  else mret true.

(** [ActorSystem::finalize_kill], the runner's [on_finalize]. *)
Definition on_finalize (i g : Z) : M World unit :=
  on_registry (remove i g) ≫= λ removed,
  match removed with
  | None => mret tt
  | Some id =>
      get_cell id ≫= λ c,
      match actor_alias (runner c) with
      | None => mret tt
      | Some name => get_state ≫= λ w, put_state (set_aliases w (delete name (aliases w)))
      end
  end.

(** [while mailbox.try_dequeue().is_some() {}] and [poll_driver.clear()]. *)
Definition clear_out (id : nat) : M World unit :=
  get_cell id ≫= λ c,
  lift (drop_queue (mailbox (runner c))) ≫= λ '(dropped, q),
  put_cell id (set_driver (throws (set_mailbox c q) dropped) false false None).

Definition run_on_kill (id : nat) : M World unit :=
  get_cell id ≫= λ c,
  let '(res, calls, a) := on_kill (behaviour (actor (runner c))) in
  put_cell id (set_behaviour c a) ≫= λ _,
  perform (Some d) calls ≫= λ _,
  lift match res with Killed => Ok tt | KillPanics => Panic "on_kill" end.

Definition finalize_kill (id : nat) : M World unit :=
  get_cell id ≫= λ c,
  match life c with
  | Stopped => mret tt
  | _ =>
      put_cell id (set_life c Stopped) ≫= λ _,
      interfere ≫= λ _, clear_out id ≫= λ _,
      interfere ≫= λ _, run_on_kill id ≫= λ _,
      interfere ≫= λ _,
      on_finalize (index (actor_ref (runner c))) (ref_generation (actor_ref (runner c)))
  end.

Definition dequeue (id : nat) : M World (option Mail) :=
  get_cell id ≫= λ c,
  lift (try_dequeue (mailbox (runner c))) ≫= λ '(m, q),
  put_cell id (set_mailbox c q) ≫= λ _, mret m.

(** [create_receive_future] under [catch_unwind]. *)
Definition receive (id : nat) (m : Mail) : M World (received F) :=
  get_cell id ≫= λ c,
  let x := runner c in
  let '((res, calls), a) :=
    create_receive_future (on_receive (actor_context (actor x))) (actor x) m in
  put_cell id (gives (set_runner c (mkRunner a (actor_ref x) (dispatcher x) (mailbox x))) m) ≫= λ _,
  perform (Some d) calls ≫= λ _, mret res.

Definition arm (id : nat) (f : F) : M World unit :=
  modify id (λ c, set_driver c true false (Some f)).

(** The mail loop: whether it was left by [break] (or an empty mailbox) or by
    [return]. *)
Inductive loop_end : Type := Broke | Returned.

Fixpoint mail_loop (fuel : nat) (id : nat) : M World loop_end :=
  match fuel with
  | O => lift (UB "fuel")
  | S fuel =>
      interfere ≫= λ _, dequeue id ≫= λ m,
      match m with
      | None => mret Broke
      | Some m =>
          interfere ≫= λ _, get_cell id ≫= λ c,
          match life c with
          | Running =>
              receive id m ≫= λ res, interfere ≫= λ _,
              match res with
              | Panics => fail id ≫= λ _, mret Broke
              | Done => mail_loop fuel id
              | Pends f =>
                  arm id f ≫= λ _, poll_pending_receive id ≫= λ o,
                  match o with
                  | Ready | Pending => mret Returned
                  | PollDriver.Failed => fail id ≫= λ _, mret Broke
                  | Idle => mail_loop fuel id
                  end
              end
          | _ => put_cell id (throws c [m]) ≫= λ _, mret Broke
          end
      end
  end.

(** Lower [is_scheduled], look again, and raise it if nobody else has. *)
Definition hand_back (id : nat) : M World unit :=
  interfere ≫= λ _, modify id (λ c, set_scheduled c false) ≫= λ _,
  interfere ≫= λ _, get_cell id ≫= λ c,
  lift (try_peek (mailbox (runner c))) ≫= λ b,
  if b : bool then
    interfere ≫= λ _, get_cell id ≫= λ c,
    if is_scheduled c then mret tt
    else put_cell id (set_scheduled c true) ≫= λ _, schedule (dispatcher (runner c)) id
  else mret tt.

Definition execute (fuel : nat) (id : nat) : M World unit :=
  execute_pending_receive id ≫= λ go_on,
  if go_on : bool then
    get_cell id ≫= λ c,
    match life c with
    | Killing => finalize_kill id
    | Stopped => mret tt
    | Running =>
        mail_loop fuel id ≫= λ e,
        match e with
        | Returned => mret tt
        | Broke =>
            interfere ≫= λ _, get_cell id ≫= λ c,
            match life c with
            | Killing => finalize_kill id
            | _ => hand_back id
            end
        end
    end
  else mret tt.
End execution.

(** ** Spawning *)
Definition spawn (a : Actor A) (dispatcher_index : option Z) (name : option string)
    (mailbox_capacity : Z) : M World ActorRef :=
  get_state ≫= λ w,
  match (n ← name; aliases w !! n) with
  | Some _ => panic "Duplicate actor alias."
  | None =>
    on_registry reserve ≫= λ '(i, g),
    let dsp := default (i mod Z.of_nat (length (dispatchers w))) dispatcher_index in
    match dispatchers w !! Z.to_nat dsp with
    | None => panic "index out of bounds"
    | Some _ =>
        let r := mkActorRef i g name in
        lift (runner_new a dsp r mailbox_capacity) ≫= λ x,
        get_state ≫= λ w,
        let id := length (runners w) in
        put_state (set_aliases
          (set_runners w (runners w ++ [mkCell x false Running false false None [] [] [] false (length (log w))]))
          match name with Some n => <[n := (i, g)]> (aliases w) | None => aliases w end) ≫= λ _,
        on_registry (commit i id) ≫= λ _, mret r
    end
  end.

(** ** Shutdown: the kills of [begin_shutdown] *)
Fixpoint kill_each (l : list nat) : M World unit :=
  match l with
  | [] => mret tt
  | id :: rest => kill_runner id ≫= λ _, kill_each rest
  end.
Definition kill_all : M World unit := on_registry snapshot_live ≫= kill_each.

(** ** Runs: spawns, calls from outside, and turns of the dispatchers

    A turn takes the first runner of the queue and executes it (a worker takes
    its queue in batches, which does not change the order) while other threads
    act; what they do beyond its last access comes right after it.  A panic out
    of [execute] ends the worker thread.  A call that panics unwinds its caller
    and leaves the world as it has made it.  A mailbox of more than [2^62] slots
    does not fit the address space, and its allocation fails. *)
Inductive waction : Type :=
| Spawn (a : Actor A) (dispatcher_index : option Z) (name : option string) (mailbox_capacity : Z)
| Call (a : acall Msg)
| KillAll
| Turn (d : nat) (meanwhile : list (list (acall Msg))) (fuel : nat)
| Tick (now : Z).

Definition ended {X} (r : outcome X * World) : option World :=
  match r with (UB _, _) => None | (_, w) => Some w end.

(** The rest of what others do. *)
Definition catch_up w : option World := ended (perform None (concat (others w)) (set_others w [])).

Definition worker_dies (d id : nat) w : World :=
  set_dispatchers (set_runners w (alter crash id (runners w)))
    (alter (λ x, mkDisp (is_stopped x) false (scheduled x)) d (dispatchers w)).

Definition begin_turn (d : nat) (x : Disp) (rest : list nat) (meanwhile : list (list (acall Msg))) w : World :=
  set_others (set_dispatchers w (<[d := mkDisp (is_stopped x) (alive x) rest]> (dispatchers w))) meanwhile.

Definition wstep (a : waction) w : option World :=
  match a with
  | Spawn a k name n => if n <=? 2 ^ 62 then ended (spawn a k name n w) else None
  | Call c => ended (perform_one None c w)
  | KillAll => ended (kill_all w)
  | Turn d meanwhile fuel =>
      match dispatchers w !! d with
      | Some (mkDisp st true (id :: rest)) =>
          match execute (Z.of_nat d) fuel id (begin_turn d (mkDisp st true (id :: rest)) rest meanwhile w) with
          | (Ok _, w') => catch_up w'
          | (Panic _, w') => catch_up (worker_dies d id w')
          | (UB _, _) => None
          end
      | _ => None
      end
  | Tick now => Some (set_clock w now)
  end.

Definition world_new (dispatcher_count actor_capacity : Z) : World :=
  mkWorld (with_capacity actor_capacity) ∅ []
    (replicate (Z.to_nat dispatcher_count) (mkDisp false true [])) [] 0 [] [].
End world.
