(* ===== verification/ActorKeeps.v ===== *)
(** What programs over a world of actors ([ActorWorld]) leave as it is.  [R]
    relates a world to a later one, by what is the same or has only grown, and
    [agree] says which changes of a runner it allows; every operation short of
    finalization keeps such a relation, and finalization those that see neither
    the registry nor a runner's end. *)
From S2P Require Import Prelude MpscQueue RunnerProtocol PollDriver Registry ActorCore ActorWorld.

Create HintDb keeps discriminated.

(** The ring's operations keep its capacity and its shape. *)
Section ring.
Context {T : Type}.
Implicit Types (q : MpscBoundedQueue T).

Definition well q : Prop := exists C l, rep q C l.
Definition ring_next q q' : Prop := MpscQueue.capacity q' = MpscQueue.capacity q /\ (well q -> well q').

Lemma try_enqueue_next q x b q' : try_enqueue q x = Ok (b, q') -> ring_next q q'.
Proof.
  intros E. split.
  - revert E. unfold try_enqueue. cbn. intros H. repeat case_match; by simplify_eq.
  - intros (C & l & HR). destruct (try_enqueue_rep q C l x HR) as (q2 & _ & H).
    case_bool_decide; destruct H as [E2 H2]; rewrite E in E2; simplify_eq; [by eexists _, _|by exists C, l].
Qed.

Lemma try_dequeue_next q m q' : try_dequeue q = Ok (m, q') -> ring_next q q'.
Proof.
  intros E. split.
  - revert E. unfold try_dequeue. intros H. repeat case_match; by simplify_eq.
  - intros (C & l & HR). destruct (try_dequeue_rep q C l HR) as (q2 & _ & E2 & H2).
    rewrite E in E2. simplify_eq. by eexists _, _.
Qed.

Lemma drain_next fuel : forall q l q', drain fuel q = Ok (l, q') -> ring_next q q'.
Proof.
  induction fuel as [|fuel IH]; intros q l q' H; [done|]. cbn in H.
  unfold mbind, outcome_mbind, outcome_bind in H.
  destruct (try_dequeue q) as [[m q1]|e|e] eqn:E; [|done..]. apply try_dequeue_next in E as [E1 E2].
  destruct m as [m|]; [|by simplify_eq]. destruct (drain fuel q1) as [[l2 q2]|e|e] eqn:E'; [|done..].
  apply IH in E' as [E3 E4]. simplify_eq. split; [congruence|auto].
Qed.
End ring.

Section classes.
Context {A F Msg : Type}.
Notation World := (World (A := A) (F := F) (Msg := Msg)).
Notation Cell := (Cell (A := A) (F := F) (Msg := Msg)).
Implicit Types (w : World) (c : Cell).
Context (R : relation World) (agree : Cell -> Cell -> Prop).

(** [R] does not see queues, dead letters and the changes [agree] allows; and
    those are most changes of a runner. *)
Class Overlooks : Prop := {
  obs_put : forall w id c c', runners w !! id = Some c -> agree c c' ->
    R w (set_runners w (<[id := c']> (runners w)));
  obs_queue : forall w k x l, dispatchers w !! k = Some x ->
    R w (set_dispatchers w (<[k := mkDisp (is_stopped x) (alive x) l]> (dispatchers w)));
  obs_letters : forall w l, R w (set_letters w l);
}.

(** A mailbox is replaced by what its operations make of it. *)
Definition same_ring (c : Cell) (q : MpscBoundedQueue (ActorMail Msg)) : Prop :=
  ring_next (mailbox (runner c)) q.

Class Harmless : Prop := {
  agree_mailbox : forall c q, same_ring c q -> agree c (set_mailbox c q);
  agree_scheduled : forall c b, agree c (set_scheduled c b);
  agree_killing : forall c, life c = Running -> agree c (set_life c Killing);
  agree_driver : forall c a p f, agree c (set_driver c a p f);
  agree_behaviour : forall c a, agree c (set_behaviour c a);
  agree_gives : forall c a m, agree c (gives
    (set_runner c (mkRunner a (actor_ref (runner c)) (dispatcher (runner c)) (mailbox (runner c)))) m);
  agree_throws : forall c l, agree c (throws c l);
}.

(** The record of posts to the addresses in [elsewhere]. *)
Class OverlooksLog (elsewhere : nat * Z -> Prop) : Prop := {
  obs_log : forall w n g m, elsewhere (n, g) -> R w (set_log w (log w ++ [(n, g, m)]));
}.

(** Accepted mail. *)
Class OverlooksMail : Prop := {
  agree_arrives : forall c q m, same_ring c q -> agree c (arrives (set_mailbox c q) m);
}.

(** What others do in between: the next of it, or all of it. *)
Class OverlooksOthers : Prop := { obs_others : forall w l, R w (set_others w l) }.
Class OverlooksCalls : Prop := {
  obs_interfere : forall w l rest, others w = l :: rest -> R w (perform None l (set_others w rest)).2;
}.

(** Finalization. *)
Class OverlooksEnd : Prop := {
  obs_remove : forall w i g, R w (set_registry w (remove i g (registry w)).2);
  obs_aliases : forall w l, R w (set_aliases w l);
}.
Class OverlooksStop : Prop := {
  agree_stop : forall c, agree c (set_life c Stopped);
  agree_clear : forall c q l, same_ring c q ->
    agree c (set_driver (throws (set_mailbox c q) l) false false None);
}.
End classes.

(** An observation that stays the same. *)
Definition same_obs {A F Msg O} (obs : World (A := A) (F := F) (Msg := Msg) -> O) : relation World :=
  λ w w', obs w' = obs w.
#[export] Instance same_obs_preorder {A F Msg O} (obs : World (A := A) (F := F) (Msg := Msg) -> O) :
  PreOrder (same_obs obs).
Proof. split; unfold same_obs; [done|]. intros w1 w2 w3. congruence. Qed.

(** Calls that post only to the addresses in [elsewhere], and actors that make
    no other calls. *)
Definition posts_to {Msg} (elsewhere : nat * Z -> Prop) (a : acall Msg) : Prop :=
  match a with APost r _ => elsewhere (Z.to_nat (index r), ref_generation r) | _ => True end.

Class PostsTo {A F Msg} `{!ActorBase A F Msg} (elsewhere : nat * Z -> Prop) : Prop := {
  receive_posts : forall ctx (b : A) m s, Forall (posts_to elsewhere) (on_receive ctx b m s).1.2;
  poll_posts : forall k (f : F) (b : A), Forall (posts_to elsewhere) (poll_future k f b).1.2;
  kill_posts : forall b : A, Forall (posts_to elsewhere) (on_kill b).1.2;
  letter_posts : forall l, Forall (posts_to elsewhere) (on_dead_letter l).2;
}.

Lemma posts_anywhere {Msg} (a : acall Msg) : posts_to (λ _, True) a.
Proof. by destruct a. Qed.
#[export] Instance actors_post_anywhere {A F Msg} `{!ActorBase A F Msg} : PostsTo (λ _, True).
Proof. split; intros; apply Forall_true, posts_anywhere. Qed.

Section keeps.
Context {A F Msg : Type} `{!ActorBase A F Msg} (exception_message : Msg).
Notation World := (World (A := A) (F := F) (Msg := Msg)).
Notation Cell := (Cell (A := A) (F := F) (Msg := Msg)).
Implicit Types (w : World) (c : Cell).
Context (R : relation World) (agree : Cell -> Cell -> Prop).

Definition keeps {Y} (m : M World Y) : Prop := forall w, R w (m w).2.

Context `{!PreOrder R}.

Lemma keeps_bind {Y Z} (m : M World Y) (f : Y -> M World Z) :
  keeps m -> (forall y, keeps (f y)) -> keeps (m ≫= f).
Proof.
  intros Hm Hf w. specialize (Hm w). unfold mbind, M_bind.
  destruct (m w) as [[y|e|e] w1]; cbn in *; [|done..]. etransitivity; [exact Hm|apply Hf].
Qed.
Lemma keeps_ret {Y} (y : Y) : keeps (mret y).
Proof. by intros w. Qed.
Lemma keeps_lift {Y} (o : outcome Y) : keeps (lift o).
Proof. by intros w. Qed.
Lemma keeps_get id : keeps (get_cell id).
Proof. intros w. unfold get_cell. by destruct (runners w !! id). Qed.
Lemma keeps_continue {Y} (y : Y) (m : M World Y) s : keeps m -> R s.2 (continue y m s).2.2.
Proof.
  intros Hm. destruct s as [[] w]; cbn; [|done..]. specialize (Hm w). by destruct (m w) as [[] ?].
Qed.

(** A program that starts by looking at a runner. *)
Lemma keeps_with id {Y} (k : Cell -> M World Y) :
  (forall c w, runners w !! id = Some c -> R w (k c w).2) -> keeps (get_cell id ≫= k).
Proof.
  intros Hk w. unfold mbind, M_bind, get_cell. destruct (runners w !! id) as [c|] eqn:Hc; [|done].
  by apply Hk.
Qed.
Context `{!Overlooks R agree, !Harmless agree}.
#[local] Hint Resolve keeps_ret keeps_lift keeps_get : keeps.
Let mailbox_ok := agree_mailbox agree.
Let scheduled_ok := agree_scheduled agree.
Let killing_ok := agree_killing agree.
Let driver_ok := agree_driver agree.
Let behaviour_ok := agree_behaviour agree.
Let gives_ok := agree_gives agree.
Let throws_ok := agree_throws agree.
#[local] Hint Resolve mailbox_ok scheduled_ok killing_ok driver_ok behaviour_ok gives_ok throws_ok
  : keeps.

Lemma put_then id c c' {Y} (m : M World Y) w :
  runners w !! id = Some c -> agree c c' -> keeps m ->
  R w ((put_cell id c' ≫= λ _, m) w).2.
Proof.
  intros Hc Ha Hm. cbn. unfold mbind, M_bind. cbn. etransitivity; [|apply Hm]. by eapply (obs_put R agree).
Qed.

Lemma keeps_modify id f : (forall c, agree c (f c)) -> keeps (modify id f).
Proof. intros Hf. apply keeps_with. intros c w Hc. cbn. by eapply (obs_put R agree). Qed.

Lemma keeps_schedule d id : keeps (schedule d id).
Proof.
  intros w. unfold schedule. destruct (dispatchers w !! Z.to_nat d) as [x|] eqn:E; [|done]. cbn.
  destruct (is_stopped x) eqn:Es; [done|]. rewrite <- Es. by apply (obs_queue R agree).
Qed.
#[local] Hint Resolve keeps_schedule : keeps.

Ltac keep_step :=
  first [ solve [simple apply keeps_ret || auto 1 with keeps nocore]
        | apply keeps_modify; by auto with keeps nocore
        | apply keeps_bind; [|intros ?] | done | case_match ].
Ltac keep := repeat keep_step.
Ltac looks := let w := fresh "w" in let Hc := fresh "Hc" in apply keeps_with; intros ? w Hc.

Lemma keeps_kill id : keeps (kill_runner id).
Proof. looks. destruct (life c) eqn:El; [|done..]. eapply put_then; [done|auto with keeps|keep]. Qed.

Context `{!OverlooksMail agree} {elsewhere : nat * Z -> Prop} `{!OverlooksLog R elsewhere}.
Let arrives_ok := agree_arrives agree.
#[local] Hint Resolve arrives_ok : keeps.

Lemma keeps_enqueue id m : keeps (enqueue id m).
Proof.
  looks. destruct (life c); [|done..]. unfold mbind at 1, M_bind at 1, lift.
  destruct (try_enqueue _ _) as [[[] q]|e|e] eqn:E; [|done..]. apply try_enqueue_next in E.
  eapply put_then; [done|by apply arrives_ok|keep].
Qed.
#[local] Hint Resolve keeps_kill keeps_enqueue : keeps.

Lemma keeps_one cur a : posts_to elsewhere a -> keeps (perform_one cur a).
Proof.
  intros Hp w. destruct a as [r m|r|k]; cbn [perform_one].
  - unfold post_mail, post. destruct (resolve _ _ _) as [id|]; [|by apply (obs_log R)].
    cbn [enqueue_only schedule_self runner_ops]. set (w1 := set_log w _).
    pose proof (keeps_continue false _ (Ok tt, w1) (keeps_enqueue id m)) as H. revert H.
    assert (R w w1) as Hw by (by apply (obs_log R)).
    destruct (continue false _ _) as [[] s]; cbn; intros Hs; [|by etransitivity].
    etransitivity; [exact Hw|]. etransitivity; [exact Hs|]. apply keeps_continue.
    unfold schedule_runner. keep.
  - unfold kill_ref, kill. destruct (resolve _ _ _) as [id|]; [|done]. cbn [runner_kill runner_ops].
    apply (keeps_continue tt _ (Ok tt, w)), keeps_kill.
  - unfold wake_by_ref. destruct (runners w !! _) as [c|] eqn:Hc; [|done].
    destruct (dispatchers w !! _); [|done]. destruct (_ && _); [|done].
    eapply put_then; [done|auto with keeps|keep].
Qed.

Lemma keeps_perform cur l : Forall (posts_to elsewhere) l -> keeps (perform cur l).
Proof.
  induction 1 as [|a l Ha _ IH]; cbn [perform]; [keep|]. apply keeps_bind; [by apply keeps_one|done].
Qed.

Context `{!PostsTo elsewhere, !OverlooksCalls R}.

Lemma keeps_interfere : keeps interfere.
Proof. intros w. unfold interfere. destruct (others w) as [|l rest] eqn:E; [done|]. by apply obs_interfere. Qed.
#[local] Hint Resolve keeps_interfere : keeps.

Lemma keeps_publish d id : keeps (publish_execution_exception exception_message d id).
Proof.
  apply keeps_bind; [apply keeps_get|]. intros c w. unfold mbind at 1, M_bind at 1. cbn [get_state].
  unfold mbind at 1, M_bind at 1. cbn [put_state]. set (letter := execution_exception _ _ _).
  etransitivity; [apply (obs_letters R agree)|].
  pose proof (letter_posts letter) as Hp. destruct (on_dead_letter letter) as [res calls].
  apply (keeps_bind (perform (Some d) calls) (λ _, lift _)); [by apply keeps_perform|intros _; keep].
Qed.
#[local] Hint Resolve keeps_publish : keeps.
Lemma keeps_fail d id : keeps (fail exception_message d id).
Proof. unfold fail. keep. Qed.

Lemma keeps_poll d id : keeps (poll_pending_receive d id).
Proof.
  unfold poll_pending_receive. apply keeps_bind; [apply keeps_modify; auto with keeps|]. intros _.
  apply keeps_bind; [apply keeps_interfere|]. intros _. looks.
  destruct (pending c) as [f|]; [|by eapply put_then; [done|auto with keeps|keep]].
  pose proof (poll_posts (mkWaker id d) f (behaviour (actor (runner c)))) as Hp.
  destruct (poll_future _ _ _) as [[[res f'] calls] a]. eapply put_then; [done|auto with keeps|].
  apply keeps_bind; [by apply keeps_perform|intros _]. unfold schedule_runner. keep.
Qed.

Lemma keeps_receive d id m : keeps (receive d id m).
Proof.
  unfold receive. looks. unfold create_receive_future, into_parts.
  pose proof (receive_posts (actor_context (actor (runner c))) (behaviour (actor (runner c)))
    (message m) (sender m)) as Hp.
  destruct (on_receive _ _ _ _) as [[res calls] a].
  eapply put_then; [done|auto with keeps|]. apply keeps_bind; [by apply keeps_perform|intros _; keep].
Qed.
#[local] Hint Resolve keeps_fail keeps_poll keeps_receive : keeps.

Lemma keeps_dequeue id : keeps (dequeue id).
Proof.
  unfold dequeue. looks. unfold mbind at 1, M_bind at 1, lift.
  destruct (try_dequeue _) as [[m q]|e|e] eqn:E; [|done..]. apply try_dequeue_next in E.
  eapply put_then; [done|by apply mailbox_ok|keep].
Qed.
#[local] Hint Resolve keeps_dequeue : keeps.

Lemma keeps_loop d fuel id : keeps (mail_loop exception_message d fuel id).
Proof.
  induction fuel as [|fuel IH]; cbn [mail_loop]; [apply keeps_lift|].
  apply keeps_bind; [apply keeps_interfere|]. intros _.
  apply keeps_bind; [apply keeps_dequeue|]. intros [m|]; [|keep].
  apply keeps_bind; [apply keeps_interfere|]. intros _. looks.
  destruct (life c); [|by eapply put_then; [done|auto with keeps|keep]..]. unfold arm.
  match goal with |- R w (?m w).2 => enough (keeps m) as H by apply H end. keep.
Qed.

Lemma keeps_pending d id : keeps (execute_pending_receive exception_message d id).
Proof. unfold execute_pending_receive. keep. Qed.

Lemma keeps_hand_back id : keeps (hand_back id).
Proof.
  unfold hand_back. do 4 (apply keeps_bind; [by keep|intros ?]). apply keeps_bind; [keep|].
  intros []; [|keep]. apply keeps_bind; [keep|]. intros _.
  apply keeps_with. intros c w Hc. destruct (is_scheduled c); [done|].
  eapply put_then; [done|auto with keeps|keep].
Qed.

Lemma keeps_kill_each l : keeps (kill_each l).
Proof. induction l as [|id l IH]; cbn [kill_each]; keep. Qed.

(** *** With finalization *)
Section finalization.
Context `{!OverlooksEnd R, !OverlooksStop agree}.
#[local] Hint Resolve keeps_loop keeps_pending keeps_hand_back : keeps.

Lemma keeps_remove i g : keeps (on_registry (remove i g)).
Proof.
  intros w. unfold on_registry. pose proof (obs_remove R w i g) as H.
  by destruct (remove i g (registry w)).
Qed.

Lemma keeps_snapshot : keeps (on_registry snapshot_live).
Proof.
  intros w. unfold on_registry, snapshot_live, with_alloc, lock_unwrap.
  assert (set_registry w (registry w) = w) as E by (by destruct w). destruct (poisoned _); cbn; by rewrite E.
Qed.
#[local] Hint Resolve keeps_snapshot : keeps.

Lemma keeps_on_finalize i g : keeps (on_finalize i g).
Proof.
  unfold on_finalize. apply keeps_bind; [apply keeps_remove|]. intros [id|]; [|keep].
  apply keeps_bind; [apply keeps_get|]. intros c. case_match; [|keep]. intros w. apply (obs_aliases R).
Qed.
#[local] Hint Resolve keeps_on_finalize : keeps.

Lemma keeps_clear_out id : keeps (clear_out id).
Proof.
  unfold clear_out. looks. unfold mbind at 1, M_bind at 1, lift at 1.
  destruct (drop_queue _) as [[dropped q]|e|e] eqn:E; [|done..]. apply drain_next in E.
  eapply (obs_put R agree); [done|by apply (agree_clear agree)].
Qed.

Lemma keeps_on_kill d id : keeps (run_on_kill d id).
Proof.
  unfold run_on_kill. looks. pose proof (kill_posts (behaviour (actor (runner c)))) as Hp.
  destruct (on_kill _) as [[res calls] a]. eapply put_then; [done|auto with keeps|].
  apply keeps_bind; [by apply keeps_perform|intros _; keep].
Qed.
#[local] Hint Resolve keeps_clear_out keeps_on_kill : keeps.

Lemma keeps_finalize d id : keeps (finalize_kill d id).
Proof.
  unfold finalize_kill. looks.
  assert (forall (m : M World unit), keeps m ->
    R w (match life c with Stopped => mret tt | _ => put_cell id (set_life c Stopped) ≫= λ _, m end w).2) as H.
  { intros m Hm. destruct (life c); [| |done].
    all: eapply put_then; [done|apply (agree_stop agree)|done]. }
  apply H. keep.
Qed.
#[local] Hint Resolve keeps_finalize : keeps.

Lemma keeps_execute d fuel id : keeps (execute exception_message d fuel id).
Proof. unfold execute. keep. Qed.

End finalization.

Lemma keeps_kill_all : keeps kill_all.
Proof. unfold kill_all. apply keeps_bind; [apply keeps_snapshot|]. apply keeps_kill_each. Qed.
End keeps.

(** Calls of others change what calls change. *)
#[export] Instance calls_overlooked {A F Msg} (R : relation (World (A := A) (F := F) (Msg := Msg))) agree
  `{!PreOrder R, !Overlooks R agree, !Harmless agree, !OverlooksMail agree, !OverlooksOthers R,
    !OverlooksLog R (λ _, True)} : OverlooksCalls R.
Proof.
  split. intros w l rest _. etransitivity; [apply (obs_others R w rest)|].
  apply (keeps_perform R agree). apply Forall_true, posts_anywhere.
Qed.

(** A whole turn. *)
Section turns.
Context {A F Msg : Type} `{!ActorBase A F Msg} (exception_message : Msg).
Notation World := (World (A := A) (F := F) (Msg := Msg)).
Notation Cell := (Cell (A := A) (F := F) (Msg := Msg)).
Context (R : relation World) (agree : Cell -> Cell -> Prop) `{!PreOrder R}.
Context `{!Overlooks R agree, !Harmless agree, !OverlooksMail agree, !OverlooksEnd R, !OverlooksStop agree}.
Context `{!OverlooksOthers R, !OverlooksLog R (λ _, True)}.

Lemma keeps_catch_up (w w' : World) : catch_up w = Some w' -> R w w'.
Proof.
  unfold catch_up, ended. pose proof (obs_others R w []) as H0.
  assert (R (set_others w []) (perform None (concat (others w)) (set_others w [])).2) as H1
    by (apply (keeps_perform R agree), Forall_true, posts_anywhere).
  destruct (perform _ _ _) as [[]?]; cbn in H1; [..|done]; intros [= <-]; by etransitivity.
Qed.

(** All of a turn but its end, where the worker may die. *)
Lemma turn_keeps dn st id rest meanwhile fuel (w : World) :
  dispatchers w !! dn = Some (mkDisp st true (id :: rest)) ->
  R w (execute exception_message (Z.of_nat dn) fuel id
         (begin_turn dn (mkDisp st true (id :: rest)) rest meanwhile w)).2.
Proof.
  intros Hd. etransitivity; [apply (obs_queue R agree w dn _ rest Hd)|].
  etransitivity; [apply (obs_others R)|]. eapply (keeps_execute exception_message R agree); apply _.
Qed.
End turns.

(** ** Observations *)
Section observations.
Context {A F Msg : Type}.
Notation World := (World (A := A) (F := F) (Msg := Msg)).
Notation Cell := (Cell (A := A) (F := F) (Msg := Msg)).
Implicit Types (w : World) (c : Cell).

(** The registry, which only spawns and finalization change. *)
#[export] Instance registry_overlooks : Overlooks (same_obs (λ w : World, registry w)) (λ _ _, True).
Proof. by split. Qed.
#[export] Instance registry_log : OverlooksLog (same_obs (λ w : World, registry w)) (λ _, True).
Proof. by split. Qed.
#[export] Instance registry_others : OverlooksOthers (same_obs (λ w : World, registry w)).
Proof. by split. Qed.

(** Which worker threads live. *)
Definition alive_flags w : list bool := alive <$> dispatchers w.

#[export] Instance alive_overlooks : Overlooks (same_obs alive_flags) (λ _ _, True).
Proof.
  split; [done| |done..]. intros w k x l Hx. unfold same_obs, alive_flags. cbn. rewrite list_fmap_insert. cbn.
  rewrite list_insert_id; [done|]. by rewrite list_lookup_fmap, Hx.
Qed.
#[export] Instance alive_log : OverlooksLog (same_obs alive_flags) (λ _, True).
Proof. by split. Qed.
#[export] Instance alive_harmless : Harmless (A := A) (F := F) (Msg := Msg) (λ _ _, True).
Proof. by split. Qed.
#[export] Instance alive_mail : OverlooksMail (A := A) (F := F) (Msg := Msg) (λ _ _, True).
Proof. by split. Qed.
#[export] Instance alive_others : OverlooksOthers (same_obs alive_flags).
Proof. by split. Qed.
#[export] Instance alive_end : OverlooksEnd (same_obs alive_flags).
Proof. by split. Qed.
#[export] Instance alive_stop : OverlooksStop (A := A) (F := F) (Msg := Msg) (λ _ _, True).
Proof. by split. Qed.

Lemma spawn_alive a k name n : keeps (same_obs alive_flags) (spawn (A := A) (F := F) (Msg := Msg) a k name n).
Proof.
  intros w. unfold spawn. unfold mbind at 1, M_bind at 1. cbn [get_state].
  destruct (name ≫= _); [done|].
  match goal with |- same_obs alive_flags w (?m w).2 => enough (keeps (same_obs alive_flags) m) as H by apply H end.
  apply keeps_bind; [apply _|intros w1; unfold on_registry; by destruct (reserve _)|intros [i g]]. case_match; [|done].
  apply keeps_bind; [apply _|apply keeps_lift, _|intros x]. intros w2. cbn. unfold mbind, M_bind. cbn.
  unfold on_registry. by destruct (commit _ _ _) as [[] ?].
Qed.

End observations.
