(* ===== verification/ActorCalls.v ===== *)
(** What holds in every world of actors ([ActorWorld]): no call into the runtime
    fails, every mailbox holds what it accepted and was not yet given, every
    runner whose flag is up is in a dispatcher's queue, a handle reaches only the
    actor it was issued for, and an actor that has not stopped is reached.  This
    file: weakest preconditions, the invariant, and the calls actors and other
    threads make. *)
From S2P Require Import Prelude MpscQueue RunnerProtocol PollDriver Registry ActorCore ActorWorld ActorKeeps.

(** ** Weakest preconditions

    [Q] holds of a value and the world with it, [E] of the world a panic leaves,
    and of no world if the fuel runs out or memory is misused. *)
Section logic.
Context {A F Msg : Type}.
Notation World := (World (A := A) (F := F) (Msg := Msg)).

Definition wpw {X} (m : M World X) (Q : X -> World -> Prop) (E : option World -> Prop) (w : World) :
    Prop :=
  match m w with
  | (Ok x, w') => Q x w'
  | (Panic _, w') => E (Some w')
  | (UB _, _) => E None
  end.

Lemma wpw_ret {X} (x : X) (Q : X -> World -> Prop) E w : Q x w -> wpw (mret x) Q E w.
Proof. done. Qed.

Lemma wpw_bind {X Y} (m : M World X) (f : X -> M World Y) Q E w :
  wpw m (λ x, wpw (f x) Q E) E w -> wpw (m ≫= f) Q E w.
Proof. unfold wpw, mbind, M_bind. by destruct (m w) as [[] ?]. Qed.

Lemma wpw_mono {X} (m : M World X) (Q Q' : X -> World -> Prop) (E E' : option World -> Prop) w :
  wpw m Q E w -> (forall x w', Q x w' -> Q' x w') -> (forall o, E o -> E' o) -> wpw m Q' E' w.
Proof. unfold wpw. destruct (m w) as [[] ?]; eauto. Qed.

Lemma wpw_get id c Q E (w : World) :
  runners w !! id = Some c -> Q c w -> wpw (get_cell id) Q E w.
Proof. intros Hc. unfold wpw, get_cell. by rewrite Hc. Qed.

Lemma wpw_modify id f c Q E (w : World) :
  runners w !! id = Some c -> Q tt (set_runners w (<[id := f c]> (runners w))) ->
  wpw (modify id f) Q E w.
Proof. intros Hc HQ. unfold modify. apply wpw_bind. by apply (wpw_get _ c). Qed.

Lemma put_put id c c' (w : World) :
  set_runners (set_runners w (<[id := c]> (runners w)))
    (<[id := c']> (runners (set_runners w (<[id := c]> (runners w)))))
  = set_runners w (<[id := c']> (runners w)).
Proof. unfold set_runners. cbn. by rewrite list_insert_insert_eq. Qed.

Lemma wpw_lift {X} (o : outcome X) x Q E (w : World) : o = Ok x -> Q x w -> wpw (lift o) Q E w.
Proof. by intros ->. Qed.
End logic.

Ltac go := apply wpw_bind.

(** The facts about a runner after a change of other fields. *)
Ltac fields := cbn in *; split_and!; try done; try (intros; congruence); auto.

(** ** The invariant *)
Section invariant.
Context {A F Msg : Type}.
Notation World := (World (A := A) (F := F) (Msg := Msg)).
Notation Cell := (Cell (A := A) (F := F) (Msg := Msg)).
Notation Mail := (ActorMail Msg).

(** How far the execution under way has come: nothing special; a mail between its
    dequeue and [on_receive]; [is_scheduled] lowered and the mailbox not yet
    looked at again; stopped, its mailbox cleared or not, and not yet out of the
    registry. *)
Inductive stage : Type := Rest | Hand (id : nat) (m : Mail) | Back (id : nat) | Ending (id : nat) (cleared : bool).

Implicit Types (w : World) (c : Cell) (h : stage) (X : gset nat).

Definition addr c : nat * Z :=
  (Z.to_nat (index (actor_ref (runner c))), ref_generation (actor_ref (runner c))).

(** The mail posted to an address, in order. *)
Definition mails_to (a : nat * Z) (l : list (nat * Z * Mail)) : list Mail :=
  omap (λ e, if decide (e.1 = a) then Some e.2 else None) l.

(** What was posted to a runner's address since it was spawned. *)
Definition posted c w : list Mail := mails_to (addr c) (drop (since c) (log w)).

(** What its mailbox holds. *)
Definition room c : Z := MpscQueue.capacity (mailbox (runner c)).

Definition in_hand h (id : nat) : list Mail :=
  match h with Hand j m => if decide (j = id) then [m] else [] | _ => [] end.

Definition on_its_way_out h : option nat := match h with Ending id _ => Some id | _ => None end.

(** A runner's own state. *)
Definition cell_ok h (id : nat) c : Prop :=
  exists C inbox, rep (mailbox (runner c)) C inbox
    /\ arrived c = given c ++ thrown c ++ in_hand h id ++ inbox
    /\ (is_scheduled c = false -> (inbox = [] \/ h = Back id) /\ pending c = None)
    /\ (life c = Stopped -> (inbox = [] \/ h = Ending id false) /\ pending c = None)
    /\ is_active c = bool_decide (is_Some (pending c))
    /\ (life c = Running -> thrown c = [] /\ crashed c = false).

Definition queued (d : Z) (id : nat) w : Prop :=
  exists x, dispatchers w !! Z.to_nat d = Some x /\ id ∈ scheduled x.

(** Whose flag is up is in its dispatcher's queue; who was woken is in some
    queue. *)
Definition waits (id : nat) c w : Prop :=
  life c <> Stopped -> pending c = None -> crashed c = false -> is_scheduled c = true ->
  queued (dispatcher (runner c)) id w.
Definition polls (id : nat) c w : Prop :=
  is_poll_scheduled c = true -> is_active c = true /\ exists d, queued d id w.

(** All that was posted was accepted, while there was room. *)
Definition accepts c w : Prop :=
  life c = Running -> Z.of_nat (length (posted c w)) <= room c -> arrived c = posted c w.

Record cell_inv X h w (id : nat) c : Prop := {
  ci_ok : cell_ok h id c;
  ci_waits : id ∉ X -> waits id c w;
  ci_polls : polls id c w;
  ci_posted : arrived c `sublist_of` posted c w;
  ci_accepts : accepts c w;
  ci_since : (since c <= length (log w))%nat;
  ci_home : is_Some (dispatchers w !! Z.to_nat (dispatcher (runner c)));
  ci_index : 0 <= index (actor_ref (runner c));
}.

(** The registry: well formed unless a panic poisoned it; its owners are the
    runners that have not stopped (or crashed on their way out). *)
Record registry_inv h w : Prop := {
  gi_wf : poisoned (alloc (registry w)) = false -> wf (registry w);
  gi_slots : Z.of_nat (length (slots (registry w))) = Registry.capacity (registry w);
  gi_owner : forall n sl id, slots (registry w) !! n = Some sl -> owner sl = Some id ->
    exists c, runners w !! id = Some c /\ addr c = (n, generation sl)
      /\ (life c <> Stopped \/ crashed c = true \/ on_its_way_out h = Some id);
  gi_all : forall id c, runners w !! id = Some c -> life c <> Stopped \/ on_its_way_out h = Some id ->
    exists n sl, slots (registry w) !! n = Some sl /\ owner sl = Some id;
}.

(** [X]: runners whose place in the queue is under repair, or that are being
    executed. *)
Record world_inv X h w : Prop := {
  wi_cells : forall id c, runners w !! id = Some c -> cell_inv X h w id c;
  wi_registry : registry_inv h w;
  wi_dispatchers : forall d x, dispatchers w !! d = Some x -> is_stopped x = false;
  wi_queued : forall d id, queued d id w -> is_Some (runners w !! id);
}.

(** What the calls of other actors leave of a runner. *)
Definition like c c' : Prop :=
  addr c' = addr c /\ actor_ref (runner c') = actor_ref (runner c)
  /\ dispatcher (runner c') = dispatcher (runner c)
  /\ actor (runner c') = actor (runner c) /\ pending c' = pending c /\ is_active c' = is_active c
  /\ (is_scheduled c = true -> is_scheduled c' = true)
  /\ (life c' = Stopped <-> life c = Stopped) /\ (life c = Killing -> life c' = Killing)
  /\ given c' = given c /\ thrown c' = thrown c /\ crashed c' = crashed c.

Definition frame w w' : Prop :=
  (forall id c, runners w !! id = Some c -> exists c', runners w' !! id = Some c' /\ like c c')
  /\ registry w' = registry w /\ others w' `suffix_of` others w.

#[export] Instance like_preorder : PreOrder like.
Proof.
  split.
  - intros c. by unfold like.
  - intros c1 c2 c3 H H'. unfold like in *. destruct_and!. split_and!; try congruence; tauto.
Qed.

#[export] Instance frame_preorder : PreOrder frame.
Proof.
  split.
  - intros w. split; [|done]. intros id c Hc. exists c. by split.
  - intros w1 w2 w3 (H1 & E1 & S1) (H2 & E2 & S2).
    split; [|split; [congruence|by etransitivity]]. intros id c Hc.
    destruct (H1 id c Hc) as (c2 & Hc2 & L1). destruct (H2 id c2 Hc2) as (c3 & Hc3 & L2).
    exists c3. split; [done|]. by etransitivity.
Qed.

Lemma mails_to_snoc a l n g (m : Mail) :
  mails_to a (l ++ [(n, g, m)]) = mails_to a l ++ (if decide ((n, g) = a) then [m] else []).
Proof. unfold mails_to. rewrite omap_app. cbn. by destruct (decide ((n, g) = a)). Qed.

Lemma frame_put w id c c' :
  runners w !! id = Some c -> like c c' -> frame w (set_runners w (<[id := c']> (runners w))).
Proof.
  intros Hc HL. split; [|done]. intros j cj Hj. cbn. destruct (decide (j = id)) as [->|].
  - rewrite list_lookup_insert_eq by (by eapply lookup_lt_Some). exists c'. split; [done|].
    by simplify_eq.
  - rewrite list_lookup_insert_ne by done. by exists cj.
Qed.

(** What the other runners need of a change of stage. *)
Definition stage_other (id : nat) h h' : Prop :=
  on_its_way_out h' = on_its_way_out h
  /\ forall j, j <> id -> in_hand h' j = in_hand h j /\ (h = Back j -> h' = Back j)
       /\ (h = Ending j false -> h' = Ending j false).

Lemma stage_same id h : stage_other id h h.
Proof. by split. Qed.

Lemma cell_ok_other id h h' j c : stage_other id h h' -> j <> id -> cell_ok h j c -> cell_ok h' j c.
Proof.
  intros [He Ho] Hne (C & inbox & H1 & H2 & H3 & H4 & H5 & H6). destruct (Ho j Hne) as (Eh & Hb & Hd).
  exists C, inbox. rewrite Eh. split_and!; try done.
  - intros E. destruct (H3 E) as [[?|?] ?]; auto.
  - intros E. destruct (H4 E) as [[?|?] ?]; auto.
Qed.

(** One runner changes. *)
Lemma inv_put X X' h h' w id c c' :
  world_inv X h w -> runners w !! id = Some c -> addr c' = addr c ->
  (life c' = Stopped <-> life c = Stopped) -> crashed c' = crashed c ->
  cell_inv X' h' w id c' -> stage_other id h h' -> (forall j, j <> id -> j ∉ X' -> j ∉ X) ->
  world_inv X' h' (set_runners w (<[id := c']> (runners w))).
Proof.
  intros [HC [HW HN0 HO HA] HD HN] Hc Ha Hl Hcr H' Hst HX. pose proof (proj1 Hst) as He. pose proof (lookup_lt_Some _ _ _ Hc) as Hlt.
  split; [|split; [done|done| |]|done|]; cbn.
  - intros j cj Hcj. destruct (decide (j = id)) as [->|Hne].
    + rewrite list_lookup_insert_eq in Hcj by done. simplify_eq. by destruct H'.
    + rewrite list_lookup_insert_ne in Hcj by done.
      destruct (HC j cj Hcj) as [H1 H2 H3 H4 H5 H6 H7 H8]. split; try done; [by eapply cell_ok_other|auto].
  - intros n sl k Hn Hk. destruct (HO n sl k Hn Hk) as (ck & Hck & Hak & Hlk).
    rewrite He. destruct (decide (k = id)) as [->|Hne].
    + rewrite list_lookup_insert_eq by done. exists c'. rewrite Hc in Hck. injection Hck as <-.
      split_and!; [done|congruence|].
      by rewrite Hl, Hcr.
    + rewrite list_lookup_insert_ne by done. by exists ck.
  - intros j cj Hcj Hlj. destruct (decide (j = id)) as [->|Hne].
    + rewrite list_lookup_insert_eq in Hcj by done. simplify_eq. apply (HA id c Hc).
      by rewrite Hl, He in Hlj.
    + rewrite list_lookup_insert_ne in Hcj by done. apply (HA j cj Hcj). by rewrite He in Hlj.
  - intros d j Hq. apply lookup_lt_is_Some. rewrite length_insert. by eapply lookup_lt_is_Some, HN.
Qed.

Lemma queued_schedule d id w d' j :
  queued d' j w -> queued d' j (schedule d id w).2.
Proof.
  intros (x & Hx & Hin). unfold schedule. destruct (dispatchers w !! Z.to_nat d) as [y|] eqn:E;
    [|by exists x]. destruct (is_stopped y); [by exists x|]. unfold queued. cbn.
  destruct (decide (Z.to_nat d = Z.to_nat d')) as [Ed|Ed].
  - rewrite Ed in *. simplify_eq. rewrite list_lookup_insert_eq by (by eapply lookup_lt_Some).
    eexists. split; [done|]. cbn. set_solver.
  - rewrite list_lookup_insert_ne by done. by exists x.
Qed.

Lemma schedule_fields d id w :
  runners (schedule d id w).2 = runners w /\ registry (schedule d id w).2 = registry w
  /\ log (schedule d id w).2 = log w /\ (schedule d id w).1 = Ok tt
  /\ others (schedule d id w).2 = others w.
Proof. unfold schedule. destruct (_ !! _) as [x|]; [destruct (is_stopped x)|]; done. Qed.

Lemma schedule_disp d id w k :
  is_Some (dispatchers w !! k) -> is_Some (dispatchers (schedule d id w).2 !! k).
Proof.
  unfold schedule. destruct (_ !! Z.to_nat d) as [x|]; [destruct (is_stopped x)|]; try done. cbn.
  by rewrite !lookup_lt_is_Some, length_insert.
Qed.

Lemma cell_inv_schedule X h d id w j c :
  cell_inv X h w j c -> cell_inv X h (schedule d id w).2 j c.
Proof.
  intros [H1 H2 H3 H4 H5 H6 H7 H8]. destruct (schedule_fields d id w) as (_ & _ & HL & _).
  split; unfold accepts, posted in *; rewrite ?HL; try done.
  - intros Hj ? ? ? ?. by apply queued_schedule, H2.
  - intros Hp. destruct (H3 Hp) as [? [d' ?]]. split; [done|]. exists d'. by apply queued_schedule.
  - by apply schedule_disp.
Qed.

Lemma schedule_queued d id w d' j :
  queued d' j (schedule d id w).2 -> queued d' j w \/ j = id.
Proof.
  unfold schedule. destruct (dispatchers w !! Z.to_nat d) as [x|] eqn:E; [|by left].
  destruct (is_stopped x); [by left|]. unfold queued. cbn. intros (y & Hy & Hj).
  destruct (decide (Z.to_nat d' = Z.to_nat d)) as [Ed|].
  - rewrite Ed, list_lookup_insert_eq in Hy by (by eapply lookup_lt_Some). simplify_eq. cbn in Hj.
    apply elem_of_app in Hj as [Hj|Hj]; [left; exists x; by rewrite Ed|set_solver].
  - rewrite list_lookup_insert_ne in Hy by done. left. by exists y.
Qed.

Lemma inv_schedule X h d id w :
  is_Some (runners w !! id) -> world_inv X h w -> world_inv X h (schedule d id w).2 /\ frame w (schedule d id w).2
  /\ (is_Some (dispatchers w !! Z.to_nat d) -> queued d id (schedule d id w).2).
Proof.
  intros Hid [HC [HW HS HO HA] HD HN]. destruct (schedule_fields d id w) as (HR & HG & HL & _ & HE).
  split_and!.
  - split.
    + rewrite HR. intros j c Hj. by apply cell_inv_schedule, HC.
    + split; rewrite ?HG, ?HR; done.
    + unfold schedule. destruct (dispatchers w !! Z.to_nat d) as [x|] eqn:E; [|done].
      destruct (is_stopped x) eqn:Es; [done|]. cbn. intros k y Hy.
      destruct (decide (k = Z.to_nat d)) as [->|].
      * rewrite list_lookup_insert_eq in Hy by (by eapply lookup_lt_Some). by simplify_eq.
      * rewrite list_lookup_insert_ne in Hy by done. eauto.
    + rewrite HR. intros d' j [Hj| ->]%schedule_queued; eauto.
  - split; [|by rewrite HE]. rewrite HR. intros j c Hj. by exists c.
  - intros [x Hx]. unfold schedule. rewrite Hx, (HD _ x Hx). unfold queued. cbn.
    rewrite list_lookup_insert_eq by (by eapply lookup_lt_Some). eexists. split; [done|]. cbn.
    set_solver.
Qed.

(** Scheduling a runner repairs its place in the queue. *)
Lemma schedule_repairs X h id c w :
  world_inv ({[id]} ∪ X) h w -> runners w !! id = Some c ->
  world_inv X h (schedule (dispatcher (runner c)) id w).2.
Proof.
  intros HI Hc.
  destruct (inv_schedule _ h (dispatcher (runner c)) id w ltac:(eauto) HI) as ([HC HG HD HN] & _ & HQ).
  destruct (schedule_fields (dispatcher (runner c)) id w) as (HR & _).
  specialize (HQ (ci_home _ _ _ _ _ (wi_cells _ _ _ HI id c Hc))).
  split; [|done..]. intros j cj Hj. destruct (HC j cj Hj) as [H1 H2 H3 H4 H5 H6 H7 H8]. split; try done.
  intros HX. destruct (decide (j = id)) as [->|]; [|apply H2; set_solver].
  rewrite HR in Hj. simplify_eq. by intros ? ? ? ?.
Qed.
End invariant.

(** ** Calls into the runtime *)
Section calls.
Context {A F Msg : Type}.
Notation World := (World (A := A) (F := F) (Msg := Msg)).
Notation Cell := (Cell (A := A) (F := F) (Msg := Msg)).
Notation Mail := (ActorMail Msg).
Implicit Types (w : World) (c : Cell) (h : stage (Msg := Msg)) (X : gset nat).

Definition never (o : option World) : Prop := False.


(** What a call made by user code guarantees. *)
Definition safe_call (m : M World unit) : Prop := forall X h w,
  world_inv X h w -> wpw m (λ _ w', world_inv X h w' /\ frame w w') never w.

Lemma wpw_schedule X h d id w (Q : unit -> World -> Prop) E :
  is_Some (runners w !! id) -> world_inv X h w ->
  (world_inv X h (schedule d id w).2 -> frame w (schedule d id w).2 -> Q tt (schedule d id w).2) ->
  wpw (schedule d id) Q E w.
Proof.
  intros Hid HI HQ. destruct (inv_schedule X h d id w Hid HI) as (H1 & H2 & _).
  destruct (schedule_fields d id w) as (_ & _ & _ & E1 & _). unfold wpw.
  destruct (schedule d id w) as [o w'] eqn:Es; cbn in *; subst o. by apply HQ.
Qed.

Lemma wpw_schedule_runner X h id c w (Q : unit -> World -> Prop) E :
  world_inv ({[id]} ∪ X) h w -> runners w !! id = Some c ->
  (forall w', world_inv X h w' -> frame w w' -> Q tt w') ->
  wpw (schedule (dispatcher (runner c)) id) Q E w.
Proof.
  intros HI Hc HQ. eapply wpw_schedule; [by eauto|exact HI|]. intros _ HF. apply HQ; [|done].
  by apply schedule_repairs.
Qed.

Lemma not_repaired X (id : nat) : forall j, j <> id -> j ∉ ({[id]} ∪ X : gset nat) -> j ∉ X.
Proof. set_solver. Qed.
Lemma under_repair X (id : nat) (P : Prop) : id ∉ ({[id]} ∪ X : gset nat) -> P.
Proof. set_solver. Qed.

Lemma kill_runner_ok X h id w :
  is_Some (runners w !! id) -> world_inv X h w ->
  wpw (kill_runner id) (λ _ w', world_inv X h w' /\ frame w w'
    /\ forall c, runners w' !! id = Some c -> life c <> Running) never w.
Proof.
  intros [c Hc] HI. pose proof (lookup_lt_Some _ _ _ Hc) as Hlt.
  destruct (wi_cells X h w HI id c Hc) as [(C & inbox & HR & HA & HS & HT & HV & HU) H2 H3 H4 H5 H6 H7 H8].
  unfold kill_runner. go. apply (wpw_get _ c); [done|]. destruct (life c) eqn:El.
  2,3: apply wpw_ret; split_and!; [done|done|intros c' ?; simplify_eq; congruence].
  go. unfold wpw at 1, put_cell. destruct (is_scheduled c) eqn:Es.
  - apply wpw_ret. split_and!.
    + eapply inv_put; [exact HI|exact Hc|done|by rewrite El|done| |apply stage_same|done]. split; try done.
      * exists C, inbox. fields.
      * intros HX _ Hp Hcr _. by apply H2; [|rewrite El|..].
    + eapply frame_put; [done|]. unfold like. cbn. rewrite ?El. fields.
    + cbn. intros c'. rewrite list_lookup_insert_eq by done. by intros [= <-].
  - go. eapply wpw_modify; [cbn; by rewrite list_lookup_insert_eq|]. rewrite put_put.
    set (c1 := set_scheduled _ _).
    change (dispatcher (runner c)) with (dispatcher (runner c1)).
    eapply wpw_schedule_runner; [|cbn; by rewrite list_lookup_insert_eq|].
    + eapply inv_put; [exact HI|exact Hc|done|by rewrite El|done| |apply stage_same|apply not_repaired].
      split; try done.
      * exists C, inbox. fields.
      * apply under_repair.
    + intros w' HI' [HF HG]. split_and!; [done| |].
      * etransitivity; [|split; [exact HF|exact HG]]. eapply frame_put; [done|]. unfold like.
        rewrite El. fields.
      * intros c' Hc'. destruct (HF id c1) as (c2 & Hc2 & L); [cbn; by rewrite list_lookup_insert_eq|].
        simplify_eq. destruct L as (_&_&_&_&_&_&_&_&HK&_). by rewrite HK.
Qed.

(** *** A post, with its record *)
Definition note (n : nat) (g : Z) (m : Mail) w : World := set_log w (log w ++ [(n, g, m)]).

Lemma frame_note n g m w : frame w (note n g m w).
Proof. split; [|done]. intros id c Hc. by exists c. Qed.

Lemma posted_note n g m c w :
  (since c <= length (log w))%nat ->
  posted c (note n g m w) = posted c w ++ (if decide ((n, g) = addr c) then [m] else []).
Proof. intros Hs. unfold posted, note. cbn. by rewrite drop_app_le, mails_to_snoc. Qed.

(** It leaves alone who is not a running actor at its address. *)
Lemma cell_inv_note X h n g m w id c :
  cell_inv X h w id c -> (life c = Running -> addr c <> (n, g)) -> cell_inv X h (note n g m w) id c.
Proof.
  intros [H1 H2 H3 H4 H5 H6 H7 H8] Hl. split; try done.
  - rewrite posted_note by done. by apply sublist_inserts_r.
  - intros Hr. rewrite posted_note by done. rewrite decide_False, app_nil_r by (intros E; by apply (Hl Hr)).
    by apply H5.
  - unfold note. cbn. rewrite length_app. lia.
Qed.

Lemma inv_note X h n g m w :
  world_inv X h w -> (forall id c, runners w !! id = Some c -> life c = Running -> addr c <> (n, g)) ->
  world_inv X h (note n g m w).
Proof.
  intros [HC HG HD HN] Hl. split; [|by destruct HG|done|done].
  intros id c Hc. apply cell_inv_note; [by apply HC|exact (Hl id c Hc)].
Qed.

(** The one at its address changes. *)
Lemma inv_put_note X X' h n g m w id c c' :
  world_inv X h w -> runners w !! id = Some c -> addr c' = addr c ->
  (life c' = Stopped <-> life c = Stopped) -> crashed c' = crashed c ->
  cell_inv X' h (note n g m w) id c' -> (forall j, j <> id -> j ∉ X' -> j ∉ X) ->
  (forall j cj, runners w !! j = Some cj -> j <> id -> life cj = Running -> addr cj <> (n, g)) ->
  world_inv X' h (set_runners (note n g m w) (<[id := c']> (runners w))).
Proof.
  intros HI Hc Ha Hl Hcr H' HX Ho. pose proof (lookup_lt_Some _ _ _ Hc) as Hlt.
  destruct HI as [HC [HW HS HO HA] HD HN]. split; [|split; [done|done| |]|done|]; cbn.
  - intros j cj Hcj. destruct (decide (j = id)) as [->|Hne].
    + rewrite list_lookup_insert_eq in Hcj by done. simplify_eq. by destruct H'.
    + rewrite list_lookup_insert_ne in Hcj by done.
      destruct (cell_inv_note X h n g m w j cj (HC j cj Hcj)) as [H1 H2 H3 H4 H5 H6 H7 H8]; [by eapply Ho|].
      split; try done; auto.
  - intros n' sl k Hn Hk. destruct (HO n' sl k Hn Hk) as (ck & Hck & Hak & Hlk).
    destruct (decide (k = id)) as [->|Hne].
    + rewrite list_lookup_insert_eq by done. exists c'. rewrite Hc in Hck. injection Hck as <-.
      split_and!; [done|congruence|]. by rewrite Hl, Hcr.
    + rewrite list_lookup_insert_ne by done. by exists ck.
  - intros j cj Hcj Hlj. destruct (decide (j = id)) as [->|Hne].
    + rewrite list_lookup_insert_eq in Hcj by done. simplify_eq. apply (HA id c Hc). by rewrite Hl in Hlj.
    + rewrite list_lookup_insert_ne in Hcj by done. by apply (HA j cj).
  - intros d j Hq. apply lookup_lt_is_Some. rewrite length_insert. by eapply lookup_lt_is_Some, HN.
Qed.

(** What is accepted stays all that was posted. *)
Lemma accepts_note n g m c q w :
  (since c <= length (log w))%nat -> addr c = (n, g) -> accepts c w -> life c = Running ->
  same_ring c q -> accepts (arrives (set_mailbox c q) m) (note n g m w).
Proof.
  intros Hs Ha HA Hr Hq _. change (posted (arrives _ _) ?w) with (posted c w).
  rewrite posted_note, decide_True, length_app by done. cbn. unfold room. cbn. rewrite (proj1 Hq).
  intros Hl. rewrite HA; [done..|]. unfold room. lia.
Qed.

Lemma enqueue_ok X h id c n g m w :
  runners w !! id = Some c -> world_inv X h w -> addr c = (n, g) ->
  (forall j cj, runners w !! j = Some cj -> j <> id -> life cj = Running -> addr cj <> (n, g)) ->
  wpw (enqueue id m) (λ b w', frame w w' /\ is_Some (runners w' !! id)
    /\ world_inv (if b : bool then {[id]} ∪ X else X) h w') never (note n g m w).
Proof.
  intros Hc HI Ha Ho. pose proof (lookup_lt_Some _ _ _ Hc) as Hlt.
  destruct (wi_cells X h w HI id c Hc) as [(C & inbox & HR & HA & HS & HT & HV & HU) H2 H3 H4 H5 H6 H7 H8].
  unfold enqueue. go. apply (wpw_get _ c); [done|].
  destruct (life c) eqn:El.
  2,3: apply wpw_ret; split_and!; [apply frame_note|by eauto|apply inv_note; [done|]];
    intros j cj Hj Hlj; destruct (decide (j = id)) as [->|]; [simplify_eq; congruence|by eapply Ho].
  destruct (try_enqueue_rep _ C inbox m HR) as (q & _ & Hq).
  case_bool_decide as Hroom; destruct Hq as [Eq HR']; go; (eapply wpw_lift; [exact Eq|]).
  2: { apply wpw_ret. split_and!; [apply frame_note|by eauto|].
    enough (world_inv X h (set_runners (note n g m w) (<[id := c]> (runners w)))) as HIn
      by (rewrite list_insert_id in HIn by done; exact HIn).
    eapply (inv_put_note X _ h n g m w id c); [done|done|done|done|done| |done|done].
    split; [exists C, inbox; by rewrite El in *|done|done| | |cbn; rewrite length_app; lia|done|done].
    - rewrite posted_note by done. by apply sublist_inserts_r.
    - intros _ Hlen. exfalso. revert Hlen. rewrite posted_note, decide_True, length_app by done. cbn.
      intros Hlen. rewrite (H5 El) in HA by lia. apply Hroom. unfold room in Hlen.
      rewrite HA in Hlen. rewrite !length_app in Hlen. lia. }
  go. unfold wpw at 1, put_cell. pose proof (try_enqueue_next _ _ _ _ Eq) as Hcap.
  pose proof (accepts_note n g m c q w H6 Ha H5 El Hcap) as Hacc.
  assert (arrived c ++ [m] `sublist_of` posted c (note n g m w)) as Hsub.
  { rewrite posted_note, decide_True by done. by apply sublist_app. }
  assert (since c <= length (log (note n g m w)))%nat as Hsin by (cbn; rewrite length_app; lia).
  destruct (is_scheduled c) eqn:Es.
  - apply wpw_ret. split_and!.
    + etransitivity; [apply (frame_note n g m)|]. eapply frame_put; [done|]. unfold like. cbn. rewrite ?El. fields.
    + cbn. rewrite list_lookup_insert_eq by done. eauto.
    + eapply (inv_put_note X _ h n g m w id c); [exact HI|exact Hc|done|cbn; tauto|done| |done|done]. split; try done.
      exists C, (inbox ++ [m]). fields. by rewrite HA, <- !app_assoc.
  - go. eapply wpw_modify; [cbn; by rewrite list_lookup_insert_eq|]. rewrite put_put.
    apply wpw_ret. split_and!.
    + etransitivity; [apply (frame_note n g m)|]. eapply frame_put; [done|]. unfold like. cbn. rewrite ?El. fields.
    + cbn. rewrite list_lookup_insert_eq by done. eauto.
    + eapply (inv_put_note X _ h n g m w id c); [exact HI|exact Hc|done|cbn; tauto|done| |apply not_repaired|done].
      split; try done; [|apply under_repair].
      exists C, (inbox ++ [m]). fields. by rewrite HA, <- !app_assoc.
Qed.

Lemma resolve_owner h w i g id :
  registry_inv h w -> resolve (registry w) i g = Some id ->
  exists c, runners w !! id = Some c /\ addr c = (Z.to_nat i, g).
Proof.
  intros [_ _ HO _]. unfold resolve, slot_at. destruct (_ <=? _); [done|].
  destruct (slots _ !! _) as [sl|] eqn:E; [|done]. destruct (Z.eqb_spec (generation sl) g); [|done].
  intros Ho. destruct (HO _ sl id E Ho) as (c & Hc & Ha & _). exists c. split; [done|]. congruence.
Qed.

(** An actor that has not stopped is reached through its handle. *)
Lemma resolve_live h w i g id c :
  registry_inv h w -> runners w !! id = Some c -> life c <> Stopped -> addr c = (Z.to_nat i, g) ->
  resolve (registry w) i g = Some id.
Proof.
  intros [_ HS HO HA] Hc Hl Ha. destruct (HA id c Hc (or_introl Hl)) as (n & sl & Hn & Ho).
  destruct (HO n sl id Hn Ho) as (c' & Hc' & Ha' & _). rewrite Hc in Hc'. injection Hc' as <-.
  rewrite Ha in Ha'. injection Ha' as Hi Hg. unfold resolve, slot_at.
  pose proof (lookup_lt_Some _ _ _ Hn) as Hlt.
  destruct (Z.leb_spec (Registry.capacity (registry w)) i); [lia|].
  by rewrite Hi, Hn, <- Hg, Z.eqb_refl.
Qed.

(** The registry's calls, as computations over the world. *)
Lemma wpw_continue {Y} (dflt : Y) (m : M World Y) (Q : Y -> World -> Prop) w :
  wpw m Q never w ->
  let '(y, s) := continue dflt m (Ok tt, w) in
  match s with (Ok _, w') => Q y w' | _ => False end.
Proof. unfold wpw, continue, never. by destruct (m w) as [[] ?]. Qed.

Lemma safe_post r m : safe_call (post_mail r m).
Proof.
  intros X h w HI. unfold post_mail, post, wpw. pose proof (wi_registry _ _ _ HI) as HG.
  fold (note (Z.to_nat (index r)) (ref_generation r) m w).
  destruct (resolve (registry w) (index r) (ref_generation r)) as [id|] eqn:Er; cycle 1.
  { split; [|apply frame_note]. apply inv_note; [done|]. intros id c Hc Hl Ha.
    by rewrite (resolve_live h w _ _ id c HG Hc ltac:(congruence) Ha) in Er. }
  destruct (resolve_owner h w _ _ id HG Er) as (c & Hc & Ha).
  pose proof (wpw_continue false _ _ _ (enqueue_ok X h id c _ _ m w Hc HI Ha ltac:(
    intros j cj Hj Hne Hl Haj; rewrite (resolve_live h w _ _ j cj HG Hj ltac:(congruence) Haj) in Er; congruence)))
    as HE.
  cbn [enqueue_only runner_ops]. destruct (continue false (enqueue id m) _) as [b s].
  destruct s as [[[]|e|e] w2]; [|by destruct b, HE|by destruct b; subst].
  destruct HE as (HF2 & [c2 Hc2] & HI2). destruct b; [|done].
  cbn [schedule_self runner_ops].
  assert (wpw (schedule_runner id) (λ _ w', world_inv X h w' /\ frame w w') never w2) as HS.
  { unfold schedule_runner. go. apply (wpw_get _ c2); [done|].
    eapply wpw_schedule_runner; [done|done|]. intros w' ? ?. split; [done|]. by etransitivity. }
  pose proof (wpw_continue tt _ _ _ HS) as HT.
  destruct (continue tt (schedule_runner id) (Ok tt, w2)) as [? [[]?]]; cbn; done.
Qed.

Lemma safe_kill r : safe_call (kill_ref r).
Proof.
  intros X h w HI. unfold kill_ref, kill, wpw.
  destruct (resolve (registry w) (index r) (ref_generation r)) as [id|] eqn:Er; [|by split].
  destruct (resolve_owner h w _ _ id (wi_registry _ _ _ HI) Er) as (c & Hc & _).
  pose proof (wpw_continue tt _ _ _ (kill_runner_ok X h id w ltac:(eauto) HI)) as HK.
  cbn [runner_kill runner_ops].
  destruct (continue tt (kill_runner id) (Ok tt, w)) as [? [[]?]]; cbn; naive_solver.
Qed.

Lemma safe_wake current k : safe_call (wake_by_ref current k).
Proof.
  intros X h w HI. unfold wake_by_ref. set (d := default (home k) current). set (id := wake_of k).
  unfold wpw. destruct (runners w !! id) as [c|] eqn:Hc; [|by split].
  destruct (dispatchers w !! Z.to_nat d) as [x|] eqn:Hx; [|by split].
  destruct (is_active c) eqn:Ea; [|by split]. destruct (is_poll_scheduled c) eqn:Ep; [by split|].
  cbn [andb negb]. fold (wpw (put_cell id (set_driver c true true (pending c)) ≫= λ _, schedule d id)
    (λ _ w', world_inv X h w' /\ frame w w') never w).
  destruct (wi_cells X h w HI id c Hc) as [(C & inbox & HR & HA & HS & HT & HV & HU) H2 H3 H4 H5 H6 H7 H8].
  set (c1 := set_driver c true true (pending c)).
  set (w1 := set_runners w (<[id := c1]> (runners w))).
  go. unfold wpw at 1, put_cell. fold w1.
  assert (frame w w1) as HF1.
  { eapply frame_put; [done|]. unfold like. cbn. rewrite ?Ea. fields. }
  (* scheduling first does not change the runners *)
  destruct (inv_schedule X h d id w ltac:(eauto) HI) as (HIs & _ & HQ).
  destruct (schedule_fields d id w) as (HRs & HGs & HLs & _ & HEs).
  assert (schedule d id w1 = (Ok tt, set_runners (schedule d id w).2 (<[id := c1]> (runners w)))) as E.
  { unfold schedule. cbn. rewrite Hx. by destruct (is_stopped x). }
  unfold wpw. rewrite E. split.
  - rewrite <- HRs. eapply inv_put; [exact HIs|by rewrite HRs|done|done|done| |apply stage_same|done].
    destruct (wi_cells _ _ _ HIs id c) as [G1 G2 G3 G4 G5 G6 G7 G8]; [by rewrite HRs|]. split; try done.
    + exists C, inbox. fields.
    + intros _. split; [done|]. exists d. apply HQ. eauto.
  - etransitivity; [exact HF1|]. split; [|cbn; by rewrite HGs, HEs]. intros j cj Hj. exists cj. by split.
Qed.

Lemma safe_one current a : safe_call (perform_one current a).
Proof. destruct a; [apply safe_post|apply safe_kill|apply safe_wake]. Qed.

Lemma safe_perform current l : safe_call (perform current l).
Proof.
  induction l as [|a l IH]; intros X h w HI; cbn [perform]; [by split|]. go.
  eapply wpw_mono; [by apply safe_one| |done]. intros [] w1 [HI1 HF1].
  eapply wpw_mono; [by apply IH| |done]. intros [] w2 [HI2 HF2]. split; [done|]. by etransitivity.
Qed.

(** The invariant does not look at what is still to come. *)
Lemma inv_others X h w l : world_inv X h w -> world_inv X h (set_others w l).
Proof.
  intros [HC [HW HS HO HA] HD HN]. split; [|by split|done|done].
  intros id c Hc. destruct (HC id c Hc) as [H1 H2 H3 H4 H5 H6 H7 H8]. by split.
Qed.

Lemma safe_interfere : safe_call interfere.
Proof.
  intros X h w HI. unfold interfere, wpw. destruct (others w) as [|l rest] eqn:E; [by split|].
  eapply (wpw_mono (perform None l)); [by apply (safe_perform None l X h), inv_others| |done].
  intros [] w' [HI' HF]. split; [done|]. etransitivity; [|exact HF].
  split; [intros id c Hc; by exists c|]. split; [done|]. cbn. rewrite E. by exists [l].
Qed.

(** *** Calls that do not post to [a] *)
Definition quiet_calls (a : nat * Z) (l : list (acall Msg)) : Prop :=
  forall r m, APost r m ∈ l -> (Z.to_nat (index r), ref_generation r) <> a.

(** What runner [id] accepted. *)
Definition arrived_at (id : nat) w : option (list Mail) := arrived <$> runners w !! id.

#[local] Instance arrived_overlooks id :
  Overlooks (same_obs (arrived_at id)) (λ c c' : Cell, arrived c' = arrived c).
Proof.
  split; [|done..]. intros w j c c' Hj Ha. unfold same_obs, arrived_at. cbn. destruct (decide (id = j)) as [->|].
  - rewrite list_lookup_insert_eq, Hj by (by eapply lookup_lt_Some). cbn. by rewrite Ha.
  - by rewrite list_lookup_insert_ne.
Qed.
#[local] Instance arrived_harmless : Harmless (λ c c' : Cell, arrived c' = arrived c).
Proof. by split. Qed.

Lemma enqueue_other id j m : j <> id -> keeps (same_obs (arrived_at id)) (enqueue j m).
Proof.
  intros Hne. apply keeps_with; [apply _|]. intros c w Hj. destruct (life c); [|done..].
  unfold mbind at 1, M_bind at 1, lift. destruct (try_enqueue _ _) as [[[] q]|e|e]; [|done..].
  unfold mbind at 1, M_bind at 1. cbn [put_cell]. set (w1 := set_runners w _).
  transitivity w1; [unfold same_obs, arrived_at, w1; cbn; by rewrite list_lookup_insert_ne|].
  destruct (is_scheduled c); [done|]. apply (keeps_bind (same_obs (arrived_at id))); [|done].
  eapply keeps_modify; [apply _..|done].
Qed.

Lemma quiet_one current a id c h w :
  registry_inv h w -> runners w !! id = Some c -> quiet_calls (addr c) [a] ->
  arrived_at id (perform_one current a w).2 = arrived_at id w.
Proof.
  intros HG Hc Hq. destruct a as [r m|r|k]; cbn [perform_one].
  - unfold post_mail, post. set (w1 := set_log w _).
    destruct (resolve _ _ _) as [j|] eqn:Er; [|done].
    destruct (resolve_owner h w _ _ j HG Er) as (cj & Hcj & Ha).
    assert (j <> id) as Hne.
    { intros ->. rewrite Hc in Hcj. injection Hcj as <-. apply (Hq r m); [set_solver|done]. }
    cbn [enqueue_only schedule_self runner_ops].
    pose proof (keeps_continue (same_obs (arrived_at id)) false _ (Ok tt, w1) (enqueue_other id j m Hne)) as H. revert H.
    destruct (continue false _ _) as [b s]. cbn. intros H. destruct b; [|exact H].
    etransitivity; [|exact H]. apply (keeps_continue (same_obs (arrived_at id)) tt _ s). apply keeps_bind; [apply _|..].
    + apply keeps_get, _.
    + intros. eapply keeps_schedule; apply _.
  - unfold kill_ref, kill. destruct (resolve _ _ _) as [j|]; [|done]. cbn [runner_kill runner_ops].
    apply (keeps_continue (same_obs (arrived_at id)) tt _ (Ok tt, w)). by eapply keeps_kill; apply _.
  - unfold wake_by_ref. destruct (runners w !! wake_of k) as [ck|] eqn:Hk; [|done].
    destruct (dispatchers w !! _); [|done]. destruct (_ && _); [|done].
    unfold mbind, M_bind. cbn [put_cell].
    etransitivity; [eapply (keeps_schedule (same_obs (arrived_at id))); apply _|]. unfold arrived_at. cbn.
    destruct (decide (id = wake_of k)) as [->|].
    + rewrite list_lookup_insert_eq, Hk by (by eapply lookup_lt_Some). done.
    + by rewrite list_lookup_insert_ne.
Qed.

Lemma quiet_perform current l id c X h w :
  world_inv X h w -> runners w !! id = Some c -> quiet_calls (addr c) l ->
  wpw (perform current l) (λ _ w', arrived_at id w' = arrived_at id w) never w.
Proof.
  revert w c. induction l as [|a l IH]; intros w c HI Hc Hq; [done|]. cbn [perform]. go.
  pose proof (quiet_one current a id c h w (wi_registry _ _ _ HI) Hc) as H1.
  pose proof (safe_one current a X h w HI) as H2. revert H1 H2. unfold wpw at 1 2.
  destruct (perform_one current a w) as [[[]|e|e] w1]; [|done..]. cbn. intros H1 [HI1 [HF1 _]].
  destruct (HF1 id c Hc) as (c1 & Hc1 & L). destruct L as [La _].
  eapply wpw_mono; [apply (IH w1 c1 HI1 Hc1)| |done].
  - rewrite La. intros r m Hin. apply (Hq r m). set_solver.
  - intros [] w2 ->. apply H1. intros r m Hin. apply (Hq r m). set_solver.
Qed.

(** Others who do not post to [a]. *)
Definition quiet_others (a : nat * Z) w : Prop := Forall (quiet_calls a) (others w).

Lemma quiet_suffix a w w' : quiet_others a w -> others w' `suffix_of` others w -> quiet_others a w'.
Proof. unfold quiet_others. intros H [k E]. rewrite E in H. by apply Forall_app in H as [_ ?]. Qed.

Lemma quiet_interfere id c X h w :
  world_inv X h w -> runners w !! id = Some c -> quiet_others (addr c) w ->
  wpw interfere (λ _ w', arrived_at id w' = arrived_at id w) never w.
Proof.
  intros HI Hc Hq. unfold interfere, wpw, quiet_others in *. destruct (others w) as [|l rest]; [done|].
  inversion Hq as [|? ? Hl _]; subst.
  by apply (quiet_perform None l id c X h (set_others w rest)); [apply inv_others|..].
Qed.
End calls.
