(* ===== verification/ActorDelivery.v ===== *)
(** The invariant of [ActorCalls] through [execute], with other threads acting in
    between: polling a pending receive, the mail loop, finalization, the end of
    an execution; then spawning, turns and runs. *)
From S2P Require Import Prelude MpscQueue RunnerProtocol PollDriver Registry ActorCore ActorWorld ActorKeeps ActorCalls.

(** ** Execution *)
Section execution.
Context {A F Msg : Type} `{!ActorBase A F Msg} (exception_message : Msg) (d : Z).
Notation World := (World (A := A) (F := F) (Msg := Msg)).
Notation Cell := (Cell (A := A) (F := F) (Msg := Msg)).
Notation Mail := (ActorMail Msg).
Implicit Types (w : World) (c : Cell) (h : stage (Msg := Msg)) (X : gset nat).

(** What can make an execution panic. *)
Definition mishap (r : ActorRegistry nat) : Prop :=
  (exists a : A, (on_kill a).1.1 = KillPanics)
  \/ (exists l, (on_dead_letter l).1 = CallbackPanics)
  \/ poisoned (alloc r) = true.

(** After a panic, one of these and the invariant, but for the runner executed,
    which does not run any more; without fuel, [U]. *)
Definition unwound (U : Prop) (r : ActorRegistry nat) (id : nat) (o : option World) : Prop :=
  match o with
  | Some w => (exists h, (h = Rest \/ h = Ending id true) /\ world_inv ({[id]} ∪ ∅) h w) /\ mishap r
      /\ forall c, runners w !! id = Some c -> life c <> Running
  | None => U
  end.

(** What a program keeps, besides. *)
Lemma wpw_keeps {Y} (R : relation World) (m : M World Y) (Q : Y -> World -> Prop) E w :
  keeps R m -> wpw m Q E w -> wpw m (λ y w', Q y w' /\ R w w') E w.
Proof. intros Hk. specialize (Hk w). unfold wpw. by destruct (m w) as [[] ?]. Qed.

(** The invariant looks at four fields. *)
Lemma inv_ext X h w w' :
  world_inv X h w -> runners w' = runners w -> registry w' = registry w ->
  dispatchers w' = dispatchers w -> log w' = log w -> world_inv X h w'.
Proof.
  intros [HC [HW HS HO HA] HD HN] E1 E2 E3 E4.
  split; [|split| |unfold queued]; rewrite ?E1, ?E2, ?E3; try done.
  intros id c Hc. destruct (HC id c Hc) as [H1 H2 H3 H4 H5 H6 H7 H8].
  split; unfold waits, polls, queued, accepts, posted in *; rewrite ?E3, ?E4; done.
Qed.

(** A runner in its place in the queue is no exception any more. *)
Lemma inv_settle X h id w :
  world_inv ({[id]} ∪ X) h w -> (forall c, runners w !! id = Some c -> waits id c w) ->
  world_inv X h w.
Proof.
  intros [HC HG HD HN] Hw. split; [|done..]. intros j c Hj.
  destruct (HC j c Hj) as [H1 H2 H3 H4 H5 H6 H7 H8].
  split; try done. intros HX. destruct (decide (j = id)) as [->|]; [by apply Hw|]. apply H2. set_solver.
Qed.

Lemma inv_unsettle X h id w : world_inv X h w -> world_inv ({[id]} ∪ X) h w.
Proof.
  intros [HC HG HD HN]. split; [|done..]. intros j c Hj.
  destruct (HC j c Hj) as [H1 H2 H3 H4 H5 H6 H7 H8]. split; try done. intros HX. apply H2. set_solver.
Qed.

(** The same handle, the same home, the same past. *)
Definition same c c' : Prop :=
  actor_ref (runner c') = actor_ref (runner c) /\ dispatcher (runner c') = dispatcher (runner c)
  /\ crashed c' = crashed c.

Lemma like_same c c' : like c c' -> same c c'.
Proof. unfold like, same. intros H. by destruct_and!. Qed.

Lemma same_trans c1 c2 c3 : same c1 c2 -> same c2 c3 -> same c1 c3.
Proof. intros (?&?&?) (?&?&?). split_and!; congruence. Qed.

(** Changing the runner in execution: its own state is all that counts. *)
Lemma inv_own X h h' w id c c' :
  world_inv ({[id]} ∪ X) h w -> runners w !! id = Some c -> same c c' -> since c' = since c ->
  arrived c' = arrived c -> room c' = room c -> life c' = life c ->
  cell_ok h' id c' -> polls id c' w -> stage_other id h h' ->
  world_inv ({[id]} ∪ X) h' (set_runners w (<[id := c']> (runners w))).
Proof.
  intros HI Hc (S1 & S2 & S3) Hs Ha Hr Hl Hok Hp Hst.
  assert (addr c' = addr c) as E by (unfold addr; by rewrite S1).
  assert (posted c' w = posted c w) as Ep by (unfold posted; by rewrite E, Hs).
  eapply inv_put; [exact HI|exact Hc|done|by rewrite Hl|done| |done|done].
  destruct (wi_cells _ _ _ HI id c Hc) as [H1 H2 H3 H4 H5 H6 H7 H8].
  split; [done|apply under_repair|done|by rewrite Ha, Ep| |by rewrite Hs|by rewrite S2|by rewrite S1].
  unfold accepts. by rewrite Ha, Ep, Hr, Hl.
Qed.

Definition reset c : Cell := set_driver c (is_active c) false (pending c).
Definition put id c w : World := set_runners w (<[id := c]> (runners w)).

Lemma lookup_put id c w : is_Some (runners w !! id) -> runners (put id c w) !! id = Some c.
Proof. intros H%lookup_lt_is_Some. cbn. by apply list_lookup_insert_eq. Qed.

Lemma put_same id c w : runners w !! id = Some c -> put id c w = w.
Proof. intros Hc. unfold put, set_runners. rewrite list_insert_id by done. by destruct w. Qed.

(** *** Other threads in between *)

(** What they leave of the runner in execution. *)
Definition later id c w w' : Prop :=
  exists c', runners w' !! id = Some c' /\ like c c' /\ others w' `suffix_of` others w
    /\ (quiet_others (addr c) w -> arrived c' = arrived c).

Lemma interfere_ok X h id c w (Q : unit -> World -> Prop) E :
  world_inv X h w -> runners w !! id = Some c ->
  (forall w', world_inv X h w' -> registry w' = registry w -> later id c w w' -> Q tt w') ->
  wpw interfere Q E w.
Proof.
  intros HI Hc HQ. pose proof (safe_interfere X h w HI) as HS. revert HS.
  pose proof (quiet_interfere id c X h w HI Hc) as HA. revert HA. unfold wpw.
  destruct (interfere w) as [[[]|e|e] w']; [|done..]. intros HA [HI' (HF & HG & HO)].
  apply HQ; [done|done|]. destruct (HF id c Hc) as (c' & Hc' & L). exists c'. split_and!; [done..|].
  intros Hq. specialize (HA Hq). unfold arrived_at in HA. rewrite Hc, Hc' in HA. by injection HA.
Qed.

Lemma perform_ok X h id c l w (Q : unit -> World -> Prop) E :
  world_inv X h w -> runners w !! id = Some c ->
  (forall w' c', world_inv X h w' -> registry w' = registry w -> runners w' !! id = Some c' -> like c c' ->
     others w' `suffix_of` others w -> (quiet_calls (addr c) l -> arrived c' = arrived c) -> Q tt w') ->
  wpw (perform (Some d) l) Q E w.
Proof.
  intros HI Hc HQ. pose proof (safe_perform (Some d) l X h w HI) as HS. revert HS.
  pose proof (quiet_perform (Some d) l id c X h w HI Hc) as HA. revert HA. unfold wpw.
  destruct (perform _ _ w) as [[[]|e|e] w']; [|done..]. intros HA [HI' (HF & HG & HO)].
  destruct (HF id c Hc) as (c' & Hc' & L). apply (HQ w' c'); [done..|].
  intros Hq. specialize (HA Hq). unfold arrived_at in HA. rewrite Hc, Hc' in HA. by injection HA.
Qed.

(** What a poll of a pending receive leaves. *)
Definition polled id c (o : PollOutcome) w' : Prop :=
  exists c', runners w' !! id = Some c' /\ same c c' /\
  match o with
  | Pending | Ready => world_inv ∅ Rest w'
  | PollDriver.Failed =>
      world_inv ({[id]} ∪ ∅) Rest w' /\ pending c' = None /\ life c' <> Stopped
  | Idle => False
  end.

(** The receive is over, one way or the other. *)
Lemma disarm_ok id c w :
  world_inv ({[id]} ∪ ∅) Rest w -> runners w !! id = Some c ->
  world_inv ({[id]} ∪ ∅) Rest (put id (set_driver c false false None) w).
Proof.
  intros HI Hc. destruct (wi_cells _ _ _ HI id c Hc) as [(C & inbox & HR & HA & HS & HT & HV & HU) _ _ _ _ _ _ _].
  eapply inv_own; [exact HI|exact Hc|done..| |done|apply stage_same]. exists C, inbox. fields.
  - intros E. split; [|done]. by apply HS.
  - intros E. split; [|done]. by apply HT.
Qed.

(** From the future's answer on. *)
Lemma answered_ok id c (res : future_result) f' w :
  world_inv ({[id]} ∪ ∅) Rest w -> runners w !! id = Some c -> is_Some (pending c) ->
  wpw (match res with
      | FutPending =>
          modify id (λ c, set_driver c (is_active c) (is_poll_scheduled c) (Some f')) ≫= λ _,
          mret Pending
      | FutReady =>
          modify id (λ c, set_driver c false false None) ≫= λ _,
          interfere ≫= λ _, schedule_runner id ≫= λ _, mret Ready
      | FutPanicked =>
          modify id (λ c, set_driver c false false None) ≫= λ _, mret PollDriver.Failed
      end) (polled id c) never w.
Proof.
  intros HI Hc Hp.
  destruct (wi_cells _ _ _ HI id c Hc) as [(C & inbox & HR & HA & HS & HT & HV & HU) _ P _ _ _ _ _].
  assert (life c <> Stopped) as El by (intros E; destruct (HT E) as [_ Hn]; rewrite Hn in Hp; by destruct Hp).
  destruct res; go; (eapply wpw_modify; [done|]).
  - (* ready *)
    go. set (c3 := set_driver c false false None).
    assert (world_inv ({[id]} ∪ ∅) Rest (put id c3 w)) as HI3 by (by apply disarm_ok).
    pose proof (lookup_put id c3 w ltac:(eauto)) as Hr3.
    eapply interfere_ok; [exact HI3|exact Hr3|]. intros w4 HI4 _ (c4 & Hc4 & L4 & _).
    go. unfold schedule_runner. go. apply (wpw_get _ c4); [done|].
    eapply wpw_schedule_runner; [done|done|]. intros w5 HI5 [HF5 _]. apply wpw_ret.
    destruct (HF5 id c4 Hc4) as (c5 & Hc5 & L5). exists c5. split_and!; [done| |done].
    apply (same_trans _ c4); [by apply (same_trans _ c3); [|apply like_same]|by apply like_same].
  - (* pending *)
    apply wpw_ret. set (c3 := set_driver c _ _ (Some f')). exists c3.
    split_and!; [by apply lookup_put; eauto|done|]. apply (inv_settle ∅ Rest id).
    + eapply inv_own; [exact HI|exact Hc|done..| |done|apply stage_same]. exists C, inbox. fields.
      * intros E. destruct (HS E) as [_ Hn]. rewrite Hn in Hp. by destruct Hp.
      * rewrite HV. by rewrite bool_decide_eq_true_2.
    + intros c4 Hc4. change (runners (put id c3 w) !! id = Some c4) in Hc4.
      rewrite lookup_put in Hc4 by eauto. by injection Hc4 as <-; intros ? ?.
  - (* failed *)
    apply wpw_ret. set (c3 := set_driver c false false None). exists c3.
    split_and!; [by apply lookup_put; eauto|done|by apply disarm_ok|done|done].
Qed.

Lemma poll_ok id c f w :
  runners w !! id = Some c -> pending c = Some f -> world_inv ({[id]} ∪ ∅) Rest (put id (reset c) w) ->
  wpw (poll_pending_receive d id) (polled id c) never w.
Proof.
  intros Hc Hf HI. assert (is_Some (runners w !! id)) as Hs by eauto.
  unfold poll_pending_receive. go. eapply wpw_modify; [done|].
  change (set_runners w _) with (put id (reset c) w).
  pose proof (lookup_put id (reset c) w Hs) as Hr. go.
  eapply interfere_ok; [exact HI|exact Hr|]. clear HI Hr Hs Hc. intros w1 HI _ (c1 & Hc & L & _).
  pose proof (like_same _ _ L) as S1. destruct L as (_ & _ & _ & _ & Lp & _). cbn in Lp.
  go. apply (wpw_get _ c1); [done|]. rewrite Lp, Hf.
  destruct (poll_future _ _ _) as [[[res f'] calls] a]. go. unfold wpw at 1, put_cell.
  set (c2 := set_behaviour c1 a). fold (put id c2 w1).
  assert (world_inv ({[id]} ∪ ∅) Rest (put id c2 w1)) as HI2.
  { destruct (wi_cells _ _ _ HI id c1 Hc) as [(C & inbox & H1) _ H3 _ _ _ _ _].
    eapply inv_own; [exact HI|exact Hc|done..| |done|apply stage_same]. by exists C, inbox. }
  pose proof (lookup_put id c2 w1 ltac:(eauto)) as Hr2. go.
  eapply perform_ok; [exact HI2|exact Hr2|]. intros w3 c3 HI3 _ Hc3 L3 _ _. go.
  eapply interfere_ok; [exact HI3|exact Hc3|]. intros w4 HI4 _ (c4 & Hc4 & L4 & _).
  assert (like c2 c4) as L by (by etransitivity).
  eapply wpw_mono; [apply (answered_ok id c4 res f' w4 HI4 Hc4)| |done].
  - destruct L as (_ & _ & _ & _ & -> & _). cbn. rewrite Lp, Hf. eauto.
  - intros o w' (c' & Hc' & S' & Ho). exists c'. split_and!; [done| |done].
    eapply same_trans; [exact S1|]. apply (same_trans c1 c4); [|done]. exact (like_same _ _ L).
Qed.

(** *** Finalization *)

(** The runner's slot is given back. *)
Lemma remove_ok id c w :
  registry_inv (Ending id true) w -> runners w !! id = Some c -> 0 <= index (actor_ref (runner c)) ->
  poisoned (alloc (registry w)) = false -> life c = Stopped ->
  exists r, remove (index (actor_ref (runner c))) (ref_generation (actor_ref (runner c))) (registry w)
      = (Ok (Some id), r) /\ registry_inv Rest (set_registry w r).
Proof.
  intros [HW HS HO HA] Hc Hi Hp Hl. specialize (HW Hp). set (i := index _) in *. set (g := ref_generation _).
  destruct (HA id c Hc (or_intror eq_refl)) as (n & sl & Hn & Ho).
  destruct (HO n sl id Hn Ho) as (c' & Hc' & Ha & _). rewrite Hc in Hc'. injection Hc' as <-.
  assert ((Z.to_nat i, g) = (n, generation sl)) as [= <- Hg] by done.
  pose proof (lookup_lt_Some _ _ _ Hn) as Hlen.
  destruct (remove_hit (registry w) i sl id HW) as (a & E & _ & _ & HW'); [lia|done|done|].
  rewrite Hg. eexists. split; [exact E|]. split; cbn.
  - done.
  - by rewrite length_insert.
  - intros n' sl' k Hn' Hk. destruct (decide (n' = Z.to_nat i)) as [->|Hne].
    { rewrite list_lookup_insert_eq in Hn' by done. by injection Hn' as <-. }
    rewrite list_lookup_insert_ne in Hn' by done. destruct (HO n' sl' k Hn' Hk) as (ck & Hck & Hak & Hlk).
    exists ck. split_and!; [done..|]. destruct Hlk as [?|[?|[= <-]]]; [by left|by right; left|].
    rewrite Hc in Hck. injection Hck as <-. rewrite Ha in Hak. by injection Hak as <- _.
  - intros k ck Hck [Hlk|]; [|done]. destruct (HA k ck Hck (or_introl Hlk)) as (n' & sl' & Hn' & Ho').
    exists n', sl'. rewrite list_lookup_insert_ne; [done|]. intros <-. rewrite Hn in Hn'. injection Hn' as <-.
    rewrite Ho in Ho'. injection Ho' as <-. by rewrite Hc in Hck; injection Hck as <-.
Qed.

(** A runner on its way out. *)
Definition ending (b : bool) id c w : Prop :=
  world_inv ({[id]} ∪ ∅) (Ending id b) w /\ runners w !! id = Some c /\ life c = Stopped.

Lemma ending_later b id c w w' :
  ending b id c w -> world_inv ({[id]} ∪ ∅) (Ending id b) w' -> later id c w w' ->
  exists c', ending b id c' w' /\ like c c'.
Proof.
  intros (_ & _ & Hl) HI (c' & Hc' & L & _). exists c'. split_and!; [split_and!|done]; [done..|].
  destruct L as (_ & _ & _ & _ & _ & _ & _ & Ll & _). tauto.
Qed.

Lemma stop_cell_ok id c w :
  world_inv ({[id]} ∪ ∅) Rest w -> runners w !! id = Some c -> pending c = None -> life c <> Stopped ->
  ending false id (set_life c Stopped) (put id (set_life c Stopped) w).
Proof.
  intros HI Hc Hp Hl. pose proof (lookup_lt_Some _ _ _ Hc) as Hlt.
  pose proof (lookup_put id (set_life c Stopped) w ltac:(eauto)) as Hr.
  split; [|done]. destruct HI as [HC [HW HS HO HA] HD HN]. split; [|split; [done|done| |]|done|].
  - intros j cj Hj. destruct (decide (j = id)) as [->|Hne].
    + rewrite Hr in Hj. injection Hj as <-.
      destruct (HC id c Hc) as [(C & inbox & HR & HAr & HSc & HT & HV & HU) H2 H3 H4 H5 H6 H7 H8].
      split; try done; [|apply under_repair]. exists C, inbox. fields.
      intros E. destruct (HSc E) as [[?|?] ?]; [by split; [left|]|done].
    + cbn in Hj. rewrite list_lookup_insert_ne in Hj by done.
      destruct (HC j cj Hj) as [(C & inbox & HR & HAr & HSc & HT & HV & HU) H2 H3 H4 H5 H6 H7 H8]. split; try done.
      exists C, inbox. split_and!; try done.
      * intros E. destruct (HSc E) as [[?|?] ?]; [by split; [left|]|done].
      * intros E. destruct (HT E) as [[?|?] ?]; [by split; [left|]|done].
  - intros n sl k Hn Hk. destruct (HO n sl k Hn Hk) as (ck & Hck & Hak & Hlk).
    destruct (decide (k = id)) as [->|Hne].
    + exists (set_life c Stopped). rewrite Hc in Hck. injection Hck as <-. by split_and!; [| |right; right].
    + exists ck. cbn. rewrite list_lookup_insert_ne by done. split_and!; [done..|]. naive_solver.
  - intros j cj Hj Hlj. destruct (decide (j = id)) as [->|Hne]; [by apply (HA id c Hc); left|].
    cbn in Hj. rewrite list_lookup_insert_ne in Hj by done. apply (HA j cj Hj). naive_solver.
  - cbn. intros d' j Hq. apply lookup_lt_is_Some. rewrite length_insert. by eapply lookup_lt_is_Some, HN.
Qed.

Lemma clear_out_ok id c w :
  ending false id c w ->
  wpw (clear_out id) (λ _ w', registry w' = registry w
    /\ exists c', ending true id c' w' /\ same c c' /\ actor (runner c') = actor (runner c)) never w.
Proof.
  intros (HI & Hc & Hl). unfold clear_out. go. apply (wpw_get _ c); [done|].
  destruct (wi_cells _ _ _ HI id c Hc) as [(C & inbox & HR & HA & HS & HT & HV & HU) _ _ _ _ _ _ _].
  destruct (drain_rep (S (length (buffer (mailbox (runner c))))) _ C inbox HR) as (q & Eq & HQ & Hcap).
  { pose proof (rep_length _ _ _ HR). pose proof (shape_length _ (rep_shape _ _ _ HR)). lia. }
  go. eapply wpw_lift; [exact Eq|]. unfold wpw, put_cell. set (c1 := set_driver (throws _ _) _ _ _).
  split; [done|]. exists c1. split_and!; [split_and!|done..].
  - eapply inv_own; [exact HI|exact Hc|done|done|done|exact Hcap|done| |done|].
    2: { split; [done|]. intros j Hj. split_and!; try done. intros [= ->]. done. }
    eexists _, []. split; [exact HQ|]. cbn. split_and!; try done; try (intros; by split; [left|]).
    + by rewrite HA, app_nil_r.
    + congruence.
  - by apply lookup_put; eauto.
  - done.
Qed.

Lemma run_on_kill_ok id c w :
  ending true id c w ->
  wpw (run_on_kill d id) (λ _ w', (on_kill (behaviour (actor (runner c)))).1.1 = Killed
      /\ registry w' = registry w /\ exists c', ending true id c' w' /\ same c c')
    (λ o, match o with
          | Some w' => (on_kill (behaviour (actor (runner c)))).1.1 = KillPanics
              /\ registry w' = registry w /\ exists c', ending true id c' w'
          | None => False
          end) w.
Proof.
  intros (HI & Hc & Hl). unfold run_on_kill. go. apply (wpw_get _ c); [done|].
  destruct (on_kill _) as [[res calls] a]. go. unfold wpw at 1, put_cell. set (c1 := set_behaviour c a).
  fold (put id c1 w).
  assert (world_inv ({[id]} ∪ ∅) (Ending id true) (put id c1 w)) as HI1.
  { destruct (wi_cells _ _ _ HI id c Hc) as [(C & inbox & H1) _ H3 _ _ _ _ _].
    eapply inv_own; [exact HI|exact Hc|done..| |done|apply stage_same]. by exists C, inbox. }
  pose proof (lookup_put id c1 w ltac:(eauto)) as Hr1. go.
  eapply perform_ok; [exact HI1|exact Hr1|]. intros w2 c2 HI2 HG2 Hc2 L _ _.
  pose proof (like_same _ _ L) as S. destruct L as (_ & _ & _ & _ & _ & _ & _ & Ll & _). cbn in Ll.
  assert (ending true id c2 w2) as HE by (split_and!; [done..|tauto]).
  destruct res; unfold wpw; cbn; split_and!; try done; by exists c2.
Qed.

Lemma on_finalize_ok id c w :
  ending true id c w ->
  wpw (on_finalize (index (actor_ref (runner c))) (ref_generation (actor_ref (runner c))))
    (λ _ w', world_inv ∅ Rest w' /\ poisoned (alloc (registry w)) = false)
    (λ o, match o with
          | Some w' => ending true id c w' /\ registry w' = registry w /\ poisoned (alloc (registry w)) = true
          | None => False
          end) w.
Proof.
  intros (HI & Hc & Hl). unfold on_finalize. go. unfold wpw at 1, on_registry.
  assert (set_registry w (registry w) = w) as Esame by (by destruct w).
  destruct (poisoned (alloc (registry w))) eqn:Ep.
  { unfold remove, with_alloc, lock_unwrap. rewrite Ep, Esame. by split_and!. }
  pose proof (ci_index _ _ _ _ _ (wi_cells _ _ _ HI id c Hc)) as Hi.
  destruct (remove_ok id c w (wi_registry _ _ _ HI) Hc Hi Ep Hl) as (r & -> & HG).
  assert (world_inv ∅ Rest (set_registry w r)) as HI'.
  { apply (inv_settle ∅ Rest id).
    - destruct HI as [HC _ HD HN]. split; [|done..]. intros j cj Hj.
      destruct (HC j cj Hj) as [(C & inbox & HR & HA & HS & HT & HV & HU) H2 H3 H4 H5 H6 H7 H8].
      split; try done. exists C, inbox. split_and!; try done.
      + intros E. destruct (HS E) as [[?|?] ?]; [by split; [left|]|done].
      + intros E. destruct (HT E) as [[?|?] ?]; [by split; [left|]|done].
    - intros c' Hc'. cbn in Hc'. rewrite Hc in Hc'. injection Hc' as <-. by intros ?. }
  go. apply (wpw_get _ c); [done|].
  destruct (actor_alias (runner c)); [|by apply wpw_ret]. unfold wpw. cbn.
  split; [|done]. by eapply inv_ext; [exact HI'|..].
Qed.

Lemma finalize_ok id c w :
  world_inv ({[id]} ∪ ∅) Rest w -> runners w !! id = Some c -> pending c = None -> life c <> Stopped ->
  wpw (finalize_kill d id)
    (λ _ w', world_inv ∅ Rest w' /\ (on_kill (behaviour (actor (runner c)))).1.1 = Killed
      /\ poisoned (alloc (registry w)) = false)
    (λ o, match o with
          | Some w' => (exists c', ending true id c' w') /\ registry w' = registry w
              /\ ((on_kill (behaviour (actor (runner c)))).1.1 = KillPanics
                  \/ poisoned (alloc (registry w)) = true)
          | None => False
          end) w.
Proof.
  intros HI Hc Hp Hl. unfold finalize_kill. go. apply (wpw_get _ c); [done|].
  assert (forall m Q E, wpw (put_cell id (set_life c Stopped) ≫= λ _, m) Q E w ->
    wpw match life c with Stopped => mret tt | _ => put_cell id (set_life c Stopped) ≫= λ _, m end
       Q E w) as Hm by (by destruct (life c)).
  apply Hm. clear Hm. go. unfold wpw at 1, put_cell. fold (put id (set_life c Stopped) w).
  pose proof (stop_cell_ok id c w HI Hc Hp Hl) as HE. set (c0 := set_life c Stopped) in *.
  set (w0 := put id c0 w) in *. change (registry w) with (registry w0).
  change (behaviour _) with (behaviour (actor (runner c0))). change (actor_ref (runner c)) with (actor_ref (runner c0)).
  clearbody c0 w0. clear HI Hc Hp Hl c w.
  go. eapply interfere_ok; [apply HE|apply HE|]. intros w1 HI1 G1 HL1.
  destruct (ending_later _ _ _ _ _ HE HI1 HL1) as (c1 & HE1 & L1). clear HI1 HL1.
  go. eapply wpw_mono; [by apply clear_out_ok| |done]. intros [] w2 (G2 & c2 & HE2 & S2 & A2).
  go. eapply interfere_ok; [apply HE2|apply HE2|]. intros w3 HI3 G3 HL3.
  destruct (ending_later _ _ _ _ _ HE2 HI3 HL3) as (c3 & HE3 & L3). clear HI3 HL3.
  assert (actor (runner c3) = actor (runner c0)) as A3.
  { destruct L1 as (_ & _ & _ & E1 & _), L3 as (_ & _ & _ & E3 & _). congruence. }
  assert (actor_ref (runner c3) = actor_ref (runner c0)) as R3.
  { destruct L1 as (_ & E1 & _), L3 as (_ & E3 & _), S2 as (E2 & _). congruence. }
  go. rewrite <- A3. eapply wpw_mono; [by apply run_on_kill_ok| |].
  2: { intros [w4|]; [|done]. intros (Hk & G4 & c4 & HE4). split_and!; [by eexists|congruence|by left]. }
  intros [] w4 (Hk & G4 & c4 & HE4 & S4).
  go. eapply interfere_ok; [apply HE4|apply HE4|]. intros w5 HI5 G5 HL5.
  destruct (ending_later _ _ _ _ _ HE4 HI5 HL5) as (c5 & HE5 & L5). clear HI5 HL5.
  assert (actor_ref (runner c0) = actor_ref (runner c5)) as ->.
  { destruct L5 as (_ & E5 & _), S4 as (E4 & _). congruence. }
  eapply wpw_mono; [by apply on_finalize_ok| |].
  - intros [] w6 [HI6 Hp6]. split_and!; [done|done|congruence].
  - intros [w6|]; [|done]. intros (HE6 & G6 & Hp6). split_and!; [by eexists|congruence|right; congruence].
Qed.

(** Finalization out of an execution. *)
Lemma finalize_ends U id c w :
  world_inv ({[id]} ∪ ∅) Rest w -> runners w !! id = Some c -> pending c = None -> life c <> Stopped ->
  wpw (finalize_kill d id) (λ _ w', world_inv ∅ Rest w') (unwound U (registry w) id) w.
Proof.
  intros HI Hc Hp Hl. eapply wpw_mono; [by eapply finalize_ok|by intros ? ? [? _]|].
  intros [w'|]; [|done]. intros ((c' & HI' & Hc' & Hl') & Er & Ho).
  split_and!; [by eexists; split; [right|]| |intros c1 Hc1; simplify_eq; by rewrite Hl'].
  destruct Ho as [?|?]; [left; eauto|by right; right].
Qed.

(** *** The mail loop *)

(** The runner in execution between two messages. *)
Definition in_loop id c w : Prop :=
  world_inv ({[id]} ∪ ∅) Rest w /\ runners w !! id = Some c /\ pending c = None /\ life c <> Stopped.
Definition at_loop id w : Prop := exists c, in_loop id c w.

(** Mail accepted and not yet handed to the actor. *)
Definition backlog c : nat := length (arrived c) - length (given c) - length (thrown c).

(** The actor's [on_receive] never posts to address [a]. *)
Definition quiet (a : nat * Z) : Prop :=
  forall ctx b m s, quiet_calls a (on_receive ctx b m s).1.2.

(** Without posts to the actor while it is executed, more fuel than backlog is
    enough. *)
Definition fuel_enough (U : Prop) fuel c w : Prop :=
  U \/ quiet (addr c) /\ quiet_others (addr c) w /\ (backlog c < fuel)%nat.

(** What others do in between costs no fuel. *)
Lemma fuel_later U fuel id c w w' c' :
  fuel_enough U fuel c w -> later id c w w' -> runners w' !! id = Some c' -> fuel_enough U fuel c' w'.
Proof.
  intros [|(Hq & Ho & Hb)] (c1 & Hc1 & L & Hs & Ha) Hc'; [by left|]. rewrite Hc1 in Hc'. injection Hc' as <-.
  right. destruct L as (La & _ & _ & _ & _ & _ & _ & _ & _ & Lg & Lt & _). rewrite La.
  split_and!; [done|by eapply quiet_suffix|]. unfold backlog. by rewrite Ha, Lg, Lt.
Qed.

Lemma like_loop c c' : like c c' -> pending c = None /\ life c <> Stopped ->
  pending c' = None /\ life c' <> Stopped.
Proof. intros (_ & _ & _ & _ & Lp & _ & _ & Ll & _) [? ?]. split; [congruence|tauto]. Qed.

Lemma interfere_loop id c w (Q : unit -> World -> Prop) E :
  in_loop id c w ->
  (forall w' c', in_loop id c' w' -> like c c' -> later id c w w' -> registry w' = registry w -> Q tt w') ->
  wpw interfere Q E w.
Proof.
  intros (HI & Hc & Hp & Hl) HQ. eapply interfere_ok; [done..|]. intros w' HI' G HL.
  pose proof HL as (c' & Hc' & L & _). destruct (like_loop c c' L (conj Hp Hl)).
  apply (HQ w' c'); [by split_and!|done..].
Qed.

(** With a message taken out of the mailbox. *)
Definition with_mail id m c w : Prop :=
  world_inv ({[id]} ∪ ∅) (Hand id m) w /\ runners w !! id = Some c /\ pending c = None
  /\ life c <> Stopped /\ is_scheduled c = true.

Lemma stage_hand id (m : Mail) : stage_other id Rest (Hand id m) /\ stage_other id (Hand id m) Rest.
Proof. by split; (split; [done|]); intros j Hj; cbn; rewrite decide_False by done. Qed.

Lemma dequeue_ok id c w :
  in_loop id c w ->
  wpw (dequeue id) (λ o w', others w' = others w /\ exists q,
    match o with
    | Some m => with_mail id m (set_mailbox c q) w'
    | None => in_loop id (set_mailbox c q) w'
    end) never w.
Proof.
  intros (HI & Hc & Hp & Hl). unfold dequeue. go. apply (wpw_get _ c); [done|].
  destruct (wi_cells _ _ _ HI id c Hc) as [(C & inbox & HR & HA & HS & HT & HV & HU) _ HP _ _ _ _ _].
  destruct (try_dequeue_rep _ C inbox HR) as (q & Hcap & Eq & HQ). go. eapply wpw_lift; [exact Eq|].
  go. unfold wpw at 1, put_cell. fold (put id (set_mailbox c q) w). apply wpw_ret.
  pose proof (lookup_put id (set_mailbox c q) w ltac:(eauto)) as Hr.
  split; [done|]. exists q. destruct inbox as [|m l]; cbn [head tail] in *.
  - split_and!; [|done..].
    eapply inv_own; [exact HI|exact Hc|done|done|done|exact Hcap|done| |done|apply stage_same].
    by eexists _, [].
  - split_and!; [|done|done|done|].
    + eapply inv_own; [exact HI|exact Hc|done|done|done|exact Hcap|done| |done|apply stage_hand].
      eexists _, l. split; [exact HQ|]. cbn. rewrite decide_True by done. split_and!; try done.
      intros E. by destruct (HS E) as [[?|?] _].
    + cbn. destruct (is_scheduled c) eqn:E; [done|]. by destruct (HS eq_refl) as [[?|?] _].
Qed.

Lemma receive_ok id c m w :
  with_mail id m c w -> life c = Running ->
  wpw (receive d id m) (λ _ w', exists c', in_loop id c' w' /\ is_scheduled c' = true /\ same c c'
    /\ forall U fuel, fuel_enough U (S fuel) c w -> fuel_enough U fuel c' w') never w.
Proof.
  intros (HI & Hc & Hp & Hl & Hs) Hrun. unfold receive. go. apply (wpw_get _ c); [done|].
  assert (quiet (addr c) -> quiet_calls (addr c)
    (create_receive_future (on_receive (actor_context (actor (runner c)))) (actor (runner c)) m).1.2) as Hqc.
  { intros Hq. unfold create_receive_future. cbn.
    specialize (Hq (actor_context (actor (runner c))) (behaviour (actor (runner c))) (message m) (sender m)).
    by destruct (on_receive _ _ _ _) as [[? ?] ?]. }
  destruct (create_receive_future _ _ _) as [[res calls] a]. cbn in Hqc. go.
  unfold wpw at 1, put_cell. set (c1 := gives _ _). fold (put id c1 w).
  destruct (wi_cells _ _ _ HI id c Hc) as [(C & inbox & HR & HA & HS & HT & HV & HU) _ HP _ _ _ _ _].
  destruct (HU Hrun) as [HU' _]. cbn in HA. rewrite decide_True in HA by done.
  assert (world_inv ({[id]} ∪ ∅) Rest (put id c1 w)) as HI1.
  { eapply inv_own; [exact HI|exact Hc|done..| |done|apply stage_hand].
    exists C, inbox. fields. by rewrite HA, HU', <- app_assoc. }
  pose proof (lookup_put id c1 w ltac:(eauto)) as Hr1. go.
  eapply perform_ok; [exact HI1|exact Hr1|]. intros w' c' HI' _ Hc' L Hsuf Har. apply wpw_ret.
  pose proof (like_same _ _ L) as S. exists c'. destruct (like_loop _ _ L (conj Hp Hl)).
  destruct L as (La & _ & _ & _ & _ & _ & Ls & _ & _ & Lg & Lt & _). cbn in Ls, Lg, Lt.
  split_and!; [by split_and!|auto|done|]. intros U fuel [|(Hq & Ho & Hb)]; [by left|right].
  change (addr c1) with (addr c) in *. rewrite La. split_and!; [done|by eapply quiet_suffix|].
  unfold backlog in *. rewrite (Har (Hqc Hq)), Lg, Lt. cbn. rewrite HA in *. rewrite !length_app in *. cbn in *. lia.
Qed.

Lemma throw_ok id c m w :
  with_mail id m c w -> life c <> Running -> in_loop id (throws c [m]) (put id (throws c [m]) w).
Proof.
  intros (HI & Hc & Hp & Hl & Hs) Hr.
  destruct (wi_cells _ _ _ HI id c Hc) as [(C & inbox & HR & HA & HS & HT & HV & HU) _ HP _ _ _ _ _].
  split_and!; [|by apply lookup_put; eauto|done|done].
  eapply inv_own; [exact HI|exact Hc|done..| |done|apply stage_hand].
  exists C, inbox. cbn in HA |- *. rewrite decide_True in HA by done. fields.
  by rewrite HA, <- !app_assoc.
Qed.

Lemma like_not_running c c' : like c c' -> life c <> Running -> life c' <> Running.
Proof.
  intros (_ & _ & _ & _ & _ & _ & _ & HS & HK & _) Hl. destruct (life c) eqn:E; [done| |].
  - by rewrite (HK eq_refl).
  - destruct HS as [_ HS]. by rewrite HS.
Qed.

Lemma fail_ok U r id c w :
  in_loop id c w ->
  wpw (fail exception_message d id)
    (λ _ w', exists c', in_loop id c' w' /\ same c c') (unwound U r id) w.
Proof.
  intros HL. unfold fail. go. eapply interfere_loop; [done|]. intros w1 c1 (HI1 & Hc1 & Hp1 & Hl1) L1 _ _.
  go. eapply wpw_mono; [apply (kill_runner_ok _ _ _ _ ltac:(eauto) HI1)| |done].
  intros [] w2 (HI2 & [HF _] & HK). destruct (HF id c1 Hc1) as (c2 & Hc2 & L2). specialize (HK c2 Hc2).
  destruct (like_loop _ _ L2 (conj Hp1 Hl1)).
  go. eapply (interfere_loop id c2); [by split_and!|]. intros w3 c3 (HI3 & Hc3 & Hp3 & Hl3) L3 _ _.
  assert (like c c3) as L by (by etransitivity; [|etransitivity]).
  unfold publish_execution_exception. go. apply (wpw_get _ c3); [done|]. go. unfold wpw at 1, get_state.
  go. unfold wpw at 1, put_state. set (letter := execution_exception _ _ _). set (w4 := set_letters w3 _).
  assert (world_inv ({[id]} ∪ ∅) Rest w4) as HI4 by (by eapply inv_ext; [exact HI3|..]).
  destruct (on_dead_letter letter) as [res calls] eqn:El. go.
  eapply (perform_ok _ _ id c3); [exact HI4|exact Hc3|]. intros w5 c5 HI5 _ Hc5 L5 _ _.
  destruct (like_loop _ _ L5 (conj Hp3 Hl3)). destruct res; unfold wpw; cbn.
  - exists c5. split; [by split_and!|]. apply (same_trans _ c3); by apply like_same.
  - split_and!; [exists Rest; by split; [left|]|right; left; exists letter; by rewrite El|].
    intros c' Hc'. rewrite Hc5 in Hc'. injection Hc' as <-.
    exact (like_not_running _ _ L5 (like_not_running _ _ L3 HK)).
Qed.

Lemma arm_poll_ok id c f w :
  in_loop id c w -> is_scheduled c = true ->
  wpw (arm id f ≫= λ _, poll_pending_receive d id) (λ o w', polled id c o w') never w.
Proof.
  intros (HI & Hc & Hp & Hl) Hs. go. eapply wpw_modify; [done|].
  set (c1 := set_driver c true false (Some f)). change (set_runners w _) with (put id c1 w).
  pose proof (lookup_put id c1 w ltac:(eauto)) as Hr.
  eapply wpw_mono; [apply (poll_ok id c1 f); [done|done|]| |done].
  - rewrite put_same by (by rewrite Hr).
    destruct (wi_cells _ _ _ HI id c Hc) as [(C & inbox & HR & HA & HS & HT & HV & HU) _ HP _ _ _ _ _].
    eapply inv_own; [exact HI|exact Hc|done..| |done|apply stage_same]. exists C, inbox. fields.
  - intros o w' (c' & Hc' & S & Ho). by exists c'.
Qed.

(** The loop's outcome. *)
Definition looped id (e : loop_end) w : Prop :=
  match e with Broke => at_loop id w | Returned => world_inv ∅ Rest w end.

Lemma polled_broke U r fuel id c f w :
  in_loop id c w -> is_scheduled c = true ->
  wpw (arm id f ≫= λ _, poll_pending_receive d id ≫= λ o,
      match o with
      | Ready | Pending => mret Returned
      | PollDriver.Failed => fail exception_message d id ≫= λ _, mret Broke
      | Idle => mail_loop exception_message d fuel id
      end) (looped id) (unwound U r id) w.
Proof.
  intros HL Hs. pose proof (arm_poll_ok id c f w HL Hs) as HP. revert HP.
  unfold wpw at 1, mbind, M_bind. intros HP. go. unfold wpw at 1.
  destruct (arm id f w) as [[[]|e|e] w3]; [|done..]. go. revert HP. unfold wpw at 1 2.
  destruct (poll_pending_receive d id w3) as [[o|e|e] w4]; [|done..].
  intros (c5 & Hc5 & _ & Ho). destruct o; try done. go.
  destruct Ho as (HI5 & Hp5 & Hl5). eapply wpw_mono; [apply (fail_ok U r id c5); by split_and!| |done].
  intros [] w5 (c6 & H6 & _). apply wpw_ret. by exists c6.
Qed.

Lemma mail_loop_ok U r fuel id c w :
  in_loop id c w -> fuel_enough U fuel c w ->
  wpw (mail_loop exception_message d fuel id) (looped id) (unwound U r id) w.
Proof.
  revert c w. induction fuel as [|fuel IH]; intros c w HL Hfuel.
  { destruct Hfuel as [|(_ & _ & ?)]; [done|lia]. }
  cbn [mail_loop]. go. eapply interfere_loop; [done|]. intros w1 c1 HL1 _ Hlat _.
  pose proof (fuel_later _ _ _ _ _ _ _ Hfuel Hlat (proj1 (proj2 HL1))) as Hfuel1.
  go. eapply wpw_mono; [by eapply dequeue_ok| |done]. intros [m|] w2 (Eo & q & H2);
    [|apply wpw_ret; by eexists].
  set (c2 := set_mailbox c1 q) in *. assert (fuel_enough U (S fuel) c2 w2) as Hfuel2.
  { unfold fuel_enough, quiet_others in *. rewrite Eo. exact Hfuel1. }
  destruct H2 as (HI2 & Hc2 & Hp2 & Hl2 & Hs2).
  go. eapply interfere_ok; [exact HI2|exact Hc2|]. intros w3 HI3 _ Hlat3. pose proof Hlat3 as (c3 & Hc3 & L3 & _).
  pose proof (fuel_later _ _ _ _ _ _ _ Hfuel2 Hlat3 Hc3) as Hfuel3.
  assert (with_mail id m c3 w3) as HM.
  { destruct (like_loop _ _ L3 (conj Hp2 Hl2)). split_and!; try done.
    destruct L3 as (_ & _ & _ & _ & _ & _ & Ls & _). auto. }
  go. apply (wpw_get _ c3); [done|]. destruct (life c3) eqn:El; [|go; unfold wpw at 1, put_cell..].
  2,3: apply wpw_ret; eexists; eapply throw_ok; [done|congruence].
  go. eapply wpw_mono; [by eapply receive_ok| |done]. intros res w4 (c4 & HL4 & Hs4 & _ & Hf4).
  specialize (Hf4 U fuel Hfuel3). go. eapply interfere_loop; [done|]. intros w5 c5 HL5 L5 Hlat5 _.
  pose proof (fuel_later _ _ _ _ _ _ _ Hf4 Hlat5 (proj1 (proj2 HL5))) as Hf5.
  destruct res as [|f|].
  - by apply (IH c5).
  - eapply polled_broke; [done|]. destruct L5 as (_ & _ & _ & _ & _ & _ & Ls & _). auto.
  - go. eapply wpw_mono; [by eapply fail_ok| |done]. intros [] w6 (c6 & ? & _). apply wpw_ret. by exists c6.
Qed.

(** *** The end of an execution, and all of it *)

(** The flag is down; the mailbox is looked at next. *)
Lemma lower_ok id c w :
  in_loop id c w -> world_inv ∅ (Back id) (put id (set_scheduled c false) w).
Proof.
  intros (HI & Hc & Hp & Hl). set (c1 := set_scheduled c false).
  pose proof (lookup_put id c1 w ltac:(eauto)) as Hr.
  destruct (wi_cells _ _ _ HI id c Hc) as [(C & inbox & HR & HA & HS & HT & HV & HU) _ HP _ _ _ _ _].
  apply (inv_settle ∅ (Back id) id).
  - eapply inv_own; [exact HI|exact Hc|done..| |done|by split].
    exists C, inbox. fields.
  - intros c2. rewrite Hr. by intros [= <-] ? ? ? ?.
Qed.

(** Nothing is left, or somebody has raised the flag. *)
Lemma back_done id c w :
  world_inv ∅ (Back id) w -> runners w !! id = Some c ->
  is_scheduled c = true \/ (exists C, rep (mailbox (runner c)) C []) -> world_inv ∅ Rest w.
Proof.
  intros [HC [HW HS HO HA] HD HN] Hc Hd. split; [|by split|done|done].
  intros j cj Hj. destruct (HC j cj Hj) as [(C & inbox & HR & HAr & HSc & HT & HV & HU) H2 H3 H4 H5 H6 H7 H8].
  split; try done. exists C, inbox. split_and!; try done.
  - intros E. destruct (HSc E) as [[?|[= <-]] ?]; [by split; [left|]|]. split; [left|done].
    rewrite Hc in Hj. injection Hj as <-. destruct Hd as [|[C' HR']]; [congruence|].
    destruct inbox as [|m l]; [done|]. pose proof (try_peek_rep _ _ _ HR) as E1.
    rewrite (try_peek_rep _ _ _ HR') in E1. done.
  - intros E. destruct (HT E) as [[?|?] ?]; [by split; [left|]|done].
Qed.

Lemma raise_ok id c w :
  world_inv ∅ (Back id) w -> runners w !! id = Some c ->
  world_inv ({[id]} ∪ ∅) Rest (put id (set_scheduled c true) w).
Proof.
  intros HI Hc. apply (inv_unsettle ∅ _ id) in HI.
  destruct (wi_cells _ _ _ HI id c Hc) as [(C & inbox & HR & HA & HS & HT & HV & HU) _ HP _ _ _ _ _].
  eapply inv_own; [exact HI|exact Hc|done..| |done|]; [|split; [done|]; intros j Hj; split_and!; [done|by intros [= ->]|done]].
  exists C, inbox. fields. intros E. destruct (HT E) as [[?|?] ?]; [by split; [left|]|done].
Qed.

Lemma hand_back_ok id c w :
  in_loop id c w -> wpw (hand_back id) (λ _ w', world_inv ∅ Rest w') never w.
Proof.
  intros HL. unfold hand_back. go. eapply interfere_loop; [done|]. intros w1 c1 HL1 _ _ _.
  pose proof HL1 as (_ & Hc1 & _). go. eapply wpw_modify; [done|].
  pose proof (lower_ok id c1 w1 HL1) as HI2. change (set_runners w1 _) with (put id (set_scheduled c1 false) w1).
  pose proof (lookup_put id (set_scheduled c1 false) w1 ltac:(eauto)) as Hr2.
  go. eapply interfere_ok; [exact HI2|exact Hr2|]. intros w3 HI3 _ (c3 & Hc3 & _).
  go. apply (wpw_get _ c3); [done|].
  destruct (wi_cells _ _ _ HI3 id c3 Hc3) as [(C & inbox & HR & _) _ _ _ _ _ _ _].
  go. eapply wpw_lift; [exact (try_peek_rep _ C inbox HR)|]. destruct inbox as [|m l].
  { apply wpw_ret. eapply back_done; eauto. }
  go. eapply interfere_ok; [exact HI3|exact Hc3|]. intros w4 HI4 _ (c4 & Hc4 & _).
  go. apply (wpw_get _ c4); [done|]. destruct (is_scheduled c4) eqn:Es.
  { apply wpw_ret. eapply back_done; eauto. }
  go. unfold wpw at 1, put_cell. fold (put id (set_scheduled c4 true) w4).
  change (dispatcher (runner c4)) with (dispatcher (runner (set_scheduled c4 true))).
  eapply wpw_schedule_runner; [by apply raise_ok|by apply lookup_put; eauto|done].
Qed.

Lemma execute_ok U fuel id c w :
  fuel_enough U fuel c w -> runners w !! id = Some c ->
  world_inv ({[id]} ∪ ∅) Rest (put id (reset c) w) -> (is_active c = false -> is_poll_scheduled c = false) ->
  wpw (execute exception_message d fuel id) (λ _ w', world_inv ∅ Rest w') (unwound U (registry w) id) w.
Proof.
  intros Hfuel Hc HI Hact. unfold execute, execute_pending_receive. go. go. apply (wpw_get _ c); [done|].
  destruct (wi_cells _ _ _ HI id (reset c)) as [(C & inbox & HR & HA & HS & HT & HV & HU) _ _ _ _ _ _ _];
    [apply lookup_put; eauto|]. cbn in HV, HT.
  destruct (is_active c) eqn:Ea.
  - destruct (pending c) as [f|] eqn:Hf; [|done]. go.
    eapply wpw_mono; [by eapply poll_ok| |done]. intros o w1 (c1 & Hc1 & S1 & Ho).
    destruct o; [by apply wpw_ret; apply wpw_ret..| |done]. destruct Ho as (HI1 & Hp1 & Hl1).
    go. eapply wpw_mono; [apply (fail_ok U (registry w) id c1); by split_and!| |done]. intros [] w2 (c2 & HL2 & S2).
    go. eapply interfere_loop; [done|]. intros w3 c3 (HI3 & Hc3 & _) L3 _ _.
    assert (dispatcher (runner c) = dispatcher (runner c3)) as ->.
    { destruct S1 as (_ & ? & _), S2 as (_ & ? & _), L3 as (_ & _ & ? & _). congruence. }
    go. eapply wpw_schedule_runner; [done|done|]. intros w4 HI4 _. by apply wpw_ret; apply wpw_ret.
  - assert (reset c = c) as Er.
    { specialize (Hact eq_refl). unfold reset. clear -Hact. destruct c. cbn in *. by subst. }
    rewrite Er, put_same in HI by done. apply wpw_ret.
    assert (pending c = None) as Hp by (by destruct (pending c)).
    go. apply (wpw_get _ c); [done|]. destruct (life c) eqn:El.
    + go. eapply wpw_mono; [apply (wpw_keeps (same_obs (λ w : World, registry w)));
        [by eapply keeps_loop; apply _|apply (mail_loop_ok U (registry w) fuel id c); [|done]]|..].
      { split_and!; [done..|by rewrite El]. }
      * intros [] w1 [H1 G1]; [|by apply wpw_ret]. destruct H1 as (c1 & HL1).
        go. eapply interfere_loop; [done|]. intros w2 c2 HL2 _ _ G2. pose proof HL2 as (HI2 & Hc2 & Hp2 & Hl2).
        go. apply (wpw_get _ c2); [done|]. destruct (life c2) eqn:El2; [| |done].
        -- by eapply wpw_mono; [eapply hand_back_ok|..].
        -- assert (registry w = registry w2) as -> by (unfold same_obs in G1; congruence).
           apply (finalize_ends U id c2 w2); [done..|by rewrite El2].
      * done.
    + apply (finalize_ends U id c w); [done..|by rewrite El].
    + apply wpw_ret. apply (inv_settle ∅ Rest id); [done|]. intros c' Hc'. simplify_eq. by intros [].
Qed.
End execution.

(** ** Runs *)
Section runs.
Context {A F Msg : Type} `{!ActorBase A F Msg} (exception_message : Msg).
Notation World := (World (A := A) (F := F) (Msg := Msg)).
Notation Cell := (Cell (A := A) (F := F) (Msg := Msg)).
Implicit Types (w : World) (c : Cell).

Lemma runner_new_mailbox (a : Actor A) dsp r n (x : ActorRunner A Msg) :
  runner_new a dsp r n = Ok x -> n <= 2 ^ 62 -> rep (mailbox x) 0 [].
Proof.
  intros E Hn. pose proof (runner_new_ok a dsp r n x E) as (_ & _ & H2 & _). revert E.
  unfold runner_new, initialize. destruct (ctx_dispatcher (actor_context a)); [done|]. cbn.
  destruct (ctx_self_ref (actor_context a)); [done|]. cbn.
  destruct (new_rep (T := ActorMail Msg) n ltac:(lia)) as (q & -> & HR & _). cbn. by intros [= <-].
Qed.

(** Only the registry changes. *)
Lemma inv_registry w r :
  world_inv ∅ Rest w -> registry_inv Rest (set_registry w r) -> world_inv ∅ Rest (set_registry w r).
Proof.
  intros [HC _ HD HN] HG. split; [|done..]. intros id c Hc.
  destruct (HC id c Hc) as [H1 H2 H3 H4 H5 H6 H7 H8]. by split.
Qed.

Lemma inv_poison w : world_inv ∅ Rest w -> world_inv ∅ Rest (set_registry w (poison (registry w))).
Proof. intros HI. apply inv_registry; [done|]. destruct HI as [_ [HW HS HO HA] _ _]. by split. Qed.

(** A slot given out and not yet committed; it stays so if the spawn fails. *)
Lemma inv_reserved w i sl al :
  let r1 := set_alloc (set_slot (registry w) i (mkSlot (wrap_u32 (generation sl + 1)) None)) al in
  world_inv ∅ Rest w -> slot_at (registry w) i = Some sl -> owner sl = None -> wf r1 ->
  world_inv ∅ Rest (set_registry w r1).
Proof.
  intros r1 HI Hs Ho HW1. apply inv_registry; [done|]. destruct HI as [_ [HW HS HO HA] _ _].
  pose proof (lookup_lt_Some _ _ _ Hs) as Hlt. split; cbn; [done|by rewrite length_insert| |].
  - intros n sl' k Hn Hk. destruct (decide (n = Z.to_nat i)) as [->|].
    + rewrite list_lookup_insert_eq in Hn by done. by injection Hn as <-.
    + rewrite list_lookup_insert_ne in Hn by done. by apply HO.
  - intros k ck Hck Hlk. destruct (HA k ck Hck Hlk) as (n & sl' & Hn & Ho'). exists n, sl'.
    rewrite list_lookup_insert_ne; [done|]. intros <-. unfold slot_at in Hs. rewrite Hs in Hn. congruence.
Qed.

(** A new runner in it. *)
Lemma inv_spawn w i g x m al :
  let c := mkCell x false Running false false None [] [] [] false (length (log w)) in
  let r2 := set_slot (registry w) i (mkSlot g (Some (length (runners w)))) in
  world_inv ∅ Rest w -> slot_at (registry w) i = Some (mkSlot g None) -> 0 <= i -> wf r2 ->
  actor_ref x = mkActorRef i g m -> rep (mailbox x) 0 [] ->
  is_Some (dispatchers w !! Z.to_nat (dispatcher x)) ->
  world_inv ∅ Rest (set_registry (set_aliases (set_runners w (runners w ++ [c])) al) r2).
Proof.
  intros c r2 [HC [HW HS HO HA] HD HN] Hs Hi HW2 Hx HR Hd.
  assert (Z.to_nat i < length (slots (registry w)))%nat as Hlt by (by eapply lookup_lt_Some).
  split; [|split; [done|cbn; by rewrite length_insert| |]|done|]; cbn.
  - intros id c' [Hc|[-> Hc]]%lookup_snoc_Some.
    + destruct Hc as [_ Hc]. destruct (HC id c' Hc) as [H1 H2 H3 H4 H5 H6 H7 H8]. by split.
    + subst c'. assert (posted c (set_registry (set_aliases (set_runners w (runners w ++ [c])) al) r2) = []) as Ep
        by (unfold posted; cbn; by rewrite drop_all).
      split; cbn; try done; [|apply sublist_nil_l|intros _ _; by rewrite Ep|by rewrite Hx].
      exists 0, []. split_and!; try done; by intros; split; [left|].
  - intros n sl' id Hn Ho. destruct (decide (n = Z.to_nat i)) as [->|].
    + rewrite list_lookup_insert_eq in Hn by done. simplify_eq. cbn in Ho. injection Ho as <-.
      exists c. split; [by rewrite lookup_app_r, Nat.sub_diag by done|]. unfold addr. cbn. rewrite Hx. by split; [|left].
    + rewrite list_lookup_insert_ne in Hn by done. destruct (HO n sl' id Hn Ho) as (c' & Hc' & Ha).
      exists c'. split; [|done]. by apply lookup_app_l_Some.
  - intros id c' [[_ Hc]|[-> <-]]%lookup_snoc_Some Hl.
    + destruct (HA id c' Hc Hl) as (n & sl & Hn & Ho). exists n, sl. rewrite list_lookup_insert_ne; [done|].
      intros <-. unfold slot_at in Hs. rewrite Hs in Hn. by injection Hn as <-.
    + eexists (Z.to_nat i), _. by rewrite list_lookup_insert_eq.
  - intros d' id Hq. destruct (HN d' id Hq) as [c' Hc']. exists c'. by apply lookup_app_l_Some.
Qed.

(** Whether it returns or panics. *)
Definition either (P : World -> Prop) (o : option World) : Prop :=
  match o with Some w => P w | None => True end.

Lemma spawn_ok a k name n w :
  world_inv ∅ Rest w -> n <= 2 ^ 62 ->
  wpw (spawn a k name n) (λ _ w', world_inv ∅ Rest w') (either (world_inv ∅ Rest)) w.
Proof.
  intros HI Hn. unfold spawn. go. unfold wpw at 1, get_state. destruct (name ≫= _) as [hd|]; [done|].
  go. unfold wpw at 1, on_registry. destruct (poisoned (alloc (registry w))) eqn:Ep.
  { unfold reserve, with_alloc, lock_unwrap. rewrite Ep. cbn.
    by replace (set_registry w (registry w)) with w by (by destruct w). }
  pose proof (gi_wf _ w (wi_registry _ _ _ HI) Ep) as HW.
  assert (has_room (registry w) \/ ~ has_room (registry w)) as [Hroom|Hfull] by (unfold has_room; lia);
    [|rewrite (reserve_full _ HW Hfull); cbn; by apply inv_poison].
  destruct (reserve_some _ HW Hroom) as (i & sl & al & -> & Hs & Hos & Hi & _ & Ht & _ & _ & HW1).
  cbn. pose proof (inv_reserved w i sl al HI Hs Hos HW1) as HI1. set (r1 := set_alloc _ al) in *.
  destruct (dispatchers w !! _) as [dx|] eqn:Ed; [|done]. go. unfold wpw at 1, lift.
  destruct (runner_new _ _ _ _) as [x|e|e] eqn:Ex; [|done..]. go. unfold wpw at 1, get_state.
  go. unfold wpw at 1, put_state. cbn. go. unfold wpw at 1, on_registry. cbn.
  assert (slot_at r1 i = Some (mkSlot (wrap_u32 (generation sl + 1)) None)) as Hs1.
  { unfold r1, slot_at. cbn. apply list_lookup_insert_eq. by eapply lookup_lt_Some. }
  destruct (commit_taken r1 i _ (length (runners w)) HW1 Hs1 Ht) as [-> HW2]. cbn.
  pose proof (runner_new_ok _ _ _ _ _ Ex) as (Hx & Hdx & _ & _).
  apply (inv_spawn (set_registry w r1) i (wrap_u32 (generation sl + 1)) x name); try done; [lia| |].
  - by eapply runner_new_mailbox.
  - cbn. rewrite Hdx, Ed. eauto.
Qed.

(** A turn begins: the runner is out of the queue, and its wake is answered. *)
Lemma inv_pop w dn st id rest c meanwhile :
  world_inv ∅ Rest w -> dispatchers w !! dn = Some (mkDisp st true (id :: rest)) ->
  runners w !! id = Some c ->
  world_inv ({[id]} ∪ ∅) Rest
    (put id (reset c) (begin_turn dn (mkDisp st true (id :: rest)) rest meanwhile w)).
Proof.
  intros HI Hd Hc. pose proof HI as [HC [HW HS HO HA] HD HN].
  pose proof (lookup_lt_Some _ _ _ Hd) as Hlt. set (w0 := begin_turn _ _ _ _ _).
  assert (forall d' j, queued d' j w -> j <> id -> queued d' j w0) as HQ.
  { intros d' j (x & Hx & Hj) Hne. unfold queued, w0. cbn. destruct (decide (Z.to_nat d' = dn)) as [<-|].
    - rewrite list_lookup_insert_eq by done. eexists. split; [done|]. simplify_eq. cbn in *. set_solver.
    - rewrite list_lookup_insert_ne by done. by exists x. }
  assert (forall d' j, queued d' j w0 -> queued d' j w) as HQ'.
  { intros d' j (x & Hx & Hj). unfold queued. unfold w0 in Hx. cbn in Hx.
    destruct (decide (Z.to_nat d' = dn)) as [<-|].
    - rewrite list_lookup_insert_eq in Hx by done. simplify_eq. eexists. split; [done|]. cbn in *.
      set_solver.
    - rewrite list_lookup_insert_ne in Hx by done. by exists x. }
  assert (forall k, is_Some (dispatchers w !! k) -> is_Some (dispatchers w0 !! k)) as HSk.
  { intros k. unfold w0. cbn. by rewrite !lookup_lt_is_Some, length_insert. }
  assert (world_inv ({[id]} ∪ ∅) Rest (set_runners w (<[id := reset c]> (runners w)))) as [HC1 HG1 _ HN1].
  { apply (inv_unsettle ∅ _ id) in HI. destruct (wi_cells _ _ _ HI id c Hc) as [(C & inbox & H1) _ _ _ _ _ _ _].
    eapply inv_own; [exact HI|exact Hc|done..| |done|apply stage_same]. by exists C, inbox. }
  split.
  - intros j cj Hj. destruct (HC1 j cj Hj) as [H1 H2 H3 H4 H5 H6 H7 H8]. split; try done; [| |by apply HSk].
    + intros Hx ? ? ? ?. apply HQ; [by apply H2|set_solver].
    + intros Hp. destruct (decide (j = id)) as [->|].
      * change (runners (put id (reset c) w) !! id = Some cj) in Hj.
        rewrite lookup_put in Hj by eauto. by injection Hj as <-.
      * destruct (H3 Hp) as [? [d' Hq]]. split; [done|]. exists d'. by apply HQ.
  - by destruct HG1.
  - intros k x Hx. cbn in Hx. destruct (decide (k = dn)) as [->|].
    + rewrite list_lookup_insert_eq in Hx by done. simplify_eq. by apply (HD _ _ Hd).
    + rewrite list_lookup_insert_ne in Hx by done. eauto.
  - intros d' j Hq. apply (HN1 d' j). exact (HQ' d' j Hq).
Qed.

Lemma head_queued w dn st id rest :
  world_inv ∅ Rest w -> dispatchers w !! dn = Some (mkDisp st true (id :: rest)) ->
  is_Some (runners w !! id).
Proof.
  intros HI Hd. apply (wi_queued _ _ _ HI (Z.of_nat dn) id).
  exists (mkDisp st true (id :: rest)). rewrite Nat2Z.id. split; [done|]. cbn. set_solver.
Qed.

(** The flags of a runner that awaits nothing. *)
Lemma not_woken X h w id c :
  world_inv X h w -> runners w !! id = Some c -> is_active c = false -> is_poll_scheduled c = false.
Proof.
  intros HI Hc Ha. destruct (is_poll_scheduled c) eqn:Ep; [|done].
  destruct (ci_polls _ _ _ _ _ (wi_cells _ _ _ HI id c Hc) Ep) as [E _]. congruence.
Qed.

Lemma turn_ok U w dn st id rest meanwhile fuel c :
  world_inv ∅ Rest w -> dispatchers w !! dn = Some (mkDisp st true (id :: rest)) ->
  runners w !! id = Some c ->
  fuel_enough U fuel c (begin_turn dn (mkDisp st true (id :: rest)) rest meanwhile w) ->
  wpw (execute exception_message (Z.of_nat dn) fuel id) (λ _ w', world_inv ∅ Rest w') (unwound U (registry w) id)
    (begin_turn dn (mkDisp st true (id :: rest)) rest meanwhile w).
Proof.
  intros HI Hd Hc Hf. change (registry w) with (registry (begin_turn dn (mkDisp st true (id :: rest)) rest meanwhile w)).
  eapply execute_ok; [exact Hf|exact Hc|by apply inv_pop|]. by eapply not_woken.
Qed.

(** After a panic: the thread is gone, and the runner is marked. *)
Lemma inv_worker_dies w dn id h :
  world_inv ({[id]} ∪ ∅) h w -> h = Rest \/ h = Ending id true ->
  (forall c, runners w !! id = Some c -> life c <> Running) -> world_inv ∅ Rest (worker_dies dn id w).
Proof.
  intros [HC [HW HS HO HA] HD HN] Hh Hnr. set (w' := worker_dies dn id w).
  assert (forall k x', dispatchers w' !! k = Some x' -> exists x, dispatchers w !! k = Some x
            /\ is_stopped x' = is_stopped x /\ scheduled x' = scheduled x) as HB.
  { intros k x'. unfold w'. cbn. destruct (decide (k = dn)) as [->|].
    - rewrite list_lookup_alter_eq. destruct (dispatchers w !! dn) as [x|]; [|done]. cbn.
      intros [= <-]. by exists x.
    - rewrite list_lookup_alter_ne by done. intros ?. by exists x'. }
  assert (forall d j, queued d j w <-> queued d j w') as HQ.
  { intros d j. split.
    - intros (x & Hx & Hj). unfold queued, w'. cbn. destruct (decide (Z.to_nat d = dn)) as [<-|].
      + rewrite list_lookup_alter_eq, Hx. by eexists.
      + rewrite list_lookup_alter_ne by done. by exists x.
    - intros (x' & Hx & Hj). destruct (HB _ _ Hx) as (x & ? & _ & E). exists x. by rewrite <- E. }
  assert (forall j cj', runners w' !! j = Some cj' -> exists cj, runners w !! j = Some cj
            /\ cj' = if decide (j = id) then crash cj else cj) as HR.
  { intros j cj'. unfold w'. cbn. destruct (decide (j = id)) as [->|].
    - rewrite list_lookup_alter_eq. destruct (runners w !! id) as [c|]; [|done]. cbn. intros [= <-]. by exists c.
    - rewrite list_lookup_alter_ne by done. intros ?. by exists cj'. }
  assert (forall j cj, runners w !! j = Some cj ->
            runners w' !! j = Some (if decide (j = id) then crash cj else cj)) as HR'.
  { intros j cj Hj. unfold w'. cbn. destruct (decide (j = id)) as [->|].
    - by rewrite list_lookup_alter_eq, Hj.
    - by rewrite list_lookup_alter_ne. }
  split; [|split; [done|done| |]| |].
  - intros j cj' (cj & Hj & ->)%HR.
    destruct (HC j cj Hj) as [(C & inbox & HRp & HAr & HSc & HT & HV & HU) H2 H3 H4 H5 H6 H7 H8].
    assert (cell_ok Rest j cj) as Hok.
    { exists C, inbox. split_and!; try done.
      - by destruct Hh as [->| ->].
      - intros E. destruct (HSc E) as [[?|?] ?]; [by split; [left|]|by destruct Hh; simplify_eq].
      - intros E. destruct (HT E) as [[?|?] ?]; [by split; [left|]|by destruct Hh; simplify_eq]. }
    assert (polls j cj w') as Hp.
    { intros E. destruct (H3 E) as [? [d ?]]. split; [done|]. exists d. by apply HQ. }
    assert (is_Some (dispatchers w' !! Z.to_nat (dispatcher (runner cj)))) as Hh'.
    { unfold w'. cbn. by rewrite lookup_lt_is_Some, length_alter, <- lookup_lt_is_Some. }
    case_decide as E; (split; [| |exact Hp|exact H4|exact H5|exact H6|exact Hh'|exact H8]).
    + subst j. destruct Hok as (C' & in' & K1 & K2 & K3 & K4 & K5 & _). exists C', in'.
      split_and!; try done. intros Hr. by destruct (Hnr cj Hj).
    + by intros _ _ _ [=].
    + exact Hok.
    + intros _ ? ? ? ?. apply HQ, H2; [set_solver|done..].
  - intros n sl k Hn Hk. destruct (HO n sl k Hn Hk) as (ck & Hck & Hak & Hlk). apply HR' in Hck.
    eexists. split; [exact Hck|]. case_decide; [by split; [|right; left]|]. split; [done|].
    destruct Hlk as [?|[?|E]]; [by left|by right; left|]. destruct Hh as [->| ->]; cbn in E; congruence.
  - intros j cj' (cj & Hj & ->)%HR [Hl|]; [|done]. apply (HA j cj Hj). left. by case_decide.
  - intros k x' Hx. destruct (HB k x' Hx) as (x & Hx' & -> & _). eauto.
  - intros d j Hq. destruct (HN d j) as [cj Hj]; [by apply HQ|]. eauto.
Qed.

Lemma kill_each_ok l w :
  world_inv ∅ Rest w -> (forall id, id ∈ l -> is_Some (runners w !! id)) ->
  wpw (kill_each l) (λ _ w', world_inv ∅ Rest w' /\ frame w w'
    /\ forall id c, id ∈ l -> runners w' !! id = Some c -> life c <> Running) never w.
Proof.
  revert w. induction l as [|id l IH]; intros w HI Hl.
  { split_and!; [done|done|]. intros id c Hin. by apply elem_of_nil in Hin. }
  cbn [kill_each]. go.
  eapply wpw_mono; [apply kill_runner_ok; [apply Hl; set_solver|exact HI]| |done].
  intros [] w1 (HI1 & HF1 & HK1). eapply wpw_mono; [apply (IH w1 HI1)| |done].
  - intros j Hj. destruct (Hl j ltac:(set_solver)) as [c Hc].
    destruct HF1 as [HF1 _]. destruct (HF1 j c Hc) as (c1 & Hc1 & _). eauto.
  - intros [] w2 (HI2 & HF2 & HK2). split_and!; [done|by etransitivity|].
    intros j c [->|Hj]%elem_of_cons Hc; [|by eapply HK2].
    destruct (Hl id ltac:(set_solver)) as [c0 Hc0]. destruct HF1 as [HF1 _], HF2 as [HF2 _].
    destruct (HF1 id c0 Hc0) as (c1 & Hc1 & _). destruct (HF2 id c1 Hc1) as (c2 & Hc2 & L).
    rewrite Hc in Hc2. injection Hc2 as <-. by eapply like_not_running; [|eapply HK1].
Qed.

(** The kills of a shutdown leave nobody running; but a poisoned registry cannot
    be read. *)
Lemma kill_all_ok w :
  world_inv ∅ Rest w ->
  wpw kill_all (λ _ w', world_inv ∅ Rest w' /\ frame w w'
      /\ (forall id c, runners w' !! id = Some c -> is_Some (runners w !! id) -> life c <> Running)
      /\ poisoned (alloc (registry w)) = false)
    (λ o, o = Some w /\ poisoned (alloc (registry w)) = true) w.
Proof.
  intros HI. pose proof (wi_registry _ _ _ HI) as HG. unfold kill_all. go.
  unfold wpw at 1, on_registry, snapshot_live, with_alloc, lock_unwrap.
  assert (set_registry w (registry w) = w) as Esame by (by destruct w).
  destruct (poisoned (alloc (registry w))) eqn:Ep; cbn; rewrite Esame; [done|].
  pose proof (gi_wf _ _ HG Ep) as HW. set (l := omap owner _).
  eapply wpw_mono; [apply (kill_each_ok l w HI)| |done].
  - intros id (sl & Hsl & Ho)%list_elem_of_omap. apply list_elem_of_lookup in Hsl as [k Hk].
    apply lookup_take_Some in Hk as [Hk _]. destruct (gi_owner _ _ HG k sl id Hk Ho) as (c & Hc & _). eauto.
  - intros [] w1 (HI1 & HF & HK). split_and!; [done..| |done]. intros id c1 Hc1 [c Hc].
    destruct HF as (HF & _). destruct (HF id c Hc) as (c' & Hc' & L). rewrite Hc1 in Hc'. injection Hc' as <-.
    destruct (decide (life c = Stopped)) as [El|El].
    { destruct L as (_ & _ & _ & _ & _ & _ & _ & HS & _). intros E. rewrite E in HS. by apply HS in El. }
    apply (HK id c1); [|done]. destruct (gi_all _ _ HG id c Hc (or_introl El)) as (n & sl & Hn & Ho).
    apply list_elem_of_omap. exists sl. split; [|done]. apply list_elem_of_lookup. exists n.
    apply lookup_take_Some. split; [done|]. destruct (wf_owner _ HW n sl id Hn Ho). lia.
Qed.

Lemma catch_up_ok X w : world_inv X Rest w ->
  exists w', catch_up w = Some w' /\ world_inv X Rest w' /\ frame (set_others w []) w'.
Proof.
  intros HI. unfold catch_up, ended.
  pose proof (safe_perform None (concat (others w)) X Rest (set_others w []) (inv_others _ _ _ _ HI)) as H.
  revert H. unfold wpw. destruct (perform _ _ _) as [[[]|e|e] w']; [|done..]. intros [H ?]. by exists w'.
Qed.

Lemma wstep_ok a w w' :
  world_inv ∅ Rest w -> wstep exception_message a w = Some w' -> world_inv ∅ Rest w'.
Proof.
  intros HI. destruct a as [a k name n|c| |dn meanwhile fuel|now]; cbn [wstep]; unfold ended.
  - destruct (Z.leb_spec n (2 ^ 62)); [|done]. pose proof (spawn_ok a k name n w HI ltac:(lia)) as H1. revert H1.
    unfold wpw. destruct (spawn a k name n w) as [[r|e|e] w1]; [..|done]; by intros H1 [= <-].
  - pose proof (safe_one None c ∅ Rest w HI) as H. revert H. unfold wpw.
    destruct (perform_one None c w) as [[[]|e|e] w1]; [|done..]. by intros [H _] [= <-].
  - pose proof (kill_all_ok w HI) as H. revert H. unfold wpw.
    destruct (kill_all w) as [[[]|e|e] w1]; [..|done]; [by intros [H _] [= <-]|].
    by intros [[= ->] _] [= <-].
  - destruct (dispatchers w !! dn) as [[st [] [|id rest]]|] eqn:Hd; [done| |done..].
    destruct (head_queued w dn st id rest HI Hd) as [c Hc].
    pose proof (turn_ok True w dn st id rest meanwhile fuel c HI Hd Hc ltac:(by left)) as H. revert H.
    unfold wpw. destruct (execute _ _ _ _ _) as [[[]|e|e] w1]; [| |done]; intros H Hu.
    + destruct (catch_up_ok ∅ w1 H) as (w2 & E & ? & _). rewrite E in Hu. injection Hu as <-. done.
    + destruct H as ((h & Hh & H) & _ & Hnr). destruct (catch_up_ok ∅ (worker_dies dn id w1)) as (w2 & E & ? & _).
      { by eapply inv_worker_dies. }
      rewrite E in Hu. injection Hu as <-. done.
  - intros [= <-]. by eapply inv_ext; [exact HI|..].
Qed.

Lemma inv_new n cap : world_inv ∅ Rest (world_new (A := A) (F := F) (Msg := Msg) n cap).
Proof.
  pose proof (wf_with_capacity (R := nat) cap) as HW. split.
  - done.
  - split; [done|apply HW| |done]. cbn. intros k sl id [-> _]%lookup_replicate. done.
  - cbn. intros k x [-> _]%lookup_replicate. done.
  - intros d id (x & [-> _]%lookup_replicate & Hin). cbn in Hin. set_solver.
Qed.

Lemma run_inv n cap acts w :
  run (wstep exception_message) acts (world_new n cap) = Some w -> world_inv ∅ Rest w.
Proof.
  intros Hr. revert acts w Hr. apply run_invariant; [apply inv_new|].
  intros _ a w w' _ HI Hs. by eapply wstep_ok.
Qed.
End runs.
