(* ===== verification/ActorTheorems.v ===== *)
(** The guarantees of a world of actors, over every run of spawns, calls from
    outside and turns of the dispatchers with other threads acting inside them,
    for any actor code and dead letter callback. *)
From S2P Require Import Prelude MpscQueue RunnerProtocol PollDriver Registry ActorCore ActorWorld ActorKeeps ActorCalls ActorDelivery.

Section theorems.
Context {A F Msg : Type} `{!ActorBase A F Msg} (exception_message : Msg).
Notation World := (World (A := A) (F := F) (Msg := Msg)).
Notation Cell := (Cell (A := A) (F := F) (Msg := Msg)).
Implicit Types (w : World) (c : Cell).

(** ** A worker thread that has unwound does not come back *)
Definition dead (dn : nat) w : Prop := alive_flags w !! dn <> Some true.

Lemma dead_dies dn dn' id w : dead dn w -> dead dn (worker_dies dn' id w).
Proof.
  unfold dead, alive_flags. cbn. destruct (decide (dn = dn')) as [->|].
  - rewrite !list_lookup_fmap, list_lookup_alter_eq. by destruct (dispatchers w !! dn').
  - by rewrite !list_lookup_fmap, list_lookup_alter_ne.
Qed.

Lemma dies_dead dn id w : dead dn (worker_dies dn id w).
Proof.
  unfold dead, alive_flags. cbn. rewrite list_lookup_fmap, list_lookup_alter_eq.
  by destruct (dispatchers w !! dn).
Qed.

Lemma dead_same dn w w' : same_obs alive_flags w w' -> dead dn w -> dead dn w'.
Proof. unfold dead, same_obs. by intros ->. Qed.

Lemma dead_step_of dn a w w' : dead dn w -> wstep exception_message a w = Some w' -> dead dn w'.
Proof.
  intros Hw. destruct a as [a k name n|c| |dn' meanwhile fuel|now]; cbn [wstep]; unfold ended.
  - destruct (n <=? 2 ^ 62); [|done]. pose proof (spawn_alive a k name n w) as H. revert H.
    destruct (spawn a k name n w) as [[] ?]; [..|done]; intros H [= <-]; by eapply dead_same.
  - pose proof (keeps_one (same_obs alive_flags) _ None c (posts_anywhere c) w) as H. revert H.
    destruct (perform_one None c w) as [[] ?]; [..|done]; intros H [= <-]; by eapply dead_same.
  - pose proof (keeps_kill_all (same_obs alive_flags) _ w) as H. revert H.
    destruct (kill_all w) as [[] ?]; [..|done]; intros H [= <-]; by eapply dead_same.
  - destruct (dispatchers w !! dn') as [[st [] [|id rest]]|] eqn:Hd; [done| |done..].
    pose proof (turn_keeps exception_message (same_obs alive_flags) _ dn' st id rest meanwhile fuel w Hd) as H.
    revert H. destruct (execute _ _ _ _ _) as [[[]|e|e] w1]; [..|done];
      intros H Hu%(keeps_catch_up (same_obs alive_flags) (λ _ _, True)); (eapply dead_same; [exact Hu|]).
    + by eapply dead_same.
    + apply dead_dies. by eapply dead_same.
  - by intros [= <-].
Qed.

Lemma dead_run dn acts w w' :
  dead dn w -> run (wstep exception_message) acts w = Some w' -> dead dn w'.
Proof.
  revert w. induction acts as [|a acts IH]; intros w Hw Hr; [by simplify_eq/=|].
  cbn in Hr. destruct (wstep exception_message a w) as [w1|] eqn:E; [|done].
  by eapply IH; [eapply dead_step_of|].
Qed.

(** What the invariant says of one runner between turns. *)
Lemma cell_delivers w id c :
  world_inv ∅ Rest w -> runners w !! id = Some c ->
  given c `prefix_of` arrived c
  /\ arrived c `sublist_of` posted c w
  /\ (life c = Running -> Z.of_nat (length (posted c w)) <= room c -> arrived c = posted c w)
  /\ (life c = Running -> pending c = None -> ~ queued (dispatcher (runner c)) id w ->
      given c = arrived c)
  /\ (life c = Killing -> pending c = None -> crashed c = false -> is_scheduled c = true ->
      queued (dispatcher (runner c)) id w)
  /\ (is_poll_scheduled c = true -> exists d, queued d id w).
Proof.
  intros HI Hc.
  destruct (wi_cells _ _ _ HI id c Hc) as [(C & inbox & _ & HA & HS & _ & _ & HU) H2 H3 H4 H5 _ _ _].
  specialize (H2 ltac:(set_solver)). cbn in HA. split_and!.
  - rewrite HA. by apply prefix_app_r.
  - done.
  - exact H5.
  - intros Hl Hp Hq. destruct (HU Hl) as [HU1 HU2]. rewrite HU1 in HA. destruct (is_scheduled c) eqn:Es.
    + destruct Hq. apply H2; [by rewrite Hl|done..].
    + destruct (HS eq_refl) as [[-> |?] _]; [|done]. by rewrite HA, app_nil_r.
  - intros Hl Hp Hcr Hs. apply H2; [by rewrite Hl|done..].
  - intros Hp. by destruct (H3 Hp).
Qed.


(** C33.  Nothing gets stuck.  In every such world a post, a kill or a wake
    returns without a panic; so do the kills of a shutdown, unless the registry's
    lock is poisoned; and so does the execution a dispatcher whose thread lives
    turns to, with other threads acting inside it, if no [on_kill] and no dead
    letter callback panics, the registry's lock is not poisoned, the fuel exceeds
    the backlog of the runner executed, and neither its [on_receive] nor the
    other threads post to it meanwhile (each such post would cost one more unit
    of fuel).  Nothing outside the actors' code makes an execution panic or
    misuse memory. *)
Theorem turns_return n cap acts (w : World) :
  run (wstep exception_message) acts (world_new n cap) = Some w ->
  (forall a, exists w', perform_one None a w = (Ok tt, w'))
  /\ (poisoned (alloc (registry w)) = false -> exists w', kill_all w = (Ok tt, w'))
  /\ (forall dn st id rest c meanwhile fuel,
        let w0 := begin_turn dn (mkDisp st true (id :: rest)) rest meanwhile w in
        dispatchers w !! dn = Some (mkDisp st true (id :: rest)) -> runners w !! id = Some c ->
        (forall b : A, (on_kill b).1.1 = Killed) -> (forall l, (on_dead_letter l).1 = Noted) ->
        poisoned (alloc (registry w)) = false ->
        quiet (addr c) -> Forall (quiet_calls (addr c)) meanwhile -> (backlog c < fuel)%nat ->
        exists w' w'', execute exception_message (Z.of_nat dn) fuel id w0 = (Ok tt, w')
          /\ wstep exception_message (Turn dn meanwhile fuel) w = Some w'').
Proof.
  intros Hr. pose proof (run_inv exception_message n cap acts w Hr) as HI. split_and!.
  - intros a. pose proof (safe_one None a ∅ Rest w HI) as H. revert H.
    unfold wpw. destruct (perform_one None a w) as [[[]|e|e] w1]; [by eauto|done..].
  - intros Hp. pose proof (kill_all_ok w HI) as H. revert H.
    unfold wpw. destruct (kill_all w) as [[[]|e|e] w1]; [by eauto| |by intros [[=] _]].
    intros [_ E]. congruence.
  - intros dn st id rest c meanwhile fuel w0 Hd Hc Hk Hn Hp Hq Ho Hf. cbn [wstep]. rewrite Hd. fold w0.
    pose proof (turn_ok exception_message False w dn st id rest meanwhile fuel c HI Hd Hc ltac:(by right)) as H.
    revert H. fold w0. unfold wpw. destruct (execute _ _ _ _ _) as [[[]|e|e] w1]; [| |done].
    + intros HI1. destruct (catch_up_ok ∅ w1 HI1) as (w2 & E & _). eauto.
    + intros (_ & [[b E]|[[l E]|E]] & _); [by rewrite Hk in E|by rewrite Hn in E|congruence].
Qed.

(** A runner about to be finalized. *)
Lemma execute_kills w dn st id rest c meanwhile fuel :
  let w0 := begin_turn dn (mkDisp st true (id :: rest)) rest meanwhile w in
  world_inv ∅ Rest w -> dispatchers w !! dn = Some (mkDisp st true (id :: rest)) ->
  runners w !! id = Some c -> life c = Killing -> pending c = None ->
  world_inv ({[id]} ∪ ∅) Rest w0
  /\ execute exception_message (Z.of_nat dn) fuel id w0 = finalize_kill (Z.of_nat dn) id w0.
Proof.
  intros w0 HI Hd Hc Hl Hp.
  destruct (wi_cells _ _ _ HI id c Hc) as [(C & inbox & _ & _ & _ & _ & HV & _) _ _ _ _ _ _ _].
  rewrite Hp in HV. cbn in HV.
  assert (reset c = c) as Er.
  { pose proof (not_woken _ _ _ _ _ HI Hc HV) as E. unfold reset. clear -E. destruct c. cbn in *. by subst. }
  split.
  - pose proof (inv_pop w dn st id rest c meanwhile HI Hd Hc) as H. by rewrite Er, put_same in H.
  - unfold execute, execute_pending_receive, mbind, M_bind, get_cell. cbn -[finalize_kill].
    rewrite Hc, HV. cbn -[finalize_kill]. by rewrite Hc, Hl.
Qed.

(** C36.  [on_kill] is not guarded.  Where a killed actor's [on_kill] panics, the
    panic leaves [execute] and ends the dispatcher's thread, whatever other
    threads do meanwhile: the actor keeps its slot, so a shutdown waits for it
    for ever, and no runner scheduled on that dispatcher is executed again,
    whatever happens later. *)
Theorem on_kill_panic_ends_worker n cap acts w dn st id rest c meanwhile fuel :
  run (wstep exception_message) acts (world_new n cap) = Some w ->
  dispatchers w !! dn = Some (mkDisp st true (id :: rest)) -> runners w !! id = Some c ->
  life c = Killing -> pending c = None ->
  (on_kill (behaviour (actor (runner c)))).1.1 = KillPanics ->
  exists w', wstep exception_message (Turn dn meanwhile fuel) w = Some w'
    /\ registry w' = registry w
    /\ forall more w'' meanwhile' fuel', run (wstep exception_message) more w' = Some w'' ->
         wstep exception_message (Turn dn meanwhile' fuel') w'' = None.
Proof.
  intros Hr Hd Hc Hl Hp Hk. pose proof (run_inv exception_message n cap acts w Hr) as HI.
  cbn [wstep]. rewrite Hd. set (w0 := begin_turn _ _ _ _ _).
  destruct (execute_kills w dn st id rest c meanwhile fuel HI Hd Hc Hl Hp) as [HI0 E0].
  fold w0 in HI0, E0. rewrite E0.
  pose proof (finalize_ok (Z.of_nat dn) id c w0 HI0 Hc Hp ltac:(by rewrite Hl)) as HF. revert HF. fold w0.
  unfold wpw. destruct (finalize_kill _ _ _) as [[[]|e|e] w1]; [intros (_ & E & _); congruence| |done].
  intros ((c1 & HI1 & Hc1 & Hl1) & Hg & _).
  destruct (catch_up_ok ∅ (worker_dies dn id w1)) as (w2 & E2 & _ & _ & Hg2 & _).
  { eapply inv_worker_dies; [exact HI1|by right|]. intros c2 Hc2. simplify_eq. by rewrite Hl1. }
  exists w2. split_and!; [done|by rewrite Hg2|]. intros more w'' meanwhile' fuel' Hm.
  eapply (dead_run dn) in Hm.
  - cbn [wstep]. destruct (dispatchers w'' !! dn) as [x|] eqn:Hx; [|done].
    unfold dead, alive_flags in Hm. rewrite list_lookup_fmap, Hx in Hm. by destruct x as [? [] ?].
  - eapply dead_same; [by apply (keeps_catch_up (same_obs alive_flags) (λ _ _, True))|]. apply dies_dead.
Qed.
End theorems.
