(* ===== verification/ActorShutdown.v ===== *)
(** Shutdown of a world of actors: once everybody is killed, the dispatchers
    finalize one runner after the other, and the registry's live count, for which
    [dispose] waits, comes down to zero. *)
From S2P Require Import Prelude MpscQueue RunnerProtocol PollDriver Registry ActorCore ActorWorld ActorKeeps ActorCalls ActorDelivery ActorTheorems.

(** ** Who is in the registry *)
Section registry.
Context {R : Type}.
Implicit Types (r : ActorRegistry R).

(** Every slot given out has an owner. *)
Definition full r : Prop :=
  forall i, taken r i -> exists sl x, slot_at r i = Some sl /\ owner sl = Some x.

(** An empty registry counts nobody. *)
Lemma full_empty r :
  wf r -> full r -> (forall n sl, slots r !! n = Some sl -> owner sl = None) ->
  (live_count r).1 = Ok 0.
Proof.
  intros HW HF Hn. unfold live_count, with_alloc, lock_unwrap. rewrite (wf_sound r HW). cbn.
  f_equal. rewrite (wf_live r HW). pose proof (wf_next r HW) as Hb.
  assert (forall i, 0 <= i < next_unused (inner (alloc r)) -> i ∈ free (inner (alloc r))) as Hall.
  { intros i Hi. destruct (decide (i ∈ free (inner (alloc r)))) as [|Hi']; [done|].
    destruct (HF i) as (sl & x & Hs & Ho); [by split|]. rewrite (Hn _ sl Hs) in Ho. done. }
  assert (free (inner (alloc r)) ≡ₚ seqZ 0 (next_unused (inner (alloc r)))) as Hp.
  { apply NoDup_Permutation; [apply HW|apply NoDup_seqZ|]. intros i. rewrite elem_of_seqZ.
    split; [intros Hi; pose proof (wf_free r HW i Hi); lia|intros Hi; apply Hall; lia]. }
  rewrite Hp, length_seqZ. lia.
Qed.
(** Removing an owner frees its slot. *)
Lemma remove_full r i g o r' :
  full r -> 0 <= i -> remove i g r = (Ok o, r') ->
  full r' /\ poisoned (alloc r') = false.
Proof.
  intros HF Hi. unfold remove, with_alloc, lock_unwrap. destruct (poisoned (alloc r)) eqn:Ep; [done|].
  destruct (capacity r <=? i); [by intros [= _ <-]|]. destruct (slot_at r i) as [sl|] eqn:Hs; [|done].
  destruct (generation sl =? g); [|by intros [= _ <-]].
  assert (forall k, 0 <= k -> k <> i -> slot_at (set_slot r i (mkSlot (wrap_u32 (g + 1)) None)) k = slot_at r k) as Hne.
  { intros k Hk Hki. unfold slot_at. cbn. rewrite list_lookup_insert_ne; [done|lia]. }
  destruct (owner sl) as [x|] eqn:Ho; intros [= _ <-]; (split; [|done]); intros k [Hk Hn]; cbn in Hk, Hn.
  - destruct (HF k) as (slk & y & Hsk & Hok); [split; [done|set_solver]|]. exists slk, y. split; [|done].
    rewrite <- Hsk. apply Hne; [lia|set_solver].
  - destruct (HF k) as (slk & y & Hsk & Hok); [done|]. exists slk, y. split; [|done].
    rewrite <- Hsk. apply Hne; [lia|congruence].
Qed.

(** It gives nobody a slot. *)
Lemma remove_panics r i g e r' : remove i g r = (Panic e, r') -> slots r' = slots r.
Proof. unfold remove, with_alloc, lock_unwrap. intros E. by repeat case_match; simplify_eq. Qed.

Lemma remove_owners r i g o r' n sl x :
  remove i g r = (Ok o, r') -> slots r' !! n = Some sl -> owner sl = Some x ->
  exists sl', slots r !! n = Some sl' /\ owner sl' = Some x.
Proof.
  unfold remove, with_alloc, lock_unwrap. destruct (poisoned (alloc r)); [done|].
  destruct (capacity r <=? i); [intros [= _ <-]; eauto|]. destruct (slot_at r i) as [s|]; [|done].
  destruct (generation s =? g); [|intros [= _ <-]; eauto].
  assert (forall y, <[Z.to_nat i := mkSlot (wrap_u32 (g + 1)) None]> (slots r) !! n = Some sl -> owner sl = Some y ->
    exists sl', slots r !! n = Some sl' /\ owner sl' = Some y) as H.
  { intros y Hn Hy. apply list_lookup_insert_Some in Hn as [(_ & <- & _)|[_ Hn]]; [done|eauto]. }
  destruct (owner s); intros [= _ <-]; cbn; apply H.
Qed.
End registry.

Section shutdown.
Context {A F Msg : Type} `{!ActorBase A F Msg} (exception_message : Msg).
Notation World := (World (A := A) (F := F) (Msg := Msg)).
Notation Cell := (Cell (A := A) (F := F) (Msg := Msg)).
Implicit Types (w : World) (c : Cell).

(** Every worker lives, the registry's lock is not poisoned, and no spawn failed
    between its reservation and its commit. *)
Definition ready w : Prop :=
  Forall (λ b, b = true) (alive_flags w) /\ poisoned (alloc (registry w)) = false /\ full (registry w).

(** No execution of the runner panicked, it awaits nothing, and no kill of it
    was lost. *)
Definition in_order c : Prop :=
  crashed c = false /\ pending c = None /\ (life c = Killing -> is_scheduled c = true).

Definition all_in_order w : Prop := forall id c, runners w !! id = Some c -> in_order c.
Definition all_killed w : Prop :=
  forall id c, runners w !! id = Some c -> in_order c /\ life c <> Running.

(** The same, as a matter of flags. *)
Definition out c : Prop :=
  life c <> Running /\ is_active c = false /\ crashed c = false
  /\ (life c = Killing -> is_scheduled c = true).
Definition all_out w : Prop := forall id c, runners w !! id = Some c -> out c.

Lemma killed_out w : world_inv ∅ Rest w -> all_killed w -> all_out w.
Proof.
  intros HI HK id c Hc. destruct (HK id c Hc) as [(H1 & H2 & H3) H4].
  destruct (wi_cells _ _ _ HI id c Hc) as [(C & inbox & _ & _ & _ & _ & HV & _) _ _ _ _ _ _ _].
  rewrite H2 in HV. by split_and!.
Qed.

(** ** Calls when nobody runs *)

(** Only the record of posts and what is to come may differ. *)
Definition hushed w w' : Prop := exists l lg, w' = set_log (set_others w l) lg.

Lemma hushed_refl w : hushed w w.
Proof. exists (others w), (log w). by destruct w. Qed.
Lemma hushed_trans w1 w2 w3 : hushed w1 w2 -> hushed w2 w3 -> hushed w1 w3.
Proof. intros (l & lg & ->) (l' & lg' & ->). by exists l', lg'. Qed.

Lemma hushed_log w lg : hushed w (set_log w lg).
Proof. exists (others w), lg. by destruct w. Qed.

Definition owners_exist w : Prop := forall n sl id,
  slots (registry w) !! n = Some sl -> owner sl = Some id -> is_Some (runners w !! id).

(** Nobody runs, and the registry knows whom it owns. *)
Definition over w : Prop := all_out w /\ owners_exist w.

Lemma over_hushed w w' : hushed w w' -> over w -> over w'.
Proof. by intros (l & lg & ->). Qed.

Lemma resolve_exists w i g id : owners_exist w -> resolve (registry w) i g = Some id -> is_Some (runners w !! id).
Proof.
  intros HO. unfold resolve, slot_at. destruct (_ <=? _); [done|].
  destruct (slots _ !! _) as [sl|] eqn:E; [|done]. destruct (_ =? _); [|done]. exact (HO _ sl id E).
Qed.

Lemma resolve_over w i g id : over w -> resolve (registry w) i g = Some id ->
  exists c, runners w !! id = Some c /\ out c.
Proof.
  intros [HN HO] Hr. destruct (resolve_exists w i g id HO Hr) as [c Hc]. exists c. split; [done|].
  by apply (HN id).
Qed.

(** What anybody asks for has no effect. *)
Lemma perform_hushed cur l w : over w -> exists w', perform cur l w = (Ok tt, w') /\ hushed w w'.
Proof.
  revert w. induction l as [|a l IH]; intros w HO; [exists w; split; [done|apply hushed_refl]|].
  assert (exists w1, perform_one cur a w = (Ok tt, w1) /\ hushed w w1) as (w1 & E & H1).
  { destruct a as [r m|r|k]; cbn [perform_one].
    - unfold post_mail, post. eexists. destruct (resolve _ _ _) as [id|] eqn:Er; [|by split; [|apply hushed_log]].
      destruct (resolve_over w _ _ id HO Er) as (c & Hc & Hl & _).
      cbn. unfold enqueue, mbind, M_bind, get_cell. cbn. rewrite Hc. destruct (life c); [done|..].
      all: by split; [|apply hushed_log].
    - exists w. split; [|apply hushed_refl]. unfold kill_ref, kill.
      destruct (resolve _ _ _) as [id|] eqn:Er; [|done].
      destruct (resolve_over w _ _ id HO Er) as (c & Hc & Hl & _).
      cbn. unfold kill_runner, mbind, M_bind, get_cell. cbn. rewrite Hc. by destruct (life c).
    - exists w. split; [|apply hushed_refl]. unfold wake_by_ref.
      destruct (runners w !! wake_of k) as [c|] eqn:Hc; [|done]. destruct (proj1 HO _ c Hc) as (_ & -> & _).
      by destruct (dispatchers w !! _). }
  destruct (IH w1 (over_hushed _ _ H1 HO)) as (w2 & E2 & H2). exists w2.
  split; [|exact (hushed_trans _ _ _ H1 H2)]. cbn [perform]. unfold mbind, M_bind. by rewrite E, E2.
Qed.

Lemma interfere_hushed w : over w -> exists w', interfere w = (Ok tt, w') /\ hushed w w'.
Proof.
  intros HO. unfold interfere. destruct (others w) as [|l rest]; [exists w; split; [done|apply hushed_refl]|].
  assert (hushed w (set_others w rest)) as H1 by (exists rest, (log w); by destruct w).
  destruct (perform_hushed None l _ (over_hushed _ _ H1 HO)) as (w' & E & H2). exists w'.
  split; [done|exact (hushed_trans _ _ _ H1 H2)].
Qed.

Lemma catch_up_hushed w : over w -> exists w', catch_up w = Some w' /\ hushed w w'.
Proof.
  intros HO. unfold catch_up, ended.
  assert (hushed w (set_others w [])) as H1 by (exists [], (log w); by destruct w).
  destruct (perform_hushed None (concat (others w)) _ (over_hushed _ _ H1 HO)) as (w' & -> & H2). exists w'.
  split; [done|exact (hushed_trans _ _ _ H1 H2)].
Qed.

(** ** Finalization when nobody runs *)
Definition anyhow (o : option World) : Prop := True.

(** The queues stay as they are, and so does the registry's promise. *)
Definition settling w w' : Prop :=
  dispatchers w' = dispatchers w /\ over w'
  /\ (full (registry w) -> poisoned (alloc (registry w)) = false ->
      full (registry w') /\ poisoned (alloc (registry w')) = false).

Lemma settling_trans w1 w2 w3 : settling w1 w2 -> settling w2 w3 -> settling w1 w3.
Proof.
  intros (E1 & _ & K1) (E2 & H2 & K2). split_and!; [congruence|done|].
  intros Hf Hp. destruct (K1 Hf Hp). by apply K2.
Qed.

Lemma settling_hushed w w' : over w -> hushed w w' -> settling w w'.
Proof. intros HO H. pose proof (over_hushed _ _ H HO). destruct H as (l & lg & ->). by split_and!. Qed.

Lemma put_settling id c w : over w -> out c -> settling w (put id c w).
Proof.
  intros [HN HO] Hc. split_and!; [done|split|done].
  - intros j cj. cbn. destruct (decide (j = id)) as [->|]; [|rewrite list_lookup_insert_ne by done; apply HN].
    intros Hj. destruct (decide (id < length (runners w))%nat).
    + rewrite list_lookup_insert_eq in Hj by done. by injection Hj as <-.
    + rewrite list_insert_ge in Hj by lia. by apply (HN id).
  - intros n sl j Hn Ho. cbn. apply lookup_lt_is_Some. rewrite length_insert. by eapply lookup_lt_is_Some, HO.
Qed.

(** A step that only settles, and what follows it. *)
Lemma wpw_settles {Y} (m : M World unit) (f : unit -> M World Y) w0 w (Q : Y -> World -> Prop) :
  settling w0 w -> wpw m (λ _ w', settling w w') anyhow w ->
  (forall w', settling w0 w' -> wpw (f tt) Q anyhow w') -> wpw (m ≫= f) Q anyhow w.
Proof.
  intros H0 Hm Hf. go. eapply wpw_mono; [exact Hm| |done]. intros [] w' H. apply Hf.
  by eapply settling_trans.
Qed.

Lemma interfere_settles w : over w -> wpw interfere (λ _ w', settling w w') anyhow w.
Proof.
  intros HO. destruct (interfere_hushed w HO) as (w' & E & H). unfold wpw. rewrite E.
  by apply settling_hushed.
Qed.

Lemma clear_out_settles id w : over w -> wpw (clear_out id) (λ _ w', settling w w') anyhow w.
Proof.
  intros HO. unfold clear_out. go. unfold wpw at 1, get_cell. destruct (runners w !! id) as [c|] eqn:Hc; [|done].
  go. unfold wpw at 1, lift. destruct (drop_queue _) as [[l q]|e|e]; [|done..].
  unfold wpw, put_cell. apply put_settling; [done|]. destruct (proj1 HO id c Hc) as (? & _ & ? & ?). by split_and!.
Qed.

Lemma on_kill_settles d id w : over w -> wpw (run_on_kill d id) (λ _ w', settling w w') anyhow w.
Proof.
  intros HO. unfold run_on_kill. go. unfold wpw at 1, get_cell. destruct (runners w !! id) as [c|] eqn:Hc; [|done].
  destruct (on_kill _) as [[res calls] a]. go. unfold wpw at 1, put_cell.
  fold (put id (set_behaviour c a) w). pose proof (put_settling id (set_behaviour c a) w HO (proj1 HO id c Hc)) as H1.
  go. destruct (perform_hushed (Some d) calls _ (proj1 (proj2 H1))) as (w2 & E & H2). unfold wpw at 1. rewrite E.
  unfold wpw, lift. destruct res; [|done]. eapply settling_trans; [exact H1|].
  apply settling_hushed; [apply H1|done].
Qed.

Lemma on_finalize_settles i g w : 0 <= i -> over w -> wpw (on_finalize i g) (λ _ w', settling w w') anyhow w.
Proof.
  intros Hi HO. unfold on_finalize. go. unfold wpw at 1, on_registry.
  destruct (remove i g (registry w)) as [[o|e|e] r] eqn:E; [|done..].
  assert (settling w (set_registry w r)) as H1.
  { split_and!; [done|split; [apply HO|]|].
    - intros n sl id Hn Ho. destruct (remove_owners _ _ _ _ _ n sl id E Hn Ho) as (sl' & Hn' & Ho').
      by apply (proj2 HO n sl').
    - intros Hf _. exact (remove_full _ _ _ _ _ Hf Hi E). }
  destruct o as [id|]; [|done]. go. unfold wpw at 1, get_cell. destruct (_ !! id); [|done].
  by destruct (actor_alias _).
Qed.

Lemma finalize_settles d id c w :
  over w -> runners w !! id = Some c -> 0 <= index (actor_ref (runner c)) ->
  wpw (finalize_kill d id) (λ _ w', settling w w') anyhow w.
Proof.
  intros HO Hc Hi. unfold finalize_kill. go. apply (wpw_get _ c); [done|].
  destruct (proj1 HO id c Hc) as (Hl & Ha & Hcr & _).
  assert (out (set_life c Stopped)) as Hout by (by split_and!).
  pose proof (settling_hushed w w HO (hushed_refl w)) as Hrefl.
  destruct (life c) eqn:El; [done| |by apply wpw_ret].
  apply (wpw_settles _ _ w); [done|exact (put_settling id _ w HO Hout)|]. intros w1 H1.
  apply (wpw_settles _ _ w); [done|apply interfere_settles, H1|]. intros w2 H2.
  apply (wpw_settles _ _ w); [done|apply clear_out_settles, H2|]. intros w3 H3.
  apply (wpw_settles _ _ w); [done|apply interfere_settles, H3|]. intros w4 H4.
  apply (wpw_settles _ _ w); [done|apply on_kill_settles, H4|]. intros w5 H5.
  apply (wpw_settles _ _ w); [done|apply interfere_settles, H5|]. intros w6 H6.
  eapply wpw_mono; [by apply on_finalize_settles; [|apply H6]| |done]. intros [] w7 H7.
  by eapply settling_trans.
Qed.

(** ** Turns *)

(** The runners waiting to be executed, in all queues. *)
Definition queue_total w : nat := sum_list_with (λ x, length (scheduled x)) (dispatchers w).

Lemma queue_total_pop w dn st b id rest :
  dispatchers w !! dn = Some (mkDisp st b (id :: rest)) ->
  S (sum_list_with (λ x, length (scheduled x)) (<[dn := mkDisp st b rest]> (dispatchers w)))
  = queue_total w.
Proof.
  intros Hd. pose proof (sum_list_with_insert (λ x, length (scheduled x)) (dispatchers w) dn _
    (mkDisp st b rest) Hd) as H. unfold queue_total. cbn in *. lia.
Qed.

Hypothesis on_kill_returns : forall a : A, (on_kill a).1.1 = Killed.

(** An execution when nobody runs. *)
Lemma execute_settles w dn st id rest meanwhile fuel :
  let w0 := begin_turn dn (mkDisp st true (id :: rest)) rest meanwhile w in
  world_inv ∅ Rest w -> ready w -> over w -> dispatchers w !! dn = Some (mkDisp st true (id :: rest)) ->
  exists w', execute exception_message (Z.of_nat dn) fuel id w0 = (Ok tt, w') /\ settling w0 w'.
Proof.
  intros w0 HI (_ & Hp & _) HN Hd. destruct (head_queued w dn st id rest HI Hd) as [c Hc].
  assert (over w0) as HN0 by done. destruct (proj1 HN id c Hc) as (Hl & Ha & _).
  destruct (life c) eqn:El; [done| |].
  - assert (pending c = None) as Hpc.
    { destruct (wi_cells _ _ _ HI id c Hc) as [(? & ? & _ & _ & _ & _ & HV & _) _ _ _ _ _ _ _].
      rewrite Ha in HV. by destruct (pending c). }
    destruct (execute_kills exception_message w dn st id rest c meanwhile fuel HI Hd Hc El Hpc) as [HI0 E0].
    fold w0 in HI0, E0. rewrite E0. pose proof (ci_index _ _ _ _ _ (wi_cells _ _ _ HI id c Hc)) as Hi.
    pose proof (finalize_settles (Z.of_nat dn) id c w0 HN0 Hc Hi) as HQ. revert HQ.
    pose proof (finalize_ok (Z.of_nat dn) id c w0 HI0 Hc Hpc ltac:(by rewrite El)) as HF. revert HF.
    unfold wpw. destruct (finalize_kill _ _ _) as [[[]|e|e] w']; [by eauto| |done].
    intros (_ & _ & [E|E]); [by rewrite on_kill_returns in E|]. cbn in E. congruence.
  - exists w0. split; [|by apply settling_hushed, hushed_refl].
    unfold execute, execute_pending_receive, mbind, M_bind, get_cell. cbn. rewrite Hc, Ha. cbn. by rewrite Hc, El.
Qed.

Lemma alive_same w w' : same_obs alive_flags w w' ->
  Forall (λ b, b = true) (alive_flags w) -> Forall (λ b, b = true) (alive_flags w').
Proof. unfold same_obs. by intros ->. Qed.

Lemma turn_settles w dn meanwhile fuel st id rest :
  world_inv ∅ Rest w -> ready w -> over w -> dispatchers w !! dn = Some (mkDisp st true (id :: rest)) ->
  exists w', wstep exception_message (Turn dn meanwhile fuel) w = Some w' /\ ready w' /\ over w'
    /\ S (queue_total w') = queue_total w.
Proof.
  intros HI HR HN Hd. pose proof (queue_total_pop w dn st true id rest Hd) as Hq.
  destruct (execute_settles w dn st id rest meanwhile fuel HI HR HN Hd) as (w1 & E1 & H1).
  pose proof (turn_keeps exception_message (same_obs alive_flags) _ dn st id rest meanwhile fuel w Hd) as Ha1.
  rewrite E1 in Ha1. cbn [snd] in Ha1. cbn [wstep]. rewrite Hd, E1.
  destruct (catch_up_hushed w1 (proj1 (proj2 H1))) as (w2 & E2 & H2). rewrite E2. exists w2.
  apply (keeps_catch_up (same_obs alive_flags) (λ _ _, True)) in E2.
  destruct HR as (HA & Hp & Hf). destruct H1 as (Ed & HN1 & HK). destruct (HK Hf Hp) as [Hf1 Hp1].
  split_and!; [done|split_and!| |].
  - by eapply alive_same, alive_same; [..|exact HA].
  - by destruct H2 as (l & lg & ->).
  - by destruct H2 as (l & lg & ->).
  - by eapply over_hushed.
  - rewrite <- Hq. unfold queue_total. destruct H2 as (l & lg & ->). cbn. by rewrite Ed.
Qed.

(** Nobody left to execute: nobody left. *)
Lemma all_gone w :
  world_inv ∅ Rest w -> ready w -> over w -> queue_total w = 0%nat ->
  (live_count (registry w)).1 = Ok 0 /\ forall id c, runners w !! id = Some c -> life c = Stopped.
Proof.
  intros HI (_ & Hp & HF) [HN _] Hq.
  assert (forall id c, runners w !! id = Some c -> life c = Stopped) as Hall.
  { intros id c Hc. destruct (HN id c Hc) as (Hl & Ha & Hcr & Hs). destruct (life c) eqn:El; [done| |done].
    destruct (wi_cells _ _ _ HI id c Hc) as [(C & inbox & _ & _ & _ & _ & HV & _) H2 _ _ _ _ _ _].
    rewrite Ha in HV.
    destruct (H2 ltac:(set_solver)) as (x & Hx & Hin); [by rewrite El|by destruct (pending c)|done|by apply Hs|].
    pose proof (proj1 (sum_list_with_zero _ _) Hq _ x Hx) as E. cbn in E.
    apply length_zero_iff_nil in E. rewrite E in Hin. by apply elem_of_nil in Hin. }
  split; [|done]. pose proof (wi_registry _ _ _ HI) as HG. apply full_empty; [by apply (gi_wf _ _ HG)|done|].
  intros n sl Hn. destruct (owner sl) as [id|] eqn:Ho; [|done].
  destruct (gi_owner _ _ HG n sl id Hn Ho) as (c & Hc & _ & Hlc). destruct (HN id c Hc) as (_ & _ & Hcr & _).
  destruct Hlc as [E|[E|[=]]]; [by destruct (E (Hall id c Hc))|congruence].
Qed.

Lemma inv_over w : world_inv ∅ Rest w -> all_killed w -> over w.
Proof.
  intros HI HK. split; [by apply killed_out|]. intros n sl id Hn Ho.
  destruct (gi_owner _ _ (wi_registry _ _ _ HI) n sl id Hn Ho) as (c & Hc & _). eauto.
Qed.

Lemma queue_total_some w :
  Forall (λ b, b = true) (alive_flags w) -> queue_total w <> 0%nat ->
  exists dn st id rest, dispatchers w !! dn = Some (mkDisp st true (id :: rest)).
Proof.
  unfold alive_flags, queue_total. intros HA. induction (dispatchers w) as [|x l IH]; [done|].
  cbn in *. inversion HA as [|? ? Ha HA']; subst. destruct x as [st al [|id rest]]; cbn in *.
  - intros Hq. destruct (IH HA' Hq) as (dn & ?). by exists (S dn).
  - intros _. subst. by exists 0%nat, st, id, rest.
Qed.

(** ** The kills *)

(** A kill between executions is not lost. *)
Lemma kill_runner_order id w :
  wpw (kill_runner id) (λ _ w', forall j c', runners w' !! j = Some c' ->
    exists c, runners w !! j = Some c /\ (in_order c -> in_order c')) anyhow w.
Proof.
  unfold kill_runner. go. unfold wpw at 1, get_cell. destruct (runners w !! id) as [c|] eqn:Hc; [|done].
  pose proof (lookup_lt_Some _ _ _ Hc) as Hlt.
  assert (forall j c', runners w !! j = Some c' -> exists c, runners w !! j = Some c /\ (in_order c -> in_order c')) as Hid
    by eauto.
  assert (forall c2, (in_order c -> in_order c2) -> forall j c', <[id := c2]> (runners w) !! j = Some c' ->
    exists c, runners w !! j = Some c /\ (in_order c -> in_order c')) as Hput.
  { intros c2 H2 j c'. destruct (decide (j = id)) as [->|]; [|rewrite list_lookup_insert_ne by done; eauto].
    rewrite list_lookup_insert_eq by done. intros [= <-]. eauto. }
  destruct (life c) eqn:El; [|done..]. go. unfold wpw at 1, put_cell. destruct (is_scheduled c) eqn:Es.
  - apply wpw_ret. apply Hput. intros (? & ? & _). by split_and!.
  - go. eapply wpw_modify; [cbn; by rewrite list_lookup_insert_eq|]. rewrite put_put. unfold wpw.
    set (w1 := set_runners w _). destruct (schedule_fields (dispatcher (runner c)) id w1) as (HR & _).
    destruct (schedule _ _ w1) as [[] w2]; [|done..]. cbn in HR. rewrite HR. apply Hput.
    intros (? & ? & _). by split_and!.
Qed.

Lemma kill_each_order l w :
  wpw (kill_each l) (λ _ w', forall j c', runners w' !! j = Some c' ->
    exists c, runners w !! j = Some c /\ (in_order c -> in_order c')) anyhow w.
Proof.
  revert w. induction l as [|id l IH]; intros w; cbn [kill_each]; [apply wpw_ret; eauto|].
  go. eapply wpw_mono; [apply kill_runner_order| |done]. intros [] w1 H1.
  eapply wpw_mono; [apply IH| |done]. intros [] w2 H2 j c' Hc'.
  destruct (H2 j c' Hc') as (c1 & Hc1 & K2). destruct (H1 j c1 Hc1) as (c & Hc & K1). eauto.
Qed.

Lemma kill_all_kills w :
  world_inv ∅ Rest w -> ready w -> all_in_order w ->
  exists w1, kill_all w = (Ok tt, w1) /\ ready w1 /\ all_killed w1.
Proof.
  intros HI (HA & Hp & HF) Ho. pose proof (kill_all_ok w HI) as HK. revert HK.
  pose proof (keeps_kill_all (same_obs alive_flags) _ w) as HS. revert HS.
  assert (wpw kill_all (λ _ w', forall j c', runners w' !! j = Some c' ->
    exists c, runners w !! j = Some c /\ (in_order c -> in_order c')) anyhow w) as HO.
  { unfold kill_all. go. unfold wpw at 1, on_registry, snapshot_live, with_alloc, lock_unwrap. rewrite Hp. cbn.
    replace (set_registry w (registry w)) with w by (by destruct w). apply kill_each_order. }
  revert HO. unfold wpw. destruct (kill_all w) as [[[]|e|e] w1]; [| |by intros _ _ [[=] _]].
  - intros HO HS (HI1 & (HF1 & HG1 & _) & HK & _). exists w1. split_and!; [done|split_and!|].
    + by eapply alive_same.
    + by rewrite HG1.
    + by rewrite HG1.
    + intros id c1 Hc1. destruct (HO id c1 Hc1) as (c & Hc & K). split; [by apply K, (Ho id)|].
      apply (HK id c1); eauto.
  - intros _ _ [_ E]. congruence.
Qed.

(** C21.  Shutdown completes.  Suppose [on_kill] does not panic, every worker
    thread lives, the registry's lock is not poisoned and no spawn leaked its
    reservation.  If no execution panicked, no receive is suspended and no kill
    was lost so far, then the kills of [begin_shutdown], falling between
    executions, return and leave every actor killed.  And from any world in which
    every actor is killed, with none of those things wrong, in whatever order the
    dispatchers take their turns and whatever other threads post, kill and wake
    inside and right after the executions: each turn leaves one runner fewer in
    the queues and every worker alive, some dispatcher can take one as long as the
    queues are not empty, and when they are, every actor has stopped and the
    registry's live count, for which [dispose] waits, is zero. *)
Theorem shutdown_completes n cap acts w :
  run (wstep exception_message) acts (world_new n cap) = Some w -> ready w ->
  (all_in_order w -> exists w1, kill_all w = (Ok tt, w1) /\ ready w1 /\ all_killed w1)
  /\ (all_killed w -> forall turns w2,
        Forall (λ a, exists dn meanwhile fuel, a = Turn dn meanwhile fuel) turns ->
        run (wstep exception_message) turns w = Some w2 ->
        (length turns + queue_total w2 = queue_total w)%nat /\ ready w2
        /\ (queue_total w2 <> 0%nat -> exists dn, forall meanwhile fuel,
              is_Some (wstep exception_message (Turn dn meanwhile fuel) w2))
        /\ (queue_total w2 = 0%nat ->
            (live_count (registry w2)).1 = Ok 0
            /\ forall id c, runners w2 !! id = Some c -> life c = Stopped)).
Proof.
  intros Hr HR. pose proof (run_inv exception_message n cap acts w Hr) as HI. split; [by apply kill_all_kills|].
  intros HK. pose proof (inv_over w HI HK) as HN. clear HK Hr. intros turns.
  revert w HI HR HN. induction turns as [|a turns IH]; intros w HI HR HN w2 HF Hr.
  - cbn in Hr. injection Hr as <-. split_and!; [done|apply HR..| |by apply all_gone]. intros Hq.
    destruct (queue_total_some w (proj1 HR) Hq) as (dn & st & id & rest & Hd). exists dn. intros meanwhile fuel.
    destruct (turn_settles w dn meanwhile fuel st id rest HI HR HN Hd) as (w' & -> & _). eauto.
  - inversion HF as [|? ? (dn & meanwhile & fuel & ->) HF']; subst. cbn [run] in Hr.
    destruct (wstep exception_message (Turn dn meanwhile fuel) w) as [w'|] eqn:E; [|done]. cbn in Hr.
    assert (exists st id rest, dispatchers w !! dn = Some (mkDisp st true (id :: rest)))
      as (st & id & rest & Hd).
    { revert E. cbn [wstep]. destruct (dispatchers w !! dn) as [[st [] [|id rest]]|]; eauto; done. }
    destruct (turn_settles w dn meanwhile fuel st id rest HI HR HN Hd) as (w'' & E' & HR' & HN' & Hq).
    rewrite E in E'. injection E' as <-.
    destruct (IH w' (wstep_ok exception_message _ _ _ HI E) HR' HN' w2 HF' Hr) as (H1 & H2 & H3 & H4).
    split_and!; [cbn; lia|apply H2..|done|done].
Qed.
End shutdown.
