(* ===== verification/ActorPosts.v ===== *)
(** Who posts to whom: every step of a world of actors ([ActorWorld]) records
    exactly the posts it makes, also those of other threads inside an execution,
    in their order. *)
From S2P Require Import Prelude MpscQueue RunnerProtocol PollDriver Registry ActorCore ActorWorld ActorKeeps ActorCalls ActorDelivery ActorTheorems ActorShutdown.

Section posting.
Context {A F Msg : Type} `{!ActorBase A F Msg} (exception_message : Msg).
Notation World := (World (A := A) (F := F) (Msg := Msg)).
Notation Cell := (Cell (A := A) (F := F) (Msg := Msg)).
Notation Mail := (ActorMail Msg).
Implicit Types (w : World) (c : Cell).

Definition addr_of (r : ActorRef) : nat * Z := (Z.to_nat (index r), ref_generation r).

(** The posts among some calls, as the record has them. *)
Definition notes (l : list (acall Msg)) : list (nat * Z * Mail) :=
  omap (λ x, match x with APost r m => Some (addr_of r, m) | _ => None end) l.

Lemma notes_app l l' : notes (l ++ l') = notes l ++ notes l'.
Proof. apply omap_app. Qed.

Lemma mails_to_app (a : nat * Z) (l l' : list (nat * Z * Mail)) : mails_to a (l ++ l') = mails_to a l ++ mails_to a l'.
Proof. apply omap_app. Qed.

(** ** Calls return *)

(** Whom the registry owns exists, and every mailbox is well formed. *)
Definition sane w : Prop :=
  owners_exist w /\ forall id c, runners w !! id = Some c -> well (mailbox (runner c)).
Definition stays_sane : relation World := λ w w', sane w -> sane w'.

#[local] Instance sane_preorder : PreOrder stays_sane.
Proof. split; unfold stays_sane; [by intros w|]. intros w1 w2 w3. auto. Qed.

Lemma sane_put w id c c' :
  sane w -> runners w !! id = Some c -> (well (mailbox (runner c)) -> well (mailbox (runner c'))) ->
  sane (set_runners w (<[id := c']> (runners w))).
Proof.
  intros [HO HW] Hc Hw. split.
  - intros n sl j Hn Ho. cbn. apply lookup_lt_is_Some. rewrite length_insert. by eapply lookup_lt_is_Some, HO.
  - intros j cj. cbn. destruct (decide (j = id)) as [->|]; [|rewrite list_lookup_insert_ne by done; apply HW].
    rewrite list_lookup_insert_eq by (by eapply lookup_lt_Some). intros [= <-]. by apply Hw, (HW id).
Qed.

Definition ring_kept c c' : Prop := well (mailbox (runner c)) -> well (mailbox (runner c')).
#[local] Instance sane_overlooks : Overlooks stays_sane ring_kept.
Proof. split; [|intros; intros Hs; exact Hs..]. intros w id c c' Hc Hw Hs. by eapply sane_put. Qed.
#[local] Instance ring_harmless : Harmless ring_kept.
Proof. split; [intros c q [_ H]; exact H|by intros; intros ?..]. Qed.
#[local] Instance ring_mail : OverlooksMail ring_kept.
Proof. split. intros c q m [_ H]. exact H. Qed.
#[local] Instance sane_log : OverlooksLog stays_sane (λ _, True).
Proof. split. intros; intros Hs; exact Hs. Qed.

#[local] Instance record_overlooks : Overlooks (same_obs (λ w : World, (log w, others w))) (λ _ _, True).
Proof. by split. Qed.

#[local] Instance record_log : OverlooksLog (same_obs (λ w : World, (log w, others w))) (λ _, False).
Proof. by split. Qed.

(** A post is recorded, once. *)
Lemma post_mail_record r m w :
  (log (post_mail r m w).2, others (post_mail r m w).2) = (log w ++ [(addr_of r, m)], others w).
Proof.
  unfold post_mail, post. destruct (resolve _ _ _) as [id|]; [|done].
  cbn [enqueue_only schedule_self runner_ops]. set (w1 := set_log w _). set (obs := λ w : World, (log w, others w)).
  pose proof (keeps_continue (same_obs obs) false _ (Ok tt, w1) (keeps_enqueue (same_obs obs) (λ _ _, True) id m)) as H.
  revert H. destruct (continue false _ _) as [[] s]; cbn; intros Hs; [|exact Hs].
  etransitivity; [|exact Hs]. apply (keeps_continue (same_obs obs) tt _ s).
  apply keeps_bind; [apply _|apply keeps_get, _|]. intros c. eapply keeps_schedule; apply _.
Qed.

(** The others leave no record. *)
Lemma one_record cur x w :
  (log (perform_one cur x w).2, others (perform_one cur x w).2) = (log w ++ notes [x], others w).
Proof.
  destruct x as [r m|r|k]; cbn [perform_one notes omap]; [apply post_mail_record|rewrite app_nil_r..].
  - exact (keeps_one (same_obs (λ w : World, (log w, others w))) (λ _ _, True) cur (AKill r) I w).
  - exact (keeps_one (same_obs (λ w : World, (log w, others w))) (λ _ _, True) cur (AWake k) I w).
Qed.

Lemma enqueue_returns id c m w :
  runners w !! id = Some c -> well (mailbox (runner c)) ->
  exists b w' c', enqueue id m w = (Ok b, w') /\ runners w' !! id = Some c'.
Proof.
  intros Hc (C & l & HR). pose proof (lookup_lt_Some _ _ _ Hc) as Hlt.
  unfold enqueue, mbind, M_bind, get_cell. rewrite Hc. destruct (life c); [|by eexists _, _, _..]. unfold lift.
  destruct (try_enqueue_rep _ C l m HR) as (q & _ & Hq).
  case_bool_decide; destruct Hq as [-> _]; [|by eexists _, _, _]. cbn [put_cell]. destruct (is_scheduled c).
  - eexists _, _, _. split; [done|]. cbn. by apply list_lookup_insert_eq.
  - unfold modify, mbind, M_bind, get_cell. cbn [runners set_runners].
    rewrite list_lookup_insert_eq by done. eexists _, _, _. split; [done|]. cbn.
    apply list_lookup_insert_eq. by rewrite length_insert.
Qed.

Lemma schedule_returns d id w : (schedule d id w).1 = Ok tt.
Proof. apply schedule_fields. Qed.

Lemma one_returns cur x w : sane w -> (perform_one cur x w).1 = Ok tt.
Proof.
  intros [HO HW]. destruct x as [r m|r|k]; cbn [perform_one].
  - unfold post_mail, post. destruct (resolve _ _ _) as [id|] eqn:Er; [|done].
    cbn [enqueue_only schedule_self runner_ops]. set (w1 := set_log w _).
    destruct (resolve_exists _ _ _ _ HO Er) as [c Hc].
    destruct (enqueue_returns id c m w1 Hc (HW id c Hc)) as (b & w2 & c2 & E & Hc2).
    unfold continue at 1. rewrite E. destruct b; [|done]. cbn. unfold schedule_runner, mbind, M_bind, get_cell.
    rewrite Hc2. pose proof (schedule_returns (dispatcher (runner c2)) id w2) as Hr.
    destruct (schedule _ _ w2) as [o w3]. cbn in Hr. by subst o.
  - unfold kill_ref, kill. destruct (resolve _ _ _) as [id|] eqn:Er; [|done]. cbn [runner_kill runner_ops].
    destruct (resolve_exists _ _ _ _ HO Er) as [c Hc]. unfold continue, kill_runner, mbind, M_bind, get_cell.
    rewrite Hc. destruct (life c); [|done..]. cbn [put_cell]. pose proof (lookup_lt_Some _ _ _ Hc) as Hlt.
    destruct (is_scheduled c); [done|]. unfold modify, mbind, M_bind, get_cell. cbn [runners set_runners].
    rewrite list_lookup_insert_eq by done. cbn. set (w2 := set_runners _ _).
    pose proof (schedule_returns (dispatcher (runner c)) id w2) as Hr.
    destruct (schedule _ _ w2) as [o w3]. cbn in Hr. by subst o.
  - unfold wake_by_ref. destruct (runners w !! _) as [c|]; [|done].
    destruct (dispatchers w !! _) as [x|] eqn:Hx; [|done]. destruct (_ && _); [|done].
    unfold mbind, M_bind, put_cell, schedule. cbn. rewrite Hx. by destruct (is_stopped x).
Qed.

Lemma perform_record cur l w : sane w ->
  exists w', perform cur l w = (Ok tt, w') /\ sane w' /\ log w' = log w ++ notes l /\ others w' = others w.
Proof.
  revert w. induction l as [|x l IH]; intros w Hs.
  { exists w. by rewrite app_nil_r. }
  cbn [perform]. unfold mbind, M_bind. pose proof (one_returns cur x w Hs) as E. pose proof (one_record cur x w) as HR.
  assert (sane (perform_one cur x w).2) as Hs1.
  { by apply (keeps_one stays_sane ring_kept cur x (posts_anywhere x) w). }
  destruct (perform_one cur x w) as [o w1]. cbn in E, HR, Hs1. subst o. injection HR as HL HE.
  destruct (IH w1 Hs1) as (w' & -> & Hs' & HL' & HE'). exists w'. split_and!; [done|done| |congruence].
  change (x :: l) with ([x] ++ l). by rewrite HL', HL, <- app_assoc, notes_app.
Qed.

Lemma inv_sane X h w : world_inv X h w -> sane w.
Proof.
  intros HI. split.
  - intros n sl id Hn Ho. destruct (gi_owner _ _ (wi_registry _ _ _ HI) n sl id Hn Ho) as (c & Hc & _). eauto.
  - intros id c Hc. destruct (wi_cells _ _ _ HI id c Hc) as [(C & l & HR & _) _ _ _ _ _ _ _]. by exists C, l.
Qed.

(** ** Mail to one address *)
Variable a : nat * Z.

(** What it was and will be posted: nobody else changes that. *)
Definition mail_of w : list Mail := mails_to a (log w).
Definition mail_due w : list Mail := mail_of w ++ mails_to a (notes (concat (others w))).
Definition mail_same : relation World := λ w w', sane w -> sane w' /\ mail_due w' = mail_due w.

#[local] Instance mail_preorder : PreOrder mail_same.
Proof.
  split; unfold mail_same; [by intros w|]. intros w1 w2 w3 H1 H2 Hs. destruct (H1 Hs) as [Hs2 E1].
  destruct (H2 Hs2) as [Hs3 E2]. split; [done|congruence].
Qed.
#[local] Instance mail_overlooks : Overlooks mail_same ring_kept.
Proof.
  split; [|intros; intros Hs; split; [exact Hs|done]..].
  intros w id c c' Hc Hw Hs. split; [by eapply sane_put|done].
Qed.
#[local] Instance mail_log : OverlooksLog mail_same (λ b, b <> a).
Proof.
  split. intros w n g m Hne Hs. split; [exact Hs|]. unfold mail_due, mail_of. cbn [log others set_log].
  by rewrite mails_to_snoc, decide_False, app_nil_r.
Qed.
#[local] Instance mail_calls : OverlooksCalls mail_same.
Proof.
  split. intros w l rest E Hs. destruct (perform_record None l (set_others w rest) Hs) as (w' & -> & Hs' & HL & HO).
  split; [done|]. cbn [snd]. unfold mail_due, mail_of. rewrite HL, HO, E. cbn [concat log others set_others].
  by rewrite notes_app, !mails_to_app, <- app_assoc.
Qed.
#[local] Instance mail_end : OverlooksEnd mail_same.
Proof.
  split; [|intros; intros Hs; split; [exact Hs|done]].
  intros w i g [HO HW]. split; [|done]. split; [|exact HW].
  intros n sl id Hn Ho. cbn in *. destruct (remove i g (registry w)) as [[o|e|e] r] eqn:E; cbn in Hn.
  - destruct (remove_owners _ _ _ _ _ n sl id E Hn Ho) as (sl' & Hn' & Ho'). by apply (HO n sl').
  - apply (HO n sl); [|done]. by rewrite <- (remove_panics _ _ _ _ _ E).
  - unfold remove, with_alloc, lock_unwrap in E. by repeat case_match; simplify_eq.
Qed.
#[local] Instance ring_stop : OverlooksStop ring_kept.
Proof. split; [by intros c H|]. intros c q l [_ H]. exact H. Qed.

(** What a step posts to it. *)
Definition posted_by (x : waction (A := A) (Msg := Msg)) : list Mail :=
  match x with
  | Call c => mails_to a (notes [c])
  | Turn _ meanwhile _ => mails_to a (notes (concat meanwhile))
  | _ => []
  end.

Context `{!PostsTo (λ b, b <> a)}.

Lemma spawn_record x k name n w : log (spawn x k name n w).2 = log w.
Proof.
  unfold spawn. unfold mbind at 1, M_bind at 1. cbn [get_state]. destruct (name ≫= _); [done|].
  match goal with |- log (?m w).2 = _ => enough (keeps (same_obs (λ w : World, log w)) m) as H by apply H end.
  apply keeps_bind; [apply _|intros w1; unfold on_registry; by destruct (reserve _)|intros [i g]]. case_match; [|done].
  apply keeps_bind; [apply _|apply keeps_lift, _|intros y]. intros w2. cbn. unfold mbind, M_bind. cbn.
  unfold on_registry. by destruct (commit _ _ _) as [[] ?].
Qed.

(** *** A turn *)
Lemma execute_mail w dn st id rest meanwhile fuel :
  let w0 := begin_turn dn (mkDisp st true (id :: rest)) rest meanwhile w in
  sane w ->
  let w1 := (execute exception_message (Z.of_nat dn) fuel id w0).2 in
  sane w1 /\ mail_due w1 = mail_of w ++ mails_to a (notes (concat meanwhile)).
Proof.
  intros w0 Hs. apply (keeps_execute exception_message mail_same ring_kept (Z.of_nat dn) fuel id w0). exact Hs.
Qed.

Lemma catch_up_mail w w' : sane w -> catch_up w = Some w' -> mail_of w' = mail_due w.
Proof.
  intros Hs. unfold catch_up, ended.
  destruct (perform_record None (concat (others w)) (set_others w []) Hs) as (w1 & -> & _ & HL & _).
  intros [= <-]. unfold mail_of, mail_due. by rewrite HL, mails_to_app.
Qed.

Lemma sane_dies dn id w : sane w -> sane (worker_dies dn id w).
Proof.
  intros [HO HW]. split.
  - intros n sl j Hn Ho. cbn. apply lookup_lt_is_Some. rewrite length_alter. by eapply lookup_lt_is_Some, HO.
  - intros j cj. cbn. destruct (decide (j = id)) as [->|]; [|rewrite list_lookup_alter_ne by done; apply HW].
    rewrite list_lookup_alter_eq. destruct (runners w !! id) as [c|] eqn:Hc; [|done]. cbn. intros [= <-]. exact (HW id c Hc).
Qed.

Lemma wstep_mail x w w' :
  world_inv ∅ Rest w -> wstep exception_message x w = Some w' -> mail_of w' = mail_of w ++ posted_by x.
Proof.
  intros HI%inv_sane. destruct x as [y k name n|c| |dn meanwhile fuel|now]; cbn [wstep posted_by]; unfold ended.
  - destruct (n <=? 2 ^ 62); [|done]. pose proof (spawn_record y k name n w) as H. revert H. rewrite app_nil_r.
    unfold mail_of. destruct (spawn y k name n w) as [[] ?]; [..|done]; cbn [snd]; intros HL [= <-]; by rewrite HL.
  - pose proof (one_record None c w) as H. unfold mail_of. revert H.
    destruct (perform_one None c w) as [[] ?]; [..|done]; cbn [snd]; intros [= HL _] [= <-]; by rewrite HL, mails_to_app.
  - rewrite app_nil_r. pose proof (keeps_kill_all (same_obs (λ w : World, (log w, others w))) (λ _ _, True) w) as H.
    unfold same_obs in H. revert H. unfold mail_of.
    destruct (kill_all w) as [[] ?]; [..|done]; cbn [snd]; intros [= HL _] [= <-]; by rewrite HL.
  - destruct (dispatchers w !! dn) as [[st [] [|id rest]]|]; [done| |done..].
    pose proof (execute_mail w dn st id rest meanwhile fuel HI) as H. revert H.
    destruct (execute _ _ _ _ _) as [[[]|e|e] w1]; cbn [snd]; [..|done]; intros [Hs <-] Hu.
    + by apply catch_up_mail.
    + by apply catch_up_mail in Hu; [|apply sane_dies].
  - intros [= <-]. by rewrite app_nil_r.
Qed.
End posting.
