(* ===== verification/ActorDemo.v ===== *)
(** Actors at work: the program of [dignus-actor-core/examples/basic.rs], an actor
    that greets, run in the world of [ActorWorld] from spawn to shutdown; and
    concrete runs of the theorems of [ActorTheorems]. *)
From S2P Require Import Prelude MpscQueue RunnerProtocol PollDriver Registry ActorCore ActorWorld ActorKeeps ActorCalls ActorDelivery ActorTheorems ActorShutdown.
Local Open Scope string_scope.

(** ** The greeter *)

(** A message is a [Greet] or something [downcast] turns away. *)
Inductive GreetMessage : Type := Greet (name : string) | OtherMessage.

(** What it printed, and how often it sent on its channel. *)
Record Greeter : Type := mkGreeter { printed : list string; completed : nat }.

Definition greeter_on_receive (self : Greeter) (message : GreetMessage) : Greeter :=
  match message with
  | Greet name => mkGreeter (printed self ++ ["Hello, " ++ name ++ "!"]) (S (completed self))
  | OtherMessage => self
  end.

(** It never returns a future; [on_kill] is the trait's default. *)
#[export] Instance greeter_actor : ActorBase Greeter Empty_set GreetMessage := {
  on_receive := λ _ self message _, (Done, [], greeter_on_receive self message);
  poll_future := λ _ f _, match f with end;
  on_kill := λ self, (Killed, [], self);
  on_dead_letter := no_callback;
}.

Definition new_greeter : Actor Greeter := mkActor context_new (mkGreeter [] 0).

(** [main]: two dispatchers, one greeter, one message; the worker's turn sends on
    the channel [main] waits for; shutdown kills, and the next turn finalizes. *)
Definition main_actions (name : string) : list waction :=
  [Spawn new_greeter None None 1024;
   Call (APost (mkActorRef 0 1 None) (mkMail (Greet name) None));
   Turn 0 [] 2; KillAll; Turn 0 [] 1].

(** What is left to see of a world. *)
Definition visible (w : World (A := Greeter) (F := Empty_set) (Msg := GreetMessage)) :=
  ((λ c, (printed (behaviour (actor (runner c))), completed (behaviour (actor (runner c))), life c))
     <$> runners w, (live_count (registry w)).1, scheduled <$> dispatchers w).

(** Whatever the name, [main] prints one greeting, is told once, and shuts down:
    the registry is empty and nothing is scheduled. *)
Lemma main_greets name :
  visible <$> run (wstep OtherMessage) (main_actions name) (world_new 2 (2 ^ 16))
  = Some ([(["Hello, " ++ name ++ "!"], 1%nat, Stopped)], Ok 0, [[]; []]).
Proof. vm_compute. reflexivity. Qed.

(** ** Witnesses *)

(** The second greeting is posted by another thread between the dequeue of the
    first and its [on_receive]. *)
Definition greeting (m : GreetMessage) : acall GreetMessage := APost (mkActorRef 0 1 None) (mkMail m None).
Definition two_greetings : list waction :=
  [Spawn new_greeter None None 2; Call (greeting (Greet "a"));
   Turn 0 [[]; [greeting OtherMessage]] 3].

Definition greeted : World (A := Greeter) (F := Empty_set) (Msg := GreetMessage) :=
  default (world_new 1 2) (run (wstep OtherMessage) two_greetings (world_new 1 2)).

Definition the_greeter : Cell (A := Greeter) (F := Empty_set) (Msg := GreetMessage) :=
  default (mkCell (mkRunner new_greeter (mkActorRef 0 0 None) 0 (mkQueue [] 0 0 0 0)) false Running
             false false None [] [] [] false 0) (runners greeted !! 0%nat).


Definition before_turn : World (A := Greeter) (F := Empty_set) (Msg := GreetMessage) :=
  default (world_new 1 2) (run (wstep OtherMessage) (take 2 two_greetings) (world_new 1 2)).

Definition waiting_greeter : Cell (A := Greeter) (F := Empty_set) (Msg := GreetMessage) :=
  default the_greeter (runners before_turn !! 0%nat).

(** Another thread kills the actor inside the turn. *)
Definition killed_meanwhile : list (list (acall GreetMessage)) := [[]; []; [AKill (mkActorRef 0 1 None)]].

Lemma turns_return_witness :
  exists w' w'', execute OtherMessage 0 2 0
      (begin_turn 0 (mkDisp false true [0%nat]) [] killed_meanwhile before_turn) = (Ok tt, w')
    /\ wstep OtherMessage (Turn 0 killed_meanwhile 2) before_turn = Some w''.
Proof.
  destruct (turns_return OtherMessage 1 2 (take 2 two_greetings) before_turn) as (_ & _ & H);
    [vm_compute; reflexivity|].
  eapply (H 0%nat false 0%nat [] waiting_greeter killed_meanwhile 2%nat);
    [vm_compute; reflexivity..|reflexivity|reflexivity|vm_compute; reflexivity| | |].
  - intros ctx b m s r' m' Hin. by apply elem_of_nil in Hin.
  - repeat constructor; intros r m Hin; repeat (apply elem_of_cons in Hin as [[=]|Hin]); by apply elem_of_nil in Hin.
  - vm_compute. lia.
Defined.

(** After the kills, with a post that comes too late. *)
Definition all_killed_world : World (A := Greeter) (F := Empty_set) (Msg := GreetMessage) :=
  (kill_all before_turn).2.

Lemma one_full {R} (r : ActorRegistry R) sl x :
  next_unused (inner (alloc r)) = 1 -> slot_at r 0 = Some sl -> owner sl = Some x -> full r.
Proof. intros E Hs Ho i [Hi _]. rewrite E in Hi. assert (i = 0) as -> by lia. eauto. Qed.

Lemma before_turn_ready : ready before_turn /\ ready all_killed_world.
Proof.
  split; (split_and!; [vm_compute; by repeat constructor|vm_compute; reflexivity|]);
    eapply one_full; vm_compute; reflexivity.
Qed.

Lemma shutdown_completes_witness :
  (exists w1, kill_all before_turn = (Ok tt, w1) /\ all_killed w1)
  /\ exists w2, wstep OtherMessage (Turn 0 [[greeting OtherMessage]] 1) all_killed_world = Some w2
    /\ (live_count (registry w2)).1 = Ok 0.
Proof.
  split.
  - destruct (shutdown_completes (ActorBase0 := greeter_actor) OtherMessage (λ _, eq_refl) 1 2
      (take 2 two_greetings) before_turn) as [H _]; [vm_compute; reflexivity|apply before_turn_ready|].
    destruct H as (w1 & E1 & _ & HK); [|by exists w1].
    intros [|[|id]] c Hc; vm_compute in Hc; [by injection Hc as <-|done|done].
  - destruct (shutdown_completes (ActorBase0 := greeter_actor) OtherMessage (λ _, eq_refl) 1 2
      (take 2 two_greetings ++ [KillAll]) all_killed_world) as [_ H];
      [vm_compute; reflexivity|apply before_turn_ready|].
    eexists. split; [vm_compute; reflexivity|].
    eapply (H _ [Turn 0 [[greeting OtherMessage]] 1]);
      [by repeat econstructor|vm_compute; reflexivity|vm_compute; reflexivity].
    Unshelve. intros [|[|id]] c Hc; vm_compute in Hc; [by injection Hc as <-|done|done].
Defined.

(** An actor whose [on_kill] panics. *)
#[local] Instance fragile_actor : ActorBase unit Empty_set unit := {
  on_receive := λ _ self _ _, (Done, [], self);
  poll_future := λ _ f _, match f with end;
  on_kill := λ self, (KillPanics, [], self);
  on_dead_letter := no_callback;
}.

Definition fragile_kill : list waction :=
  [Spawn (A := unit) (Msg := unit) (mkActor context_new tt) None None 2; KillAll].

Definition to_finalize : World (A := unit) (F := Empty_set) (Msg := unit) :=
  default (world_new 1 2) (run (wstep tt) fragile_kill (world_new 1 2)).

Lemma on_kill_panic_ends_worker_witness :
  exists w', wstep tt (Turn 0 [] 1) to_finalize = Some w' /\ (live_count (registry w')).1 = Ok 1
    /\ wstep tt (Turn 0 [] 1) w' = None.
Proof.
  edestruct (on_kill_panic_ends_worker tt 1 2 fragile_kill to_finalize 0 false 0 [])
    as (w' & Hw & Hg & Hd); [vm_compute; reflexivity..|].
  exists w'. split_and!; [exact Hw|by rewrite Hg; vm_compute; reflexivity|].
  apply (Hd []). reflexivity.
Defined.
