(* ===== verification/Ask.v ===== *)
(** Asks ([dignus-actor-core/src/internals]: [ask_awaiter.rs],
    [ask_awaiter_trait.rs], [ask_reply_actor_ref.rs], [ask_system.rs]): the
    one-shot state a response or a timeout completes, the future that waits for
    it, and the slot table a sweeper thread scans for expired deadlines.

    The table and the awaiters form one shared store: an awaiter is a number,
    the [Weak] references of the slots and of the reply reference are that
    number, and [alive] says whether the caller still holds the future.  Time
    is an integer; the address of an awaiter, which picks its slot, is a
    parameter. *)
From S2P Require Import Prelude.

Inductive AskError : Type := Timeout | ResponseTypeMismatch.

Definition ask_error_fmt (e : AskError) : string :=
  match e with
  | Timeout => "ask timed out"
  | ResponseTypeMismatch => "ask response type mismatch"
  end.

Inductive Poll (A : Type) : Type := Pending | Ready (a : A).
Arguments Pending {A}.
Arguments Ready {A} _.

(** ** One awaiter *)
Section awaiter.
Context {Msg Waker : Type} `{!EqDecision Waker}.

Record AskAwaiterState : Type := mkAwaiter {
  response : option Msg;
  completed : bool;
  timed_out : bool;
  waker : option Waker;
}.

Definition awaiter_new : AskAwaiterState := mkAwaiter None false false None.

(** [complete]: the first completion wins; the waker it took is the result, to
    be woken after the lock is released. *)
Definition complete (r : option Msg) (t : bool) : M (Mutex AskAwaiterState) (option Waker) :=
  fun m =>
    match lock_unwrap m with
    | Ok s =>
        if completed s then (Ok None, m) else (Ok (waker s), mkMutex false (mkAwaiter r true t None))
    | Panic msg => (Panic msg, m)
    | UB msg => (UB msg, m)
    end.

Definition set_response (m : Msg) := complete (Some m) false.
Definition set_timeout := complete None true.

(** [poll].  [will_wake] is equality of wakers; [downcast] is the response
    type's check.  Taking the response twice panics with the lock held. *)
Definition poll_awaiter {R} (downcast : Msg -> option R) (w : Waker) :
    M (Mutex AskAwaiterState) (Poll (R + AskError)) := fun m =>
  match lock_unwrap m with
  | Ok s =>
      if completed s
      then if timed_out s then (Ok (Ready (inr Timeout)), m)
           else match response s with
                | Some msg =>
                    (Ok (Ready (match downcast msg with
                                | Some r => inl r
                                | None => inr ResponseTypeMismatch
                                end)),
                     mkMutex false (mkAwaiter None true (timed_out s) (waker s)))
                | None => (Panic "ask response is already consumed", mkMutex true s)
                end
      else
        let should_replace_waker :=
          match waker s with Some current => bool_decide (current <> w) | None => true end in
        (Ok Pending,
         mkMutex false (if should_replace_waker
                        then mkAwaiter (response s) (completed s) (timed_out s) (Some w) else s))
  | Panic msg => (Panic msg, m)
  | UB msg => (UB msg, m)
  end.

(** What happens to one awaiter over its life, and what is seen of it: the
    waker a completion wakes, or the answer of a poll. *)
Inductive ask_op : Type := Respond (m : Msg) | Expire | PollWith (w : Waker).
Inductive ask_out (R : Type) : Type :=
| Completed (w : outcome (option Waker)) | Polled (p : outcome (Poll (R + AskError))).
Arguments Completed {R} _.
Arguments Polled {R} _.

Definition ask_apply {R} (downcast : Msg -> option R) (op : ask_op) (m : Mutex AskAwaiterState) :
    ask_out R * Mutex AskAwaiterState :=
  match op with
  | Respond r => let '(o, m') := set_response r m in (Completed o, m')
  | Expire => let '(o, m') := set_timeout m in (Completed o, m')
  | PollWith w => let '(o, m') := poll_awaiter downcast w m in (Polled o, m')
  end.

Fixpoint ask_run {R} (downcast : Msg -> option R) (ops : list ask_op) (m : Mutex AskAwaiterState) :
    list (ask_out R) * Mutex AskAwaiterState :=
  match ops with
  | [] => ([], m)
  | op :: rest =>
      let '(o, m1) := ask_apply downcast op m in
      let '(os, m2) := ask_run downcast rest m1 in (o :: os, m2)
  end.
End awaiter.
Arguments AskAwaiterState Msg Waker : clear implicits.
Arguments ask_op Msg Waker : clear implicits.
Arguments ask_out Waker R : clear implicits.
Arguments Completed {Waker R} _.
Arguments Polled {Waker R} _.

(** ** The slot table *)
Definition SWEEP_CAP : Z := 100.            (** milliseconds *)
Definition MIN_SLOT_COUNT : Z := 2 ^ 18.

Section system.
Context {Msg Waker : Type}.

Record AskSlot : Type := mkAskSlot { ask_awaiter : nat; deadline : Z }.

(** An awaiter of the store: its state, and whether its future is still held. *)
Record Holder : Type := mkHolder { state : Mutex (AskAwaiterState Msg Waker); alive : bool }.

Record AskSystem : Type := mkAskSystem {
  slots : list (option AskSlot);
  slot_mask : Z;
  is_stopped : bool;
  holders : list Holder;         (** every awaiter ever registered, by number *)
  woken : list Waker;            (** wakers woken so far, oldest first *)
}.
Implicit Types (k : AskSystem).

(** [next_power_of_two], as the least power of two not below [n]. *)
Definition next_power_of_two (n : Z) : Z := 2 ^ Z.log2_up n.

Definition ask_system_new (slot_count_hint : Z) : AskSystem :=
  let slot_count := Z.max (next_power_of_two (Z.max slot_count_hint 1)) MIN_SLOT_COUNT in
  mkAskSystem (replicate (Z.to_nat slot_count) None) (slot_count - 1) false [] [].

Definition set_slots k l : AskSystem :=
  mkAskSystem l (slot_mask k) (is_stopped k) (holders k) (woken k).
Definition set_holders k l w : AskSystem :=
  mkAskSystem (slots k) (slot_mask k) (is_stopped k) l w.

(** [Weak::upgrade] and [strong_count() == 0]. *)
Definition upgrade k (i : nat) : option Holder :=
  match holders k !! i with
  | Some h => if alive h then Some h else None
  | None => None
  end.

(** A completion through a reference that upgraded. *)
Definition complete_awaiter (r : option Msg) (t : bool) (i : nat) : M AskSystem unit := fun k =>
  match upgrade k i with
  | Some h =>
      match complete r t (state h) with
      | (Ok w, m) => (Ok tt, set_holders k (<[i := mkHolder m (alive h)]> (holders k))
                               (woken k ++ option_list w))
      | (Panic msg, m) => (Panic msg, set_holders k (<[i := mkHolder m (alive h)]> (holders k)) (woken k))
      | (UB msg, m) => (UB msg, k)
      end
  | None => (Ok tt, k)
  end.

(** [AskReplyActorRef::post]. *)
Definition reply (m : Msg) (i : nat) : M AskSystem unit := complete_awaiter (Some m) false i.

(** The caller drops the future. *)
Definition drop_future (i : nat) k : AskSystem :=
  set_holders k (alter (λ h, mkHolder (state h) false) i (holders k)) (woken k).

Definition reserve_slot (slot_index : nat) (awaiter : nat) (d : Z) : M AskSystem unit := fun k =>
  match slots k !! slot_index with
  | Some _ => (Ok tt, set_slots k (<[slot_index := Some (mkAskSlot awaiter d)]> (slots k)))
  | None => (Panic "index out of bounds", k)
  end.

(** [register].  [address] is the new awaiter's address, [instant_max] the last
    instant the clock can represent. *)
Definition register (instant_max now timeout address : Z) : M AskSystem nat := fun k =>
  if is_stopped k then (Panic "AskSystem is stopped.", k)
  else if instant_max <? now + timeout then (Panic "overflow when adding duration to instant", k)
  else
    let i := length (holders k) in
    let k1 := set_holders k (holders k ++ [mkHolder (new_mutex awaiter_new) true]) (woken k) in
    let start_index := Z.to_nat (Z.land (Z.shiftr address 5) (slot_mask k)) in
    match reserve_slot start_index i (now + timeout) k1 with
    | (Ok tt, k2) => (Ok i, k2)
    | (Panic msg, k2) => (Panic msg, k2)
    | (UB msg, k2) => (UB msg, k2)
    end.

(** One slot under its lock: is it to be removed? *)
Definition should_remove (now : Z) k (s : option AskSlot) : bool :=
  match s with
  | Some entry => (deadline entry <=? now) || negb (bool_decide (is_Some (upgrade k (ask_awaiter entry))))
  | None => false
  end.

(** The scan: the slots it leaves, the awaiters it found expired, and the
    earliest deadline it left. *)
Definition scan (now : Z) k : list (option AskSlot) * list nat * option Z :=
  foldr (λ s '(l, expired, next),
    if should_remove now k s
    then (None :: l,
          match s with
          | Some entry =>
              match upgrade k (ask_awaiter entry) with
              | Some _ => ask_awaiter entry :: expired
              | None => expired
              end
          | None => expired
          end, next)
    else (s :: l, expired,
          match s with
          | Some entry => Some (match next with Some c => Z.min c (deadline entry) | None => deadline entry end)
          | None => next
          end)) ([], [], None) (slots k).

Fixpoint timeout_all (l : list nat) : M AskSystem unit :=
  match l with
  | [] => mret tt
  | i :: rest => complete_awaiter None true i ≫= λ _, timeout_all rest
  end.

(** One round of the sweeper: how long it then waits, or [None] when it ends.
    [now'] is the clock after the scan.  The slots are locked one at a time; a
    registration that falls into the round counts here as before it or after it,
    and one the scan has missed is seen by the next round, at most [SWEEP_CAP]
    later. *)
Definition sweep (now now' : Z) : M AskSystem (option Z) := fun k =>
  if is_stopped k then (Ok None, k)
  else
    let '(l, expired, next) := scan now k in
    match timeout_all expired (set_slots k l) with
    | (Ok tt, k') =>
        (Ok (Some (match next with
                   | Some d => Z.min (Z.max (d - now') 0) SWEEP_CAP
                   | None => SWEEP_CAP
                   end)), k')
    | (Panic msg, k') => (Panic msg, k')
    | (UB msg, k') => (UB msg, k')
    end.

(** [stop]: once the sweeper has been joined every slot in turn is emptied and
    its awaiter timed out. *)
Fixpoint stop_slots (l : list nat) : M AskSystem unit :=
  match l with
  | [] => mret tt
  | j :: rest => fun k =>
      match slots k !! j with
      | Some (Some e) =>
          (complete_awaiter None true (ask_awaiter e) ≫= λ _, stop_slots rest)
            (set_slots k (<[j := None]> (slots k)))
      | _ => stop_slots rest k
      end
  end.

Definition stop : M AskSystem unit := fun k =>
  if is_stopped k then (Ok tt, k)
  else
    stop_slots (seq 0 (length (slots k)))
      (mkAskSystem (slots k) (slot_mask k) true (holders k) (woken k)).
End system.
Arguments AskSystem Msg Waker : clear implicits.
Arguments Holder Msg Waker : clear implicits.

(** ** One awaiter: lemmas *)
Section awaiter_lemmas.
Context {Msg Waker R : Type} `{!EqDecision Waker} (downcast : Msg -> option R).
Notation run := (ask_run (Waker := Waker) downcast).

Definition is_completion (op : ask_op Msg Waker) : bool :=
  match op with PollWith _ => false | _ => true end.

Lemma ask_run_app ops ops' m :
  run (ops ++ ops') m = ((run ops m).1 ++ (run ops' (run ops m).2).1, (run ops' (run ops m).2).2).
Proof.
  revert m. induction ops as [|op ops IH]; intros m; cbn; [by destruct (run ops' m)|].
  destruct (ask_apply downcast op m) as [o m1]. rewrite IH.
  by destruct (run ops m1) as [os m2].
Qed.

(** Polls of an uncompleted ask are pending and leave the last waker. *)
Lemma polls_pending ws w0 :
  run (PollWith <$> ws) (new_mutex (mkAwaiter None false false w0))
  = (replicate (length ws) (Polled (Ok Pending)),
     new_mutex (mkAwaiter None false false (match last ws with Some w => Some w | None => w0 end))).
Proof.
  revert w0. induction ws as [|w ws IH]; intros w0; [done|]. cbn -[last].
  assert (match w0 with
          | Some current => bool_decide (current <> w)
          | None => true
          end = true \/ w0 = Some w) as [E|E].
  { destruct w0 as [c|]; [|auto]. destruct (decide (c = w)) as [->|]; [auto|].
    left. by apply bool_decide_eq_true. }
  - rewrite E. cbn -[last]. unfold new_mutex in IH. rewrite IH, last_cons. by destruct (last ws).
  - subst w0. rewrite bool_decide_eq_false_2 by naive_solver. cbn -[last].
    unfold new_mutex in IH. rewrite IH, last_cons. by destruct (last ws).
Qed.

(** Completions of a completed ask do nothing. *)
Lemma completions_silent ops s :
  forallb is_completion ops = true -> completed s = true ->
  run ops (new_mutex s) = (replicate (length ops) (Completed (Ok None)), new_mutex s).
Proof.
  intros H Hc. induction ops as [|op ops IH]; [done|]. cbn in H. apply andb_prop in H as [H1 H2].
  destruct op; [| |done]; cbn; rewrite Hc; fold (new_mutex s); by rewrite (IH H2).
Qed.

Definition settled_by (op : ask_op Msg Waker) : AskAwaiterState Msg Waker :=
  match op with
  | Respond m => mkAwaiter (Some m) true false None
  | _ => mkAwaiter None true true None
  end.

Lemma complete_fresh op w :
  is_completion op = true ->
  ask_apply downcast op (new_mutex (mkAwaiter None false false w))
  = (Completed (Ok w), new_mutex (settled_by op)).
Proof. by destruct op. Qed.
End awaiter_lemmas.

(** ** The table: lemmas *)
Section table_lemmas.
Context {Msg Waker : Type}.
Implicit Types (k : AskSystem Msg Waker) (h : Holder Msg Waker).

Definition no_poison k : Prop := forall i h, holders k !! i = Some h -> poisoned (state h) = false.

(** What a timeout leaves of an awaiter, and the waker it wakes. *)
Definition expire h : Holder Msg Waker :=
  if alive h && negb (completed (inner (state h)))
  then mkHolder (new_mutex (mkAwaiter None true true None)) true else h.

Lemma expire_idemp h : expire (expire h) = expire h.
Proof. unfold expire. destruct h as [[p s] []]; cbn; [|done]. by destruct (completed s) eqn:E; cbn; rewrite ?E. Qed.

Lemma expire_sound h : poisoned (state h) = false -> poisoned (state (expire h)) = false.
Proof. unfold expire. by case_match. Qed.

Lemma complete_timeout k i :
  no_poison k ->
  exists w, complete_awaiter None true i k
    = (Ok tt, set_holders k (alter expire i (holders k)) (woken k ++ w)).
Proof.
  intros Hp. unfold complete_awaiter, upgrade. destruct (holders k !! i) as [h|] eqn:Hh.
  - assert (alter expire i (holders k) = <[i := expire h]> (holders k)) as ->.
    { apply list_eq. intros j. destruct (decide (i = j)) as [<-|].
      - rewrite list_lookup_alter_eq, Hh, list_lookup_insert_eq; [done|by eapply lookup_lt_Some].
      - by rewrite list_lookup_alter_ne, list_lookup_insert_ne. }
    pose proof (Hp i h Hh) as Hs. unfold expire.
    destruct h as [[p s] al]. cbn in *. subst p. destruct al; cbn.
    + unfold complete, lock_unwrap. cbn. destruct (completed s) eqn:E; cbn.
      * exists []. by rewrite app_nil_r.
      * eexists. reflexivity.
    + exists []. rewrite app_nil_r, list_insert_id by done. by destruct k.
  - exists []. rewrite app_nil_r.
    assert (alter expire i (holders k) = holders k) as ->.
    { apply list_eq. intros j. destruct (decide (i = j)) as [<-|].
      - by rewrite list_lookup_alter_eq, Hh.
      - by rewrite list_lookup_alter_ne. }
    by destruct k.
Qed.

Lemma no_poison_alter k i w :
  no_poison k -> no_poison (set_holders k (alter expire i (holders k)) w).
Proof.
  intros Hp j h. cbn. destruct (decide (i = j)) as [<-|].
  - rewrite list_lookup_alter_eq. intros Hh. apply fmap_Some in Hh as (h0 & Hh0 & ->).
    by apply expire_sound, (Hp i).
  - rewrite list_lookup_alter_ne by done. apply Hp.
Qed.

(** Timing out a list of awaiters expires exactly them. *)
Lemma timeout_all_spec l : forall k,
  no_poison k ->
  exists hs w, timeout_all l k = (Ok tt, set_holders k hs w)
    /\ forall j, hs !! j = (if decide (j ∈ l) then expire else id) <$> holders k !! j.
Proof.
  induction l as [|i l IH]; intros k Hp; cbn.
  - exists (holders k), (woken k). split; [by destruct k|]. intros j.
    rewrite decide_False by set_solver. by rewrite option_fmap_id.
  - destruct (complete_timeout k i Hp) as [w Hw]. unfold mbind, M_bind. rewrite Hw.
    destruct (IH _ (no_poison_alter k i (woken k ++ w) Hp)) as (hs & w' & -> & Hhs).
    exists hs, w'. split; [done|]. intros j. rewrite Hhs. cbn.
    destruct (decide (i = j)) as [<-|Hne].
    + rewrite list_lookup_alter_eq, (decide_True (P := i ∈ i :: l)) by set_solver.
      destruct (holders k !! i); [|done]. cbn. case_decide; cbn; [|done]. by rewrite expire_idemp.
    + rewrite list_lookup_alter_ne by done.
      by destruct (decide (j ∈ l)); [rewrite decide_True by set_solver|rewrite decide_False by set_solver].
Qed.

(** [stop] does not panic, and stops. *)
Lemma stop_ok k : no_poison k -> exists k', stop k = (Ok tt, k').
Proof.
  intros Hp. unfold stop. destruct (is_stopped k); [eauto|].
  generalize (seq 0 (length (slots k))). intros l.
  assert (no_poison (mkAskSystem (slots k) (slot_mask k) true (holders k) (woken k))) as Hp' by done.
  revert Hp'. generalize (mkAskSystem (slots k) (slot_mask k) true (holders k) (woken k)).
  clear Hp. induction l as [|j l IH]; intros k' Hp; cbn; [by eexists|].
  destruct (slots k' !! j) as [[e|]|]; [|by apply IH..]. unfold mbind, M_bind.
  destruct (complete_timeout (set_slots k' (<[j := None]> (slots k'))) (ask_awaiter e) Hp) as [w ->].
  apply IH. by apply no_poison_alter.
Qed.

(** *** The scan *)
Definition expired_in (now : Z) k (l : list (option AskSlot)) : list nat :=
  omap (λ s, match s with
             | Some e => if should_remove now k s && bool_decide (is_Some (upgrade k (ask_awaiter e)))
                         then Some (ask_awaiter e) else None
             | None => None
             end) l.

Definition left_in (now : Z) k (l : list (option AskSlot)) : list (option AskSlot) :=
  (λ s, if should_remove now k s then None else s) <$> l.

Lemma scan_spec now k :
  exists next, scan now k = (left_in now k (slots k), expired_in now k (slots k), next)
    /\ (forall e, Some e ∈ left_in now k (slots k) -> exists d, next = Some d /\ d <= deadline e)
    /\ (forall d, next = Some d -> now < d).
Proof.
  unfold scan. induction (slots k) as [|s l IH]; cbn -[should_remove].
  - exists None. split_and!; [done|set_solver|done].
  - destruct IH as (next & -> & Hle & Hlt). destruct (should_remove now k s) eqn:Hr.
    + exists next. split_and!; [|set_solver|done].
      destruct s as [e|]; cbn -[should_remove]; [|done]. rewrite ?Hr. cbn.
      by destruct (upgrade k (ask_awaiter e)); cbn.
    + destruct s as [e|]; [|exists next; split_and!; [done|set_solver|done]].
      rewrite ?Hr. cbn. apply orb_false_elim in Hr as [Hd _]. apply Z.leb_gt in Hd.
      eexists. split_and!; [done|..].
      * intros e' He'. apply elem_of_cons in He' as [[= ->]|He'];
          [eexists; split; [done|]; destruct next; lia|].
        destruct (Hle e' He') as (d & -> & Hd'). eexists. split; [done|]. lia.
      * intros d [= <-]. destruct next as [d'|]; [|done]. specialize (Hlt d' eq_refl). lia.
Qed.

Lemma expired_in_elem now k l i :
  i ∈ expired_in now k l <->
  exists e, Some e ∈ l /\ ask_awaiter e = i /\ deadline e <= now /\ is_Some (upgrade k i).
Proof.
  unfold expired_in. rewrite list_elem_of_omap. split.
  - intros ([e|] & He & Hx); [|done]. exists e. destruct (should_remove now k (Some e)) eqn:Hr; [|done].
    cbn in Hx. case_bool_decide as Hu; [|done]. injection Hx as <-. split_and!; try done.
    cbn in Hr. rewrite (bool_decide_eq_true_2 _ Hu), orb_false_r in Hr. by apply Z.leb_le.
  - intros (e & He & <- & Hd & Hu). exists (Some e). split; [done|].
    cbn. rewrite (proj2 (Z.leb_le _ _) Hd). cbn. by rewrite (bool_decide_eq_true_2 _ Hu).
Qed.
End table_lemmas.

(** ** An ask no slot refers to *)
Section orphans.
Context {Msg Waker : Type}.
Implicit Types (k : AskSystem Msg Waker) (h : Holder Msg Waker).

Inductive table_op : Type :=
| TRegister (now timeout address : Z) | TSweep (now now' : Z) | TStop
| TReply (m : Msg) (j : nat) | TDrop (j : nat).

Definition table_apply (instant_max : Z) (op : table_op) k : AskSystem Msg Waker :=
  match op with
  | TRegister now timeout address => (register instant_max now timeout address k).2
  | TSweep now now' => (sweep now now' k).2
  | TStop => (stop k).2
  | TReply m j => (reply m j k).2
  | TDrop j => drop_future j k
  end.

Definition table_run (instant_max : Z) (ops : list table_op) k : AskSystem Msg Waker :=
  foldl (λ k op, table_apply instant_max op k) k ops.

(** Operations that answer or drop another ask, or none. *)
Definition spares (i : nat) (op : table_op) : Prop :=
  match op with TReply _ j => j <> i | TDrop j => j <> i | _ => True end.

Definition unreferenced (i : nat) (l : list (option AskSlot)) : Prop :=
  forall e, Some e ∈ l -> ask_awaiter e <> i.

Definition orphan (i : nat) h k : Prop :=
  holders k !! i = Some h /\ unreferenced i (slots k).

Lemma complete_spares i j r t h k :
  orphan i h k -> j <> i -> orphan i h (complete_awaiter r t j k).2.
Proof.
  intros [Hh Hs] Hne. unfold complete_awaiter.
  repeat (case_match; simplify_eq/=); split; cbn; try done; by rewrite list_lookup_insert_ne.
Qed.

Lemma timeout_all_spares i l h : forall k,
  orphan i h k -> i ∉ l -> orphan i h (timeout_all l k).2.
Proof.
  induction l as [|j l IH]; intros k Ho Hl; [done|]. cbn. unfold mbind, M_bind.
  pose proof (complete_spares i j None true h k Ho ltac:(set_solver)) as Ho'.
  destruct (complete_awaiter None true j k) as [[[]| |] k'] eqn:E; cbn in *; try done.
  apply IH; [done|set_solver].
Qed.

Lemma stop_slots_spares i l h : forall k, orphan i h k -> orphan i h (stop_slots l k).2.
Proof.
  induction l as [|j l IH]; intros k Ho; [done|]. cbn.
  destruct (slots k !! j) as [[e|]|] eqn:Hj; [|by apply IH..].
  assert (orphan i h (set_slots k (<[j := None]> (slots k)))) as Ho'.
  { destruct Ho as [Hh Hs]. split; [done|]. cbn. intros e' [n He']%list_elem_of_lookup.
    apply list_lookup_insert_Some in He' as [(_ & ? & _)|[_ He']]; [done|].
    apply Hs. by eapply list_elem_of_lookup_2. }
  unfold mbind, M_bind.
  pose proof (complete_spares i (ask_awaiter e) None true h _ Ho') as Hc.
  assert (ask_awaiter e <> i) as Hne by (apply (proj2 Ho); by eapply list_elem_of_lookup_2).
  specialize (Hc Hne).
  destruct (complete_awaiter None true _ _) as [[[]| |] k'] eqn:E; cbn in *; try done. by apply IH.
Qed.

Lemma orphan_sweep i h k now now' : orphan i h k -> orphan i h (sweep now now' k).2.
Proof.
  intros Ho. unfold sweep. destruct (is_stopped k); [done|].
  destruct (scan_spec now k) as (next & -> & _). destruct Ho as [Hh Hs].
  assert (orphan i h (timeout_all (expired_in now k (slots k))
    (set_slots k (left_in now k (slots k)))).2) as Ho'.
  { apply timeout_all_spares.
    - split; [done|]. cbn. intros e (s & He & Hin)%list_elem_of_fmap. case_match; [done|].
      subst s. by apply Hs.
    - intros (e & He & Hi & _)%expired_in_elem. by apply (Hs e He). }
  by destruct (timeout_all _ _) as [[[]| |] k'].
Qed.

Lemma orphan_register i h k m now timeout address :
  orphan i h k -> orphan i h (register m now timeout address k).2.
Proof.
  intros [Hh Hs]. assert (i < length (holders k))%nat as Hi by (by eapply lookup_lt_Some).
  unfold register, reserve_slot.
  repeat (case_match; simplify_eq/=); split; cbn; try done; try (by rewrite lookup_app_l).
  intros e [n He]%list_elem_of_lookup.
  apply list_lookup_insert_Some in He as [(_ & [= <-] & _)|[_ He]]; [cbn; lia|].
  apply Hs. by eapply list_elem_of_lookup_2.
Qed.

Lemma orphan_step i h k m op :
  orphan i h k -> spares i op -> orphan i h (table_apply m op k).
Proof.
  intros Ho Hs. destruct op as [now timeout address|now now'| |msg j|j]; cbn in *.
  - by apply orphan_register.
  - by apply orphan_sweep.
  - unfold stop. destruct (is_stopped k); [done|]. by apply stop_slots_spares.
  - by apply complete_spares.
  - destruct Ho as [Hh Hu]. split; [|done]. cbn. by rewrite list_lookup_alter_ne.
Qed.

Lemma orphan_run i h m ops : forall k,
  orphan i h k -> Forall (spares i) ops -> orphan i h (table_run m ops k).
Proof.
  induction ops as [|op ops IH]; intros k Ho Hf; [done|].
  apply Forall_cons in Hf as [Hop Hf]. cbn. apply IH; [|done]. by apply orphan_step.
Qed.
End orphans.
Arguments table_op Msg : clear implicits.

(** ** Properties *)
Section properties.
Context {Msg Waker : Type}.

(** The answer a poll gives for a response. *)
Definition answer {R} (downcast : Msg -> option R) (m : Msg) : R + AskError :=
  match downcast m with Some r => inl r | None => inr ResponseTypeMismatch end.

(** An ask is decided once.  Polls before the first completion are pending;
    the first completion wakes the waker of the latest poll and no later one
    wakes anything.  If it is a timeout every later poll answers [Timeout],
    whatever responses arrive; if it is a response the next poll answers it (or
    the type mismatch), whatever timeouts arrive. *)
Theorem ask_completes_once {R} `{!EqDecision Waker} (downcast : Msg -> option R) (ws : list Waker)
    (late late' : list (ask_op Msg Waker)) (w : Waker) :
  forallb is_completion late = true -> forallb is_completion late' = true ->
  let fresh := new_mutex awaiter_new in
  (ask_run downcast ((PollWith <$> ws) ++ Expire :: late ++ PollWith w :: late') fresh).1
    = replicate (length ws) (Polled (Ok Pending)) ++ Completed (Ok (last ws))
      :: replicate (length late) (Completed (Ok None))
      ++ Polled (Ok (Ready (inr Timeout))) :: replicate (length late') (Completed (Ok None))
  /\ forall m,
     (ask_run downcast ((PollWith <$> ws) ++ Respond m :: late ++ PollWith w :: late') fresh).1
     = replicate (length ws) (Polled (Ok Pending)) ++ Completed (Ok (last ws))
       :: replicate (length late) (Completed (Ok None))
       ++ Polled (Ok (Ready (answer downcast m))) :: replicate (length late') (Completed (Ok None)).
Proof.
  intros Hl Hl' fresh.
  assert (forall op, is_completion op = true ->
    forall out s, ask_apply downcast (PollWith w) (new_mutex (settled_by op)) = (Polled (Ok (Ready out)), new_mutex s) ->
    completed s = true ->
    (ask_run downcast ((PollWith <$> ws) ++ op :: late ++ PollWith w :: late') fresh).1
    = replicate (length ws) (Polled (Ok Pending)) ++ Completed (Ok (last ws))
      :: replicate (length late) (Completed (Ok None))
      ++ Polled (Ok (Ready out)) :: replicate (length late') (Completed (Ok None))) as Hrun.
  { intros op Hop out s Hpoll Hs. unfold fresh, awaiter_new. rewrite ask_run_app, polls_pending.
    cbn [fst snd]. f_equal. cbn [ask_run]. rewrite complete_fresh by done.
    rewrite ask_run_app, completions_silent by (try done; by destruct op).
    cbn [fst snd ask_run]. rewrite Hpoll, completions_silent by done. cbn.
    by destruct (last ws). }
  split; [|intros m]; (eapply Hrun; [done|reflexivity|done]).
Qed.

(** C32.  One round of the sweeper, when no awaiter's lock is poisoned (polling an
    answered ask again poisons it, [over_polling_kills_sweeper]): every ask to which a slot
    still refers (a colliding registration overwrites it,
    [slot_collision_orphans_ask]), whose deadline has passed and whose future is
    still held, is timed out unless it was answered; every ask no slot refers to,
    or whose deadline has not passed, is untouched; exactly the slots of
    unexpired, held asks stay; and the wait before the next round is at most the
    sweep cap and never passes the earliest deadline left. *)
Theorem sweep_times_out (k : AskSystem Msg Waker) (now now' : Z) :
  no_poison k -> is_stopped k = false ->
  exists wait k', sweep now now' k = (Ok (Some wait), k')
    /\ 0 <= wait <= SWEEP_CAP
    /\ (forall e, Some e ∈ slots k' -> wait <= Z.max (deadline e - now') 0)
    /\ (forall i h, holders k !! i = Some h ->
         (exists e, Some e ∈ slots k /\ ask_awaiter e = i /\ deadline e <= now) ->
         holders k' !! i = Some (expire h))
    /\ (forall i, (forall e, Some e ∈ slots k -> ask_awaiter e = i -> now < deadline e) ->
         holders k' !! i = holders k !! i)
    /\ (forall e, Some e ∈ slots k' <->
         Some e ∈ slots k /\ now < deadline e /\ is_Some (upgrade k (ask_awaiter e))).
Proof.
  intros Hp Hst. unfold sweep. rewrite Hst.
  destruct (scan_spec now k) as (next & -> & Hle & Hlt).
  destruct (timeout_all_spec (expired_in now k (slots k)) (set_slots k (left_in now k (slots k))) Hp)
    as (hs & w & -> & Hhs).
  eexists _, _. split; [done|]. unfold SWEEP_CAP. split_and!; cbn.
  - destruct next; lia.
  - destruct next; lia.
  - intros e He. destruct (Hle e He) as (d & -> & Hd). lia.
  - intros i h Hi (e & He & Hea & Hd). rewrite Hhs. cbn. rewrite Hi. cbn. f_equal.
    case_decide as Hin; [done|]. unfold expire. destruct (alive h) eqn:Ha; [|done].
    exfalso. apply Hin, expired_in_elem. exists e. split_and!; try done.
    unfold upgrade. by rewrite Hi, Ha.
  - intros i Hno. rewrite Hhs. cbn. rewrite decide_False; [by rewrite option_fmap_id|].
    intros (e & He & Hea & Hd & _)%expired_in_elem. specialize (Hno e He Hea). lia.
  - intros e. unfold left_in. rewrite list_elem_of_fmap. split.
    + intros (s & Hs & Hin). destruct (should_remove now k s) eqn:Hr; [done|]. subst s.
      cbn in Hr. apply orb_false_elim in Hr as [Hd Hu]. apply Z.leb_gt in Hd.
      apply negb_false_iff, bool_decide_eq_true in Hu. done.
    + intros (Hin & Hd & Hu). exists (Some e). split; [|done]. cbn.
      rewrite (proj2 (Z.leb_gt _ _) Hd), bool_decide_eq_true_2 by done. done.
Qed.

(** A slot collision loses a timeout.  When a second ask registers whose
    awaiter's address falls into the same slot, the first ask's entry is
    overwritten, and from then on nothing but a reply completes it: no sweep,
    however late, times it out, and neither does [stop]. *)
Theorem slot_collision_orphans_ask (instant_max : Z) (k k1 k2 : AskSystem Msg Waker)
    (now timeout address now2 timeout2 address2 : Z) (i j : nat) (ops : list (table_op Msg)) :
  (forall e, Some e ∈ slots k -> ask_awaiter e < length (holders k))%nat ->
  register instant_max now timeout address k = (Ok i, k1) ->
  register instant_max now2 timeout2 address2 k1 = (Ok j, k2) ->
  Z.land (Z.shiftr address 5) (slot_mask k) = Z.land (Z.shiftr address2 5) (slot_mask k) ->
  Forall (spares i) ops ->
  holders (table_run instant_max ops k2) !! i = Some (mkHolder (new_mutex awaiter_new) true).
Proof.
  intros Hwf H1 H2 Hcol Hops.
  enough (orphan i (mkHolder (new_mutex awaiter_new) true) k2) as Ho
    by (by apply (orphan_run i _ instant_max ops k2 Ho Hops)).
  unfold register, reserve_slot in H1. repeat (case_match; simplify_eq/=).
  unfold register, reserve_slot in H2. cbn in H2. rewrite <- Hcol in H2.
  repeat (case_match; simplify_eq/=). split; cbn.
  - rewrite lookup_app_l by (rewrite length_app; cbn; lia). by rewrite list_lookup_middle.
  - rewrite list_insert_insert_eq. intros e [n He]%list_elem_of_lookup.
    apply list_lookup_insert_Some in He as [(_ & [= <-] & _)|[_ He]]; cbn.
    + rewrite length_app. cbn. lia.
    + pose proof (Hwf e ltac:(by eapply list_elem_of_lookup_2)). lia.
Qed.
End properties.

(** ** A sweeper that dies

    An ask is answered and its future is polled past its end, which panics with
    the awaiter's lock held.  The slot still refers to the awaiter, so at the
    deadline the sweeper times it out, meets the poisoned lock and panics: the
    slots it had not reached, here a second ask's, are left for ever. *)
Definition small_table : AskSystem nat nat := mkAskSystem [None; None] 1 false [] [].

Definition over_polled : AskSystem nat nat :=
  Eval vm_compute in
  let k1 := (register 1000 0 10 0 small_table).2 in
  let k2 := (register 1000 0 10 32 k1).2 in
  let k3 := (reply 7%nat 0 k2).2 in
  let poll (h : Holder nat nat) :=
    mkHolder (poll_awaiter (Some : nat -> option nat) 1%nat (state h)).2 (alive h) in
  set_holders k3 (alter poll 0%nat (alter poll 0%nat (holders k3))) (woken k3).

(** Polling one answered ask a second time ends the sweeper thread at that
    ask's deadline, and an unrelated ask that expires in the same round is
    never timed out. *)
Theorem over_polling_kills_sweeper :
  (sweep 10 10 over_polled).1 = Panic "PoisonError"
  /\ holders (sweep 10 10 over_polled).2 !! 1%nat = Some (mkHolder (new_mutex awaiter_new) true)
  /\ slots (sweep 10 10 over_polled).2 = [None; None].
Proof. split_and!; vm_compute; reflexivity. Qed.

(** ** Witnesses *)
Lemma ask_completes_once_witness :
  (ask_run (Some : nat -> option nat) (PollWith 1%nat :: PollWith 2%nat :: Respond 7%nat :: Expire
     :: PollWith 2%nat :: []) (new_mutex awaiter_new)).1
  = [Polled (Ok Pending); Polled (Ok Pending); Completed (Ok (Some 2%nat)); Completed (Ok None);
     Polled (Ok (Ready (inl 7%nat)))].
Proof.
  apply (ask_completes_once (Some : nat -> option nat) [1%nat; 2%nat] [Expire] [] 2%nat);
    reflexivity.
Defined.

Definition one_ask : AskSystem nat nat := Eval vm_compute in (register 1000 0 10 0 small_table).2.

Lemma sweep_times_out_witness :
  exists wait k', sweep 10 10 one_ask = (Ok (Some wait), k')
    /\ holders k' !! 0%nat = Some (mkHolder (new_mutex (mkAwaiter None true true None)) true).
Proof.
  destruct (sweep_times_out one_ask 10 10) as (wait & k' & Hs & _ & _ & Hexp & _);
    [|reflexivity|].
  - intros [|i] h Hi; [injection Hi as <-; reflexivity|discriminate].
  - exists wait, k'. split; [exact Hs|]. apply (Hexp 0%nat _ eq_refl).
    exists (mkAskSlot 0 10). split; [|split; [reflexivity|cbn; lia]].
    apply elem_of_cons. left. reflexivity.
Defined.

Lemma slot_collision_orphans_ask_witness :
  holders (table_run 1000 [TSweep 500 500; TStop] (register 1000 0 10 64 one_ask).2) !! 0%nat
  = Some (mkHolder (new_mutex awaiter_new) true).
Proof.
  apply (slot_collision_orphans_ask 1000 small_table one_ask (register 1000 0 10 64 one_ask).2
    0 10 0 0 10 64 0 1); [|reflexivity|reflexivity|reflexivity|repeat constructor].
  intros e He. apply elem_of_cons in He as [He|He]; [discriminate|].
  apply elem_of_cons in He as [He|He]; [discriminate|]. by apply elem_of_nil in He.
Defined.
