(* ===== verification/AskRef.v ===== *)
(** Asking through a reference ([dignus-actor-core/src]): [ActorRef::ask] of
    [internals/actor_ref.rs], posting through the trait object of either kind of
    reference, the posting and joining helpers of [actor_base.rs] and
    [actor_await.rs], and the whole of a request and its answer. *)
From S2P Require Import Prelude MpscQueue Registry ActorCore YieldTask Ask.

Section ask_ref.
Context {A Msg Waker W : Type} `{!EqDecision Waker}.
Context `{!RunnerOps (ActorRunner A Msg) (ActorMail Msg) W}.
Variable reg : ActorRegistry (ActorRunner A Msg).
Notation asks := (AskSystem Msg Waker).

(** [impl ActorRefTrait for ActorRef] and [for AskReplyActorRef]: what a post
    through a [dyn ActorRefTrait] does. *)
Definition trait_post (target : ActorRefTrait) (m : Msg) (s : option ActorRefTrait) :
    M (asks * W) unit := fun st =>
  match target with
  | ActorRefOf r => (Ok tt, (st.1, ref_post reg r m s st.2))
  | AskReplyOf i => let '(o, k) := reply m i st.1 in (o, (k, st.2))
  end.

(** [ActorRef::ask]: register, then post with the reply reference as sender. *)
Definition ref_ask (r : ActorRef) (m : Msg) (instant_max now timeout address : Z) :
    M (asks * W) nat := fun st =>
  match register instant_max now timeout address st.1 with
  | (Ok i, k) => (Ok i, (k, ref_post reg r m (Some (AskReplyOf i)) st.2))
  | (Panic msg, k) => (Panic msg, (k, st.2))
  | (UB msg, k) => (UB msg, (k, st.2))
  end.

(** [ActorContext::post] and [ActorBase::post]: the actor is the sender. *)
Definition context_post (c : ActorContext) (target : ActorRefTrait) (m : Msg) : M (asks * W) unit :=
  fun st =>
    match self_ref_trait c with
    | Ok self => trait_post target m (Some self) st
    | Panic msg => (Panic msg, st)
    | UB msg => (UB msg, st)
    end.

Definition base_self_ref (a : Actor A) : outcome ActorRefTrait := self_ref_trait (actor_context a).
Definition base_post (a : Actor A) := context_post (actor_context a).
Definition base_verify_context (current : option Z) (a : Actor A) : outcome unit :=
  verify_context current (actor_context a).

(** [ActorAwait::join]. *)
Definition join (a : Actor A) : outcome ActorAwaiter :=
  d ← ctx_get_dispatcher (actor_context a); Ok (join_dispatcher d).

(** [AskAwaiter::poll] of the [i]-th ask. *)
Definition poll_ask {R} (downcast : Msg -> option R) (w : Waker) (i : nat) :
    M asks (Ask.Poll (R + AskError)) := fun k =>
  match holders k !! i with
  | Some h =>
      let '(o, m) := poll_awaiter downcast w (state h) in
      (o, set_holders k (<[i := mkHolder m (alive h)]> (holders k)) (woken k))
  | None => (Panic "no such ask", k)
  end.

(** ** An ask that waits *)

(** Ask [i] is held and undecided, and no slot lets it expire before [d]. *)
Definition waiting (i : nat) (d : Z) (k : asks) : Prop :=
  no_poison k
  /\ (exists wk, holders k !! i = Some (mkHolder (new_mutex (mkAwaiter None false false wk)) true))
  /\ forall e, Some e ∈ Ask.slots k -> ask_awaiter e = i -> d <= deadline e.

(** What may happen meanwhile: other asks, their answers and drops, and sweeps
    before the deadline. *)
Definition meanwhile (i : nat) (d : Z) (op : table_op Msg) : Prop :=
  spares i op /\ match op with TSweep now _ => now < d | TStop => False | _ => True end.

Lemma waiting_complete i d j r t k :
  waiting i d k -> j <> i -> waiting i d (complete_awaiter r t j k).2.
Proof.
  intros (Hp & Hh & Hs) Hne. unfold complete_awaiter. destruct (upgrade k j) as [h|] eqn:Hu; [|done].
  assert (holders k !! j = Some h) as Hj by (unfold upgrade in Hu; repeat case_match; by simplify_eq).
  pose proof (Hp j h Hj) as Hpj.
  assert (forall s' l, poisoned s' = false ->
    waiting i d (set_holders k (<[j := mkHolder s' (alive h)]> (holders k)) l)) as Hgen.
  { intros s' l Hs'. split_and!; cbn; [|by rewrite list_lookup_insert_ne|done].
    intros j' h'. cbn. intros [(-> & <- & _)|[_ Hx]]%list_lookup_insert_Some; [done|by apply (Hp j')]. }
  unfold complete, lock_unwrap. rewrite Hpj. destruct (completed (inner (state h))); cbn; by apply Hgen.
Qed.

Lemma waiting_sweep i d now now' k :
  waiting i d k -> now < d -> waiting i d (sweep now now' k).2.
Proof.
  intros (Hp & Hh & Hs) Hnow. unfold sweep. destruct (is_stopped k); [done|].
  destruct (scan_spec now k) as (next & -> & _).
  destruct (timeout_all_spec (expired_in now k (Ask.slots k)) (set_slots k (left_in now k (Ask.slots k))) Hp)
    as (hs & wk & -> & Hhs). cbn. cbn in Hhs.
  split_and!; cbn.
  - intros j h. cbn. rewrite Hhs. destruct (holders k !! j) as [h0|] eqn:Hj; [|done]. cbn.
    intros [= <-]. case_decide; [apply expire_sound|]; by apply (Hp j).
  - rewrite Hhs, decide_False; [destruct Hh as [w ->]; by exists w|].
    intros (e & He & Hi & Hd & _)%expired_in_elem. pose proof (Hs e He Hi). lia.
  - intros e (s & He & Hin)%list_elem_of_fmap. case_match; [done|]. subst s. by apply Hs.
Qed.

Lemma waiting_register i d m now timeout address k :
  waiting i d k -> waiting i d (register m now timeout address k).2.
Proof.
  intros (Hp & [wk Hh] & Hs). assert (i < length (holders k))%nat as Hi by (by eapply lookup_lt_Some).
  unfold register, reserve_slot. destruct (is_stopped k); [by split_and!; eauto|].
  destruct (_ <? _); [by split_and!; eauto|].
  assert (no_poison (set_holders k (holders k ++ [mkHolder (new_mutex awaiter_new) true]) (woken k))) as Hp'.
  { intros j h. cbn. intros [Hx|[_ Hx]]%lookup_app_Some; [by apply (Hp j)|].
    destruct (j - length (holders k))%nat; [by simplify_eq/=|done]. }
  cbn [Ask.slots set_holders]. destruct (Ask.slots k !! _); cbn; split_and!; try exact Hp'; try done; try (exists wk; cbn; by rewrite lookup_app_l).
  intros e [n He]%list_elem_of_lookup. cbn in He.
  apply list_lookup_insert_Some in He as [(_ & [= <-] & _)|[_ He]]; cbn; [lia|].
  apply Hs. by eapply list_elem_of_lookup_2.
Qed.

Lemma waiting_run i d m ops : forall k,
  waiting i d k -> Forall (meanwhile i d) ops -> waiting i d (table_run m ops k).
Proof.
  induction ops as [|op ops IH]; intros k Hw Hf; [done|]. apply Forall_cons in Hf as [[Hs Hm] Hf].
  cbn. apply IH; [|done]. destruct op as [now timeout address|now now'| |msg j|j]; cbn in *; try done.
  - by apply waiting_register.
  - by apply waiting_sweep.
  - by apply waiting_complete.
  - destruct Hw as (Hp & Hh & Hsl). split_and!; cbn; [|by rewrite list_lookup_alter_ne|done].
    intros j' h'. cbn. destruct (decide (j = j')) as [->|Hne].
    + rewrite list_lookup_alter_eq. intros (h0 & Hh0 & ->)%fmap_Some. by apply (Hp j' h0).
    + rewrite list_lookup_alter_ne by done. apply Hp.
Qed.

Lemma waiting_pending {R} (downcast : Msg -> option R) i d w k :
  waiting i d k -> (poll_ask downcast w i k).1 = Ok Ask.Pending.
Proof. intros (_ & [wk Hh] & _). unfold poll_ask. by rewrite Hh. Qed.

(** C31.  A request gets its answer: asking posts the message to the actor with
    the ask's own reply reference as the sender; whatever else happens to other
    asks, and however often the sweeper runs before the deadline, the ask stays
    pending until it is answered; and a post through the reply reference then
    decides it, so that the next poll gives the answer (or says that it has
    another type). *)
Theorem ask_answered {R} (downcast : Msg -> option R) (r : ActorRef) (m : Msg)
    instant_max now timeout address i (k k1 : asks) (w w1 : W) :
  no_poison k -> (forall e, Some e ∈ Ask.slots k -> (ask_awaiter e < length (holders k))%nat) ->
  ref_ask r m instant_max now timeout address (k, w) = (Ok i, (k1, w1)) ->
  w1 = ref_post reg r m (Some (AskReplyOf i)) w
  /\ forall ops, Forall (meanwhile i (now + timeout)) ops ->
     let k2 := table_run instant_max ops k1 in
     (forall wk, (poll_ask downcast wk i k2).1 = Ok Ask.Pending)
     /\ forall m' s w2 wk, exists k3, trait_post (AskReplyOf i) m' s (k2, w2) = (Ok tt, (k3, w2))
        /\ (poll_ask downcast wk i k3).1 = Ok (Ready (answer downcast m')).
Proof.
  intros Hp Hslots Hask. unfold ref_ask in Hask. cbn in Hask.
  destruct (register instant_max now timeout address k) as [[i'| |] k'] eqn:Hreg; [|done..].
  simplify_eq. split; [done|]. intros ops Hops k2.
  assert (waiting i (now + timeout) k1) as Hw.
  { unfold register, reserve_slot in Hreg. destruct (is_stopped k); [done|].
    destruct (_ <? _); [done|]. cbn [Ask.slots set_holders] in Hreg.
    destruct (Ask.slots k !! _); [|done]. simplify_eq/=.
    split_and!; cbn.
    - intros j h. cbn. intros [Hx|[_ Hx]]%lookup_app_Some; [by apply (Hp j)|].
      destruct (j - length (holders k))%nat; [by simplify_eq/=|done].
    - exists None. rewrite lookup_app_r, Nat.sub_diag by lia. done.
    - intros e [n He]%list_elem_of_lookup. apply list_lookup_insert_Some in He as [(_ & [= <-] & _)|[_ He]].
      + cbn. lia.
      + intros Hi. pose proof (Hslots e (list_elem_of_lookup_2 _ _ _ He)). lia. }
  apply (waiting_run i _ instant_max ops) in Hw; [|done]. split; [intros wk; by eapply waiting_pending|].
  intros m' s w2 wk. destruct Hw as (_ & [wk0 Hh] & _). fold k2 in Hh.
  unfold trait_post, reply, complete_awaiter, upgrade. cbn [fst snd]. rewrite Hh. cbn.
  eexists. split; [done|]. unfold poll_ask. cbn. rewrite list_lookup_insert_eq by (by eapply lookup_lt_Some).
  done.
Qed.
End ask_ref.

(** ** Witness: an actor that gets the request, and answers it *)
#[local] Instance mail_log : RunnerOps (ActorRunner unit Z) (ActorMail Z) (list (ActorMail Z)) := {
  enqueue_only _ m w := (true, w ++ [m]);
  schedule_self _ w := w;
  runner_kill _ w := w;
}.

Definition asked_ref : ActorRef := mkActorRef 0 0 None.
Definition asked_runner : outcome (ActorRunner unit Z) :=
  runner_new (mkActor context_new tt) 0 asked_ref 2.
Definition asked_registry : ActorRegistry (ActorRunner unit Z) :=
  mkRegistry [mkSlot 0 match asked_runner with Ok r => Some r | _ => None end] 1
    (new_mutex (mkAlloc [] 1 1)).
Definition empty_asks : AskSystem Z nat := mkAskSystem (replicate 4 None) 3 false [] [].

Definition asked : outcome nat * (AskSystem Z nat * list (ActorMail Z)) :=
  ref_ask asked_registry asked_ref 5 1000 10 50 64 (empty_asks, []).

Lemma ask_answered_witness :
  asked.2.2 = [mkMail 5 (Some (AskReplyOf 0))]
  /\ exists k3, trait_post asked_registry (AskReplyOf 0) 7 None
       (table_run 1000 [TSweep 30 30; TRegister 30 5 96; TReply 1 1] asked.2.1, asked.2.2)
       = (Ok tt, (k3, asked.2.2))
     /\ (poll_ask (@Some Z) 1%nat 0 k3).1 = Ok (Ready (inl 7)).
Proof.
  destruct (ask_answered asked_registry (@Some Z) asked_ref 5 1000 10 50 64 0%nat empty_asks asked.2.1
    [] asked.2.2) as [Hpost Hans].
  - intros j h H. discriminate H.
  - intros e He. exfalso. cbn in He. set_solver.
  - vm_compute. reflexivity.
  - destruct (Hans [TSweep 30 30; TRegister 30 5 96; TReply 1 1]) as [_ H].
    { repeat constructor; cbn; lia. }
    split; [rewrite Hpost; vm_compute; reflexivity|].
    destruct (H 7 None asked.2.2 1%nat) as (k3 & H1 & H2). exists k3. exact (conj H1 H2).
Defined.
