(* ===== verification/ActorSystem.v ===== *)
(** The actor system ([dignus-actor-core/src/actor_system.rs]): spawning,
    aliases, dead letters and shutdown over the registry, the ask system and the
    dispatchers, one call at a time ([AliasConcurrent] interleaves the steps of
    its calls).  Calling [kill] on a runner is recorded
    (what it does to the runner is [RunnerProtocol]); the runner's finalization
    comes back as [finalize_kill]. *)
From S2P Require Import Prelude MpscQueue Registry ActorCore Ask.

Definition DEFAULT_MAILBOX_CAPACITY : Z := 1024.
Definition DEFAULT_ACTOR_CAPACITY : Z := 2 ^ 16.
Definition DEFAULT_ASK_CAPACITY : Z := 2 ^ 18.

(** [std::sync::RwLock]: only a write guard poisons. *)
Definition read_unwrap {A} (m : Mutex A) : outcome A := lock_unwrap m.

Section system.
Context {A Msg Waker Time : Type}.
Notation Runner := (ActorRunner A Msg).
Notation Letter := (DeadLetterMessage Msg Time).

(** [dispatchers] holds each dispatcher's [is_stopped]; [killed] and
    [delivered] record the calls of [ActorRunner::kill] and of dead-letter
    callbacks (by number), oldest first. *)
Record ActorSystem : Type := mkSystem {
  registry : ActorRegistry Runner;
  alias_to_handle : Mutex (gmap string (Z * Z));
  dispatchers : list bool;
  is_disposed : bool;
  dead_letter_callback : option nat;
  ask_system : AskSystem Msg Waker;
  killed : list Runner;
  delivered : list (nat * Letter);
}.
Implicit Types (s : ActorSystem).

Definition set_registry s r : ActorSystem :=
  mkSystem r (alias_to_handle s) (dispatchers s) (is_disposed s) (dead_letter_callback s)
    (ask_system s) (killed s) (delivered s).
Definition set_aliases s m : ActorSystem :=
  mkSystem (registry s) m (dispatchers s) (is_disposed s) (dead_letter_callback s)
    (ask_system s) (killed s) (delivered s).
Definition set_dispatchers s l : ActorSystem :=
  mkSystem (registry s) (alias_to_handle s) l (is_disposed s) (dead_letter_callback s)
    (ask_system s) (killed s) (delivered s).
Definition set_disposed s : ActorSystem :=
  mkSystem (registry s) (alias_to_handle s) (dispatchers s) true (dead_letter_callback s)
    (ask_system s) (killed s) (delivered s).
Definition set_callback s c : ActorSystem :=
  mkSystem (registry s) (alias_to_handle s) (dispatchers s) (is_disposed s) c
    (ask_system s) (killed s) (delivered s).
Definition set_ask s k : ActorSystem :=
  mkSystem (registry s) (alias_to_handle s) (dispatchers s) (is_disposed s)
    (dead_letter_callback s) k (killed s) (delivered s).
Definition set_killed s l : ActorSystem :=
  mkSystem (registry s) (alias_to_handle s) (dispatchers s) (is_disposed s)
    (dead_letter_callback s) (ask_system s) l (delivered s).
Definition set_delivered s l : ActorSystem :=
  mkSystem (registry s) (alias_to_handle s) (dispatchers s) (is_disposed s)
    (dead_letter_callback s) (ask_system s) (killed s) l.

(** A call into a component. *)
Definition on_registry {X} (f : M (ActorRegistry Runner) X) : M ActorSystem X := fun s =>
  let '(o, r) := f (registry s) in (o, set_registry s r).
Definition on_ask {X} (f : M (AskSystem Msg Waker) X) : M ActorSystem X := fun s =>
  let '(o, k) := f (ask_system s) in (o, set_ask s k).
Definition lift {X} (o : outcome X) : M ActorSystem X := fun s => (o, s).

(** ** Construction *)
Definition with_capacities (dispatcher_thread_count actor_capacity ask_capacity : Z) :
    outcome ActorSystem :=
  if dispatcher_thread_count =? 0
  then Panic "dispatcher_thread_count must be greater than 0."
  else Ok (mkSystem (Registry.with_capacity actor_capacity) (new_mutex ∅)
             (replicate (Z.to_nat dispatcher_thread_count) false) false None
             (ask_system_new ask_capacity) [] []).
Definition with_capacity (dispatcher_thread_count actor_capacity : Z) : outcome ActorSystem :=
  with_capacities dispatcher_thread_count actor_capacity DEFAULT_ASK_CAPACITY.
Definition system_new (dispatcher_thread_count : Z) : outcome ActorSystem :=
  with_capacity dispatcher_thread_count DEFAULT_ACTOR_CAPACITY.

(** ** Dead letters *)
Definition set_dead_letter_callback (c : nat) s : ActorSystem := set_callback s (Some c).
Definition clear_dead_letter_callback s : ActorSystem := set_callback s None.
Definition dispatcher_count s : Z := Z.of_nat (length (dispatchers s)).

Definition publish (m : Letter) s : ActorSystem :=
  match dead_letter_callback s with
  | Some c => set_delivered s (delivered s ++ [(c, m)])
  | None => s
  end.

(** ** Spawning *)
Definition throw_if_disposed : M ActorSystem unit := fun s =>
  if is_disposed s then (Panic "ActorSystem is disposed.", s) else (Ok tt, s).

(** The first check holds a read guard. *)
Definition check_alias (a : option string) : M ActorSystem unit := fun s =>
  match a with
  | None => (Ok tt, s)
  | Some name =>
      match read_unwrap (alias_to_handle s) with
      | Ok m => match m !! name with
                | Some _ => (Panic "Duplicate actor alias.", s)
                | None => (Ok tt, s)
                end
      | Panic msg => (Panic msg, s)
      | UB msg => (UB msg, s)
      end
  end.

(** The second holds a write guard, which a panic poisons. *)
Definition insert_alias (a : option string) (handle : Z * Z) : M ActorSystem unit := fun s =>
  match a with
  | None => (Ok tt, s)
  | Some name =>
      match lock_unwrap (alias_to_handle s) with
      | Ok m => match m !! name with
                | Some _ => (Panic "Duplicate actor alias.", set_aliases s (mkMutex true m))
                | None => (Ok tt, set_aliases s (mkMutex false (<[name := handle]> m)))
                end
      | Panic msg => (Panic msg, s)
      | UB msg => (UB msg, s)
      end
  end.

(** The dispatcher an actor runs on. *)
Definition choose_dispatcher (dispatcher_index : option Z) (i : Z) : M ActorSystem Z := fun s =>
  let d := match dispatcher_index with
           | Some d => d
           | None => i mod Z.of_nat (length (dispatchers s))
           end in
  match dispatchers s !! Z.to_nat d with
  | Some _ => (Ok d, s)
  | None => (Panic "index out of bounds", s)
  end.

Definition register_actor (a : Actor A) (dispatcher_index : option Z) (name : option string)
    (mailbox_capacity : Z) : M ActorSystem ActorRef :=
  check_alias name ≫= λ _,
  on_registry reserve ≫= λ '(i, g),
  choose_dispatcher dispatcher_index i ≫= λ d,
  lift (runner_new a d (mkActorRef i g name) mailbox_capacity) ≫= λ runner,
  insert_alias name (i, g) ≫= λ _,
  on_registry (commit i runner) ≫= λ _,
  mret (mkActorRef i g name).

Definition spawn_with_dispatcher (a : Actor A) (dispatcher_index : Z) (name : option string)
    (mailbox_capacity : Z) : M ActorSystem ActorRef :=
  throw_if_disposed ≫= λ _,
  get_state ≫= λ s,
  if Z.of_nat (length (dispatchers s)) <=? dispatcher_index
  then panic "dispatcher_index is out of range."
  else register_actor a (Some dispatcher_index) name mailbox_capacity.

Definition spawn_with_auto_dispatcher (a : Actor A) (name : option string) (mailbox_capacity : Z) :
    M ActorSystem ActorRef :=
  throw_if_disposed ≫= λ _, register_actor a None name mailbox_capacity.

(** *** The public variants: a factory (or [Default]) builds the actor first. *)
Definition spawn_with_factory_options (factory : unit -> outcome (Actor A)) (name : option string)
    (mailbox_capacity : Z) : M ActorSystem ActorRef :=
  lift (factory tt) ≫= λ a, spawn_with_auto_dispatcher a name mailbox_capacity.
Definition spawn_with_factory factory := spawn_with_factory_options factory None DEFAULT_MAILBOX_CAPACITY.
Definition spawn_with_factory_and_alias factory name :=
  spawn_with_factory_options factory (Some name) DEFAULT_MAILBOX_CAPACITY.
Definition spawn_with_factory_and_capacity factory mailbox_capacity :=
  spawn_with_factory_options factory None mailbox_capacity.

Definition spawn_on_dispatcher_with_factory_options (factory : unit -> outcome (Actor A))
    (dispatcher_index : Z) (name : option string) (mailbox_capacity : Z) : M ActorSystem ActorRef :=
  lift (factory tt) ≫= λ a, spawn_with_dispatcher a dispatcher_index name mailbox_capacity.
Definition spawn_on_dispatcher_with_factory factory dispatcher_index :=
  spawn_on_dispatcher_with_factory_options factory dispatcher_index None DEFAULT_MAILBOX_CAPACITY.
Definition spawn_on_dispatcher_with_factory_and_alias factory dispatcher_index name :=
  spawn_on_dispatcher_with_factory_options factory dispatcher_index (Some name) DEFAULT_MAILBOX_CAPACITY.
Definition spawn_on_dispatcher_with_factory_and_capacity factory dispatcher_index mailbox_capacity :=
  spawn_on_dispatcher_with_factory_options factory dispatcher_index None mailbox_capacity.

(** [TActor::default()] is a factory without arguments. *)
Definition spawn_with_options (default : unit -> outcome (Actor A)) name mailbox_capacity :=
  spawn_with_factory_options default name mailbox_capacity.
Definition spawn default := spawn_with_options default None DEFAULT_MAILBOX_CAPACITY.
Definition spawn_with_alias default name := spawn_with_options default (Some name) DEFAULT_MAILBOX_CAPACITY.
Definition spawn_with_capacity default mailbox_capacity := spawn_with_options default None mailbox_capacity.
Definition spawn_on_dispatcher_with_options default dispatcher_index name mailbox_capacity :=
  spawn_on_dispatcher_with_factory_options default dispatcher_index name mailbox_capacity.
Definition spawn_on_dispatcher default dispatcher_index :=
  spawn_on_dispatcher_with_options default dispatcher_index None DEFAULT_MAILBOX_CAPACITY.
Definition spawn_on_dispatcher_with_alias default dispatcher_index name :=
  spawn_on_dispatcher_with_options default dispatcher_index (Some name) DEFAULT_MAILBOX_CAPACITY.
Definition spawn_on_dispatcher_with_capacity default dispatcher_index mailbox_capacity :=
  spawn_on_dispatcher_with_options default dispatcher_index None mailbox_capacity.

(** ** Lookup and finalization *)
Definition try_get_actor_ref_by_alias (name : string) : M ActorSystem (option ActorRef) := fun s =>
  match read_unwrap (alias_to_handle s) with
  | Ok m => (Ok ((λ '(i, g), mkActorRef i g (Some name)) <$> m !! name), s)
  | Panic msg => (Panic msg, s)
  | UB msg => (UB msg, s)
  end.

Definition remove_alias (name : string) : M ActorSystem unit := fun s =>
  match lock_unwrap (alias_to_handle s) with
  | Ok m => (Ok tt, set_aliases s (mkMutex false (delete name m)))
  | Panic msg => (Panic msg, s)
  | UB msg => (UB msg, s)
  end.

Definition finalize_kill (i g : Z) : M ActorSystem unit :=
  on_registry (remove i g) ≫= λ removed,
  match removed with
  | None => mret tt
  | Some runner =>
      match actor_alias runner with
      | None => mret tt
      | Some name => remove_alias name
      end
  end.

(** ** Shutdown *)
Definition kill_all (l : list Runner) : M ActorSystem unit := fun s =>
  (Ok tt, set_killed s (killed s ++ l)).

Definition begin_shutdown : M ActorSystem unit := fun s =>
  if is_disposed s then (Ok tt, s)
  else (on_ask stop ≫= λ _, on_registry snapshot_live ≫= kill_all) (set_disposed s).

Definition stop_dispatchers : M ActorSystem unit := fun s =>
  (Ok tt, set_dispatchers s ((λ _, true) <$> dispatchers s)).

Fixpoint finalize_each (l : list (Z * Z)) : M ActorSystem unit :=
  match l with
  | [] => mret tt
  | (i, g) :: rest => finalize_kill i g ≫= λ _, finalize_each rest
  end.

(** [while live_count() != 0 { yield_now() }]: at each yield other threads
    finalize the actors of one turn.  [None]: still looping when the turns end. *)
Fixpoint await_none (turns : list (list (Z * Z))) s : option (outcome unit * ActorSystem) :=
  match on_registry live_count s with
  | (Ok n, s1) =>
      if n =? 0 then Some (Ok tt, s1)
      else match turns with
           | [] => None
           | l :: rest => await_none rest (finalize_each l s1).2
           end
  | (Panic msg, s1) => Some (Panic msg, s1)
  | (UB msg, s1) => Some (UB msg, s1)
  end.

Definition dispose (turns : list (list (Z * Z))) s : option (outcome unit * ActorSystem) :=
  match begin_shutdown s with
  | (Ok _, s1) =>
      match await_none turns s1 with
      | Some (Ok _, s2) => Some (stop_dispatchers s2)
      | other => other
      end
  | (Panic msg, s1) => Some (Panic msg, s1)
  | (UB msg, s1) => Some (UB msg, s1)
  end.

End system.
Arguments ActorSystem A Msg Waker Time : clear implicits.

(** ** The registry's contract, as the system uses it *)
Section contract.
Context {R : Type}.
Implicit Types (r : ActorRegistry R) (t : Table R) (i g : Z) (x : R).

Definition after_reserve t i g : Table R :=
  mkTable (handles t) ({[ (i, g) ]} ∪ reserved t) (lost t).
Definition after_commit t i g x : Table R :=
  mkTable (<[ (i, g) := x ]> (handles t)) (reserved t) (lost t).

Lemma reserve_contract r t :
  table_rel r t -> has_room r ->
  exists i g r', reserve r = (Ok (i, g), r') /\ table_rel r' (after_reserve t i g)
    /\ (forall g', handles t !! (i, g') = None) /\ (i, g) ∉ reserved t /\ 0 <= i < capacity r
    /\ capacity r' = capacity r.
Proof.
  intros H Hroom. assert (table_count t < capacity r) as Hc by (by rewrite <- (tr_live r t H)).
  destruct (sim_reserve r t H Hc) as [Hstep Hrel]. pose proof (apply_capacity r Reserve) as Hcap.
  unfold apply in *. destruct (reserve r) as [[[i g]|msg|msg] r'] eqn:E; cbn in *;
    inversion Hstep as [i' g' ? ? Hh Hr| | |]; subst.
  exists i, g, r'. split_and!; auto; lia.
Qed.

Lemma commit_contract r t i g x :
  table_rel r (after_reserve t i g) -> (i, g) ∉ reserved t ->
  exists r', commit i x r = (Ok tt, r') /\ table_rel r' (after_commit t i g x)
    /\ capacity r' = capacity r.
Proof.
  intros H Hn. destruct (sim_commit r _ i g x H) as [Hstep Hrel]; [cbn; set_solver|].
  pose proof (apply_capacity r (Commit i g x)) as Hcap.
  unfold apply in *. destruct (commit i x r) as [[[]|msg|msg] r'] eqn:E; cbn in *;
    inversion Hstep; subst. exists r'. split_and!; try done.
  unfold after_commit. replace (reserved t) with (({[(i, g)]} ∪ reserved t) ∖ {[(i, g)]}); [done|].
  apply leibniz_equiv. set_solver.
Qed.

Definition after_remove t i g : Table R :=
  if decide ((i, g) ∈ reserved t)
  then mkTable (handles t) (reserved t ∖ {[ (i, g) ]}) (S (lost t))
  else mkTable (delete (i, g) (handles t)) (reserved t) (lost t).

Lemma remove_contract r t i g :
  table_rel r t -> 0 <= i ->
  exists r', remove i g r = (Ok (handles t !! (i, g)), r') /\ table_rel r' (after_remove t i g)
    /\ capacity r' = capacity r.
Proof.
  intros H Hi. destruct (sim_remove r t i g H Hi) as [Hstep Hrel].
  pose proof (apply_capacity r (Remove i g)) as Hcap. unfold apply in *.
  destruct (remove i g r) as [[o|msg|msg] r'] eqn:E; cbn in *; inversion Hstep; subst;
    exists r'; (split_and!; [|done|done]); [done|].
  by rewrite (reserved_not_handle r t i g g H).
Qed.

(** Slots taken by no designated handle. *)
Definition leaked t : nat := (size (reserved t) + lost t)%nat.

Lemma after_remove_handles t i g :
  handles t !! (i, g) = None -> handles (after_remove t i g) = handles t.
Proof. intros H. unfold after_remove. case_decide; [done|]. cbn. by apply delete_id. Qed.

Lemma after_remove_leaked t i g : leaked (after_remove t i g) = leaked t.
Proof.
  unfold leaked, after_remove. case_decide as Hr; cbn; [|done].
  rewrite size_difference, size_singleton by set_solver.
  enough (size (reserved t) <> 0)%nat by lia. intros Hz%size_empty_inv. set_solver.
Qed.

Lemma live_count_contract r t :
  table_rel r t -> live_count r = (Ok (Z.of_nat (size (handles t) + leaked t)), r).
Proof.
  intros H. unfold live_count, with_alloc, lock_unwrap, leaked.
  rewrite (wf_sound r (tr_wf r t H)), (tr_live r t H). unfold table_count. do 3 f_equal. lia.
Qed.
End contract.

(** ** The system's invariant *)
Section invariant.
Context {A Msg Waker Time : Type}.
Notation Sys := (ActorSystem A Msg Waker Time).
Implicit Types (s : Sys) (t : Table (ActorRunner A Msg)).

(** A live actor knows its handle, runs on one of the dispatchers, and an alias
    leads exactly to the live actor that has it. *)
Record sys_rel s t : Prop := {
  sr_table : table_rel (registry s) t;
  sr_lock : poisoned (alias_to_handle s) = false;
  sr_alias : forall a i g, inner (alias_to_handle s) !! a = Some (i, g) ->
    exists x, handles t !! (i, g) = Some x /\ actor_alias x = Some a;
  sr_runner : forall i g x, handles t !! (i, g) = Some x ->
    index (actor_ref x) = i /\ ref_generation (actor_ref x) = g
    /\ 0 <= dispatcher x < Z.of_nat (length (dispatchers s))
    /\ forall a, actor_alias x = Some a -> inner (alias_to_handle s) !! a = Some (i, g);
  sr_disp : dispatchers s <> [];
}.

Lemma sys_rel_new n cap ask s :
  0 <= n -> with_capacities n cap ask = Ok s -> sys_rel s empty_table.
Proof.
  unfold with_capacities. destruct (Z.eqb_spec n 0); [done|]. intros Hn [= <-].
  split; cbn; [apply table_rel_initial|done|..].
  - intros a i g. by rewrite lookup_empty.
  - intros i g x. by rewrite lookup_empty.
  - destruct (Z.to_nat n) eqn:E; [lia|done].
Qed.

Definition alias_free s (name : option string) : Prop :=
  match name with None => True | Some a => inner (alias_to_handle s) !! a = None end.

#[global] Instance alias_free_dec s name : Decision (alias_free s name).
Proof. destruct name; cbn; apply _. Defined.

(** Where [register_actor] puts the actor. *)
Definition placed s (dispatcher_index : option Z) (i : Z) : Z :=
  match dispatcher_index with
  | Some d => d
  | None => i mod Z.of_nat (length (dispatchers s))
  end.

Definition index_ok s (dispatcher_index : option Z) : Prop :=
  match dispatcher_index with
  | Some d => 0 <= d < Z.of_nat (length (dispatchers s))
  | None => True
  end.

Lemma placed_range s t di i :
  sys_rel s t -> index_ok s di -> 0 <= i -> 0 <= placed s di i < Z.of_nat (length (dispatchers s)).
Proof.
  intros H Hd Hi. destruct di; cbn in *; [done|]. apply Z.mod_pos_bound.
  pose proof (sr_disp s t H). destruct (dispatchers s); cbn; [done|lia].
Qed.

Lemma choose_placed s t di i :
  sys_rel s t -> index_ok s di -> 0 <= i -> choose_dispatcher di i s = (Ok (placed s di i), s).
Proof.
  intros H Hd Hi. pose proof (placed_range s t di i H Hd Hi) as Hr.
  unfold choose_dispatcher. fold (placed s di i).
  destruct (lookup_lt_is_Some_2 (dispatchers s) (Z.to_nat (placed s di i))) as [b ->]; [lia|done].
Qed.

(** Replacing the registry by one with the same designated handles. *)
Lemma sys_rel_registry s t r t' :
  sys_rel s t -> table_rel r t' -> handles t' = handles t -> sys_rel (set_registry s r) t'.
Proof. intros H Hr Hh. split; cbn; rewrite ?Hh; try apply H; done. Qed.

(** [register_actor] on a system with room, by the three ways it can go. *)
Inductive registered (a : Actor A) (di : option Z) (name : option string) (cap : Z) s t :
    outcome ActorRef * Sys -> Prop :=
| reg_duplicate :
    ~ alias_free s name -> registered a di name cap s t (Panic "Duplicate actor alias.", s)
| reg_failed i g r o :
    alias_free s name -> (forall x, o <> Ok x) ->
    (forall msg, runner_new (Msg := Msg) a (placed s di i) (mkActorRef i g name) cap = Panic msg ->
       o = Panic msg) ->
    (forall x, runner_new (Msg := Msg) a (placed s di i) (mkActorRef i g name) cap <> Ok x) ->
    0 <= i -> (i, g) ∉ reserved t -> sys_rel (set_registry s r) (after_reserve t i g) ->
    registered a di name cap s t (o, set_registry s r)
| reg_ok i g x s' :
    alias_free s name ->
    runner_new a (placed s di i) (mkActorRef i g name) cap = Ok x ->
    0 <= i -> (forall g', handles t !! (i, g') = None) ->
    dispatchers s' = dispatchers s -> is_disposed s' = is_disposed s -> killed s' = killed s ->
    inner (alias_to_handle s')
      = match name with Some n => <[ n := (i, g) ]> (inner (alias_to_handle s))
                      | None => inner (alias_to_handle s) end ->
    sys_rel s' (after_commit t i g x) ->
    registered a di name cap s t (Ok (mkActorRef i g name), s').

Lemma check_alias_free s t name :
  sys_rel s t ->
  check_alias name s
  = (if decide (alias_free s name) then Ok tt else Panic "Duplicate actor alias.", s).
Proof.
  intros H. unfold check_alias, read_unwrap, lock_unwrap. rewrite (sr_lock s t H).
  destruct name as [n|]; cbn; [|done]. destruct (inner (alias_to_handle s) !! n); cbn.
  - by rewrite decide_False.
  - by rewrite decide_True.
Qed.

(** The system after the alias and the runner have gone in. *)
Definition with_actor s (r : ActorRegistry (ActorRunner A Msg)) (name : option string) (h : Z * Z) :
    Sys :=
  set_registry
    (match name with
     | Some n => set_aliases s (mkMutex false (<[ n := h ]> (inner (alias_to_handle s))))
     | None => s
     end) r.

Lemma insert_alias_free s t name h r :
  sys_rel s t -> alias_free s name ->
  insert_alias name h (set_registry s r) = (Ok tt, with_actor s r name h).
Proof.
  intros H Hf. unfold insert_alias, lock_unwrap, with_actor. cbn. rewrite (sr_lock s t H).
  destruct name as [n|]; cbn in *; [|done]. by rewrite Hf.
Qed.

Lemma with_actor_rel s t i g x r name :
  sys_rel s t -> alias_free s name -> (forall g', handles t !! (i, g') = None) ->
  table_rel r (after_commit t i g x) -> actor_ref x = mkActorRef i g name ->
  0 <= dispatcher x < Z.of_nat (length (dispatchers s)) ->
  sys_rel (with_actor s r name (i, g)) (after_commit t i g x).
Proof.
  intros H Hf Hh Hr Hx Hd. unfold with_actor.
  assert (forall a i' g', inner (alias_to_handle s) !! a = Some (i', g') -> (i', g') <> (i, g)) as Hold.
  { intros a i' g' Ha [= -> ->]. destruct (sr_alias s t H a i g Ha) as (y & Hy & _).
    by rewrite Hh in Hy. }
  split.
  - by destruct name.
  - destruct name; [done|apply H].
  - intros a i' g' Ha. cbn in *. destruct (decide (name = Some a)) as [->|Hne].
    + cbn in Ha. rewrite lookup_insert_eq in Ha. injection Ha as <- <-. exists x.
      rewrite lookup_insert_eq. split; [done|]. unfold actor_alias. by rewrite Hx.
    + assert (inner (alias_to_handle s) !! a = Some (i', g')) as Ha'.
      { destruct name as [n|]; [|done]. cbn in Ha. by rewrite lookup_insert_ne in Ha by congruence. }
      rewrite lookup_insert_ne by (intros E; by apply (Hold a i' g' Ha')). by apply (sr_alias s t H).
  - intros i' g' y Hy. cbn in Hy. apply lookup_insert_Some in Hy as [[[= <- <-] <-]|[Hne Hy]].
    + rewrite Hx. cbn. split_and!; try done; try (destruct name; cbn; lia).
      intros a Ha. unfold actor_alias in Ha. rewrite Hx in Ha. cbn in Ha. subst name. cbn.
      by rewrite lookup_insert_eq.
    + destruct (sr_runner s t H i' g' y Hy) as (Hi & Hg & Hdi & Hal).
      split_and!; try done; try (destruct name; cbn; lia). intros a Ha. specialize (Hal a Ha).
      destruct name as [n|]; cbn in *; [|done].
      rewrite lookup_insert_ne; [done|]. intros ->. congruence.
  - destruct name; apply (sr_disp s t H).
Qed.

Lemma register_registered a di name cap s t :
  sys_rel s t -> has_room (registry s) -> index_ok s di ->
  registered a di name cap s t (register_actor a di name cap s).
Proof.
  intros H Hroom Hdi. unfold register_actor, mbind, M_bind, mret, M_ret.
  rewrite (check_alias_free s t) by done. destruct (decide (alias_free s name)) as [Hf|Hf];
    [|by constructor].
  unfold on_registry at 1.
  destruct (reserve_contract _ t (sr_table s t H) Hroom)
    as (i & g & r & -> & Hr & Hh & Hn & Hi & Hcap).
  pose proof (sys_rel_registry s t r _ H Hr eq_refl) as H1.
  rewrite (choose_placed (set_registry s r) (after_reserve t i g)) by (done || lia).
  change (placed (set_registry s r) di i) with (placed s di i). unfold lift.
  destruct (runner_new a (placed s di i) (mkActorRef i g name) cap) as [x|msg|msg] eqn:Hnew.
  - rewrite (insert_alias_free s t) by done. unfold on_registry.
    replace (registry (with_actor s r name (i, g))) with r by (by destruct name).
    destruct (commit_contract r t i g x Hr Hn) as (r2 & -> & Hr2 & _).
    destruct (runner_new_ok _ _ _ _ _ Hnew) as (Hx & Hxd & _).
    replace (set_registry (with_actor s r name (i, g)) r2) with (with_actor s r2 name (i, g))
      by (by destruct name).
    apply reg_ok with x; try done; try lia; try (by destruct name).
    apply with_actor_rel; try done. rewrite Hxd. apply (placed_range s t); (done || lia).
  - apply (reg_failed a di name cap s t i g); try done; try lia; rewrite Hnew; congruence.
  - apply (reg_failed a di name cap s t i g); try done; try lia; rewrite Hnew; congruence.
Qed.

Lemma finalize_rel i g s t :
  sys_rel s t -> 0 <= i ->
  exists s', finalize_kill i g s = (Ok tt, s') /\ sys_rel s' (after_remove t i g)
    /\ dispatchers s' = dispatchers s /\ is_disposed s' = is_disposed s
    /\ killed s' = killed s /\ capacity (registry s') = capacity (registry s).
Proof.
  intros H Hi. unfold finalize_kill, mbind, M_bind, on_registry.
  destruct (remove_contract _ t i g (sr_table s t H) Hi) as (r & -> & Hr & Hcap).
  destruct (handles t !! (i, g)) as [x|] eqn:Hx.
  2: { eexists. split; [done|]. split_and!; try done.
       apply (sys_rel_registry s t); [done..|]. by apply after_remove_handles. }
  destruct (sr_runner s t H i g x Hx) as (_ & _ & _ & Hal).
  assert (handles (after_remove t i g) = delete (i, g) (handles t)) as Hdel.
  { unfold after_remove. case_decide as Hres; [|done].
    by rewrite (reserved_not_handle _ t i g g (sr_table s t H) Hres) in Hx. }
  assert (forall m, (forall a i' g', m !! a = Some (i', g') <->
      inner (alias_to_handle s) !! a = Some (i', g') /\ (i', g') <> (i, g)) ->
    sys_rel (set_aliases (set_registry s r) (mkMutex false m)) (after_remove t i g)) as Hrel.
  { intros m Hm. split; cbn; try done; rewrite ?Hdel.
    - intros a i' g' [Ha Hne]%Hm. rewrite lookup_delete_ne by congruence. by apply (sr_alias s t H).
    - intros i' g' y [Hne Hy]%lookup_delete_Some.
      destruct (sr_runner s t H i' g' y Hy) as (? & ? & ? & Hy'). split_and!; try done; try lia.
      intros a Ha. apply Hm. split; [by apply Hy'|congruence].
    - apply (sr_disp s t H). }
  destruct (actor_alias x) as [n|] eqn:Hn.
  - unfold remove_alias, lock_unwrap. cbn. rewrite (sr_lock s t H).
    eexists. split; [done|]. split_and!; try done. apply Hrel. intros a i' g'.
    rewrite lookup_delete_Some. split.
    + intros [Hne Ha]. split; [done|]. intros [= -> ->].
      destruct (sr_alias s t H a i g Ha) as (y & Hy & Hya). congruence.
    + intros [Ha Hne]. split; [|done]. intros ->. rewrite (Hal _ eq_refl) in Ha. congruence.
  - eexists. split; [done|]. split_and!; try done.
    replace (set_registry s r) with
      (set_aliases (set_registry s r) (mkMutex false (inner (alias_to_handle s)))).
    + apply Hrel. intros a i' g'. split; [|tauto]. intros Ha. split; [done|]. intros [= -> ->].
      destruct (sr_alias s t H a i g Ha) as (y & Hy & Hya). congruence.
    + unfold set_aliases. cbn. unfold set_registry. f_equal. pose proof (sr_lock s t H).
      destruct (alias_to_handle s). by simplify_eq/=.
Qed.
End invariant.

(** ** Calls in sequence *)
Section sequences.
Context {A Msg Waker Time : Type}.
Notation Sys := (ActorSystem A Msg Waker Time).
Implicit Types (s : Sys) (t : Table (ActorRunner A Msg)).

Inductive sysop : Type :=
| SpawnAuto (a : Actor A) (name : option string) (mailbox_capacity : Z)
| SpawnOn (a : Actor A) (dispatcher_index : Z) (name : option string) (mailbox_capacity : Z)
| Finalize (i g : Z)
| BeginShutdown.

(** The state a call leaves, whether it returned or panicked. *)
Definition sys_apply (op : sysop) s : Sys :=
  match op with
  | SpawnAuto a name cap => (spawn_with_auto_dispatcher a name cap s).2
  | SpawnOn a d name cap => (spawn_with_dispatcher a d name cap s).2
  | Finalize i g => (finalize_kill i g s).2
  | BeginShutdown => (begin_shutdown s).2
  end.
Definition sys_run (ops : list sysop) s : Sys := foldl (λ s op, sys_apply op s) s ops.

(** Indices are unsigned, and nothing is spawned on a full registry: that would
    poison its lock, and later calls panic ([ActorWorld] and [AliasConcurrent]
    have such spawns among their steps). *)
Definition permitted s (op : sysop) : Prop :=
  match op with
  | SpawnAuto _ _ _ => has_room (registry s)
  | SpawnOn _ d _ _ => has_room (registry s) /\ 0 <= d
  | Finalize i _ => 0 <= i
  | BeginShutdown => True
  end.
Fixpoint permitted_run s (ops : list sysop) : Prop :=
  match ops with
  | [] => True
  | op :: rest => permitted s op /\ permitted_run (sys_apply op s) rest
  end.

Lemma registered_rel a di name cap s t res :
  sys_rel s t -> registered a di name cap s t res ->
  exists t', sys_rel res.2 t' /\ (leaked t <= leaked t')%nat.
Proof.
  intros H Hr. destruct Hr as [Hf|i g r o Hf Ho _ _ Hi Hn Hrel|i g x s' Hf Hnew Hi Hh _ _ _ _ Hrel].
  - by exists t.
  - exists (after_reserve t i g). split; [done|]. unfold leaked. cbn.
    rewrite size_union, size_singleton by set_solver. lia.
  - by exists (after_commit t i g x).
Qed.

Lemma shutdown_rel s t :
  sys_rel s t ->
  exists xs, sys_rel (begin_shutdown s).2 t
    /\ (begin_shutdown s).2 = (if is_disposed s then s else set_killed (set_ask (set_disposed s)
         (ask_system (begin_shutdown s).2)) (killed s ++ xs)).
Proof.
  intros H. unfold begin_shutdown. destruct (is_disposed s); [by exists []|].
  unfold mbind, M_bind, on_ask, on_registry, kill_all. cbn.
  destruct (stop (ask_system s)) as [[[]|msg|msg] k]; cbn.
  - destruct (snapshot_live_spec _ (tr_wf _ t (sr_table s t H))) as (xs & -> & _). cbn.
    exists xs. split; [|done]. split; apply H.
  - exists []. rewrite app_nil_r. split; [split; apply H|done].
  - exists []. rewrite app_nil_r. split; [split; apply H|done].
Qed.

Lemma sys_step op s t :
  sys_rel s t -> permitted s op ->
  exists t', sys_rel (sys_apply op s) t' /\ (leaked t <= leaked t')%nat.
Proof.
  intros H Hp. destruct op as [a name cap|a d name cap|i g|]; cbn in *.
  - unfold spawn_with_auto_dispatcher, mbind, M_bind, throw_if_disposed.
    destruct (is_disposed s); [by exists t|].
    by eapply registered_rel, (register_registered a None).
  - unfold spawn_with_dispatcher, mbind, M_bind, throw_if_disposed, get_state, panic.
    destruct (is_disposed s); [by exists t|]. destruct Hp as [Hroom Hd].
    destruct (Z.leb_spec (Z.of_nat (length (dispatchers s))) d); [by exists t|].
    by eapply registered_rel, (register_registered a (Some d)).
  - destruct (finalize_rel i g s t H Hp) as (s' & -> & Hrel & _).
    exists (after_remove t i g). by rewrite after_remove_leaked.
  - destruct (shutdown_rel s t H) as (xs & Hrel & _). by exists t.
Qed.

Lemma sys_run_rel ops : forall s t,
  sys_rel s t -> permitted_run s ops ->
  exists t', sys_rel (sys_run ops s) t' /\ (leaked t <= leaked t')%nat.
Proof.
  induction ops as [|op ops IH]; intros s t H Hp; [by exists t|]. destruct Hp as [Hop Hp].
  destruct (sys_step op s t H Hop) as (t1 & H1 & Hl1).
  destruct (IH _ t1 H1 Hp) as (t2 & H2 & Hl2). exists t2. split; [done|lia].
Qed.

(** *** Waiting for the last actor *)
Lemma finalize_each_rel l : forall s t,
  sys_rel s t -> Forall (λ h, 0 <= h.1) l ->
  exists s' t', finalize_each l s = (Ok tt, s') /\ sys_rel s' t' /\ leaked t' = leaked t
    /\ dispatchers s' = dispatchers s
    /\ forall h x, handles t' !! h = Some x <-> handles t !! h = Some x /\ h ∉ l.
Proof.
  induction l as [|[i g] l IH]; intros s t H Hl.
  - exists s, t. split_and!; try done. intros h x. set_solver.
  - apply Forall_cons in Hl as [Hi Hl]. cbn in Hi. cbn. unfold mbind, M_bind.
    destruct (finalize_rel i g s t H Hi) as (s1 & -> & H1 & Hd1 & _).
    destruct (IH s1 _ H1 Hl) as (s2 & t2 & -> & H2 & Hl2 & Hd2 & Hh2).
    exists s2, t2. split_and!; try done; [by rewrite Hl2, after_remove_leaked|congruence|].
    intros h x. rewrite Hh2. unfold after_remove. case_decide as Hr; cbn.
    + rewrite not_elem_of_cons. split; [|tauto]. intros [Hx Hn]. split_and!; try done.
      intros ->. by rewrite (reserved_not_handle _ t i g g (sr_table s t H) Hr) in Hx.
    + rewrite lookup_delete_Some, not_elem_of_cons. naive_solver.
Qed.

Lemma await_none_done turns : forall s t,
  sys_rel s t -> leaked t = 0%nat -> Forall (Forall (λ h, 0 <= h.1)) turns ->
  (forall h x, handles t !! h = Some x -> h ∈ concat turns) ->
  exists s' t', await_none turns s = Some (Ok tt, s') /\ sys_rel s' t' /\ handles t' = ∅
    /\ dispatchers s' = dispatchers s.
Proof.
  induction turns as [|l turns IH]; intros s t H Hlk Hf Hcov; cbn; unfold on_registry;
    rewrite (live_count_contract _ t (sr_table s t H)), Hlk; cbn;
    destruct (Z.eqb_spec (Z.of_nat (size (handles t) + 0)) 0) as [Hz|Hz].
  - eexists _, t. split_and!; [done|by destruct s|apply map_size_empty_inv; lia|done].
  - exfalso. apply Hz. rewrite (proj2 (map_size_empty_iff (handles t))); [done|].
    apply map_empty. intros h. apply eq_None_not_Some. intros [x Hx]. specialize (Hcov h x Hx). set_solver.
  - eexists _, t. split_and!; [done|by destruct s|apply map_size_empty_inv; lia|done].
  - apply Forall_cons in Hf as [Hfl Hf].
    replace (set_registry s (registry s)) with s by (by destruct s).
    destruct (finalize_each_rel l s t H Hfl) as (s1 & t1 & -> & H1 & Hl1 & Hd1 & Hh1).
    cbn [snd].
    destruct (IH s1 t1 H1 ltac:(lia) Hf) as (s2 & t2 & -> & H2 & He & Hd2).
    + intros h x [Hx Hn]%Hh1. specialize (Hcov h x Hx). cbn in Hcov. set_solver.
    + exists s2, t2. split_and!; try done. congruence.
Qed.

(** The loop goes on while a slot is leaked, or while an actor lives whose
    finalization is not among the turns. *)
Lemma await_none_stuck turns : forall s t,
  sys_rel s t ->
  leaked t <> 0%nat \/ (exists h x, handles t !! h = Some x /\ h ∉ concat turns) ->
  Forall (Forall (λ h, 0 <= h.1)) turns -> await_none turns s = None.
Proof.
  induction turns as [|l turns IH]; intros s t H Hlk Hf; cbn; unfold on_registry;
    rewrite (live_count_contract _ t (sr_table s t H)); cbn;
    destruct (Z.eqb_spec (Z.of_nat (size (handles t) + leaked t)) 0) as [Hz|Hz]; try done.
  1, 2: exfalso; destruct Hlk as [|(h & x & Hx & _)]; [lia|];
    assert (handles t = ∅) as E by (apply map_size_empty_inv; lia);
    by rewrite E, lookup_empty in Hx.
  apply Forall_cons in Hf as [Hfl Hf].
  replace (set_registry s (registry s)) with s by (by destruct s).
  destruct (finalize_each_rel l s t H Hfl) as (s1 & t1 & -> & H1 & Hl1 & _ & Hh1).
  cbn [snd]. apply (IH s1 t1); [done| |done]. destruct Hlk as [|(h & x & Hx & Hn)]; [left; lia|].
  right. exists h, x. cbn in Hn. split; [apply Hh1|]; set_solver.
Qed.
End sequences.
Arguments sysop A : clear implicits.

(** ** Properties *)
Section properties.
Context {A Msg Waker Time : Type}.
Notation Sys := (ActorSystem A Msg Waker Time).
Implicit Types (s : Sys).

(** A system built by [with_capacities] and used by any sequence of calls that
    never spawns on a full registry. *)
Definition reachable_sys s : Prop :=
  exists n cap ask s0 ops, 0 <= n /\ with_capacities n cap ask = Ok s0
    /\ permitted_run s0 ops /\ s = sys_run ops s0.

Lemma reachable_sys_rel s : reachable_sys s -> exists t, sys_rel s t.
Proof.
  intros (n & cap & ask & s0 & ops & Hn & H0 & Hp & ->).
  destruct (sys_run_rel ops s0 _ (sys_rel_new _ _ _ _ Hn H0) Hp) as (t & Ht & _). by exists t.
Qed.

(** An actor object that has not been spawned before. *)
Definition unused (a : Actor A) : Prop := actor_context a = context_new.

Lemma runner_new_unused (a : Actor A) d r cap :
  unused a -> 2 <= cap <= 2 ^ 62 -> exists x, runner_new (Msg := Msg) a d r cap = Ok x.
Proof.
  intros Hu Hc. unfold runner_new. rewrite Hu. cbn.
  destruct (new_rep (T := ActorMail Msg) cap Hc) as (q & -> & _). by eexists.
Qed.

Lemma register_spawns a di name cap s t :
  sys_rel s t -> has_room (registry s) -> index_ok s di -> alias_free s name -> unused a ->
  2 <= cap <= 2 ^ 62 ->
  exists i g x s', register_actor a di name cap s = (Ok (mkActorRef i g name), s')
    /\ 0 <= i /\ (forall g', handles t !! (i, g') = None)
    /\ actor_ref x = mkActorRef i g name /\ dispatcher x = placed s di i
    /\ is_disposed s' = is_disposed s /\ killed s' = killed s
    /\ inner (alias_to_handle s')
       = match name with Some n => <[ n := (i, g) ]> (inner (alias_to_handle s))
                       | None => inner (alias_to_handle s) end
    /\ sys_rel s' (after_commit t i g x).
Proof.
  intros H Hroom Hdi Hf Hu Hc.
  pose proof (register_registered a di name cap s t H Hroom Hdi) as Hr.
  inversion Hr as [Hd|i g r o _ _ _ Hno|i g x s' _ Hnew Hi Hh _ Hdis Hk Hal Hrel]; [done|..].
  - destruct (runner_new_unused a (placed s di i) (mkActorRef i g name) cap Hu Hc) as [x Hx].
    by destruct (Hno x).
  - destruct (runner_new_ok _ _ _ _ _ Hnew) as (Hx & Hd & _). exists i, g, x, s'. by split_and!.
Qed.

Lemma sys_resolve s t i g :
  sys_rel s t -> 0 <= i -> resolve (registry s) i g = handles t !! (i, g).
Proof. intros H Hi. by apply resolve_handles; [apply (sr_table s t H)|]. Qed.

Lemma lookup_alias s t name :
  sys_rel s t ->
  try_get_actor_ref_by_alias name s
  = (Ok ((λ '(i, g), mkActorRef i g (Some name)) <$> inner (alias_to_handle s) !! name), s).
Proof.
  intros H. unfold try_get_actor_ref_by_alias, read_unwrap, lock_unwrap. by rewrite (sr_lock s t H).
Qed.

(** C18.  Spawning: on a running system with room, with an unused actor, a legal
    mailbox capacity and a free alias, [spawn] returns a reference that resolves
    to the new actor's runner, which carries that reference and runs on the
    dispatcher its index selects; every other reference resolves as before; and
    the alias, if given, now finds it. *)
Theorem spawn_registers s (a : Actor A) (name : option string) (cap : Z) :
  reachable_sys s -> is_disposed s = false -> has_room (registry s) -> alias_free s name ->
  unused a -> 2 <= cap <= 2 ^ 62 ->
  exists i g x s',
    spawn_with_factory_options (λ _, Ok a) name cap s = (Ok (mkActorRef i g name), s')
    /\ 0 <= i /\ resolve (registry s') i g = Some x
    /\ actor_ref x = mkActorRef i g name
    /\ dispatcher x = i mod Z.of_nat (length (dispatchers s))
    /\ (forall i' g', 0 <= i' -> (i', g') <> (i, g) ->
         resolve (registry s') i' g' = resolve (registry s) i' g')
    /\ (forall n, name = Some n ->
         try_get_actor_ref_by_alias n s' = (Ok (Some (mkActorRef i g name)), s')).
Proof.
  intros [t H]%reachable_sys_rel Hdis Hroom Hf Hu Hc.
  destruct (register_spawns a None name cap s t H Hroom I Hf Hu Hc)
    as (i & g & x & s' & He & Hi & Hh & Hx & Hd & _ & _ & Hal & H').
  exists i, g, x, s'. split_and!; try done.
  - unfold spawn_with_factory_options, spawn_with_auto_dispatcher, mbind, M_bind, lift,
      throw_if_disposed. by rewrite Hdis.
  - rewrite (sys_resolve s' _ i g H' Hi). apply lookup_insert_eq.
  - intros i' g' Hi' Hne. rewrite (sys_resolve s' _ i' g' H' Hi'), (sys_resolve s t i' g' H Hi').
    by apply lookup_insert_ne.
  - intros n ->. rewrite (lookup_alias s' _ n H'), Hal, lookup_insert_eq. done.
Qed.

(** No slot is taken without an actor in it. *)
Definition no_leak s : Prop := exists t, sys_rel s t /\ leaked t = 0%nat.

Lemma begin_shutdown_kills s t :
  sys_rel s t -> is_disposed s = false -> no_poison (ask_system s) ->
  exists s1 xs, begin_shutdown s = (Ok tt, s1) /\ sys_rel s1 t /\ killed s1 = killed s ++ xs
    /\ dispatchers s1 = dispatchers s /\ registry s1 = registry s /\ is_disposed s1 = true
    /\ alias_to_handle s1 = alias_to_handle s
    /\ forall x, x ∈ xs <-> exists i g, 0 <= i /\ resolve (registry s) i g = Some x.
Proof.
  intros H Hd Hp. destruct (stop_ok (ask_system s) Hp) as [k Hk].
  destruct (snapshot_live_spec _ (tr_wf _ t (sr_table s t H))) as (xs & Hxs & Hin).
  unfold begin_shutdown. rewrite Hd. unfold mbind, M_bind, on_ask, on_registry, kill_all. cbn.
  rewrite Hk. cbn. rewrite Hxs. cbn. eexists _, xs. split_and!; try done. split; apply H.
Qed.

(** C19.  Shutdown of a system that has not been shut down, in which no spawn
    leaked its slot ([failed_spawn_blocks_dispose]) and no lock (the registry's,
    the alias map's, an awaiter's) is poisoned, with no spawn under way
    ([spawn_escapes_shutdown]): [dispose] kills exactly the actors that are live,
    and once each of them has been finalized, in whatever order and however their
    finalizations are spread over the waiting, it stops every dispatcher and
    returns, with no actor and no alias left. *)
Theorem dispose_completes s (turns : list (list (Z * Z))) :
  no_leak s -> is_disposed s = false -> no_poison (ask_system s) ->
  Forall (Forall (λ h, 0 <= h.1)) turns ->
  (forall i g x, 0 <= i -> resolve (registry s) i g = Some x -> (i, g) ∈ concat turns) ->
  exists s1 s2 xs, begin_shutdown s = (Ok tt, s1) /\ killed s1 = killed s ++ xs
    /\ (forall x, x ∈ xs <-> exists i g, 0 <= i /\ resolve (registry s) i g = Some x)
    /\ dispose turns s = Some (Ok tt, s2)
    /\ Forall (λ stopped, stopped = true) (dispatchers s2)
    /\ length (dispatchers s2) = length (dispatchers s)
    /\ (forall i g, 0 <= i -> resolve (registry s2) i g = None)
    /\ inner (alias_to_handle s2) = ∅.
Proof.
  intros (t & H & Hlk) Hd Hp Hf Hcov.
  destruct (begin_shutdown_kills s t H Hd Hp) as (s1 & xs & Hb & H1 & Hk & Hds & Hreg & _ & _ & Hin).
  destruct (await_none_done turns s1 t H1 Hlk Hf) as (s2 & t2 & Hw & H2 & He & Hd2).
  { intros [i g] x Hx. pose proof (proj1 (tr_handles _ t (sr_table s t H) i g x) Hx) as [Hi _].
    apply (Hcov i g x); [lia|]. by rewrite (sys_resolve s t) by (done || lia). }
  exists s1, (stop_dispatchers s2).2, xs. unfold dispose. rewrite Hb, Hw.
  split_and!; try done; cbn.
  - apply Forall_fmap, Forall_forall. done.
  - rewrite length_fmap. congruence.
  - intros i g Hi. by rewrite (sys_resolve s2 t2), He, lookup_empty.
  - apply map_empty. intros a. apply eq_None_not_Some. intros [[i g] Ha].
    destruct (sr_alias s2 t2 H2 a i g Ha) as (x & Hx & _). by rewrite He, lookup_empty in Hx.
Qed.

(** C40.  A spawn that fails late blocks shutdown.  With an illegal mailbox
    capacity the spawn panics after it has reserved its slot; the slot stays
    counted as live, so whatever is called afterwards and whichever actors are
    finalized, the waiting loop of [dispose] and [shutdown_timeout] never ends. *)
Theorem failed_spawn_blocks_dispose s (a : Actor A) (name : option string) (cap : Z)
    (ops : list (sysop A)) (turns : list (list (Z * Z))) :
  reachable_sys s -> is_disposed s = false -> has_room (registry s) -> alias_free s name ->
  unused a -> cap < 2 ->
  let '(o, s1) := spawn_with_factory_options (λ _, Ok a) name cap s in
  o = Panic "capacity must be greater than 1."
  /\ (permitted_run s1 ops -> Forall (Forall (λ h, 0 <= h.1)) turns ->
      await_none turns (sys_run ops s1) = None).
Proof.
  intros [t H]%reachable_sys_rel Hdis Hroom Hf Hu Hc.
  unfold spawn_with_factory_options, spawn_with_auto_dispatcher, mbind, M_bind, lift, throw_if_disposed.
  rewrite Hdis. pose proof (register_registered a None name cap s t H Hroom I) as Hr.
  assert (forall d r, runner_new (Msg := Msg) a d r cap = Panic "capacity must be greater than 1.") as Hn.
  { intros d r. unfold runner_new, MpscQueue.new. rewrite Hu. cbn. by rewrite (proj2 (Z.ltb_lt cap 2) Hc). }
  destruct Hr as [Hd|i g r o _ _ Ho _ Hi Hnr Hrel|i g x s' _ Hnew _ _ _ _ _ _ _];
    [done| |by rewrite Hn in Hnew].
  split; [by apply Ho|]. intros Hp Hturns.
  destruct (sys_run_rel ops _ _ Hrel Hp) as (t' & Ht' & Hl).
  apply (await_none_stuck turns _ t'); [done| |done]. left. unfold leaked in *. cbn in Hl.
  rewrite size_union, size_singleton in Hl by set_solver. lia.
Qed.

(** A spawn can escape shutdown.  The disposed check and the registration
    are separate: when [begin_shutdown] runs between them the registration
    still succeeds, its actor is not among the killed ones and no later
    shutdown call kills it; [dispose] waits for ever unless the actor finishes
    by itself. *)
Theorem spawn_escapes_shutdown s (a : Actor A) (cap : Z) (turns : list (list (Z * Z))) :
  reachable_sys s -> is_disposed s = false -> has_room (registry s) -> unused a ->
  2 <= cap <= 2 ^ 62 -> no_poison (ask_system s) ->
  exists i g s', register_actor a None None cap (begin_shutdown s).2 = (Ok (mkActorRef i g None), s')
    /\ (exists x, resolve (registry s') i g = Some x /\ killed s' = killed (begin_shutdown s).2
         /\ resolve (registry s) i g = None)
    /\ begin_shutdown s' = (Ok tt, s')
    /\ (Forall (Forall (λ h, 0 <= h.1)) turns -> (i, g) ∉ concat turns -> await_none turns s' = None).
Proof.
  intros [t H]%reachable_sys_rel Hdis Hroom Hu Hc Hp.
  destruct (begin_shutdown_kills s t H Hdis Hp)
    as (s1 & xs & Hb & H1 & Hk & Hds & Hreg & Hdis1 & _ & _).
  rewrite Hb. cbn [snd]. rewrite <- Hreg in Hroom.
  destruct (register_spawns a None None cap s1 t H1 Hroom I I Hu Hc)
    as (i & g & x & s' & He & Hi & Hh & _ & _ & Hd' & Hk' & _ & H').
  exists i, g, s'. split_and!; [done|..].
  - exists x. split_and!; [|done|by rewrite (sys_resolve s t)].
    rewrite (sys_resolve s' _ i g H' Hi). apply lookup_insert_eq.
  - unfold begin_shutdown. by rewrite Hd', Hdis1.
  - intros Hf Hn. apply (await_none_stuck turns s' _ H'); [|done]. right.
    exists (i, g), x. split; [apply lookup_insert_eq|done].
Qed.
End properties.

(** ** Witnesses *)
Definition demo_actor : Actor nat := mkActor context_new 0%nat.
Definition demo_sys : ActorSystem nat nat nat nat :=
  mkSystem (Registry.with_capacity 4) (new_mutex ∅) [false; false] false None (ask_system_new 0) [] [].
Definition demo_spawned : ActorSystem nat nat nat nat :=
  sys_run [SpawnAuto demo_actor (Some "a") 4] demo_sys.

Lemma demo_sys_reachable : reachable_sys demo_sys.
Proof. exists 2, 4, 0, demo_sys, []. split_and!; try done; lia. Qed.

Lemma demo_room : has_room (registry demo_sys).
Proof. reflexivity. Qed.

Lemma demo_spawned_reachable : reachable_sys demo_spawned.
Proof.
  exists 2, 4, 0, demo_sys, [SpawnAuto demo_actor (Some "a") 4].
  split_and!; [lia|done|split; [apply demo_room|exact I]|done].
Qed.

Lemma demo_ask_sound : no_poison (ask_system demo_sys).
Proof. intros i h Hi. change (@nil (Holder nat nat) !! i = Some h) in Hi. done. Qed.

Lemma demo_spawned_rel :
  exists x, sys_rel demo_spawned (after_commit empty_table 0 1 x) /\ is_disposed demo_spawned = false
    /\ no_poison (ask_system demo_spawned).
Proof.
  destruct (register_spawns demo_actor None (Some "a") 4 demo_sys empty_table)
    as (i & g & x & s' & He & _ & _ & _ & _ & Hd & _ & _ & H');
    [by apply (sys_rel_new 2 4 0)|apply demo_room|done|done|done|lia|].
  assert (demo_spawned = s') as ->.
  { change demo_spawned with (register_actor demo_actor None (Some "a") 4 demo_sys).2. by rewrite He. }
  assert ((register_actor demo_actor None (Some "a") 4 demo_sys).1 = Ok (mkActorRef 0 1 (Some "a"))) as E
    by (vm_compute; reflexivity).
  rewrite He in E. injection E as -> ->. exists x. split_and!; [done|by rewrite Hd|].
  assert (ask_system s' = ask_system demo_sys) as ->; [|apply demo_ask_sound].
  change s' with (Ok (mkActorRef 0 1 (Some "a")), s').2. rewrite <- He. reflexivity.
Qed.

Lemma spawn_registers_witness :
  exists i g x s',
    spawn_with_factory_options (λ _, Ok demo_actor) (Some "a") 4 demo_sys
      = (Ok (mkActorRef i g (Some "a")), s')
    /\ resolve (registry s') i g = Some x.
Proof.
  destruct (spawn_registers demo_sys demo_actor (Some "a") 4) as (i & g & x & s' & Hs & _ & Hr & _);
    [apply demo_sys_reachable|reflexivity|apply demo_room|reflexivity|reflexivity|lia|].
  exists i, g, x, s'. split; [exact Hs|exact Hr].
Defined.

Lemma dispose_completes_witness :
  exists s2, dispose [[]; [(0, 1)]] demo_spawned = Some (Ok tt, s2)
    /\ inner (alias_to_handle s2) = ∅.
Proof.
  destruct demo_spawned_rel as (x & H & Hd & Hp).
  destruct (dispose_completes demo_spawned [[]; [(0, 1)]])
    as (s1 & s2 & xs & _ & _ & _ & Hs & _ & _ & _ & Ha).
  - exists (after_commit empty_table 0 1 x). split; [exact H|reflexivity].
  - exact Hd.
  - exact Hp.
  - repeat constructor; cbn; lia.
  - intros i g y Hi Hy. rewrite (sys_resolve _ _ i g H Hi) in Hy.
    unfold after_commit in Hy; cbn [handles empty_table] in Hy.
    apply lookup_insert_Some in Hy as [[[= <- <-] _]|[_ Hy]]; [set_solver|done].
  - exists s2. split; [exact Hs|exact Ha].
Defined.

Lemma failed_spawn_blocks_dispose_witness :
  (spawn_with_factory_options (λ _, Ok demo_actor) None 1 demo_sys).1
    = Panic "capacity must be greater than 1."
  /\ await_none [[]; [(0, 1)]; []] (spawn_with_factory_options (λ _, Ok demo_actor) None 1 demo_sys).2
     = None.
Proof.
  pose proof (failed_spawn_blocks_dispose demo_sys demo_actor None 1 [] [[]; [(0, 1)]; []]
    demo_sys_reachable eq_refl demo_room I eq_refl ltac:(lia)) as H.
  destruct (spawn_with_factory_options (λ _, Ok demo_actor) None 1 demo_sys) as [o s1].
  destruct H as [Ho Hs]. split; [exact Ho|]. apply Hs; [exact I|]. repeat constructor; cbn; lia.
Defined.

Lemma spawn_escapes_shutdown_witness :
  exists i g s', register_actor demo_actor None None 4 (begin_shutdown demo_sys).2
    = (Ok (mkActorRef i g None), s') /\ await_none [] s' = None.
Proof.
  destruct (spawn_escapes_shutdown demo_sys demo_actor 4 []) as (i & g & s' & Hs & _ & _ & Hw);
    [apply demo_sys_reachable|reflexivity|apply demo_room|reflexivity|lia|apply demo_ask_sound|].
  exists i, g, s'. split; [exact Hs|]. apply Hw; [constructor|]. intros Hin. inversion Hin.
Defined.
