(* ===== verification/AliasConcurrent.v ===== *)
(** Aliases under concurrency: [register_actor] and [finalize_kill] of
    [dignus-actor-core/src/actor_system.rs] as sequences of steps that any number
    of threads interleave.  A step is one access to the registry (atomic by
    [RegistryLinear]) or to the alias map under its lock; what a thread does
    between two such accesses is its own.  An alias is visible before its actor
    is committed and after its actor is out of the registry; the theorems say
    that it is never anything else. *)
From S2P Require Import Prelude MpscQueue Registry ActorCore Ask ActorSystem.

Section machine.
Context {A Msg Waker Time : Type}.
Notation Sys := (ActorSystem A Msg Waker Time).
Notation Runner := (ActorRunner A Msg).
Implicit Types (s : Sys) (x : Runner).

(** Where a thread is: in no call; past the first alias check; with a reserved
    slot and a runner; past the second check, its alias inserted; its actor out
    of the registry, the alias still there. *)
Inductive apc : Type :=
| Idle
| Checked (a : Actor A) (dispatcher_index : option Z) (name : option string) (mailbox_capacity : Z)
| Built (i g : Z) (x : Runner)
| Inserted (i g : Z) (x : Runner)
| Removed (name : string) (i g : Z).

Inductive acall : Type :=
| Register (a : Actor A) (dispatcher_index : option Z) (name : option string) (mailbox_capacity : Z)
| FinalizeKill (i g : Z).

(** The first step of a call. *)
Definition begin_call (c : acall) : M Sys apc :=
  match c with
  | Register a di name cap => check_alias name ≫= λ _, mret (Checked a di name cap)
  | FinalizeKill i g =>
      on_registry (remove i g) ≫= λ removed,
      match (x ← removed; actor_alias x) with
      | Some name => mret (Removed name i g)
      | None => mret Idle
      end
  end.

(** The next. *)
Definition advance (p : apc) : M Sys apc :=
  match p with
  | Idle => mret Idle
  | Checked a di name cap =>
      on_registry reserve ≫= λ '(i, g),
      choose_dispatcher di i ≫= λ d,
      lift (runner_new a d (mkActorRef i g name) cap) ≫= λ x, mret (Built i g x)
  | Built i g x => insert_alias (actor_alias x) (i, g) ≫= λ _, mret (Inserted i g x)
  | Inserted i g x => on_registry (commit i x) ≫= λ _, mret Idle
  | Removed name i g => remove_alias name ≫= λ _, mret Idle
  end.

Record Aliasing : Type := mkAliasing { sys : Sys; threads : list apc }.
Implicit Types (w : Aliasing).

(** A panic ends the call. *)
Definition took (k : nat) (r : outcome apc * Sys) w : option Aliasing :=
  match r with
  | (Ok p, s) => Some (mkAliasing s (<[k := p]> (threads w)))
  | (Panic _, s) => Some (mkAliasing s (<[k := Idle]> (threads w)))
  | (UB _, _) => None
  end.

(** A runner finalizes itself, through its own handle, while it is in the
    registry. *)
Definition may_begin (c : acall) s : bool :=
  match c with
  | Register _ _ _ _ => true
  | FinalizeKill i g => (0 <=? i) && bool_decide (is_Some (resolve (registry s) i g))
  end.

Inductive aaction : Type := Begin (k : nat) (c : acall) | Advance (k : nat).

Definition astep (a : aaction) w : option Aliasing :=
  match a with
  | Begin k c =>
      match threads w !! k with
      | Some Idle => if may_begin c (sys w) then took k (begin_call c (sys w)) w else None
      | _ => None
      end
  | Advance k =>
      match threads w !! k with
      | Some Idle | None => None
      | Some p => took k (advance p (sys w)) w
      end
  end.

(** Undisturbed, the steps are the calls. *)
Lemma register_steps a di name cap s :
  (begin_call (Register a di name cap) ≫= λ p, advance p ≫= λ p, advance p ≫= advance) s
  = (register_actor a di name cap ≫= λ _, mret Idle) s.
Proof.
  unfold begin_call, register_actor, advance, mbind, M_bind, lift, on_registry.
  destruct (check_alias name s) as [[[]|e|e] s1]; [|done..]. cbn.
  destruct (reserve (registry s1)) as [[[i g]|e|e] r]; [|done..].
  destruct (choose_dispatcher di i _) as [[d|e|e] s2]; [|done..].
  destruct (runner_new a d (mkActorRef i g name) cap) as [x|e|e] eqn:Hx; [|done..]. cbn.
  apply runner_new_ok in Hx as [Hx _]. unfold actor_alias. rewrite Hx. cbn.
  destruct (insert_alias name (i, g) s2) as [[[]|e|e] s3]; [|done..]. cbn.
  by destruct (commit i x (registry s3)) as [[[]|e|e] r3].
Qed.

Lemma finalize_steps i g s :
  (begin_call (FinalizeKill i g) ≫= advance) s = (finalize_kill i g ≫= λ _, mret Idle) s.
Proof.
  unfold begin_call, finalize_kill, mbind, M_bind. destruct (on_registry (remove i g) s) as [[[x|]|e|e] s1]; try done.
  cbn. destruct (actor_alias x); [|done]. cbn. unfold mbind, M_bind. by destruct (remove_alias _ s1) as [[[]|e|e] s2].
Qed.

(** ** The invariant *)
Definition lives s i g x : Prop := 0 <= i /\ slot_at (registry s) i = Some (mkSlot g (Some x)).

(** The slot a thread has reserved and not yet committed. *)
Definition building (p : apc) : option (Z * Z * Runner) :=
  match p with Built i g x | Inserted i g x => Some (i, g, x) | _ => None end.

Definition named x (n : string) : Prop := actor_alias x = Some n.

(** Who has an alias: a live actor, a spawn about to commit, or a finalization
    about to remove it; never two of them. *)
Record alias_inv s (th : list apc) : Prop := {
  al_sound : forall n i g, inner (alias_to_handle s) !! n = Some (i, g) ->
    (exists x, lives s i g x /\ named x n) \/ (exists k x, th !! k = Some (Inserted i g x) /\ named x n)
    \/ (exists k, th !! k = Some (Removed n i g));
  al_live : forall i g x n, lives s i g x -> named x n -> inner (alias_to_handle s) !! n = Some (i, g);
  al_inserted : forall k i g x n, th !! k = Some (Inserted i g x) -> named x n ->
    inner (alias_to_handle s) !! n = Some (i, g);
  al_removed : forall k n i g, th !! k = Some (Removed n i g) ->
    inner (alias_to_handle s) !! n = Some (i, g)
    /\ (forall i' g' x, lives s i' g' x -> ~ named x n)
    /\ (forall k' i' g' x, th !! k' = Some (Inserted i' g' x) -> ~ named x n)
    /\ (forall k' i' g', th !! k' = Some (Removed n i' g') -> k' = k);
}.

Record ainv s (th : list apc) : Prop := {
  ai_wf : poisoned (alloc (registry s)) = false -> Registry.wf (registry s);
  ai_slots : Z.of_nat (length (Registry.slots (registry s))) = Registry.capacity (registry s);
  ai_runner : forall i g x, lives s i g x -> index (actor_ref x) = i /\ ref_generation (actor_ref x) = g;
  ai_busy : forall k p i g x, th !! k = Some p -> building p = Some (i, g, x) ->
    0 <= i /\ slot_at (registry s) i = Some (mkSlot g None) /\ taken (registry s) i
    /\ index (actor_ref x) = i /\ ref_generation (actor_ref x) = g;
  ai_apart : forall k k' p p' i g x g' x', th !! k = Some p -> th !! k' = Some p' ->
    building p = Some (i, g, x) -> building p' = Some (i, g', x') -> k = k';
  ai_alias : poisoned (alias_to_handle s) = false -> alias_inv s th;
}.

(** A thread that holds neither a slot nor an alias. *)
Definition neutral (p : apc) : Prop := match p with Idle | Checked _ _ _ _ => True | _ => False end.
Definition holding (p : apc) : Prop := match p with Inserted _ _ _ | Removed _ _ _ => True | _ => False end.

Lemma building_neutral p : neutral p -> building p = None /\ ~ holding p.
Proof. intros H. destruct p; try done; by split; [|intros []]. Qed.

Lemma insert_thread (th : list apc) k p k' q :
  <[k := p]> th !! k' = Some q -> (k' = k /\ q = p) \/ (k' <> k /\ th !! k' = Some q).
Proof. intros [(-> & -> & _)|[? ?]]%list_lookup_insert_Some; auto. Qed.

Ltac thread H := apply insert_thread in H as [[-> H]|[? H]].

(** It lets go of what it holds, which was nothing but perhaps a slot. *)
Lemma ainv_neutral s th k p p' :
  ainv s th -> th !! k = Some p -> neutral p' -> (poisoned (alias_to_handle s) = false -> ~ holding p) ->
  ainv s (<[k := p']> th).
Proof.
  intros [H1 H2 H3 H4 H5 H6] Hk Hn Hh. destruct (building_neutral p' Hn) as [Hb Hh'].
  split; try done.
  - intros k' q i g x Hq Hbq. thread Hq; [congruence|eauto].
  - intros k1 k2 p1 p2 i g x g' x' Hq1 Hq2 B1 B2. thread Hq1; [congruence|]. thread Hq2; [congruence|eauto].
  - intros Hp. specialize (Hh Hp). destruct (H6 Hp) as [S1 S2 S3 S4].
    assert (forall k' q, th !! k' = Some q -> holding q -> <[k := p']> th !! k' = Some q) as Hkeep.
    { intros k' q Hq Hhq. rewrite list_lookup_insert_ne; [done|]. intros <-. congruence. }
    split; [| done| |].
    + intros n i g Hn'. destruct (S1 n i g Hn') as [?|[(k' & x & Hq & ?)|(k' & Hq)]];
        [by left|right; left; exists k', x|right; right; exists k']; [split; [|done]|]; by apply Hkeep.
    + intros k' i g x n Hq. thread Hq; [by destruct Hh'; rewrite <- Hq|eauto].
    + intros k' n i g Hq. thread Hq; [by destruct Hh'; rewrite <- Hq|]. destruct (S4 k' n i g Hq) as (? & ? & R1 & R2).
      split_and!; [done|done| |].
      * intros k2 i' g' x Hq2. thread Hq2; [by destruct Hh'; rewrite <- Hq2|eauto].
      * intros k2 i' g' Hq2. thread Hq2; [by destruct Hh'; rewrite <- Hq2|eauto].
Qed.

(** ** The steps *)

(** Only unused slots, or one more, change: nobody notices. *)
Lemma ainv_registry s th r :
  ainv s th -> (poisoned (alloc r) = false -> Registry.wf r) -> Z.of_nat (length (Registry.slots r)) = Registry.capacity r ->
  (forall i g x, lives (set_registry s r) i g x <-> lives s i g x) ->
  (forall k p i g x, th !! k = Some p -> building p = Some (i, g, x) ->
     slot_at r i = slot_at (registry s) i /\ taken r i) ->
  ainv (set_registry s r) th.
Proof.
  intros [H1 H2 H3 H4 H5 H6] Hw Hs HL HB. split; try done.
  - intros i g x Hx%HL. by apply H3.
  - intros k p i g x Hk Hb. destruct (H4 k p i g x Hk Hb) as (? & E & _ & ?).
    destruct (HB k p i g x Hk Hb) as [Es Ht]. cbn. by rewrite Es.
  - intros Hp. destruct (H6 Hp) as [S1 S2 S3 S4]. split; cbn.
    + intros n i g Hn. destruct (S1 n i g Hn) as [(x & Hx & ?)|?]; [left; exists x; by rewrite HL|by right].
    + intros i g x n Hx%HL. by apply S2.
    + done.
    + intros k n i g Hk. destruct (S4 k n i g Hk) as (? & R1 & ? & ?). split_and!; try done.
      intros i' g' x Hx%HL. by eapply R1.
Qed.

Lemma ainv_reserve s th o r :
  ainv s th -> reserve (registry s) = (o, r) ->
  ainv (set_registry s r) th
  /\ forall i g, o = Ok (i, g) -> 0 <= i /\ slot_at r i = Some (mkSlot g None) /\ taken r i
       /\ forall k p g' x, th !! k = Some p -> building p <> Some (i, g', x).
Proof.
  intros HI E. pose proof HI as [H1 H2 H3 H4 H5 H6].
  assert (forall r', Registry.slots r' = Registry.slots (registry s) -> inner (alloc r') = inner (alloc (registry s)) ->
    Registry.capacity r' = Registry.capacity (registry s) -> poisoned (alloc r') = true -> ainv (set_registry s r') th) as Hsame.
  { intros r' Es Ei Ec Ep. apply ainv_registry; [done|congruence|congruence|..].
    - intros i g x. unfold lives, slot_at. cbn. by rewrite Es.
    - intros k p i g x Hk Hb. destruct (H4 k p i g x Hk Hb) as (_ & _ & Ht & _). unfold slot_at, taken in *.
      by rewrite Es, Ei. }
  destruct (poisoned (alloc (registry s))) eqn:Ep.
  { unfold reserve, with_alloc, lock_unwrap in E. rewrite Ep in E. injection E as <- <-. by split; [apply Hsame|]. }
  specialize (H1 eq_refl).
  assert (has_room (registry s) \/ ~ has_room (registry s)) as [Hroom|Hfull] by (unfold has_room; lia).
  2: { rewrite (reserve_full _ H1 Hfull) in E. injection E as <- <-. by split; [apply Hsame|]. }
  destruct (reserve_some _ H1 Hroom) as (i & sl & al & Er & Hs & Hos & Hi & Hnt & Ht & _ & Htk & HW).
  rewrite Er in E. injection E as <- <-. pose proof (lookup_lt_Some _ _ _ Hs) as Hlt.
  assert (forall k p i' g x, th !! k = Some p -> building p = Some (i', g, x) -> i' <> i) as Hne.
  { intros k p i' g x Hk Hb ->. by destruct (H4 k p i g x Hk Hb) as (_ & _ & ? & _). }
  set (r1 := set_alloc _ al) in *.
  assert (forall j, 0 <= j -> j <> i -> slot_at r1 j = slot_at (registry s) j) as Hother.
  { intros j Hj Hji. unfold r1, slot_at. cbn. rewrite list_lookup_insert_ne; [done|lia]. }
  assert (slot_at r1 i = Some (mkSlot (wrap_u32 (generation sl + 1)) None)) as Hnew.
  { unfold r1, slot_at. cbn. by apply list_lookup_insert_eq. }
  split.
  - apply ainv_registry; [done|done|apply HW|..].
    + intros j g x. unfold lives. cbn. destruct (decide (j = i)) as [->|Hji].
      * rewrite Hnew, Hs. split; intros [_ E]; [done|]. destruct sl. by simplify_eq/=.
      * split; intros [Hj E]; (split; [done|]); [rewrite <- Hother|rewrite Hother]; done.
    + intros k p j g x Hk Hb. destruct (H4 k p j g x Hk Hb) as (Hj & _ & Htj & _).
      pose proof (Hne _ _ _ _ _ Hk Hb). split; [by apply Hother|by apply Htk].
  - intros i' g [= <- <-]. split_and!; [lia|done|done|]. intros k p g' x Hk Hb. by apply (Hne k p i g' x).
Qed.

(** A thread has built its runner. *)
Lemma ainv_built s th k a di name cap i g x :
  ainv s th -> th !! k = Some (Checked a di name cap) -> 0 <= i ->
  slot_at (registry s) i = Some (mkSlot g None) -> taken (registry s) i ->
  (forall k' p g' x', th !! k' = Some p -> building p <> Some (i, g', x')) ->
  index (actor_ref x) = i -> ref_generation (actor_ref x) = g ->
  ainv s (<[k := Built i g x]> th).
Proof.
  intros [H1 H2 H3 H4 H5 H6] Hk Hi Hs Ht Hno Hx Hg. split; try done.
  - intros k' q i' g' x' Hq Hb. thread Hq; [|eauto]. subst q. cbn in Hb. by injection Hb as <- <- <-.
  - intros k1 k2 p1 p2 j g1 x1 g2 x2 Hq1 Hq2 B1 B2. thread Hq1; thread Hq2; [done| | |eauto].
    + subst p1. cbn in B1. injection B1 as <- _ _. by destruct (Hno k2 p2 g2 x2).
    + subst p2. cbn in B2. injection B2 as <- _ _. by destruct (Hno k1 p1 g1 x1).
  - intros Hp. destruct (H6 Hp) as [S1 S2 S3 S4].
    assert (forall k' q, th !! k' = Some q -> holding q -> <[k := Built i g x]> th !! k' = Some q) as Hkeep.
    { intros k' q Hq Hhq. rewrite list_lookup_insert_ne; [done|]. intros <-. rewrite Hk in Hq. by injection Hq as <-. }
    split; [|done| |].
    + intros n i' g' Hn'. destruct (S1 n i' g' Hn') as [?|[(k' & x' & Hq & ?)|(k' & Hq)]];
        [by left|right; left; exists k', x'|right; right; exists k']; [split; [|done]|]; by apply Hkeep.
    + intros k' i' g' x' n Hq. thread Hq; [done|eauto].
    + intros k' n i' g' Hq. thread Hq; [done|]. destruct (S4 k' n i' g' Hq) as (? & ? & R1 & R2).
      split_and!; [done|done| |]; intros k2 i2 g2; [intros x2|]; intros Hq2; (thread Hq2; [done|eauto]).
Qed.

(** The alias map, and no slot, changes hands. *)
Lemma ainv_map s th k p p' m :
  ainv s th -> th !! k = Some p -> building p' = building p \/ building p' = None ->
  (poisoned m = false -> alias_inv (set_aliases s m) (<[k := p']> th)) ->
  ainv (set_aliases s m) (<[k := p']> th).
Proof.
  intros [H1 H2 H3 H4 H5 H6] Hk Hb Ha. split; try done.
  - intros k' q i g x Hq Hbq. thread Hq; [|eauto]. subst q. destruct Hb as [Hb|Hb]; [|congruence].
    apply (H4 k p); congruence.
  - intros k1 k2 p1 p2 i g x g' x' Hq1 Hq2 B1 B2. thread Hq1; thread Hq2; [done| | |eauto]; subst;
      (destruct Hb as [Hb|Hb]; [|congruence]); rewrite Hb in *; eauto.
Qed.

(** The second check passes and the alias goes in. *)
Lemma alias_inserted s th k i g x m :
  ainv s th -> alias_inv s th -> th !! k = Some (Built i g x) ->
  (forall n, named x n -> inner (alias_to_handle s) !! n = None) ->
  inner m = match actor_alias x with
            | Some n => <[n := (i, g)]> (inner (alias_to_handle s))
            | None => inner (alias_to_handle s)
            end ->
  alias_inv (set_aliases s m) (<[k := Inserted i g x]> th).
Proof.
  intros HI [S1 S2 S3 S4] Hk Hfree Em. pose proof (lookup_lt_Some _ _ _ Hk) as Hlt.
  assert (forall n h, inner (alias_to_handle s) !! n = Some h -> inner m !! n = Some h) as Hold.
  { intros n h Hn. rewrite Em. destruct (actor_alias x) as [n'|] eqn:En; [|done].
    rewrite lookup_insert_ne; [done|]. intros ->. by rewrite (Hfree n En) in Hn. }
  assert (forall n h, inner m !! n = Some h -> (named x n /\ h = (i, g)) \/ inner (alias_to_handle s) !! n = Some h) as Hnew.
  { intros n h. rewrite Em. unfold named. destruct (actor_alias x) as [n'|]; [|by right].
    intros [[-> <-]|[_ ?]]%lookup_insert_Some; [by left|by right]. }
  assert (forall k' q, th !! k' = Some q -> holding q -> <[k := Inserted i g x]> th !! k' = Some q) as Hkeep.
  { intros k' q Hq Hhq. rewrite list_lookup_insert_ne; [done|]. intros <-. rewrite Hk in Hq. by injection Hq as <-. }
  split; cbn.
  - intros n i' g' [[Hx [= -> ->]]|Hn]%Hnew.
    { right. left. exists k, x. split; [by apply list_lookup_insert_eq|done]. }
    destruct (S1 n i' g' Hn) as [?|[(k' & x' & Hq & ?)|(k' & Hq)]];
      [by left|right; left; exists k', x'|right; right; exists k']; [split; [|done]|]; by apply Hkeep.
  - intros i' g' x' n Hl Hx'. by apply Hold, (S2 i' g' x').
  - intros k' i' g' x' n Hq Hx'. thread Hq; [|by eapply Hold, S3]. injection Hq as -> -> ->.
    rewrite Em. unfold named in Hx'. rewrite Hx'. by rewrite lookup_insert_eq.
  - intros k' n i' g' Hq. thread Hq; [done|]. destruct (S4 k' n i' g' Hq) as (Hn & R0 & R1 & R2).
    split_and!; [by apply Hold|exact R0| |].
    + intros k2 i2 g2 x2 Hq2. thread Hq2; [|eauto]. injection Hq2 as -> -> ->. intros Hx.
      by rewrite (Hfree n Hx) in Hn.
    + intros k2 i2 g2 Hq2. thread Hq2; [done|eauto].
Qed.

(** The runner goes into its slot. *)
Lemma ainv_commit s th k i g x :
  ainv s th -> th !! k = Some (Inserted i g x) ->
  exists r, commit i x (registry s) = (Ok tt, r) /\ ainv (set_registry s r) (<[k := Idle]> th).
Proof.
  intros [H1 H2 H3 H4 H5 H6] Hk. destruct (H4 k _ i g x Hk eq_refl) as (Hi & Hs & Ht & Hx & Hg).
  pose proof (lookup_lt_Some _ _ _ Hs) as Hlt. unfold commit. rewrite Hs. cbn. eexists. split; [done|].
  set (r := set_slot _ _ _).
  assert (slot_at r i = Some (mkSlot g (Some x))) as Hnew by (unfold r, slot_at; cbn; by apply list_lookup_insert_eq).
  assert (forall j, 0 <= j -> j <> i -> slot_at r j = slot_at (registry s) j) as Hother.
  { intros j Hj Hji. unfold r, slot_at. cbn. rewrite list_lookup_insert_ne; [done|lia]. }
  assert (forall j g' y, lives (set_registry s r) j g' y -> (j = i /\ g' = g /\ y = x) \/ lives s j g' y) as HL.
  { intros j g' y [Hj Hy]. cbn in Hy. destruct (decide (j = i)) as [->|Hji].
    - rewrite Hnew in Hy. injection Hy as <- <-. by left.
    - right. split; [done|]. by rewrite <- Hother. }
  assert (forall j g' y, lives s j g' y -> lives (set_registry s r) j g' y) as HL'.
  { intros j g' y [Hj Hy]. split; [done|]. cbn. rewrite Hother; [done|done|]. intros ->. congruence. }
  assert (lives (set_registry s r) i g x) as Hme by done.
  split; cbn.
  - intros Hp. pose proof (H1 Hp) as HW. by destruct (commit_taken _ i _ x HW Hs Ht) as [_ ?].
  - by rewrite length_insert.
  - intros j g' y [(-> & -> & ->)|Hy]%HL; [done|by apply H3].
  - intros k' q j g' y Hq Hb. thread Hq; [by subst q|]. destruct (H4 k' q j g' y Hq Hb) as (? & ? & ? & ? & ?).
    split_and!; try done. rewrite Hother; [done|done|]. intros ->. by destruct (H5 k k' _ _ _ _ _ _ _ Hk Hq eq_refl Hb).
  - intros k1 k2 p1 p2 j g1 x1 g2 x2 Hq1 Hq2 B1 B2. thread Hq1; [by subst p1|]. thread Hq2; [by subst p2|eauto].
  - intros Hp. destruct (H6 Hp) as [S1 S2 S3 S4].
    assert (forall k' q, th !! k' = Some q -> k' <> k -> <[k := Idle]> th !! k' = Some q) as Hkeep
      by (intros k' q Hq Hne; by rewrite list_lookup_insert_ne).
    split; cbn.
    + intros n j g' Hn. destruct (S1 n j g' Hn) as [(y & Hy & ?)|[(k' & y & Hq & Hy)|(k' & Hq)]].
      * left. exists y. split; [by apply HL'|done].
      * destruct (decide (k' = k)) as [->|Hne].
        -- rewrite Hk in Hq. injection Hq as <- <- <-. left. by exists x.
        -- right. left. exists k', y. split; [by apply Hkeep|done].
      * right. right. exists k'. apply Hkeep; [done|]. intros ->. congruence.
    + intros j g' y n [(-> & -> & ->)|Hy]%HL Hn; [by eapply S3|by eapply S2].
    + intros k' j g' y n Hq. thread Hq; [done|eauto].
    + intros k' n j g' Hq. thread Hq; [done|]. destruct (S4 k' n j g' Hq) as (? & R0 & R1 & R2). split_and!; [done|..].
      * intros i' g2 y [(-> & -> & ->)|Hy]%HL; [by eapply R1|by eapply R0].
      * intros k2 i2 g2 x2 Hq2. thread Hq2; [done|eauto].
      * intros k2 i2 g2 Hq2. thread Hq2; [done|eauto].
Qed.

Lemma resolve_lives s th i g x :
  ainv s th -> 0 <= i -> resolve (registry s) i g = Some x <-> lives s i g x.
Proof.
  intros HI Hi. pose proof (ai_slots _ _ HI) as Hlen. unfold resolve, lives, slot_at.
  destruct (Registry.slots (registry s) !! Z.to_nat i) as [[g' o]|] eqn:E.
  - apply lookup_lt_Some in E. destruct (Z.leb_spec (Registry.capacity (registry s)) i); [lia|]. cbn.
    destruct (Z.eqb_spec g' g) as [->|Hne].
    + split; [by intros ->|]. by intros [_ [= ->]].
    + split; [done|]. intros [_ [= ? _]]. congruence.
  - destruct (_ <=? _); split; (done || by intros [_ ?]).
Qed.

(** A live actor's alias passes to its finalization. *)
Lemma alias_taken_out s s' th k i g x :
  let p' := match actor_alias x with Some n => Removed n i g | None => Idle end in
  alias_inv s th -> th !! k = Some Idle -> lives s i g x -> alias_to_handle s' = alias_to_handle s ->
  (forall j g' y, lives s' j g' y <-> lives s j g' y /\ j <> i) ->
  (forall k' j g' y, th !! k' = Some (Inserted j g' y) -> j <> i) -> alias_inv s' (<[k := p']> th).
Proof.
  intros p' [S1 S2 S3 S4] Hk Hx0 Ea HL Hne. pose proof (lookup_lt_Some _ _ _ Hk) as Hkl.
  assert (forall k' q, th !! k' = Some q -> holding q -> <[k := p']> th !! k' = Some q) as Hkeep.
  { intros k' q Hq Hhq. rewrite list_lookup_insert_ne; [done|]. intros <-. rewrite Hk in Hq. by injection Hq as <-. }
  assert (forall n j g', p' = Removed n j g' -> named x n /\ j = i /\ g' = g) as Hp'.
  { intros n j g'. unfold p', named. destruct (actor_alias x); [|done]. by intros [= -> -> ->]. }
  split; rewrite Ea.
  - intros n j g' Hn. destruct (S1 n j g' Hn) as [(y & Hy & Hny)|[(k' & y & Hq & ?)|(k' & Hq)]].
    + destruct (decide (j = i)) as [->|Hji]; [|left; exists y; by rewrite HL].
      destruct Hy as [_ Hy], Hx0 as [_ Hs]. rewrite Hs in Hy. injection Hy as <- <-. right. right. exists k.
      rewrite list_lookup_insert_eq by done. unfold p'. unfold named in Hny. by rewrite Hny.
    + right. left. exists k', y. split; [by apply Hkeep|done].
    + right. right. exists k'. by apply Hkeep.
  - intros j g' y n [Hy _]%HL. by apply S2.
  - intros k' j g' y n Hq. thread Hq; [by unfold p' in Hq; destruct (actor_alias x)|eauto].
  - assert (forall n, named x n -> inner (alias_to_handle s) !! n = Some (i, g)) as Hx by (intros n; by apply S2).
    intros k' n j g' Hq. thread Hq.
    + destruct (Hp' n j g' (eq_sym Hq)) as (Hn & -> & ->). split_and!; [by apply Hx|..].
      * intros j g2 y [Hy Hji]%HL Hny. pose proof (S2 j g2 y n Hy Hny) as E1. rewrite (Hx n Hn) in E1. congruence.
      * intros k2 j g2 y Hq2 Hny. thread Hq2; [by unfold p' in Hq2; destruct (actor_alias x)|].
         pose proof (S3 k2 j g2 y n Hq2 Hny) as E1. rewrite (Hx n Hn) in E1. injection E1 as <- <-.
         by destruct (Hne k2 i g y Hq2).
      * intros k2 j g2 Hq2. thread Hq2; [done|]. destruct (S4 k2 n j g2 Hq2) as (_ & R0 & _). by destruct (R0 i g x).
    + destruct (S4 k' n j g' Hq) as (? & R0 & R1 & R2). split_and!; [done|..].
      * intros i' g2 y [Hy _]%HL. by eapply R0.
      * intros k2 i2 g2 x2 Hq2. thread Hq2; [by unfold p' in Hq2; destruct (actor_alias x)|eauto].
      * intros k2 i2 g2 Hq2. thread Hq2; [|eauto]. destruct (Hp' n i2 g2 (eq_sym Hq2)) as (Hn & _).
         by destruct (R0 i g x).
Qed.

(** A finalization takes its actor out of the registry. *)
Lemma ainv_remove s th k i g x :
  ainv s th -> th !! k = Some Idle -> lives s i g x -> poisoned (alloc (registry s)) = false ->
  exists r, remove i g (registry s) = (Ok (Some x), r)
    /\ ainv (set_registry s r) (<[k := match actor_alias x with Some n => Removed n i g | None => Idle end]> th).
Proof.
  intros [H1 H2 H3 H4 H5 H6] Hk [Hi Hs] Hp. specialize (H1 Hp). pose proof (lookup_lt_Some _ _ _ Hs) as Hlt.
  pose proof (lookup_lt_Some _ _ _ Hk) as Hkl.
  destruct (remove_hit (registry s) i (mkSlot g (Some x)) x H1) as (al & E & _ & Htk & HW); [lia|done|done|].
  eexists. split; [exact E|]. set (r := set_alloc _ al) in *. set (p' := match actor_alias x with Some _ => _ | None => _ end).
  assert (building p' = None) as Hb' by (unfold p'; by destruct (actor_alias x)).
  assert (forall j, 0 <= j -> j <> i -> slot_at r j = slot_at (registry s) j) as Hother.
  { intros j Hj Hji. unfold r, slot_at. cbn. rewrite list_lookup_insert_ne; [done|lia]. }
  assert (forall j g' y, lives (set_registry s r) j g' y <-> lives s j g' y /\ j <> i) as HL.
  { intros j g' y. unfold lives. cbn. destruct (decide (j = i)) as [->|Hji].
    - unfold r at 1, slot_at at 1. cbn. rewrite list_lookup_insert_eq by done. split; [by intros [_ ?]|by intros [_ ?]].
    - split; [intros [Hj Hy]|intros [[Hj Hy] _]]; [rewrite Hother in Hy by done|rewrite Hother by done]; done. }
  assert (forall k' q j g' y, th !! k' = Some q -> building q = Some (j, g', y) -> j <> i) as Hne.
  { intros k' q j g' y Hq Hb ->. destruct (H4 k' q i g' y Hq Hb) as (_ & Hs' & _). congruence. }
  split; try done; cbn.
  - by apply HW.
  - intros j g' y [Hy _]%HL. by apply H3.
  - intros k' q j g' y Hq Hb. thread Hq; [congruence|]. pose proof (Hne _ _ _ _ _ Hq Hb).
    destruct (H4 k' q j g' y Hq Hb) as (? & ? & ? & ? & ?). split_and!; try done; [by rewrite Hother|by apply Htk].
  - intros k1 k2 p1 p2 j g1 x1 g2 x2 Hq1 Hq2 B1 B2. thread Hq1; [congruence|]. thread Hq2; [congruence|eauto].
  - intros Hpa. eapply alias_taken_out; [by apply H6|done|by split|done|done|].
    intros k' j g' y Hq. exact (Hne k' _ j g' y Hq eq_refl).
Qed.

(** And its alias out of the map. *)
Lemma alias_removed s th k n i g :
  alias_inv s th -> th !! k = Some (Removed n i g) ->
  alias_inv (set_aliases s (mkMutex false (delete n (inner (alias_to_handle s))))) (<[k := Idle]> th).
Proof.
  intros [S1 S2 S3 S4] Hk. destruct (S4 k n i g Hk) as (Hn & R0 & R1 & R2).
  assert (forall k' q, th !! k' = Some q -> k' <> k -> <[k := Idle]> th !! k' = Some q) as Hkeep
    by (intros k' q Hq Hne; by rewrite list_lookup_insert_ne).
  split; cbn.
  - intros n' j g' [Hne Hn']%lookup_delete_Some. destruct (S1 n' j g' Hn') as [?|[(k' & y & Hq & ?)|(k' & Hq)]];
      [by left|right; left; exists k', y|right; right; exists k']; [split; [|done]|];
      (apply Hkeep; [done|]; intros ->; rewrite Hk in Hq; by simplify_eq).
  - intros j g' y n' Hy Hny. rewrite lookup_delete_ne; [by eapply S2|]. intros <-. by apply (R0 j g' y).
  - intros k' j g' y n' Hq Hny. thread Hq; [done|]. rewrite lookup_delete_ne; [by eapply S3|].
    intros <-. by apply (R1 k' j g' y).
  - intros k' n' j g' Hq. thread Hq; [done|]. destruct (S4 k' n' j g' Hq) as (Hn' & R0' & R1' & R2').
    split_and!; [|done|..].
    + rewrite lookup_delete_ne; [done|]. intros <-. by destruct (R2 k' j g').
    + intros k2 i2 g2 x2 Hq2. thread Hq2; [done|eauto].
    + intros k2 i2 g2 Hq2. thread Hq2; [done|eauto].
Qed.

(** A step of [begin_call] or [advance] keeps the invariant. *)
Definition keeps_ainv (th : list apc) (k : nat) (r : outcome apc * Sys) : Prop :=
  match r with
  | (Ok p, s) => ainv s (<[k := p]> th)
  | (Panic _, s) => ainv s (<[k := Idle]> th)
  | (UB _, _) => True
  end.

Lemma begin_register_ok s th k a di name cap :
  ainv s th -> th !! k = Some Idle -> keeps_ainv th k (begin_call (Register a di name cap) s).
Proof.
  intros HI Hk. cbn. unfold mbind, M_bind.
  assert (forall p', neutral p' -> ainv s (<[k := p']> th)) as Hsame
    by (intros p' Hp'; apply (ainv_neutral s th k Idle p'); [done..|intros _ []]).
  assert ((check_alias name s).2 = s) as E.
  { unfold check_alias. destruct name; [|done]. by repeat case_match. }
  destruct (check_alias name s) as [[[]|e|e] s1]; cbn in E |- *; subst s1; [by apply Hsame..|done].
Qed.

Lemma begin_finalize_ok s th k i g :
  ainv s th -> th !! k = Some Idle -> may_begin (FinalizeKill i g) s = true ->
  keeps_ainv th k (begin_call (FinalizeKill i g) s).
Proof.
  intros HI Hk Hm. cbn in Hm. apply andb_true_iff in Hm as [Hi%Z.leb_le [x Hx]%bool_decide_eq_true].
  apply (resolve_lives s th i g x HI Hi) in Hx. cbn. unfold mbind, M_bind, on_registry.
  destruct (poisoned (alloc (registry s))) eqn:Ep.
  - unfold remove, with_alloc, lock_unwrap. rewrite Ep. cbn.
    replace (set_registry s (registry s)) with s by (by destruct s).
    apply (ainv_neutral s th k Idle Idle); [done..|intros _ []].
  - destruct (ainv_remove s th k i g x HI Hk Hx Ep) as (r & -> & H). cbn. by destruct (actor_alias x).
Qed.

Lemma checked_ok s th k a di name cap :
  ainv s th -> th !! k = Some (Checked a di name cap) -> keeps_ainv th k (advance (Checked a di name cap) s).
Proof.
  intros HI Hk. cbn. unfold mbind, M_bind, on_registry.
  destruct (reserve (registry s)) as [o r] eqn:Er. destruct (ainv_reserve s th o r HI Er) as [HI1 Hok].
  assert (ainv (set_registry s r) (<[k := Idle]> th)) as Hidle
    by (apply (ainv_neutral _ th k (Checked a di name cap) Idle); [done..|intros _ []]).
  destruct o as [[i g]|e|e]; [|done..]. destruct (Hok i g eq_refl) as (Hi & Hs & Ht & Hno).
  assert ((choose_dispatcher di i (set_registry s r)).2 = set_registry s r) as Ec
    by (unfold choose_dispatcher; by case_match).
  destruct (choose_dispatcher di i (set_registry s r)) as [[d|e|e] s2]; cbn in Ec |- *; subst s2; [|done..].
  unfold lift. destruct (runner_new a d (mkActorRef i g name) cap) as [x|e|e] eqn:Hx; [|done..]. cbn.
  apply runner_new_ok in Hx as [Hx _]. eapply ainv_built; [done..|by rewrite Hx|by rewrite Hx].
Qed.

Lemma built_ok s th k i g x :
  ainv s th -> th !! k = Some (Built i g x) -> keeps_ainv th k (advance (Built i g x) s).
Proof.
  intros HI Hk. cbn. unfold mbind, M_bind, insert_alias, lock_unwrap.
  assert (set_aliases s (alias_to_handle s) = s) as Es by (by destruct s).
  destruct (actor_alias x) as [n|] eqn:En; cbn.
  - destruct (poisoned (alias_to_handle s)) eqn:Ep; cbn.
    { eapply ainv_neutral; [done..|]. by rewrite Ep. }
    destruct (inner (alias_to_handle s) !! n) as [h|] eqn:Hn; cbn.
    + by eapply ainv_map; [done..|by right|].
    + eapply ainv_map; [done..|by left|]. intros _. eapply alias_inserted; [done|by apply HI|done| |by rewrite En].
      intros n' Hn'. unfold named in Hn'. congruence.
  - rewrite <- Es at 1. eapply ainv_map; [done..|by left|]. intros Hp.
    eapply alias_inserted; [done|by apply HI|done| |by rewrite En]. intros n' Hn'. unfold named in Hn'. congruence.
Qed.

Lemma removed_ok s th k n i g :
  ainv s th -> th !! k = Some (Removed n i g) -> keeps_ainv th k (advance (Removed n i g) s).
Proof.
  intros HI Hk. cbn. unfold mbind, M_bind, remove_alias, lock_unwrap.
  destruct (poisoned (alias_to_handle s)) eqn:Ep; cbn.
  - eapply ainv_neutral; [done..|]. by rewrite Ep.
  - eapply ainv_map; [done..|by left|]. intros _. eapply alias_removed; [by apply HI|done].
Qed.

Lemma took_keeps w k r w' : keeps_ainv (threads w) k r -> took k r w = Some w' -> ainv (sys w') (threads w').
Proof. destruct r as [[p|e|e] s]; cbn; [..|done]; by intros H [= <-]. Qed.

Lemma astep_ok a w w' : ainv (sys w) (threads w) -> astep a w = Some w' -> ainv (sys w') (threads w').
Proof.
  intros HI. destruct a as [k c|k]; cbn [astep]; destruct (threads w !! k) as [p|] eqn:Hk; try done.
  - destruct p; try done. destruct (may_begin c (sys w)) eqn:Hm; [|done]. apply took_keeps.
    destruct c; [by apply begin_register_ok|by apply begin_finalize_ok].
  - destruct p; try done; apply took_keeps.
    + by apply checked_ok.
    + by apply built_ok.
    + destruct (ainv_commit _ _ _ _ _ _ HI Hk) as (r & E & H). cbn. unfold mbind, M_bind, on_registry. by rewrite E.
    + by apply removed_ok.
Qed.

(** A new system, with its threads in no call. *)
Definition aliasing_new s (n : nat) : Aliasing := mkAliasing s (replicate n Idle).

Lemma ainv_new count cap ask s n : with_capacities count cap ask = Ok s -> ainv s (replicate n Idle).
Proof.
  unfold with_capacities. destruct (count =? 0); [done|]. intros [= <-].
  pose proof (wf_with_capacity (R := Runner) cap) as HW.
  assert (forall i g x (m : Mutex (gmap string (Z * Z))) ds b c k l l', ~ lives (mkSystem (Registry.with_capacity cap) m ds b c k l l') i g x) as HN.
  { intros i g x m ds b c k l l' [_ Hs]. unfold slot_at in Hs. cbn in Hs. by apply lookup_replicate in Hs as [? _]. }
  split; [done|apply HW|..]; cbn.
  - intros i g x Hx. by apply HN in Hx.
  - intros k p i g x [-> _]%lookup_replicate. done.
  - intros k k' p p' i g x g' x' [-> _]%lookup_replicate. done.
  - intros _. split; cbn; [done|..].
    + intros i g x n' Hx. by apply HN in Hx.
    + intros k i g x n' [? _]%lookup_replicate. done.
    + intros k n' i g [? _]%lookup_replicate. done.
Qed.

Lemma run_ainv count cap ask s n acts w :
  with_capacities count cap ask = Ok s -> run astep acts (aliasing_new s n) = Some w ->
  ainv (sys w) (threads w).
Proof.
  intros Hs. revert acts w. apply run_invariant; [by eapply ainv_new|].
  intros _ a w w' _ HI Hst. by eapply astep_ok.
Qed.

(** C16.  Aliases, with any number of threads spawning and finalizing at once,
    their steps interleaved in any way: an alias that is found leads to a live
    actor that has this alias, under that actor's own reference, or to one whose
    [register_actor] has inserted the alias and not yet committed, or to one whose
    [finalize_kill] has left the registry and not yet removed the alias, and to
    nothing else; a live actor is always found under its alias, unless the alias
    map's lock is poisoned (two spawns that raced for one alias do that), and then
    no lookup returns; and two live actors never have the same alias while it is
    not.  So between calls an alias leads exactly to the live actor that has it. *)
Theorem aliases_consistent count cap ask s0 n acts (w : Aliasing) (name : string) :
  with_capacities count cap ask = Ok s0 -> run astep acts (aliasing_new s0 n) = Some w ->
  let s := sys w in
  (forall r, (try_get_actor_ref_by_alias name s).1 = Ok (Some r) ->
     (exists x, 0 <= index r /\ resolve (registry s) (index r) (ref_generation r) = Some x
        /\ actor_alias x = Some name /\ actor_ref x = r)
     \/ (exists k x, threads w !! k = Some (Inserted (index r) (ref_generation r) x) /\ actor_ref x = r)
     \/ (exists k, threads w !! k = Some (Removed name (index r) (ref_generation r))))
  /\ (forall i g x, 0 <= i -> resolve (registry s) i g = Some x -> actor_alias x = Some name ->
        (try_get_actor_ref_by_alias name s).1
        = if poisoned (alias_to_handle s) then Panic "PoisonError" else Ok (Some (actor_ref x)))
  /\ (forall i g x i' g' x', 0 <= i -> 0 <= i' -> poisoned (alias_to_handle s) = false ->
        resolve (registry s) i g = Some x -> actor_alias x = Some name ->
        resolve (registry s) i' g' = Some x' -> actor_alias x' = Some name -> (i, g) = (i', g')).
Proof.
  intros H0 Hr s. pose proof (run_ainv _ _ _ _ _ _ _ H0 Hr) as HI. fold s in HI.
  assert (forall i g x, lives s i g x -> actor_alias x = Some name -> actor_ref x = mkActorRef i g (Some name)) as Href.
  { intros i g x Hx Hn. destruct (ai_runner _ _ HI i g x Hx) as [<- <-]. unfold actor_alias in Hn.
    destruct (actor_ref x). cbn in *. by subst. }
  unfold try_get_actor_ref_by_alias, read_unwrap, lock_unwrap. split_and!.
  - intros r. destruct (poisoned (alias_to_handle s)) eqn:Ep; [done|]. cbn.
    destruct (inner (alias_to_handle s) !! name) as [[i g]|] eqn:Hn; [|done]. intros [= <-]. cbn.
    destruct (al_sound _ _ (ai_alias _ _ HI Ep) name i g Hn) as [(x & Hx & Hnx)|[(k & x & Hk & Hnx)|(k & Hk)]].
    + left. exists x. pose proof (proj1 Hx). split_and!; [done|by apply (resolve_lives s _ i g x HI)|done|by apply Href].
    + right. left. exists k, x. split; [done|]. destruct (ai_busy _ _ HI k _ i g x Hk eq_refl) as (_ & _ & _ & <- & <-).
      unfold named, actor_alias in Hnx. destruct (actor_ref x). cbn in *. by subst.
    + right. right. by exists k.
  - intros i g x Hi Hx Hnx. apply (resolve_lives s _ i g x HI Hi) in Hx.
    destruct (poisoned (alias_to_handle s)) eqn:Ep; [done|]. cbn.
    rewrite (al_live _ _ (ai_alias _ _ HI Ep) i g x name Hx Hnx). cbn. by rewrite (Href i g x Hx Hnx).
  - intros i g x i' g' x' Hi Hi' Ep Hx Hnx Hx' Hnx'. apply (resolve_lives s _ i g x HI Hi) in Hx.
    apply (resolve_lives s _ i' g' x' HI Hi') in Hx'. pose proof (ai_alias _ _ HI Ep) as HA.
    pose proof (al_live _ _ HA i g x name Hx Hnx) as E1. pose proof (al_live _ _ HA i' g' x' name Hx' Hnx') as E2.
    congruence.
Qed.

(** Two spawns that race for one alias: where one has inserted it, the other's
    second check panics under the write lock and poisons it; the slot it had
    reserved stays taken, and from then on every lookup, every spawn with an
    alias and the end of every finalization with an alias panics. *)
Theorem alias_race_poisons count cap ask s0 n acts (w : Aliasing) k i g x name h :
  with_capacities count cap ask = Ok s0 -> run astep acts (aliasing_new s0 n) = Some w ->
  threads w !! k = Some (Built i g x) -> actor_alias x = Some name ->
  poisoned (alias_to_handle (sys w)) = false -> inner (alias_to_handle (sys w)) !! name = Some h ->
  exists w', astep (Advance k) w = Some w' /\ threads w' !! k = Some Idle
    /\ taken (registry (sys w')) i /\ slot_at (registry (sys w')) i = Some (mkSlot g None)
    /\ forall n', (try_get_actor_ref_by_alias n' (sys w')).1 = Panic "PoisonError"
         /\ (check_alias (Some n') (sys w')).1 = Panic "PoisonError"
         /\ (remove_alias n' (sys w')).1 = Panic "PoisonError".
Proof.
  intros H0 Hr Hk Hx Hp Hh. pose proof (run_ainv _ _ _ _ _ _ _ H0 Hr) as HI.
  destruct (ai_busy _ _ HI k _ i g x Hk eq_refl) as (Hi & Hs & Ht & _).
  pose proof (lookup_lt_Some _ _ _ Hk) as Hlt.
  cbn [astep]. rewrite Hk. cbn. unfold mbind, M_bind, insert_alias, lock_unwrap. rewrite Hx, Hp, Hh. cbn.
  eexists. split; [done|]. cbn. by rewrite list_lookup_insert_eq.
Qed.
End machine.

(** ** Witnesses *)
Definition racing_start : Aliasing (A := nat) (Msg := nat) (Waker := nat) (Time := nat) := aliasing_new demo_sys 2.

(** Two threads spawn under the name [a]; the first one is through, the second
    past its first check. *)
Definition racing : list (aaction (A := nat)) :=
  [Begin 0 (Register demo_actor None (Some "a") 4); Begin 1 (Register demo_actor None (Some "a") 4);
   Advance 0; Advance 0; Advance 0; Advance 1].

Definition racing_end : Aliasing (A := nat) (Msg := nat) (Waker := nat) (Time := nat) :=
  default racing_start (run astep racing racing_start).

Lemma racing_runs : run astep racing racing_start = Some racing_end.
Proof.
  unfold racing_end.
  assert (match run astep racing racing_start with Some _ => true | None => false end = true) as H
    by (vm_compute; reflexivity).
  by destruct (run astep racing racing_start).
Qed.

Lemma aliases_consistent_witness :
  (try_get_actor_ref_by_alias "a" (sys racing_end)).1 = Ok (Some (mkActorRef 0 1 (Some "a"))).
Proof.
  destruct (aliases_consistent 2 4 0 demo_sys 2 racing racing_end "a" eq_refl racing_runs) as (_ & H & _).
  destruct (resolve (registry (sys racing_end)) 0 1) as [x|] eqn:E; [|vm_compute in E; discriminate].
  assert (actor_ref x = mkActorRef 0 1 (Some "a")) as Hx by (vm_compute in E; by injection E as <-).
  rewrite (H 0 1 x ltac:(lia) E); [|unfold actor_alias; by rewrite Hx].
  rewrite Hx. assert (poisoned (alias_to_handle (sys racing_end)) = false) as -> by (vm_compute; reflexivity).
  reflexivity.
Defined.

(** One step more, and no alias is found again. *)
Lemma racing_poisons :
  (λ w, (try_get_actor_ref_by_alias "a" (sys w)).1) <$> astep (Advance 1) racing_end
  = Some (Panic "PoisonError").
Proof. vm_compute. reflexivity. Qed.
