(* ===== verification/TimedShutdown.v ===== *)
(** Shutdown with a deadline ([ActorSystem::shutdown_timeout] and
    [ShutdownTimeout] of [dignus-actor-core/src/actor_system.rs]). *)
From stdpp Require Import pretty.
From S2P Require Import Prelude MpscQueue Registry ActorCore Ask ActorSystem.
Local Open Scope Z_scope.

(** The error, and its [Display]. *)
Record ShutdownTimeout : Type := mkShutdownTimeout { remaining_actors : Z }.

Definition shutdown_timeout_fmt (e : ShutdownTimeout) : string :=
  ("actor system shutdown timed out with " ++ pretty (remaining_actors e) ++ " actor(s) remaining")%string.

(** [Instant::checked_add]: [latest] is the last representable instant. *)
Definition checked_add (latest now timeout : Z) : option Z :=
  if now + timeout <=? latest then Some (now + timeout) else None.

(** A round of the loop: the actors finalized after [live_count] was read, the
    clock as the round reads it, and the actors finalized after that. *)
Record round : Type := mkRound { early : list (Z * Z); reading : Z; late : list (Z * Z) }.

Section system.
Context {A Msg Waker Time : Type}.
Notation Sys := (ActorSystem A Msg Waker Time).
Implicit Types (s : Sys).

(** [deadline.is_some_and(|deadline| Instant::now() >= deadline)]. *)
Definition expired (deadline : option Z) (now : Z) : bool :=
  match deadline with Some d => d <=? now | None => false end.

(** The error reads [live_count] again.  [None]: still looping when the rounds
    end. *)
Fixpoint await_until (deadline : option Z) (rounds : list round) s :
    option (outcome (option ShutdownTimeout) * Sys) :=
  match on_registry live_count s with
  | (Ok n, s1) =>
      if n =? 0 then Some (Ok None, s1)
      else
        match rounds with
        | [] => None
        | x :: rest =>
            let s2 := (finalize_each (early x) s1).2 in
            if expired deadline (reading x) then
              match on_registry live_count s2 with
              | (Ok n, s3) => Some (Ok (Some (mkShutdownTimeout n)), s3)
              | (Panic msg, s3) => Some (Panic msg, s3)
              | (UB msg, s3) => Some (UB msg, s3)
              end
            else await_until deadline rest (finalize_each (late x) s2).2
        end
  | (Panic msg, s1) => Some (Panic msg, s1)
  | (UB msg, s1) => Some (UB msg, s1)
  end.

(** [now] is the clock after the kills. *)
Definition shutdown_timeout (latest now timeout : Z) (rounds : list round) s :
    option (outcome (option ShutdownTimeout) * Sys) :=
  match begin_shutdown s with
  | (Ok _, s1) =>
      match await_until (checked_add latest now timeout) rounds s1 with
      | Some (Ok None, s2) => Some (Ok None, (stop_dispatchers s2).2)
      | other => other
      end
  | (Panic msg, s1) => Some (Panic msg, s1)
  | (UB msg, s1) => Some (UB msg, s1)
  end.

(** ** Lemmas *)
Lemma finalize_each_disposed l : forall s, is_disposed (finalize_each l s).2 = is_disposed s.
Proof.
  induction l as [|[i g] l IH]; intros s; [done|]. cbn. unfold mbind, M_bind.
  assert (is_disposed (finalize_kill i g s).2 = is_disposed s) as Hf.
  { unfold finalize_kill, mbind, M_bind, on_registry. destruct (remove i g _) as [[[x|]|e|e] r]; try done.
    destruct (actor_alias x); [|done]. unfold remove_alias. by destruct (lock_unwrap _). }
  destruct (finalize_kill i g s) as [[[]|e|e] s1]; [by rewrite IH|done..].
Qed.

Definition legal (rounds : list round) : Prop :=
  Forall (λ x, Forall (λ h, 0 <= h.1) (early x) /\ Forall (λ h, 0 <= h.1) (late x)) rounds.

Lemma live_count_sys s t :
  sys_rel s t -> on_registry live_count s = (Ok (Z.of_nat (size (handles t) + leaked t)), s).
Proof.
  intros H. unfold on_registry. rewrite (live_count_contract _ t (sr_table s t H)). by destruct s.
Qed.

(** What the loop returns, and when it does not. *)
Lemma await_until_spec deadline rounds : forall s t, sys_rel s t -> legal rounds ->
  match await_until deadline rounds s with
  | None => Forall (λ x, expired deadline (reading x) = false) rounds
  | Some (o, s') => exists t', sys_rel s' t' /\ dispatchers s' = dispatchers s /\ is_disposed s' = is_disposed s
      /\ match o with
         | Ok None => (size (handles t') + leaked t' = 0)%nat
         | Ok (Some e) => remaining_actors e = Z.of_nat (size (handles t') + leaked t')
             /\ exists x, x ∈ rounds /\ expired deadline (reading x) = true
         | _ => False
         end
  end.
Proof.
  induction rounds as [|x rounds IH]; intros s t H Hl; cbn [await_until]; rewrite (live_count_sys s t H);
    destruct (Z.eqb_spec (Z.of_nat (size (handles t) + leaked t)) 0) as [Hz|Hz].
  1, 3: exists t; split_and!; [done..|lia].
  { done. }
  apply Forall_cons in Hl as [[He Hla] Hl].
  destruct (finalize_each_rel (early x) s t H He) as (s1 & t1 & E1 & H1 & _ & Hd1 & _).
  pose proof (finalize_each_disposed (early x) s) as Hi1. rewrite E1 in Hi1 |- *. cbn [snd] in *.
  destruct (expired deadline (reading x)) eqn:Ex.
  - rewrite (live_count_sys s1 t1 H1). exists t1. split_and!; [done..|]. exists x.
    split; [apply list_elem_of_here|done].
  - destruct (finalize_each_rel (late x) s1 t1 H1 Hla) as (s2 & t2 & E2 & H2 & _ & Hd2 & _).
    pose proof (finalize_each_disposed (late x) s1) as Hi2. rewrite E2 in Hi2 |- *. cbn [snd] in *.
    specialize (IH s2 t2 H2 Hl). destruct (await_until deadline rounds s2) as [[o s']|].
    + destruct IH as (t' & H' & Hd' & Hi' & Ho). exists t'. split_and!; [done|congruence..|].
      destruct o as [[e|]| |]; try done. destruct Ho as (? & y & Hy & ?). split; [done|].
      exists y. split; [by apply list_elem_of_further|done].
    + by constructor.
Qed.
End system.

(** ** Properties *)
Section properties.
Context {A Msg Waker Time : Type}.
Notation Sys := (ActorSystem A Msg Waker Time).
Implicit Types (s : Sys).

(** The first part of a shutdown, the first time or again. *)
Lemma begin_shutdown_rel s t :
  sys_rel s t -> is_disposed s = true \/ no_poison (ask_system s) ->
  exists s1, begin_shutdown s = (Ok tt, s1) /\ sys_rel s1 t /\ dispatchers s1 = dispatchers s
    /\ is_disposed s1 = true.
Proof.
  intros H Hp. destruct (is_disposed s) eqn:Hd.
  - exists s. unfold begin_shutdown. by rewrite Hd.
  - destruct Hp as [?|Hp]; [done|].
    destruct (begin_shutdown_kills s t H Hd Hp) as (s1 & xs & ? & ? & _ & ? & _ & ? & _). by exists s1.
Qed.

(** A poisoned registry cannot be counted. *)
Lemma poisoned_panics s latest now timeout rounds :
  poisoned (alloc (registry s)) = true -> is_disposed s = true \/ no_poison (ask_system s) ->
  exists s', shutdown_timeout latest now timeout rounds s = Some (Panic "PoisonError", s').
Proof.
  intros Hp Ha. unfold shutdown_timeout, begin_shutdown. destruct (is_disposed s) eqn:Hd.
  - assert (await_until (checked_add latest now timeout) rounds s = Some (Panic "PoisonError", s)) as ->; [|by eexists].
    destruct rounds; cbn [await_until]; unfold on_registry, live_count, with_alloc, lock_unwrap; rewrite Hp;
      by destruct s.
  - destruct Ha as [|Ha]; [done|]. destruct (stop_ok (ask_system s) Ha) as [k Hk].
    unfold mbind, M_bind, on_ask, on_registry. cbn. rewrite Hk. cbn.
    unfold snapshot_live, with_alloc, lock_unwrap. rewrite Hp. by eexists.
Qed.

(** C20.  A shutdown with a deadline, on a system that has not met the two known
    sources of panics: no spawn came upon a full registry (that poisons its
    lock), and no awaiter's lock is poisoned unless the shutdown was begun before.
    However the clock advances and the actors are finalized meanwhile,
    [shutdown_timeout] then does not panic; it answers [Ok] only when no actor is
    live, with every dispatcher stopped; it answers [Err] only once the clock has
    reached the deadline, reporting the actors live at that moment, with the
    dispatchers left running, and the shutdown can be waited for again; and as
    soon as it reads a clock that has reached the deadline it does return.  With a
    poisoned registry it panics. *)
Theorem shutdown_timeout_spec s latest now timeout rounds :
  is_disposed s = true \/ no_poison (ask_system s) -> legal rounds ->
  (poisoned (alloc (registry s)) = true ->
     exists s', shutdown_timeout latest now timeout rounds s = Some (Panic "PoisonError", s'))
  /\ (reachable_sys s ->
  match shutdown_timeout latest now timeout rounds s with
  | None => forall d, checked_add latest now timeout = Some d -> Forall (λ x, reading x < d) rounds
  | Some (Ok None, s') =>
      (live_count (registry s')).1 = Ok 0
      /\ (forall i g, 0 <= i -> resolve (registry s') i g = None)
      /\ Forall (λ stopped, stopped = true) (dispatchers s')
  | Some (Ok (Some e), s') =>
      (live_count (registry s')).1 = Ok (remaining_actors e)
      /\ dispatchers s' = dispatchers s /\ begin_shutdown s' = (Ok tt, s')
      /\ exists d x, checked_add latest now timeout = Some d /\ x ∈ rounds /\ d <= reading x
  | Some _ => False
  end).
Proof.
  intros Hp Hl. split; [intros Hpo; by apply poisoned_panics|].
  intros [t H]%reachable_sys_rel. unfold shutdown_timeout.
  destruct (begin_shutdown_rel s t H Hp) as (s1 & -> & H1 & Hd1 & Hi1).
  pose proof (await_until_spec (checked_add latest now timeout) rounds s1 t H1 Hl) as Hw. revert Hw.
  destruct (await_until _ rounds s1) as [[o s2]|].
  - intros (t2 & H2 & Hd2 & Hi2 & Ho). pose proof (live_count_contract _ t2 (sr_table s2 t2 H2)) as Hc.
    destruct o as [[e|]|msg|msg]; [|..|done|done].
    + destruct Ho as [Hr (x & Hx & Hex)]. rewrite Hc, Hr. split_and!; [done|congruence| |].
      * unfold begin_shutdown. by rewrite Hi2, Hi1.
      * unfold expired in Hex. destruct (checked_add latest now timeout) as [d|]; [|done].
        exists d, x. split_and!; [done..|lia].
    + split_and!; cbn.
      * rewrite Hc. cbn. by rewrite Ho.
      * intros i g Hi. rewrite (sys_resolve s2 t2 i g H2 Hi).
        rewrite (map_size_empty_inv (handles t2)) by lia. apply lookup_empty.
      * by apply Forall_fmap, Forall_true.
  - intros Hw d Hd. rewrite Hd in Hw. eapply Forall_impl; [exact Hw|]. cbn. intros x Hx. lia.
Qed.
End properties.

(** ** Witness: one actor, a deadline of five *)
Definition timed_rounds : list round := [mkRound [] 103 []; mkRound [] 105 []].

Lemma shutdown_timeout_spec_witness :
  is_Some (shutdown_timeout 1000 100 5 timed_rounds demo_spawned).
Proof.
  pose proof (proj2 (shutdown_timeout_spec demo_spawned 1000 100 5 timed_rounds
    (or_intror (match demo_spawned_rel with ex_intro _ _ (conj _ (conj _ H)) => H end))
    ltac:(repeat constructor)) demo_spawned_reachable) as H.
  destruct (shutdown_timeout 1000 100 5 timed_rounds demo_spawned) as [x|]; [by exists x|exfalso].
  specialize (H 105 eq_refl). apply Forall_cons in H as [_ H]. apply Forall_cons in H as [H _]. cbn in H. lia.
Defined.

(** The loop at the deadline with the actor still there. *)
Lemma timeout_reports_one :
  fst <$> await_until (checked_add 1000 100 5) timed_rounds demo_spawned
    = Some (Ok (Some (mkShutdownTimeout 1)))
  /\ shutdown_timeout_fmt (mkShutdownTimeout 1) = "actor system shutdown timed out with 1 actor(s) remaining"%string.
Proof. split; vm_compute; reflexivity. Qed.

(** An actor finalized between the two readings of [live_count]: the shutdown
    fails with no actor remaining, and the dispatchers are not stopped. *)
Lemma timeout_reports_none :
  (λ '(o, s), (o, (live_count (registry s)).1, dispatchers s))
    <$> await_until (checked_add 1000 100 5) [mkRound [(0, 1)] 105 []] demo_spawned
  = Some (Ok (Some (mkShutdownTimeout 0)), Ok 0, [false; false]).
Proof. vm_compute. reflexivity. Qed.
