(* ===== verification/Codec.v ===== *)
(** Framing ([dignus-actor-network/src]: [codec.rs], [frame_encoder.rs],
    [length_prefixed_decoder.rs]): the decoder and encoder traits, the raw and
    the length-prefixed implementations, and what the receive loop may rely on
    of a decoder.  Bytes are integers in [0, 256); the deserializer is the
    user's function and stays a parameter. *)
From S2P Require Import Prelude.
Local Open Scope nat_scope.

(** A [Frame] consumes a prefix of the buffer and may carry no message. *)
Inductive DecodeResult (Msg : Type) : Type :=
| Incomplete
| Frame (consumed : nat) (message : option Msg)
| Corrupt.
Arguments Incomplete {Msg}.
Arguments Frame {Msg} _ _.
Arguments Corrupt {Msg}.

Definition bytes : Type := list Z.
Definition is_byte (b : Z) : Prop := (0 <= b < 256)%Z.

Class MessageDecoder (D Msg : Type) : Type := try_decode : D -> bytes -> DecodeResult Msg.
Class FrameEncoder (E : Type) : Type := encode : E -> bytes -> bytes.

(** What the receive loop of a stream relies on: a frame is non-empty and lies
    in the buffer, and bytes that arrive later change neither a frame nor a
    verdict of corruption. *)
Class StreamDecoder {D Msg} `{!MessageDecoder D Msg} (d : D) : Prop := {
  frame_bounds : forall b c (m : option Msg), try_decode d b = Frame c m -> 0 < c <= length b;
  frame_stable : forall b x c (m : option Msg),
    try_decode d b = Frame c m -> try_decode d (b ++ x) = Frame c m;
  corrupt_stable : forall b x,
    try_decode (Msg := Msg) d b = Corrupt -> try_decode (Msg := Msg) d (b ++ x) = Corrupt;
}.

(** ** The raw codec *)
Inductive SessionReceived : Type := mkReceived (payload : bytes).

Record RawFrameDecoder : Type := mkRawFrameDecoder {}.
Record RawEncoder : Type := mkRawEncoder {}.

#[export] Instance raw_try_decode : MessageDecoder RawFrameDecoder SessionReceived :=
  fun _ buffer =>
    match buffer with
    | [] => Incomplete
    | _ => Frame (length buffer) (Some (mkReceived buffer))
    end.

#[export] Instance raw_encode : FrameEncoder RawEncoder := fun _ payload => payload.

(** ** The length-prefixed codec *)
Definition LENGTH_PREFIX_SIZE : nat := 4.
Definition DEFAULT_MAX_FRAME_LEN : Z := 2 ^ 20.

(** [u32::to_be_bytes] and [u32::from_be_bytes]. *)
Definition to_be_bytes (n : Z) : bytes :=
  [n / 2 ^ 24 mod 256; n / 2 ^ 16 mod 256; n / 2 ^ 8 mod 256; n mod 256]%Z.
Definition from_be_bytes (a b c d : Z) : Z := (a * 2 ^ 24 + b * 2 ^ 16 + c * 2 ^ 8 + d)%Z.

Definition length_prefixed_frame (payload : bytes) : bytes :=
  to_be_bytes (wrap_u32 (Z.of_nat (length payload))) ++ payload.

Record LengthPrefixedEncoder : Type := mkLengthPrefixedEncoder {}.
#[export] Instance length_prefixed_encode : FrameEncoder LengthPrefixedEncoder :=
  fun _ payload => length_prefixed_frame payload.

Record LengthPrefixedDecoder (Msg : Type) : Type := mkLengthPrefixed {
  deserialize : bytes -> option Msg;
  max_frame_len : Z;
}.
Arguments mkLengthPrefixed {Msg} _ _.
Arguments deserialize {Msg} _ _.
Arguments max_frame_len {Msg} _.

Definition lp_new {Msg} (f : bytes -> option Msg) : LengthPrefixedDecoder Msg :=
  mkLengthPrefixed f DEFAULT_MAX_FRAME_LEN.
Definition with_max_frame_len {Msg} (f : bytes -> option Msg) (n : Z) : LengthPrefixedDecoder Msg :=
  mkLengthPrefixed f n.

(** The buffer is matched on its first four bytes: a shorter one is incomplete. *)
#[export] Instance lp_try_decode {Msg} : MessageDecoder (LengthPrefixedDecoder Msg) Msg :=
  fun self buffer =>
    match buffer with
    | b0 :: b1 :: b2 :: b3 :: _ =>
        let payload_len := from_be_bytes b0 b1 b2 b3 in
        if (max_frame_len self <? payload_len)%Z then Corrupt
        else
          let total := LENGTH_PREFIX_SIZE + Z.to_nat payload_len in
          if decide (length buffer < total) then Incomplete
          else Frame total
                 (deserialize self (take (total - LENGTH_PREFIX_SIZE) (drop LENGTH_PREFIX_SIZE buffer)))
    | _ => Incomplete
    end.

(** ** Lemmas *)
Lemma be_bytes_roundtrip n :
  (0 <= n < 2 ^ 32)%Z ->
  match to_be_bytes n with [a; b; c; d] => from_be_bytes a b c d = n | _ => False end.
Proof. intros Hn. cbn. unfold from_be_bytes. Z.to_euclidean_division_equations. lia. Qed.

Lemma to_be_bytes_range n : Forall is_byte (to_be_bytes n).
Proof. unfold is_byte. repeat constructor; apply Z.mod_pos_bound; lia. Qed.

Lemma length_frame p : length (length_prefixed_frame p) = 4 + length p.
Proof. done. Qed.

Section length_prefixed.
Context {Msg : Type} (d : LengthPrefixedDecoder Msg).

#[export] Instance lp_stream : StreamDecoder d.
Proof.
  split; unfold try_decode, lp_try_decode; intros b.
  - intros c m. repeat (case_match; simplify_eq/=; try done).
    unfold LENGTH_PREFIX_SIZE in *. intros; simplify_eq/=. lia.
  - intros x c m. destruct b as [|b0 [|b1 [|b2 [|b3 b]]]]; simplify_eq/=; try done.
    case_match; [done|]. repeat case_decide; rewrite ?length_app in *; try done; try lia.
    intros [= <- <-]. f_equal. f_equal.
    rewrite !drop_0, take_app_le; [done|]. unfold LENGTH_PREFIX_SIZE in *. lia.
  - intros x. destruct b as [|b0 [|b1 [|b2 [|b3 b]]]]; simplify_eq/=; try done.
    case_match; [done|]. by case_decide.
Qed.

(** The decoder on a frame followed by anything. *)
Lemma lp_decode_frame p rest :
  (Z.of_nat (length p) <= max_frame_len d)%Z -> (Z.of_nat (length p) < 2 ^ 32)%Z ->
  try_decode d (length_prefixed_frame p ++ rest)
  = Frame (length (length_prefixed_frame p)) (deserialize d p).
Proof.
  intros Hmax Hlen. unfold length_prefixed_frame, wrap_u32.
  rewrite (Z.mod_small (Z.of_nat (length p))) by lia.
  pose proof (be_bytes_roundtrip (Z.of_nat (length p)) ltac:(lia)) as Hrt.
  unfold try_decode, lp_try_decode. cbn [to_be_bytes app] in *. rewrite Hrt.
  destruct (Z.ltb_spec (max_frame_len d) (Z.of_nat (length p))); [lia|].
  rewrite Nat2Z.id. unfold LENGTH_PREFIX_SIZE. case_decide as Hd.
  - cbn in Hd. rewrite length_app in Hd. lia.
  - f_equal. f_equal. rewrite Nat.add_comm, Nat.add_sub. cbn. rewrite drop_0. by apply take_app_length.
Qed.
End length_prefixed.

(** ** Properties *)
Section properties.
Context {Msg : Type}.

(** A payload no longer than the decoder's limit survives the encoder and
    the decoder: whatever follows it in the buffer, the decoder consumes
    exactly its frame and hands the deserializer exactly its bytes; and every
    proper prefix of the frame is reported incomplete, never corrupt. *)
Theorem length_prefixed_roundtrip (d : LengthPrefixedDecoder Msg) (p : bytes) :
  (Z.of_nat (length p) <= max_frame_len d)%Z -> (max_frame_len d < 2 ^ 32)%Z ->
  (forall rest, try_decode d (encode mkLengthPrefixedEncoder p ++ rest)
     = Frame (length (encode mkLengthPrefixedEncoder p)) (deserialize d p))
  /\ (forall n, n < length (encode mkLengthPrefixedEncoder p) ->
       try_decode d (take n (encode mkLengthPrefixedEncoder p)) = Incomplete).
Proof.
  intros Hmax Hlen. change (encode mkLengthPrefixedEncoder p) with (length_prefixed_frame p).
  split; [intros rest; apply lp_decode_frame; lia|].
  intros n Hn. pose proof (lp_decode_frame d p [] Hmax ltac:(lia)) as Hfull.
  rewrite app_nil_r in Hfull.
  rewrite <- (take_drop n (length_prefixed_frame p)) in Hfull at 1.
  destruct (try_decode d (take n (length_prefixed_frame p))) as [|c m|] eqn:E; [done|..].
  - pose proof (frame_bounds _ _ _ E) as Hb. rewrite length_take in Hb.
    rewrite (frame_stable _ _ _ _ E) in Hfull.
    assert (c = length (length_prefixed_frame p)) by congruence. lia.
  - by rewrite (corrupt_stable _ _ E) in Hfull.
Qed.

(** The length prefix is the payload's length modulo [2^32]: a payload of
    [2^32] bytes or more is framed without an error, and the decoder then cuts
    it at the truncated length and reads the rest as the next frame. *)
Theorem oversized_payload_truncated (d : LengthPrefixedDecoder Msg) (p : bytes) :
  (2 ^ 32 <= Z.of_nat (length p))%Z -> (2 ^ 32 <= max_frame_len d)%Z ->
  let n := Z.to_nat (wrap_u32 (Z.of_nat (length p))) in
  try_decode d (encode mkLengthPrefixedEncoder p) = Frame (4 + n) (deserialize d (take n p))
  /\ 4 + n < length (encode mkLengthPrefixedEncoder p).
Proof.
  intros Hlen Hmax n.
  assert (0 <= wrap_u32 (Z.of_nat (length p)) < 2 ^ 32)%Z as Hw by (apply Z.mod_pos_bound; lia).
  assert (n < length p) as Hn by lia.
  split; [|change (4 + n < 4 + length p); lia].
  assert (encode mkLengthPrefixedEncoder p = length_prefixed_frame (take n p) ++ drop n p) as ->.
  { unfold encode, length_prefixed_encode, length_prefixed_frame.
    rewrite <- app_assoc, take_drop, length_take_le by lia. f_equal. f_equal.
    subst n. rewrite Z2Nat.id by lia. unfold wrap_u32 in *. by rewrite Zmod_mod. }
  rewrite lp_decode_frame by (rewrite length_take_le by lia; lia).
  rewrite length_frame, length_take_le by lia. done.
Qed.

End properties.

(** ** Witnesses *)
Definition demo_decoder : LengthPrefixedDecoder bytes := lp_new Some.

Lemma length_prefixed_roundtrip_witness :
  encode mkLengthPrefixedEncoder [7; 8; 9]%Z = [0; 0; 0; 3; 7; 8; 9]%Z
  /\ try_decode demo_decoder ([0; 0; 0; 3; 7; 8; 9] ++ [1])%Z = Frame 7 (Some [7; 8; 9]%Z).
Proof.
  split; [reflexivity|].
  apply (length_prefixed_roundtrip demo_decoder [7; 8; 9]%Z); vm_compute; congruence.
Defined.

Definition lenient_decoder : LengthPrefixedDecoder bytes := with_max_frame_len Some (2 ^ 40).

Lemma oversized_payload_truncated_witness :
  exists p : bytes, (2 ^ 32 <= Z.of_nat (length p))%Z
    /\ try_decode lenient_decoder (encode mkLengthPrefixedEncoder p)
       = Frame 4 (Some []).
Proof.
  exists (replicate (Z.to_nat (2 ^ 32)) 0%Z).
  assert (Z.of_nat (length (replicate (Z.to_nat (2 ^ 32)) 0%Z)) = 2 ^ 32)%Z as Hlen
    by (rewrite length_replicate; apply Z2Nat.id; lia).
  generalize dependent (replicate (Z.to_nat (2 ^ 32)) 0%Z). intros p Hlen.
  split; [rewrite Hlen; lia|].
  destruct (oversized_payload_truncated lenient_decoder p) as [H _];
    [rewrite Hlen; lia|vm_compute; congruence|].
  etransitivity; [exact H|]. rewrite Hlen. reflexivity.
Defined.
