(* ===== verification/SessionHost.v ===== *)
(** The session actor host ([dignus-actor-network/src/session_actor_host.rs],
    [network_session_ref.rs]): one actor per connection, the reassembly buffer
    of each session, and the receive loop that turns stream chunks into
    messages.  The actor system and the session's send side are an interface;
    the decoder is any [MessageDecoder]. *)
From S2P Require Import Prelude Codec.
Local Open Scope nat_scope.

(** What the host asks of the actor system ([spawn_*], [ActorRef::post],
    [ActorRef::kill]) and of the session ([id], [close]), over a world [W].
    [spawn] is told the session whose sender the factory receives. *)
Class HostEnv (Ref Session Msg W : Type) : Type := {
  session_id : Session -> Z;
  spawn : option Z -> Z -> Session -> M W Ref;
  ref_post : Ref -> Msg -> W -> W;
  ref_kill : Ref -> W -> W;
  session_close : Session -> W -> W;
}.

Definition DEFAULT_MAILBOX_CAPACITY : Z := 1024.

Record SessionHostOptions : Type := mkOptions {
  mailbox_capacity : Z; dispatcher_index : option Z }.
Definition default_options : SessionHostOptions := mkOptions DEFAULT_MAILBOX_CAPACITY None.

Section host.
Context {D Msg Ref Session W : Type}.
Context `{!MessageDecoder D Msg} `{!HostEnv Ref Session Msg W}.

Record NetworkSessionRef : Type := mkNetworkSession { actor_ref : Ref; session : Session }.

Record SessionEntry : Type := mkEntry { network_session : NetworkSessionRef; inbound : bytes }.

Record SessionActorHost : Type := mkHost {
  decoder : D;
  options : SessionHostOptions;
  sessions : gmap Z SessionEntry;
}.

Definition with_options (d : D) (o : SessionHostOptions) : SessionActorHost := mkHost d o ∅.
Definition new_host (d : D) : SessionActorHost := with_options d default_options.

Definition set_sessions (h : SessionActorHost) (m : gmap Z SessionEntry) : SessionActorHost :=
  mkHost (decoder h) (options h) m.

(** [NetworkSessionRef::new], [id] and [actor_ref]. *)
Definition ns_new (r : Ref) (s : Session) : NetworkSessionRef := mkNetworkSession r s.
Definition ns_id (n : NetworkSessionRef) : Z := session_id (Ref := Ref) (Msg := Msg) (W := W) (session n).
Definition ns_actor_ref (n : NetworkSessionRef) : Ref := actor_ref n.

(** [NetworkSessionRef::post], [close] and [kill]. *)
Definition ns_post (n : NetworkSessionRef) (m : Msg) (w : W) : W := ref_post (actor_ref n) m w.
Definition ns_close (n : NetworkSessionRef) (w : W) : W :=
  session_close (Ref := Ref) (Msg := Msg) (session n) w.
Definition ns_kill (n : NetworkSessionRef) (w : W) : W :=
  ref_kill (Session := Session) (Msg := Msg) (actor_ref n) (ns_close n w).

Notation state := (SessionActorHost * W)%type.
Notation sid := (session_id (Ref := Ref) (Msg := Msg) (W := W)).

(** A panicking spawn leaves no entry; an entry of the same id is replaced. *)
Definition on_accepted (s : Session) (st : state) : outcome unit * state :=
  let '(h, w) := st in
  match spawn (Ref := Ref) (Msg := Msg) (dispatcher_index (options h))
          (mailbox_capacity (options h)) s w with
  | (Ok r, w') =>
      (Ok tt, (set_sessions h (<[ sid s := mkEntry (ns_new r s) [] ]> (sessions h)), w'))
  | (Panic msg, w') => (Panic msg, (h, w'))
  | (UB msg, w') => (UB msg, (h, w'))
  end.

(** The [loop] over [&buffer[offset..]]: the final offset and whether the
    decoder found corruption.  [None] is a loop that has not ended within the
    fuel; an offset past the end is the slice's panic. *)
Fixpoint decode_loop (fuel : nat) (d : D) (n : NetworkSessionRef) (buffer : bytes)
    (offset : nat) (w : W) : option (outcome (nat * bool) * W) :=
  match fuel with
  | O => None
  | S fuel' =>
      if decide (length buffer < offset) then Some (Panic "slice index out of range", w)
      else
        match try_decode (Msg := Msg) d (drop offset buffer) with
        | Incomplete => Some (Ok (offset, false), w)
        | Corrupt => Some (Ok (offset, true), w)
        | Frame consumed message =>
            let w' := match message with Some m => ns_post n m w | None => w end in
            decode_loop fuel' d n buffer (offset + consumed) w'
        end
  end.

Definition set_inbound (h : SessionActorHost) (i : Z) (e : SessionEntry) (b : bytes) :
    SessionActorHost :=
  set_sessions h (<[ i := mkEntry (network_session e) b ]> (sessions h)).

Definition on_data (s : Session) (data : bytes) (st : state) : option (outcome unit * state) :=
  let '(h, w) := st in
  match sessions h !! sid s with
  | None => Some (Ok tt, (h, w))
  | Some entry =>
      let n := network_session entry in
      match inbound entry with
      | [] =>
          match decode_loop (S (length data)) (decoder h) n data 0 w with
          | Some (Ok (offset, corrupt), w') =>
              if corrupt then Some (Ok tt, (h, ns_close n w'))
              else if decide (offset < length data)
              then Some (Ok tt, (set_inbound h (sid s) entry (drop offset data), w'))
              else Some (Ok tt, (h, w'))
          | Some (Panic msg, w') => Some (Panic msg, (h, w'))
          | Some (UB msg, w') => Some (UB msg, (h, w'))
          | None => None
          end
      | _ =>
          let buffer := inbound entry ++ data in
          match decode_loop (S (length buffer)) (decoder h) n buffer 0 w with
          | Some (Ok (offset, corrupt), w') =>
              let rest := if decide (0 < offset) then drop offset buffer else buffer in
              let h' := set_inbound h (sid s) entry rest in
              Some (Ok tt, (h', if corrupt then ns_close n w' else w'))
          | Some (Panic msg, w') => Some (Panic msg, (set_inbound h (sid s) entry buffer, w'))
          | Some (UB msg, w') => Some (UB msg, (set_inbound h (sid s) entry buffer, w'))
          | None => None
          end
      end
  end.

Definition on_disconnected (i : Z) (st : state) : outcome unit * state :=
  let '(h, w) := st in
  match sessions h !! i with
  | Some e =>
      (Ok tt, (set_sessions h (delete i (sessions h)),
               ref_kill (Session := Session) (Msg := Msg) (actor_ref (network_session e)) w))
  | None => (Ok tt, (h, w))
  end.

(** The reactor feeds a session one chunk after another. *)
Fixpoint feed (s : Session) (chunks : list bytes) (st : state) : option (outcome unit * state) :=
  match chunks with
  | [] => Some (Ok tt, st)
  | c :: rest =>
      match on_data s c st with
      | Some (Ok tt, st') => feed s rest st'
      | other => other
      end
  end.

(** ** The stream a decoder sees, independent of how it was cut *)
Inductive parses (d : D) : bytes -> list Msg -> bytes -> bool -> Prop :=
| parses_incomplete b :
    try_decode (Msg := Msg) d b = Incomplete -> parses d b [] b false
| parses_corrupt b :
    try_decode (Msg := Msg) d b = Corrupt -> parses d b [] b true
| parses_frame b c m ms rest k :
    try_decode d b = Frame c m -> parses d (drop c b) ms rest k ->
    parses d b (option_list m ++ ms) rest k.

Definition deliver (n : NetworkSessionRef) (ms : list Msg) (w : W) : W :=
  foldl (fun w m => ns_post n m w) w ms.
End host.
Arguments NetworkSessionRef Ref Session : clear implicits.
Arguments SessionEntry Ref Session : clear implicits.
Arguments SessionActorHost D Ref Session : clear implicits.

Section lemmas.
Context {D Msg Ref Session W : Type}.
Context `{!MessageDecoder D Msg} `{!HostEnv Ref Session Msg W}.
Context (d : D) `{!StreamDecoder d}.
Notation parses := (parses (Msg := Msg)).
Notation sid := (session_id (Ref := Ref) (Msg := Msg) (W := W)).

Lemma parses_det b ms rest k ms' rest' k' :
  parses d b ms rest k -> parses d b ms' rest' k' -> ms = ms' /\ rest = rest' /\ k = k'.
Proof.
  intros H. revert ms' rest' k'. induction H as [b E|b E|b c m ms rest k E H IH];
    intros ms' rest' k' H'; inversion H' as [? E'|? E'|? c' m' ? ? ? E' H2]; subst;
    rewrite E in E'; simplify_eq; try done.
  destruct (IH _ _ _ H2) as (-> & -> & ->). done.
Qed.

(** More bytes extend an uncorrupted parse, and leave a corrupted one. *)
Lemma parses_app b ms rest x ms' rest' k :
  parses d b ms rest false -> parses d (rest ++ x) ms' rest' k ->
  parses d (b ++ x) (ms ++ ms') rest' k.
Proof.
  remember false as f eqn:Ef. intros H H'. induction H as [b E|b E|b c m ms rest ? E H IH]; [done..|].
  rewrite <- app_assoc. apply parses_frame with c; [by apply frame_stable|].
  rewrite drop_app_le by (apply (frame_bounds (Msg := Msg)) in E; lia). by apply IH.
Qed.

Lemma parses_corrupt_app b ms rest x :
  parses d b ms rest true -> parses d (b ++ x) ms (rest ++ x) true.
Proof.
  remember true as f eqn:Ef. intros H. induction H as [b E|b E|b c m ms rest ? E H IH]; [done|..].
  - apply parses_corrupt. by apply corrupt_stable.
  - apply parses_frame with c; [by apply frame_stable|].
    rewrite drop_app_le by (apply (frame_bounds (Msg := Msg)) in E; lia). by apply IH.
Qed.

(** Every buffer parses: the receive loop ends within its fuel, and does what
    the parse says. *)
Lemma decode_loop_parses (n : NetworkSessionRef Ref Session) buffer fuel : forall offset w,
  length buffer - offset < fuel -> offset <= length buffer ->
  exists ms offset' k,
    decode_loop fuel d n buffer offset w = Some (Ok (offset', k), deliver n ms w)
    /\ parses d (drop offset buffer) ms (drop offset' buffer) k
    /\ offset <= offset' <= length buffer.
Proof.
  induction fuel as [|fuel IH]; intros offset w Hf Ho; [lia|]. cbn.
  rewrite decide_False by lia.
  destruct (try_decode d (drop offset buffer)) as [|c m|] eqn:E.
  - exists [], offset, false. split_and!; [done|by constructor|lia..].
  - pose proof (frame_bounds _ _ _ E) as Hb. rewrite length_drop in Hb.
    destruct (IH (offset + c) (match m with Some m => ns_post n m w | None => w end))
      as (ms & o & k & He & Hp & Hr); [lia..|].
    exists (option_list m ++ ms), o, k. split_and!; [|..|lia|lia].
    + rewrite He. f_equal. f_equal. by destruct m.
    + apply parses_frame with c; [done|]. by rewrite drop_drop.
  - exists [], offset, true. split_and!; [done|by constructor|lia..].
Qed.

Lemma decode_parses (n : NetworkSessionRef Ref Session) buffer w :
  exists ms o k,
    decode_loop (S (length buffer)) d n buffer 0 w = Some (Ok (o, k), deliver n ms w)
    /\ parses d buffer ms (drop o buffer) k /\ o <= length buffer.
Proof.
  destruct (decode_loop_parses n buffer (S (length buffer)) 0 w)
    as (ms & o & k & He & Hp & Hr); [lia..|]. exists ms, o, k. split_and!; [done|done|lia].
Qed.

(** [on_data] of a known session, by the parse of what it has plus what came. *)
Lemma on_data_parses (h : SessionActorHost D Ref Session) s e data w :
  decoder h = d -> sessions h !! sid s = Some e ->
  exists ms rest k h', 
    parses d (inbound e ++ data) ms rest k
    /\ on_data s data (h, w) = Some (Ok tt, (h',
         let w' := deliver (network_session e) ms w in
         if k then ns_close (Msg := Msg) (network_session e) w' else w'))
    /\ (k = false -> h' = set_inbound h (sid s) e rest)
    /\ (k = true -> h' = if decide (inbound e = []) then h else set_inbound h (sid s) e rest).
Proof.
  intros Hd He. unfold on_data. rewrite He, Hd.
  destruct (inbound e) as [|b0 bs] eqn:Ei.
  - destruct (decode_parses (network_session e) data w) as (ms & o & k & -> & Hp & Ho).
    exists ms, (drop o data), k.
    assert (set_inbound h (sid s) e [] = h) as Hid.
    { unfold set_inbound, set_sessions. destruct h as [dd oo ss], e as [nn ii]. cbn in *. subst ii.
      by rewrite insert_id. }
    destruct k; [exists h; by split_and!|].
    case_decide; eexists; (split_and!; [done|done| |done]); [done|].
    intros _. rewrite drop_ge by lia. done.
  - destruct (decode_parses (network_session e) ((b0 :: bs) ++ data) w)
      as (ms & o & k & -> & Hp & Ho).
    exists ms, (drop o ((b0 :: bs) ++ data)), k. eexists.
    split_and!; [done|by destruct k|..]; intros _; rewrite ?decide_False by done;
      f_equal; case_decide; try done; by replace o with 0 by lia.
Qed.

Lemma on_data_other (h : SessionActorHost D Ref Session) s e data w h' w' i :
  decoder h = d -> sessions h !! sid s = Some e -> on_data s data (h, w) = Some (Ok tt, (h', w')) ->
  decoder h' = d /\ (i <> sid s -> sessions h' !! i = sessions h !! i).
Proof.
  intros Hd He Hon. destruct (on_data_parses h s e data w Hd He)
    as (ms & rest & k & h1 & _ & Hon' & Hf & Ht). rewrite Hon in Hon'. simplify_eq.
  assert (h1 = h \/ h1 = set_inbound h (sid s) e rest) as [->| ->].
  { destruct k; [specialize (Ht eq_refl)|specialize (Hf eq_refl); auto].
    case_decide; auto. }
  - done.
  - split; [done|]. intros Hne. cbn. by rewrite lookup_insert_ne.
Qed.
End lemmas.

Section feeding.
Context {D Msg Ref Session W : Type}.
Context `{!MessageDecoder D Msg} `{!HostEnv Ref Session Msg W}.
Context (d : D) `{!StreamDecoder d}.
Notation parses := (parses (Msg := Msg)).
Notation sid := (session_id (Ref := Ref) (Msg := Msg) (W := W)).
Implicit Types (h : SessionActorHost D Ref Session) (e : SessionEntry Ref Session).

Lemma parses_settled b ms rest : parses d b ms rest false ->
  try_decode (Msg := Msg) d rest = Incomplete.
Proof. remember false as f eqn:Ef. intros H. by induction H; auto. Qed.

Lemma set_inbound_twice h i e b b' :
  set_inbound (set_inbound h i e b) i (mkEntry (network_session e) b) b' = set_inbound h i e b'.
Proof. unfold set_inbound, set_sessions. cbn. by rewrite insert_insert_eq. Qed.

Lemma deliver_app (n : NetworkSessionRef Ref Session) ms ms' (w : W) :
  deliver n ms' (deliver n ms w) = deliver n (ms ++ ms') w.
Proof. unfold deliver. by rewrite foldl_app. Qed.

Lemma feed_app s chunks chunks' (st : SessionActorHost D Ref Session * W) :
  feed s (chunks ++ chunks') st
  = match feed s chunks st with Some (Ok tt, st') => feed s chunks' st' | other => other end.
Proof.
  revert st. induction chunks as [|c chunks IH]; intros st; cbn [feed app]; [done|].
  destruct (on_data s c st) as [[[[]| |] st']|]; done || apply IH.
Qed.

Lemma feed_parses chunks : forall h s e w ms rest,
  decoder h = d -> sessions h !! sid s = Some e ->
  try_decode (Msg := Msg) d (inbound e) = Incomplete ->
  parses d (inbound e ++ concat chunks) ms rest false ->
  feed s chunks (h, w)
  = Some (Ok tt, (set_inbound h (sid s) e rest, deliver (network_session e) ms w)).
Proof.
  induction chunks as [|c chunks IH]; intros h s e w ms rest Hd He Hinc Hp; cbn [concat feed] in *.
  - rewrite app_nil_r in Hp.
    destruct (parses_det d _ _ _ _ _ _ _ Hp (parses_incomplete d _ Hinc)) as (-> & -> & _).
    cbn. do 3 f_equal. unfold set_inbound, set_sessions. destruct h, e. cbn in *.
    by rewrite insert_id.
  - rewrite app_assoc in Hp.
    destruct (on_data_parses d h s e c w Hd He) as (ms1 & rest1 & k & h' & Hp1 & Hon & Hf & _).
    destruct k.
    { destruct (parses_det d _ _ _ _ _ _ _ Hp (parses_corrupt_app d _ _ _ _ Hp1)) as (_ & _ & [=]). }
    rewrite (Hf eq_refl) in Hon. cbn [andb] in Hon. rewrite Hon.
    assert (exists ms2, ms = ms1 ++ ms2 /\ parses d (rest1 ++ concat chunks) ms2 rest false)
      as (ms2 & -> & Hp2).
    { destruct (decode_parses d (network_session e) (rest1 ++ concat chunks) w)
        as (ms2 & o & k & _ & Hp2 & _).
      destruct (parses_det d _ _ _ _ _ _ _ Hp (parses_app d _ _ _ _ _ _ _ Hp1 Hp2))
        as (-> & -> & <-). eauto. }
    rewrite (IH _ s (mkEntry (network_session e) rest1) _ ms2 rest); cbn; try done.
    + by rewrite set_inbound_twice, deliver_app.
    + by rewrite lookup_insert_eq.
    + by eapply parses_settled.
Qed.
End feeding.

(** ** A stream of length-prefixed frames *)
Section frames.
Context {Msg : Type} (d : LengthPrefixedDecoder Msg).

Definition frames (ps : list bytes) : bytes := concat (map (encode mkLengthPrefixedEncoder) ps).

Definition fits (p : bytes) : Prop :=
  (Z.of_nat (length p) <= max_frame_len d)%Z /\ (Z.of_nat (length p) < 2 ^ 32)%Z.

Lemma frames_parse ps tail ms rest k :
  Forall fits ps -> parses (Msg := Msg) d tail ms rest k ->
  parses d (frames ps ++ tail) (omap (deserialize d) ps ++ ms) rest k.
Proof.
  intros Hps Htail. induction Hps as [|p ps [Hm Hl] _ IH]; [done|].
  unfold frames in *. cbn [map concat]. rewrite <- app_assoc.
  assert (omap (deserialize d) (p :: ps) ++ ms
    = option_list (deserialize d p) ++ (omap (deserialize d) ps ++ ms)) as ->
    by (cbn; by destruct (deserialize d p)).
  eapply parses_frame; [by apply lp_decode_frame|].
  by rewrite drop_app_length.
Qed.
End frames.

(** ** Properties *)
Section properties.
Context {Msg Ref Session W : Type} `{!HostEnv Ref Session Msg W}.
Notation sid := (session_id (Ref := Ref) (Msg := Msg) (W := W)).

(** C27.  Cutting the stream does not matter: whatever chunks the socket
    delivers, as long as the decoder finds no corruption in the stream, the
    host posts to the session's actor exactly the messages of the whole
    stream, in order, keeps exactly its undecoded tail, and touches no other
    session.  The receive loop ends. *)
Theorem on_data_chunking {D} `{!MessageDecoder D Msg} (d : D) `{!StreamDecoder d}
    (h : SessionActorHost D Ref Session) s e w chunks ms rest :
  decoder h = d -> sessions h !! sid s = Some e ->
  try_decode (Msg := Msg) d (inbound e) = Incomplete ->
  parses d (inbound e ++ concat chunks) ms rest false ->
  feed s chunks (h, w)
  = Some (Ok tt, (mkHost d (options h)
      (<[ sid s := mkEntry (network_session e) rest ]> (sessions h)),
      deliver (network_session e) ms w)).
Proof. intros Hd He Hinc Hp. rewrite (feed_parses d chunks h s e w ms rest) by done. by rewrite <- Hd. Qed.

(** End to end: frames written by the length-prefixed encoder, cut into
    chunks at any places, arrive as the deserialized payloads, each exactly
    once and in order, and nothing stays in the reassembly buffer. *)
Theorem frames_delivered (d : LengthPrefixedDecoder Msg)
    (h : SessionActorHost (LengthPrefixedDecoder Msg) Ref Session) s n w ps chunks :
  decoder h = d -> sessions h !! sid s = Some (mkEntry n []) ->
  Forall (fits d) ps -> concat chunks = frames ps ->
  feed s chunks (h, w) = Some (Ok tt, (h, deliver n (omap (deserialize d) ps) w)).
Proof.
  intros Hd He Hps Hc.
  pose proof (frames_parse d ps [] [] [] false Hps (parses_incomplete d [] eq_refl)) as Hp.
  rewrite !app_nil_r, <- Hc in Hp.
  rewrite (feed_parses d chunks h s _ w _ [] Hd He eq_refl Hp).
  do 3 f_equal. unfold set_inbound, set_sessions. destruct h. cbn in *. by rewrite insert_id.
Qed.

(** A frame announced longer than the limit ends the connection: the
    messages before it are posted in order, then the session is closed, once,
    however the bytes up to there were cut. *)
Theorem corrupt_stream_closes {D} `{!MessageDecoder D Msg} (d : D) `{!StreamDecoder d}
    (h : SessionActorHost D Ref Session) s e w chunks c ms1 rest1 ms rest :
  decoder h = d -> sessions h !! sid s = Some e ->
  try_decode (Msg := Msg) d (inbound e) = Incomplete ->
  parses d (inbound e ++ concat chunks) ms1 rest1 false ->
  parses d (inbound e ++ concat chunks ++ c) ms rest true ->
  exists h', feed s (chunks ++ [c]) (h, w)
    = Some (Ok tt, (h', ns_close (Msg := Msg) (network_session e)
                          (deliver (network_session e) ms w))).
Proof.
  intros Hd He Hinc Hp1 Hp. pose proof (feed_parses d chunks h s e w ms1 rest1 Hd He Hinc Hp1) as Hf.
  rewrite feed_app, Hf. cbn [feed].
  destruct (on_data_parses d (set_inbound h (sid s) e rest1) s (mkEntry (network_session e) rest1)
    c (deliver (network_session e) ms1 w)) as (ms2 & rest2 & k & h' & Hp2 & -> & _);
    [done|cbn; apply lookup_insert_eq|].
  rewrite app_assoc in Hp.
  destruct (parses_det d _ _ _ _ _ _ _ Hp (parses_app d _ _ _ _ _ _ _ Hp1 Hp2)) as (-> & _ & <-).
  exists h'. cbn. by rewrite deliver_app.
Qed.
End properties.

(** ** A concrete environment: actors and sessions are numbers, the world is
    the log of what was done, oldest first. *)
Inductive host_event : Type :=
| Spawned (i cap : Z) | Posted (i : Z) (m : bytes) | Closed (i : Z) | Killed (i : Z).

#[local] Instance log_env : HostEnv Z Z bytes (list host_event) := {
  session_id s := s;
  spawn _ cap s := fun w => (Ok s, w ++ [Spawned s cap]);
  ref_post r m w := w ++ [Posted r m];
  ref_kill r w := w ++ [Killed r];
  session_close s w := w ++ [Closed s];
}.

Definition demo_lp : LengthPrefixedDecoder bytes := with_max_frame_len Some 8.
Definition demo_host : SessionActorHost (LengthPrefixedDecoder bytes) Z Z * list host_event :=
  (on_accepted (Msg := bytes) 5%Z (new_host demo_lp, [])).2.

Definition log_of {A B} (r : option (outcome A * (B * list host_event))) : list host_event :=
  match r with Some (_, (_, w)) => w | None => [] end.

Definition too_long : bytes := [0; 0; 0; 9]%Z.
Definition good_frame : bytes := encode mkLengthPrefixedEncoder [1]%Z.

(** After corruption the outcome depends on the cut.  The same bytes, an
    oversized length prefix and then a good frame, are delivered in two ways:
    in one chunk the session is closed and nothing is posted; as two chunks the
    bytes after the corruption are taken for a fresh stream, and a message is
    posted after the close. *)
Theorem corrupt_stream_resyncs :
  log_of (feed (Msg := bytes) 5%Z [too_long ++ good_frame] demo_host)
    = [Spawned 5 1024; Closed 5]
  /\ log_of (feed (Msg := bytes) 5%Z [too_long; good_frame] demo_host)
    = [Spawned 5 1024; Closed 5; Posted 5 [1]%Z].
Proof. split; vm_compute; reflexivity. Qed.

(** ** Witnesses *)
Lemma demo_entry :
  sessions demo_host.1 !! 5%Z = Some (mkEntry (mkNetworkSession 5%Z 5%Z) []).
Proof. vm_compute. reflexivity. Qed.

Lemma on_data_chunking_witness :
  exists h', feed (Msg := bytes) 5%Z [[0; 0; 0]; [1; 7; 0]]%Z demo_host
    = Some (Ok tt, (h', [Spawned 5 1024; Posted 5 [7]%Z])).
Proof.
  eexists. change demo_host with (demo_host.1, demo_host.2).
  etransitivity; [apply (on_data_chunking demo_lp demo_host.1 5%Z
    (mkEntry (mkNetworkSession 5%Z 5%Z) []) demo_host.2 [[0; 0; 0]; [1; 7; 0]]%Z [[7]]%Z [0]%Z);
    [reflexivity|apply demo_entry|reflexivity|]|reflexivity].
  apply (parses_frame demo_lp _ 5 (Some [7]%Z) [] [0]%Z); [reflexivity|].
  apply parses_incomplete. reflexivity.
Defined.

Lemma frames_delivered_witness :
  feed (Msg := bytes) 5%Z [[0; 0]; [0; 1; 7; 0; 0; 0]; [2; 8; 9]]%Z demo_host
  = Some (Ok tt, (demo_host.1, [Spawned 5 1024; Posted 5 [7]; Posted 5 [8; 9]]%Z)).
Proof.
  change demo_host with (demo_host.1, demo_host.2) at 1.
  etransitivity; [apply (frames_delivered demo_lp demo_host.1 5%Z (mkNetworkSession 5%Z 5%Z)
    demo_host.2 [[7]; [8; 9]]%Z); [reflexivity|apply demo_entry| |reflexivity]|reflexivity].
  repeat constructor; vm_compute; congruence.
Defined.

Lemma corrupt_stream_closes_witness :
  exists h', feed (Msg := bytes) 5%Z [[0; 0; 0; 1; 7; 0]; [0; 0; 9]]%Z demo_host
    = Some (Ok tt, (h', [Spawned 5 1024; Posted 5 [7]; Closed 5]%Z)).
Proof.
  change demo_host with (demo_host.1, demo_host.2).
  destruct (corrupt_stream_closes demo_lp demo_host.1 5%Z (mkEntry (mkNetworkSession 5%Z 5%Z) [])
    demo_host.2 [[0; 0; 0; 1; 7; 0]]%Z [0; 0; 9]%Z [[7]]%Z [0]%Z [[7]]%Z [0; 0; 0; 9]%Z)
    as [h' H]; [reflexivity|apply demo_entry|reflexivity|..|exists h'; exact H].
  - apply (parses_frame demo_lp _ 5 (Some [7]%Z) [] [0]%Z); [reflexivity|].
    apply parses_incomplete. reflexivity.
  - apply (parses_frame demo_lp _ 5 (Some [7]%Z) [] [0; 0; 0; 9]%Z); [reflexivity|].
    apply parses_corrupt. reflexivity.
Defined.
