(* ===== verification/NetSend.v ===== *)
(** The send side of a connection ([dignus-actor-network/src]): the outbound
    buffer ([send_buffer.rs]), [Session] with [send] and [close]
    ([session.rs], [send_result.rs]), [SessionSender] ([session_sender.rs]) and
    the TCP transport's loops ([transport.rs], [tcp_transport.rs]).  The socket
    is a parameter with the documented behaviour of [Read] and [Write]. *)
From S2P Require Import Prelude Codec.
Local Open Scope nat_scope.

(** ** [SendBuffer] *)
Record SendBuffer : Type := mkSendBuffer { data : bytes; offset : nat; max_pending : nat }.

Definition send_buffer_new (n : nat) : SendBuffer := mkSendBuffer [] 0 n.
Definition pending_len (b : SendBuffer) : nat := length (data b) - offset b.
Definition can_write (b : SendBuffer) (count : nat) : bool :=
  bool_decide (pending_len b + count <= max_pending b).
Definition append (bs : bytes) (b : SendBuffer) : SendBuffer :=
  mkSendBuffer (data b ++ bs) (offset b) (max_pending b).
Definition has_pending (b : SendBuffer) : bool := bool_decide (offset b < length (data b)).
(** [&self.data[self.offset..]]; the callers ask [has_pending] first. *)
Definition pending_slice (b : SendBuffer) : bytes := drop (offset b) (data b).
Definition advance (count : nat) (b : SendBuffer) : SendBuffer :=
  let o := offset b + count in
  if decide (length (data b) <= o) then mkSendBuffer [] 0 (max_pending b)
  else mkSendBuffer (data b) o (max_pending b).

(** ** [Session] *)
Inductive SendResult : Type := Success | BufferFull | Disposed.

(** The part of [ReactorShared] a session uses; [wakes] counts [waker.wake()]. *)
Record ReactorShared : Type := mkShared {
  stopped : bool;
  pending_writes : list Z;
  pending_closes : list Z;
  wakes : nat;
}.

Record Session : Type := mkSession {
  session_id : Z;
  token : Z;
  outbound : SendBuffer;
  disposed : bool;
  close_requested : bool;
}.

Definition session_new (id tok : Z) (max_pending_send : nat) : Session :=
  mkSession id tok (send_buffer_new max_pending_send) false false.

Definition set_outbound (s : Session) (b : SendBuffer) : Session :=
  mkSession (session_id s) (token s) b (disposed s) (close_requested s).

Definition send (bs : bytes) (st : Session * ReactorShared) :
    SendResult * (Session * ReactorShared) :=
  let '(s, sh) := st in
  if disposed s || stopped sh then (Disposed, (s, sh))
  else if negb (can_write (outbound s) (length bs)) then (BufferFull, (s, sh))
  else (Success,
        (set_outbound s (append bs (outbound s)),
         mkShared (stopped sh) (pending_writes sh ++ [token s]) (pending_closes sh) (S (wakes sh)))).

Definition close (st : Session * ReactorShared) : Session * ReactorShared :=
  let '(s, sh) := st in
  if disposed s then (s, sh)
  else if close_requested s then (s, sh)
  else (mkSession (session_id s) (token s) (outbound s) (disposed s) true,
        mkShared (stopped sh) (pending_writes sh) (pending_closes sh ++ [token s]) (S (wakes sh))).

Definition mark_disposed (s : Session) : Session :=
  mkSession (session_id s) (token s) (outbound s) true (close_requested s).

(** [SessionSender::send] and [send_raw]. *)
Definition sender_send {E} `{!FrameEncoder E} (encoder : E) (payload : bytes) :=
  send (encode encoder payload).
Definition sender_send_raw (bs : bytes) := send bs.

(** ** Sockets and the TCP transport *)
Inductive io_error : Type := WouldBlock | Interrupted | OtherError.
Inductive io_result (A : Type) : Type := IoOk (a : A) | IoErr (e : io_error).
Arguments IoOk {A} _.
Arguments IoErr {A} _.

Class Socket (S : Type) : Type := {
  sock_read : S -> nat -> io_result bytes * S;
  sock_write : S -> bytes -> io_result nat * S;
}.

(** [Read] and [Write] as documented: a read hands over at most the buffer's
    length of the bytes that have arrived, a write takes a prefix, an error
    transfers nothing. *)
Class SocketLaws (S : Type) `{!Socket S} : Type := {
  accepted : S -> bytes;
  obtained : S -> bytes;
  write_law : forall s b r s', sock_write s b = (r, s') -> obtained s' = obtained s
    /\ match r with
       | IoOk n => n <= length b /\ accepted s' = accepted s ++ take n b
       | IoErr _ => accepted s' = accepted s
       end;
  read_law : forall s n r s', sock_read s n = (r, s') -> accepted s' = accepted s
    /\ match r with
       | IoOk bs => length bs <= n /\ obtained s' = obtained s ++ bs
       | IoErr _ => obtained s' = obtained s
       end;
}.

Inductive TransportOutcome : Type := Continue | Closed.

Definition READ_BUFFER_SIZE : nat := 8192.

Section tcp.
Context {S : Type} `{!Socket S}.

(** [None]: the loop has not ended within the fuel (a socket may answer
    [Interrupted] for ever). *)
Fixpoint tcp_read (fuel : nat) (socket : S) (inbound : bytes) :
    option (TransportOutcome * S * bytes) :=
  match fuel with
  | O => None
  | Datatypes.S fuel' =>
      match sock_read socket READ_BUFFER_SIZE with
      | (IoOk [], socket') => Some (Closed, socket', inbound)
      | (IoOk bs, socket') => tcp_read fuel' socket' (inbound ++ bs)
      | (IoErr WouldBlock, socket') => Some (Continue, socket', inbound)
      | (IoErr Interrupted, socket') => tcp_read fuel' socket' inbound
      | (IoErr OtherError, socket') => Some (Closed, socket', inbound)
      end
  end.

Fixpoint tcp_write (fuel : nat) (socket : S) (b : SendBuffer) :
    option (TransportOutcome * S * SendBuffer) :=
  match fuel with
  | O => None
  | Datatypes.S fuel' =>
      if has_pending b
      then match sock_write socket (pending_slice b) with
           | (IoOk 0, socket') => Some (Closed, socket', b)
           | (IoOk count, socket') => tcp_write fuel' socket' (advance count b)
           | (IoErr WouldBlock, socket') => Some (Continue, socket', b)
           | (IoErr Interrupted, socket') => tcp_write fuel' socket' b
           | (IoErr OtherError, socket') => Some (Closed, socket', b)
           end
      else Some (Continue, socket, b)
  end.
End tcp.

Definition tcp_wants_write : bool := false.

(** ** Lemmas *)
(** A drained buffer is reset, so the offset stays inside the data. *)
Definition buffer_wf (b : SendBuffer) : Prop :=
  offset b <= length (data b) /\ (offset b = length (data b) -> data b = []).

Lemma buffer_wf_new n : buffer_wf (send_buffer_new n).
Proof. by split. Qed.

Lemma pending_len_slice b : pending_len b = length (pending_slice b).
Proof. unfold pending_len, pending_slice. by rewrite length_drop. Qed.

Lemma append_pending bs b :
  buffer_wf b -> buffer_wf (append bs b) /\ pending_slice (append bs b) = pending_slice b ++ bs.
Proof.
  intros [Ho He]. unfold append, pending_slice. split.
  - split; cbn; rewrite length_app; [lia|]. intros Heq.
    assert (offset b = length (data b)) as E by lia. rewrite (He E) in *. cbn in *.
    destruct bs; [done|cbn in *; lia].
  - cbn. by rewrite drop_app_le.
Qed.

Lemma advance_pending n b :
  buffer_wf b -> n <= length (pending_slice b) ->
  buffer_wf (advance n b) /\ pending_slice (advance n b) = drop n (pending_slice b).
Proof.
  intros [Ho He] Hn. rewrite <- pending_len_slice in Hn. unfold pending_len in Hn.
  unfold advance, pending_slice. case_decide as Hd; cbn.
  - split; [by split|]. rewrite drop_drop, drop_ge by lia. done.
  - split; [split; cbn; lia|]. by rewrite drop_drop.
Qed.

Lemma has_pending_slice b : buffer_wf b -> has_pending b = false <-> pending_slice b = [].
Proof.
  intros [Ho He]. unfold has_pending, pending_slice. rewrite bool_decide_eq_false. split.
  - intros H. by rewrite drop_ge by lia.
  - intros H%(f_equal length). rewrite length_drop in H. cbn in H. lia.
Qed.

Lemma can_write_spec b n :
  can_write b n = true <-> length (pending_slice b) + n <= max_pending b.
Proof. unfold can_write. by rewrite bool_decide_eq_true, pending_len_slice. Qed.

(** ** One connection over time *)
Section connection.
Context {S : Type} `{!Socket S} `{!SocketLaws S}.

Lemma tcp_write_pending fuel : forall (s s' : S) b b' o,
  tcp_write fuel s b = Some (o, s', b') -> buffer_wf b ->
  buffer_wf b' /\ max_pending b' = max_pending b
  /\ accepted s' ++ pending_slice b' = accepted s ++ pending_slice b
  /\ obtained s' = obtained s /\ length (pending_slice b') <= length (pending_slice b).
Proof.
  induction fuel as [|fuel IH]; intros s s' b b' o H Hwf; [done|]. cbn in H.
  destruct (has_pending b); [|by simplify_eq].
  destruct (sock_write s (pending_slice b)) as [[[|n]|[]] s1] eqn:Hw;
    destruct (write_law _ _ _ _ Hw) as [Hob Hacc]; simplify_eq.
  - destruct Hacc as [_ Ha]. rewrite take_0, app_nil_r in Ha. by rewrite Ha, Hob.
  - destruct Hacc as [Hn Ha]. destruct (advance_pending (Datatypes.S n) b Hwf Hn) as [Hwf1 Hp1].
    destruct (IH _ _ _ _ _ H Hwf1) as (Hwf' & Hm & He & Ho & Hl).
    split_and!; [done| |..].
    + rewrite Hm. unfold advance. by case_decide.
    + by rewrite He, Ha, Hp1, <- app_assoc, take_drop.
    + congruence.
    + rewrite Hp1, length_drop in Hl. lia.
  - by rewrite Hacc, Hob.
  - destruct (IH _ _ _ _ _ H Hwf) as (Hwf' & Hm & He & Ho & Hl).
    split_and!; try done; congruence.
  - by rewrite Hacc, Hob.
Qed.

Lemma tcp_read_obtained fuel : forall (s s' : S) b b' o,
  tcp_read fuel s b = Some (o, s', b') ->
  exists new, b' = b ++ new /\ obtained s' = obtained s ++ new /\ accepted s' = accepted s.
Proof.
  induction fuel as [|fuel IH]; intros s s' b b' o H; [done|]. cbn [tcp_read] in H.
  destruct (sock_read s READ_BUFFER_SIZE) as [[[|x l]|[]] s1] eqn:Hr;
    destruct (read_law _ _ _ _ Hr) as [Hac Hob]; simplify_eq.
  - destruct Hob as [_ Hob]. exists []. rewrite !app_nil_r in *. split_and!; congruence.
  - destruct Hob as [_ Hob]. destruct (IH _ _ _ _ _ H) as (new & -> & Ho & Ha).
    exists ((x :: l) ++ new). rewrite Ho, Hob, !app_assoc. split_and!; congruence.
  - exists []. rewrite !app_nil_r. split_and!; congruence.
  - destruct (IH _ _ _ _ _ H) as (new & -> & Ho & Ha). exists new. split_and!; congruence.
  - exists []. rewrite !app_nil_r. split_and!; congruence.
Qed.

(** What the actors and the reactor do with a session's outbound side. *)
Inductive conn_op : Type := SendOp (bs : bytes) | FlushOp (fuel : nat) | CloseOp.

Definition conn : Type := (Session * ReactorShared) * S.

(** The new state and the bytes of a successful send. *)
Definition conn_apply (op : conn_op) (c : conn) : option (bytes * conn) :=
  let '(st, sock) := c in
  match op with
  | SendOp bs =>
      match send bs st with
      | (Success, st') => Some (bs, (st', sock))
      | (_, st') => Some ([], (st', sock))
      end
  | FlushOp fuel =>
      match tcp_write fuel sock (outbound st.1) with
      | Some (_, sock', b) => Some ([], ((set_outbound st.1 b, st.2), sock'))
      | None => None
      end
  | CloseOp => Some ([], (close st, sock))
  end.

Fixpoint conn_run (ops : list conn_op) (c : conn) : option (bytes * conn) :=
  match ops with
  | [] => Some ([], c)
  | op :: rest =>
      match conn_apply op c with
      | Some (sent, c1) =>
          match conn_run rest c1 with
          | Some (sent', c2) => Some (sent ++ sent', c2)
          | None => None
          end
      | None => None
      end
  end.

(** The outbound buffer is sound and within its limit. *)
Definition conn_ok (c : conn) : Prop :=
  buffer_wf (outbound c.1.1)
  /\ length (pending_slice (outbound c.1.1)) <= max_pending (outbound c.1.1).

Lemma conn_step op c sent c' :
  conn_apply op c = Some (sent, c') -> conn_ok c ->
  conn_ok c' /\ max_pending (outbound c'.1.1) = max_pending (outbound c.1.1)
  /\ accepted c'.2 ++ pending_slice (outbound c'.1.1)
     = (accepted c.2 ++ pending_slice (outbound c.1.1)) ++ sent.
Proof.
  destruct c as [[s sh] sock]. intros H [Hwf Hmax]. cbn in *.
  destruct op as [bs|fuel|]; cbn in H.
  - unfold send in H. destruct (disposed s || stopped sh); simplify_eq/=; [by rewrite app_nil_r|].
    destruct (can_write (outbound s) (length bs)) eqn:Hc; simplify_eq/=; [|by rewrite app_nil_r].
    apply can_write_spec in Hc. destruct (append_pending sent (outbound s) Hwf) as [Hwf' Hp].
    unfold conn_ok. cbn [fst snd outbound set_outbound] in *. rewrite Hp. split_and!; [done| |done|by rewrite app_assoc].
    rewrite length_app. cbn in *. lia.
  - destruct (tcp_write fuel sock (outbound s)) as [[[o sock'] b]|] eqn:Hw; simplify_eq/=.
    destruct (tcp_write_pending _ _ _ _ _ _ Hw Hwf) as (Hwf' & Hm & He & _ & Hl).
    unfold conn_ok. cbn. rewrite app_nil_r. split_and!; try done. lia.
  - simplify_eq. unfold close. destruct (disposed s), (close_requested s); cbn; by rewrite app_nil_r.
Qed.

Lemma conn_run_ok ops : forall c sent c',
  conn_run ops c = Some (sent, c') -> conn_ok c ->
  conn_ok c' /\ max_pending (outbound c'.1.1) = max_pending (outbound c.1.1)
  /\ accepted c'.2 ++ pending_slice (outbound c'.1.1)
     = (accepted c.2 ++ pending_slice (outbound c.1.1)) ++ sent.
Proof.
  induction ops as [|op ops IH]; intros c sent c' H Hok; cbn in H; [simplify_eq; by rewrite app_nil_r|].
  destruct (conn_apply op c) as [[sent1 c1]|] eqn:H1; [|done].
  destruct (conn_run ops c1) as [[sent2 c2]|] eqn:H2; simplify_eq.
  destruct (conn_step op c sent1 c1 H1 Hok) as (Hok1 & Hm1 & He1).
  destruct (IH c1 sent2 c' H2 Hok1) as (Hok2 & Hm2 & He2).
  split_and!; [done|congruence|]. by rewrite He2, He1, <- !app_assoc.
Qed.

(** Bytes go out once and in order: over any sequence of sends, flushes
    and close requests on a fresh session, what the socket has accepted
    followed by what is still buffered is exactly the bytes of the successful
    sends, in their order; and never more than [max_pending] bytes are pending. *)
Theorem outbound_bytes_conserved (ops : list conn_op) (sock : S) (sh : ReactorShared) (id tok : Z)
    (limit : nat) sent s' sh' sock' :
  conn_run ops ((session_new id tok limit, sh), sock) = Some (sent, ((s', sh'), sock')) ->
  accepted sock' ++ pending_slice (outbound s') = accepted sock ++ sent
  /\ length (pending_slice (outbound s')) <= limit.
Proof.
  intros H. destruct (conn_run_ok ops _ _ _ H) as ([_ Hl] & Hm & He);
    [split; [apply buffer_wf_new|cbn; lia]|].
  cbn in *. rewrite app_nil_r in He. split; [done|lia].
Qed.

(** Flushing ends: on a socket that can be interrupted only finitely often
    (its patience), the write loop returns with fuel for the pending bytes and
    the interruptions, and unless the connection is to be closed everything is
    written or the socket would block. *)
Theorem tcp_write_terminates (patience : S -> nat) (sock : S) (b : SendBuffer) (fuel : nat) :
  (forall s x s', sock_write s x = (IoErr Interrupted, s') -> patience s' < patience s) ->
  (forall s x n s', sock_write s x = (IoOk n, s') -> patience s' <= patience s) ->
  buffer_wf b -> length (pending_slice b) + patience sock < fuel ->
  exists o sock' b', tcp_write fuel sock b = Some (o, sock', b')
    /\ (o = Continue -> pending_slice b' = []
        \/ exists s0, sock_write s0 (pending_slice b') = (IoErr WouldBlock, sock')).
Proof.
  intros Hint Hok. revert sock b. induction fuel as [|fuel IH]; intros sock b Hwf Hf; [lia|]. cbn.
  destruct (has_pending b) eqn:Hp.
  2: { eexists _, _, _. split; [done|]. intros _. left. by apply has_pending_slice. }
  destruct (sock_write sock (pending_slice b)) as [[[|n]|[]] s1] eqn:Hw.
  - eexists _, _, _. split; [done|]. done.
  - destruct (write_law _ _ _ _ Hw) as [_ [Hn _]]. specialize (Hok _ _ _ _ Hw).
    destruct (advance_pending (Datatypes.S n) b Hwf Hn) as [Hwf1 Hp1].
    apply IH; [done|]. rewrite Hp1, length_drop. lia.
  - eexists _, _, _. split; [done|]. eauto.
  - specialize (Hint _ _ _ Hw). apply IH; [done|lia].
  - eexists _, _, _. split; [done|]. done.
Qed.
End connection.
Arguments conn_op : clear implicits.
Arguments conn S : clear implicits.

(** ** A slow reader

    The peer takes one byte at a time, and for every byte it takes one more is
    sent.  The limit is two bytes. *)
Fixpoint lagging (k : nat) : SendBuffer :=
  match k with
  | O => append [0; 0]%Z (send_buffer_new 2)
  | S k' => append [0]%Z (advance 1 (lagging k'))
  end.

(** The limit bounds the pending bytes, not the buffer: written bytes are
    dropped only when the buffer drains completely, so against a reader that
    always lags by a byte every send is accepted, two bytes are pending, and
    the buffer grows with every byte ever sent. *)
Theorem send_buffer_grows (k : nat) :
  can_write (advance 1 (lagging k)) 1 = true
  /\ pending_len (lagging k) = 2 /\ length (data (lagging k)) = 2 + k.
Proof.
  assert (offset (lagging k) = k /\ length (data (lagging k)) = 2 + k /\ max_pending (lagging k) = 2)
    as (Ho & Hl & Hm).
  { induction k as [|k (Ho & Hl & Hm)]; [done|]. cbn [lagging].
    unfold advance. rewrite decide_False by lia. cbn. rewrite length_app. cbn. lia. }
  split_and!; [|unfold pending_len; lia|done].
  apply bool_decide_eq_true. unfold pending_len, advance. rewrite decide_False by lia. cbn. lia.
Qed.

(** ** Witnesses: a socket that follows a script, then would block *)
Record script_socket : Type := mkScript { script : list (io_result nat); taken : bytes }.

#[local] Instance script_is_socket : Socket script_socket := {
  sock_read s _ := (IoErr WouldBlock, s);
  sock_write s b :=
    match script s with
    | [] => (IoErr WouldBlock, s)
    | IoOk n :: rest => (IoOk (Nat.min n (length b)), mkScript rest (taken s ++ take n b))
    | IoErr e :: rest => (IoErr e, mkScript rest (taken s))
    end;
}.

#[local] Instance script_laws : SocketLaws script_socket.
Proof.
  refine {| accepted := taken; obtained _ := [] |}.
  - intros [[|[n|e] l] a] b r s' H; cbn in H; simplify_eq/=; try done.
    split; [done|]. split; [lia|]. f_equal. destruct (decide (n <= length b)).
    + by rewrite Nat.min_l.
    + rewrite Nat.min_r, !take_ge by lia. done.
  - intros s n r s' H. cbn in H. by simplify_eq.
Defined.

Definition demo_shared : ReactorShared := mkShared false [] [] 0.
Definition demo_socket : script_socket := mkScript [IoOk 2; IoErr WouldBlock; IoErr Interrupted; IoOk 1] [].
Definition demo_conn_ops : list conn_op :=
  [SendOp [1; 2; 3]%Z; SendOp [4; 5]%Z; FlushOp 5; SendOp [6]%Z; FlushOp 5].

Lemma outbound_bytes_conserved_witness :
  exists s' sh' sock',
    conn_run demo_conn_ops ((session_new 1 2 4, demo_shared), demo_socket)
      = Some ([1; 2; 3; 6]%Z, ((s', sh'), sock'))
    /\ accepted sock' ++ pending_slice (outbound s') = [1; 2; 3; 6]%Z.
Proof.
  eexists _, _, _. split; [vm_compute; reflexivity|].
  refine (proj1 (outbound_bytes_conserved demo_conn_ops demo_socket demo_shared 1 2 4
    [1; 2; 3; 6]%Z _ _ _ _)); [vm_compute; reflexivity].
Defined.

Lemma tcp_write_terminates_witness :
  exists o sock' b', tcp_write 10 demo_socket (append [1; 2; 3]%Z (send_buffer_new 4))
    = Some (o, sock', b').
Proof.
  destruct (tcp_write_terminates (λ s, length (script s)) demo_socket
    (append [1; 2; 3]%Z (send_buffer_new 4)) 10) as (o & s' & b' & H & _).
  - intros [[|[n|[]] l] a] x s' H; cbn in H; try discriminate H. injection H as <-. cbn. lia.
  - intros [[|[n|[]] l] a] x m s' H; cbn in H; try discriminate H. injection H as _ <-. cbn. lia.
  - apply append_pending, buffer_wf_new.
  - cbn. lia.
  - exists o, s', b'. exact H.
Defined.
