(* ===== verification/SessionCalls.v ===== *)
(** Calls on sessions by many threads ([dignus-actor-network/src/session.rs]).
    A session is shared: actors send on it from dispatcher threads while the
    reactor thread flushes and disposes it.  Here [Session::send] and
    [Session::close] are taken apart into their atomic operations (loads, the
    critical section of the outbound lock, the push, the wake), one per step;
    run without interference they are [NetSend.send] and [NetSend.close]. *)
From S2P Require Import Prelude Codec NetSend.
Local Open Scope nat_scope.

(** ** Program points: the operation a caller performs next *)
Inductive call_pc : Type :=
| SendDisposed (tok : Z) (bs : bytes)   (* [self.is_disposed()] *)
| SendStopped (tok : Z) (bs : bytes)    (* [self.shared.stopped.load()] *)
| SendAppend (tok : Z) (bs : bytes)     (* the outbound lock: test and append *)
| SendPush (tok : Z)                    (* [pending_writes.lock().push()] *)
| SendWake (tok : Z)                    (* [waker.wake()] *)
| CloseDisposed (tok : Z)               (* [self.is_disposed()] *)
| CloseSwap (tok : Z)                   (* [close_requested.swap(true)] *)
| ClosePush (tok : Z)                   (* [pending_closes.lock().push()] *)
| CloseWake (tok : Z).                  (* [waker.wake()] *)

#[export] Instance call_pc_eq_dec : EqDecision call_pc.
Proof. solve_decision. Defined.

Inductive call_result : Type := Sent (r : SendResult) | CloseReturned.

(** The state sessions share with their reactor.  Sessions are designated by
    their token; one stays in the store as long as anybody may hold its [Arc].
    [callers] are the calls under way, by thread.  [appended] records the
    bytes of every append, in the order of the outbound locks' critical
    sections. *)
Record Hub : Type := mkHub {
  sessions : gmap Z Session;
  shared : ReactorShared;
  callers : gmap nat call_pc;
  appended : list (Z * bytes);
}.

Definition set_hub_sessions (m : gmap Z Session) (h : Hub) : Hub :=
  mkHub m (shared h) (callers h) (appended h).
Definition set_shared (sh : ReactorShared) (h : Hub) : Hub :=
  mkHub (sessions h) sh (callers h) (appended h).
Definition set_callers (m : gmap nat call_pc) (h : Hub) : Hub :=
  mkHub (sessions h) (shared h) m (appended h).

Definition push_write (tok : Z) (sh : ReactorShared) : ReactorShared :=
  mkShared (stopped sh) (pending_writes sh ++ [tok]) (pending_closes sh) (wakes sh).
Definition push_close (tok : Z) (sh : ReactorShared) : ReactorShared :=
  mkShared (stopped sh) (pending_writes sh) (pending_closes sh ++ [tok]) (wakes sh).
Definition wake (sh : ReactorShared) : ReactorShared :=
  mkShared (stopped sh) (pending_writes sh) (pending_closes sh) (S (wakes sh)).
Definition store_stopped (sh : ReactorShared) : ReactorShared :=
  mkShared true (pending_writes sh) (pending_closes sh) (wakes sh).
Definition request_close (s : Session) : Session :=
  mkSession (session_id s) (token s) (outbound s) (disposed s) true.

(** [Session::is_disposed], for a session whose [Arc] the caller holds. *)
Definition is_disposed (tok : Z) (h : Hub) : bool :=
  match sessions h !! tok with Some s => disposed s | None => true end.

(** One atomic operation of a call: the next one, or its result. *)
Definition call_step (pc : call_pc) (h : Hub) : (call_pc + call_result) * Hub :=
  match pc with
  | SendDisposed tok bs =>
      (if is_disposed tok h then inr (Sent Disposed) else inl (SendStopped tok bs), h)
  | SendStopped tok bs =>
      (if stopped (shared h) then inr (Sent Disposed) else inl (SendAppend tok bs), h)
  | SendAppend tok bs =>
      match sessions h !! tok with
      | Some s =>
          if can_write (outbound s) (length bs)
          then (inl (SendPush tok),
                mkHub (<[tok := set_outbound s (append bs (outbound s))]> (sessions h))
                  (shared h) (callers h) (appended h ++ [(tok, bs)]))
          else (inr (Sent BufferFull), h)
      | None => (inr (Sent Disposed), h)
      end
  | SendPush tok => (inl (SendWake tok), set_shared (push_write tok (shared h)) h)
  | SendWake tok => (inr (Sent Success), set_shared (wake (shared h)) h)
  | CloseDisposed tok =>
      (if is_disposed tok h then inr CloseReturned else inl (CloseSwap tok), h)
  | CloseSwap tok =>
      match sessions h !! tok with
      | Some s =>
          (if close_requested s then inr CloseReturned else inl (ClosePush tok),
           set_hub_sessions (<[tok := request_close s]> (sessions h)) h)
      | None => (inr CloseReturned, h)
      end
  | ClosePush tok => (inl (CloseWake tok), set_shared (push_close tok (shared h)) h)
  | CloseWake tok => (inr CloseReturned, set_shared (wake (shared h)) h)
  end.

(** A thread enters a call, and performs its next operation. *)
Definition begin_call (tid : nat) (pc : call_pc) (h : Hub) : Hub :=
  set_callers (<[tid := pc]> (callers h)) h.

Definition thread_step (tid : nat) (h : Hub) : option call_result * Hub :=
  match callers h !! tid with
  | None => (None, h)
  | Some pc =>
      match call_step pc h with
      | (inl pc', h') => (None, set_callers (<[tid := pc']> (callers h')) h')
      | (inr r, h') => (Some r, set_callers (delete tid (callers h')) h')
      end
  end.

(** The most operations a call performs. *)
Definition CALL_STEPS : nat := 5.

(** A call by itself. *)
Fixpoint call_alone (n : nat) (pc : call_pc) (h : Hub) : option (call_result * Hub) :=
  match n with
  | O => None
  | S n' =>
      match call_step pc h with
      | (inl pc', h') => call_alone n' pc' h'
      | (inr r, h') => Some (r, h')
      end
  end.

(** ** Lemmas *)
(** How a session may change under calls: its identity and its disposal are the
    reactor's. *)
Definition session_evolves (s s' : Session) : Prop :=
  session_id s' = session_id s /\ token s' = token s /\ disposed s' = disposed s
  /\ max_pending (outbound s') = max_pending (outbound s)
  /\ (buffer_wf (outbound s) -> buffer_wf (outbound s'))
  /\ (length (pending_slice (outbound s)) <= max_pending (outbound s) ->
      buffer_wf (outbound s) ->
      length (pending_slice (outbound s')) <= max_pending (outbound s')).

Lemma session_evolves_refl s : session_evolves s s.
Proof. unfold session_evolves. naive_solver. Qed.

Lemma session_evolves_append s bs :
  can_write (outbound s) (length bs) = true ->
  session_evolves s (set_outbound s (append bs (outbound s))).
Proof.
  intros Hc%can_write_spec. unfold session_evolves, set_outbound. cbn.
  split_and!; try done.
  - intros Hwf. by apply append_pending.
  - intros _ Hwf. destruct (append_pending bs _ Hwf) as [_ Hp].
    unfold append in Hp |- *. cbn in *. rewrite Hp, length_app. lia.
Qed.

Lemma session_evolves_request s : session_evolves s (request_close s).
Proof. unfold session_evolves. cbn. auto 10. Qed.

(** What one operation does to the sessions: at most one of them evolves. *)
Lemma call_step_sessions pc h x h' :
  call_step pc h = (x, h') ->
  dom (sessions h') = dom (sessions h)
  /\ (forall tok s, sessions h !! tok = Some s ->
      exists s', sessions h' !! tok = Some s' /\ session_evolves s s').
Proof.
  intros H.
  assert (h' = h \/ sessions h' = sessions h \/ exists tok s s', sessions h !! tok = Some s
    /\ session_evolves s s' /\ sessions h' = <[tok := s']> (sessions h)) as [->|[E|E]].
  { destruct pc; cbn in H; repeat case_match; simplify_eq/=; try (by left); try (by right; left).
    1: right; right; eexists tok, _, _; split_and!; [done|by apply session_evolves_append|done].
    all: right; right; eexists tok, s, (request_close s); split_and!; [done|apply session_evolves_request|done]. }
  - split; [done|]. eauto using session_evolves_refl.
  - rewrite E. split; [done|]. eauto using session_evolves_refl.
  - destruct E as (tok & s & s' & Hs & He & ->). split.
    + rewrite dom_insert_L. apply elem_of_dom_2 in Hs. set_solver.
    + intros t s0 Ht. destruct (decide (t = tok)) as [->|Hne].
      * rewrite Ht in Hs. simplify_eq. rewrite lookup_insert_eq. eauto.
      * rewrite lookup_insert_ne by done. eauto using session_evolves_refl.
Qed.

(** Only appends add to the ledger of appended bytes, and they add to the
    buffer of the same session. *)
Definition bytes_of (tok : Z) (l : list (Z * bytes)) : bytes :=
  concat (omap (fun e => if decide (e.1 = tok) then Some e.2 else None) l).

Lemma bytes_of_app tok l l' : bytes_of tok (l ++ l') = bytes_of tok l ++ bytes_of tok l'.
Proof. unfold bytes_of. by rewrite omap_app, concat_app. Qed.

Lemma bytes_of_one tok tok' bs :
  bytes_of tok [(tok', bs)] = if decide (tok' = tok) then bs else [].
Proof. unfold bytes_of. cbn. by case_decide; cbn; rewrite ?app_nil_r. Qed.

Lemma call_step_ledger pc h x h' tok s :
  call_step pc h = (x, h') -> sessions h !! tok = Some s -> buffer_wf (outbound s) ->
  exists s' new, sessions h' !! tok = Some s'
    /\ bytes_of tok (appended h') = bytes_of tok (appended h) ++ new
    /\ pending_slice (outbound s') = pending_slice (outbound s) ++ new.
Proof.
  intros H Hs Hwf. destruct pc as [| |t bs| | | |t| |]; cbn in H; repeat case_match; simplify_eq/=;
    try (exists s, []; rewrite !app_nil_r; by split_and!).
  1: { destruct (decide (tok = t)) as [->|Hne].
    + simplify_eq. eexists _, bs. rewrite lookup_insert_eq. split_and!; [done| |].
      * by rewrite bytes_of_app, bytes_of_one, decide_True.
      * by apply append_pending.
    + exists s, []. rewrite lookup_insert_ne by done. rewrite !app_nil_r.
      rewrite bytes_of_app, bytes_of_one, decide_False, app_nil_r by done. done. }
  all: destruct (decide (tok = t)) as [->|Hne];
    [simplify_eq; eexists _, []; rewrite lookup_insert_eq, !app_nil_r; by split_and!
    |exists s, []; rewrite lookup_insert_ne by done; by rewrite !app_nil_r].
Qed.

(** ** One call at a time is [NetSend] *)

(** A send that nobody interferes with performs [NetSend.send] on its session
    and the reactor's shared state, and answers the same result, within five
    operations; the appended bytes are recorded exactly when it succeeds. *)
Lemma send_alone tok bs h s :
  sessions h !! tok = Some s -> token s = tok ->
  let '(r, st') := send bs (s, shared h) in
  exists h', call_alone CALL_STEPS (SendDisposed tok bs) h = Some (Sent r, h')
    /\ sessions h' = <[tok := st'.1]> (sessions h) /\ shared h' = st'.2
    /\ callers h' = callers h
    /\ appended h' = appended h ++ match r with Success => [(tok, bs)] | _ => [] end.
Proof.
  intros Hs Htok. unfold send. cbn [CALL_STEPS call_alone call_step]. unfold is_disposed. rewrite Hs.
  destruct (disposed s) eqn:Hd; cbn [orb].
  { eexists. rewrite insert_id, app_nil_r by done. by split_and!. }
  cbn [CALL_STEPS call_alone call_step]. destruct (stopped (shared h)) eqn:Hst.
  { eexists. rewrite insert_id, app_nil_r by done. by split_and!. }
  cbn [call_alone call_step]. rewrite Hs. destruct (can_write (outbound s) (length bs)) eqn:Hc; cbn [negb].
  - cbn. eexists. split; [done|]. cbn. rewrite Htok, ?Hst. split_and!; try done. unfold wake, push_write. cbn. by rewrite Hst.
  - eexists. rewrite insert_id, app_nil_r by done. by split_and!.
Qed.

Lemma close_alone tok h s :
  sessions h !! tok = Some s -> token s = tok ->
  let st' := close (s, shared h) in
  exists h', call_alone CALL_STEPS (CloseDisposed tok) h = Some (CloseReturned, h')
    /\ sessions h' = <[tok := st'.1]> (sessions h) /\ shared h' = st'.2
    /\ callers h' = callers h /\ appended h' = appended h.
Proof.
  intros Hs Htok. unfold close. cbn [CALL_STEPS call_alone call_step]. unfold is_disposed. rewrite Hs.
  destruct (disposed s) eqn:Hd.
  { eexists. rewrite insert_id by done. by split_and!. }
  cbn [CALL_STEPS call_alone call_step]. rewrite Hs. destruct (close_requested s) eqn:Hr.
  - cbn [call_alone call_step]. eexists. split; [done|]. cbn. split_and!; try done.
    f_equal. unfold request_close. rewrite <- Hr. by destruct s.
  - cbn. eexists. split; [done|]. cbn. rewrite Htok. unfold request_close. rewrite Hd. split_and!; try done. by rewrite Htok.
Qed.

(** ** [SessionSender]: the [Arc] of a session, with an encoder *)
Section sender.
Context {E : Type} `{!FrameEncoder E}.

Record SessionSender : Type := mkSessionSender { sender_session : Z; sender_encoder : E }.

Definition sender_new (session : Z) (encoder : E) : SessionSender := mkSessionSender session encoder.

(** [id]; no answer for an [Arc] that does not exist. *)
Definition sender_id (x : SessionSender) (h : Hub) : option Z :=
  session_id <$> sessions h !! sender_session x.
Definition sender_is_disposed (x : SessionSender) (h : Hub) : bool := is_disposed (sender_session x) h.

(** The calls, as what the calling thread begins. *)
Definition sender_begin_send (x : SessionSender) (payload : bytes) : call_pc :=
  SendDisposed (sender_session x) (encode (sender_encoder x) payload).
Definition sender_begin_send_raw (x : SessionSender) (bs : bytes) : call_pc :=
  SendDisposed (sender_session x) bs.
Definition sender_begin_close (x : SessionSender) : call_pc := CloseDisposed (sender_session x).

(** A framed send that nobody interferes with queues one whole frame, or
    nothing. *)
Lemma sender_send_alone x payload h s :
  sessions h !! sender_session x = Some s -> token s = sender_session x ->
  exists r h', call_alone CALL_STEPS (sender_begin_send x payload) h = Some (Sent r, h')
    /\ r = (sender_send (sender_encoder x) payload (s, shared h)).1
    /\ appended h' = appended h ++ match r with
         | Success => [(sender_session x, encode (sender_encoder x) payload)]
         | _ => []
         end.
Proof.
  intros Hs Ht. pose proof (send_alone (sender_session x) (encode (sender_encoder x) payload) h s Hs Ht) as H.
  unfold sender_send. destruct (send _ _) as [r st]. destruct H as (h' & Hc & _ & _ & _ & Ha). by exists r, h'.
Qed.
End sender.
