(* ===== verification/Transports.v ===== *)
(** Transports ([dignus-actor-network/src/transport.rs], [tcp_transport.rs],
    [tls_transport.rs], [transport_factory.rs]): what the reactor asks of one,
    the laws it may rely on, and the plain and the TLS transport.  The TLS
    engine ([rustls::ServerConnection]) is a parameter. *)
From S2P Require Import Prelude Codec NetSend.
Local Open Scope nat_scope.

(** ** The interface

    The loops carry fuel: [None] is a call that has not returned within it. *)
Class Transport (T S : Type) : Type := {
  t_read : nat -> T -> S -> bytes -> option (TransportOutcome * T * S * bytes);
  t_write : nat -> T -> S -> SendBuffer -> option (TransportOutcome * T * S * SendBuffer);
  t_wants_write : T -> bool;
}.

(** What every transport promises: reading appends to the inbound buffer what
    it obtained, writing takes bytes off the front of the send buffer; [t_in]
    and [t_out] are the bytes a connection has handed over so far. *)
Class TransportLaws (T S : Type) `{!Transport T S} : Type := {
  t_in : T -> S -> bytes;
  t_out : T -> S -> bytes;
  t_read_law : forall fuel t s b o t' s' b', t_read fuel t s b = Some (o, t', s', b') ->
    exists new, b' = b ++ new /\ t_in t' s' = t_in t s ++ new /\ t_out t' s' = t_out t s;
  t_write_law : forall fuel t s b o t' s' b', t_write fuel t s b = Some (o, t', s', b') ->
    buffer_wf b -> buffer_wf b' /\ max_pending b' = max_pending b
    /\ t_out t' s' ++ pending_slice b' = t_out t s ++ pending_slice b
    /\ t_in t' s' = t_in t s /\ length (pending_slice b') <= length (pending_slice b);
}.

(** [TransportFactory::create]; it may panic. *)
Class TransportFactory (T : Type) : Type := create : outcome T.

(** ** The TCP transport *)
Inductive TcpTransport : Type := mkTcpTransport.

#[export] Instance tcp_transport {S} `{!Socket S} : Transport TcpTransport S := {
  t_read fuel t s b :=
    match tcp_read fuel s b with
    | Some (o, s', b') => Some (o, t, s', b')
    | None => None
    end;
  t_write fuel t s b :=
    match tcp_write fuel s b with
    | Some (o, s', b') => Some (o, t, s', b')
    | None => None
    end;
  t_wants_write _ := tcp_wants_write;
}.

#[export] Instance tcp_transport_laws {S} `{!Socket S} `{!SocketLaws S} :
  TransportLaws TcpTransport S.
Proof.
  refine {| t_in _ s := obtained s; t_out _ s := accepted s |}.
  - intros fuel t s b o t' s' b' H. cbn in H.
    destruct (tcp_read fuel s b) as [[[o1 s1] b1]|] eqn:E; simplify_eq.
    by apply (tcp_read_obtained fuel) with o.
  - intros fuel t s b o t' s' b' H Hwf. cbn in H.
    destruct (tcp_write fuel s b) as [[[o1 s1] b1]|] eqn:E; simplify_eq.
    by apply (tcp_write_pending fuel) with o.
Defined.

#[export] Instance TcpTransportFactory : TransportFactory TcpTransport := Ok mkTcpTransport.

(** ** The TLS engine

    The calls [tls_transport.rs] makes on [rustls::ServerConnection], over a
    socket [S].  [reader_read_exact] answers whether it filled the buffer and
    what the buffer then holds. *)
Record IoState : Type := mkIoState { plaintext_bytes_to_read : nat; peer_has_closed : bool }.

Class TlsEngine (C S : Type) : Type := {
  read_tls : C -> S -> io_result nat * C * S;
  process_new_packets : C -> option IoState * C;
  reader_read_exact : C -> nat -> bool * bytes * C;
  writer_write : C -> bytes -> option nat * C;
  wants_write : C -> bool;
  write_tls : C -> S -> io_result nat * C * S;
}.

(** The documented behaviour the transport relies on: the plaintext announced
    by [process_new_packets] can be read at once, reading it hands it over, and
    the writer takes a prefix.  [plain_in] and [plain_out] are the plaintext
    handed over by and to the engine. *)
Class TlsLaws (C S : Type) `{!TlsEngine C S} : Type := {
  plain_in : C -> bytes;
  plain_out : C -> bytes;
  read_tls_law : forall c s r c' s', read_tls c s = (r, c', s') ->
    plain_in c' = plain_in c /\ plain_out c' = plain_out c;
  process_law : forall c r c', process_new_packets c = (r, c') ->
    plain_in c' = plain_in c /\ plain_out c' = plain_out c;
  announced_law : forall c st c', process_new_packets c = (Some st, c') ->
    exists bs c'', reader_read_exact c' (plaintext_bytes_to_read st) = (true, bs, c'');
  reader_law : forall c n bs c', reader_read_exact c n = (true, bs, c') ->
    length bs = n /\ plain_in c' = plain_in c ++ bs /\ plain_out c' = plain_out c;
  writer_law : forall c b r c', writer_write c b = (r, c') -> plain_in c' = plain_in c
    /\ match r with
       | Some n => n <= length b /\ plain_out c' = plain_out c ++ take n b
       | None => plain_out c' = plain_out c
       end;
  write_tls_law : forall c s r c' s', write_tls c s = (r, c', s') ->
    plain_in c' = plain_in c /\ plain_out c' = plain_out c;
}.

(** ** The TLS transport *)
Record TlsTransport (C : Type) : Type := mkTlsTransport { connection : C }.
Arguments mkTlsTransport {C} _.
Arguments connection {C} _.

Section tls.
Context {C S : Type} `{!TlsEngine C S}.

(** The [loop] of [TlsTransport::read]. *)
Fixpoint tls_read (fuel : nat) (c : C) (socket : S) (inbound : bytes) :
    option (TransportOutcome * C * S * bytes) :=
  match fuel with
  | O => None
  | Datatypes.S fuel' =>
      match read_tls c socket with
      | (IoOk 0, c1, s1) => Some (Closed, c1, s1, inbound)
      | (IoErr WouldBlock, c1, s1) => Some (Continue, c1, s1, inbound)
      | (IoErr Interrupted, c1, s1) => tls_read fuel' c1 s1 inbound
      | (IoErr OtherError, c1, s1) => Some (Closed, c1, s1, inbound)
      | (IoOk _, c1, s1) =>
          match process_new_packets c1 with
          | (None, c2) => Some (Closed, c2, s1, inbound)
          | (Some io_state, c2) =>
              let plaintext_len := plaintext_bytes_to_read io_state in
              let '(filled, inbound', c3) :=
                if decide (0 < plaintext_len)
                then let '(ok, bs, c3) := reader_read_exact c2 plaintext_len in
                     (ok, inbound ++ bs, c3)
                else (true, inbound, c2) in
              if negb filled then Some (Closed, c3, s1, inbound')
              else if peer_has_closed io_state then Some (Closed, c3, s1, inbound')
              else tls_read fuel' c3 s1 inbound'
          end
      end
  end.

(** The first loop of [TlsTransport::write]: plaintext into the engine.  The
    outcome is [Some Closed] when the writer fails. *)
Fixpoint tls_encrypt (fuel : nat) (c : C) (b : SendBuffer) :
    option (option TransportOutcome * C * SendBuffer) :=
  match fuel with
  | O => None
  | Datatypes.S fuel' =>
      if has_pending b
      then match writer_write c (pending_slice b) with
           | (Some 0, c1) => Some (None, c1, b)
           | (Some count, c1) => tls_encrypt fuel' c1 (advance count b)
           | (None, c1) => Some (Some Closed, c1, b)
           end
      else Some (None, c, b)
  end.

(** The second loop: ciphertext into the socket. *)
Fixpoint tls_drain (fuel : nat) (c : C) (socket : S) : option (TransportOutcome * C * S) :=
  match fuel with
  | O => None
  | Datatypes.S fuel' =>
      if wants_write c
      then match write_tls c socket with
           | (IoOk 0, c1, s1) => Some (Continue, c1, s1)
           | (IoOk _, c1, s1) => tls_drain fuel' c1 s1
           | (IoErr WouldBlock, c1, s1) => Some (Continue, c1, s1)
           | (IoErr Interrupted, c1, s1) => tls_drain fuel' c1 s1
           | (IoErr OtherError, c1, s1) => Some (Closed, c1, s1)
           end
      else Some (Continue, c, socket)
  end.

Definition tls_write (fuel : nat) (c : C) (socket : S) (outbound : SendBuffer) :
    option (TransportOutcome * C * S * SendBuffer) :=
  match tls_encrypt fuel c outbound with
  | None => None
  | Some (Some o, c1, b1) => Some (o, c1, socket, b1)
  | Some (None, c1, b1) =>
      match tls_drain fuel c1 socket with
      | None => None
      | Some (o, c2, s2) => Some (o, c2, s2, b1)
      end
  end.

#[export] Instance tls_transport : Transport (TlsTransport C) S := {
  t_read fuel t s b :=
    match tls_read fuel (connection t) s b with
    | Some (o, c, s', b') => Some (o, mkTlsTransport c, s', b')
    | None => None
    end;
  t_write fuel t s b :=
    match tls_write fuel (connection t) s b with
    | Some (o, c, s', b') => Some (o, mkTlsTransport c, s', b')
    | None => None
    end;
  t_wants_write t := wants_write (connection t);
}.
End tls.

(** [TlsTransportFactory::create]: a configuration the engine refuses panics. *)
Definition TlsTransportFactory {C} (server_connection_new : option C) :
    TransportFactory (TlsTransport C) :=
  match server_connection_new with
  | Some c => Ok (mkTlsTransport c)
  | None => Panic "valid rustls server config"
  end.

(** ** The TLS transport keeps the laws *)
Section tls_laws.
Context {C S : Type} `{!TlsEngine C S} `{!TlsLaws C S}.

Lemma tls_read_obtained fuel : forall (c c' : C) (s s' : S) b b' o,
  tls_read fuel c s b = Some (o, c', s', b') ->
  exists new, b' = b ++ new /\ plain_in c' = plain_in c ++ new /\ plain_out c' = plain_out c.
Proof.
  induction fuel as [|fuel IH]; intros c c' s s' b b' o H; [done|]. cbn [tls_read] in H.
  destruct (read_tls c s) as [[r c1] s1] eqn:Hr. destruct (read_tls_law _ _ _ _ _ Hr) as [Hi Ho].
  destruct r as [[|n]|[]]; simplify_eq;
    try (exists []; rewrite !app_nil_r; by split_and!).
  2: { destruct (IH _ _ _ _ _ _ _ H) as (new & -> & Hi' & Ho'). exists new. split_and!; congruence. }
  destruct (process_new_packets c1) as [[st|] c2] eqn:Hp;
    destruct (process_law _ _ _ Hp) as [Hi2 Ho2]; simplify_eq;
    [|exists []; rewrite !app_nil_r; split_and!; congruence].
  destruct (announced_law _ _ _ Hp) as (bs & c3 & Hx). rewrite Hx in H.
  destruct (reader_law _ _ _ _ Hx) as (_ & Hi3 & Ho3).
  assert (exists new c4, plain_in c4 = plain_in c2 ++ new /\ plain_out c4 = plain_out c2
    /\ (if peer_has_closed st then Some (Closed, c4, s1, b ++ new)
        else tls_read fuel c4 s1 (b ++ new)) = Some (o, c', s', b')) as (new & c4 & Hi4 & Ho4 & H4).
  { case_decide; [exists bs, c3; by split_and!|exists [], c2; rewrite !app_nil_r; by split_and!]. }
  destruct (peer_has_closed st); simplify_eq.
  - exists new. split_and!; congruence.
  - destruct (IH _ _ _ _ _ _ _ H4) as (new' & -> & Hi' & Ho'). exists (new ++ new').
    rewrite app_assoc, Hi', Hi4, Hi2, Hi. split_and!; [done|by rewrite app_assoc|congruence].
Qed.

Lemma tls_encrypt_pending fuel : forall (c c' : C) b b' o,
  tls_encrypt (S := S) fuel c b = Some (o, c', b') -> buffer_wf b ->
  buffer_wf b' /\ max_pending b' = max_pending b
  /\ plain_out c' ++ pending_slice b' = plain_out c ++ pending_slice b
  /\ plain_in c' = plain_in c /\ length (pending_slice b') <= length (pending_slice b).
Proof.
  induction fuel as [|fuel IH]; intros c c' b b' o H Hwf; [done|]. cbn [tls_encrypt] in H.
  destruct (has_pending b); [|by simplify_eq].
  destruct (writer_write c (pending_slice b)) as [[[|n]|] c1] eqn:Hw;
    destruct (writer_law _ _ _ _ Hw) as [Hi Hout]; simplify_eq.
  - destruct Hout as [_ Ha]. rewrite take_0, app_nil_r in Ha. by rewrite Ha, Hi.
  - destruct Hout as [Hn Ha]. destruct (advance_pending (Datatypes.S n) b Hwf Hn) as [Hwf1 Hp1].
    destruct (IH _ _ _ _ _ H Hwf1) as (Hwf' & Hm & He & Ho & Hl).
    split_and!; [done| |..].
    + rewrite Hm. unfold advance. by case_decide.
    + by rewrite He, Ha, Hp1, <- app_assoc, take_drop.
    + congruence.
    + rewrite Hp1, length_drop in Hl. lia.
  - by rewrite Hout, Hi.
Qed.

Lemma tls_drain_plain fuel : forall (c c' : C) (s s' : S) o,
  tls_drain fuel c s = Some (o, c', s') -> plain_in c' = plain_in c /\ plain_out c' = plain_out c.
Proof.
  induction fuel as [|fuel IH]; intros c c' s s' o H; [done|]. cbn [tls_drain] in H.
  destruct (wants_write c); [|by simplify_eq].
  destruct (write_tls c s) as [[r c1] s1] eqn:Hw. destruct (write_tls_law _ _ _ _ _ Hw) as [Hi Ho].
  destruct r as [[|n]|[]]; simplify_eq; try (by split);
    destruct (IH _ _ _ _ _ H) as [Hi' Ho']; split; congruence.
Qed.

#[export] Instance tls_transport_laws : TransportLaws (TlsTransport C) S.
Proof.
  refine {| t_in t _ := plain_in (connection t); t_out t _ := plain_out (connection t) |}.
  - intros fuel t s b o t' s' b' H. cbn in H.
    destruct (tls_read fuel (connection t) s b) as [[[[o1 c1] s1] b1]|] eqn:E; simplify_eq.
    by apply (tls_read_obtained fuel) in E.
  - intros fuel t s b o t' s' b' H Hwf. cbn in H. unfold tls_write in H.
    destruct (tls_encrypt fuel (connection t) b) as [[[[o1|] c1] b1]|] eqn:E; simplify_eq.
    + by apply (tls_encrypt_pending fuel) in E.
    + destruct (tls_drain fuel c1 s) as [[[o2 c2] s2]|] eqn:E2; simplify_eq. cbn.
      destruct (tls_encrypt_pending _ _ _ _ _ _ E Hwf) as (Hwf' & Hm & He & Hi & Hl).
      destruct (tls_drain_plain _ _ _ _ _ _ E2) as [Hi2 Ho2]. rewrite Hi2, Ho2. by split_and!.
Defined.

Lemma tls_encrypt_total (c : C) b fuel :
  buffer_wf b -> length (pending_slice b) < fuel ->
  exists o c' b', tls_encrypt (S := S) fuel c b = Some (o, c', b')
    /\ match o with
       | None => pending_slice b' = [] \/ exists c0, writer_write c0 (pending_slice b') = (Some 0, c')
       | Some o' => o' = Closed
       end.
Proof.
  revert c b. induction fuel as [|fuel IH]; intros c b Hwf Hf; [lia|]. cbn [tls_encrypt].
  destruct (has_pending b) eqn:Hp.
  2: { eexists _, _, _. split; [done|]. left. by apply has_pending_slice. }
  destruct (writer_write c (pending_slice b)) as [[[|n]|] c1] eqn:Hw.
  - eexists _, _, _. split; [done|]. cbn. right. eauto.
  - destruct (writer_law _ _ _ _ Hw) as [_ [Hn _]].
    destruct (advance_pending (Datatypes.S n) b Hwf Hn) as [Hwf1 Hp1].
    apply IH; [done|]. rewrite Hp1, length_drop. lia.
  - by eexists _, _, _.
Qed.

Lemma tls_drain_total (backlog : C -> S -> nat) (c : C) (s : S) fuel :
  (forall c s n c' s', write_tls c s = (IoOk (Datatypes.S n), c', s') -> backlog c' s' < backlog c s) ->
  (forall c s c' s', write_tls c s = (IoErr Interrupted, c', s') -> backlog c' s' < backlog c s) ->
  backlog c s < fuel ->
  exists o c' s', tls_drain fuel c s = Some (o, c', s')
    /\ (o = Continue -> wants_write c' = false
        \/ exists c0 s0, write_tls c0 s0 = (IoErr WouldBlock, c', s') \/ write_tls c0 s0 = (IoOk 0, c', s')).
Proof.
  intros Hok Hint. revert c s. induction fuel as [|fuel IH]; intros c s Hf; [lia|]. cbn [tls_drain].
  destruct (wants_write c) eqn:Hw; [|by eexists _, _, _; split; [|left]].
  destruct (write_tls c s) as [[[[|n]|[]] c1] s1] eqn:Hr; try (eexists _, _, _; split; [done|]; eauto; done).
  - specialize (Hok _ _ _ _ _ Hr). apply IH. lia.
  - specialize (Hint _ _ _ _ Hr). apply IH. lia.
Qed.

(** A loop that has ended ends the same way with more fuel. *)
Lemma tls_encrypt_mono fuel fuel' (c : C) b r :
  tls_encrypt (S := S) fuel c b = Some r -> fuel <= fuel' -> tls_encrypt (S := S) fuel' c b = Some r.
Proof.
  revert fuel' c b. induction fuel as [|fuel IH]; intros [|fuel'] c b H Hf; [done..|lia|].
  cbn [tls_encrypt] in *. repeat case_match; try done; apply IH; (done || lia).
Qed.

Lemma tls_drain_mono fuel fuel' (c : C) (s : S) r :
  tls_drain fuel c s = Some r -> fuel <= fuel' -> tls_drain fuel' c s = Some r.
Proof.
  revert fuel' c s. induction fuel as [|fuel IH]; intros [|fuel'] c s H Hf; [done..|lia|].
  cbn [tls_drain] in *. repeat case_match; try done; apply IH; (done || lia).
Qed.

(** Flushing over TLS ends: if every write of ciphertext and every
    interruption shortens a backlog of the engine and its socket, [write]
    returns, the same for every sufficient fuel; and unless the connection is
    to be closed, what stays in the send buffer was refused by the engine, and
    what stays in the engine was refused by the socket. *)
Theorem tls_write_terminates (backlog : C -> S -> nat) (c : C) (s : S) (b : SendBuffer) :
  (forall c s n c' s', write_tls c s = (IoOk (Datatypes.S n), c', s') -> backlog c' s' < backlog c s) ->
  (forall c s c' s', write_tls c s = (IoErr Interrupted, c', s') -> backlog c' s' < backlog c s) ->
  buffer_wf b ->
  exists fuel o c' s' b',
    (forall fuel', fuel <= fuel' -> tls_write fuel' c s b = Some (o, c', s', b'))
    /\ (o = Continue ->
        (pending_slice b' = [] \/ exists c0 c1, writer_write c0 (pending_slice b') = (Some 0, c1))
        /\ (wants_write c' = false
            \/ exists c0 s0, write_tls c0 s0 = (IoErr WouldBlock, c', s')
                             \/ write_tls c0 s0 = (IoOk 0, c', s'))).
Proof.
  intros Hok Hint Hwf.
  destruct (tls_encrypt_total c b (Datatypes.S (length (pending_slice b))) Hwf ltac:(lia))
    as (o & c1 & b1 & He & Ho).
  destruct (tls_drain_total backlog c1 s (Datatypes.S (backlog c1 s)) Hok Hint ltac:(lia))
    as (o2 & c2 & s2 & Hd & Ho2).
  exists (Datatypes.S (length (pending_slice b)) + Datatypes.S (backlog c1 s)). destruct o as [o|].
  - exists o, c1, s, b1. subst o. split; [|done]. intros fuel' Hf. unfold tls_write.
    by rewrite (tls_encrypt_mono _ fuel' _ _ _ He) by lia.
  - exists o2, c2, s2, b1. split; [|naive_solver]. intros fuel' Hf. unfold tls_write.
    rewrite (tls_encrypt_mono _ fuel' _ _ _ He), (tls_drain_mono _ fuel' _ _ _ Hd) by lia. done.
Qed.
End tls_laws.

(** ** Witness: an engine that encrypts nothing

    It takes two bytes at a time, up to four; its socket follows a script. *)
Record toy_engine : Type := mkToy { queue : bytes; taken_plain : bytes }.
Definition toy_socket : Type := list (io_result nat).

#[local] Instance toy_is_engine : TlsEngine toy_engine toy_socket := {
  read_tls c s := (IoErr WouldBlock, c, s);
  process_new_packets c := (None, c);
  reader_read_exact c _ := (false, [], c);
  writer_write c b :=
    if decide (4 <= length (queue c)) then (Some 0, c)
    else (Some (Nat.min 2 (length b)), mkToy (queue c ++ take 2 b) (taken_plain c ++ take 2 b));
  wants_write c := match queue c with [] => false | _ => true end;
  write_tls c s :=
    match s with
    | [] => (IoErr WouldBlock, c, s)
    | IoOk n :: rest => (IoOk (Nat.min n (length (queue c))), mkToy (drop n (queue c)) (taken_plain c), rest)
    | IoErr e :: rest => (IoErr e, c, rest)
    end;
}.

#[local] Instance toy_laws : TlsLaws toy_engine toy_socket.
Proof.
  refine {| plain_in _ := []; plain_out := taken_plain |}.
  - intros c s r c' s' H. cbn in H. by simplify_eq.
  - intros c r c' H. cbn in H. by simplify_eq.
  - intros c st c' H. cbn in H. by simplify_eq.
  - intros c n bs c' H. cbn in H. by simplify_eq.
  - intros c b r c' H. cbn in H. case_decide; simplify_eq/=; split; try done.
    + split; [lia|]. by rewrite app_nil_r.
    + destruct b as [|x [|y b]]; cbn; (split; [lia|done]).
  - intros c [|[n|e] s] r c' s' H; cbn in H; by simplify_eq.
Defined.

Definition demo_tls_socket : toy_socket := [IoOk 1; IoErr Interrupted; IoOk 2].

Lemma tls_write_terminates_witness :
  exists fuel o c' s' b', (forall fuel', fuel <= fuel' ->
    tls_write fuel' (mkToy [] []) demo_tls_socket (append [1; 2; 3; 4; 5]%Z (send_buffer_new 9))
      = Some (o, c', s', b')).
Proof.
  destruct (tls_write_terminates (fun _ s => length s) (mkToy [] []) demo_tls_socket
    (append [1; 2; 3; 4; 5]%Z (send_buffer_new 9))) as (fuel & o & c' & s' & b' & H & _).
  - intros c [|[n|e] s] m c' s' H; cbn in H; try discriminate H. injection H as _ _ <-. cbn. lia.
  - intros c [|[n|e] s] c' s' H; cbn in H; try discriminate H. injection H as _ _ <-. cbn. lia.
  - apply append_pending, buffer_wf_new.
  - exists fuel, o, c', s', b'. exact H.
Defined.
