(* ===== verification/Reactor.v ===== *)
(** The reactor ([dignus-actor-network/src/reactor.rs], [handler.rs]): the event
    loop of one worker.  It accepts connections and hands them to the workers
    in turn, takes its own incoming ones, reads, flushes and closes them, and
    calls the host's handler.

    The reactor thread shares its sessions with any number of threads that
    [send] and [close]; the model runs it against a schedule: before every
    access to shared state it lets the other threads perform the operations
    the schedule has for that moment ([interfere]).  Statements quantify over
    all schedules.  [mio] (poll, registration), the sockets and the user's
    handler are parameters. *)
From S2P Require Import Prelude Codec NetSend SessionCalls Transports.
Local Open Scope nat_scope.

Definition LISTENER_TOKEN : Z := 0.
Definition WAKER_TOKEN : Z := 1.
Definition FIRST_CONNECTION_TOKEN : Z := 2.

(** How a piece of reactor code ends: with a value, with an [io::Error] passed
    up by [?], by unwinding, or not within the fuel of a loop. *)
Inductive flow (A : Type) : Type :=
| Go (a : A)
| Err (e : io_error)
| Unwound (msg : string)
| Stuck.
Arguments Go {A} _.
Arguments Err {A} _.
Arguments Unwound {A} _.
Arguments Stuck {A}.

(** ** The handler

    A [HostHandler] is user code.  What it can do to the reactor's sessions is
    to call [send], [close] and [is_disposed] on those whose [Arc] it holds,
    and it may branch on the answers: a handler's method is a program of such
    calls that ends with the handler's new state, or panics. *)
Inductive hprog (H : Type) : Type :=
| HDone (h : H)
| HPanic (msg : string)
| HSend (tok : Z) (bs : bytes) (k : SendResult -> hprog H)
| HClose (tok : Z) (k : hprog H)
| HIsDisposed (tok : Z) (k : bool -> hprog H).
Arguments HDone {H} _.
Arguments HPanic {H} _.
Arguments HSend {H} _ _ _.
Arguments HClose {H} _ _.
Arguments HIsDisposed {H} _ _.

(** The methods get the session as its token and id. *)
Class HostHandler (H : Type) : Type := {
  on_accepted : H -> Z -> Z -> hprog H;
  on_data : H -> Z -> Z -> bytes -> hprog H;
  on_disconnected : H -> Z -> hprog H;
}.

(** The trait's own [on_accepted] and [on_disconnected]. *)
Definition default_on_accepted {H} (h : H) (tok id : Z) : hprog H := HDone h.
Definition default_on_disconnected {H} (h : H) (id : Z) : hprog H := HDone h.

(** [TcpListener::accept]. *)
Class Listener (L S : Type) : Type := l_accept : L -> io_result S * L.

(** A readiness event of [mio]. *)
Record Event : Type := mkEvent { ev_token : Z; is_readable : bool; is_writable : bool }.

(** The calls of the handler, as a record of what happened. *)
Inductive hev : Type :=
| Accepted (tok id : Z)
| Data (tok : Z) (bs : bytes)
| Disconnected (tok id : Z).

Section reactor.
Context {S T H L : Type}.

(** ** State *)

(** [session] is the shared session's token, its key in the hub. *)
Record ManagedConnection : Type := mkConnection { stream : S; session : Z; transport : T }.

(** [next_token] and [next_session_id] count without wrapping; the values the
    code sees are their residues ([Token(self.next_token)] is
    [wrap_u64 next_token]). *)
Record Reactor : Type := mkReactor {
  listener : option L;
  connections : gmap Z ManagedConnection;
  handler : H;
  next_token : Z;
  next_session_id : Z;
  next_worker : nat;
  max_pending_send : nat;
  read_buf : bytes;
}.

(** What other threads do between two of the reactor's operations: call on a
    session, perform a call's next operation, stop the host, wake the poll,
    hand over a connection (the accepting worker), take what was handed over
    (another worker). *)
Inductive ext : Type :=
| XSend (tid : nat) (tok : Z) (bs : bytes)
| XClose (tid : nat) (tok : Z)
| XStep (tid : nat)
| XStop
| XWake
| XIncoming (s : S) (id : Z)
| XTaken (worker : nat).

(** The rest of what a worker acts on: the hub, the [incoming] queue of every
    worker ([peers]), the wakes of the other workers, the interests registered
    with the poll ([true] is with [WRITABLE]), the operating system's answers to
    registrations still to come (all good once the list is used up), how many
    wakes the poll has reported, the schedule of the other threads, and the
    handler calls so far. *)
Record World : Type := mkWorld {
  reactor : Reactor;
  hub : Hub;
  inboxes : list (list (S * Z));
  peer_wakes : list nat;
  interests : gmap Z bool;
  answers : list bool;
  heard : nat;
  schedule : list (list ext);
  log : list hev;
}.

Definition on_reactor (f : Reactor -> Reactor) (w : World) : World :=
  mkWorld (f (reactor w)) (hub w) (inboxes w) (peer_wakes w) (interests w) (answers w) (heard w)
    (schedule w) (log w).
Definition on_hub (f : Hub -> Hub) (w : World) : World :=
  mkWorld (reactor w) (f (hub w)) (inboxes w) (peer_wakes w) (interests w) (answers w) (heard w)
    (schedule w) (log w).
Definition set_inboxes (q : list (list (S * Z))) (w : World) : World :=
  mkWorld (reactor w) (hub w) q (peer_wakes w) (interests w) (answers w) (heard w) (schedule w) (log w).
Definition add_peer_wake (i : nat) (w : World) : World :=
  mkWorld (reactor w) (hub w) (inboxes w) (peer_wakes w ++ [i]) (interests w) (answers w) (heard w)
    (schedule w) (log w).
Definition set_interests (m : gmap Z bool) (w : World) : World :=
  mkWorld (reactor w) (hub w) (inboxes w) (peer_wakes w) m (answers w) (heard w) (schedule w) (log w).
Definition set_answers (l : list bool) (w : World) : World :=
  mkWorld (reactor w) (hub w) (inboxes w) (peer_wakes w) (interests w) l (heard w) (schedule w) (log w).
Definition set_heard (n : nat) (w : World) : World :=
  mkWorld (reactor w) (hub w) (inboxes w) (peer_wakes w) (interests w) (answers w) n (schedule w) (log w).
Definition set_schedule (l : list (list ext)) (w : World) : World :=
  mkWorld (reactor w) (hub w) (inboxes w) (peer_wakes w) (interests w) (answers w) (heard w) l (log w).
Definition add_log (e : hev) (w : World) : World :=
  mkWorld (reactor w) (hub w) (inboxes w) (peer_wakes w) (interests w) (answers w) (heard w)
    (schedule w) (log w ++ [e]).

Definition set_listener (l : option L) (r : Reactor) : Reactor :=
  mkReactor l (connections r) (handler r) (next_token r) (next_session_id r) (next_worker r)
    (max_pending_send r) (read_buf r).
Definition set_connections (m : gmap Z ManagedConnection) (r : Reactor) : Reactor :=
  mkReactor (listener r) m (handler r) (next_token r) (next_session_id r) (next_worker r)
    (max_pending_send r) (read_buf r).
Definition set_handler (h : H) (r : Reactor) : Reactor :=
  mkReactor (listener r) (connections r) h (next_token r) (next_session_id r) (next_worker r)
    (max_pending_send r) (read_buf r).
Definition bump_token (r : Reactor) : Reactor :=
  mkReactor (listener r) (connections r) (handler r) (next_token r + 1) (next_session_id r)
    (next_worker r) (max_pending_send r) (read_buf r).
Definition bump_session_id (r : Reactor) : Reactor :=
  mkReactor (listener r) (connections r) (handler r) (next_token r) (next_session_id r + 1)
    (next_worker r) (max_pending_send r) (read_buf r).
Definition set_next_worker (n : nat) (r : Reactor) : Reactor :=
  mkReactor (listener r) (connections r) (handler r) (next_token r) (next_session_id r) n
    (max_pending_send r) (read_buf r).
Definition set_read_buf (b : bytes) (r : Reactor) : Reactor :=
  mkReactor (listener r) (connections r) (handler r) (next_token r) (next_session_id r)
    (next_worker r) (max_pending_send r) b.

(** ** The monad of reactor code *)
Definition RM (A : Type) : Type := World -> flow A * World.

#[export] Instance RM_ret : MRet RM := fun A a w => (Go a, w).
#[export] Instance RM_bind : MBind RM := fun A B f m w =>
  match m w with
  | (Go a, w') => f a w'
  | (Err e, w') => (Err e, w')
  | (Unwound msg, w') => (Unwound msg, w')
  | (Stuck, w') => (Stuck, w')
  end.

Definition gets {A} (f : World -> A) : RM A := fun w => (Go (f w), w).
Definition modify (f : World -> World) : RM unit := fun w => (Go tt, f w).
Definition fail_with {A} (e : io_error) : RM A := fun w => (Err e, w).
Definition unwind {A} (msg : string) : RM A := fun w => (Unwound msg, w).
Definition stuck {A} : RM A := fun w => (Stuck, w).

Fixpoint for_each {A} (f : A -> RM unit) (l : list A) : RM unit :=
  match l with
  | [] => mret tt
  | a :: rest => f a ;; for_each f rest
  end.

(** The worker's index in [peers], and the fuel of the transports' and the
    accept loop. *)
Variables (me fuel : nat).

(** ** The other threads *)
Definition ext_step (x : ext) (w : World) : World :=
  match x with
  | XSend tid tok bs =>
      match callers (hub w) !! Datatypes.S tid with
      | None => on_hub (begin_call (Datatypes.S tid) (SendDisposed tok bs)) w
      | Some _ => w
      end
  | XClose tid tok =>
      match callers (hub w) !! Datatypes.S tid with
      | None => on_hub (begin_call (Datatypes.S tid) (CloseDisposed tok)) w
      | Some _ => w
      end
  | XStep tid => on_hub (fun h => (thread_step (Datatypes.S tid) h).2) w
  | XStop => on_hub (fun h => set_shared (store_stopped (shared h)) h) w
  | XWake => on_hub (fun h => set_shared (wake (shared h)) h) w
  | XIncoming s id => set_inboxes (alter (fun q => q ++ [(s, id)]) me (inboxes w)) w
  | XTaken i => if decide (i = me) then w else set_inboxes (alter (fun _ => []) i (inboxes w)) w
  end.

Definition interfere : RM unit := fun w =>
  match schedule w with
  | [] => (Go tt, w)
  | xs :: rest => (Go tt, foldl (fun w x => ext_step x w) (set_schedule rest w) xs)
  end.

(** ** Handler calls *)

(** The reactor thread (thread 0) inside [Session::send] or [close]. *)
Fixpoint run_call (n : nat) : RM call_result :=
  match n with
  | O => stuck
  | Datatypes.S n' =>
      interfere ;;
      r ← (fun w => let '(r, h) := thread_step 0 (hub w) in (Go r, on_hub (fun _ => h) w));
      match r with
      | Some r => mret r
      | None => run_call n'
      end
  end.

Definition call (pc : call_pc) : RM call_result :=
  modify (on_hub (begin_call 0 pc)) ;; run_call CALL_STEPS.

Definition send_result (r : call_result) : SendResult :=
  match r with Sent r => r | CloseReturned => Success end.

Fixpoint run_hprog (p : hprog H) : RM unit :=
  match p with
  | HDone h => modify (on_reactor (set_handler h))
  | HPanic msg => unwind msg
  | HSend tok bs k => r ← call (SendDisposed tok bs); run_hprog (k (send_result r))
  | HClose tok k => call (CloseDisposed tok) ;; run_hprog k
  | HIsDisposed tok k => interfere ;; b ← gets (fun w => is_disposed tok (hub w)); run_hprog (k b)
  end.

Definition call_handler (e : hev) (p : H -> hprog H) : RM unit :=
  h ← gets (fun w => handler (reactor w));
  modify (add_log e) ;; run_hprog (p h).

(** An answer of the operating system to a registration. *)
Definition answer : RM bool := fun w =>
  match answers w with
  | [] => (Go true, w)
  | b :: rest => (Go b, set_answers rest w)
  end.

Definition set_interest (tok : Z) (writable : bool) : RM unit :=
  modify (fun w => set_interests (<[tok := writable]> (interests w)) w).

Context `{!Transport T S} `{!TransportFactory T} `{!HostHandler H} `{!Listener L S}.

(** The order in which [HashMap::keys] yields the keys. *)
Variable keys : gmap Z ManagedConnection -> list Z.

(** ** [Reactor::close], [close_all]

    Removing the connection and its registration touches nothing another thread
    sees, so the one moment for others is before the whole. *)
Definition close (tok : Z) : RM unit :=
  interfere ;;
  m ← gets (fun w => connections (reactor w));
  match m !! tok with
  | None => mret tt
  | Some c =>
      modify (on_reactor (set_connections (delete tok m))) ;;
      hs ← gets (fun w => sessions (hub w));
      match hs !! session c with
      | None => unwind "no session"
      | Some s =>
          modify (on_hub (set_hub_sessions (<[session c := mark_disposed s]> hs))) ;;
          modify (fun w => set_interests (delete tok (interests w)) w) ;;
          call_handler (Disconnected tok (session_id s)) (fun h => on_disconnected h (session_id s))
      end
  end.

Definition close_all : RM unit :=
  m ← gets (fun w => connections (reactor w));
  for_each close (keys m).

(** ** [Reactor::flush] *)

(** The critical section of the outbound lock: whether the transport reports
    the connection closed, and [still_pending]. *)
Definition write_locked (tok : Z) (c : ManagedConnection) : RM (bool * bool) := fun w =>
  match sessions (hub w) !! session c with
  | None => (Unwound "no session", w)
  | Some s =>
      match t_write fuel (transport c) (stream c) (outbound s) with
      | None => (Stuck, w)
      | Some (o, t', st', b') =>
          let closed := match o with Closed => true | Continue => false end in
          (Go (closed, has_pending b' || t_wants_write t'),
           on_reactor (fun r =>
             set_connections (<[tok := mkConnection st' (session c) t']> (connections r)) r)
           (on_hub (set_hub_sessions (<[session c := set_outbound s b']> (sessions (hub w)))) w))
      end
  end.

Definition reregister (tok : Z) (still_pending : bool) : RM unit :=
  ok ← answer;
  if (ok : bool) then set_interest tok still_pending else mret tt.

Definition flush (tok : Z) : RM bool :=
  m ← gets (fun w => connections (reactor w));
  match m !! tok with
  | None => mret false
  | Some c =>
      interfere ;;
      r ← write_locked tok c;
      if (r.1 : bool) then mret true
      else reregister tok r.2 ;; mret false
  end.

(** ** [Reactor::read] *)
Definition read (tok : Z) : RM bool :=
  modify (on_reactor (set_read_buf [])) ;;
  m ← gets (fun w => connections (reactor w));
  match m !! tok with
  | None => mret false
  | Some c =>
      match t_read fuel (transport c) (stream c) [] with
      | None => stuck
      | Some (o, t', st', scratch) =>
          modify (on_reactor (set_connections (<[tok := mkConnection st' (session c) t']> m))) ;;
          hs ← gets (fun w => sessions (hub w));
          let id := match hs !! session c with Some s => session_id s | None => 0%Z end in
          (match scratch with
           | [] => mret tt
           | _ => call_handler (Data tok scratch) (fun h => on_data h (session c) id scratch)
           end) ;;
          modify (on_reactor (set_read_buf scratch)) ;;
          match o with
          | Closed => mret true
          | Continue => flush tok
          end
      end
  end.

(** ** [Reactor::handle_connection], [flush_pending], [close_pending] *)
Definition handle_connection (tok : Z) (readable writable : bool) : RM unit :=
  closed ← (if readable then read tok else mret false);
  closed ← (if negb closed && writable then flush tok else mret closed);
  if (closed : bool) then close tok else mret tt.

Definition take_pending_writes : RM (list Z) := fun w =>
  let sh := shared (hub w) in
  (Go (pending_writes sh),
   on_hub (set_shared (mkShared (stopped sh) [] (pending_closes sh) (wakes sh))) w).

Definition take_pending_closes : RM (list Z) := fun w =>
  let sh := shared (hub w) in
  (Go (pending_closes sh),
   on_hub (set_shared (mkShared (stopped sh) (pending_writes sh) [] (wakes sh))) w).

Definition flush_or_close (tok : Z) : RM unit :=
  closed ← flush tok;
  if (closed : bool) then close tok else mret tt.

Definition flush_pending : RM unit :=
  interfere ;; tokens ← take_pending_writes; for_each flush_or_close tokens.

Definition close_pending : RM unit :=
  interfere ;; tokens ← take_pending_closes; for_each close tokens.

(** ** [Reactor::take_incoming] *)
Definition take_inbox : RM (list (S * Z)) := fun w =>
  match inboxes w !! me with
  | Some q => (Go q, set_inboxes (<[me := []]> (inboxes w)) w)
  | None => (Unwound "no worker", w)
  end.

(** One round of its loop. *)
Definition take_one (x : S * Z) : RM unit :=
  n ← gets (fun w => next_token (reactor w));
  let tok := wrap_u64 n in
  modify (on_reactor bump_token) ;;
  ok ← answer;
  if negb ok then mret tt
  else
    set_interest tok false ;;
    limit ← gets (fun w => max_pending_send (reactor w));
    modify (on_hub (fun h => set_hub_sessions (<[tok := session_new x.2 tok limit]> (sessions h)) h)) ;;
    match create with
    | Ok t =>
        modify (on_reactor (fun r =>
          set_connections (<[tok := mkConnection x.1 tok t]> (connections r)) r)) ;;
        call_handler (Accepted tok x.2) (fun h => on_accepted h tok x.2)
    | Panic msg => unwind msg
    | UB msg => unwind msg
    end.

Definition take_incoming : RM unit :=
  interfere ;; q ← take_inbox; for_each take_one q.

(** ** [Reactor::accept] *)
Definition push_incoming (target : nat) (x : S * Z) : RM unit := fun w =>
  match inboxes w !! target with
  | Some q => (Go tt, set_inboxes (<[target := q ++ [x]]> (inboxes w)) w)
  | None => (Unwound "index out of bounds", w)
  end.

Definition wake_peer (target : nat) : RM unit :=
  modify (fun w =>
    if decide (target = me) then on_hub (fun h => set_shared (wake (shared h)) h) w
    else add_peer_wake target w).

(** What [accept] does with a new connection. *)
Definition hand_over (s : S) : RM unit :=
  id ← gets (fun w => wrap_u64 (next_session_id (reactor w)));
  modify (on_reactor bump_session_id) ;;
  target ← gets (fun w => next_worker (reactor w));
  n ← gets (fun w => length (inboxes w));
  if decide (n = 0) then unwind "remainder with a divisor of zero"
  else
    modify (on_reactor (set_next_worker ((target + 1) mod n))) ;;
    interfere ;;
    push_incoming target (s, id) ;;
    wake_peer target.

Fixpoint accept_loop (fuel : nat) : RM unit :=
  match fuel with
  | O => stuck
  | Datatypes.S fuel' =>
      l ← gets (fun w => listener (reactor w));
      match l with
      | None => mret tt
      | Some l =>
          let '(r, l') := l_accept l in
          modify (on_reactor (set_listener (Some l'))) ;;
          match r with
          | IoOk s => hand_over s ;; accept_loop fuel'
          | IoErr WouldBlock => mret tt
          | IoErr Interrupted => accept_loop fuel'
          | IoErr OtherError => fail_with OtherError
          end
      end
  end.

Definition accept : RM unit := accept_loop fuel.

(** ** [Reactor::run] *)

(** The body of [for event in events.iter()]; [true]: [run] returns [Ok(())]. *)
Definition handle_event (e : Event) : RM bool :=
  if (ev_token e =? LISTENER_TOKEN)%Z then accept ;; mret false
  else if (ev_token e =? WAKER_TOKEN)%Z then
    interfere ;;
    stop ← gets (fun w => stopped (shared (hub w)));
    if (stop : bool) then close_all ;; mret true
    else take_incoming ;; flush_pending ;; close_pending ;; mret false
  else handle_connection (ev_token e) (is_readable e) (is_writable e) ;; mret false.

Fixpoint handle_events (l : list Event) : RM bool :=
  match l with
  | [] => mret false
  | e :: rest =>
      stop ← handle_event e;
      if (stop : bool) then mret true else handle_events rest
  end.

(** A poll that reports the waker has heard all wakes so far. *)
Definition hear (l : list Event) : RM unit :=
  modify (fun w =>
    if existsb (fun e => (ev_token e =? WAKER_TOKEN)%Z) l
    then set_heard (wakes (shared (hub w))) w else w).

Inductive run_end : Type := Returned | Waiting.

(** [run] against the answers of its polls; with no answer left the reactor is
    waiting in [poll]. *)
Fixpoint run (polls : list (io_result (list Event))) : RM run_end :=
  match polls with
  | [] => interfere ;; mret Waiting
  | IoErr e :: _ => interfere ;; fail_with e
  | IoOk evs :: rest =>
      interfere ;; hear evs ;;
      stop ← handle_events evs;
      if (stop : bool) then mret Returned else run rest
  end.
End reactor.

Arguments ManagedConnection S T : clear implicits.
Arguments Reactor S T H L : clear implicits.
Arguments World S T H L : clear implicits.
Arguments ext S : clear implicits.
Arguments RM S T H L A : clear implicits.
