(* ===== verification/ReactorLogic.v ===== *)
(** Reasoning about reactor code: a weakest precondition over every schedule of
    the other threads, and its rules. *)
From S2P Require Import Prelude Codec NetSend SessionCalls Transports Reactor.
Local Open Scope nat_scope.

Section logic.
Context {S T H L : Type}.
Notation world := (World S T H L).
Notation RM := (RM S T H L).

(** [wp E m Q w]: run in [w], [m] ends in a value and a world that satisfy [Q],
    or fails (an error, a panic, fuel) in a world that satisfies [E]. *)
Definition wp {A} (E : world -> Prop) (m : RM A) (Q : A -> world -> Prop) (w : world) : Prop :=
  match m w with
  | (Go a, w') => Q a w'
  | (_, w') => E w'
  end.

#[export] Instance wp_proper A E (m : RM A) :
  Proper (pointwise_relation A (pointwise_relation world impl) ==> pointwise_relation world impl) (wp E m).
Proof. intros Q Q' HQ w. unfold wp. destruct (m w) as [[a|e|msg|] w']; [apply HQ|done..]. Qed.

Lemma wp_mono {A} E (m : RM A) (Q Q' : A -> world -> Prop) w :
  wp E m Q w -> (forall a w', Q a w' -> Q' a w') -> wp E m Q' w.
Proof. intros Hw HQ. revert Hw. apply wp_proper. intros a w'. exact (HQ a w'). Qed.

Lemma wp_conj {A} (m : RM A) (Q Q' : A -> world -> Prop) w :
  wp (fun _ => True) m Q w -> wp (fun _ => True) m Q' w ->
  wp (fun _ => True) m (fun a w' => Q a w' /\ Q' a w') w.
Proof. unfold wp. destruct (m w) as [[a|e|msg|] w']; auto. Qed.

Lemma wp_ret {A} E (a : A) (Q : A -> world -> Prop) w : Q a w -> wp E (mret a) Q w.
Proof. done. Qed.

Lemma wp_bind {A B} E (m : RM A) (k : A -> RM B) (Q : B -> world -> Prop) w :
  wp E m (fun a w' => wp E (k a) Q w') w -> wp E (m ≫= k) Q w.
Proof. unfold wp, mbind, RM_bind. by destruct (m w) as [[a|e|msg|] w']. Qed.

Lemma wp_gets {A} E (f : world -> A) (Q : A -> world -> Prop) w : Q (f w) w -> wp E (gets f) Q w.
Proof. done. Qed.

Lemma wp_modify E (f : world -> world) (Q : unit -> world -> Prop) w : Q tt (f w) -> wp E (modify f) Q w.
Proof. done. Qed.

Lemma wp_fail E {A} e (Q : A -> world -> Prop) w : E w -> wp E (fail_with e) Q w.
Proof. done. Qed.
Lemma wp_unwind E {A} msg (Q : A -> world -> Prop) w : E w -> wp E (unwind msg) Q w.
Proof. done. Qed.
Lemma wp_stuck E {A} (Q : A -> world -> Prop) w : E w -> wp E stuck Q w.
Proof. done. Qed.

(** Loops, with what is left of the list in the invariant. *)
Lemma wp_for_each {A} E (f : A -> RM unit) (l : list A) (I : list A -> world -> Prop) w :
  (forall a rest w, I (a :: rest) w -> wp E (f a) (fun _ => I rest) w) ->
  I l w -> wp E (for_each f l) (fun _ => I []) w.
Proof.
  intros Hf. revert w. induction l as [|a l IH]; intros w HI; [done|].
  cbn [for_each]. apply wp_bind. eapply wp_mono; [by apply Hf|]. intros u w' HI'. by apply IH.
Qed.

(** The world after the other threads' turn. *)
Definition others (me : nat) (w : world) : world := (interfere me w).2.

Lemma others_nil me w : schedule w = [] -> others me w = w.
Proof. unfold others, interfere. by intros ->. Qed.

Lemma others_cons me xs rest w :
  schedule w = xs :: rest -> others me w = foldl (fun w x => ext_step me x w) (set_schedule rest w) xs.
Proof. unfold others, interfere. by intros ->. Qed.

Lemma wp_others E me (Q : unit -> world -> Prop) w : Q tt (others me w) -> wp E (interfere me) Q w.
Proof. unfold wp, others, interfere. by destruct (schedule w). Qed.

(** What single operations of the other threads keep holds after their turn;
    [A] restricts what they do. *)
Lemma others_keep_only me (A : ext S -> Prop) (I : world -> Prop) w :
  (forall l w, I w -> I (set_schedule l w)) ->
  (forall x w, A x -> I w -> I (ext_step me x w)) ->
  Forall (Forall A) (schedule w) -> I w -> I (others me w).
Proof.
  intros Hs Hx HA HI. destruct (schedule w) as [|xs rest] eqn:E; [by rewrite others_nil|].
  rewrite (others_cons _ _ _ _ E). apply Forall_cons in HA as [HA _].
  apply (Hs rest) in HI. clear E. revert HI. generalize (set_schedule rest w).
  induction HA as [|x xs HAx _ IH]; intros w0 HI; [done|]. cbn. apply IH. by apply Hx.
Qed.

Lemma others_keep me (I : world -> Prop) w :
  (forall l w, I w -> I (set_schedule l w)) ->
  (forall x w, I w -> I (ext_step me x w)) -> I w -> I (others me w).
Proof.
  intros Hs Hx. apply (others_keep_only me (fun _ => True)); [done|by intros x w' _; apply Hx|].
  apply Forall_true. intros xs. by apply Forall_true.
Qed.

(** An invariant the other threads keep holds after interference. *)
Lemma wp_interfere E me (I : world -> Prop) (Q : unit -> world -> Prop) w :
  (forall l w, I w -> I (set_schedule l w)) ->
  (forall x w, I w -> I (ext_step me x w)) ->
  I w -> (forall w', I w' -> Q tt w') -> wp E (interfere me) Q w.
Proof. intros Hs Hx HI HQ. by apply wp_others, HQ, others_keep. Qed.

Lemma wp_answer E (Q : bool -> world -> Prop) w :
  (forall b l, Q b (set_answers l w)) -> Q true w -> wp E answer Q w.
Proof. intros Hl H0. unfold wp, answer. by destruct (answers w). Qed.

(** A call's operations left. *)
Definition pc_rank (pc : call_pc) : nat :=
  match pc with
  | SendDisposed _ _ => 5 | SendStopped _ _ => 4 | SendAppend _ _ => 3 | SendPush _ => 2 | SendWake _ => 1
  | CloseDisposed _ => 4 | CloseSwap _ => 3 | ClosePush _ => 2 | CloseWake _ => 1
  end.

Lemma pc_rank_pos pc : 0 < pc_rank pc.
Proof. destruct pc; cbn; lia. Qed.

Lemma call_step_rank pc h pc' h' :
  call_step pc h = (inl pc', h') -> pc_rank pc' < pc_rank pc.
Proof. destruct pc; cbn; intros ?; repeat case_match; simplify_eq; cbn; lia. Qed.

Lemma call_step_callers pc h x h' : call_step pc h = (x, h') -> callers h' = callers h.
Proof. destruct pc; cbn; intros ?; repeat case_match; by simplify_eq. Qed.

(** The other threads leave the reactor thread's call alone. *)
Lemma ext_step_me me x (w : world) : callers (hub (ext_step me x w)) !! 0 = callers (hub w) !! 0.
Proof.
  destruct x; cbn [ext_step]; try done.
  1,2: destruct (callers (hub w) !! Datatypes.S tid); [done|]; cbn; by rewrite lookup_insert_ne.
  - unfold thread_step. cbn. destruct (callers (hub w) !! Datatypes.S tid) as [pc|] eqn:E; [|done].
    destruct (call_step pc (hub w)) as [[pc'|r] h'] eqn:Hc; cbn;
      rewrite ?lookup_insert_ne, ?lookup_delete_ne by done; by rewrite (call_step_callers _ _ _ _ Hc).
  - by case_decide.
Qed.

Lemma others_me me (w : world) : callers (hub (others me w)) !! 0 = callers (hub w) !! 0.
Proof.
  apply (others_keep me (fun w' => callers (hub w') !! 0 = callers (hub w) !! 0)); [done| |done].
  intros x w' <-. apply ext_step_me.
Qed.

(** A call of the reactor thread ends within its operations, whatever the
    others do meanwhile, and keeps what single operations and the turns of the
    others keep. *)
Lemma wp_run_call_turns E me (I : world -> Prop) n pc w :
  (forall w, I w -> I (others me w)) ->
  (forall w r h, I w -> thread_step 0 (hub w) = (r, h) -> I (on_hub (fun _ => h) w)) ->
  I w -> callers (hub w) !! 0 = Some pc -> pc_rank pc <= n ->
  wp E (run_call me n) (fun _ w' => I w' /\ callers (hub w') !! 0 = None) w.
Proof.
  intros Hx Ht. revert pc w. induction n as [|n IH]; intros pc w HI Hpc Hn;
    [pose proof (pc_rank_pos pc); lia|].
  cbn [run_call]. apply wp_bind, wp_others, wp_bind. unfold wp at 1.
  apply Hx in HI. rewrite <- (others_me me) in Hpc. revert HI Hpc. generalize (others me w) as w'.
  intros w' HI Hpc. destruct (thread_step 0 (hub w')) as [r h] eqn:Hr. pose proof (Ht _ _ _ HI Hr) as HI1.
  unfold thread_step in Hr. rewrite Hpc in Hr.
  destruct (call_step pc (hub w')) as [[pc'|r'] h'] eqn:Hc; simplify_eq.
  - apply IH with pc'; [done|cbn; by rewrite lookup_insert_eq|].
    apply call_step_rank in Hc. lia.
  - apply wp_ret. split; [done|]. cbn. by rewrite lookup_delete_eq.
Qed.

Lemma wp_run_call E me (I : world -> Prop) n pc w :
  (forall l w, I w -> I (set_schedule l w)) ->
  (forall x w, I w -> I (ext_step me x w)) ->
  (forall w r h, I w -> thread_step 0 (hub w) = (r, h) -> I (on_hub (fun _ => h) w)) ->
  I w -> callers (hub w) !! 0 = Some pc -> pc_rank pc <= n ->
  wp E (run_call me n) (fun _ w' => I w' /\ callers (hub w') !! 0 = None) w.
Proof. intros Hs Hx. apply wp_run_call_turns. intros w'. by apply others_keep. Qed.

(** A program of session calls that never panics. *)
Fixpoint quiet (p : hprog H) : Prop :=
  match p with
  | HDone _ => True
  | HPanic _ => False
  | HSend _ _ k => forall r, quiet (k r)
  | HClose _ k => quiet k
  | HIsDisposed _ k => forall b, quiet (k b)
  end.

Lemma wp_run_hprog (E I : world -> Prop) me p w :
  (forall w, E w) \/ quiet p ->
  (forall l w, I w -> I (set_schedule l w)) ->
  (forall x w, I w -> I (ext_step me x w)) ->
  (forall w r h, I w -> thread_step 0 (hub w) = (r, h) -> I (on_hub (fun _ => h) w)) ->
  (forall pc w, I w -> callers (hub w) !! 0 = None -> I (on_hub (begin_call 0 pc) w)) ->
  (forall h w, I w -> I (on_reactor (set_handler h) w)) ->
  I w -> callers (hub w) !! 0 = None ->
  wp E (run_hprog me p) (fun _ w' => I w' /\ callers (hub w') !! 0 = None) w.
Proof.
  intros HE Hs Hx Ht Hb Hh. revert w HE.
  induction p as [h|msg|tok bs k IH|tok k IH|tok k IH]; intros w HE HI Hidle; cbn [run_hprog].
  - apply wp_modify. split; [by apply Hh|done].
  - apply wp_unwind. by destruct HE.
  - apply wp_bind. unfold call. apply wp_bind, wp_modify. eapply wp_mono.
    + apply wp_run_call with (SendDisposed tok bs); try done;
        [by apply Hb|cbn; by rewrite lookup_insert_eq].
    + intros r w' [HI' Hid']. apply IH; [|done..]. destruct HE as [?|Hq]; [by left|right; apply Hq].
  - apply wp_bind. unfold call. apply wp_bind, wp_modify. eapply wp_mono.
    + apply wp_run_call with (CloseDisposed tok); try done;
        [by apply Hb|cbn; by rewrite lookup_insert_eq|cbn; unfold CALL_STEPS; lia].
    + intros r w' [HI' Hid']. apply IH; [|done..]. destruct HE as [?|Hq]; [by left|by right].
  - apply wp_bind. apply (wp_interfere E me (fun w => I w /\ callers (hub w) !! 0 = None)); [| |done|].
    { intros l w' [? ?]. split; [by apply Hs|done]. }
    { intros x w' [? ?]. split; [by apply Hx|by rewrite ext_step_me]. }
    intros w' [HI' Hid']. apply wp_bind, wp_gets, IH; [|done..]. destruct HE as [?|Hq]; [by left|right; apply Hq].
Qed.
End logic.

(** ** What single operations keep, the event loop keeps

    The fields nothing but accepting and polling depends on. *)
Definition same_core {S T H L} (w w' : World S T H L) : Prop :=
  connections (reactor w') = connections (reactor w) /\ handler (reactor w') = handler (reactor w)
  /\ next_token (reactor w') = next_token (reactor w)
  /\ max_pending_send (reactor w') = max_pending_send (reactor w)
  /\ hub w' = hub w /\ interests w' = interests w /\ schedule w' = schedule w /\ log w' = log w.

Section compose.
Context {S T H L : Type}.
Context `{!Transport T S} `{!TransportFactory T} `{!HostHandler H} `{!Listener L S}.
Variables (me fuel : nat).
Notation world := (World S T H L).
Notation any := (fun _ : world => True).

Record kept (J : world -> Prop) : Prop := {
  kept_same : forall w w', same_core w w' -> J w -> J w';
  kept_others : forall w, J w -> J (others me w);
  kept_shared : forall sh w, stopped sh = stopped (shared (hub w)) -> J w -> J (on_hub (set_shared sh) w);
  kept_close : forall tok w, J w -> wp any (close me tok) (fun _ => J) w;
  kept_flush : forall tok w, J w -> wp any (flush me fuel tok) (fun _ => J) w;
  kept_read : forall tok w, J w -> wp any (read me fuel tok) (fun _ => J) w;
  kept_take : forall x w, J w -> wp any (take_one me x) (fun _ => J) w;
}.

Context (J : world -> Prop) (K : kept J).

(** For changes of fields that no such property looks at. *)
Local Ltac unaffected := eapply (kept_same J K); [|eassumption]; by repeat split.

Lemma wp_interfere_kept (Q : unit -> world -> Prop) w :
  J w -> (forall w', J w' -> Q tt w') -> wp any (interfere me) Q w.
Proof. intros HJ HQ. by apply wp_others, HQ, (kept_others J K). Qed.

Lemma wp_handle_connection tok r wr w :
  J w -> wp any (handle_connection me fuel tok r wr) (fun _ => J) w.
Proof.
  intros HJ. apply wp_bind. eapply wp_mono with (Q := fun _ => J); [destruct r; [by apply K|done]|].
  intros closed w1 HJ1. apply wp_bind.
  eapply wp_mono with (Q := fun _ => J); [destruct (negb closed && wr); [by apply K|done]|].
  intros [] w2 HJ2; [by apply K|done].
Qed.

Lemma wp_loop {A} (f : A -> RM S T H L unit) l w :
  (forall a w, J w -> wp any (f a) (fun _ => J) w) -> J w -> wp any (for_each f l) (fun _ => J) w.
Proof. intros Hf HJ. apply (wp_for_each any f l (fun _ => J)); [|done]. intros a _. apply Hf. Qed.

Lemma wp_flush_or_close tok w : J w -> wp any (flush_or_close me fuel tok) (fun _ => J) w.
Proof.
  intros HJ. apply wp_bind. eapply wp_mono; [by apply K|]. intros [] w1 HJ1; [by apply K|done].
Qed.

Lemma wp_flush_pending w : J w -> wp any (flush_pending me fuel) (fun _ => J) w.
Proof.
  intros HJ. apply wp_bind, wp_interfere_kept; [done|]. intros w1 HJ1. apply wp_bind.
  unfold wp at 1, take_pending_writes. apply wp_loop; [apply wp_flush_or_close|by apply K].
Qed.

Lemma wp_close_pending w : J w -> wp any (close_pending me) (fun _ => J) w.
Proof.
  intros HJ. apply wp_bind, wp_interfere_kept; [done|]. intros w1 HJ1. apply wp_bind.
  unfold wp at 1, take_pending_closes. apply wp_loop; [apply K|by apply K].
Qed.

Lemma wp_take_incoming w : J w -> wp any (take_incoming me) (fun _ => J) w.
Proof.
  intros HJ. apply wp_bind, wp_interfere_kept; [done|]. intros w1 HJ1. apply wp_bind.
  unfold wp at 1, take_inbox. destruct (inboxes w1 !! me); [|done].
  apply wp_loop; [apply K|]. unaffected.
Qed.

Lemma wp_hand_over x w : J w -> wp any (hand_over me x) (fun _ => J) w.
Proof.
  intros HJ. unfold hand_over.
  apply wp_bind, wp_gets, wp_bind, wp_modify, wp_bind, wp_gets, wp_bind, wp_gets.
  case_decide; [done|]. apply wp_bind, wp_modify, wp_bind, wp_interfere_kept; [unaffected|].
  intros w1 HJ1. apply wp_bind. unfold wp at 1, push_incoming. destruct (inboxes w1 !! _); [|done].
  unfold wake_peer. apply wp_modify. case_decide; [|unaffected].
  apply (kept_shared J K (wake (shared (hub w1)))); [done|]. unaffected.
Qed.

Lemma wp_accept_loop n w : J w -> wp any (accept_loop me n) (fun _ => J) w.
Proof.
  revert w. induction n as [|n IH]; intros w HJ; [done|]. cbn [accept_loop]. apply wp_bind, wp_gets.
  destruct (listener (reactor w)) as [l|]; [|done]. destruct (l_accept l) as [[x|[]] l'];
    apply wp_bind, wp_modify.
  - apply wp_bind. eapply wp_mono; [apply wp_hand_over; unaffected|].
    intros u w1 HJ1. by apply IH.
  - apply wp_ret. unaffected.
  - apply IH. unaffected.
  - done.
Qed.

(** The order of [HashMap::keys]. *)
Variable keys : gmap Z (ManagedConnection S T) -> list Z.

Lemma wp_handle_event e w : J w -> wp any (handle_event me fuel keys e) (fun _ => J) w.
Proof.
  intros HJ. unfold handle_event. case_match; [|case_match].
  - apply wp_bind. eapply wp_mono; [by apply wp_accept_loop|]. done.
  - apply wp_bind, wp_interfere_kept; [done|]. intros w1 HJ1. apply wp_bind, wp_gets.
    destruct (stopped _).
    + apply wp_bind. unfold close_all. apply wp_bind, wp_gets.
      eapply wp_mono; [apply wp_loop; [apply K|done]|done].
    + apply wp_bind. eapply wp_mono; [by apply wp_take_incoming|]. intros u2 w2 HJ2.
      apply wp_bind. eapply wp_mono; [by apply wp_flush_pending|]. intros u3 w3 HJ3.
      apply wp_bind. eapply wp_mono; [by apply wp_close_pending|done].
  - apply wp_bind. eapply wp_mono; [by apply wp_handle_connection|done].
Qed.

Lemma wp_handle_events l w : J w -> wp any (handle_events me fuel keys l) (fun _ => J) w.
Proof.
  revert w. induction l as [|e l IH]; intros w HJ; [done|]. cbn [handle_events]. apply wp_bind.
  eapply wp_mono; [by apply wp_handle_event|]. intros [] w1 HJ1; [done|by apply IH].
Qed.

Lemma wp_run polls w : J w -> wp any (run me fuel keys polls) (fun _ => J) w.
Proof.
  revert w. induction polls as [|[evs|e] polls IH]; intros w HJ; cbn [run];
    apply wp_bind, wp_interfere_kept; try done. intros w1 HJ1.
  apply wp_bind. unfold hear. apply wp_modify, wp_bind.
  eapply wp_mono; [apply wp_handle_events; case_match; [unaffected|done]|].
  intros [] w2 HJ2; [done|by apply IH].
Qed.
End compose.
