(* ===== verification/ReactorInvariant.v ===== *)
(** The reactor's invariant: the well-formedness of its tables, the life of
    every connection as the handler sees it, and the ledgers of the bytes that
    come in and go out.  Every operation of the reactor and every operation of
    the other threads keeps it. *)
From S2P Require Import Prelude Codec NetSend SessionCalls Transports Reactor ReactorLogic.
Local Open Scope nat_scope.

(** ** The life of a connection

    The abstract machine the handler may rely on: it is told of a session once,
    then gets non-empty data, then is told once, with the same id, that the
    session is gone, and nothing after that. *)
Inductive phase : Type := Fresh | Live (id : Z) | Gone (id : Z).

Definition life_step (p : phase) (e : hev) : option phase :=
  match p, e with
  | Fresh, Accepted _ id => Some (Live id)
  | Live id, Data _ (_ :: _) => Some (Live id)
  | Live id, Disconnected _ id' => if (id =? id')%Z then Some (Gone id) else None
  | _, _ => None
  end.

Definition lifecycle (l : list hev) : option phase :=
  foldl (fun p e => p ≫= fun p => life_step p e) (Some Fresh) l.

Definition ev_tok (e : hev) : Z :=
  match e with Accepted tok _ | Data tok _ | Disconnected tok _ => tok end.

Definition events_of (tok : Z) (l : list hev) : list hev := filter (fun e => ev_tok e = tok) l.

(** The bytes the handler was given for a connection. *)
Definition received (tok : Z) (l : list hev) : bytes :=
  concat (omap (fun e => match e with
                         | Data t bs => if decide (t = tok) then Some bs else None
                         | _ => None
                         end) l).

Lemma events_of_app tok l l' : events_of tok (l ++ l') = events_of tok l ++ events_of tok l'.
Proof. apply filter_app. Qed.

Lemma events_of_same tok e : ev_tok e = tok -> events_of tok [e] = [e].
Proof. intros He. unfold events_of. by rewrite filter_cons_True. Qed.

Lemma events_of_other tok e : ev_tok e <> tok -> events_of tok [e] = [].
Proof. intros He. unfold events_of. by rewrite filter_cons_False. Qed.

Lemma received_app tok l l' : received tok (l ++ l') = received tok l ++ received tok l'.
Proof. unfold received. by rewrite omap_app, concat_app. Qed.

Lemma lifecycle_snoc l e : lifecycle (l ++ [e]) = lifecycle l ≫= fun p => life_step p e.
Proof. unfold lifecycle. by rewrite foldl_app. Qed.

(** ** What a call may do to the hub *)
Definition hub_evolves (h h' : Hub) : Prop :=
  dom (sessions h') = dom (sessions h)
  /\ forall tok s, sessions h !! tok = Some s ->
     exists s', sessions h' !! tok = Some s' /\ session_evolves s s'
       /\ (buffer_wf (outbound s) -> exists new,
             bytes_of tok (appended h') = bytes_of tok (appended h) ++ new
             /\ pending_slice (outbound s') = pending_slice (outbound s) ++ new).

Lemma hub_evolves_same h h' :
  sessions h' = sessions h -> appended h' = appended h -> hub_evolves h h'.
Proof.
  intros Hs Ha. unfold hub_evolves. rewrite Hs, Ha. split; [done|]. intros tok s Hl. exists s.
  split_and!; [done|apply session_evolves_refl|]. intros _. exists []. by rewrite !app_nil_r.
Qed.

Lemma call_step_evolves pc h x h' : call_step pc h = (x, h') -> hub_evolves h h'.
Proof.
  intros Hc. destruct (call_step_sessions _ _ _ _ Hc) as [Hd He]. split; [done|].
  intros tok s Hs. destruct (He tok s Hs) as (s' & Hs' & Hev). exists s'. split_and!; [done..|].
  intros Hwf. destruct (call_step_ledger _ _ _ _ tok s Hc Hs Hwf) as (s1 & new & Hs1 & ? & ?).
  simplify_eq. eauto.
Qed.

Lemma thread_step_evolves tid h r h' : thread_step tid h = (r, h') -> hub_evolves h h'.
Proof.
  unfold thread_step. intros Ht. destruct (callers h !! tid) as [pc|]; simplify_eq;
    [|by apply hub_evolves_same].
  destruct (call_step pc h) as [[pc'|r'] h1] eqn:Hc; simplify_eq;
    by destruct (call_step_evolves _ _ _ _ Hc).
Qed.

(** ** The invariant *)
Section invariant.
Context {S T H L : Type}.
Context `{!Transport T S} `{!TransportLaws T S}.

(** Where the ledgers of some connections start: what had come in and what the
    handler had been given of it, what had been accepted for sending and what
    had been appended. *)
Variable base : Z -> option ((bytes * bytes) * (bytes * bytes)).

Definition phase_of (conns : gmap Z (ManagedConnection S T)) (h : Hub) (tok : Z) : phase :=
  match sessions h !! tok with
  | None => Fresh
  | Some s => if conns !! tok then Live (session_id s) else Gone (session_id s)
  end.

Definition session_ok (conns : gmap Z (ManagedConnection S T)) (nt : Z) (limit : nat)
    (tok : Z) (s : Session) : Prop :=
  (FIRST_CONNECTION_TOKEN <= tok < nt)%Z /\ token s = tok
  /\ buffer_wf (outbound s) /\ length (pending_slice (outbound s)) <= max_pending (outbound s)
  /\ max_pending (outbound s) = limit
  /\ disposed s = negb (bool_decide (is_Some (conns !! tok))).

Definition ledger_ok (h : Hub) (lg : list hev) (tok : Z) (c : ManagedConnection S T) (s : Session) : Prop :=
  forall i0 r0 o0 a0, base tok = Some ((i0, r0), (o0, a0)) ->
    (exists new, t_in (transport c) (stream c) = i0 ++ new /\ received tok lg = r0 ++ new)
    /\ exists new, t_out (transport c) (stream c) ++ pending_slice (outbound s) = o0 ++ new
                   /\ bytes_of tok (appended h) = a0 ++ new.

Record core (conns : gmap Z (ManagedConnection S T)) (nt : Z) (limit : nat) (h : Hub)
    (ints : gmap Z bool) (lg : list hev) : Prop := mkCore {
  core_next : (FIRST_CONNECTION_TOKEN <= nt)%Z;
  core_conn : forall tok c, conns !! tok = Some c -> session c = tok;
  core_dom : dom conns ⊆ dom (sessions h);
  core_session : forall tok s, sessions h !! tok = Some s -> session_ok conns nt limit tok s;
  core_interests : dom ints = dom conns;
  core_life : forall tok, lifecycle (events_of tok lg) = Some (phase_of conns h tok);
  core_ledger : forall tok c s, conns !! tok = Some c -> sessions h !! tok = Some s ->
    ledger_ok h lg tok c s;
  core_base : forall tok, is_Some (base tok) -> (tok < nt)%Z;
}.

(** Tokens are fresh as long as fewer than [2^64] were used. *)
Definition Tables (w : World S T H L) : Prop :=
  (next_token (reactor w) <= 2 ^ 64)%Z ->
  core (connections (reactor w)) (next_token (reactor w)) (max_pending_send (reactor w)) (hub w)
    (interests w) (log w).

(** Between handler calls the reactor thread is in no call on a session. *)
Definition Inv (w : World S T H L) : Prop := Tables w /\ callers (hub w) !! 0 = None.

(** *** Calls *)
Lemma core_evolves conns nt limit h h' ints lg :
  hub_evolves h h' -> core conns nt limit h ints lg -> core conns nt limit h' ints lg.
Proof.
  intros [Hd He] C.
  assert (forall tok s', sessions h' !! tok = Some s' -> exists s, sessions h !! tok = Some s) as Hback.
  { intros tok s' Hs'. apply elem_of_dom_2 in Hs'. rewrite Hd in Hs'. by apply elem_of_dom in Hs'. }
  split; try apply C.
  - rewrite Hd. apply C.
  - intros tok s' Hs'. destruct (Hback tok s' Hs') as [s Hs].
    destruct (He tok s Hs) as (s1 & Hs1 & (Hid & Htok & Hdis & Hmax & Hwf & Hlen) & _). simplify_eq.
    destruct (core_session _ _ _ _ _ _ C tok s Hs) as (? & ? & ? & ? & ? & ?).
    unfold session_ok. split_and!; try congruence; auto; lia.
  - intros tok. rewrite (core_life _ _ _ _ _ _ C). f_equal. unfold phase_of.
    destruct (sessions h !! tok) as [s|] eqn:Hs.
    + destruct (He tok s Hs) as (s' & -> & (-> & _) & _). done.
    + destruct (sessions h' !! tok) as [s'|] eqn:Hs'; [|done].
      destruct (Hback tok s' Hs') as [s0 ?]. congruence.
  - intros tok c s' Hc Hs'. destruct (Hback tok s' Hs') as [s Hs].
    destruct (He tok s Hs) as (s1 & Hs1 & _ & Hnew). simplify_eq.
    destruct (core_session _ _ _ _ _ _ C tok s Hs) as (_ & _ & Hwf & _).
    destruct (Hnew Hwf) as (new & Happ & Hpend). intros i0 r0 o0 a0 Hb.
    destruct (core_ledger _ _ _ _ _ _ C tok c s Hc Hs i0 r0 o0 a0 Hb) as [Hin (new' & Hout & Ha)].
    split; [done|]. exists (new' ++ new). by rewrite Hpend, Happ, Ha, !app_assoc, Hout.
Qed.

Lemma Tables_hub (w : World S T H L) h' :
  hub_evolves (hub w) h' -> Tables w -> Tables (on_hub (fun _ => h') w).
Proof. intros He HI Hn. exact (core_evolves _ _ _ _ _ _ _ He (HI Hn)). Qed.

Lemma Tables_shared sh (w : World S T H L) : Tables w -> Tables (on_hub (set_shared sh) w).
Proof. apply Tables_hub. by apply hub_evolves_same. Qed.

Lemma Inv_shared sh (w : World S T H L) : Inv w -> Inv (on_hub (set_shared sh) w).
Proof. intros [? ?]. split; [by apply Tables_shared|done]. Qed.

Lemma Tables_begin tid pc (w : World S T H L) : Tables w -> Tables (on_hub (begin_call tid pc) w).
Proof. apply Tables_hub. by apply hub_evolves_same. Qed.

Lemma Tables_thread tid (w : World S T H L) r h :
  Tables w -> thread_step tid (hub w) = (r, h) -> Tables (on_hub (fun _ => h) w).
Proof. intros HI Ht. by eapply Tables_hub, HI; eapply thread_step_evolves. Qed.

Lemma Tables_ext me x (w : World S T H L) : Tables w -> Tables (ext_step me x w).
Proof.
  intros HI. destruct x; cbn [ext_step]; try exact HI.
  1,2: destruct (callers (hub w) !! _); [done|by apply Tables_begin].
  - eapply (Tables_thread (Datatypes.S tid)); [done|apply surjective_pairing].
  - by apply (Tables_shared (store_stopped (shared (hub w)))).
  - by apply (Tables_shared (wake (shared (hub w)))).
  - by case_decide.
Qed.

Lemma Inv_ext me x (w : World S T H L) : Inv w -> Inv (ext_step me x w).
Proof. intros [? ?]. split; [by apply Tables_ext|by rewrite ext_step_me]. Qed.

(** *** The reactor's tables *)
Lemma hub_unchanged h tok s :
  sessions h !! tok = Some s ->
  set_hub_sessions (<[tok := set_outbound s (outbound s)]> (sessions h)) h = h.
Proof.
  intros Hs. unfold set_hub_sessions. rewrite insert_id; [by destruct h|]. rewrite Hs. by destruct s.
Qed.

Lemma core_get conns nt limit h ints lg tok c :
  core conns nt limit h ints lg -> conns !! tok = Some c ->
  session c = tok /\ exists s, sessions h !! tok = Some s /\ session_ok conns nt limit tok s.
Proof.
  intros C Hc. split; [by eapply core_conn|].
  pose proof (core_dom _ _ _ _ _ _ C tok (elem_of_dom_2 _ _ _ Hc)) as [s Hs]%elem_of_dom.
  exists s. split; [done|]. by eapply core_session.
Qed.

Lemma core_close conns nt limit h ints lg tok c s :
  core conns nt limit h ints lg -> conns !! tok = Some c -> sessions h !! tok = Some s ->
  core (delete tok conns) nt limit (set_hub_sessions (<[tok := mark_disposed s]> (sessions h)) h)
    (delete tok ints) (lg ++ [Disconnected tok (session_id s)]).
Proof.
  intros C Hc Hs. split; try apply C.
  - intros t c' [_ Hc']%lookup_delete_Some. by eapply core_conn.
  - cbn. rewrite dom_delete_L, dom_insert_L. pose proof (core_dom _ _ _ _ _ _ C). set_solver.
  - cbn. intros t s' Hs'. destruct (decide (t = tok)) as [->|Hne].
    + rewrite lookup_insert_eq in Hs'. simplify_eq.
      destruct (core_session _ _ _ _ _ _ C tok s Hs) as (? & ? & ? & ? & ? & ?).
      unfold session_ok. cbn. rewrite lookup_delete_eq. split_and!; try done; lia.
    + rewrite lookup_insert_ne in Hs' by done.
      destruct (core_session _ _ _ _ _ _ C t s' Hs') as (? & ? & ? & ? & ? & ?).
      unfold session_ok. rewrite lookup_delete_ne by done. split_and!; try done; lia.
  - by rewrite !dom_delete_L, (core_interests _ _ _ _ _ _ C).
  - intros t. rewrite events_of_app. unfold phase_of. cbn [sessions set_hub_sessions]. destruct (decide (t = tok)) as [->|Hne].
    + rewrite events_of_same, lifecycle_snoc, (core_life _ _ _ _ _ _ C) by done.
      unfold phase_of. rewrite Hs, Hc, lookup_insert_eq, lookup_delete_eq. cbn. by rewrite Z.eqb_refl.
    + rewrite (events_of_other t (Disconnected tok _)), app_nil_r, (core_life _ _ _ _ _ _ C) by (cbn; congruence).
      unfold phase_of. by rewrite lookup_insert_ne, lookup_delete_ne by done.
  - cbn. intros t c' s' [Hne Hc']%lookup_delete_Some Hs'. rewrite lookup_insert_ne in Hs' by done.
    unfold ledger_ok. rewrite received_app. unfold received at 2. cbn. rewrite app_nil_r.
    by apply (core_ledger _ _ _ _ _ _ C).
Qed.

Lemma core_replace conns nt limit h ints lg tok c c' s b new :
  core conns nt limit h ints lg -> conns !! tok = Some c -> sessions h !! tok = Some s ->
  session c' = session c ->
  buffer_wf b -> max_pending b = max_pending (outbound s) ->
  length (pending_slice b) <= length (pending_slice (outbound s)) ->
  t_in (transport c') (stream c') = t_in (transport c) (stream c) ++ new ->
  t_out (transport c') (stream c') ++ pending_slice b
    = t_out (transport c) (stream c) ++ pending_slice (outbound s) ->
  core (<[tok := c']> conns) nt limit (set_hub_sessions (<[tok := set_outbound s b]> (sessions h)) h)
    ints (lg ++ match new with [] => [] | _ => [Data tok new] end).
Proof.
  intros C Hc Hs Hsess Hwf Hmax Hlen Hin Hout.
  assert (forall t : Z, is_Some (<[tok := c']> conns !! t) <-> is_Some (conns !! t)) as Hsome.
  { intros t. destruct (decide (t = tok)) as [->|Hne]; [|by rewrite lookup_insert_ne].
    rewrite lookup_insert_eq, Hc. split; intros; eauto. }
  assert (received tok (match new with [] => [] | _ => [Data tok new] end) = new) as Hrec.
  { destruct new; [done|]. unfold received. cbn. rewrite decide_True by done. cbn. by rewrite app_nil_r. }
  assert (forall t, t <> tok -> received t (match new with [] => [] | _ => [Data tok new] end) = []) as Hoth.
  { intros t Hne. destruct new; [done|]. unfold received. cbn. by rewrite decide_False by done. }
  split; try apply C.
  - intros t c1 Hc1. destruct (decide (t = tok)) as [->|Hne].
    + rewrite lookup_insert_eq in Hc1. simplify_eq. rewrite Hsess. by eapply core_conn.
    + rewrite lookup_insert_ne in Hc1 by done. by eapply core_conn.
  - cbn. rewrite !dom_insert_L. pose proof (core_dom _ _ _ _ _ _ C). set_solver.
  - cbn. intros t s' Hs'. destruct (decide (t = tok)) as [->|Hne].
    + rewrite lookup_insert_eq in Hs'. simplify_eq.
      destruct (core_session _ _ _ _ _ _ C tok s Hs) as (? & ? & ? & ? & ? & Hd).
      unfold session_ok. cbn. rewrite Hd, (bool_decide_ext _ _ (Hsome tok)). split_and!; try done; try lia.
    + rewrite lookup_insert_ne in Hs' by done.
      destruct (core_session _ _ _ _ _ _ C t s' Hs') as (? & ? & ? & ? & ? & Hd).
      unfold session_ok. rewrite Hd, (bool_decide_ext _ _ (Hsome t)). split_and!; try done; lia.
  - rewrite (core_interests _ _ _ _ _ _ C), dom_insert_L. apply elem_of_dom_2 in Hc. set_solver.
  - intros t. rewrite events_of_app. unfold phase_of. cbn [sessions set_hub_sessions]. destruct (decide (t = tok)) as [->|Hne].
    + pose proof (core_life _ _ _ _ _ _ C tok) as Hl. unfold phase_of in Hl. rewrite Hs, Hc in Hl.
      rewrite !lookup_insert_eq. cbn. destruct new as [|x new]; [by rewrite app_nil_r|].
      rewrite events_of_same, lifecycle_snoc, Hl by done; done.
    + rewrite !lookup_insert_ne by done. pose proof (core_life _ _ _ _ _ _ C t) as Hl.
      destruct new as [|x new]; [by rewrite app_nil_r|].
      by rewrite (events_of_other t (Data tok _)), app_nil_r by (cbn; congruence).
  - cbn. intros t c1 s1 Hc1 Hs1. destruct (decide (t = tok)) as [->|Hne].
    + rewrite lookup_insert_eq in Hc1. rewrite lookup_insert_eq in Hs1. simplify_eq. intros i0 r0 o0 a0 Hb. cbn.
      destruct (core_ledger _ _ _ _ _ _ C tok c s Hc Hs i0 r0 o0 a0 Hb) as [(n1 & Hi & Hr) H2].
      rewrite received_app, Hrec, Hin, Hi, Hr, Hout. split; [|done].
      exists (n1 ++ new). by rewrite !app_assoc.
    + rewrite lookup_insert_ne in Hc1 by done. rewrite lookup_insert_ne in Hs1 by done. unfold ledger_ok.
      rewrite received_app, (Hoth t Hne), app_nil_r. by apply (core_ledger _ _ _ _ _ _ C).
Qed.

Lemma core_bump conns nt limit h ints lg :
  core conns nt limit h ints lg -> core conns (nt + 1) limit h ints lg.
Proof.
  intros C. split; try apply C.
  - pose proof (core_next _ _ _ _ _ _ C). lia.
  - intros tok s Hs. destruct (core_session _ _ _ _ _ _ C tok s Hs) as (? & ? & ? & ? & ? & ?).
    unfold session_ok. split_and!; try done; lia.
  - intros tok Hb. pose proof (core_base _ _ _ _ _ _ C tok Hb). lia.
Qed.

Lemma core_take conns nt limit h ints lg c id :
  core conns nt limit h ints lg -> session c = nt ->
  core (<[nt := c]> conns) (nt + 1) limit
    (set_hub_sessions (<[nt := session_new id nt limit]> (sessions h)) h)
    (<[nt := false]> ints) (lg ++ [Accepted nt id]).
Proof.
  intros C Hsess.
  assert (sessions h !! nt = None) as Hfresh.
  { destruct (sessions h !! nt) as [s|] eqn:Hs; [|done].
    destruct (core_session _ _ _ _ _ _ C nt s Hs) as (? & _). lia. }
  assert (base nt = None) as Hbase.
  { apply eq_None_not_Some. intros Hb. pose proof (core_base _ _ _ _ _ _ C nt Hb). lia. }
  split.
  - pose proof (core_next _ _ _ _ _ _ C). lia.
  - intros t c1 Hc1. destruct (decide (t = nt)) as [->|Hne].
    + rewrite lookup_insert_eq in Hc1. by simplify_eq.
    + rewrite lookup_insert_ne in Hc1 by done. by eapply core_conn.
  - cbn. rewrite !dom_insert_L. pose proof (core_dom _ _ _ _ _ _ C). set_solver.
  - cbn. intros t s' Hs'. destruct (decide (t = nt)) as [->|Hne].
    + rewrite lookup_insert_eq in Hs'. simplify_eq. pose proof (core_next _ _ _ _ _ _ C).
      unfold session_ok. cbn. rewrite lookup_insert_eq. split_and!; try done; lia.
    + rewrite lookup_insert_ne in Hs' by done.
      destruct (core_session _ _ _ _ _ _ C t s' Hs') as (? & ? & ? & ? & ? & Hd).
      unfold session_ok. rewrite lookup_insert_ne by done. split_and!; try done; lia.
  - by rewrite !dom_insert_L, (core_interests _ _ _ _ _ _ C).
  - intros t. rewrite events_of_app. unfold phase_of. cbn [sessions set_hub_sessions]. pose proof (core_life _ _ _ _ _ _ C t) as Hl.
    unfold phase_of in Hl. destruct (decide (t = nt)) as [->|Hne].
    + rewrite Hfresh in Hl. rewrite events_of_same, lifecycle_snoc, Hl by done.
      by rewrite !lookup_insert_eq.
    + rewrite (events_of_other t (Accepted nt _)), app_nil_r by (cbn; congruence).
      by rewrite !lookup_insert_ne by done.
  - cbn. intros t c1 s1 Hc1 Hs1. destruct (decide (t = nt)) as [->|Hne]; [intros ? ? ? ? ?; congruence|].
    rewrite lookup_insert_ne in Hc1 by done. rewrite lookup_insert_ne in Hs1 by done. unfold ledger_ok. rewrite received_app.
    unfold received at 2. cbn. rewrite app_nil_r. by apply (core_ledger _ _ _ _ _ _ C).
  - intros t Hb. pose proof (core_base _ _ _ _ _ _ C t Hb). lia.
Qed.

(** *** The operations *)
Context `{!TransportFactory T} `{!HostHandler H}.
Variables (me fuel : nat).
Notation world := (World S T H L).
Notation any := (fun _ : world => True).

Definition small (w : world) : Prop := (next_token (reactor w) <= 2 ^ 64)%Z.

(** The invariant with what calls leave alone: the connections and the count of
    tokens. *)
Definition Framed (m : gmap Z (ManagedConnection S T)) (n : Z) (w : world) : Prop :=
  Tables w /\ connections (reactor w) = m /\ next_token (reactor w) = n.

Definition idle (w : world) : Prop := callers (hub w) !! 0 = None.

Lemma Framed_ext m n x w : Framed m n w -> Framed m n (ext_step me x w).
Proof.
  intros (HI & Hm & Hn). split; [by apply Tables_ext|].
  destruct x; cbn [ext_step]; try done; try (destruct (callers (hub w) !! _); done).
  by case_decide.
Qed.

Lemma wp_interfere_framed E m n (Q : unit -> world -> Prop) w :
  Framed m n w -> idle w -> (forall w', Framed m n w' -> idle w' -> Q tt w') ->
  wp E (interfere me) Q w.
Proof.
  intros HF Hi HQ. apply (wp_interfere E me (fun w => Framed m n w /\ idle w)); [done| |done|naive_solver].
  intros x w' [? ?]. split; [by apply Framed_ext|]. unfold idle. by rewrite ext_step_me.
Qed.

Lemma wp_call_handler E e p m n w :
  (forall w, E w) \/ (forall h, quiet (p h)) ->
  Framed m n (add_log e w) -> idle w ->
  wp E (call_handler me e p) (fun _ w' => Framed m n w' /\ idle w') w.
Proof.
  intros HE HF Hi. unfold call_handler. apply wp_bind, wp_gets, wp_bind, wp_modify.
  apply wp_run_hprog; try done.
  - destruct HE; auto.
  - intros x w'. apply Framed_ext.
  - intros w' r h (HI & ? & ?) Ht. split; [by eapply Tables_thread|done].
  - intros pc w' (HI & ? & ?) _. split; [by apply Tables_begin|done].
Qed.

(** [close] removes the connection. *)
Lemma wp_close E tok m n w :
  (forall w, E w) \/ ((n <= 2 ^ 64)%Z /\ forall h id, quiet (on_disconnected h id)) ->
  Framed m n w -> idle w ->
  wp E (close me tok) (fun _ w' => Framed (delete tok m) n w' /\ idle w') w.
Proof.
  intros HE HF Hi. unfold close. apply wp_bind. apply wp_interfere_framed with m n; [done..|].
  clear w HF Hi. intros w HF Hi. apply wp_bind, wp_gets. destruct HF as (HI & Hm & Hn). rewrite Hm.
  destruct (m !! tok) as [c|] eqn:Hc.
  2: { apply wp_ret. split; [|done]. split; [done|]. by rewrite delete_id. }
  apply wp_bind, wp_modify, wp_bind, wp_gets. cbn [hub on_reactor].
  destruct (sessions (hub w) !! session c) as [s|] eqn:Hs.
  - apply wp_bind, wp_modify, wp_bind, wp_modify. apply wp_call_handler; [naive_solver| |done].
    split; [|done]. intros Hsmall. cbn in Hsmall |- *. specialize (HI Hsmall). rewrite Hm in HI.
    pose proof (core_conn _ _ _ _ _ _ HI tok c Hc) as Hsc. rewrite Hsc in Hs |- *.
    by apply core_close with c.
  - apply wp_unwind. destruct HE as [HE|[Hsmall _]]; [done|exfalso].
    rewrite <- Hn in Hsmall. specialize (HI Hsmall). rewrite Hm in HI.
    destruct (core_get _ _ _ _ _ _ _ _ HI Hc) as (Hsc & s & ? & _). congruence.
Qed.

Lemma Inv_framed w : Inv w -> Framed (connections (reactor w)) (next_token (reactor w)) w /\ idle w.
Proof. by intros [? ?]. Qed.

Lemma Framed_inv m n w : Framed m n w /\ idle w -> Inv w.
Proof. by intros [(? & _) ?]. Qed.

Lemma wp_close_inv tok w : Inv w -> wp any (close me tok) (fun _ => Inv) w.
Proof.
  intros [HF Hi]%Inv_framed. eapply wp_mono; [apply wp_close; [by left|done..]|].
  intros ? ?. apply Framed_inv.
Qed.

Lemma wp_write_locked tok c w :
  Inv w -> connections (reactor w) !! tok = Some c ->
  wp any (write_locked fuel tok c)
    (fun _ w' => Inv w' /\ is_Some (connections (reactor w') !! tok)) w.
Proof.
  intros [HI Hi] Hc. unfold wp, write_locked.
  destruct (sessions (hub w) !! session c) as [s|] eqn:Hs; [|done].
  destruct (t_write fuel (transport c) (stream c) (outbound s)) as [[[[o t'] st'] b']|] eqn:Hw; [|done].
  split; [split; [|done]|cbn; rewrite lookup_insert_eq; eauto].
  intros Hsmall. cbn in Hsmall |- *. specialize (HI Hsmall).
  destruct (core_get _ _ _ _ _ _ _ _ HI Hc) as (Hsc & s1 & Hs1 & Hok). rewrite Hsc in *. simplify_eq.
  destruct Hok as (_ & _ & Hwf & Hlen & _).
  destruct (t_write_law _ _ _ _ _ _ _ _ Hw Hwf) as (Hwf' & Hmax & Hout & Hin & Hl).
  rewrite <- (app_nil_r (log w)). apply (core_replace _ _ _ _ _ _ (session c) c _ s b' []); try done.
  cbn. by rewrite app_nil_r.
Qed.

Lemma wp_set_interest tok b w :
  Inv w -> is_Some (connections (reactor w) !! tok) -> wp any (set_interest tok b) (fun _ => Inv) w.
Proof.
  intros [HI Hi] Hc. apply wp_modify. split; [|done]. intros Hsmall. cbn in *. specialize (HI Hsmall).
  destruct HI. split; try done. rewrite dom_insert_L. apply elem_of_dom in Hc. set_solver.
Qed.

Lemma wp_flush tok w : Inv w -> wp any (flush me fuel tok) (fun _ => Inv) w.
Proof.
  intros HI. unfold flush. apply wp_bind, wp_gets.
  destruct (connections (reactor w) !! tok) as [c|] eqn:Hc; [|done].
  destruct (Inv_framed w HI) as [HF Hi].
  apply wp_bind. eapply wp_interfere_framed; [done..|]. intros w' (HT & Hm & _) Hi'.
  pose proof (conj HT Hi' : Inv w') as HI'.
  rewrite <- Hm in Hc. apply wp_bind. eapply wp_mono; [by apply wp_write_locked|].
  intros [closed pending] w1 [HI1 Hc1]. cbn [fst snd]. destruct closed; [done|].
  apply wp_bind. unfold reregister. eapply wp_mono with (Q := fun _ => Inv); [|done].
  apply wp_bind, wp_answer; [intros b l; destruct b; [|done]|]; by apply wp_set_interest.
Qed.

Lemma wp_read tok w : Inv w -> wp any (read me fuel tok) (fun _ => Inv) w.
Proof.
  intros [HI Hi]. unfold read. apply wp_bind, wp_modify, wp_bind, wp_gets. cbn [reactor on_reactor].
  destruct (connections _ !! tok) as [c|] eqn:Hc; [|done]. cbn in Hc.
  destruct (t_read fuel (transport c) (stream c) []) as [[[[o t'] st'] new]|] eqn:Hr; [|done].
  destruct (t_read_law _ _ _ _ _ _ _ _ Hr) as (new' & Hnew & Hin & Hout). cbn in Hnew. subst new'.
  apply wp_bind, wp_modify, wp_bind, wp_gets. apply wp_bind.
  eapply wp_mono with (Q := fun _ => Inv).
  2: { intros [] w1 HI1. apply wp_bind, wp_modify. destruct o; [by apply wp_flush|done]. }
  set (w1 := on_reactor _ (on_reactor _ w)).
  assert (forall lg, lg = log w ++ match new with [] => [] | _ => [Data tok new] end ->
    small w -> core (connections (reactor w1)) (next_token (reactor w1)) (max_pending_send (reactor w1))
      (hub w1) (interests w1) lg) as Hcore.
  { intros lg -> Hsmall. specialize (HI Hsmall). cbn.
    destruct (core_get _ _ _ _ _ _ _ _ HI Hc) as (Hsc & s & Hs & (_ & _ & Hwf & _)).
    pose proof (core_replace _ _ _ _ _ _ tok c (mkConnection st' (session c) t') s (outbound s) new
      HI Hc Hs eq_refl Hwf eq_refl ltac:(lia) Hin) as Hrep.
    cbn [transport stream] in Hrep. rewrite Hout in Hrep. specialize (Hrep eq_refl).
    by rewrite (hub_unchanged _ _ _ Hs) in Hrep. }
  destruct new as [|x new].
  - apply wp_ret. split; [|done]. intros Hsmall. apply Hcore; [|done]. cbn. by rewrite app_nil_r.
  - eapply wp_mono; [apply wp_call_handler; [by left| |done]|].
    + split; [|done]. intros Hsmall. by apply Hcore.
    + intros ? ?. apply Framed_inv.
Qed.

Lemma wp_take_one x w : Inv w -> wp any (take_one me x) (fun _ => Inv) w.
Proof.
  intros [HI Hi]. unfold take_one. apply wp_bind, wp_gets, wp_bind, wp_modify.
  set (w1 := on_reactor bump_token w).
  assert (Inv w1) as HI1.
  { split; [|done]. intros Hsmall. cbn in *. assert (small w) as Hw by (unfold small; lia).
    exact (core_bump _ _ _ _ _ _ (HI Hw)). }
  assert (forall w2 : world, reactor w2 = reactor w1 -> hub w2 = hub w1 -> interests w2 = interests w1 ->
    log w2 = log w1 -> Inv w2) as Heq.
  { intros w2 E1 E2 E3 E4. unfold Inv, Tables. by rewrite E1, E2, E3, E4. }
  apply wp_bind.
  eapply wp_mono with (Q := fun _ w2 => reactor w2 = reactor w1 /\ hub w2 = hub w1
    /\ interests w2 = interests w1 /\ log w2 = log w1); [by apply wp_answer|].
  intros ok w2 (E1 & E2 & E3 & E4). destruct ok; cbn [negb]; [|by apply wp_ret, Heq].
  apply wp_bind. unfold set_interest. apply wp_modify, wp_bind, wp_gets, wp_bind, wp_modify.
  destruct create as [t|msg|msg]; [|done..]. apply wp_bind, wp_modify.
  eapply wp_mono; [apply wp_call_handler; [by left|split; [|done]|]|intros ? ?; apply Framed_inv].
  2: { unfold idle. cbn. by rewrite E2. }
  intros Hsmall. cbn in Hsmall |- *. rewrite E1, E2, E3, E4 in *. cbn in Hsmall |- *.
  assert (small w) as Hw by (unfold small; lia). specialize (HI Hw).
  pose proof (core_next _ _ _ _ _ _ HI) as Hge. unfold FIRST_CONNECTION_TOKEN in Hge.
  replace (wrap_u64 (next_token (reactor w))) with (next_token (reactor w)).
  - by apply core_take.
  - symmetry. apply Z.mod_small. lia.
Qed.

(** All of the reactor keeps it. *)
Lemma Inv_kept : kept me fuel Inv.
Proof.
  split.
  - intros w w' (E1 & _ & E2 & E3 & E4 & E5 & _ & E6) [HT Hi]. split.
    + unfold Tables. by rewrite E1, E2, E3, E4, E5, E6.
    + by rewrite E4.
  - intros w. apply others_keep; [done|apply Inv_ext].
  - intros sh w _. apply Inv_shared.
  - apply wp_close_inv.
  - apply wp_flush.
  - apply wp_read.
  - apply wp_take_one.
Qed.

(** *** A worker at the start *)
Record fresh_worker (w : world) : Prop := {
  fresh_connections : connections (reactor w) = ∅;
  fresh_token : next_token (reactor w) = FIRST_CONNECTION_TOKEN;
  fresh_sessions : sessions (hub w) = ∅;
  fresh_callers : callers (hub w) = ∅;
  fresh_interests : interests w = ∅;
  fresh_log : log w = [];
}.

Lemma fresh_Inv w :
  (forall tok, is_Some (base tok) -> (tok < FIRST_CONNECTION_TOKEN)%Z) -> fresh_worker w -> Inv w.
Proof.
  intros Hb [Hc Ht Hs Hid Hi Hl]. split; [intros _|by rewrite Hid]. rewrite Hc, Ht, Hi, Hl. unfold FIRST_CONNECTION_TOKEN in *.
  split; rewrite ?Hs; try done.
  intros tok. unfold phase_of. by rewrite Hs, lookup_empty.
Qed.
End invariant.
