(* ===== verification/ReactorPending.v ===== *)
(** Output and close requests are not forgotten.  A [send] appends, then queues
    the session's token, then wakes the poll, three operations between which the
    reactor may take the queue, flush and change its registration; this file
    shows that whatever the interleaving, when the reactor waits in [poll] every
    byte still to be written and every close request has somebody to take care
    of it. *)
From S2P Require Import Prelude Codec NetSend SessionCalls Transports Reactor ReactorLogic.
Local Open Scope nat_scope.

(** Some thread is about to perform this operation. *)
Definition at_pc (h : Hub) (pc : call_pc) : Prop := exists tid, callers h !! tid = Some pc.

(** The poll has not reported the last wake, or a wake is about to be made. *)
Definition alarm (heard : nat) (h : Hub) : Prop :=
  heard < wakes (shared h) \/ exists tok, at_pc h (SendWake tok) \/ at_pc h (CloseWake tok).

Section pending.
Context {S T H L : Type} `{!Transport T S}.
Notation conns_t := (gmap Z (ManagedConnection S T)).

(** [ts] and [cs] are tokens the reactor has taken and not yet flushed or
    closed; [dw] and [dc] say that it will still take the queues in the current
    batch of events. *)
Record pend (ts cs : list Z) (dw dc : bool) (conns : conns_t) (ints : gmap Z bool) (heard : nat)
    (h : Hub) : Prop := mkPend {
  pend_heard : heard <= wakes (shared h);
  pend_conn : forall tok c, conns !! tok = Some c -> session c = tok;
  pend_engine : forall tok c, conns !! tok = Some c -> t_wants_write (transport c) = true ->
    ints !! tok = Some true \/ tok ∈ ts;
  pend_write : forall tok s, is_Some (conns !! tok) -> sessions h !! tok = Some s ->
    pending_slice (outbound s) <> [] ->
    ints !! tok = Some true \/ tok ∈ pending_writes (shared h) \/ at_pc h (SendPush tok) \/ tok ∈ ts;
  pend_write_alarm : pending_writes (shared h) <> [] -> dw = true \/ alarm heard h;
  pend_close : forall tok s, is_Some (conns !! tok) -> sessions h !! tok = Some s ->
    close_requested s = true ->
    tok ∈ pending_closes (shared h) \/ at_pc h (ClosePush tok) \/ tok ∈ cs;
  pend_close_alarm : pending_closes (shared h) <> [] -> dc = true \/ alarm heard h;
}.

(** ** Calls *)
Lemma at_pc_begin h tid pc0 pc : callers h !! tid = None -> at_pc h pc -> at_pc (begin_call tid pc0 h) pc.
Proof.
  intros Hn [t Ht]. exists t. cbn. rewrite lookup_insert_ne; [done|]. intros ->. congruence.
Qed.

(** A step of thread [tid] from [pc0] leaves the others where they are. *)
Lemma at_pc_insert h tid pc0 pc1 pc :
  callers h !! tid = Some pc0 -> pc <> pc0 -> at_pc h pc ->
  at_pc (set_callers (<[tid := pc1]> (callers h)) h) pc.
Proof.
  intros H0 Hne [t Ht]. exists t. cbn. rewrite lookup_insert_ne; [done|]. intros ->. congruence.
Qed.

Lemma at_pc_delete h tid pc0 pc :
  callers h !! tid = Some pc0 -> pc <> pc0 -> at_pc h pc ->
  at_pc (set_callers (delete tid (callers h)) h) pc.
Proof.
  intros H0 Hne [t Ht]. exists t. cbn. rewrite lookup_delete_ne; [done|]. intros ->. congruence.
Qed.

(** What a step must do to keep [pend]: [h'] is the hub it leaves. *)
Lemma pend_step ts cs dw dc conns ints n h h' :
  pend ts cs dw dc conns ints n h ->
  (forall tok s', sessions h' !! tok = Some s' -> exists s, sessions h !! tok = Some s
     /\ (pending_slice (outbound s') = pending_slice (outbound s) \/ at_pc h' (SendPush tok))
     /\ (close_requested s' = close_requested s \/ at_pc h' (ClosePush tok))) ->
  (forall tok, tok ∈ pending_writes (shared h) -> tok ∈ pending_writes (shared h')) ->
  (forall tok, tok ∈ pending_closes (shared h) -> tok ∈ pending_closes (shared h')) ->
  (forall tok, at_pc h (SendPush tok) -> at_pc h' (SendPush tok) \/ tok ∈ pending_writes (shared h')) ->
  (forall tok, at_pc h (ClosePush tok) -> at_pc h' (ClosePush tok) \/ tok ∈ pending_closes (shared h')) ->
  wakes (shared h) <= wakes (shared h') -> (alarm n h -> alarm n h') ->
  (pending_writes (shared h') = pending_writes (shared h) \/ alarm n h') ->
  (pending_closes (shared h') = pending_closes (shared h) \/ alarm n h') ->
  pend ts cs dw dc conns ints n h'.
Proof.
  intros [Ph Pc Pe Pw Pwa Pcl Pca] Hs Hw Hc Hpw Hpc Hwk Hal Hwa Hca. split; [lia|done..| | | |].
  - intros tok s' Hin Hs' Hne. destruct (Hs tok s' Hs') as (s & Hss & [E|?] & _); [|tauto].
    rewrite E in Hne. destruct (Pw tok s Hin Hss Hne) as [?|[Ht|[Ht|?]]]; [tauto|apply Hw in Ht; tauto|apply Hpw in Ht; tauto|tauto].
  - intros Hne. destruct Hwa as [E|?]; [|tauto]. rewrite E in Hne. tauto.
  - intros tok s' Hin Hs' Hr. destruct (Hs tok s' Hs') as (s & Hss & _ & [E|?]); [|tauto].
    rewrite E in Hr. destruct (Pcl tok s Hin Hss Hr) as [Ht|[Ht|?]]; [apply Hc in Ht; tauto|apply Hpc in Ht; tauto|tauto].
  - intros Hne. destruct Hca as [E|?]; [|tauto]. rewrite E in Hne. tauto.
Qed.

Lemma pend_begin ts cs dw dc conns ints n h tid pc :
  callers h !! tid = None -> pend ts cs dw dc conns ints n h ->
  pend ts cs dw dc conns ints n (begin_call tid pc h).
Proof.
  intros Hn P. pose proof (fun pc' => at_pc_begin h tid pc pc' Hn) as Hat.
  apply (pend_step _ _ _ _ _ _ _ _ _ P); auto.
  - intros tok s Hs. exists s. auto.
  - intros [?|(tok & [?|?])]; [by left|right; exists tok; auto..].
Qed.

(** The other threads' program points outlive a step of [tid]. *)
Lemma thread_step_at tid h r h' pc0 pc :
  callers h !! tid = Some pc0 -> thread_step tid h = (r, h') ->
  pc <> pc0 -> at_pc h pc -> at_pc h' pc.
Proof.
  intros H0 Ht Hne Hat. unfold thread_step in Ht. rewrite H0 in Ht.
  destruct (call_step pc0 h) as [[pc1|r1] h1] eqn:Hc; simplify_eq;
    pose proof (call_step_callers _ _ _ _ Hc) as E; rewrite E in *;
    [apply (at_pc_insert h tid pc0 pc1) in Hat|apply (at_pc_delete h tid pc0) in Hat]; done.
Qed.

Lemma thread_step_new tid h r h' pc0 pc1 h1 :
  callers h !! tid = Some pc0 -> call_step pc0 h = (inl pc1, h1) -> thread_step tid h = (r, h') ->
  at_pc h' pc1.
Proof.
  intros H0 Hc Ht. unfold thread_step in Ht. rewrite H0, Hc in Ht. simplify_eq.
  exists tid. cbn. by rewrite lookup_insert_eq.
Qed.

Lemma thread_step_hub tid h r h' pc0 x h1 :
  callers h !! tid = Some pc0 -> call_step pc0 h = (x, h1) -> thread_step tid h = (r, h') ->
  sessions h' = sessions h1 /\ shared h' = shared h1.
Proof.
  intros H0 Hc Ht. unfold thread_step in Ht. rewrite H0, Hc in Ht. destruct x; by simplify_eq.
Qed.

Lemma pend_thread ts cs dw dc conns ints n h tid r h' :
  pend ts cs dw dc conns ints n h -> thread_step tid h = (r, h') ->
  pend ts cs dw dc conns ints n h'.
Proof.
  intros P Ht. destruct (callers h !! tid) as [pc0|] eqn:H0.
  2: { unfold thread_step in Ht. rewrite H0 in Ht. by simplify_eq. }
  destruct (call_step pc0 h) as [x h1] eqn:Hc.
  destruct (thread_step_hub _ _ _ _ _ _ _ H0 Hc Ht) as [Es Esh].
  pose proof (fun pc => thread_step_at tid h r h' pc0 pc H0 Ht) as Hkeep.
  assert (forall pc1, x = inl pc1 -> at_pc h' pc1) as Hnew
    by (intros pc1 ->; by eapply thread_step_new).
  pose proof (pend_heard _ _ _ _ _ _ _ _ P) as Hheard.
  assert (forall tok s, sessions h !! tok = Some s -> exists s0, sessions h !! tok = Some s0
     /\ (pending_slice (outbound s) = pending_slice (outbound s0) \/ at_pc h' (SendPush tok))
     /\ (close_requested s = close_requested s0 \/ at_pc h' (ClosePush tok))) as Hsame by eauto 10.
  apply (pend_step _ _ _ _ _ _ _ _ _ P); rewrite ?Es, ?Esh.
  - destruct pc0; cbn in Hc; repeat case_match; simplify_eq/=; auto; intros t s';
      (destruct (decide (t = tok)) as [->|Hne];
       [rewrite lookup_insert_eq; intros [= <-]; eexists; split; [done|];
        split; first [left; cbn; congruence|right; by apply Hnew]
       |rewrite lookup_insert_ne by done; apply Hsame]).
  - intros t. destruct pc0; cbn in Hc; repeat case_match; simplify_eq/=; set_solver.
  - intros t. destruct pc0; cbn in Hc; repeat case_match; simplify_eq/=; set_solver.
  - intros t Ht'. destruct (decide (SendPush t = pc0)) as [<-|]; [right|by left; apply Hkeep].
    cbn in Hc. simplify_eq/=. set_solver.
  - intros t Ht'. destruct (decide (ClosePush t = pc0)) as [<-|]; [right|by left; apply Hkeep].
    cbn in Hc. simplify_eq/=. set_solver.
  - destruct pc0; cbn in Hc; repeat case_match; simplify_eq/=; lia.
  - intros [Hlt|(t & Ha)]; unfold alarm; rewrite Esh.
    + left. destruct pc0; cbn in Hc; repeat case_match; simplify_eq/=; lia.
    + destruct (decide (SendWake t = pc0)) as [<-|]; [left; cbn in Hc; simplify_eq/=; lia|].
      destruct (decide (CloseWake t = pc0)) as [<-|]; [left; cbn in Hc; simplify_eq/=; lia|].
      right. exists t. destruct Ha; [left|right]; by apply Hkeep.
  - unfold alarm. destruct pc0; cbn in Hc; repeat case_match; simplify_eq/=; eauto 8.
  - unfold alarm. destruct pc0; cbn in Hc; repeat case_match; simplify_eq/=; eauto 8.
Qed.

(** ** The reactor

    From here on the operating system refuses no registration. *)
Notation world := (World S T H L).
Notation any := (fun _ : world => True).

Definition Pend (ts cs : list Z) (dw dc : bool) (w : world) : Prop :=
  pend ts cs dw dc (connections (reactor w)) (interests w) (heard w) (hub w) /\ answers w = [].

(** [Pend] when the reactor thread is in no call. *)
Definition Rest (ts cs : list Z) (dw dc : bool) (w : world) : Prop :=
  Pend ts cs dw dc w /\ callers (hub w) !! 0 = None.

Lemma Pend_ext me ts cs dw dc x w : Pend ts cs dw dc w -> Pend ts cs dw dc (ext_step me x w).
Proof.
  intros [P Ha]. destruct x; cbn [ext_step]; try (by split).
  1,2: destruct (callers (hub w) !! _) eqn:E; [by split|]; split; [by apply pend_begin|done].
  - split; [|done]. eapply pend_thread; [done|apply surjective_pairing].
  - split; [|done]. destruct P. by split.
  - split; [|done]. destruct P as [? ? ? ? Pwa ? Pca]. split; cbn; try done; [lia|..].
    + intros _. right. left. cbn. lia.
    + intros _. right. left. cbn. lia.
  - case_decide; by split.
Qed.

Lemma wp_interfere_rest me ts cs dw dc (Q : unit -> world -> Prop) w :
  Rest ts cs dw dc w -> (forall w', Rest ts cs dw dc w' /\ connections (reactor w') = connections (reactor w)
    -> Q tt w') -> wp any (interfere me) Q w.
Proof.
  intros HR. apply wp_interfere; [done| |by split].
  intros x w' [[? ?] Hm]. split; [split; [by apply Pend_ext|by rewrite ext_step_me]|].
  rewrite <- Hm. destruct x; cbn [ext_step]; try done; by repeat case_match.
Qed.

Lemma wp_handler_rest me e p ts cs dw dc w :
  Rest ts cs dw dc w -> wp any (call_handler me e p) (fun _ => Rest ts cs dw dc) w.
Proof.
  intros [HP Hi]. unfold call_handler. apply wp_bind, wp_gets, wp_bind, wp_modify.
  apply wp_run_hprog; try done; [by left|..].
  - intros x w'. apply Pend_ext.
  - intros w' r h [P Ha] Ht. split; [by eapply pend_thread|done].
  - intros pc w' [P Ha] Hn. split; [by apply pend_begin|done].
Qed.

Context `{!TransportFactory T} `{!HostHandler H} `{!Listener L S}.
Variables (me fuel : nat).

(** A token still to be taken care of, other than the one just handled. *)
Ltac care :=
  repeat match goal with Hin : _ ∈ _ :: _ |- _ => apply elem_of_cons in Hin as [?|?] end;
  rewrite ?elem_of_cons; subst; try congruence; tauto.

(** A closed connection needs no care. *)
Lemma wp_close_rest tok ts cs dw dc w :
  Rest (tok :: ts) (tok :: cs) dw dc w -> wp any (close me tok) (fun _ => Rest ts cs dw dc) w.
Proof.
  intros HR. apply wp_bind. eapply wp_interfere_rest; [done|]. intros w1 [[[P Ha] Hi] _].
  clear w HR. rename w1 into w.
  apply wp_bind, wp_gets. destruct (connections (reactor w) !! tok) as [c|] eqn:Hc.
  - apply wp_bind, wp_modify, wp_bind, wp_gets. cbn [hub on_reactor].
    destruct (sessions (hub w) !! session c) as [s|] eqn:Hs; [|done].
    apply wp_bind, wp_modify, wp_bind, wp_modify. apply wp_handler_rest. split; [split; [|done]|done].
    pose proof (pend_conn _ _ _ _ _ _ _ _ P tok c Hc) as Hsc. rewrite Hsc in *.
    destruct P as [? Pc Pe Pw Pwa Pcl Pca]. split; cbn; try done.
    + intros t c' [_ Hc']%lookup_delete_Some. by apply Pc.
    + intros t c' [Hne Hc']%lookup_delete_Some Hww. rewrite lookup_delete_ne by done.
      destruct (Pe t c' Hc' Hww); care.
    + intros t s' [c' [Hne Hc']%lookup_delete_Some] Hs' Hp. rewrite lookup_insert_ne in Hs' by done.
      rewrite lookup_delete_ne by done. destruct (Pw t s' ltac:(eauto) Hs' Hp) as [|[|[|]]]; care.
    + intros t s' [c' [Hne Hc']%lookup_delete_Some] Hs' Hr. rewrite lookup_insert_ne in Hs' by done.
      destruct (Pcl t s' ltac:(eauto) Hs' Hr) as [|[|]]; care.
  - apply wp_ret. split; [split; [|done]|done]. destruct P as [? Pc Pe Pw Pwa Pcl Pca]. split; try done.
    + intros t c' Hc' Hww. assert (t <> tok) by congruence. destruct (Pe t c' Hc' Hww); care.
    + intros t s' Hc' Hs' Hp. assert (t <> tok) by (intros ->; rewrite Hc in Hc'; by destruct Hc').
      destruct (Pw t s' Hc' Hs' Hp) as [|[|[|]]]; care.
    + intros t s' Hc' Hs' Hr. assert (t <> tok) by (intros ->; rewrite Hc in Hc'; by destruct Hc').
      destruct (Pcl t s' Hc' Hs' Hr) as [|[|]]; care.
Qed.

Lemma Rest_weaken ts ts' cs cs' dw dc w :
  ts ⊆ ts' -> cs ⊆ cs' -> Rest ts cs dw dc w -> Rest ts' cs' dw dc w.
Proof.
  intros Ht Hcs [[[? Pc Pe Pw Pwa Pcl Pca] Ha] Hi]. split; [split; [|done]|done]. split; try done.
  - intros t c' Hc' Hww. pose proof (Ht t). destruct (Pe t c' Hc' Hww); auto.
  - intros t s' Hc' Hs' Hp. pose proof (Ht t). destruct (Pw t s' Hc' Hs' Hp) as [|[|[|]]]; auto 6.
  - intros t s' Hc' Hs' Hr. pose proof (Hcs t). destruct (Pcl t s' Hc' Hs' Hr) as [|[|]]; auto 6.
Qed.

(** A flushed connection is watched for writability if anything is left. *)
Lemma wp_flush_rest tok ts cs dw dc w :
  Rest (tok :: ts) cs dw dc w ->
  wp any (flush me fuel tok)
    (fun closed => Rest (if closed then tok :: ts else ts) cs dw dc) w.
Proof.
  intros HR. unfold flush. apply wp_bind, wp_gets.
  destruct (connections (reactor w) !! tok) as [c|] eqn:Hc.
  2: { apply wp_ret. destruct HR as [[[? Pc Pe Pw Pwa Pcl Pca] Ha] Hi].
       split; [split; [|done]|done]. split; try done.
       - intros t c' Hc' Hww. assert (t <> tok) by congruence. destruct (Pe t c' Hc' Hww); care.
       - intros t s' Hc' Hs' Hp. assert (t <> tok) by (intros ->; rewrite Hc in Hc'; by destruct Hc').
         destruct (Pw t s' Hc' Hs' Hp) as [|[|[|]]]; care. }
  apply wp_bind. eapply wp_interfere_rest; [done|]. intros w1 [[[P Ha] Hi] Hm].
  rewrite <- Hm in Hc. clear w HR Hm. pose proof (pend_conn _ _ _ _ _ _ _ _ P tok c Hc) as Hsc.
  apply wp_bind. unfold wp at 1, write_locked. rewrite Hsc.
  destruct (sessions (hub w1) !! tok) as [s|] eqn:Hs; [|done].
  destruct (t_write fuel _ _ _) as [[[[o t'] st'] b']|]; [|done]. cbn [fst snd].
  assert (forall t, is_Some (<[tok := mkConnection st' tok t']> (connections (reactor w1)) !! t) ->
    is_Some (connections (reactor w1) !! t)) as Hin.
  { intros t. destruct (decide (t = tok)) as [->|Hne]; [rewrite Hc; eauto|by rewrite lookup_insert_ne]. }
  destruct P as [? Pc Pe Pw Pwa Pcl Pca]. destruct o.
  - apply wp_bind. unfold reregister. apply wp_bind. unfold wp at 1, answer.
    cbn [answers on_reactor on_hub]. rewrite Ha. apply wp_modify, wp_ret.
    split; [split; [|done]|done]. split; cbn; try done.
    + intros t c' Hc'. destruct (decide (t = tok)) as [->|Hne].
      * rewrite lookup_insert_eq in Hc'. by simplify_eq.
      * rewrite lookup_insert_ne in Hc' by done. by apply Pc.
    + intros t c' Hc' Hww. destruct (decide (t = tok)) as [->|Hne].
      * rewrite lookup_insert_eq in Hc'. simplify_eq/=. rewrite lookup_insert_eq, Hww, orb_true_r. by left.
      * rewrite lookup_insert_ne in Hc' by done. rewrite lookup_insert_ne by done.
        destruct (Pe t c' Hc' Hww); care.
    + intros t s' Hc' Hs' Hp. destruct (decide (t = tok)) as [->|Hne].
      * rewrite lookup_insert_eq in Hs'. simplify_eq/=. left. rewrite lookup_insert_eq.
        destruct (has_pending b') eqn:Hb; [done|]. destruct Hp. unfold has_pending in Hb.
        apply bool_decide_eq_false in Hb. unfold pending_slice. by rewrite drop_ge by lia.
      * rewrite lookup_insert_ne in Hs' by done. rewrite lookup_insert_ne by done.
        destruct (Pw t s' (Hin t Hc') Hs' Hp) as [|[|[|]]]; care.
    + intros t s' Hc' Hs' Hr. destruct (decide (t = tok)) as [->|Hne].
      * rewrite lookup_insert_eq in Hs'. simplify_eq/=. by apply (Pcl _ s (Hin _ Hc') Hs).
      * rewrite lookup_insert_ne in Hs' by done. by apply (Pcl t s' (Hin t Hc')).
  - apply wp_ret. split; [split; [|done]|done]. split; cbn; try done.
    + intros t c' Hc'. destruct (decide (t = tok)) as [->|Hne].
      * rewrite lookup_insert_eq in Hc'. by simplify_eq.
      * rewrite lookup_insert_ne in Hc' by done. by apply Pc.
    + intros t c' Hc' Hww. destruct (decide (t = tok)) as [->|Hne]; [care|].
      rewrite lookup_insert_ne in Hc' by done. destruct (Pe t c' Hc' Hww); care.
    + intros t s' Hc' Hs' Hp. destruct (decide (t = tok)) as [->|Hne]; [care|].
      rewrite lookup_insert_ne in Hs' by done.
      destruct (Pw t s' (Hin t Hc') Hs' Hp) as [|[|[|]]]; care.
    + intros t s' Hc' Hs' Hr. destruct (decide (t = tok)) as [->|Hne].
      * rewrite lookup_insert_eq in Hs'. simplify_eq/=. by apply (Pcl _ s (Hin _ Hc') Hs).
      * rewrite lookup_insert_ne in Hs' by done. by apply (Pcl t s' (Hin t Hc')).
Qed.

Lemma wp_flush_or_close_rest tok ts cs dw dc w :
  Rest (tok :: ts) cs dw dc w -> wp any (flush_or_close me fuel tok) (fun _ => Rest ts cs dw dc) w.
Proof.
  intros HR. apply wp_bind. eapply wp_mono; [by apply wp_flush_rest|]. intros [] w1 HR1; [|done].
  apply wp_close_rest. eapply Rest_weaken; [..|exact HR1]; set_solver.
Qed.

(** The state after a queue was taken: nothing of it is left to announce. *)
Lemma wp_flush_pending_rest dc d w :
  Rest [] [] true dc w -> wp any (flush_pending me fuel) (fun _ => Rest [] [] d dc) w.
Proof.
  intros HR. apply wp_bind. eapply wp_interfere_rest; [done|]. intros w1 [[[P Ha] Hi] _].
  apply wp_bind. unfold wp at 1, take_pending_writes.
  apply (wp_for_each any _ _ (fun ts => Rest ts [] d dc)).
  - intros tok ts w2 HR2. by apply wp_flush_or_close_rest.
  - split; [split; [|done]|done]. destruct P as [? Pc Pe Pw Pwa Pcl Pca]. split; cbn; try done.
    + intros t c' Hc' Hww. destruct (Pe t c' Hc' Hww) as [|?%elem_of_nil]; [by left|done].
    + intros t s' Hc' Hs' Hp. destruct (Pw t s' Hc' Hs' Hp) as [?|[?|[?|?%elem_of_nil]]];
        [by left|by right; right; right|by right; right; left|done].
Qed.

Lemma wp_close_pending_rest dw d w :
  Rest [] [] dw true w -> wp any (close_pending me) (fun _ => Rest [] [] dw d) w.
Proof.
  intros HR. apply wp_bind. eapply wp_interfere_rest; [done|]. intros w1 [[[P Ha] Hi] _].
  apply wp_bind. unfold wp at 1, take_pending_closes.
  apply (wp_for_each any _ _ (fun cs => Rest [] cs dw d)).
  - intros tok cs w2 HR2. apply wp_close_rest. eapply Rest_weaken; [..|exact HR2]; set_solver.
  - split; [split; [|done]|done]. destruct P as [? Pc Pe Pw Pwa Pcl Pca]. split; cbn; try done.
    + intros t s' Hc' Hs' Hr. destruct (Pcl t s' Hc' Hs' Hr) as [?|[?|?%elem_of_nil]];
        [by right; right|by right; left|done].
Qed.

Lemma wp_read_rest tok dw dc w :
  Rest [] [] dw dc w ->
  wp any (read me fuel tok) (fun closed => Rest (if closed then [tok] else []) [] dw dc) w.
Proof.
  intros [[P Ha] Hi]. unfold read. apply wp_bind, wp_modify, wp_bind, wp_gets. cbn [reactor on_reactor].
  destruct (connections _ !! tok) as [c|] eqn:Hc; [|done]. cbn in Hc.
  destruct (t_read fuel (transport c) (stream c) []) as [[[[o t'] st'] new]|]; [|done].
  apply wp_bind, wp_modify, wp_bind, wp_gets. apply wp_bind.
  eapply wp_mono with (Q := fun _ => Rest [tok] [] dw dc).
  2: { intros [] w1 HR1. apply wp_bind, wp_modify. destruct o; [by apply wp_flush_rest|done]. }
  set (w1 := on_reactor _ (on_reactor _ w)).
  assert (Rest [tok] [] dw dc w1) as HR1.
  { split; [split; [|done]|done]. destruct P as [? Pc Pe Pw Pwa Pcl Pca].
    assert (forall t, is_Some (connections (reactor w1) !! t) -> is_Some (connections (reactor w) !! t)) as Hin.
    { intros t. cbn. destruct (decide (t = tok)) as [->|Hne]; [rewrite Hc; eauto|by rewrite lookup_insert_ne]. }
    split; try done.
    - intros t c'. cbn. destruct (decide (t = tok)) as [->|Hne].
      + rewrite lookup_insert_eq. intros [= <-]. by apply (Pc _ c).
      + rewrite lookup_insert_ne by done. apply Pc.
    - intros t c' Hc' Hww. cbn in Hc'. destruct (decide (t = tok)) as [->|Hne]; [right; set_solver|].
      rewrite lookup_insert_ne in Hc' by done. destruct (Pe t c' Hc' Hww) as [|?%elem_of_nil]; [by left|done].
    - intros t s' Hc' Hs' Hp. destruct (Pw t s' (Hin t Hc') Hs' Hp) as [?|[?|[?|?%elem_of_nil]]];
        [by left|by right; left|by right; right; left|done].
    - intros t s' Hc' Hs' Hr. by apply (Pcl t s' (Hin t Hc')). }
  destruct new; [done|]. by apply wp_handler_rest.
Qed.

Lemma wp_connection_rest tok r wr dw dc w :
  Rest [] [] dw dc w -> wp any (handle_connection me fuel tok r wr) (fun _ => Rest [] [] dw dc) w.
Proof.
  intros HR. apply wp_bind.
  eapply wp_mono with (Q := fun closed : bool => Rest (if closed then [tok] else []) [] dw dc);
    [destruct r; [by apply wp_read_rest|done]|].
  intros closed w1 HR1. apply wp_bind.
  eapply wp_mono with (Q := fun closed : bool => Rest (if closed then [tok] else []) [] dw dc).
  { destruct closed; [done|]. destruct wr; [|done]. apply wp_flush_rest.
    eapply Rest_weaken; [..|exact HR1]; set_solver. }
  intros [] w2 HR2; [|done]. apply wp_close_rest. eapply Rest_weaken; [..|exact HR2]; set_solver.
Qed.

(** A new connection has nothing to write and no request. *)
Hypothesis create_quiet : forall t, create = Ok t -> t_wants_write t = false.

Lemma wp_take_one_rest x dw dc w :
  Rest [] [] dw dc w -> wp any (take_one me x) (fun _ => Rest [] [] dw dc) w.
Proof.
  intros [[P Ha] Hi]. unfold take_one. apply wp_bind, wp_gets, wp_bind, wp_modify.
  apply wp_bind. unfold wp at 1, answer. cbn [answers on_reactor]. rewrite Ha. cbn [negb].
  apply wp_bind. unfold set_interest. apply wp_modify, wp_bind, wp_gets, wp_bind, wp_modify.
  destruct create as [t|msg|msg] eqn:Hcr; [|done..]. apply wp_bind, wp_modify, wp_handler_rest.
  set (tok := wrap_u64 _). split; [split; [|done]|done].
  destruct P as [? Pc Pe Pw Pwa Pcl Pca]. split; cbn; try done.
  - intros t' c'. destruct (decide (t' = tok)) as [->|Hne].
    + rewrite lookup_insert_eq. by intros [= <-].
    + rewrite lookup_insert_ne by done. apply Pc.
  - intros t' c' Hc' Hww. destruct (decide (t' = tok)) as [->|Hne].
    + rewrite lookup_insert_eq in Hc'. simplify_eq/=. by rewrite (create_quiet t) in Hww.
    + rewrite lookup_insert_ne in Hc' by done. rewrite lookup_insert_ne by done. by apply (Pe t' c').
  - intros t' s' Hc' Hs' Hp. destruct (decide (t' = tok)) as [->|Hne].
    + rewrite lookup_insert_eq in Hs'. by simplify_eq/=.
    + rewrite lookup_insert_ne in Hs' by done. rewrite lookup_insert_ne in Hc' by done.
      rewrite lookup_insert_ne by done. by apply (Pw t' s').
  - intros t' s' Hc' Hs' Hr. destruct (decide (t' = tok)) as [->|Hne].
    + rewrite lookup_insert_eq in Hs'. by simplify_eq/=.
    + rewrite lookup_insert_ne in Hs' by done. rewrite lookup_insert_ne in Hc' by done.
      by apply (Pcl t' s').
Qed.

Lemma wp_take_incoming_rest dw dc w :
  Rest [] [] dw dc w -> wp any (take_incoming me) (fun _ => Rest [] [] dw dc) w.
Proof.
  intros HR. apply wp_bind. eapply wp_interfere_rest; [done|]. intros w1 [HR1 _].
  apply wp_bind. unfold wp at 1, take_inbox. destruct (inboxes w1 !! me); [|done].
  apply (wp_for_each any _ _ (fun _ => Rest [] [] dw dc)); [|done]. intros a _ w2. apply wp_take_one_rest.
Qed.

Lemma Rest_wake dw dc w :
  Rest [] [] dw dc w -> Rest [] [] dw dc (on_hub (fun h => set_shared (wake (shared h)) h) w).
Proof. intros [HP Hi]. split; [|done]. by apply (Pend_ext me [] [] dw dc XWake). Qed.

Lemma wp_accept_rest n dw dc w :
  Rest [] [] dw dc w -> wp any (accept_loop me n) (fun _ => Rest [] [] dw dc) w.
Proof.
  revert w. induction n as [|n IH]; intros w HR; [done|]. cbn [accept_loop]. apply wp_bind, wp_gets.
  destruct (listener (reactor w)) as [l|]; [|done]. destruct (l_accept l) as [[x|[]] l'].
  - apply wp_bind, wp_modify, wp_bind.
    eapply wp_mono with (Q := fun _ => Rest [] [] dw dc); [|intros u w1 HR1; by apply IH].
    unfold hand_over. apply wp_bind, wp_gets, wp_bind, wp_modify, wp_bind, wp_gets, wp_bind, wp_gets.
    case_decide; [done|]. apply wp_bind, wp_modify, wp_bind. eapply wp_interfere_rest; [exact HR|].
    intros w1 [HR1 _]. apply wp_bind. unfold wp at 1, push_incoming.
    destruct (inboxes w1 !! _); [|done]. apply wp_modify. case_decide; [by apply Rest_wake|done].
  - done.
  - apply wp_bind, wp_modify. by apply IH.
  - done.
Qed.

(** The order of [HashMap::keys]. *)
Variable keys : gmap Z (ManagedConnection S T) -> list Z.

Definition waker_in (l : list Event) : bool := existsb (fun e => (ev_token e =? WAKER_TOKEN)%Z) l.

Lemma wp_event_rest e rest w :
  Rest [] [] (waker_in (e :: rest)) (waker_in (e :: rest)) w ->
  wp any (handle_event me fuel keys e)
    (fun stop w' => stop = false -> Rest [] [] (waker_in rest) (waker_in rest) w') w.
Proof.
  intros HR. unfold handle_event. destruct (ev_token e =? WAKER_TOKEN)%Z eqn:Hw.
  - replace (ev_token e =? LISTENER_TOKEN)%Z with false
      by (symmetry; apply Z.eqb_neq; apply Z.eqb_eq in Hw; unfold LISTENER_TOKEN, WAKER_TOKEN in *; lia).
    cbn in HR. rewrite Hw in HR. cbn in HR.
    apply wp_bind. eapply wp_interfere_rest; [done|]. intros w1 [HR1 _]. apply wp_bind, wp_gets.
    destruct (stopped _).
    { apply wp_bind. unfold wp at 1. destruct (close_all me keys w1) as [[[]| | |] w2]; done. }
    apply wp_bind. eapply wp_mono; [by apply wp_take_incoming_rest|]. intros u2 w2 HR2.
    apply wp_bind. eapply wp_mono; [by apply (wp_flush_pending_rest true (waker_in rest))|]. intros u3 w3 HR3.
    apply wp_bind. eapply wp_mono; [by apply (wp_close_pending_rest (waker_in rest) (waker_in rest))|]. intros u4 w4 HR4. by apply wp_ret.
  - cbn in HR. rewrite Hw in HR. cbn in HR. fold (waker_in rest) in HR. case_match.
    + apply wp_bind. eapply wp_mono; [by apply wp_accept_rest|]. intros u4 w4 HR4. by apply wp_ret.
    + apply wp_bind. eapply wp_mono; [by apply wp_connection_rest|]. intros u4 w4 HR4. by apply wp_ret.
Qed.

Lemma wp_events_rest l w :
  Rest [] [] (waker_in l) (waker_in l) w ->
  wp any (handle_events me fuel keys l) (fun stop w' => stop = false -> Rest [] [] false false w') w.
Proof.
  revert w. induction l as [|e l IH]; intros w HR; [by apply wp_ret|]. cbn [handle_events]. apply wp_bind.
  eapply wp_mono; [by apply wp_event_rest|]. intros [] w1 HR1; [by apply wp_ret|]. by apply IH, HR1.
Qed.

Lemma wp_run_rest polls w :
  Rest [] [] false false w ->
  wp any (run me fuel keys polls) (fun r w' => r = Waiting -> Rest [] [] false false w') w.
Proof.
  revert w. induction polls as [|[evs|e] polls IH]; intros w HR; cbn [run];
    apply wp_bind; (eapply wp_interfere_rest; [done|]); intros w1 [HR1 _]; [by apply wp_ret| |done].
  apply wp_bind. unfold hear. apply wp_modify, wp_bind. fold (waker_in evs).
  eapply wp_mono; [apply wp_events_rest|].
  - destruct (waker_in evs); [|done]. destruct HR1 as [[[? ? ? ? ? ? ?] ?] ?].
    split; [split; [|done]|done]. split; try done; cbn; auto.
  - intros [] w2 HR2; [by apply wp_ret|]. by apply IH, HR2.
Qed.
End pending.
