(* ===== verification/ReactorTheorems.v ===== *)
(** What the reactor guarantees: the handler's view of every connection, the
    tables, the bytes, output that is never forgotten, shutdown, the errors that
    end a worker, and the distribution of connections over the workers. *)
From S2P Require Import Prelude Codec NetSend SessionCalls Transports.
From S2P Require Import Reactor ReactorLogic ReactorInvariant ReactorPending.
Local Open Scope nat_scope.

Section theorems.
Context {S T H L : Type}.
Context `{!Transport T S} `{!TransportLaws T S} `{!TransportFactory T} `{!HostHandler H} `{!Listener L S}.
Variables (me fuel : nat).
Variable keys : gmap Z (ManagedConnection S T) -> list Z.
Notation world := (World S T H L).
Notation any := (fun _ : world => True).
Notation run := (run me fuel keys).
Notation unbased := (fun _ : Z => @None ((bytes * bytes) * (bytes * bytes))).

(** A worker waiting in [poll] after some events. *)
Definition reached (w : world) : Prop :=
  exists w0 polls, fresh_worker w0 /\ run polls w0 = (Go Waiting, w).

Lemma wp_elim {A} (m : RM S T H L A) Q w a w' : wp any m Q w -> m w = (Go a, w') -> Q a w'.
Proof. unfold wp. intros Hw E. by rewrite E in Hw. Qed.

Lemma run_Inv base polls w r w' : Inv base w -> run polls w = (Go r, w') -> Inv base w'.
Proof. intros HI. apply (wp_elim _ (fun _ => Inv base)). by apply wp_run, HI; apply Inv_kept. Qed.

Lemma fresh_core polls w r w' :
  fresh_worker w -> run polls w = (Go r, w') -> (next_token (reactor w') <= 2 ^ 64)%Z ->
  core unbased (connections (reactor w')) (next_token (reactor w')) (max_pending_send (reactor w'))
    (hub w') (interests w') (log w').
Proof.
  intros Hf Hr Hn. apply (run_Inv unbased) in Hr; [by apply Hr|].
  apply fresh_Inv; [|done]. by intros tok [].
Qed.

Lemma reached_Inv w : reached w -> Inv unbased w.
Proof.
  intros (w0 & polls & Hf & Hr). eapply run_Inv; [|exact Hr]. apply fresh_Inv; [|done]. by intros tok [].
Qed.

(** C3.  The handler sees every connection live one life: whatever the events,
    the transport, the handler's own calls and the other threads' sends and
    closes, the calls for a token are [on_accepted] once, then [on_data] with
    non-empty data, then [on_disconnected] once with the same session id and
    nothing after; and how far a connection is in that life is what the
    reactor's tables say. *)
Theorem reactor_lifecycle polls w r w' :
  fresh_worker w -> run polls w = (Go r, w') -> (next_token (reactor w') <= 2 ^ 64)%Z ->
  forall tok, lifecycle (events_of tok (log w'))
    = Some (phase_of (connections (reactor w')) (hub w') tok).
Proof. intros Hf Hr Hn tok. by eapply core_life, fresh_core. Qed.

(** C28.  The tables stay well formed: a connection is filed under its session's
    token; tokens are never those of the listener and the waker, nor reused; a
    session is disposed exactly when its connection is gone; a send buffer is
    sound and within the host's limit; and exactly the live connections are
    registered with the poll. *)
Theorem reactor_tables polls w r w' :
  fresh_worker w -> run polls w = (Go r, w') -> (next_token (reactor w') <= 2 ^ 64)%Z ->
  (forall tok c, connections (reactor w') !! tok = Some c ->
     session c = tok /\ is_Some (sessions (hub w') !! tok))
  /\ (forall tok s, sessions (hub w') !! tok = Some s ->
        session_ok (connections (reactor w')) (next_token (reactor w'))
          (max_pending_send (reactor w')) tok s)
  /\ dom (interests w') = dom (connections (reactor w')).
Proof.
  intros Hf Hr Hn. pose proof (fresh_core _ _ _ _ Hf Hr Hn) as C. split_and!.
  - intros tok c Hc. destruct (core_get _ _ _ _ _ _ _ _ _ C Hc) as (? & s & ? & _). eauto.
  - intros tok s. by apply (core_session _ _ _ _ _ _ _ C).
  - by apply (core_interests _ _ _ _ _ _ _ C).
Qed.

(** *** Ledgers between two moments *)
Definition base_of (w : world) (tok : Z) : option ((bytes * bytes) * (bytes * bytes)) :=
  match connections (reactor w) !! tok, sessions (hub w) !! tok with
  | Some c, Some s =>
      Some ((t_in (transport c) (stream c), received tok (log w)),
            (t_out (transport c) (stream c) ++ pending_slice (outbound s),
             bytes_of tok (appended (hub w))))
  | _, _ => None
  end.

Lemma Inv_based w : Inv unbased w -> Inv (base_of w) w.
Proof.
  intros [HT Hi]. split; [|done]. intros Hn. specialize (HT Hn). pose proof (core_session _ _ _ _ _ _ _ HT) as Hok.
  destruct HT. split; try done.
  - intros tok c s Hc Hs i0 r0 o0 a0 Hb. unfold base_of in Hb. rewrite Hc, Hs in Hb. simplify_eq.
    split; exists []; by rewrite !app_nil_r.
  - intros tok Hb. unfold base_of in Hb.
    destruct (connections (reactor w) !! tok); [|by destruct Hb].
    destruct (sessions (hub w) !! tok) as [s|] eqn:Hs; [|by destruct Hb].
    by destruct (Hok tok s Hs) as ((_ & ?) & _).
Qed.

(** Connections that are open at both moments. *)
Lemma ledgers_between polls w r w' tok c s c' s' :
  reached w -> run polls w = (Go r, w') -> (next_token (reactor w') <= 2 ^ 64)%Z ->
  connections (reactor w) !! tok = Some c -> sessions (hub w) !! tok = Some s ->
  connections (reactor w') !! tok = Some c' -> sessions (hub w') !! tok = Some s' ->
  (exists given, received tok (log w') = received tok (log w) ++ given
     /\ t_in (transport c') (stream c') = t_in (transport c) (stream c) ++ given)
  /\ exists sent, bytes_of tok (appended (hub w')) = bytes_of tok (appended (hub w)) ++ sent
     /\ t_out (transport c') (stream c') ++ pending_slice (outbound s')
        = (t_out (transport c) (stream c) ++ pending_slice (outbound s)) ++ sent.
Proof.
  intros Hw Hr Hn Hc Hs Hc' Hs'. apply reached_Inv, Inv_based in Hw.
  destruct (run_Inv _ _ _ _ _ Hw Hr) as [HT _].
  destruct (core_ledger _ _ _ _ _ _ _ (HT Hn) tok c' s' Hc' Hs'
    (t_in (transport c) (stream c)) (received tok (log w))
    (t_out (transport c) (stream c) ++ pending_slice (outbound s)) (bytes_of tok (appended (hub w))))
    as [(given & ? & ?) (sent & ? & ?)].
  - unfold base_of. by rewrite Hc, Hs.
  - eauto 10.
Qed.

(** C14.  No byte is lost, duplicated or reordered in either direction: between
    two moments at which a connection is open, what its transport obtained is
    what the handler was given, and what its transport took together with what
    is still buffered grew by exactly the appended bytes, in the order of the
    appends, however flushes, sends of other threads and of the handler
    interleave. *)
Theorem reactor_ledgers polls w r w' tok c s c' s' :
  reached w -> run polls w = (Go r, w') -> (next_token (reactor w') <= 2 ^ 64)%Z ->
  connections (reactor w) !! tok = Some c -> sessions (hub w) !! tok = Some s ->
  connections (reactor w') !! tok = Some c' -> sessions (hub w') !! tok = Some s' ->
  (exists given, received tok (log w') = received tok (log w) ++ given
     /\ t_in (transport c') (stream c') = t_in (transport c) (stream c) ++ given)
  /\ exists sent, bytes_of tok (appended (hub w')) = bytes_of tok (appended (hub w)) ++ sent
     /\ t_out (transport c') (stream c') ++ pending_slice (outbound s')
        = (t_out (transport c) (stream c) ++ pending_slice (outbound s)) ++ sent.
Proof. apply ledgers_between. Qed.

(** C13.  Nothing to be sent and no close request is forgotten: if the system
    refuses no [register] and no [reregister] (the reactor discards their errors,
    and a refused one does leave output unwatched) and new transports have nothing
    to write, then for a worker that starts with no connection and empty queues,
    whenever the reactor waits in [poll], for every open connection: bytes in
    the send buffer are watched for by a writable registration, or the token is
    queued and the poll has a wake to report, or the sender is still about to
    queue it; a transport that wants to write is registered writable; and a
    requested close is queued with a wake to come, or about to be queued. *)
Theorem no_stuck_output polls w w' :
  (forall t, create = Ok t -> t_wants_write t = false) ->
  fresh_worker w -> answers w = [] ->
  pending_writes (shared (hub w)) = [] -> pending_closes (shared (hub w)) = [] ->
  heard w <= wakes (shared (hub w)) ->
  run polls w = (Go Waiting, w') ->
  forall tok c s, connections (reactor w') !! tok = Some c -> sessions (hub w') !! tok = Some s ->
    (pending_slice (outbound s) <> [] ->
       interests w' !! tok = Some true
       \/ (tok ∈ pending_writes (shared (hub w')) /\ alarm (heard w') (hub w'))
       \/ at_pc (hub w') (SendPush tok))
    /\ (t_wants_write (transport c) = true -> interests w' !! tok = Some true)
    /\ (close_requested s = true ->
          (tok ∈ pending_closes (shared (hub w')) /\ alarm (heard w') (hub w'))
          \/ at_pc (hub w') (ClosePush tok)).
Proof.
  intros Hq [Hc0 Ht0 Hs0 Hcl0 Hi0 Hl0] Ha Hw Hc Hh Hr tok c s Hct Hst.
  assert (Rest [] [] false false w) as HR.
  { split; [split; [|done]|by rewrite Hcl0]. rewrite Hc0. split; try done.
    - intros t s0 [? Hx]. by rewrite lookup_empty in Hx.
    - intros t s0 [? Hx]. by rewrite lookup_empty in Hx. }
  destruct (wp_elim _ _ _ _ _ (wp_run_rest me fuel Hq keys polls w HR) Hr eq_refl)
    as [[[_ _ Pe Pw Pwa Pcl Pca] _] _].
  split_and!.
  - intros Hp. destruct (Pw tok s ltac:(eauto) Hst Hp) as [?|[Hin|[?|?%elem_of_nil]]]; [tauto| |tauto|done].
    right. left. split; [done|]. destruct Pwa as [?|?]; [|done..].
    intros E. rewrite E in Hin. by apply elem_of_nil in Hin.
  - intros Hp. destruct (Pe tok c Hct Hp) as [|?%elem_of_nil]; done.
  - intros Hp. destruct (Pcl tok s ltac:(eauto) Hst Hp) as [Hin|[?|?%elem_of_nil]]; [|tauto|done].
    left. split; [done|]. destruct Pca as [?|?]; [|done..].
    intros E. rewrite E in Hin. by apply elem_of_nil in Hin.
Qed.

(** *** Shutdown *)
Notation none := (fun _ : world => False).

Lemma ext_step_stopped x (w : world) :
  stopped (shared (hub w)) = true -> stopped (shared (hub (ext_step me x w))) = true.
Proof.
  intros Hs. destruct x; cbn [ext_step]; try done; try (by repeat case_match).
  unfold thread_step. cbn. destruct (callers (hub w) !! Datatypes.S tid) as [pc|]; [|done].
  destruct (call_step pc (hub w)) as [x h'] eqn:Hc.
  assert (stopped (shared h') = true) as Hs'
    by (destruct pc; cbn in Hc; repeat case_match; simplify_eq/=; done).
  by destruct x.
Qed.

Lemma wp_interfere_stopped m n (Q : unit -> world -> Prop) w :
  Framed unbased m n w -> idle w -> stopped (shared (hub w)) = true ->
  (forall w', Framed unbased m n w' -> idle w' -> stopped (shared (hub w')) = true -> Q tt w') ->
  wp none (interfere me) Q w.
Proof.
  intros HF Hi Hs HQ.
  apply (wp_interfere none me
    (fun w => (Framed unbased m n w /\ idle w) /\ stopped (shared (hub w)) = true)); [done| |done|naive_solver].
  intros x w' [[HF' Hi'] Hs']. split; [|by apply ext_step_stopped].
  split; [by apply Framed_ext|]. unfold idle. by rewrite ext_step_me.
Qed.

(** Closing every key leaves no connection. *)
Lemma wp_close_all m n w :
  (n <= 2 ^ 64)%Z -> (forall h id, quiet (on_disconnected h id)) ->
  (forall m tok, tok ∈ keys m <-> is_Some (m !! tok)) ->
  Framed unbased m n w -> idle w ->
  wp none (close_all me keys) (fun _ w' => Framed unbased ∅ n w' /\ idle w') w.
Proof.
  intros Hn Hq Hk HF Hi. apply wp_bind, wp_gets. destruct HF as (HT & Hm & Hnt). rewrite Hm.
  eapply wp_mono.
  - apply (wp_for_each none (close me) (keys m) (fun rest w => exists m', (Framed unbased m' n w /\ idle w)
      /\ forall tok, is_Some (m' !! tok) -> tok ∈ rest)).
    + intros tok rest w1 (m' & [HF1 Hi1] & Hin). eapply wp_mono; [apply (wp_close unbased me none tok m' n); [right; exact (conj Hn Hq)|exact HF1|exact Hi1]|].
      intros u w2 HF2. exists (delete tok m'). split; [done|]. intros t [c Hc].
      apply lookup_delete_Some in Hc as [Hne Hc]. specialize (Hin t ltac:(eauto)). set_solver.
    + exists m. split; [done|]. intros tok. apply Hk.
  - intros u w1 (m' & [HF1 Hi1] & Hin). assert (m' = ∅) as ->; [|done].
    apply map_eq. intros t. rewrite lookup_empty. apply eq_None_not_Some. intros Hc.
    by apply Hin, elem_of_nil in Hc.
Qed.

(** C22.  A stopped host shuts down: when the waker is the next event of a stopped
    worker and the handler does not panic, [run] returns [Ok]; no connection is
    left, every session that was ever accepted is disposed and its handler has
    been told so once, and every further [send] answers [Disposed]. *)
Theorem stop_closes_all w r wr evs polls :
  (forall h id, quiet (on_disconnected h id)) ->
  (forall m tok, tok ∈ keys m <-> is_Some (m !! tok)) ->
  reached w -> (next_token (reactor w) <= 2 ^ 64)%Z -> stopped (shared (hub w)) = true ->
  exists w', run (IoOk (mkEvent WAKER_TOKEN r wr :: evs) :: polls) w = (Go Returned, w')
    /\ connections (reactor w') = ∅
    /\ forall tok s, sessions (hub w') !! tok = Some s ->
         disposed s = true
         /\ lifecycle (events_of tok (log w')) = Some (Gone (session_id s))
         /\ forall bs, call_alone CALL_STEPS (SendDisposed tok bs) (hub w') = Some (Sent Disposed, hub w').
Proof.
  intros Hq Hk Hw Hn Hst. apply reached_Inv in Hw. destruct (Inv_framed _ _ Hw) as [HF Hi].
  assert (wp none (run (IoOk (mkEvent WAKER_TOKEN r wr :: evs) :: polls))
    (fun e w' => e = Returned /\ Framed unbased ∅ (next_token (reactor w)) w') w) as Hwp.
  { cbn [Reactor.run]. apply wp_bind. eapply wp_interfere_stopped; [done..|]. intros w1 HF1 Hi1 Hst1.
    apply wp_bind, wp_modify, wp_bind. cbn [handle_events]. apply wp_bind. unfold handle_event.
    cbn [ev_token]. change (WAKER_TOKEN =? LISTENER_TOKEN)%Z with false. rewrite Z.eqb_refl.
    apply wp_bind. eapply wp_interfere_stopped; [..|done|].
    { destruct HF1 as (? & ? & ?). by case_match. }
    { by case_match. }
    intros w2 HF2 Hi2 Hst2. apply wp_bind, wp_gets. rewrite Hst2. apply wp_bind.
    eapply wp_mono; [by apply (wp_close_all (connections (reactor w)) (next_token (reactor w)))|].
    intros u w3 [HF3 _]. by apply wp_ret, wp_ret, wp_ret. }
  unfold wp in Hwp. destruct (run _ w) as [[e| | |] w'] eqn:Hrun; try done.
  destruct Hwp as [-> (HT & Hm & Hnt)]. exists w'. split; [done|]. split; [done|].
  intros tok s Hs. unfold Tables in HT. rewrite Hnt, Hm in HT. specialize (HT Hn).
  destruct (core_session _ _ _ _ _ _ _ HT tok s Hs) as (_ & _ & _ & _ & _ & Hd).
  rewrite lookup_empty in Hd. cbn in Hd. split; [done|]. split.
  - rewrite (core_life _ _ _ _ _ _ _ HT tok). unfold phase_of. by rewrite Hs, lookup_empty.
  - intros bs. cbn. unfold is_disposed. by rewrite Hs, Hd.
Qed.

(** *** Errors that end a worker *)

(** The sessions of a worker whose thread is gone: nobody told the handler, they
    are not disposed, and they still accept bytes that nobody will write. *)
Definition abandoned (w : world) : Prop :=
  forall tok c, connections (reactor w) !! tok = Some c -> exists s,
    sessions (hub w) !! tok = Some s /\ disposed s = false
    /\ lifecycle (events_of tok (log w)) = Some (Live (session_id s))
    /\ forall bs, stopped (shared (hub w)) = false -> can_write (outbound s) (length bs) = true ->
       exists h', call_alone CALL_STEPS (SendDisposed tok bs) (hub w) = Some (Sent Success, h').

Lemma reached_abandoned w : reached w -> (next_token (reactor w) <= 2 ^ 64)%Z -> abandoned w.
Proof.
  intros Hw Hn tok c Hc. destruct (reached_Inv w Hw) as [HT _]. specialize (HT Hn).
  destruct (core_get _ _ _ _ _ _ _ _ _ HT Hc) as (_ & s & Hs & Hok). exists s.
  destruct Hok as (_ & Htok & _ & _ & _ & Hd). rewrite Hc, bool_decide_eq_true_2 in Hd by eauto.
  split_and!; try done.
  - rewrite (core_life _ _ _ _ _ _ _ HT tok). unfold phase_of. by rewrite Hs, Hc.
  - intros bs Hst Hcw. pose proof (send_alone tok bs (hub w) s Hs Htok) as Hsend.
    unfold send in Hsend. rewrite Hd, Hst, Hcw in Hsend. cbn [negb orb] in Hsend.
    destruct Hsend as (h' & ? & _). eauto.
Qed.

(** A failing poll ends the loop where it stands. *)
Lemma run_poll_error pre e rest w w1 :
  run pre w = (Go Waiting, w1) -> run (pre ++ IoErr e :: rest) w = (Err e, w1).
Proof.
  revert w. induction pre as [|[evs|e'] pre IH]; intros w; cbn [Reactor.run app];
    unfold mbind, RM_bind; destruct (interfere me w) as [[[]| | |] w2]; try done.
  - intros [= ->]. done.
  - unfold hear, modify. destruct (handle_events me fuel keys evs _) as [[[]| | |] w3]; try done.
    apply IH.
Qed.

(** C37.  An error of [poll] or of [accept] ends the worker and abandons its
    connections: [run] returns the error, whatever it is ([Interrupted] from
    [poll] included), the handler is not told of a single disconnection, no
    session is disposed, and a [send] on any of them is still answered with
    success although nothing will be written. *)
Theorem worker_errors_abandon w :
  reached w -> (next_token (reactor w) <= 2 ^ 64)%Z ->
  abandoned w
  /\ (forall w0 pre e rest, run pre w0 = (Go Waiting, w) ->
        run (pre ++ IoErr e :: rest) w0 = (Err e, w))
  /\ (forall l l' r wr evs polls, 0 < fuel -> schedule w = [] ->
        listener (reactor w) = Some l -> l_accept l = (IoErr OtherError, l') ->
        exists w', run (IoOk (mkEvent LISTENER_TOKEN r wr :: evs) :: polls) w = (Err OtherError, w')
          /\ connections (reactor w') = connections (reactor w) /\ hub w' = hub w /\ log w' = log w).
Proof.
  intros Hw Hn. split_and!; [by apply reached_abandoned|intros; by apply run_poll_error|].
  intros l l' r wr evs polls Hf Hsch Hl Hacc. destruct fuel as [|fuel']; [lia|].
  cbn [Reactor.run]. unfold mbind, RM_bind, interfere. rewrite Hsch. unfold hear, modify.
  cbn [handle_events handle_event]. unfold mbind, RM_bind, handle_event. cbn [ev_token].
  change (LISTENER_TOKEN =? LISTENER_TOKEN)%Z with true. cbn match. unfold accept. cbn [accept_loop].
  unfold mbind, RM_bind, gets. destruct (existsb _ _); cbn [reactor set_heard];
    rewrite Hl, Hacc; by eexists.
Qed.

(** *** Accepting *)

(** What a listener answers: connections, with interruptions, then that it
    would block. *)
Inductive yields : L -> list S -> L -> nat -> Prop :=
| yields_block l l' : l_accept l = (IoErr WouldBlock, l') -> yields l [] l' 1
| yields_interrupted l l1 l' ss n :
    l_accept l = (IoErr Interrupted, l1) -> yields l1 ss l' n -> yields l ss l' (Datatypes.S n)
| yields_connection l l1 l' s ss n :
    l_accept l = (IoOk s, l1) -> yields l1 ss l' n -> yields l (s :: ss) l' (Datatypes.S n).

(** Worker [i]'s share of the connections [ss], from worker [target] on with
    session ids from [id] on: the [k]-th goes to worker [target + k]. *)
Definition share (n i target : nat) (id : Z) (ss : list S) : list (S * Z) :=
  omap (fun o => o) (imap (fun k s =>
    if decide ((target + k) mod n = i) then Some (s, wrap_u64 (id + Z.of_nat k)) else None) ss).

Lemma share_cons n i target id s ss :
  0 < n -> target < n ->
  share n i target id (s :: ss)
  = (if decide (target = i) then [(s, wrap_u64 id)] else []) ++ share n i ((target + 1) mod n) (id + 1) ss.
Proof.
  intros Hn Ht. unfold share. rewrite imap_cons. cbn [omap list_omap].
  rewrite Nat.add_0_r, Nat.mod_small, Z.add_0_r by lia.
  assert (forall k x, (if decide ((target + Datatypes.S k) mod n = i)
     then Some (x, wrap_u64 (id + Z.of_nat (Datatypes.S k))) else None)
    = (if decide (((target + 1) mod n + k) mod n = i)
       then Some (x, wrap_u64 (id + 1 + Z.of_nat k)) else (None : option (S * Z)))) as E.
  { intros k x. rewrite Nat.Div0.add_mod_idemp_l. replace (target + 1 + k) with (target + Datatypes.S k) by lia.
    replace (id + 1 + Z.of_nat k)%Z with (id + Z.of_nat (Datatypes.S k))%Z by lia. done. }
  erewrite (imap_ext (_ ∘ Datatypes.S)); [|intros k x _; apply (E k x)]. by case_decide.
Qed.

Lemma hand_over_alone s (w : world) :
  schedule w = [] -> next_worker (reactor w) < length (inboxes w) ->
  exists w' q, hand_over me s w = (Go tt, w')
    /\ inboxes w !! next_worker (reactor w) = Some q
    /\ inboxes w' = <[next_worker (reactor w) := q ++ [(s, wrap_u64 (next_session_id (reactor w)))]]> (inboxes w)
    /\ next_worker (reactor w') = (next_worker (reactor w) + 1) mod length (inboxes w)
    /\ next_session_id (reactor w') = (next_session_id (reactor w) + 1)%Z
    /\ listener (reactor w') = listener (reactor w) /\ connections (reactor w') = connections (reactor w)
    /\ sessions (hub w') = sessions (hub w) /\ log w' = log w /\ schedule w' = []
    /\ (if decide (next_worker (reactor w) = me)
        then wakes (shared (hub w')) = Datatypes.S (wakes (shared (hub w))) /\ peer_wakes w' = peer_wakes w
        else wakes (shared (hub w')) = wakes (shared (hub w))
             /\ peer_wakes w' = peer_wakes w ++ [next_worker (reactor w)]).
Proof.
  intros Hsch Hlt. destruct (lookup_lt_is_Some_2 _ _ Hlt) as [q Hq].
  unfold hand_over, mbind, RM_bind, gets, modify. rewrite decide_False by (cbn; lia).
  unfold interfere, push_incoming. cbn. rewrite Hsch. cbn [inboxes on_reactor]. rewrite Hq. unfold wake_peer, modify.
  eexists _, q. split; [done|]. split; [done|]. case_decide; by split_and!.
Qed.

Lemma accept_loop_deals l ss l' steps : yields l ss l' steps ->
  forall (w : world) n m, steps <= m -> schedule w = [] -> listener (reactor w) = Some l ->
  length (inboxes w) = n -> next_worker (reactor w) < n ->
  exists w', accept_loop me m w = (Go tt, w')
    /\ (forall i q, inboxes w !! i = Some q -> inboxes w' !! i
          = Some (q ++ share n i (next_worker (reactor w)) (next_session_id (reactor w)) ss))
    /\ ((forall i, i < n -> share n i (next_worker (reactor w)) (next_session_id (reactor w)) ss <> [] ->
          if decide (i = me) then wakes (shared (hub w)) < wakes (shared (hub w')) else i ∈ peer_wakes w')
        /\ wakes (shared (hub w)) <= wakes (shared (hub w')) /\ peer_wakes w ⊆ peer_wakes w')
    /\ next_worker (reactor w') = (next_worker (reactor w) + length ss) mod n
    /\ next_session_id (reactor w') = (next_session_id (reactor w) + Z.of_nat (length ss))%Z
    /\ listener (reactor w') = Some l' /\ connections (reactor w') = connections (reactor w)
    /\ sessions (hub w') = sessions (hub w) /\ log w' = log w.
Proof.
  induction 1 as [l l' Ha|l l1 l' ss k Ha Hy IH|l l1 l' s ss k Ha Hy IH];
    intros w n [|m] Hm Hsch Hl Hlen Hnw; try lia; cbn [accept_loop];
    unfold mbind at 1, RM_bind at 1, gets; rewrite Hl, Ha;
    unfold mbind at 1, RM_bind at 1, modify; set (w1 := on_reactor _ w).
  - exists w1. split; [done|]. unfold share. cbn. split_and!; try done.
    + intros i q Hq. by rewrite app_nil_r.
    + by rewrite Nat.add_0_r, Nat.mod_small.
    + lia.
  - by apply (IH w1 n m); try done; lia.
  - destruct (hand_over_alone s w1) as (w2 & q & Hh & Hq & Hib & Hnw2 & Hid2 & Hl2 & Hc2 & Hs2 & Hlg2 & Hsch2 & Hwk);
      [done|cbn; lia|].
    unfold mbind, RM_bind. rewrite Hh.
    destruct (IH w2 n m) as (w3 & Hacc & Hboxes & (Hwake & Hwle & Hpsub) & Hnw3 & Hid3 & Hl3 & Hc3 & Hs3 & Hlg3);
      [lia|done|done|by rewrite Hib, length_insert| |].
    { rewrite Hnw2. cbn. rewrite Hlen. apply Nat.mod_upper_bound. lia. }
    exists w3. split; [done|].
    assert (forall i, share n i (next_worker (reactor w)) (next_session_id (reactor w)) (s :: ss)
      = (if decide (next_worker (reactor w) = i) then [(s, wrap_u64 (next_session_id (reactor w)))] else [])
        ++ share n i (next_worker (reactor w2)) (next_session_id (reactor w2)) ss) as Hshare.
    { intros i. rewrite share_cons by lia. rewrite Hnw2, Hid2. cbn. by rewrite Hlen. }
    cbn in Hq, Hib, Hwk.
    split; [|split; [split; [|split]|]].
    + intros i qi Hqi. rewrite Hshare. destruct (decide (next_worker (reactor w) = i)) as [Hd|Hd].
      * subst i. rewrite Hq in Hqi. injection Hqi as <-. rewrite app_assoc. apply Hboxes.
        rewrite Hib. apply list_lookup_insert_eq. lia.
      * cbn [app]. apply Hboxes. by rewrite Hib, list_lookup_insert_ne.
    + intros i Hi. rewrite Hshare. specialize (Hwake i Hi).
      destruct (decide (next_worker (reactor w) = i)) as [Hd|Hd].
      * intros _. subst i. destruct (decide (next_worker (reactor w) = me)); [lia|]. apply Hpsub. destruct Hwk as [_ ->]. set_solver.
      * cbn [app]. intros Hne. specialize (Hwake Hne). destruct (decide (i = me)); [|done].
        destruct (decide (next_worker (reactor w) = me)); lia.
    + case_decide; lia.
    + case_decide; destruct Hwk as [_ E]; rewrite E in Hpsub; set_solver.
    + rewrite Hnw3, Hid3, Hnw2, Hid2, Hl3, Hc3, Hs3, Hlg3, Hc2, Hs2, Hlg2. cbn. rewrite Hlen.
      rewrite Nat.Div0.add_mod_idemp_l. split_and!; try done; [f_equal; lia|lia].
Qed.

(** C29.  Connections are dealt to the workers in turn: on an undisturbed
    listener that yields the connections [ss], [accept] returns; worker [i] finds
    at the end of its queue exactly every [n]-th of them, from its turn on, with
    consecutive session ids and in order, every worker that got something is
    woken, and the turn, the id counter and the listener stand after the last;
    the index into [peers] is in range and nothing else changes. *)
Theorem accept_round_robin n l ss l' steps (w : world) :
  yields l ss l' steps -> steps <= fuel -> schedule w = [] -> listener (reactor w) = Some l ->
  length (inboxes w) = n -> next_worker (reactor w) < n ->
  exists w', accept me fuel w = (Go tt, w')
    /\ (forall i q, inboxes w !! i = Some q -> inboxes w' !! i
          = Some (q ++ share n i (next_worker (reactor w)) (next_session_id (reactor w)) ss))
    /\ (forall i, i < n -> share n i (next_worker (reactor w)) (next_session_id (reactor w)) ss <> [] ->
          if decide (i = me) then wakes (shared (hub w)) < wakes (shared (hub w')) else i ∈ peer_wakes w')
    /\ next_worker (reactor w') = (next_worker (reactor w) + length ss) mod n
    /\ next_session_id (reactor w') = (next_session_id (reactor w) + Z.of_nat (length ss))%Z
    /\ listener (reactor w') = Some l' /\ connections (reactor w') = connections (reactor w)
    /\ sessions (hub w') = sessions (hub w) /\ log w' = log w.
Proof.
  intros Hy Hf Hsch Hl Hn Hnw. unfold accept.
  destruct (accept_loop_deals l ss l' steps Hy w n fuel Hf Hsch Hl Hn Hnw)
    as (w' & ? & ? & (? & _) & ?). by exists w'.
Qed.
End theorems.
