(* ===== verification/HostServer.v ===== *)
(** The server end to end: the session actor host ([session_actor_host.rs]) as
    the handler of a reactor ([reactor.rs]), with any number of connections,
    reactor events, and sends and closes of other threads.  What the host asks
    of the actor system is recorded; an actor is designated by the token of the
    session it was spawned for. *)
From S2P Require Import Prelude Codec SessionHost NetSend SessionCalls.
From S2P Require Import Transports Reactor ReactorLogic ReactorInvariant ReactorTheorems.
Local Open Scope nat_scope.

Inductive actor_call (Msg : Type) : Type :=
| Spawned (tok : Z) (dispatcher : option Z) (capacity : Z)
| Posted (tok : Z) (m : Msg)
| Killed (tok : Z).
Arguments Spawned {Msg} _ _ _.
Arguments Posted {Msg} _ _.
Arguments Killed {Msg} _.

(** How the actor system answers the next spawn, after the calls so far: [None],
    it returns; otherwise it panics (a registry at its capacity or poisoned, a
    dispatcher index out of range, an illegal mailbox capacity, the factory). *)
Class SpawnAnswers (Msg : Type) : Type := spawn_panics : list (actor_call Msg) -> option string.

(** The host's world: the calls on the actor system, and the sessions it closed.
    A session is its token and its id. *)
Definition host_env {Msg : Type} `{!SpawnAnswers Msg} : HostEnv Z (Z * Z) Msg (list (actor_call Msg) * list Z) := {|
  SessionHost.session_id s := s.2;
  spawn dispatcher cap s := fun w =>
    match spawn_panics w.1 with
    | None => (Ok s.1, (w.1 ++ [Spawned s.1 dispatcher cap], w.2))
    | Some msg => (Panic msg, w)
    end;
  ref_post r m w := (w.1 ++ [Posted r m], w.2);
  ref_kill r w := (w.1 ++ [Killed r], w.2);
  session_close s w := (w.1, w.2 ++ [s.1]);
|}.
#[export] Existing Instance host_env.

Section server.
Context {D Msg : Type} `{!MessageDecoder D Msg} `{!SpawnAnswers Msg}.

(** The handler's state: the host and what it asked of the actor system. *)
Definition hosted : Type := SessionActorHost D Z (Z * Z) * list (actor_call Msg).

(** The calls [close] of a method, in order, and then its end. *)
Definition closing (toks : list Z) (p : hprog hosted) : hprog hosted := foldr HClose p toks.

Definition finish (r : outcome unit * (SessionActorHost D Z (Z * Z) * (list (actor_call Msg) * list Z))) :
    hprog hosted :=
  match r with
  | (Ok _, (h, (calls, toks))) => closing toks (HDone (h, calls))
  | (Panic msg, _) => HPanic msg
  | (UB msg, _) => HPanic msg
  end.

(** [impl HostHandler for SessionActorHost]. *)
#[export] Instance session_actor_handler : HostHandler hosted := {
  on_accepted h tok id := finish (SessionHost.on_accepted (Msg := Msg) (tok, id) (h.1, (h.2, [])));
  on_data h tok id data :=
    match SessionHost.on_data (Msg := Msg) (tok, id) data (h.1, (h.2, [])) with
    | Some r => finish r
    | None => HPanic "the decode loop does not end"
    end;
  on_disconnected h id := finish (SessionHost.on_disconnected (Msg := Msg) id (h.1, (h.2, [])));
}.

(** The messages posted to the actor of a session. *)
Definition posts (tok : Z) (calls : list (actor_call Msg)) : list Msg :=
  omap (fun c => match c with
                 | Posted t m => if decide (t = tok) then Some m else None
                 | _ => None
                 end) calls.

Lemma posts_app tok l l' : posts tok (l ++ l') = posts tok l ++ posts tok l'.
Proof. apply omap_app. Qed.

Lemma posts_same tok ms : posts tok (Posted tok <$> ms) = ms.
Proof.
  induction ms as [|m ms IH]; [done|]. unfold posts in *. cbn. rewrite decide_True by done. by rewrite IH.
Qed.

Lemma posts_other tok tok' ms : tok <> tok' -> posts tok (Posted tok' <$> ms) = [].
Proof.
  intros Hne. induction ms as [|m ms IH]; [done|]. unfold posts in *. cbn. by rewrite decide_False by done.
Qed.

Lemma deliver_calls tok s ms calls toks :
  deliver (Msg := Msg) (mkNetworkSession tok s) ms (calls, toks) = (calls ++ (Posted tok <$> ms), toks).
Proof.
  revert calls. induction ms as [|m ms IH]; intros calls; [by rewrite app_nil_r|].
  unfold deliver in *. cbn. rewrite IH. by rewrite <- app_assoc.
Qed.
End server.
Arguments hosted D Msg : clear implicits.
Arguments posts : simpl never.
Arguments received : simpl never.

(** ** Hubs that differ by calls, for the host *)
Definition calm (h h' : Hub) : Prop :=
  dom (sessions h') = dom (sessions h)
  /\ forall tok s, sessions h !! tok = Some s -> exists s', sessions h' !! tok = Some s'
     /\ session_id s' = session_id s /\ disposed s' = disposed s
     /\ (close_requested s = true -> close_requested s' = true).

#[export] Instance calm_preorder : PreOrder calm.
Proof.
  split.
  - intros h. split; [done|]. eauto 10.
  - intros h1 h2 h3 [E1 H1] [E2 H2]. split; [congruence|]. intros tok s Hs.
    destruct (H1 tok s Hs) as (s2 & Hs2 & ? & ? & ?). destruct (H2 tok s2 Hs2) as (s3 & Hs3 & ? & ? & ?).
    exists s3. split_and!; [done|congruence|congruence|auto].
Qed.

Lemma calm_same h h' : sessions h' = sessions h -> calm h h'.
Proof. intros E. unfold calm. rewrite E. split; [done|]. eauto 10. Qed.

Lemma calm_insert h tok s s' sh cs l :
  sessions h !! tok = Some s -> session_id s' = session_id s -> disposed s' = disposed s ->
  (close_requested s = true -> close_requested s' = true) ->
  calm h (mkHub (<[tok := s']> (sessions h)) sh cs l).
Proof.
  intros Hs Hid Hd Hr. split.
  - cbn. rewrite dom_insert_L. apply elem_of_dom_2 in Hs. set_solver.
  - cbn. intros t s0 Ht. destruct (decide (t = tok)) as [->|Hne].
    + simplify_eq. rewrite lookup_insert_eq. eauto.
    + rewrite lookup_insert_ne by done. eauto 10.
Qed.

Lemma thread_step_calm tid h r h' : thread_step tid h = (r, h') -> calm h h'.
Proof.
  unfold thread_step. intros Ht. destruct (callers h !! tid) as [pc|]; simplify_eq; [|done].
  destruct (call_step pc h) as [x h1] eqn:Hc.
  assert (calm h h1) as [Hd Hs].
  { destruct pc; cbn in Hc; repeat case_match; simplify_eq; try done; try (by apply calm_same);
      by eapply calm_insert. }
  destruct x; by simplify_eq.
Qed.

Lemma ext_step_calm {S T H L} me x (w : World S T H L) : calm (hub w) (hub (ext_step me x w)).
Proof.
  destruct x; cbn [ext_step]; try done; try (by apply calm_same).
  1,2: destruct (callers (hub w) !! _); [done|by apply calm_same].
  - eapply thread_step_calm, surjective_pairing.
  - by case_decide.
Qed.

(** ** Running the host's methods *)
Section methods.
Context {S T L : Type} {D Msg : Type} `{!MessageDecoder D Msg} `{!SpawnAnswers Msg}.
Variable me : nat.
Notation world := (World S T (hosted D Msg) L).
Notation any := (fun _ : world => True).

(** What stays while a method runs: everything but the hub, which is calm. *)
Definition steady (w0 w : world) : Prop :=
  calm (hub w0) (hub w) /\ connections (reactor w) = connections (reactor w0)
  /\ next_token (reactor w) = next_token (reactor w0) /\ log w = log w0.

Lemma steady_ext w0 x w : steady w0 w -> steady w0 (ext_step me x w).
Proof.
  intros (Hc & Hm & Hn & Hl). pose proof (ext_step_calm me x w) as Hx.
  split; [by transitivity (hub w)|]. destruct x; cbn [ext_step]; try done; by repeat case_match.
Qed.

Lemma steady_refl w : steady w w.
Proof. split; [reflexivity|done]. Qed.

(** Any handler program is steady. *)
Lemma wp_steady e p w :
  callers (hub w) !! 0 = None ->
  wp any (call_handler me e p) (fun _ w' => steady (add_log e w) w') w.
Proof.
  intros Hi. apply wp_bind, wp_gets, wp_bind, wp_modify.
  eapply wp_mono; [apply (wp_run_hprog any (steady (add_log e w))); try done|by intros ? ? []].
  - by left.
  - intros x w'. apply steady_ext.
  - intros w' r h (Hc & ?) Ht. split; [|done]. transitivity (hub w'); [done|by eapply thread_step_calm].
Qed.

Lemma steady_hub w0 w h : steady w0 w -> calm (hub w) h -> steady w0 (on_hub (fun _ => h) w).
Proof. intros (Hc & Hm & Hn & Hl) Hh. split; [by transitivity (hub w)|done]. Qed.

(** An open session that was closed by a call has its close requested. *)
Definition requested (tok : Z) (h : Hub) : Prop :=
  forall s, sessions h !! tok = Some s -> disposed s = false -> close_requested s = true.

Lemma requested_calm tok h h' : calm h h' -> requested tok h -> requested tok h'.
Proof.
  intros [Hd Hs] Hr s' Hs' Hdis. pose proof (elem_of_dom_2 _ _ _ Hs') as Hin. rewrite Hd in Hin.
  apply elem_of_dom in Hin as [s Hss]. destruct (Hs tok s Hss) as (s1 & ? & ? & ? & Hc). simplify_eq.
  apply Hc, Hr; [done|congruence].
Qed.

Lemma wp_close_call tok w0 w :
  steady w0 w -> wp any (call me (CloseDisposed tok))
    (fun _ w' => steady w0 w' /\ requested tok (hub w')) w.
Proof.
  intros Hst. unfold call. apply wp_bind, wp_modify.
  set (I := fun w : world => steady w0 w /\ (callers (hub w) !! 0 = Some (CloseDisposed tok)
    \/ callers (hub w) !! 0 = Some (CloseSwap tok) \/ requested tok (hub w))).
  eapply wp_mono; [apply (wp_run_call any me I CALL_STEPS (CloseDisposed tok))|].
  - done.
  - intros x w' [Hs Hc]. split; [by apply steady_ext|]. rewrite ext_step_me.
    destruct Hc as [?|[?|Hr]]; [tauto..|]. right. right.
    eapply requested_calm; [apply ext_step_calm|done].
  - intros w' r h [Hs Hc] Ht. pose proof (thread_step_calm _ _ _ _ Ht) as Hcalm.
    split; [by apply steady_hub|]. cbn [hub on_hub].
    destruct Hc as [Hpc|[Hpc|Hr]]; [| |right; right; by eapply requested_calm].
    + unfold thread_step in Ht. rewrite Hpc in Ht. cbn in Ht. unfold is_disposed in Ht.
      destruct (sessions (hub w') !! tok) as [s|] eqn:Hss; [destruct (disposed s) eqn:Hd|]; simplify_eq/=.
      * right. right. intros s' Hs' ?. cbn in Hs'. congruence.
      * right. left. by rewrite lookup_insert_eq.
      * right. right. intros s' Hs' ?. cbn in Hs'. congruence.
    + right. right. unfold thread_step in Ht. rewrite Hpc in Ht. cbn in Ht.
      destruct (sessions (hub w') !! tok) as [s|] eqn:Hss.
      * destruct (close_requested s); simplify_eq/=; intros s' Hs' _; cbn in Hs';
          rewrite lookup_insert_eq in Hs'; by simplify_eq.
      * simplify_eq/=. intros s' Hs' _. cbn in Hs'. congruence.
  - split; [apply (steady_hub w0 w); [done|by apply calm_same]|]. left. cbn. by rewrite lookup_insert_eq.
  - cbn. by rewrite lookup_insert_eq.
  - cbn. unfold CALL_STEPS. lia.
  - intros r w' [[Hs Hc] Hnone]. split; [done|].
    destruct Hc as [?|[?|?]]; [congruence..|done].
Qed.

(** A method that closes some sessions and ends in a state. *)
Lemma wp_closing toks h w0 w :
  steady w0 w -> wp any (run_hprog me (closing toks (HDone h)))
    (fun _ w' => (steady w0 w' /\ forall tok, tok ∈ toks -> requested tok (hub w'))
                 /\ handler (reactor w') = h) w.
Proof.
  intros Hst.
  assert (forall done, (forall tok, tok ∈ done -> requested tok (hub w)) ->
    wp any (run_hprog me (closing toks (HDone h)))
    (fun _ w' => (steady w0 w' /\ forall tok, tok ∈ done ++ toks -> requested tok (hub w'))
                 /\ handler (reactor w') = h) w) as Hgen.
  2: { apply (Hgen []). intros tok Hin. by apply elem_of_nil in Hin. }
  revert w Hst. induction toks as [|tok toks IH]; intros w Hst done Hd; cbn [closing foldr run_hprog].
  - apply wp_modify. rewrite app_nil_r. done.
  - apply wp_bind. eapply wp_mono; [apply (wp_close_call tok w); done|]. intros r w1 [Hst1 Hr].
    eapply wp_mono; [apply (IH w1) with (done := done ++ [tok])|].
    + destruct Hst as (? & ? & ? & ?), Hst1 as (? & ? & ? & ?).
      split_and!; [by transitivity (hub w)|congruence..].
    + intros t [Hin| ->%list_elem_of_singleton]%elem_of_app; [|done].
      eapply requested_calm; [apply Hst1|by apply Hd].
    + intros u w2. by rewrite <- app_assoc.
Qed.
End methods.

(** ** What the host knows of its sessions *)
Section host_ok.
Context {D Msg : Type} `{!MessageDecoder D Msg} `{!SpawnAnswers Msg} (d : D) `{!StreamDecoder d}.
Notation parses := (parses (Msg := Msg)).

(** Session ids are those of one session each. *)
Definition uniq (h : Hub) : Prop := forall tok tok' s s',
  sessions h !! tok = Some s -> sessions h !! tok' = Some s' -> session_id s = session_id s' -> tok = tok'.

Lemma uniq_ids h h' :
  (forall tok s, sessions h !! tok = Some s -> exists s', sessions h' !! tok = Some s'
    /\ session_id s' = session_id s) -> uniq h' -> uniq h.
Proof.
  intros Hs Hu tok tok' s s' Ht Ht' Hid.
  destruct (Hs _ _ Ht) as (s1 & ? & ?), (Hs _ _ Ht') as (s2 & ? & ?). eapply Hu; [done..|congruence].
Qed.

Lemma uniq_calm h h' : calm h h' -> uniq h' -> uniq h.
Proof. intros [_ Hs]. apply uniq_ids. intros tok s Ht. destruct (Hs tok s Ht) as (? & ? & ? & _). eauto. Qed.

(** The open sessions [live] are exactly the host's entries, each with its own
    actor; unless its close was requested, the actor was posted exactly the
    messages in the bytes received so far, and the entry holds the rest; the
    actors of the others were killed. *)
Record host_ok (live : gset Z) (h : Hub) (hd : hosted D Msg) (lg : list hev) : Prop := {
  ho_decoder : decoder hd.1 = d;
  ho_open : forall tok s, tok ∈ live -> sessions h !! tok = Some s -> exists e,
    SessionHost.sessions hd.1 !! session_id s = Some e
    /\ network_session e = mkNetworkSession tok (tok, session_id s)
    /\ (close_requested s = true \/ parses d (received tok lg) (posts tok hd.2) (inbound e) false);
  ho_entry : forall i e, SessionHost.sessions hd.1 !! i = Some e -> exists tok s,
    tok ∈ live /\ sessions h !! tok = Some s /\ session_id s = i;
  ho_gone : forall tok s, tok ∉ live -> sessions h !! tok = Some s -> Killed tok ∈ hd.2;
  ho_unknown : forall tok, sessions h !! tok = None -> posts tok hd.2 = [] /\ received tok lg = [];
}.

Lemma calm_back h h' tok s' : calm h h' -> sessions h' !! tok = Some s' ->
  exists s, sessions h !! tok = Some s /\ session_id s' = session_id s /\ disposed s' = disposed s
    /\ (close_requested s = true -> close_requested s' = true).
Proof.
  intros [Hd Hs] Hs'. pose proof (elem_of_dom_2 _ _ _ Hs') as Hin. rewrite Hd in Hin.
  apply elem_of_dom in Hin as [s Hss]. destruct (Hs tok s Hss) as (s1 & ? & ? & ? & ?). simplify_eq. eauto 10.
Qed.

Lemma calm_none h h' tok : calm h h' -> sessions h' !! tok = None -> sessions h !! tok = None.
Proof. intros [Hd _] Hn. apply not_elem_of_dom. rewrite <- Hd. by apply not_elem_of_dom. Qed.

Lemma host_ok_calm live h h' hd lg : calm h h' -> host_ok live h hd lg -> host_ok live h' hd lg.
Proof.
  intros Hc O. split; try apply O.
  - intros tok s' Hl Hs'. destruct (calm_back _ _ _ _ Hc Hs') as (s & Hs & Hid & _ & Hr).
    destruct (ho_open _ _ _ _ O tok s Hl Hs) as (e & ? & ? & Hp). rewrite Hid. exists e. naive_solver.
  - intros i e He. destruct (ho_entry _ _ _ _ O i e He) as (tok & s & Hl & Hs & Hid).
    destruct Hc as [_ Hc]. destruct (Hc tok s Hs) as (s' & ? & ? & _). exists tok, s'. split_and!; congruence.
  - intros tok s' Hl Hs'. destruct (calm_back _ _ _ _ Hc Hs') as (s & Hs & _). by eapply ho_gone.
  - intros tok Hn. apply (ho_unknown _ _ _ _ O). by eapply calm_none.
Qed.

(** [on_accepted] for a new session: it panics with the spawn, or the host has a new entry. *)
Lemma host_ok_accepted live h hd lg tok id limit :
  try_decode (Msg := Msg) d [] = Incomplete ->
  host_ok live h hd lg -> sessions h !! tok = None -> tok ∉ live ->
  uniq (set_hub_sessions (<[tok := session_new id tok limit]> (sessions h)) h) ->
  (exists msg st, SessionHost.on_accepted (Msg := Msg) (tok, id) (hd.1, (hd.2, [])) = (Panic msg, st))
  \/ exists hd', SessionHost.on_accepted (Msg := Msg) (tok, id) (hd.1, (hd.2, [])) = (Ok tt, (hd'.1, (hd'.2, [])))
    /\ host_ok (live ∪ {[tok]}) (set_hub_sessions (<[tok := session_new id tok limit]> (sessions h)) h)
         hd' (lg ++ [Accepted tok id]).
Proof.
  intros Hinc O Hn Hl Hu. unfold SessionHost.on_accepted. cbn. destruct (spawn_panics hd.2); [left; by eexists _, _|right].
  eexists (_, _). split; [done|]. cbn.
  assert (forall t s, t ∈ live -> sessions h !! t = Some s -> session_id s <> id) as Hids.
  { intros t s Ht Hs E. assert (t <> tok) as Hne by congruence. apply Hne.
    apply (Hu t tok s (session_new id tok limit)); cbn; [by rewrite lookup_insert_ne|apply lookup_insert_eq|done]. }
  assert (forall t, posts t (hd.2 ++ [Spawned tok (dispatcher_index (options hd.1)) (mailbox_capacity (options hd.1))])
    = posts t hd.2) as Hposts by (intros t; rewrite posts_app; unfold posts at 2; cbn; by rewrite app_nil_r).
  assert (forall t, received t (lg ++ [Accepted tok id]) = received t lg) as Hrec
    by (intros t; rewrite received_app; unfold received at 2; cbn; by rewrite app_nil_r).
  split; cbn.
  - apply O.
  - intros t s Ht Hs. rewrite Hposts, Hrec. destruct (decide (t = tok)) as [->|Hne].
    + rewrite lookup_insert_eq in Hs. simplify_eq/=. rewrite lookup_insert_eq. eexists. split; [done|].
      split; [done|]. right. destruct (ho_unknown _ _ _ _ O tok Hn) as [-> ->]. by apply parses_incomplete.
    + rewrite lookup_insert_ne in Hs by done. assert (t ∈ live) as Ht' by set_solver.
      rewrite lookup_insert_ne by (apply not_eq_sym; by apply (Hids t)). by apply (ho_open _ _ _ _ O).
  - intros i e. destruct (decide (i = id)) as [->|Hne].
    + intros _. exists tok, (session_new id tok limit). rewrite lookup_insert_eq. split_and!; [set_solver|done..].
    + rewrite lookup_insert_ne by done. intros He. destruct (ho_entry _ _ _ _ O i e He) as (t & s & Ht & Hs & Hid).
      exists t, s. rewrite lookup_insert_ne by congruence. split_and!; [set_solver|done..].
  - intros t s Ht Hs. rewrite lookup_insert_ne in Hs by set_solver.
    apply elem_of_app. left. eapply (ho_gone _ _ _ _ O); [set_solver|done].
  - intros t Ht. rewrite Hposts, Hrec. apply (ho_unknown _ _ _ _ O).
    destruct (decide (t = tok)) as [->|Hne]; [done|]. by rewrite lookup_insert_ne in Ht.
Qed.

(** [on_disconnected] of an open session. *)
Lemma host_ok_disconnected live h hd lg tok s :
  host_ok live h hd lg -> tok ∈ live -> sessions h !! tok = Some s -> uniq h ->
  exists hd', SessionHost.on_disconnected (Msg := Msg) (session_id s) (hd.1, (hd.2, []))
      = (Ok tt, (hd'.1, (hd'.2, [])))
    /\ host_ok (live ∖ {[tok]}) (set_hub_sessions (<[tok := mark_disposed s]> (sessions h)) h)
         hd' (lg ++ [Disconnected tok (session_id s)]).
Proof.
  intros O Hl Hs Hu. destruct (ho_open _ _ _ _ O tok s Hl Hs) as (e & He & Hns & _).
  unfold SessionHost.on_disconnected. rewrite He, Hns. eexists (_, _). split; [done|]. cbn.
  assert (forall t, posts t (hd.2 ++ [Killed tok]) = posts t hd.2) as Hposts
    by (intros t; rewrite posts_app; unfold posts at 2; cbn; by rewrite app_nil_r).
  assert (forall t, received t (lg ++ [Disconnected tok (session_id s)]) = received t lg) as Hrec
    by (intros t; rewrite received_app; unfold received at 2; cbn; by rewrite app_nil_r).
  split; cbn.
  - apply O.
  - intros t s' Ht Hs'. rewrite Hposts, Hrec. assert (t <> tok) as Hne by set_solver.
    rewrite lookup_insert_ne in Hs' by done.
    rewrite lookup_delete_ne by (intros E; apply Hne; by apply (Hu t tok s' s)).
    apply (ho_open _ _ _ _ O); [set_solver|done].
  - intros i e' [Hne He']%lookup_delete_Some. destruct (ho_entry _ _ _ _ O i e' He') as (t & s' & Ht & Hs' & Hid).
    assert (t <> tok) by (intros ->; simplify_eq). exists t, s'. rewrite lookup_insert_ne by done.
    split_and!; [set_solver|done..].
  - intros t s' Ht Hs'. apply elem_of_app. destruct (decide (t = tok)) as [->|Hne]; [right; set_solver|].
    rewrite lookup_insert_ne in Hs' by done. left. eapply (ho_gone _ _ _ _ O); [set_solver|done].
  - intros t Ht. rewrite Hposts, Hrec. apply (ho_unknown _ _ _ _ O).
    destruct (decide (t = tok)) as [->|Hne]; [by rewrite lookup_insert_eq in Ht|by rewrite lookup_insert_ne in Ht].
Qed.

(** [on_data] of an open session: it ends, and if it closes the session, the
    close is requested once its calls are done. *)
Lemma host_ok_data live h hd lg tok s data :
  host_ok live h hd lg -> tok ∈ live -> sessions h !! tok = Some s -> disposed s = false -> uniq h ->
  exists hd' toks, SessionHost.on_data (Msg := Msg) (tok, session_id s) data (hd.1, (hd.2, []))
      = Some (Ok tt, (hd'.1, (hd'.2, toks)))
    /\ forall h', calm h h' -> (forall t, t ∈ toks -> requested t h') ->
       host_ok live h' hd' (lg ++ [Data tok data]).
Proof.
  intros O Hl Hs Hdis Hu. destruct (ho_open _ _ _ _ O tok s Hl Hs) as (e & He & Hns & Hp).
  destruct (on_data_parses (HostEnv0 := host_env) d hd.1 (tok, session_id s) e data (hd.2, []) (ho_decoder _ _ _ _ O) He)
    as (ms & rest & k & hd1 & Hparse & Hon & Hf & Ht).
  assert (decoder hd1 = d /\ forall i, i <> session_id s ->
    SessionHost.sessions hd1 !! i = SessionHost.sessions hd.1 !! i) as [Hdec Hoth].
  { pose proof (fun i => on_data_other (HostEnv0 := host_env) d hd.1 (tok, session_id s) e data
      (hd.2, []) hd1 _ i (ho_decoder _ _ _ _ O) He Hon) as Hod.
    split; [by apply (Hod 0%Z)|]. intros i Hi. by apply Hod. }
  assert (exists rest', SessionHost.sessions hd1 !! session_id s
      = Some (mkEntry (mkNetworkSession tok (tok, session_id s)) rest') /\ (k = false -> rest' = rest))
    as (rest' & He1 & Hrest).
  { destruct k; [rewrite (Ht eq_refl); case_decide|rewrite (Hf eq_refl)]; cbn;
      rewrite ?lookup_insert_eq, ?Hns; eauto. exists (inbound e). rewrite He, <- Hns. by destruct e. }
  rewrite Hns in Hon. rewrite deliver_calls in Hon.
  exists (hd1, hd.2 ++ (Posted tok <$> ms)), (if k then [tok] else []).
  split; [rewrite Hon; by destruct k|]. intros h' Hc Hreq.
  assert (forall t, t <> tok -> posts t (hd.2 ++ (Posted tok <$> ms)) = posts t hd.2) as Hposts
    by (intros t Hne; rewrite posts_app, posts_other by done; by rewrite app_nil_r).
  assert (forall t, t <> tok -> received t (lg ++ [Data tok data]) = received t lg) as Hrec
    by (intros t Hne; rewrite received_app; unfold received at 2; cbn;
        rewrite decide_False by done; by rewrite app_nil_r).
  assert (received tok (lg ++ [Data tok data]) = received tok lg ++ data) as Hrect
    by (rewrite received_app; unfold received at 2; cbn;
        rewrite decide_True by done; cbn; by rewrite app_nil_r).
  split; cbn.
  - done.
  - intros t s' Ht' Hs'. destruct (calm_back _ _ _ _ Hc Hs') as (s0 & Hs0 & Hid & Hd0 & Hr).
    rewrite Hid. destruct (decide (t = tok)) as [->|Hne].
    + simplify_eq. exists (mkEntry (mkNetworkSession tok (tok, session_id s)) rest'). split_and!; [done..|].
      destruct Hp as [Hp|Hp]; [by left; apply Hr|]. destruct k.
      * left. apply (Hreq tok); [set_solver|done|congruence].
      * right. rewrite (Hrest eq_refl), Hrect, posts_app, posts_same. by eapply parses_app.
    + rewrite (Hposts t Hne), (Hrec t Hne), Hoth by (intros E; apply Hne; by eapply Hu).
      destruct (ho_open _ _ _ _ O t s0 Ht' Hs0) as (e0 & ? & ? & Hp0). exists e0. naive_solver.
  - intros i e' He'. destruct (decide (i = session_id s)) as [->|Hne].
    + destruct Hc as [_ Hc]. destruct (Hc tok s Hs) as (s' & ? & ? & _). eauto.
    + rewrite Hoth in He' by done. destruct (ho_entry _ _ _ _ O i e' He') as (t & s0 & Ht' & Hs0 & Hid).
      destruct Hc as [_ Hc]. destruct (Hc t s0 Hs0) as (s' & ? & ? & _). exists t, s'. split_and!; congruence.
  - intros t s' Ht' Hs'. destruct (calm_back _ _ _ _ Hc Hs') as (s0 & Hs0 & _).
    apply elem_of_app. left. by eapply ho_gone.
  - intros t Hn. apply (calm_none _ _ _ Hc) in Hn. assert (t <> tok) as Hne by congruence.
    rewrite (Hposts t Hne), (Hrec t Hne). by apply (ho_unknown _ _ _ _ O).
Qed.
End host_ok.

(** ** The reactor with the host *)
Section server_run.
Context {S T L D Msg : Type} `{!MessageDecoder D Msg} `{!SpawnAnswers Msg} (d : D) `{!StreamDecoder d}.
Context `{!Transport T S} `{!TransportLaws T S} `{!TransportFactory T} `{!Listener L S}.
Hypothesis empty_incomplete : try_decode (Msg := Msg) d [] = Incomplete.
Variables (me fuel : nat).
Notation world := (World S T (hosted D Msg) L).
Notation any := (fun _ : world => True).
Notation unbased := (fun _ : Z => @None ((bytes * bytes) * (bytes * bytes))).

Definition Host (w : world) : Prop :=
  small w -> uniq (hub w) ->
  host_ok d (dom (connections (reactor w))) (hub w) (handler (reactor w)) (log w).

Definition Served (w : world) : Prop := Inv unbased w /\ Host w.

(** The hub of [w'] is calm after that of [w], all else the host knows is as in
    [w]. *)
Lemma Host_calm w w' :
  calm (hub w) (hub w') -> dom (connections (reactor w')) = dom (connections (reactor w)) ->
  next_token (reactor w') = next_token (reactor w) ->
  handler (reactor w') = handler (reactor w) -> log w' = log w -> Host w -> Host w'.
Proof.
  intros Hc Hm Hn Hh Hl HH Hs Hu. unfold small in Hs. rewrite Hn in Hs. rewrite Hm, Hh, Hl.
  eapply host_ok_calm; [exact Hc|]. apply HH; [exact Hs|]. by eapply uniq_calm.
Qed.

Lemma Host_ext x w : Host w -> Host (ext_step me x w).
Proof.
  intros HH. apply (Host_calm w); [apply ext_step_calm|..|done];
    destruct x; cbn [ext_step]; try done; by repeat case_match.
Qed.

Lemma Served_ext x w : Served w -> Served (ext_step me x w).
Proof.
  intros [HI HH]. split; [by apply Inv_ext|by apply Host_ext].
Qed.

Lemma wp_interfere_served (Q : unit -> world -> Prop) w :
  Served w -> (forall w', Served w' /\ connections (reactor w') = connections (reactor w) -> Q tt w') ->
  wp any (interfere me) Q w.
Proof.
  intros HS. apply wp_interfere; [done| |by split]. intros x w' [HS' E]. split; [by apply Served_ext|].
  rewrite <- E. destruct x; cbn [ext_step]; try done; by repeat case_match.
Qed.

(** A handler call: the method [p] is a computation of the host that ends in
    [h'], and the world is then as the host knows it. *)
Lemma wp_method e p toks h' w :
  p (handler (reactor w)) = closing toks (HDone h') ->
  (forall w', calm (hub w) (hub w') -> (forall t, t ∈ toks -> requested t (hub w')) ->
     connections (reactor w') = connections (reactor w) -> next_token (reactor w') = next_token (reactor w) ->
     log w' = log w ++ [e] -> handler (reactor w') = h' -> Host w') ->
  wp any (call_handler me e p) (fun _ => Host) w.
Proof.
  intros Hp HH. apply wp_bind, wp_gets, wp_bind, wp_modify. rewrite Hp.
  eapply wp_mono; [apply (wp_closing me toks h' (add_log e w)), steady_refl|].
  intros u w' [[(Hc & Hm & Hn & Hl) Hr] Hh]. by apply HH.
Qed.

(** To show something of a result, assume what follows from its condition. *)
Lemma wp_assume {A} (m : RM S T (hosted D Msg) L A) (C Q : world -> Prop) (G : Prop) w :
  wp any m (fun _ w' => C w' -> G) w -> (G -> wp any m (fun _ w' => C w' -> Q w') w) ->
  wp any m (fun _ w' => C w' -> Q w') w.
Proof. unfold wp. destruct (m w) as [[a| | |] w']; auto. Qed.

(** A handler call in [w1], when the host was right in an earlier [w]. *)
Lemma wp_method_host e p (w w1 : world) :
  callers (hub w1) !! 0 = None -> next_token (reactor w) = next_token (reactor w1) ->
  (uniq (hub w1) -> uniq (hub w)) ->
  (small w -> uniq (hub w) -> uniq (hub w1) -> wp any (call_handler me e p) (fun _ => Host) w1) ->
  wp any (call_handler me e p) (fun _ => Host) w1.
Proof.
  intros Hi Hn Hids HH.
  eapply wp_mono with (Q := fun _ w' => small w' /\ uniq (hub w') -> host_ok d
    (dom (connections (reactor w'))) (hub w') (handler (reactor w')) (log w')); [|intros ? ? Hx ? ?; by apply Hx].
  apply (wp_assume _ _ _ (small w /\ uniq (hub w) /\ uniq (hub w1))).
  - eapply wp_mono; [by apply wp_steady|]. intros u w' (Hc & _ & Hn' & _) [Hs Hu]. cbn in Hc, Hn'.
    pose proof (uniq_calm _ _ Hc Hu). unfold small in *. rewrite Hn, <- Hn'. auto.
  - intros (Hs & Hu & Hu1). eapply wp_mono; [by apply HH|]. intros u w' Hx [? ?]. by apply Hx.
Qed.

Lemma wp_close_host tok w : Served w -> wp any (close me tok) (fun _ => Host) w.
Proof.
  intros HS. apply wp_bind, wp_interfere_served; [done|]. intros w1 [[[HT Hi] HH] _]. clear w HS.
  apply wp_bind, wp_gets. destruct (connections (reactor w1) !! tok) as [c|] eqn:Hc; [|done].
  apply wp_bind, wp_modify, wp_bind, wp_gets. cbn [hub on_reactor].
  destruct (sessions (hub w1) !! session c) as [s|] eqn:Hs; [|done].
  apply wp_bind, wp_modify, wp_bind, wp_modify.
  apply (wp_method_host _ _ w1); [done..| |].
  { apply uniq_ids. cbn. intros t s0 Ht. destruct (decide (t = session c)) as [->|Hne].
    - simplify_eq. rewrite lookup_insert_eq. by eexists.
    - rewrite lookup_insert_ne by done. eauto. }
  intros Hsm Hu _. pose proof (core_conn _ _ _ _ _ _ _ (HT Hsm) tok c Hc) as Hsc. rewrite Hsc in *.
  destruct (host_ok_disconnected d _ _ _ _ tok s (HH Hsm Hu) (elem_of_dom_2 _ _ _ Hc) Hs Hu) as (hd' & Hon & O).
  apply (wp_method _ _ [] hd').
  - transitivity (finish (SessionHost.on_disconnected (Msg := Msg) (session_id s)
      ((handler (reactor w1)).1, ((handler (reactor w1)).2, [])))); [reflexivity|].
    rewrite Hon. by destruct hd'.
  - intros w' Hcalm _ Hm Hn Hl Hh Hs' Hu'. rewrite Hm, Hh, Hl. cbn. rewrite dom_delete_L.
    by eapply host_ok_calm.
Qed.

Lemma wp_flush_host tok w : Host w -> wp any (flush me fuel tok) (fun _ => Host) w.
Proof.
  intros H0. apply wp_bind, wp_gets. destruct (connections (reactor w) !! tok) as [c|] eqn:Hc; [|done].
  apply wp_bind.
  apply (wp_interfere any me (fun w' => Host w' /\ connections (reactor w') = connections (reactor w)));
    [done| |done|].
  { intros x w' [HH E]. split; [by apply Host_ext|]. rewrite <- E.
    destruct x; cbn [ext_step]; try done; by repeat case_match. }
  intros w1 [HH Hm]. rewrite <- Hm in Hc. apply wp_bind. unfold wp at 1, write_locked.
  destruct (sessions (hub w1) !! session c) as [s|] eqn:Hs; [|done].
  destruct (t_write fuel _ _ _) as [[[[o t'] st'] b']|]; [|done].
  set (w2 := on_reactor _ _).
  assert (Host w2) as H2.
  { apply (Host_calm w1); try done; cbn; [by eapply calm_insert|].
    rewrite dom_insert_L. apply elem_of_dom_2 in Hc. set_solver. }
  destruct o; [|by apply wp_ret]. apply wp_bind. unfold reregister.
  eapply wp_mono with (Q := fun _ => Host); [|intros u w3 H3; by apply wp_ret].
  apply wp_bind, wp_answer; [intros [] l|]; by apply wp_ret || by apply wp_modify.
Qed.

Lemma wp_read_host tok w : Served w -> wp any (read me fuel tok) (fun _ => Host) w.
Proof.
  intros [[HT Hi] HH]. unfold read. apply wp_bind, wp_modify, wp_bind, wp_gets.
  cbn [reactor on_reactor]. destruct (connections _ !! tok) as [c|] eqn:Hc; [|by apply wp_ret]. cbn in Hc.
  destruct (t_read fuel (transport c) (stream c) []) as [[[[o t'] st'] new]|] eqn:Hr; [|done].
  apply wp_bind, wp_modify, wp_bind, wp_gets. set (w1 := on_reactor _ (on_reactor _ w)).
  assert (dom (connections (reactor w1)) = dom (connections (reactor w))) as Hdom.
  { cbn. rewrite dom_insert_L. apply elem_of_dom_2 in Hc. set_solver. }
  apply wp_bind. eapply wp_mono with (Q := fun _ => Host).
  2: { intros u w2 H2. apply wp_bind, wp_modify. destruct o; [by apply wp_flush_host|by apply wp_ret]. }
  destruct new as [|x new]; [apply wp_ret; by apply (Host_calm w)|].
  apply (wp_method_host _ _ w); [done..|]. intros Hsm Hu _.
  destruct (core_get _ _ _ _ _ _ _ _ _ (HT Hsm) Hc) as (Hsc & s & Hs & Hok).
  destruct Hok as (_ & _ & _ & _ & _ & Hd). rewrite Hc, bool_decide_eq_true_2 in Hd by eauto.
  destruct (host_ok_data d _ _ _ _ tok s (x :: new) (HH Hsm Hu) (elem_of_dom_2 _ _ _ Hc) Hs Hd Hu)
    as (hd' & toks & Hon & O).
  cbn [hub on_reactor w1]. rewrite Hsc, Hs. apply (wp_method _ _ toks hd').
  - transitivity (match SessionHost.on_data (Msg := Msg) (tok, session_id s) (x :: new)
        ((handler (reactor w)).1, ((handler (reactor w)).2, [])) with
      | Some r => finish r | None => HPanic "the decode loop does not end" end); [reflexivity|].
    rewrite Hon. by destruct hd'.
  - intros w' Hcalm Hreq Hm _ Hl Hh _ _. rewrite Hm, Hh, Hl, Hdom. by apply O.
Qed.

Lemma wp_take_one_host x w : Served w -> wp any (take_one me x) (fun _ => Host) w.
Proof.
  intros [[HT Hi] HH]. unfold take_one. apply wp_bind, wp_gets, wp_bind, wp_modify.
  set (w1 := on_reactor bump_token w).
  assert (small w1 -> small w) as Hsmall by (unfold small; cbn; lia).
  assert (forall w2 : world, same_core w1 w2 -> Host w2) as Heq.
  { intros w2 (E1 & E2 & E3 & _ & E5 & _ & _ & E7) Hs Hu. unfold small in Hs. rewrite E3 in Hs.
    rewrite E1, E2, E5, E7. rewrite E5 in Hu. by apply HH; [apply Hsmall|]. }
  apply wp_bind. eapply wp_mono with (Q := fun _ => same_core w1); [by apply wp_answer|].
  intros ok w2 Hsame. destruct ok; cbn [negb]; [|by apply wp_ret, Heq].
  destruct Hsame as (E1 & E2 & E3 & _ & E5 & _ & _ & E7).
  apply wp_bind. unfold set_interest. apply wp_modify, wp_bind, wp_gets, wp_bind, wp_modify.
  destruct create as [t|msg|msg]; [|done..]. apply wp_bind, wp_modify. set (w3 := on_reactor _ _).
  apply (wp_method_host _ _ w3); [cbn; by rewrite E5|done|done|]. intros Hsm3 Hu3 _.
  assert (small w) as Hsm by (apply Hsmall; unfold small in *; cbn in *; by rewrite <- E3).
  pose proof (HT Hsm) as C. pose proof (core_next _ _ _ _ _ _ _ C) as Hge.
  unfold FIRST_CONNECTION_TOKEN in Hge.
  assert (wrap_u64 (next_token (reactor w)) = next_token (reactor w)) as Htok.
  { apply Z.mod_small. unfold small in Hsm3. cbn in Hsm3. rewrite E3 in Hsm3. cbn in Hsm3. lia. }
  assert (sessions (hub w) !! next_token (reactor w) = None) as Hfresh.
  { destruct (sessions (hub w) !! next_token (reactor w)) as [s|] eqn:Hs; [|done].
    destruct (core_session _ _ _ _ _ _ _ C _ s Hs) as (? & _). lia. }
  assert (hub w3 = set_hub_sessions (<[next_token (reactor w) := session_new x.2 (next_token (reactor w))
    (max_pending_send (reactor w2))]> (sessions (hub w))) (hub w)) as Ehub
    by (cbn; by rewrite E5, Htok).
  rewrite Ehub in Hu3.
  assert (uniq (hub w)) as Hu.
  { revert Hu3. apply uniq_ids. cbn. intros t' s Hs. rewrite lookup_insert_ne by congruence. eauto. }
  destruct (host_ok_accepted d _ _ _ _ (next_token (reactor w)) x.2 (max_pending_send (reactor w2))
    empty_incomplete (HH Hsm Hu) Hfresh) as [(msg & st & Hon)|(hd' & Hon & O)]; [|done|..].
  { intros Hin. apply (core_dom _ _ _ _ _ _ _ C), elem_of_dom in Hin. rewrite Hfresh in Hin. by destruct Hin. }
  { apply wp_bind, wp_gets, wp_bind, wp_modify.
    assert (handler (reactor w3) = handler (reactor w)) as Hh by (cbn; by rewrite E2).
    rewrite Hh, Htok. cbn [on_accepted session_actor_handler]. by rewrite Hon. }
  rewrite Htok. apply (wp_method _ _ [] hd').
  - transitivity (finish (SessionHost.on_accepted (Msg := Msg) (next_token (reactor w), x.2)
      ((handler (reactor w)).1, ((handler (reactor w)).2, [])))); [cbn; by rewrite E2|].
    rewrite Hon. by destruct hd'.
  - intros w' Hcalm _ Hm _ Hl Hh _ _. rewrite Ehub in Hcalm. rewrite Hm, Hh, Hl. cbn. rewrite E1, E7, Htok.
    cbn. rewrite dom_insert_L, union_comm_L. by eapply host_ok_calm.
Qed.

Lemma Served_kept : kept me fuel Served.
Proof.
  pose proof (Inv_kept unbased me fuel (H := hosted D Msg) (L := L)) as K. split.
  - intros w w' Hsame [HI HH]. split; [by eapply kept_same|].
    destruct Hsame as (E1 & E2 & E3 & _ & E5 & _ & _ & E7).
    apply (Host_calm w); rewrite ?E5; try done; congruence.
  - intros w. apply others_keep; [done|apply Served_ext].
  - intros sh w Hst [HI HH]. split; [by apply (kept_shared me fuel _ K)|].
    apply (Host_calm w); try done. by apply calm_same.
  - intros tok w HS. apply wp_conj; [apply (kept_close me fuel _ K), HS|by apply wp_close_host].
  - intros tok w HS. apply wp_conj; [apply (kept_flush me fuel _ K), HS|apply wp_flush_host, HS].
  - intros tok w HS. apply wp_conj; [apply (kept_read me fuel _ K), HS|by apply wp_read_host].
  - intros x w HS. apply wp_conj; [apply (kept_take me fuel _ K), HS|by apply wp_take_one_host].
Qed.

Variable keys : gmap Z (ManagedConnection S T) -> list Z.
Notation run := (Reactor.run me fuel keys).

(** A worker that starts with a new host. *)
Definition fresh_server (o : SessionHostOptions) (w : world) : Prop :=
  fresh_worker w /\ handler (reactor w) = (with_options d o, []).

Lemma server_host o polls w r w' :
  fresh_server o w -> run polls w = (Go r, w') -> small w' -> uniq (hub w') ->
  host_ok d (dom (connections (reactor w'))) (hub w') (handler (reactor w')) (log w').
Proof.
  intros [Hf Hh] Hr Hs Hu.
  assert (Served w) as HS.
  { split; [apply fresh_Inv; [by intros tok []|done]|]. intros _ _. destruct Hf as [Hc _ Hss _ _ Hl].
    rewrite Hc, Hh, Hl, dom_empty_L. split; cbn; try done; rewrite ?Hss; try done. }
  pose proof (wp_run me fuel Served Served_kept keys polls w HS) as Hwp.
  unfold wp in Hwp. rewrite Hr in Hwp. by apply Hwp.
Qed.

End server_run.

(** C17.  Frames arrive: with the length-prefixed decoder, when the bytes handed
    over for an open connection whose close nobody requested are the encodings of
    some payloads, each of which fits the decoder's [max_frame_len] and the
    32 bits of the length prefix, the actor of that connection was posted exactly
    the payloads [deserialize] accepts, deserialized, in order; session ids and
    tokens are distinct. *)
Theorem server_frames {S T L Msg} `{!SpawnAnswers Msg} (d : LengthPrefixedDecoder Msg)
    `{!Transport T S} `{!TransportLaws T S} `{!TransportFactory T} `{!Listener L S}
    me fuel keys o polls (w w' : World S T (hosted (LengthPrefixedDecoder Msg) Msg) L) r tok s ps :
  fresh_server d o w -> Reactor.run me fuel keys polls w = (Go r, w') -> small w' -> uniq (hub w') ->
  is_Some (connections (reactor w') !! tok) -> sessions (hub w') !! tok = Some s ->
  close_requested s = false -> Forall (fits d) ps -> received tok (log w') = frames ps ->
  posts tok (handler (reactor w')).2 = omap (deserialize d) ps.
Proof.
  intros Hf Hr Hs Hu Hc Hss Hcr Hps Hrec.
  pose proof (server_host d eq_refl me fuel keys o polls w r w' Hf Hr Hs Hu) as O.
  destruct (ho_open _ _ _ _ _ O tok s) as (e & _ & _ & Hp); [by apply elem_of_dom|done|].
  destruct Hp as [?|Hp]; [congruence|]. rewrite Hrec in Hp.
  pose proof (frames_parse d ps [] [] [] false Hps (parses_incomplete d [] eq_refl)) as Hq.
  rewrite !app_nil_r in Hq. by destruct (parses_det d _ _ _ _ _ _ _ Hp Hq).
Qed.
