(* ===== verification/ReactorDemo.v ===== *)
(** Concrete runs of a worker: an echo handler over plain sockets that follow a
    script, with another thread sending in between.  They witness the hypotheses
    of the reactor's theorems, and, with the session actor host as the handler,
    of the server's. *)
From S2P Require Import Prelude Codec SessionHost NetSend SessionCalls Transports.
From S2P Require Import Reactor ReactorLogic ReactorInvariant ReactorPending ReactorTheorems HostServer.
Local Open Scope nat_scope.

(** ** A scripted stream and listener, an echo handler *)
Record demo_stream : Type := mkStream {
  to_read : list (io_result bytes); to_take : list (io_result nat); was_read : bytes; was_taken : bytes }.

#[export] Instance demo_socket_ops : Socket demo_stream := {
  sock_read s n :=
    match to_read s with
    | [] => (IoErr WouldBlock, s)
    | IoOk b :: rest => (IoOk (take n b), mkStream rest (to_take s) (was_read s ++ take n b) (was_taken s))
    | IoErr e :: rest => (IoErr e, mkStream rest (to_take s) (was_read s) (was_taken s))
    end;
  sock_write s b :=
    match to_take s with
    | [] => (IoErr WouldBlock, s)
    | IoOk n :: rest =>
        (IoOk (Nat.min n (length b)), mkStream (to_read s) rest (was_read s) (was_taken s ++ take n b))
    | IoErr e :: rest => (IoErr e, mkStream (to_read s) rest (was_read s) (was_taken s))
    end;
}.

#[export] Instance demo_socket_laws : SocketLaws demo_stream.
Proof.
  refine {| accepted := was_taken; obtained := was_read |}.
  - intros [r [|[n|e] l] a t] b x s' Hw; cbn in Hw; simplify_eq/=; try done.
    split; [done|]. split; [lia|]. f_equal. destruct (decide (n <= length b)).
    + by rewrite Nat.min_l.
    + rewrite Nat.min_r, !take_ge by lia. done.
  - intros [[|[b|e] l] t a u] n x s' Hr; cbn in Hr; simplify_eq/=; try done.
    split; [done|]. split; [rewrite length_take; lia|done].
Defined.

#[export] Instance demo_listener : Listener (list (io_result demo_stream)) demo_stream :=
  fun l => match l with [] => (IoErr WouldBlock, []) | x :: rest => (x, rest) end.

(** Greets, echoes, closes when the buffer is full; counts the echoes. *)
#[export] Instance demo_handler : HostHandler nat := {
  on_accepted h tok _ := HSend tok [7]%Z (fun _ => HDone h);
  on_data h tok _ bs := HSend tok bs (fun r =>
    match r with BufferFull => HClose tok (HDone h) | _ => HDone (S h) end);
  on_disconnected h _ := HDone h;
}.

Notation demo_world := (World demo_stream TcpTransport nat (list (io_result demo_stream))).
Notation demo_map := (gmap Z (ManagedConnection demo_stream TcpTransport)).

Definition demo_keys (m : demo_map) : list Z := (map_to_list m).*1.

Lemma demo_keys_ok (m : demo_map) tok : tok ∈ demo_keys m <-> is_Some (m !! tok).
Proof.
  unfold demo_keys. rewrite list_elem_of_fmap. split.
  - intros ([t c] & -> & Hin). apply elem_of_map_to_list in Hin. eauto.
  - intros [c Hc]. exists (tok, c). by rewrite elem_of_map_to_list.
Qed.

Definition demo_connection : demo_stream :=
  mkStream [IoOk [1; 2; 3]%Z] [IoOk 1; IoOk 2] [] [].

Definition demo_hub : Hub := mkHub ∅ (mkShared false [] [] 0) ∅ [].

(** One connection is waiting at the listener; thread 1 sends a byte while the
    reactor reads. *)
Definition demo_start : demo_world :=
  mkWorld (mkReactor (Some [IoOk demo_connection; IoErr WouldBlock]) ∅ 0 2 1 0 8 [])
    demo_hub [[]] [] ∅ [] 0 (replicate 18 [] ++ [[XSend 0 2 [9]%Z; XStep 0; XStep 0; XStep 0]]) [].

Definition ev_listener : Event := mkEvent LISTENER_TOKEN true false.
Definition ev_waker : Event := mkEvent WAKER_TOKEN true false.
Definition demo_accept : list (io_result (list Event)) := [IoOk [ev_listener]; IoOk [ev_waker]].
Definition demo_echo : list (io_result (list Event)) := [IoOk [mkEvent 2 true false]].

Notation demo_run := (Reactor.run 0 10 demo_keys).

Definition demo_with (sched : list (list (ext demo_stream))) : demo_world := set_schedule sched demo_start.

(** The other thread's [shutdown] stores [stopped] as the reactor goes back to
    its poll. *)
Definition demo_stopping : demo_world := demo_with (replicate 13 [] ++ [[XStop; XWake]]).

Lemma demo_fresh sched : fresh_worker (demo_with sched).
Proof. by split. Qed.

Definition after (polls : list (io_result (list Event))) (w : demo_world) : demo_world :=
  (demo_run polls w).2.

Lemma demo_echo_runs :
  demo_run (demo_accept ++ demo_echo) demo_start = (Go Waiting, after (demo_accept ++ demo_echo) demo_start).
Proof. vm_compute. reflexivity. Qed.

Lemma demo_accept_runs : demo_run demo_accept demo_start = (Go Waiting, after demo_accept demo_start).
Proof. vm_compute. reflexivity. Qed.

(** ** Witnesses *)
Lemma reactor_lifecycle_witness :
  lifecycle (events_of 2 (log (after (demo_accept ++ demo_echo) demo_start))) = Some (Live 1).
Proof.
  refine (eq_trans (reactor_lifecycle 0 10 demo_keys (demo_accept ++ demo_echo) demo_start Waiting _
    (demo_fresh _) demo_echo_runs _ 2%Z) _); vm_compute; [discriminate|reflexivity].
Defined.

Lemma reactor_tables_witness :
  dom (interests (after (demo_accept ++ demo_echo) demo_start))
  = dom (connections (reactor (after (demo_accept ++ demo_echo) demo_start))).
Proof.
  refine (proj2 (proj2 (reactor_tables 0 10 demo_keys (demo_accept ++ demo_echo) demo_start Waiting _
    (demo_fresh _) demo_echo_runs _))). vm_compute. discriminate.
Defined.

Lemma reactor_ledgers_witness :
  exists given, received 2 (log (after demo_echo (after demo_accept demo_start)))
    = received 2 (log (after demo_accept demo_start)) ++ given.
Proof.
  destruct (reactor_ledgers 0 10 demo_keys demo_echo (after demo_accept demo_start) Waiting
    (after demo_echo (after demo_accept demo_start)) 2
    (mkConnection (mkStream [IoOk [1; 2; 3]%Z] [IoOk 2] [] [7]%Z) 2 mkTcpTransport)
    (mkSession 1 2 (mkSendBuffer [] 0 8) false false)
    (mkConnection (mkStream [] [] [1; 2; 3]%Z [7; 1; 2]%Z) 2 mkTcpTransport)
    (mkSession 1 2 (mkSendBuffer [1; 2; 3; 9]%Z 2 8) false false)) as [(given & H & _) _].
  - exists demo_start, demo_accept. exact (conj (demo_fresh _) demo_accept_runs).
  - vm_compute. reflexivity.
  - vm_compute. discriminate.
  - vm_compute. reflexivity.
  - vm_compute. reflexivity.
  - vm_compute. reflexivity.
  - vm_compute. reflexivity.
  - exists given. exact H.
Defined.

(** The other thread has appended and is about to queue the token, and the
    reactor has registered for writability. *)
Lemma no_stuck_output_witness :
  interests (after (demo_accept ++ demo_echo) demo_start) !! 2%Z = Some true
  \/ (2%Z ∈ pending_writes (shared (hub (after (demo_accept ++ demo_echo) demo_start)))
      /\ alarm (heard (after (demo_accept ++ demo_echo) demo_start))
            (hub (after (demo_accept ++ demo_echo) demo_start)))
  \/ at_pc (hub (after (demo_accept ++ demo_echo) demo_start)) (SendPush 2).
Proof.
  refine (proj1 (no_stuck_output 0 10 demo_keys (demo_accept ++ demo_echo) demo_start
    (after (demo_accept ++ demo_echo) demo_start) _ (demo_fresh _) eq_refl eq_refl eq_refl _
    demo_echo_runs 2
    (mkConnection (mkStream [] [] [1; 2; 3]%Z [7; 1; 2]%Z) 2 mkTcpTransport)
    (mkSession 1 2 (mkSendBuffer [1; 2; 3; 9]%Z 2 8) false false) _ _) _).
  - intros t _. reflexivity.
  - cbn. lia.
  - vm_compute. reflexivity.
  - vm_compute. reflexivity.
  - vm_compute. discriminate.
Defined.

(** The condition of [no_stuck_output] matters: [flush] discards the error of a
    refused [reregister].  Here the poll refuses every change of interest after
    the registration of the connection: the reactor ends up waiting with unsent
    bytes, no writable registration, an empty queue and nothing to wake it. *)
Definition demo_refused : demo_world :=
  after (demo_accept ++ demo_echo ++ [IoOk [ev_waker]; IoOk [ev_waker]])
    (set_answers (true :: replicate 9 false) (demo_with [])).

Lemma refused_reregister_strands_output :
  (option_map (fun s => pending_slice (outbound s)) (SessionCalls.sessions (hub demo_refused) !! 2%Z),
   interests demo_refused !! 2%Z, pending_writes (shared (hub demo_refused)), pending_closes (shared (hub demo_refused)),
   bool_decide (callers (hub demo_refused) = ∅), heard demo_refused, wakes (shared (hub demo_refused)))
  = (Some [3]%Z, Some false, [], [], true, 3, 3).
Proof. vm_compute. reflexivity. Qed.

Lemma demo_stopping_reached : reached 0 10 demo_keys (after demo_accept demo_stopping).
Proof. exists demo_stopping, demo_accept. split; [apply demo_fresh|]. vm_compute. reflexivity. Qed.

Lemma stop_closes_all_witness :
  exists w', demo_run [IoOk [ev_waker]] (after demo_accept demo_stopping) = (Go Returned, w')
    /\ connections (reactor w') = ∅.
Proof.
  destruct (stop_closes_all 0 10 demo_keys (after demo_accept demo_stopping) true false [] [])
    as (w' & H & Hc & _).
  - intros h id. exact I.
  - exact demo_keys_ok.
  - exact demo_stopping_reached.
  - vm_compute. discriminate.
  - vm_compute. reflexivity.
  - exists w'. exact (conj H Hc).
Defined.

(** A signal interrupts the poll of a worker with an open connection. *)
Lemma worker_errors_abandon_witness :
  demo_run (demo_accept ++ [IoErr Interrupted]) demo_start
  = (Err Interrupted, after demo_accept demo_start).
Proof.
  refine (proj1 (proj2 (worker_errors_abandon 0 10 demo_keys (after demo_accept demo_start) _ _))
    demo_start demo_accept Interrupted [] demo_accept_runs).
  - exists demo_start, demo_accept. exact (conj (demo_fresh _) demo_accept_runs).
  - vm_compute. discriminate.
Defined.

(** Five connections for three workers, from the second on. *)
Definition demo_backlog : list demo_stream := replicate 5 demo_connection.
Definition demo_pool : demo_world :=
  mkWorld (mkReactor (Some (map IoOk demo_backlog)) ∅ 0 2 1 1 8 [])
    demo_hub [[]; []; []] [] ∅ [] 0 [] [].

Lemma accept_round_robin_witness :
  exists w', accept 0 10 demo_pool = (Go tt, w')
    /\ inboxes w' !! 0 = Some [(demo_connection, 3%Z)]
    /\ inboxes w' !! 1 = Some [(demo_connection, 1%Z); (demo_connection, 4%Z)].
Proof.
  destruct (accept_round_robin 0 10 3 (map IoOk demo_backlog) demo_backlog [] 6 demo_pool)
    as (w' & H & Hq & _).
  - repeat (eapply yields_connection; [reflexivity|]). apply yields_block. reflexivity.
  - lia.
  - reflexivity.
  - reflexivity.
  - reflexivity.
  - cbn. lia.
  - exists w'. split; [exact H|]. split;
      [refine (eq_trans (Hq 0 [] eq_refl) _)|refine (eq_trans (Hq 1 [] eq_refl) _)]; vm_compute; reflexivity.
Defined.

(** ** A server: two frames, cut across two reads *)
#[export] Instance spawns_return : SpawnAnswers bytes := fun _ => None.

Definition demo_decoder : LengthPrefixedDecoder bytes := with_max_frame_len Some 8.

Definition demo_client : demo_stream :=
  mkStream [IoOk [0; 0; 0; 1; 7; 0; 0]%Z; IoErr WouldBlock; IoOk [0; 2; 8; 9]%Z] [] [] [].

Definition server_start :
    World demo_stream TcpTransport (hosted (LengthPrefixedDecoder bytes) bytes) (list (io_result demo_stream)) :=
  mkWorld (mkReactor (Some [IoOk demo_client]) ∅ (new_host demo_decoder, []) 2 1 0 8 [])
    demo_hub [[]] [] ∅ [] 0 [] [].

Definition server_keys (m : demo_map) : list Z := (map_to_list m).*1.
Definition server_polls : list (io_result (list Event)) :=
  demo_accept ++ [IoOk [mkEvent 2 true false]; IoOk [mkEvent 2 true false]].
Definition server_end := (Reactor.run 0 10 server_keys server_polls server_start).2.

Lemma server_fresh : fresh_server demo_decoder default_options server_start.
Proof. split; [by split|reflexivity]. Qed.

Lemma server_runs : Reactor.run 0 10 server_keys server_polls server_start = (Go Waiting, server_end).
Proof. vm_compute. reflexivity. Qed.

Lemma server_sessions :
  SessionCalls.sessions (hub server_end) = {[2%Z := mkSession 1 2 (send_buffer_new 8) false false]}.
Proof. vm_compute. reflexivity. Qed.

Lemma server_uniq : uniq (hub server_end).
Proof.
  intros tok tok' s s'. rewrite server_sessions. intros [<- _]%lookup_singleton_Some.
  by intros [<- _]%lookup_singleton_Some.
Qed.


Lemma server_frames_witness : posts 2 (handler (reactor server_end)).2 = [[7]; [8; 9]]%Z.
Proof.
  refine (server_frames demo_decoder 0 10 server_keys default_options server_polls server_start
    server_end Waiting 2 (mkSession 1 2 (send_buffer_new 8) false false) [[7]; [8; 9]]%Z server_fresh
    server_runs _ server_uniq _ _ eq_refl _ _).
  - vm_compute. discriminate.
  - vm_compute. eexists. reflexivity.
  - vm_compute. reflexivity.
  - repeat constructor; vm_compute; congruence.
  - vm_compute. reflexivity.
Defined.
