(* ===== verification/HostActors.v ===== *)
(** Sessions and their actors: the calls of the session actor host
    ([dignus-actor-network/src/session_actor_host.rs]) performed on the actor
    system, between and inside the executions of its dispatchers and among the
    calls of anybody else, so that what the server decodes ([HostServer]) meets
    what actors are given ([ActorTheorems]). *)
From S2P Require Import Prelude Codec SessionHost NetSend SessionCalls Transports.
From S2P Require Import Reactor ReactorLogic ReactorInvariant ReactorTheorems HostServer.
From S2P Require Import MpscQueue RunnerProtocol PollDriver Registry ActorCore ActorWorld ActorKeeps ActorCalls ActorDelivery ActorTheorems ActorShutdown ActorPosts.
From S2P Require Import ReactorDemo.

(** ** The host's calls on the actor system *)
Section joint.
Context {A F Msg : Type} `{!ActorBase A F Msg} (exception_message : Msg).
Notation World := (World (A := A) (F := F) (Msg := Msg)).
Notation Mail := (ActorMail Msg).

(** [TFactory]: the actor of a session. *)
Variable factory : Z -> Actor A.

(** The references the host holds, by session, and the actor system. *)
Record Joint : Type := mkJoint { refs : list (Z * ActorRef); actors : World }.
Implicit Types (j : Joint).

Definition ref_of (tok : Z) (l : list (Z * ActorRef)) : option ActorRef :=
  head (omap (λ e, if decide (e.1 = tok) then Some e.2 else None) l).

(** [on_accepted] spawns without an alias (a panic of it unwinds the host). *)
Definition host_spawn (tok : Z) (dispatcher_index : option Z) (cap : Z) j : option Joint :=
  if cap <=? 2 ^ 62 then
    match spawn (factory tok) dispatcher_index None cap (actors j) with
    | (Ok r, w) => Some (mkJoint ((tok, r) :: refs j) w)
    | _ => None
    end
  else None.

(** [NetworkSessionRef::post] posts without a sender; [kill] kills the actor. *)
Definition host_post (tok : Z) (m : Msg) (l : list (Z * ActorRef)) : option (acall Msg) :=
  r ← ref_of tok l; Some (APost r (mkMail m None)).
Definition host_kill (tok : Z) (l : list (Z * ActorRef)) : option (acall Msg) :=
  r ← ref_of tok l; Some (AKill r).

Definition host_call (x : actor_call Msg) j : option Joint :=
  match x with
  | Spawned tok dispatcher_index cap => host_spawn tok dispatcher_index cap j
  | Posted tok m =>
      c ← host_post tok m (refs j); mkJoint (refs j) <$> wstep exception_message (Call c) (actors j)
  | HostServer.Killed tok =>
      c ← host_kill tok (refs j); mkJoint (refs j) <$> wstep exception_message (Call c) (actors j)
  end.

(** A call that falls into an execution: the host's, or anybody's. *)
Definition meanwhile_call (l : list (Z * ActorRef)) (x : actor_call Msg + acall Msg) : option (acall Msg) :=
  match x with
  | inl (Posted tok m) => host_post tok m l
  | inl (HostServer.Killed tok) => host_kill tok l
  | inl (Spawned _ _ _) => None
  | inr c => Some c
  end.

(** The host calls; dispatchers take turns, with calls inside them; and anybody
    else acts in between. *)
Inductive jaction : Type :=
| ByHost (x : actor_call Msg)
| ByTurn (d : nat) (meanwhile : list (list (actor_call Msg + acall Msg))) (fuel : nat)
| ByOthers (a : waction (A := A) (Msg := Msg)).

Definition jstep (x : jaction) j : option Joint :=
  match x with
  | ByHost x => host_call x j
  | ByTurn d meanwhile fuel =>
      l ← mapM (mapM (meanwhile_call (refs j))) meanwhile;
      mkJoint (refs j) <$> wstep exception_message (Turn d l fuel) (actors j)
  | ByOthers a => mkJoint (refs j) <$> wstep exception_message a (actors j)
  end.

Definition joint_new (dispatcher_count actor_capacity : Z) : Joint :=
  mkJoint [] (world_new dispatcher_count actor_capacity).

(** The host's calls of an action, of a list of actions. *)
Definition calls_of (x : jaction) : list (actor_call Msg) :=
  match x with
  | ByHost x => [x]
  | ByTurn _ meanwhile _ => omap (λ y, match y with inl x => Some x | inr _ => None end) (concat meanwhile)
  | ByOthers _ => []
  end.
Definition host_calls (l : list jaction) : list (actor_call Msg) := concat (calls_of <$> l).

Lemma host_calls_snoc l x : host_calls (l ++ [x]) = host_calls l ++ calls_of x.
Proof. unfold host_calls. rewrite fmap_app, concat_app. cbn. by rewrite app_nil_r. Qed.

Lemma ref_of_in tok l r : ref_of tok l = Some r -> (tok, r) ∈ l.
Proof.
  unfold ref_of. intros (k & H)%head_Some. assert (r ∈ r :: k) as Hin by apply list_elem_of_here.
  rewrite <- H in Hin. apply list_elem_of_omap in Hin as ([t r'] & Hin & Hd). cbn in Hd.
  case_decide; by simplify_eq.
Qed.

(** It is a run of the actor system, and the host keeps its references. *)
Lemma jstep_world x j j' : jstep x j = Some j' ->
  (exists a, wstep exception_message a (actors j) = Some (actors j')) /\ refs j `suffix_of` refs j'.
Proof.
  destruct x as [[tok k cap|tok m|tok]|d meanwhile fuel|a]; cbn [jstep host_call]; unfold host_spawn.
  - destruct (cap <=? 2 ^ 62) eqn:E; [|done]. destruct (spawn _ _ _ _ _) as [[r|e|e] w] eqn:Es; [|done..].
    intros [= <-]. split; [|by exists [(tok, r)]]. exists (Spawn (factory tok) k None cap). cbn [wstep].
    by rewrite E, Es.
  - intros (c & _ & (w & Hw & ->)%fmap_Some)%bind_Some. eauto.
  - intros (c & _ & (w & Hw & ->)%fmap_Some)%bind_Some. eauto.
  - intros (l & _ & (w & Hw & ->)%fmap_Some)%bind_Some. eauto.
  - intros (w & Hw & ->)%fmap_Some. eauto.
Qed.

Lemma joint_inv n cap acts j :
  Prelude.run jstep acts (joint_new n cap) = Some j -> world_inv ∅ Rest (actors j).
Proof.
  revert acts j. apply run_invariant; [apply inv_new|]. intros _ x j j' _ HI Hs.
  destruct (jstep_world x j j' Hs) as [[a Ha] _]. by eapply wstep_ok.
Qed.

(** ** What a session's actor was posted *)
Variables (tok : Z) (a : nat * Z).
Context `{!PostsTo (λ b, b <> a)}.

(** The others post elsewhere. *)
Definition others_elsewhere (x : jaction) : Prop :=
  match x with
  | ByHost _ => True
  | ByTurn _ meanwhile _ => forall c, inr c ∈ concat meanwhile -> posts_to (λ b, b <> a) c
  | ByOthers x => posted_by a x = []
  end.

(** The address is that of the session's actor and of no other session's. *)
Definition own_address (l : list (Z * ActorRef)) : Prop :=
  forall tok' r, (tok', r) ∈ l -> tok' = tok <-> addr_of r = a.

Lemma jstep_refs x j j' : jstep x j = Some j' -> own_address (refs j') -> own_address (refs j).
Proof. intros [_ [k E]]%jstep_world Ho t r Hin. apply Ho. rewrite E. apply elem_of_app. by right. Qed.

Definition mailed (l : list (actor_call Msg)) : list Mail := (λ m, mkMail m None) <$> posts tok l.

Lemma mailed_app l l' : mailed (l ++ l') = mailed l ++ mailed l'.
Proof. unfold mailed. by rewrite posts_app, fmap_app. Qed.

(** One call of the host. *)
Lemma host_post_mail t m l c :
  own_address l -> host_post t m l = Some c -> mails_to a (notes [c]) = mailed [Posted t m].
Proof.
  intros Ho (r & Hr%ref_of_in & [= <-])%bind_Some. destruct (Ho t r Hr) as [H1 H2].
  unfold mailed, posts, mails_to. cbn. destruct (decide (t = tok)).
  - by rewrite decide_True by auto.
  - by rewrite decide_False by auto.
Qed.

Lemma elsewhere_mail (c : acall Msg) : posts_to (λ b, b <> a) c -> mails_to a (notes [c]) = [].
Proof. destruct c as [r m|r|k]; try done. intros Hne. unfold mails_to. cbn. by rewrite decide_False. Qed.

Lemma meanwhile_mail l x c :
  own_address l -> meanwhile_call l x = Some c ->
  (forall c', x = inr c' -> posts_to (λ b, b <> a) c') ->
  mails_to a (notes [c]) = match x with inl y => mailed [y] | inr _ => [] end.
Proof.
  intros Ho Hm Hx. destruct x as [[t k n|t m|t]|c']; cbn in Hm; [done|by eapply host_post_mail| |].
  - unfold host_kill in Hm. apply bind_Some in Hm as (r & _ & [= <-]). done.
  - injection Hm as ->. by apply elsewhere_mail, Hx.
Qed.

(** The calls that fall into an execution. *)
Lemma entry_mail l xs cs :
  own_address l -> mapM (meanwhile_call l) xs = Some cs ->
  (forall c, inr c ∈ xs -> posts_to (λ b, b <> a) c) ->
  mails_to a (notes cs) = mailed (omap (λ y, match y with inl x => Some x | inr _ => None end) xs).
Proof.
  intros Ho Hm%mapM_Some. induction Hm as [|x c xs cs Hx _ IH]; intros He; [done|].
  change (c :: cs) with ([c] ++ cs). rewrite notes_app, mails_to_app.
  rewrite (meanwhile_mail l x c Ho Hx) by (intros c' ->; apply He, list_elem_of_here).
  rewrite IH by (intros c' Hc'; by apply He, list_elem_of_further). destruct x as [y|c']; [|done].
  symmetry. exact (mailed_app [y] _).
Qed.

Lemma turn_mail l xss css :
  own_address l -> mapM (mapM (meanwhile_call l)) xss = Some css ->
  (forall c, inr c ∈ concat xss -> posts_to (λ b, b <> a) c) ->
  mails_to a (notes (concat css))
  = mailed (omap (λ y, match y with inl x => Some x | inr _ => None end) (concat xss)).
Proof.
  intros Ho Hm%mapM_Some. induction Hm as [|xs cs xss css Hx _ IH]; intros He; [done|]. cbn [concat].
  rewrite notes_app, mails_to_app, omap_app, mailed_app.
  rewrite (entry_mail l xs cs Ho Hx) by (intros c Hc; apply He, elem_of_app; by left).
  by rewrite IH by (intros c Hc; apply He, elem_of_app; by right).
Qed.

Lemma jstep_mail x j j' :
  world_inv ∅ Rest (actors j) -> jstep x j = Some j' -> others_elsewhere x -> own_address (refs j') ->
  mail_of a (actors j') = mail_of a (actors j) ++ mailed (calls_of x).
Proof.
  intros HI Hs Hx Ho. pose proof (jstep_refs x j j' Hs Ho) as Ho0. revert Hs.
  destruct x as [[t k cap|t m|t]|d meanwhile fuel|y]; cbn [jstep host_call calls_of]; unfold host_spawn.
  - destruct (cap <=? 2 ^ 62) eqn:E; [|done]. destruct (spawn _ _ _ _ _) as [[r|e|e] w] eqn:Es; [|done..].
    intros [= <-]. pose proof (spawn_record (factory t) k None cap (actors j)) as H. rewrite Es in H.
    cbn [snd] in H. unfold mail_of. cbn [actors]. by rewrite H, app_nil_r.
  - intros (c & Hc & (w & Hw & ->)%fmap_Some)%bind_Some. cbn [actors].
    rewrite (wstep_mail exception_message a _ _ _ HI Hw). cbn [posted_by]. by erewrite host_post_mail.
  - intros (c & Hc & (w & Hw & ->)%fmap_Some)%bind_Some. cbn [actors].
    rewrite (wstep_mail exception_message a _ _ _ HI Hw). cbn [posted_by].
    by apply bind_Some in Hc as (r & _ & [= <-]).
  - intros (l & Hl & (w & Hw & ->)%fmap_Some)%bind_Some. cbn [actors].
    rewrite (wstep_mail exception_message a _ _ _ HI Hw). cbn [posted_by]. f_equal. by eapply turn_mail.
  - intros (w & Hw & ->)%fmap_Some. cbn [actors]. by rewrite (wstep_mail exception_message a _ _ _ HI Hw), Hx.
Qed.

Lemma joint_mail n cap acts j :
  Prelude.run jstep acts (joint_new n cap) = Some j -> Forall others_elsewhere acts ->
  own_address (refs j) -> mail_of a (actors j) = mailed (host_calls acts).
Proof.
  revert acts j. apply (run_invariant jstep (λ acts j, Forall others_elsewhere acts -> own_address (refs j) ->
    mail_of a (actors j) = mailed (host_calls acts))); [done|].
  intros acts x j j' Hj IH Hs [Ha Hx]%Forall_app Ho. apply Forall_cons_1 in Hx as [Hx _].
  rewrite (jstep_mail x j j' (joint_inv _ _ _ _ Hj) Hs Hx Ho), host_calls_snoc, mailed_app.
  by rewrite (IH Ha (jstep_refs x j j' Hs Ho)).
Qed.
End joint.

(** Of all mail to its address, a runner was posted what came after its spawn. *)
Lemma posted_mail {A F Msg} (c : Cell (A := A) (F := F) (Msg := Msg)) w :
  mail_of (addr c) w = mails_to (addr c) (take (since c) (log w)) ++ posted c w.
Proof. unfold mail_of, posted. by rewrite <- mails_to_app, take_drop. Qed.

(** ** From the socket to [on_receive] *)
Section received.
Context {S T L D Msg A F : Type} `{!MessageDecoder D Msg} `{!SpawnAnswers Msg} (d : D) `{!StreamDecoder d}.
Context `{!Transport T S} `{!TransportLaws T S} `{!TransportFactory T} `{!Listener L S} `{!ActorBase A F Msg}.
Hypothesis empty_incomplete : try_decode (Msg := Msg) d [] = Incomplete.
Variables (me fuel : nat) (keys : gmap Z (ManagedConnection S T) -> list Z).
Variables (exception_message : Msg) (factory : Z -> Actor A).

End received.

(** ** Witness: two frames of one connection reach its actor *)
#[local] Instance collector : ActorBase (list bytes) Empty_set bytes := {
  on_receive := λ _ self m _, (Done, [], self ++ [m]);
  poll_future := λ _ f _, match f with end;
  on_kill := λ self, (ActorWorld.Killed, [], self);
  on_dead_letter := no_callback;
}.

#[local] Instance collector_posts elsewhere : PostsTo (A := list bytes) (F := Empty_set) (Msg := bytes) elsewhere.
Proof. split; [intros; constructor|intros ? []|intros; constructor..]. Qed.

Definition collecting (tok : Z) : Actor (list bytes) := mkActor context_new [].

(** The host's second post falls into the execution that hands the first to the
    actor, between its dequeue and [on_receive]. *)
Definition demo_script : list (jaction (A := list bytes) (Msg := bytes)) :=
  match (handler (Reactor.reactor server_end)).2 with
  | x :: y :: rest => [ByHost x; ByHost y; ByTurn 0 [[]; inl <$> rest] 5]
  | l => ByHost <$> l
  end.

Definition demo_joint : Joint (A := list bytes) (F := Empty_set) (Msg := bytes) :=
  default (joint_new 1 2) (Prelude.run (jstep [] collecting) demo_script (joint_new 1 2)).

Definition demo_cell : Cell (A := list bytes) (F := Empty_set) (Msg := bytes) :=
  default (mkCell (mkRunner (collecting 0) (mkActorRef 0 0 None) 0 (mkQueue [] 0 0 0 0)) false Running
             false false None [] [] [] false 0) (runners (actors demo_joint) !! 0%nat).

Lemma demo_parses :
  parses demo_decoder (ReactorInvariant.received 2 (Reactor.log server_end)) [[7]; [8; 9]] [] false.
Proof.
  assert (ReactorInvariant.received 2 (Reactor.log server_end) = frames [[7]; [8; 9]] ++ []) as ->
    by (vm_compute; reflexivity).
  apply (frames_parse demo_decoder [[7]; [8; 9]] [] [] [] false).
  - repeat constructor; vm_compute; congruence.
  - by apply parses_incomplete.
Qed.

