(* ===== verification/Hosts.v ===== *)
(** Hosts ([dignus-actor-network/src/tcp_host.rs], [tls_host.rs],
    [host_options.rs], and [Reactor::build_pool] of [reactor.rs]): building the
    pool of workers, stopping it, and waiting for its threads. *)
From S2P Require Import Prelude Codec NetSend SessionCalls.
From S2P Require Import Transports Reactor ReactorLogic ReactorInvariant.
Local Open Scope nat_scope.

(** ** [HostOptions] *)
Definition DEFAULT_MAX_PENDING_SEND : nat := 2 ^ 20.

Record HostOptions : Type := mkHostOptions { worker_count : nat; opt_max_pending_send : nat }.

(** [available_parallelism] may fail. *)
Definition default_host_options (available_parallelism : option nat) : HostOptions :=
  mkHostOptions (default 1 available_parallelism) DEFAULT_MAX_PENDING_SEND.
Definition with_worker_count (n : nat) (o : HostOptions) : HostOptions :=
  mkHostOptions (n `max` 1) (opt_max_pending_send o).
Definition with_max_pending_send (n : nat) (o : HostOptions) : HostOptions :=
  mkHostOptions (worker_count o) n.

Section pool.
Context {S T H L A F : Type}.

(** The operating system: an error for some of the calls to come, success once
    the list is used up. *)
Definition os_call (os : list (option io_error)) : io_result unit * list (option io_error) :=
  match os with
  | Some e :: rest => (IoErr e, rest)
  | None :: rest => (IoOk tt, rest)
  | [] => (IoOk tt, [])
  end.

Definition shared_new : ReactorShared := mkShared false [] [] 0.

(** The first loop: a poll and a waker for every worker. *)
Fixpoint build_polls (n : nat) (os : list (option io_error)) :
    io_result (list ReactorShared) * list (option io_error) :=
  match n with
  | O => (IoOk [], os)
  | Datatypes.S n' =>
      match os_call os with
      | (IoErr e, os1) => (IoErr e, os1)
      | (IoOk _, os1) =>
          match os_call os1 with
          | (IoErr e, os2) => (IoErr e, os2)
          | (IoOk _, os2) =>
              match build_polls n' os2 with
              | (IoErr e, os3) => (IoErr e, os3)
              | (IoOk l, os3) => (IoOk (shared_new :: l), os3)
              end
          end
      end
  end.

(** The second loop, over worker indices: the listener goes to the first, the
    factory ([FnMut]) makes a handler for each. *)
Fixpoint build_reactors (factory : F -> H * F) (f : F) (listener_slot : option L) (limit : nat)
    (index : nat) (shareds : list ReactorShared) : list (Reactor S T H L) :=
  match shareds with
  | [] => []
  | _ :: rest =>
      let '(h, f') := factory f in
      mkReactor (if decide (index = 0) then listener_slot else None) ∅ h FIRST_CONNECTION_TOKEN 1 0 limit []
      :: build_reactors factory f' (if decide (index = 0) then None else listener_slot) limit
           (Datatypes.S index) rest
  end.

(** A pool: its reactors, their shared sides ([peers] of each), its address. *)
Record Pool : Type := mkPool {
  reactors : list (Reactor S T H L);
  peers : list ReactorShared;
  address : A;
}.

(** [bind] is [TcpListener::bind], [local_addr] the listener's. *)
Definition build_pool (n limit : nat) (factory : F -> H * F) (f : F)
    (bind : io_result L) (local_addr : L -> io_result A) (os : list (option io_error)) :
    io_result Pool :=
  match build_polls (n `max` 1) os with
  | (IoErr e, _) => IoErr e
  | (IoOk shareds, os1) =>
      match bind with
      | IoErr e => IoErr e
      | IoOk l =>
          match local_addr l with
          | IoErr e => IoErr e
          | IoOk a =>
              match os_call os1 with
              | (IoErr e, _) => IoErr e
              | (IoOk _, _) => IoOk (mkPool (build_reactors factory f (Some l) limit 0 shareds) shareds a)
              end
          end
      end
  end.

(** The state in which worker [i] of a pool starts [run], before anyone else
    has acted. *)
Definition worker_world (p : Pool) (i : nat) : option (World S T H L) :=
  match reactors p !! i, peers p !! i with
  | Some r, Some sh =>
      Some (mkWorld r (mkHub ∅ sh ∅ []) (replicate (length (peers p)) []) [] ∅ [] 0 [] [])
  | _, _ => None
  end.
End pool.
Arguments Pool : clear implicits.

(** [TcpHost::bind] and [TlsHost::bind]: the pool over the host's transport. *)
Definition tcp_bind {S H L A F} (o : HostOptions) (factory : F -> H * F) (f : F)
    (bind : io_result L) (local_addr : L -> io_result A) (os : list (option io_error)) :
    io_result (Pool S TcpTransport H L A) :=
  build_pool (worker_count o) (opt_max_pending_send o) factory f bind local_addr os.

Definition tls_bind {C S H L A F} (o : HostOptions) (factory : F -> H * F) (f : F)
    (bind : io_result L) (local_addr : L -> io_result A) (os : list (option io_error)) :
    io_result (Pool S (TlsTransport C) H L A) :=
  build_pool (worker_count o) (opt_max_pending_send o) factory f bind local_addr os.

Definition local_address {S T H L A} (p : Pool S T H L A) : A := address p.

(** ** [HostShutdown] *)
Record HostShutdown : Type := mkHostShutdown { workers : list ReactorShared }.

(** One worker: the store, then the wake. *)
Definition stop_worker (sh : ReactorShared) : ReactorShared := wake (store_stopped sh).

Definition shutdown_handle {S T H L A} (p : Pool S T H L A) : HostShutdown := mkHostShutdown (peers p).
Definition shutdown (h : HostShutdown) : HostShutdown := mkHostShutdown (stop_worker <$> workers h).

(** [TlsHost]: the same over its own transport. *)
Definition tls_local_address {C S H L A} (p : Pool S (TlsTransport C) H L A) : A := address p.
Definition tls_shutdown_handle {C S H L A} (p : Pool S (TlsTransport C) H L A) : HostShutdown :=
  mkHostShutdown (peers p).

(** ** [run_reactors] *)

(** How a worker's thread has ended, if it has. *)
Inductive thread_end : Type := ThreadOk | ThreadErr (e : io_error) | ThreadPanicked.

(** The joins, in the order of the workers; [None] is a join that does not
    return yet. *)
Fixpoint run_reactors (handles : list (option thread_end)) : option (io_result unit) :=
  match handles with
  | [] => Some (IoOk tt)
  | None :: _ => None
  | Some ThreadOk :: rest => run_reactors rest
  | Some (ThreadErr e) :: _ => Some (IoErr e)
  | Some ThreadPanicked :: _ => Some (IoErr OtherError)
  end.

(** What the thread of a worker ends with. *)
Definition thread_result {X : Type} (r : flow run_end * X) : option thread_end :=
  match r.1 with
  | Go Returned => Some ThreadOk
  | Go Waiting => None
  | Err e => Some (ThreadErr e)
  | Unwound _ => Some ThreadPanicked
  | Stuck => None
  end.

(** [TcpHost::run] and [TlsHost::run]: the joins, for what the workers' [run]s
    have come to. *)
Definition tcp_run {X : Type} (runs : list (flow run_end * X)) : option (io_result unit) :=
  run_reactors (thread_result <$> runs).
Definition tls_run {X : Type} (runs : list (flow run_end * X)) : option (io_result unit) :=
  run_reactors (thread_result <$> runs).

(** ** Lemmas *)
Section lemmas.
Context {S T H L A F : Type}.

Lemma build_polls_new n : forall os l os', build_polls n os = (IoOk l, os') -> l = replicate n shared_new.
Proof.
  induction n as [|n IH]; intros os l os' Hb; cbn in Hb; [by simplify_eq|].
  destruct (os_call os) as [[|] os1]; [|done]. destruct (os_call os1) as [[|] os2]; [|done].
  destruct (build_polls n os2) as [[l'|] os3] eqn:E; [|done]. simplify_eq. cbn. by rewrite (IH _ _ _ E).
Qed.

(** Every reactor starts alike; only a worker of index 0 gets the listener. *)
Lemma build_reactors_lookup (factory : F -> H * F) limit shareds : forall f (slot : option L) index i r,
  build_reactors (S := S) (T := T) factory f slot limit index shareds !! i = Some r ->
  connections r = ∅ /\ next_token r = FIRST_CONNECTION_TOKEN /\ next_session_id r = 1%Z
  /\ next_worker r = 0 /\ max_pending_send r = limit /\ read_buf r = []
  /\ listener r = if decide (index + i = 0) then slot else None.
Proof.
  induction shareds as [|sh shareds IH]; intros f slot index i r Hi; [done|]. cbn in Hi.
  destruct (factory f) as [h f']. destruct i as [|i]; cbn in Hi.
  - simplify_eq/=. rewrite Nat.add_0_r. by split_and!.
  - destruct (IH _ _ _ _ _ Hi) as (? & ? & ? & ? & ? & ? & Hl). split_and!; try done.
    rewrite Hl, !decide_False by lia. done.
Qed.

Lemma length_build_reactors (factory : F -> H * F) limit shareds : forall f (slot : option L) index,
  length (build_reactors (S := S) (T := T) factory f slot limit index shareds) = length shareds.
Proof.
  induction shareds as [|sh shareds IH]; intros f slot index; [done|]. cbn.
  destruct (factory f) as [h f']. cbn. by rewrite IH.
Qed.

(** A pool that was built: its reactors, and the world each worker starts in. *)
Lemma build_pool_parts n limit (factory : F -> H * F) f bind (local_addr : L -> io_result A) os p :
  build_pool (S := S) (T := T) n limit factory f bind local_addr os = IoOk p ->
  exists l, reactors p = build_reactors factory f (Some l) limit 0 (peers p)
    /\ peers p = replicate (n `max` 1) shared_new.
Proof.
  unfold build_pool. intros Hp. destruct (build_polls (n `max` 1) os) as [[shareds|] os1] eqn:Hb; [|done].
  apply build_polls_new in Hb. subst shareds. destruct bind as [l|]; [|done].
  destruct (local_addr l) as [a|]; [|done]. destruct (os_call os1) as [[|] os2]; [|done].
  simplify_eq/=. by exists l.
Qed.

Lemma worker_starts n limit (factory : F -> H * F) f bind (local_addr : L -> io_result A) os p i w :
  build_pool (S := S) (T := T) n limit factory f bind local_addr os = IoOk p ->
  worker_world p i = Some w ->
  fresh_worker w /\ length (inboxes w) = n `max` 1 /\ next_worker (reactor w) = 0
  /\ max_pending_send (reactor w) = limit /\ (is_Some (listener (reactor w)) <-> i = 0)
  /\ hub w = mkHub ∅ shared_new ∅ [] /\ answers w = [].
Proof.
  intros (l & Hr & Hp)%build_pool_parts. unfold worker_world. rewrite Hr, Hp.
  destruct (build_reactors _ _ _ _ _ _ !! i) as [r|] eqn:Hi; [|done].
  destruct (replicate _ _ !! i) as [sh|] eqn:Hsh; [|done]. intros [= <-]. cbn.
  apply lookup_replicate in Hsh as [-> _].
  destruct (build_reactors_lookup _ _ _ _ _ _ _ _ Hi) as (Hc & Ht & Hid & Hnw & Hm & _ & Hl).
  rewrite !length_replicate, Hl. split_and!; try done.
  destruct i as [|i]; cbn; split; [done|by eexists|by intros []|done].
Qed.

(** C35.  A host that binds has a sound pool: at least one worker even when none
    was asked for, the listener with worker 0 alone, and every worker starts
    [run] with empty tables, the host's buffer limit, nothing queued, and a turn
    that is the index of a worker, which is what the reactor's guarantees assume. *)
Theorem build_pool_sound n limit (factory : F -> H * F) f bind (local_addr : L -> io_result A) os p :
  build_pool (S := S) (T := T) n limit factory f bind local_addr os = IoOk p ->
  length (reactors p) = n `max` 1 /\ length (peers p) = n `max` 1
  /\ forall i, i < n `max` 1 -> exists w, worker_world p i = Some w /\ fresh_worker w
     /\ length (inboxes w) = n `max` 1 /\ next_worker (reactor w) < length (inboxes w)
     /\ max_pending_send (reactor w) = limit
     /\ (is_Some (listener (reactor w)) <-> i = 0)
     /\ shared (hub w) = shared_new /\ answers w = [].
Proof.
  intros Hp. destruct (build_pool_parts _ _ _ _ _ _ _ _ Hp) as (l & Hr & Hps).
  rewrite Hr, length_build_reactors, Hps, length_replicate. split_and!; [done..|]. intros i Hi.
  assert (exists w, worker_world p i = Some w) as [w Hw].
  { unfold worker_world. destruct (lookup_lt_is_Some_2 (reactors p) i) as [r ->];
      [by rewrite Hr, length_build_reactors, Hps, length_replicate|].
    rewrite Hps, lookup_replicate_2 by done. eauto. }
  destruct (worker_starts _ _ _ _ _ _ _ _ _ _ Hp Hw) as (? & Hlen & Hn & ? & ? & Hh & ?).
  exists w. rewrite Hlen, Hn, Hh. split_and!; try done. lia.
Qed.

(** Waiting for a host: [run] answers [Ok] exactly when every worker's
    thread has ended with [Ok], and otherwise the failure of the first worker, in
    their order, that did not; as long as an earlier worker runs, [run] does not
    return, whatever has become of the later ones. *)
Theorem run_reactors_spec (handles : list (option thread_end)) :
  exists k, Forall (fun r => r = Some ThreadOk) (take k handles)
    /\ match handles !! k with
       | None => length handles <= k /\ run_reactors handles = Some (IoOk tt)
       | Some None => run_reactors handles = None
       | Some (Some (ThreadErr e)) => run_reactors handles = Some (IoErr e)
       | Some (Some ThreadPanicked) => run_reactors handles = Some (IoErr OtherError)
       | Some (Some ThreadOk) => False
       end.
Proof.
  induction handles as [|[[| |]|] handles (k & Hf & Hk)]; [by exists 0|..].
  - exists (Datatypes.S k). split; [by constructor|]. cbn.
    destruct (handles !! k) as [[[| |]|]|]; try done. destruct Hk. split; [lia|done].
  - by exists 0.
  - by exists 0.
  - by exists 0.
Qed.

(** [shutdown] reaches every worker: each is stopped, its poll is woken
    after that, and from then on every [send] on its sessions is refused. *)
Theorem shutdown_stops_all (hs : HostShutdown) i sh :
  workers hs !! i = Some sh -> exists sh', workers (shutdown hs) !! i = Some sh'
    /\ stopped sh' = true /\ wakes sh < wakes sh'
    /\ pending_writes sh' = pending_writes sh /\ pending_closes sh' = pending_closes sh
    /\ forall s bs, send bs (s, sh') = (Disposed, (s, sh')).
Proof.
  intros Hi. exists (stop_worker sh). cbn. rewrite list_lookup_fmap, Hi.
  split_and!; try done; [cbn; lia|]. intros s bs. unfold send. cbn. by rewrite orb_true_r.
Qed.
End lemmas.

(** ** Witness: a host asked for no worker gets one *)
Definition demo_factory (n : nat) : nat * nat := (n, S n).
Definition demo_bound : io_result (Pool unit TcpTransport nat nat nat) :=
  tcp_bind (with_max_pending_send 64 (mkHostOptions 0 1)) demo_factory 5 (IoOk 80) (fun l => IoOk l) [].

Lemma build_pool_sound_witness :
  exists p, demo_bound = IoOk p /\ length (reactors p) = 1 /\ local_address p = 80
    /\ exists w, worker_world p 0 = Some w /\ fresh_worker w.
Proof.
  eexists. split; [reflexivity|].
  destruct (build_pool_sound (S := unit) (T := TcpTransport) 0 64 demo_factory 5 (IoOk 80)
    (fun l => IoOk l) [] _ eq_refl) as (Hl & _ & Hw).
  destruct (Hw 0 ltac:(cbn; lia)) as (w & H & Hf & _).
  split; [exact Hl|]. split; [reflexivity|]. exists w. exact (conj H Hf).
Defined.
