(* ===== verification/Echo.v ===== *)
(** The echo server ([dignus-actor-network/examples/tcp_echo.rs]): a handler that
    sends back what it is given, on the workers of a TCP host.  Its sessions
    never leave the reactor thread, so no other thread calls on them; the other
    threads stop the host, wake it and hand connections over. *)
From S2P Require Import Prelude Codec NetSend SessionCalls Transports.
From S2P Require Import Reactor ReactorLogic ReactorInvariant ReactorTheorems ReactorDemo Hosts.
Local Open Scope nat_scope.

(** ** The program *)
Inductive Echo : Type := mkEcho.

#[export] Instance echo_handler : HostHandler Echo := {
  on_accepted := default_on_accepted;
  on_data h tok _ data := HSend tok data (fun _ => HDone h);
  on_disconnected := default_on_disconnected;
}.

(** [main] up to [host.run()], for any options. *)
Definition echo_host {S L A} (o : HostOptions) (bind : io_result L) (local_addr : L -> io_result A)
    (os : list (option io_error)) : io_result (Pool S TcpTransport Echo L A) :=
  tcp_bind o (fun u : unit => (mkEcho, u)) tt bind local_addr os.

Definition echo_main {S L A} (available_parallelism : option nat) (bind : io_result L)
    (local_addr : L -> io_result A) (os : list (option io_error)) : io_result (Pool S TcpTransport Echo L A) :=
  echo_host (with_worker_count 2 (default_host_options available_parallelism)) bind local_addr os.

(** ** What is said of a connection *)

(** The appends of a session, and the data the handler was given for it, piece
    by piece. *)
Definition chunks_of (tok : Z) (l : list (Z * bytes)) : list bytes :=
  omap (fun e => if decide (e.1 = tok) then Some e.2 else None) l.

Definition data_of (tok : Z) (l : list hev) : list bytes :=
  omap (fun e => match e with
                 | Data t bs => if decide (t = tok) then Some bs else None
                 | _ => None
                 end) l.

Lemma chunks_bytes tok l : bytes_of tok l = concat (chunks_of tok l).
Proof. done. Qed.

Lemma data_received tok l : received tok l = concat (data_of tok l).
Proof. done. Qed.

Lemma data_of_snoc tok t data lg :
  data_of tok (lg ++ [Data t data]) = data_of tok lg ++ if decide (t = tok) then [data] else [].
Proof. unfold data_of. rewrite omap_app. cbn. by case_decide. Qed.

Lemma chunks_of_snoc tok t data l :
  chunks_of tok (l ++ [(t, data)]) = chunks_of tok l ++ if decide (t = tok) then [data] else [].
Proof. unfold chunks_of. rewrite omap_app. cbn. by case_decide. Qed.

Lemma received_one tok t data : received tok [Data t data] = if decide (t = tok) then data else [].
Proof. unfold received. cbn. case_decide; [|done]. cbn. by rewrite app_nil_r. Qed.

(** Every piece was appended whole or not at all, in the order of arrival; and
    while the host is not stopped, as long as no more has come in than the send
    buffer may hold, all of it was. *)
Record echo_ok (lim : nat) (h : Hub) (lg : list hev) : Prop := {
  eo_pieces : forall tok, chunks_of tok (appended h) `sublist_of` data_of tok lg;
  eo_buffer : forall tok s, sessions h !! tok = Some s ->
    buffer_wf (outbound s) /\ max_pending (outbound s) = lim
    /\ length (pending_slice (outbound s)) <= length (bytes_of tok (appended h));
  eo_all : stopped (shared h) = false -> forall tok, length (received tok lg) <= lim ->
    bytes_of tok (appended h) = received tok lg;
}.

Lemma echo_ok_data_same lim h lg lg' :
  (forall tok, data_of tok lg' = data_of tok lg) -> echo_ok lim h lg -> echo_ok lim h lg'.
Proof.
  intros E O. split.
  - intros tok. rewrite E. apply O.
  - apply O.
  - intros Hs tok. rewrite data_received, E. by apply (eo_all _ _ _ O).
Qed.

Lemma echo_ok_hub lim h h' lg :
  appended h' = appended h -> (stopped (shared h') = false -> stopped (shared h) = false) ->
  (forall tok s', sessions h' !! tok = Some s' -> buffer_wf (outbound s') /\ max_pending (outbound s') = lim
     /\ (pending_slice (outbound s') = [] \/ exists s, sessions h !! tok = Some s
         /\ length (pending_slice (outbound s')) <= length (pending_slice (outbound s)))) ->
  echo_ok lim h lg -> echo_ok lim h' lg.
Proof.
  intros Ha Hst Hss O. split; rewrite ?Ha.
  - apply O.
  - intros tok s' Hs'. destruct (Hss tok s' Hs') as (? & ? & Hp). split_and!; [done..|].
    destruct Hp as [->|(s & Hs & Hl)]; [cbn; lia|].
    destruct (eo_buffer _ _ _ O tok s Hs) as (_ & _ & ?). lia.
  - intros Hs. apply (eo_all _ _ _ O). by apply Hst.
Qed.

Lemma echo_ok_same lim h h' lg :
  sessions h' = sessions h -> appended h' = appended h ->
  (stopped (shared h') = false -> stopped (shared h) = false) ->
  echo_ok lim h lg -> echo_ok lim h' lg.
Proof.
  intros Hs Ha Hst O. eapply echo_ok_hub; [done..| |exact O]. intros tok s'. rewrite Hs. intros Hss.
  destruct (eo_buffer _ _ _ O tok s' Hss) as (? & ? & _). split_and!; [done..|]. right. eauto.
Qed.

(** A piece is appended. *)
Lemma echo_ok_append lim h lg tok data s :
  sessions h !! tok = Some s -> echo_ok lim h lg ->
  echo_ok lim (mkHub (<[tok := set_outbound s (append data (outbound s))]> (sessions h)) (shared h)
    (callers h) (appended h ++ [(tok, data)])) (lg ++ [Data tok data]).
Proof.
  intros Hs O. split; cbn [sessions shared appended].
  - intros t. rewrite chunks_of_snoc, data_of_snoc. apply sublist_app; [apply O|done].
  - intros t s'. rewrite bytes_of_app, bytes_of_one, length_app.
    destruct (decide (tok = t)) as [<-|Hne].
    + rewrite lookup_insert_eq. intros [= <-]. destruct (eo_buffer _ _ _ O tok s Hs) as (Hwf & Hmax & Hl).
      destruct (append_pending data _ Hwf) as [Hwf' Hp]. unfold set_outbound. cbn [outbound].
      rewrite Hp, length_app. split_and!; [done|done|lia].
    + rewrite lookup_insert_ne by done. intros Ht. destruct (eo_buffer _ _ _ O t s' Ht) as (? & ? & ?).
      split_and!; [done..|lia].
  - intros Hst t. rewrite received_app, bytes_of_app, bytes_of_one, length_app. intros Hl.
    rewrite (eo_all _ _ _ O Hst t) by lia. by rewrite received_one.
Qed.

(** A piece is refused. *)
Lemma echo_ok_refuse lim h lg tok data :
  (stopped (shared h) = false -> lim < length (received tok (lg ++ [Data tok data]))) ->
  echo_ok lim h lg -> echo_ok lim h (lg ++ [Data tok data]).
Proof.
  intros Hr O. split.
  - intros t. rewrite data_of_snoc. apply sublist_inserts_r, O.
  - apply O.
  - intros Hst t Hl. destruct (decide (tok = t)) as [<-|Hne]; [specialize (Hr Hst); lia|].
    assert (received t (lg ++ [Data tok data]) = received t lg) as E
      by (rewrite !data_received, data_of_snoc, decide_False by done; by rewrite app_nil_r).
    rewrite E in *. by apply (eo_all _ _ _ O).
Qed.

(** A full buffer refuses only when more has come in than it may hold. *)
Lemma echo_ok_full lim h lg tok data s :
  sessions h !! tok = Some s -> can_write (outbound s) (length data) = false ->
  echo_ok lim h lg -> echo_ok lim h (lg ++ [Data tok data]).
Proof.
  intros Hs Hc O. apply echo_ok_refuse; [|done]. intros Hst.
  destruct (eo_buffer _ _ _ O tok s Hs) as (_ & Hmax & Hp).
  assert (~ (length (pending_slice (outbound s)) + length data <= max_pending (outbound s))) as Hn
    by (rewrite <- can_write_spec; congruence).
  rewrite received_app, received_one, decide_True, length_app by done.
  destruct (decide (length (received tok lg) <= lim)) as [Hl|]; [|lia].
  rewrite <- (eo_all _ _ _ O Hst tok Hl). lia.
Qed.

(** ** Other threads that call on no session *)
Definition hands_off {S} (x : ext S) : Prop :=
  match x with XSend _ _ _ | XClose _ _ => False | _ => True end.

Section echo.
Context {S T L : Type}.
Context `{!Transport T S} `{!TransportLaws T S} `{!TransportFactory T} `{!Listener L S}.
Variables (me fuel : nat).
Notation world := (World S T Echo L).
Notation any := (fun _ : world => True).
Notation unbased := (fun _ : Z => @None ((bytes * bytes) * (bytes * bytes))).

Definition alone (w : world) : Prop :=
  Forall (Forall hands_off) (schedule w) /\ forall tid, callers (hub w) !! Datatypes.S tid = None.

(** What such threads leave as it is. *)
Record untouched (w w' : world) : Prop := {
  un_reactor : reactor w' = reactor w;
  un_log : log w' = log w;
  un_sessions : sessions (hub w') = sessions (hub w);
  un_appended : appended (hub w') = appended (hub w);
  un_callers : callers (hub w') = callers (hub w);
  un_stopped : stopped (shared (hub w')) = false -> stopped (shared (hub w)) = false;
}.

Lemma ext_step_schedule x (w : world) : schedule (ext_step me x w) = schedule w.
Proof. destruct x; cbn [ext_step]; try done; by case_match. Qed.

Lemma others_schedule (w : world) : schedule (others me w) = tail (schedule w).
Proof.
  destruct (schedule w) as [|xs rest] eqn:E; [by rewrite others_nil|]. rewrite (others_cons _ _ _ _ E).
  cbn [tail]. assert (schedule (set_schedule rest w) = rest) as Hr by done. revert Hr. clear E.
  generalize (set_schedule rest w). induction xs as [|x xs IH]; intros w0 E; [done|].
  cbn. apply IH. by rewrite ext_step_schedule.
Qed.

Lemma ext_step_untouched x (w : world) :
  hands_off x -> (forall tid, callers (hub w) !! Datatypes.S tid = None) -> untouched w (ext_step me x w).
Proof.
  intros Hx Hc. destruct x; cbn [ext_step]; try done.
  - assert (thread_step (Datatypes.S tid) (hub w) = (None, hub w)) as E by (unfold thread_step; by rewrite Hc).
    split; cbn; by rewrite ?E.
  - by case_decide.
Qed.

Lemma untouched_trans w1 w2 w3 : untouched w1 w2 -> untouched w2 w3 -> untouched w1 w3.
Proof. intros [] []. split; try congruence. auto. Qed.

Lemma others_untouched w : alone w -> untouched w (others me w) /\ alone (others me w).
Proof.
  intros [Hs Hc].
  assert (untouched w (others me w)) as HU.
  { apply (others_keep_only me hands_off (untouched w)); [by intros l w' []| |done|done].
    intros x w' Hx HU. eapply untouched_trans; [exact HU|]. apply ext_step_untouched; [done|].
    by rewrite (un_callers _ _ HU). }
  split; [done|]. split; [|by rewrite (un_callers _ _ HU)].
  rewrite others_schedule. by destruct Hs.
Qed.

(** ** The invariant *)
(** What is certain of the moments after [since]. *)
Variable since : world.

Definition later (w : world) : Prop :=
  (stopped (shared (hub w)) = false -> stopped (shared (hub since)) = false)
  /\ (next_token (reactor since) <= next_token (reactor w))%Z
  /\ max_pending_send (reactor w) = max_pending_send (reactor since).

Lemma later_untouched w w' : untouched w w' -> later w -> later w'.
Proof. intros U (Hs & Hn & Hm). unfold later. rewrite (un_reactor _ _ U). split; [|done]. intros H. by apply Hs, U. Qed.

Definition Echoing (w : world) : Prop :=
  alone w /\ later w /\ (small w -> echo_ok (max_pending_send (reactor w)) (hub w) (log w)).

Lemma Echoing_untouched w w' : untouched w w' -> alone w' -> Echoing w -> Echoing w'.
Proof.
  intros U Ha (_ & Hr & HE). split; [done|]. split; [by eapply later_untouched|]. unfold small. rewrite (un_reactor _ _ U), (un_log _ _ U). intros Hs.
  eapply echo_ok_same; [apply U..|]. by apply HE.
Qed.

Lemma Echoing_others w : Echoing w -> Echoing (others me w).
Proof. intros HE. destruct (others_untouched w (proj1 HE)). by apply (Echoing_untouched w). Qed.

(** The reactor thread inside the handler's [send]: until the append, the last
    piece is still to be dealt with. *)
Definition sending (lim : nat) (lg : list hev) (tok : Z) (data : bytes) (h : Hub) : Prop :=
  (exists s, sessions h !! tok = Some s /\ disposed s = false)
  /\ match callers h !! 0 with
     | Some (SendDisposed t b) | Some (SendStopped t b) | Some (SendAppend t b) =>
         t = tok /\ b = data /\ echo_ok lim h lg
     | Some (SendPush _) | Some (SendWake _) | None => echo_ok lim h (lg ++ [Data tok data])
     | _ => False
     end.

Lemma sending_step lim lg tok data h r h' :
  thread_step 0 h = (r, h') -> sending lim lg tok data h -> sending lim lg tok data h'.
Proof.
  intros Ht [(s & Hs & Hd) HO]. unfold thread_step in Ht.
  destruct (callers h !! 0) as [pc|] eqn:Hpc; [|simplify_eq; split; [eauto|by rewrite Hpc]].
  destruct pc as [t b|t b|t b|t|t|t|t|t|t]; cbn in Ht; try done;
    try (destruct HO as (-> & -> & HO)).
  - unfold is_disposed in Ht. rewrite Hs, Hd in Ht. simplify_eq. split; [by eauto|]. cbn. rewrite lookup_insert_eq.
    split_and!; [done..|]. by apply (echo_ok_same _ h).
  - destruct (stopped (shared h)) eqn:Hst; simplify_eq; (split; [by eauto|]); cbn.
    + rewrite lookup_delete_eq. apply echo_ok_refuse; [cbn; congruence|by apply (echo_ok_same _ h)].
    + rewrite lookup_insert_eq. split_and!; [done..|]. by apply (echo_ok_same _ h).
  - rewrite Hs in Ht. destruct (can_write (outbound s) (length data)) eqn:Hc; simplify_eq; split; cbn.
    + rewrite lookup_insert_eq. eauto.
    + rewrite lookup_insert_eq. eapply echo_ok_same; [..|by apply (echo_ok_append lim h lg tok data s)]; done.
    + eauto.
    + rewrite lookup_delete_eq. apply (echo_ok_full _ _ _ _ _ s); [done..|]. by apply (echo_ok_same _ h).
  - simplify_eq. split; [by eauto|]. cbn. rewrite lookup_insert_eq. by apply (echo_ok_same _ h).
  - simplify_eq. split; [by eauto|]. cbn. rewrite lookup_delete_eq. by apply (echo_ok_same _ h).
Qed.

Lemma thread_step_stopped tid h r h' : thread_step tid h = (r, h') -> stopped (shared h') = stopped (shared h).
Proof.
  unfold thread_step. intros Ht. destruct (callers h !! tid) as [pc|]; [|by simplify_eq].
  destruct (call_step pc h) as [x h1] eqn:Hc.
  assert (stopped (shared h1) = stopped (shared h)) as <-
    by (destruct pc; cbn in Hc; repeat case_match; by simplify_eq).
  destruct x; by simplify_eq.
Qed.

(** The handler's call for data of [tok], with the session filed under [key]. *)
Lemma wp_echo tok key data w :
  alone w -> later w -> callers (hub w) !! 0 = None ->
  (small w -> key = tok /\ (exists s, sessions (hub w) !! tok = Some s /\ disposed s = false)
     /\ echo_ok (max_pending_send (reactor w)) (hub w) (log w)) ->
  wp any (call_handler me (Data tok data) (fun h => HSend key data (fun _ => HDone h)))
    (fun _ => Echoing) w.
Proof.
  intros Ha Hrun Hi HO. apply wp_bind, wp_gets, wp_bind, wp_modify. cbn [run_hprog]. unfold call.
  apply wp_bind, wp_bind, wp_modify. set (lim := max_pending_send (reactor w)) in *.
  set (I := fun w' : world => (alone w' /\ later w') /\ reactor w' = reactor w /\ log w' = log w ++ [Data tok data]
    /\ (small w -> sending lim (log w) tok data (hub w'))).
  eapply wp_mono; [apply (wp_run_call_turns any me I CALL_STEPS (SendDisposed key data))|].
  - intros w' ([Ha' Hru] & Hr & Hl & Hs). destruct (others_untouched w' Ha') as [U Ha1].
    split_and!; [done|by eapply later_untouched|by rewrite (un_reactor _ _ U)|by rewrite (un_log _ _ U)|].
    intros Hsm. destruct (Hs Hsm) as [Hx Hy]. unfold sending. rewrite (un_sessions _ _ U), (un_callers _ _ U).
    split; [done|]. assert (forall lg, echo_ok lim (hub w') lg -> echo_ok lim (hub (others me w')) lg) as Hok
      by (intros lg; apply echo_ok_same; apply U).
    repeat case_match; naive_solver.
  - intros w' r h ([Ha' Hru] & Hr & Hl & Hs) Ht. split_and!; try done.
    + split; [apply Ha'|]. intros tid. cbn. unfold thread_step in Ht.
      destruct (callers (hub w') !! 0); [|simplify_eq; apply Ha'].
      destruct (call_step _ _) as [[|] h1] eqn:Hc; simplify_eq; cbn;
        rewrite ?lookup_insert_ne, ?lookup_delete_ne, (call_step_callers _ _ _ _ Hc) by done; apply Ha'.
    + destruct Hru as [Hru ?]. split; [|done]. cbn. by rewrite (thread_step_stopped _ _ _ _ Ht).
    + intros Hsm. eapply sending_step; [exact Ht|by apply Hs].
  - split_and!; try done.
    + split; [apply Ha|]. intros tid. cbn. rewrite lookup_insert_ne by done. apply Ha.
    + intros Hsm. destruct (HO Hsm) as (-> & Hx & Hy). split; [done|]. cbn. rewrite lookup_insert_eq.
      split_and!; [done..|]. by apply (echo_ok_same _ (hub w)).
  - cbn. by rewrite lookup_insert_eq.
  - done.
  - intros r w' [([Ha' Hru] & Hr & Hl & Hs) Hnone]. cbn [run_hprog]. apply wp_modify. split; [done|].
    split; [done|].
    unfold small. cbn. rewrite Hr, Hl. intros Hsm. destruct (Hs Hsm) as [_ Hy]. by rewrite Hnone in Hy.
Qed.

(** The other two methods do nothing. *)
Lemma wp_default e w : wp any (call_handler me e HDone) (fun _ w' => w' = add_log e w) w.
Proof.
  apply wp_bind, wp_gets, wp_bind, wp_modify. cbn [run_hprog]. apply wp_modify. by destruct w as [[]].
Qed.

Lemma wp_interfere_echoing (Q : unit -> world -> Prop) w :
  Echoing w -> (forall w', Echoing w' -> reactor w' = reactor w -> Q tt w') -> wp any (interfere me) Q w.
Proof.
  intros HE HQ. apply wp_others, HQ; [by apply Echoing_others|]. by apply others_untouched, HE.
Qed.

Lemma wp_close_echoing tok w : Echoing w -> wp any (close me tok) (fun _ => Echoing) w.
Proof.
  intros HE. apply wp_bind, wp_interfere_echoing; [done|]. intros w1 (Ha & Hrun & HO) _. apply wp_bind, wp_gets.
  destruct (connections (reactor w1) !! tok) as [c|]; [|done].
  apply wp_bind, wp_modify, wp_bind, wp_gets. cbn [hub on_reactor].
  destruct (sessions (hub w1) !! session c) as [s|] eqn:Hs; [|done].
  apply wp_bind, wp_modify, wp_bind, wp_modify.
  eapply wp_mono; [apply wp_default|]. intros u w' ->. split; [done|]. split; [done|]. intros Hsm. cbn.
  apply (echo_ok_data_same _ _ (log w1)); [intros t; unfold data_of; rewrite omap_app; apply app_nil_r|].
  specialize (HO Hsm). eapply echo_ok_hub; [..|exact HO]; [done..|]. cbn. intros t s'.
  destruct (decide (t = session c)) as [->|Hne].
  - rewrite lookup_insert_eq. intros [= <-]. destruct (eo_buffer _ _ _ HO _ s Hs) as (? & ? & _).
    split_and!; [done..|]. right. eauto.
  - rewrite lookup_insert_ne by done. intros Ht. destruct (eo_buffer _ _ _ HO _ s' Ht) as (? & ? & _).
    split_and!; [done..|]. right. eauto.
Qed.
Lemma wp_flush_echoing tok w : Echoing w -> wp any (flush me fuel tok) (fun _ => Echoing) w.
Proof.
  intros HE. apply wp_bind, wp_gets. destruct (connections (reactor w) !! tok) as [c|] eqn:Hc; [|done].
  apply wp_bind, wp_interfere_echoing; [done|]. clear HE. intros w1 (Ha & Hrun & HO) _.
  apply wp_bind. unfold wp at 1, write_locked.
  destruct (sessions (hub w1) !! session c) as [s|] eqn:Hs; [|done].
  destruct (t_write fuel _ _ _) as [[[[o t'] st'] b']|] eqn:Hw; [|done].
  set (w2 := on_reactor _ _).
  assert (Echoing w2) as H2.
  { split; [done|]. split; [done|]. intros Hsm. specialize (HO Hsm). cbn.
    eapply echo_ok_hub; [..|exact HO]; [done..|]. cbn. intros t s'.
    destruct (decide (t = session c)) as [->|Hne].
    - rewrite lookup_insert_eq. intros [= <-]. destruct (eo_buffer _ _ _ HO _ s Hs) as (Hwf & Hmax & _).
      destruct (t_write_law _ _ _ _ _ _ _ _ Hw Hwf) as (? & Hm & _ & _ & ?). cbn.
      split_and!; [done|congruence|]. right. eauto.
    - rewrite lookup_insert_ne by done. intros Ht. destruct (eo_buffer _ _ _ HO _ s' Ht) as (? & ? & _).
      split_and!; [done..|]. right. eauto. }
  destruct o; [|by apply wp_ret]. apply wp_bind. unfold reregister.
  eapply wp_mono with (Q := fun _ => Echoing); [|intros u w3 H3; by apply wp_ret].
  apply wp_bind, wp_answer; [intros [] l|]; (apply wp_modify || apply wp_ret); exact H2.
Qed.

Lemma wp_read_echoing tok w :
  Inv unbased w -> Echoing w -> wp any (read me fuel tok) (fun _ => Echoing) w.
Proof.
  intros [HT Hi] (Ha & Hrun & HO). unfold read. apply wp_bind, wp_modify, wp_bind, wp_gets.
  cbn [reactor on_reactor]. destruct (connections _ !! tok) as [c|] eqn:Hc; [|by apply wp_ret]. cbn in Hc.
  destruct (t_read fuel (transport c) (stream c) []) as [[[[o t'] st'] new]|] eqn:Hr; [|done].
  apply wp_bind, wp_modify, wp_bind, wp_gets. set (w1 := on_reactor _ (on_reactor _ w)).
  apply wp_bind. eapply wp_mono with (Q := fun _ => Echoing).
  2: { intros u w2 H2. apply wp_bind, wp_modify. destruct o; [by apply wp_flush_echoing|by apply wp_ret]. }
  destruct new as [|x new]; [by apply wp_ret|].
  apply wp_echo; [done..|]. intros Hsm.
  destruct (core_get _ _ _ _ _ _ _ _ _ (HT Hsm) Hc) as (Hsc & s & Hs & Hok).
  destruct Hok as (_ & _ & _ & _ & _ & Hd). rewrite Hc, bool_decide_eq_true_2 in Hd by eauto.
  split_and!; [done|by exists s|by apply HO].
Qed.

Lemma wp_take_one_echoing x w : Echoing w -> wp any (take_one me x) (fun _ => Echoing) w.
Proof.
  intros (Ha & Hrun & HO). unfold take_one. apply wp_bind, wp_gets, wp_bind, wp_modify.
  assert (small (on_reactor bump_token w) -> small w) as Hsmall by (unfold small; cbn; lia).
  apply wp_bind. eapply wp_mono with (Q := fun _ => same_core (on_reactor bump_token w)); [by apply wp_answer|].
  intros ok w2 (E1 & E2 & E3 & E4 & E5 & _ & E6 & E7).
  assert (alone w2) as Ha2 by (unfold alone; by rewrite E5, E6).
  assert (later w2) as Hrun2
    by (destruct Hrun as (? & ? & ?); unfold later; rewrite E3, E4, E5; cbn; split_and!; [done|lia|done]).
  assert (small w2 -> echo_ok (max_pending_send (reactor w2)) (hub w2) (log w2)) as HO2.
  { unfold small. rewrite E3, E4, E5, E7. intros Hs. by apply HO, Hsmall. }
  destruct ok; cbn [negb]; [|by apply wp_ret].
  apply wp_bind. unfold set_interest. apply wp_modify, wp_bind, wp_gets, wp_bind, wp_modify.
  destruct create as [t|msg|msg]; [|done..]. apply wp_bind, wp_modify.
  eapply wp_mono; [apply wp_default|]. intros u w' ->. split; [done|]. split; [done|]. intros Hsm. cbn.
  apply (echo_ok_data_same _ _ (log w2)); [intros t'; unfold data_of; rewrite omap_app; apply app_nil_r|].
  specialize (HO2 Hsm). eapply echo_ok_hub; [..|exact HO2]; [done..|]. cbn. intros t' s'.
  destruct (decide (t' = wrap_u64 (next_token (reactor w)))) as [->|Hne].
  - rewrite lookup_insert_eq. intros [= <-]. cbn. split_and!; [apply buffer_wf_new|done|by left].
  - rewrite lookup_insert_ne by done. intros Ht. destruct (eo_buffer _ _ _ HO2 _ s' Ht) as (? & ? & _).
    split_and!; [done..|]. right. eauto.
Qed.
Lemma Echoing_kept : kept me fuel (fun w => Inv unbased w /\ Echoing w).
Proof.
  pose proof (Inv_kept unbased me fuel (H := Echo) (L := L)) as K. split.
  - intros w w' Hsame [HI (Ha & Hrun & HE)]. split; [by eapply kept_same|].
    destruct Hsame as (_ & _ & E3 & E4 & E5 & _ & E6 & E7). unfold Echoing, alone, later, small.
    by rewrite E3, E4, E5, E6, E7.
  - intros w [HI HE]. split; [by apply (kept_others me fuel _ K)|by apply Echoing_others].
  - intros sh w Hst [HI (Ha & Hrun & HE)]. split; [by apply (kept_shared me fuel _ K)|].
    split; [done|]. unfold later. cbn. rewrite Hst. split; [done|]. intros Hs.
    eapply echo_ok_same; [..|by apply HE]; [done..|]. cbn. by rewrite Hst.
  - intros tok w [HI HE]. apply wp_conj; [by apply (kept_close me fuel _ K)|by apply wp_close_echoing].
  - intros tok w [HI HE]. apply wp_conj; [by apply (kept_flush me fuel _ K)|by apply wp_flush_echoing].
  - intros tok w [HI HE]. apply wp_conj; [by apply (kept_read me fuel _ K)|by apply wp_read_echoing].
  - intros x w [HI HE]. apply wp_conj; [by apply (kept_take me fuel _ K)|by apply wp_take_one_echoing].
Qed.
End echo.

(** ** The server *)
Section served.
Context {S T L : Type}.
Context `{!Transport T S} `{!TransportLaws T S} `{!TransportFactory T} `{!Listener L S}.
Variables (me fuel : nat) (keys : gmap Z (ManagedConnection S T) -> list Z).
Notation world := (World S T Echo L).
Notation run := (Reactor.run me fuel keys).
Notation unbased := (fun _ : Z => @None ((bytes * bytes) * (bytes * bytes))).

(** A worker of the program at its start, with what the other threads will do. *)
Record echo_worker (w : world) : Prop := {
  ew_fresh : fresh_worker w;
  ew_appended : appended (hub w) = [];
  ew_others : Forall (Forall hands_off) (schedule w);
}.

Lemma echo_start (w : world) :
  echo_worker w -> Inv unbased w /\ Echoing w w.
Proof.
  intros [Hf Ha Hs]. split; [apply fresh_Inv; [by intros tok []|done]|]. destruct Hf as [_ _ Hss Hc _ Hl].
  split; [split; [done|]; intros tid; by rewrite Hc|]. split; [done|]. intros _. rewrite Hl.
  split; rewrite ?Ha, ?Hss; try done.
Qed.

(** Whatever moment of a run one looks at. *)
Lemma echo_run since polls (w w' : world) r :
  Inv unbased w /\ Echoing since w -> run polls w = (Go r, w') -> Inv unbased w' /\ Echoing since w'.
Proof.
  intros HI Hr. exact (wp_elim _ (fun _ w => Inv unbased w /\ Echoing since w) _ _ _
    (wp_run me fuel _ (Echoing_kept me fuel since) keys polls w HI) Hr).
Qed.

Lemma Echoing_now since (w : world) : Echoing since w -> Echoing w w.
Proof. by intros (? & _ & ?). Qed.

(** Between two moments of a run. *)
Lemma echo_exchange polls polls' (w0 w w' : world) r tok c s c' s' :
  echo_worker w0 -> run polls w0 = (Go Waiting, w) -> run polls' w = (Go r, w') ->
  (next_token (reactor w') <= 2 ^ 64)%Z ->
  connections (reactor w) !! tok = Some c -> sessions (hub w) !! tok = Some s ->
  connections (reactor w') !! tok = Some c' -> sessions (hub w') !! tok = Some s' ->
  chunks_of tok (appended (hub w')) `sublist_of` data_of tok (log w')
  /\ (stopped (shared (hub w')) = false ->
      length (received tok (log w')) <= max_pending_send (reactor w') ->
      exists given, t_in (transport c') (stream c') = t_in (transport c) (stream c) ++ given
        /\ t_out (transport c') (stream c') ++ pending_slice (outbound s')
           = (t_out (transport c) (stream c) ++ pending_slice (outbound s)) ++ given).
Proof.
  intros Hw0 Hr0 Hr Hn Hc Hs Hc' Hs'.
  destruct (echo_run _ _ _ _ _ (echo_start _ Hw0) Hr0) as [HI HE]. apply Echoing_now in HE.
  destruct (echo_run _ _ _ _ _ (conj HI HE) Hr) as [HI' (_ & Hrun & HE')].
  specialize (HE' Hn). split; [apply HE'|]. intros Hst Hlen. destruct Hrun as (Hstw & Hnw & Hmax).
  assert (small w) as Hsm by (unfold small; lia). destruct HE as (_ & _ & HE). specialize (HE Hsm).
  destruct (ledgers_between me fuel keys polls' w r w' tok c s c' s') as [(given & Hg & Hin) (sent & Hse & Hout)];
    [by exists w0, polls; split; [apply Hw0|]|done..|].
  assert (sent = given) as ->.
  { pose proof (eo_all _ _ _ HE' Hst tok Hlen) as Heq'. rewrite Hse, Hg in Heq'.
    rewrite (eo_all _ _ _ HE (Hstw Hst) tok) in Heq'; [by simplify_list_eq|].
    rewrite <- Hmax. rewrite Hg, length_app in Hlen. lia. }
  by exists given.
Qed.
End served.

Section program.
Context {S L A : Type} `{!Socket S} `{!SocketLaws S} `{!Listener L S}.
Variables (fuel : nat) (keys : gmap Z (ManagedConnection S TcpTransport) -> list Z).
Notation world := (World S TcpTransport Echo L).

(** Worker [i] of the program starts with what the other threads will do and
    what the system will answer to its registrations. *)
Definition echo_starts (p : Pool S TcpTransport Echo L A) (i : nat) (sched : list (list (ext S)))
    (ans : list bool) : option world :=
  (fun w => set_answers ans (set_schedule sched w)) <$> worker_world p i.

Lemma echo_host_worker o bind local_addr os p i sched ans w :
  echo_host o bind local_addr os = IoOk p -> Forall (Forall hands_off) sched ->
  echo_starts p i sched ans = Some w -> echo_worker w /\ max_pending_send (reactor w) = opt_max_pending_send o.
Proof.
  intros Hp Hs Hw. unfold echo_starts in Hw. destruct (worker_world p i) as [w1|] eqn:Hw1; [|done].
  simplify_eq/=. destruct (worker_starts _ _ _ _ _ _ _ _ _ _ Hp Hw1) as ([] & _ & _ & ? & _ & Hh & _).
  split; [|done]. split; cbn; [by split|by rewrite Hh|done].
Qed.

(** C15.  The echo server echoes: at any moment of a run, what was queued for a
    connection is its incoming data, piece by piece in order of arrival, each
    piece whole or left out whole; and between two moments at which a connection
    is open, unless the host was stopped or more has come in than the send
    buffer may hold, the bytes its transport took and those still buffered grew
    by exactly the bytes its transport obtained. *)
Theorem echo_returns o bind local_addr os p i sched ans polls polls' (w0 w w' : world) r tok c s c' s' :
  echo_host o bind local_addr os = IoOk p -> Forall (Forall hands_off) sched ->
  echo_starts p i sched ans = Some w0 ->
  Reactor.run i fuel keys polls w0 = (Go Waiting, w) -> Reactor.run i fuel keys polls' w = (Go r, w') ->
  (next_token (reactor w') <= 2 ^ 64)%Z ->
  connections (reactor w) !! tok = Some c -> sessions (hub w) !! tok = Some s ->
  connections (reactor w') !! tok = Some c' -> sessions (hub w') !! tok = Some s' ->
  chunks_of tok (appended (hub w')) `sublist_of` data_of tok (log w')
  /\ (stopped (shared (hub w')) = false -> length (received tok (log w')) <= opt_max_pending_send o ->
      exists given, obtained (stream c') = obtained (stream c) ++ given
        /\ accepted (stream c') ++ pending_slice (outbound s')
           = (accepted (stream c) ++ pending_slice (outbound s)) ++ given).
Proof.
  intros Hp Hs Hw0 Hr Hr' Hn Hc Hss Hc' Hss'.
  destruct (echo_host_worker _ _ _ _ _ _ _ _ _ Hp Hs Hw0) as [Hw Hmax].
  destruct (echo_run i fuel keys w0 polls w0 w _ (echo_start w0 Hw) Hr) as [HI HE].
  destruct (echo_run i fuel keys w0 polls' w w' _ (conj HI HE) Hr') as [_ (_ & (_ & _ & Hm) & _)].
  rewrite <- Hmax, <- Hm. exact (echo_exchange i fuel keys polls polls' w0 w w' r tok c s c' s' Hw Hr Hr' Hn Hc Hss Hc' Hss').
Qed.
End program.

(** ** Witness: three bytes come in, the socket takes one of them at a time *)
Definition echo_stream : demo_stream := mkStream [IoOk [1; 2; 3]%Z] [IoOk 1; IoOk 1] [] [].
Notation echo_world := (World demo_stream TcpTransport Echo (list (io_result demo_stream))).

Definition echo_demo : io_result (Pool demo_stream TcpTransport Echo (list (io_result demo_stream)) nat) :=
  echo_host (with_max_pending_send 8 (mkHostOptions 1 0)) (IoOk [IoOk echo_stream; IoErr WouldBlock])
    (fun _ => IoOk 7000) [].

Definition echo_demo_pool : Pool demo_stream TcpTransport Echo (list (io_result demo_stream)) nat :=
  match echo_demo with IoOk p => p | IoErr _ => mkPool [] [] 0 end.

Definition echo_demo_start : echo_world :=
  match echo_starts echo_demo_pool 0 [[XWake; XStep 3]] [] with
  | Some w => w
  | None => mkWorld (mkReactor None ∅ mkEcho 2 1 0 8 []) demo_hub [] [] ∅ [] 0 [] []
  end.

Notation echo_demo_run := (Reactor.run 0 10 demo_keys).
Definition echo_accepted : echo_world := (echo_demo_run demo_accept echo_demo_start).2.
Definition echo_echoed : echo_world := (echo_demo_run demo_echo echo_accepted).2.

Lemma echo_returns_witness :
  exists given, [1; 2; 3]%Z = [] ++ given /\ [1; 2]%Z ++ [3]%Z = ([] ++ []) ++ given.
Proof.
  destruct (echo_returns 10 demo_keys (with_max_pending_send 8 (mkHostOptions 1 0))
    (IoOk [IoOk echo_stream; IoErr WouldBlock]) (fun _ => IoOk 7000) [] echo_demo_pool 0
    [[XWake; XStep 3]] [] demo_accept demo_echo echo_demo_start echo_accepted echo_echoed Waiting 2
    (mkConnection echo_stream 2 mkTcpTransport)
    (mkSession 1 2 (mkSendBuffer [] 0 8) false false)
    (mkConnection (mkStream [] [] [1; 2; 3]%Z [1; 2]%Z) 2 mkTcpTransport)
    (mkSession 1 2 (mkSendBuffer [1; 2; 3]%Z 2 8) false false)) as [_ H].
  1: vm_compute; reflexivity.
  1: repeat constructor.
  1, 2, 3: vm_compute; reflexivity.
  1: vm_compute; discriminate.
  1, 2, 3, 4: vm_compute; reflexivity.
  apply H; [vm_compute; reflexivity|]. vm_compute. lia.
Defined.
